(* ===== verification/_CoqProject ===== *)
-Q . S2P
Prelude.v
Memory.v
BufferBase.v
BufferParse.v
MutableBuffer.v
BufferSpec.v
BufferInsert.v
BufferSlice.v
Double.v
Time.v
Libc.v
Dump.v
Kernel.v
Os.v
Address.v
SdDaemon.v
Server.v
ServerLife.v
Accepting.v
Pipe.v
BufferStream.v
Stream.v
ChunkedStream.v
ChunkedRuns.v
FilterStream.v
Socket.v
Driver.v
Echo.v
File.v
FileMgr.v
Dispatch.v
Splicing.v
Relay.v
Process.v
EchoServer.v
Network.v
TcpClient.v
TcpLive.v
FilterApp.v
Instances.v
Examples.v
ExamplesApps.v
ExamplesText.v
ExamplesNet.v
ExamplesEcho.v
