(* ===== verification/Prelude.v ===== *)
(** * libxio: a verified model

    libxio is a C++ library for event-driven servers: byte buffers, streams of
    bytes, sockets and listening sockets.  This development models the library
    as it is written (include/xio, lib, support/sd-daemon of the repository),
    with the programs of its directory examples that do more than set it up,
    and proves what its parts compute, which invariants they keep and where
    they do not do what they mean to.

    ** The parts of the program and the files that model them

    - [Prelude] (this file): machine integers of x86-64 Linux with their
      wrap-around, bytes and character classes, the outcomes of a computation
      ([Ok], [Abort] for a failed assertion, [UB] for undefined behaviour,
      [NoFuel]), the state monad [ST], weakest preconditions [wp] for total
      correctness and the tactics that step through them.
    - [Memory]: the C heap as blocks of bytes, bounds-checked accesses,
      memcpy, memcmp, memchr, strlen, strncasecmp, malloc, realloc and free.
      The allocator's choices are the class [Allocator].
    - [BufferBase]: BufferRef and the template BufferBase of Buffer.h: find,
      rfind, split, begins, ends, ref, chomp, trim, substr, equals, iequals,
      hex, toInt, toBool and hash; [view], [cview] and [cstring] say what a
      pointer and a size stand for.  [BufferParse]: the numbers, the reverse
      searches and the hash, with decimal printing and FNV-1a as references;
      toDouble and toFloat over any strtod.
    - [MutableBuffer]: MutableBuffer, FixedBuffer and Buffer with
      Buffer::setCapacity of Buffer.cpp.  The template's parameter [ensure] is
      the class [Ensure]; the class [EnsureSpec] is what the operations need
      of it, and [immutableEnsure] and [mutableEnsure] are its two instances.
      [mbuf_rep] relates a buffer to its contents, [owned] says that it has a
      block of its own, [moves] what an operation may change.
    - [BufferSpec]: sequences of buffer operations against a specification on
      byte strings, and copy, move, c_str, printf and vprintf.  [BufferInsert]: the
      overloads of operator<< and the comparison operators.  [BufferSlice]:
      BufferOffset and BufferSlice.  [Dump]: the hex dump of Buffer.cpp.
    - [Libc]: strtok_r, atoi and strtoul.  [Kernel]: read, write, splice, tee,
      pipe2, sendfile and close on descriptors that share byte channels; the
      class [Kernel] has the calls and [KernelLaws] what the manual pages
      promise.  [Os]: the calls on sockets and descriptors as a dialogue with a
      system [OS] whose answers are arbitrary; the history of the dialogue,
      errno and the environment are the state.
    - [Address]: IPAddress and SocketSpec; inet_pton and inet_ntop are the
      class [InetText].  [SdDaemon]: sd_listen_fds, the sd_is tests, sd_notify
      and sd_booted of sd-daemon.c.
    - [Server]: ServerSocket, InetServer and UnixServer: opening (inherited,
      passed by systemd, created), accepting, closing, cloning and handing the
      descriptors on through the environment.  [ServerLife]: the life of a
      server as a step relation over an interface, the class [Listener], that
      both kinds of servers implement.  [Accepting]: what is called for a new
      client, and several clients per event.
    - [Pipe], [BufferStream], [ChunkedStream], [FilterStream]: the streams.
      A ChunkedStream's chunks are buffer streams and pipes, a FilterStream
      calls any parent and any filters.  [Stream]: the interface of the streams
      as a class, what Stream.cpp and StreamReader.h define on top of it, and
      the contract of a queue, which BufferStream and Pipe meet.
      [ChunkedRuns]: programs on a ChunkedStream against a list of
      chunks and a queue.
      [Dispatch]: the virtual functions of a Stream* by the class of its
      object, those that StreamReader.h forwards and StreamVisitor's.
    - [Double]: the rounding arithmetic of the type double on rational
      numbers.  [Time]: TimeSpan and DateTime.
    - [Socket]: the state machine of a connection, its watchers and its
      transfers; the event loop delivers events to active watchers.  With it
      SocketDriver.  [Driver]: which server owns which socket driver, with
      the drivers as objects on a heap.
    - [File]: File.cpp and FileStream.cpp, a file with its inotify watch and
      the stream over an open file.  [FileMgr]: the cache of files of
      FileMgr.cpp with its watches, MIME types and entity tags; the
      constructor of its entries is not in the repository and a parameter.
    - [Echo]: the server and the client handler of examples/echo-server.cpp, a
      composition of [Server], [Socket] and [BufferStream].  [EchoServer]: the
      server with any number of clients in one process, a step relation of
      arrivals, events, timeouts and signals.  [Splicing]: the transfer loops
      of examples/network-splicing.cpp and filter.cpp.
    - [Relay]: the three threads of network-splicing.cpp once they are
      connected, a step relation in which they take turns at any system call.
      [Process]: a monad over descriptors, memory and channels together.
      [Network]: the functions of network-splicing.cpp in it, each from its
      first statement to its last destructor.  [TcpClient]: tcp-client.cpp, its
      handlers and the runs of its event loop, with [TcpLive] for a loop that
      calls it when it can go on.  [FilterApp]: filter.cpp.
    - [Instances], [Examples], [ExamplesApps], [ExamplesText], [ExamplesNet]
      and [ExamplesEcho]: a concrete allocator, kernel, systems and filter that
      satisfy the laws, and the theorems applied to them.

    A C++ object is a record with the source's members; a member function is a
    definition with the source's name (a suffix tells overloads apart) that
    takes the object and returns the new one next to the result.  Code that
    touches memory runs in [ST memory], code that calls the kernel in
    [ST world], code on sockets and servers in [ST os_state]; whole programs
    that do all of this run in [ST process].

    ** What the theorems show

    - Buffers: every sequence of operations on a FixedBuffer, and on a Buffer
      without reserve(0), refines operations on byte strings, without undefined
      behaviour and inside of the buffer's own block, for every behaviour of
      the allocator; after reserve(0) the first operation that needs room is
      undefined, and nothing else is; growing and shrinking, copying, moving, terminating and formatting do
      what they should on the success and on the failure path; searching,
      splitting, trimming, comparing, parsing and hashing agree with
      definitions on lists (an empty string is never found); chains of <<
      append the texts of their values, if these lie outside of the buffer;
      slices survive reallocation; a hex dump can be read back.
    - Streams: a pipe is a queue in all its transfers, which its count measures
      except after read(Buffer&); every program of writes and reads on a buffer
      stream, or on a pipe whose count is right, runs as on a queue; a program
      on a chunked stream runs as on a list of chunks, and as on a queue when
      it never writes no bytes, up to a write that finds no memory; the filter
      stream composes one or two filters.
    - Sockets and servers: a server that was passed no descriptors, and a
      socket, that are opened only while they are closed (the socket with no
      other flags than O_NONBLOCK and O_CLOEXEC, and closed only while it is
      open) hold exactly the descriptors that they should over their whole
      life, for all answers of the system and in all orders of such calls and
      of events; opening and completing a connection are pinned on every path,
      with the path on which fcntl fails and the descriptor stays; descriptors
      handed to a child process arrive when the texts can be told apart; socket
      activation marks its descriptors; drivers that are given to one server
      each are deleted once.
      A notification of the service manager is one datagram
      to the address that the variable names, cut to 108 bytes, or the error of
      the call that failed.
    - Files: over the life of a file cache every entry has its path's type and
      tag, every watch stands for an entry and no descriptor is lost; a query
      and a reported change do exactly what they should; entity tags are equal
      when the selected attributes are.
    - Programs: each client of the echo server, of any number and in any order
      of events, is sent the beginning of what it sent, always, and all of it
      eventually, as long as memory is there and no read fills its array; no
      handler touches what is another client's; the signal, and exactly the
      messages that are taken for the command, stop the server, which then
      takes no client; a proxy is a queue between its two sockets, and delivers
      everything when the bytes fit and the kernel moves what there is room
      for.  The threads of network-splicing keep the bytes in order in every
      interleaving and end after a number of steps that the bytes bound; its
      functions give back what they took, main unless a thread was not created.
      The TCP client, once its connection is made, sends its request at most
      once and shows what it reads in order, all of a response of less than 64
      KiB eventually.
    - Dates and spans: the decomposition into units, the order of dates, sums
      of whole seconds and, below 2^32, milliseconds under rounding.
    - Deviations: where the code reads or writes out of bounds, loses or
      repeats bytes, does not terminate or closes a descriptor that is not its
      own, a theorem says so (names ending in _overread, _overflow, _ub,
      _dangles, _diverges, _overwrites, _blocks, _stale, _foreign, _leaks,
      _lost, _repeats, _wraps, _untimed, _keeps_path and socket_double_close).

    ** Bounds and fuel

    Objects have at most 2^47 bytes ([ADDR_SPACE]), the user half of the
    address space, so that sizes below 2^49 do not wrap; requests may be up to
    four times as large.  Loops whose number of rounds depends on memory take
    fuel: walks over a buffer take the size of the block plus one, the read
    loops of Pipe and Socket the number of bytes asked for plus one, clear()
    the count plus one, drain the number of bytes and chunks, the dump the
    number of bytes, the transfer loops of the examples any number above the
    bytes that the source holds; the theorems are
    about these definitions and show that they return, so that the fuel is
    enough, and the two theorems ending in _diverges hold for any fuel.

    ** What is not modelled

    Code that is disabled or commented out in the source, members that are
    declared without a definition, error texts and traces, the values NaN and
    infinity of a double.  vprintf does not compile in the template; its model
    calls the setCapacity of Buffer, the only class that has one.  Of the example programs, what they print about their
    progress; xiocp.cpp, whose main is empty.  The library has no threads of
    its own; those of network-splicing.cpp share no memory but the addresses
    that main sets before it starts them, so that the steps that they
    interleave are system calls, and results of pthread_create are arguments.
    The event loop is the relation of the events that it may deliver.  Blocking
    is not modelled: a call that would block is a step that is not taken yet.
    A slice whose buffer is gone cannot be expressed, and isspace of a negative
    character is false.  C++
    exceptions only occur as the call of an empty std::function.

    ** Plan

    All code of the repository that is compiled and does more than print is
    modelled.  What may be added: the start-up of network-splicing.cpp
    interleaved like its transfers. *)

From Stdlib Require Export ZArith Lia ZifyBool ZifyNat.
From Stdlib Require Import Strings.Byte.
From stdpp Require Export base numbers list gmap strings.

Local Open Scope Z_scope.

(** ** Machine integers (x86-64 Linux, LP64) *)

Definition SIZE_MAX : Z := 2 ^ 64 - 1.
Definition SSIZE_MAX : Z := 2 ^ 63 - 1.
Definition INT_MAX : Z := 2 ^ 31 - 1.
Definition INT_MIN : Z := - 2 ^ 31.

(** Unsigned wrap-around at [w] bits, and the two's complement reading of it. *)
Definition wrapu (w z : Z) : Z := z mod 2 ^ w.
Definition wraps (w z : Z) : Z := (z + 2 ^ (w - 1)) mod 2 ^ w - 2 ^ (w - 1).

Abbreviation u64 := (wrapu 64).
Abbreviation u32 := (wrapu 32).
Abbreviation s64 := (wraps 64).
Abbreviation s32 := (wraps 32).

Definition is_size (z : Z) : Prop := 0 <= z <= SIZE_MAX.
Definition is_int (z : Z) : Prop := INT_MIN <= z <= INT_MAX.

(** The user half of the x86-64 address space: no object is larger. *)
Definition ADDR_SPACE : Z := 2 ^ 47.

Lemma u64_small z : is_size z → u64 z = z.
Proof. unfold is_size, wrapu, SIZE_MAX. intros. apply Z.mod_small. lia. Qed.

Lemma u64_range z : is_size (u64 z).
Proof.
  unfold is_size, wrapu, SIZE_MAX.
  pose proof (Z.mod_pos_bound z (2 ^ 64)). lia.
Qed.

Lemma u32_small z : 0 <= z < 2 ^ 32 → u32 z = z.
Proof. apply Z.mod_small. Qed.

Lemma s64_small z : - 2 ^ 63 <= z < 2 ^ 63 → s64 z = z.
Proof. unfold wraps. intros. rewrite Z.mod_small; lia. Qed.

Lemma s64_u64 z : - 2 ^ 63 <= z < 2 ^ 63 → s64 (u64 z) = z.
Proof.
  intros Hz. unfold wraps, wrapu. rewrite Zplus_mod_idemp_l. rewrite Z.mod_small; lia.
Qed.

Lemma s32_small z : is_int z → s32 z = z.
Proof. unfold is_int, INT_MIN, INT_MAX, wraps. intros. rewrite Z.mod_small; lia. Qed.

Ltac unfold_sizes :=
  unfold is_size, is_int, SIZE_MAX, SSIZE_MAX, INT_MAX, INT_MIN, ADDR_SPACE in *.

(** Linear arithmetic with the machine constants unfolded. *)
Ltac zlia := unfold_sizes; lia.

(** ** Bytes and the C character functions of the "C" locale *)

Abbreviation byte := Byte.byte.
Abbreviation bytes := (list Byte.byte).

#[global] Instance byte_eq_dec : EqDecision byte := Byte.byte_eq_dec.
#[global] Instance byte_inhabited : Inhabited byte := populate Byte.x00.

Definition NUL : byte := Byte.x00.

(** [unsigned char] and (on x86-64) [signed char] readings of a byte. *)
Definition uchar (b : byte) : Z := Z.of_N (Byte.to_N b).
Definition schar (b : byte) : Z := wraps 8 (uchar b).

Definition byte_of_Z (z : Z) : byte :=
  match Byte.of_N (Z.to_N (z mod 256)) with Some b => b | None => Byte.x00 end.

Lemma uchar_range b : 0 <= uchar b < 256.
Proof. unfold uchar. pose proof (Byte.to_N_bounded b). lia. Qed.

Lemma schar_range b : -128 <= schar b < 128.
Proof. unfold schar, wraps. pose proof (Z.mod_pos_bound (uchar b + 2 ^ (8 - 1)) (2 ^ 8)). lia. Qed.

Lemma byte_of_Z_uchar b : byte_of_Z (uchar b) = b.
Proof. destruct b; reflexivity. Qed.

#[global] Instance uchar_inj : Inj (=) (=) uchar.
Proof. intros a b H. rewrite <- (byte_of_Z_uchar a), H. apply byte_of_Z_uchar. Qed.

Lemma uchar_byte_of_Z z : uchar (byte_of_Z z) = z mod 256.
Proof.
  unfold byte_of_Z, uchar. pose proof (Z.mod_pos_bound z 256 ltac:(lia)).
  destruct (Byte.of_N (Z.to_N (z mod 256))) as [b|] eqn:E.
  - apply Byte.to_of_N in E. rewrite E. lia.
  - apply Byte.of_N_None_iff in E. lia.
Qed.

#[global] Instance schar_inj : Inj (=) (=) schar.
Proof.
  intros a b H. apply (inj uchar).
  pose proof (uchar_range a). pose proof (uchar_range b).
  unfold schar, wraps in H. change (2 ^ (8 - 1)) with 128 in H. change (2 ^ 8) with 256 in H.
  pose proof (Z.div_mod (uchar a + 128) 256). pose proof (Z.div_mod (uchar b + 128) 256).
  nia.
Qed.

Definition isspace (b : byte) : bool :=
  let c := uchar b in (c =? 32) || ((9 <=? c) && (c <=? 13)).
Definition isdigit (b : byte) : bool := let c := uchar b in (48 <=? c) && (c <=? 57).
Definition isxdigit (b : byte) : bool :=
  let c := uchar b in
  isdigit b || ((97 <=? c) && (c <=? 102)) || ((65 <=? c) && (c <=? 70)).
Definition isprint (b : byte) : bool := let c := uchar b in (32 <=? c) && (c <=? 126).
Definition tolower (b : byte) : byte :=
  let c := uchar b in if (65 <=? c) && (c <=? 90) then byte_of_Z (c + 32) else b.

(** Byte strings from Rocq string literals. *)
Definition bs (s : String.string) : bytes := String.list_byte_of_string s.

(** ** Outcomes and the state monad

    [Ok]: the call returns.  [Abort]: an [assert] fails (the program is
    stopped).  [UB]: undefined behaviour, i.e. an access outside of a live
    object, a signed overflow, a null or dangling pointer used.  [NoFuel]: a
    loop ran longer than its fuel. *)
Inductive outcome (A : Type) : Type :=
| Ok (a : A)
| Abort
| UB
| NoFuel.
Arguments Ok {A} a.
Arguments Abort {A}.
Arguments UB {A}.
Arguments NoFuel {A}.

Definition ST (S A : Type) : Type := S → outcome (A * S).

#[global] Instance ST_ret {S} : MRet (ST S) := λ A a s, Ok (a, s).
#[global] Instance ST_bind {S} : MBind (ST S) := λ A B f c s,
  match c s with
  | Ok (a, s') => f a s'
  | Abort => Abort
  | UB => UB
  | NoFuel => NoFuel
  end.
#[global] Instance ST_fmap {S} : FMap (ST S) := λ A B f c, c ≫= λ a, mret (f a).

Definition ub {S A} : ST S A := λ _, UB.
Definition nofuel {S A} : ST S A := λ _, NoFuel.
Definition assert {S} (b : bool) : ST S () := λ s, if b then Ok ((), s) else Abort.
Definition gets {S A} (f : S → A) : ST S A := λ s, Ok (f s, s).
Definition modify {S} (f : S → S) : ST S () := λ s, Ok ((), f s).
Definition of_option {S A} (o : option A) : ST S A :=
  match o with Some a => mret a | None => ub end.

(** The result of a run without the final state. *)
Definition run {S A} (c : ST S A) (s : S) : outcome A :=
  match c s with Ok (a, _) => Ok a | Abort => Abort | UB => UB | NoFuel => NoFuel end.

(** ** Weakest preconditions: total correctness

    [wp c Q s]: run from [s], [c] returns normally with a result and a final
    state that satisfy [Q]; in particular it does not abort, does not hit
    undefined behaviour and does not run out of fuel. *)
Definition wp {S A} (c : ST S A) (Q : A → S → Prop) (s : S) : Prop :=
  match c s with Ok (a, s') => Q a s' | _ => False end.

Section wp_rules.
Context {S : Type}.
Implicit Types (s : S).

Lemma wp_ret {A} (a : A) Q s : Q a s → wp (mret a) Q s.
Proof. done. Qed.

Lemma wp_bind {A B} (c : ST S A) (f : A → ST S B) Q s :
  wp c (λ a s', wp (f a) Q s') s → wp (c ≫= f) Q s.
Proof. unfold wp, mbind, ST_bind. destruct (c s) as [[??]| | |]; done. Qed.

Lemma wp_bind_inv {A B} (c : ST S A) (f : A → ST S B) Q s :
  wp (c ≫= f) Q s → wp c (λ a s', wp (f a) Q s') s.
Proof. unfold wp, mbind, ST_bind. destruct (c s) as [[??]| | |]; done. Qed.

Lemma wp_mono {A} (c : ST S A) (Q R : A → S → Prop) s :
  wp c Q s → (∀ a s', Q a s' → R a s') → wp c R s.
Proof. unfold wp. destruct (c s) as [[??]| | |]; naive_solver. Qed.

Lemma wp_and {A} (c : ST S A) (Q R : A → S → Prop) s :
  wp c Q s → wp c R s → wp c (λ a s', Q a s' ∧ R a s') s.
Proof. unfold wp. destruct (c s) as [[??]| | |]; naive_solver. Qed.

Lemma wp_assert (b : bool) (Q : () → S → Prop) s : b = true → Q () s → wp (assert b) Q s.
Proof. intros ->. done. Qed.

Lemma wp_gets {A} (f : S → A) Q s : Q (f s) s → wp (gets f) Q s.
Proof. done. Qed.

Lemma wp_modify (f : S → S) (Q : () → S → Prop) s : Q () (f s) → wp (modify f) Q s.
Proof. done. Qed.

Lemma wp_of_option {A} (o : option A) a Q s : o = Some a → Q a s → wp (of_option o) Q s.
Proof. intros ->. done. Qed.

Lemma wp_fmap {A B} (f : A → B) (c : ST S A) Q s :
  wp c (λ a s', Q (f a) s') s → wp (f <$> c) Q s.
Proof. intros H. unfold fmap, ST_fmap. apply wp_bind. eapply wp_mono; [exact H|done]. Qed.

Lemma wp_Ok {A} (c : ST S A) Q s a s' : c s = Ok (a, s') → Q a s' → wp c Q s.
Proof. unfold wp. intros ->. done. Qed.

Lemma wp_elim {A} (c : ST S A) Q s : wp c Q s → ∃ a s', c s = Ok (a, s') ∧ Q a s'.
Proof. unfold wp. destruct (c s) as [[??]| | |]; naive_solver. Qed.

Lemma bind_Ok {A B} (c : ST S A) (f : A → ST S B) s a s' :
  c s = Ok (a, s') → (c ≫= f) s = f a s'.
Proof. unfold mbind, ST_bind. intros ->. done. Qed.

(** What holds of the outcome under a further condition. *)
Lemma wp_imp {A} (c : ST S A) (P : Prop) (Q R : A → S → Prop) s :
  wp c R s → (P → wp c Q s) → wp c (λ a s', R a s' ∧ (P → Q a s')) s.
Proof. unfold wp. destruct (c s) as [[??]| | |]; naive_solver. Qed.

(** The computation returns with [Q], or is undefined under [U]. *)
Definition handled {A} (m : ST S A) (Q : A → S → Prop) (U : Prop) s : Prop :=
  match m s with Ok (a, s') => Q a s' | UB => U | _ => False end.

Lemma handled_wp {A} (m : ST S A) Q U s : wp m Q s → handled m Q U s.
Proof. unfold wp, handled. by destruct (m s) as [[??]| | |]. Qed.

Lemma handled_bind {A B} (m : ST S A) (f : A → ST S B) Q U s :
  wp m (λ a s', handled (f a) Q U s') s → handled (m ≫= f) Q U s.
Proof. unfold wp, handled, mbind, ST_bind. by destruct (m s) as [[??]| | |]. Qed.

Lemma bind_elim {A B} (c : ST S A) (f : A → ST S B) s b s' :
  (c ≫= f) s = Ok (b, s') → ∃ a s1, c s = Ok (a, s1) ∧ f a s1 = Ok (b, s').
Proof. unfold mbind, ST_bind. destruct (c s) as [[a s1]| | |]; [eauto|done..]. Qed.

(** Computations that agree on the way agree. *)
Lemma bind_ext {A B} (c c' : ST S A) (f g : A → ST S B) s :
  c s = c' s → (∀ a s', c s = Ok (a, s') → f a s' = g a s') → (c ≫= f) s = (c' ≫= g) s.
Proof. unfold mbind, ST_bind. intros <-. destruct (c s) as [[a s1]| | |]; eauto. Qed.

Lemma bind_UB {A B} (c : ST S A) (f : A → ST S B) s : c s = UB → (c ≫= f) s = UB.
Proof. unfold mbind, ST_bind. intros ->. done. Qed.
End wp_rules.

Arguments wp : simpl never.

(** One step of symbolic execution on a [wp] goal. *)
Ltac wp_step :=
  lazymatch goal with
  | |- wp (if true then ?x else _) ?Q ?s => change (wp x Q s); wp_step
  | |- wp (if false then _ else ?x) ?Q ?s => change (wp x Q s); wp_step
  | |- wp (mret _) _ _ => apply wp_ret
  | |- wp (_ ≫= _) _ _ => apply wp_bind
  | |- wp (assert _) _ _ => apply wp_assert
  | |- wp (gets _) _ _ => apply wp_gets
  | |- wp (modify _) _ _ => apply wp_modify
  | |- wp (_ <$> _) _ _ => apply wp_fmap
  end.

(** [wp_apply H]: use the specification [H] of a call and continue with its
    postcondition. *)
Tactic Notation "wp_apply" uconstr(H) := eapply wp_mono; [eapply H|].
