(* ===== verification/Memory.v ===== *)
(** * Memory: the C heap, pointers and the libc memory functions

    The memory is a finite map from block numbers to byte arrays, as in
    CompCert: a pointer is a block and a byte offset, block 0 is the null
    block and is never allocated.  Every access is bounds-checked, an access
    outside of a live block is undefined behaviour ([UB]).  [realloc] always
    moves: the old pointer is dangling afterwards, which is what the C
    standard lets a program assume.  The allocator's choices (whether it has
    memory left, what fresh memory contains) are a parameter, [Allocator]. *)

From S2P Require Import Prelude.

Local Open Scope Z_scope.

(** ** Pointers *)

Record ptr : Type := Ptr { pblk : nat; poff : Z }.

#[global] Instance ptr_eq_dec : EqDecision ptr.
Proof. solve_decision. Defined.

Definition nullp : ptr := Ptr 0 0.

Definition ptr_add (p : ptr) (n : Z) : ptr := Ptr (pblk p) (poff p + n).
Notation "p +ₚ n" := (ptr_add p n) (at level 50, left associativity).

Definition ptr_eqb (p q : ptr) : bool := bool_decide (p = q).

Lemma ptr_add_0 p : p +ₚ 0 = p.
Proof. destruct p; unfold ptr_add; simpl; f_equal; lia. Qed.

Lemma ptr_add_add p a b : p +ₚ a +ₚ b = p +ₚ (a + b).
Proof. unfold ptr_add; simpl; f_equal; lia. Qed.

Lemma ptr_add_inj p a b : p +ₚ a = p +ₚ b → a = b.
Proof. unfold ptr_add. intros [=]. lia. Qed.

Lemma ptr_eqb_add p a b : ptr_eqb (p +ₚ a) (p +ₚ b) = (a =? b).
Proof.
  unfold ptr_eqb. destruct (Z.eqb_spec a b) as [->|Hn].
  - by rewrite bool_decide_eq_true_2.
  - rewrite bool_decide_eq_false_2; [done|]. intros H%ptr_add_inj. done.
Qed.

Lemma ptr_eqb_add_r p n : ptr_eqb p (p +ₚ n) = (n =? 0).
Proof. rewrite <- (ptr_add_0 p) at 1. rewrite ptr_eqb_add. apply Z.eqb_sym. Qed.

(** ** Memory states *)

Record memory : Type := Memory {
  blocks : gmap nat bytes;
  next : nat;       (* the next block number to hand out *)
  attempts : nat;   (* the number of allocation requests so far *)
}.

Abbreviation MM := (ST memory).

(** Blocks are numbered below [next], the null block is not allocated and no
    object exceeds the address space. *)
Record mem_wf (m : memory) : Prop := {
  wf_null : blocks m !! 0%nat = None;
  wf_next : (0 < next m)%nat;
  wf_fresh : ∀ b, (next m <= b)%nat → blocks m !! b = None;
  wf_size : ∀ b l, blocks m !! b = Some l → Z.of_nat (length l) <= ADDR_SPACE;
}.

Definition set_blocks (f : gmap nat bytes → gmap nat bytes) (m : memory) : memory :=
  Memory (f (blocks m)) (next m) (attempts m).

(** [n] bytes at [p]; an empty access touches nothing. *)
Definition loadbytes (m : memory) (p : ptr) (n : Z) : option bytes :=
  if n =? 0 then Some []
  else match blocks m !! pblk p with
       | Some l =>
           if (0 <=? n) && (0 <=? poff p) && (poff p + n <=? Z.of_nat (length l))
           then Some (take (Z.to_nat n) (drop (Z.to_nat (poff p)) l))
           else None
       | None => None
       end.

(** [write_at l o d]: the array [l] with [d] stored from index [o] on. *)
Definition write_at (l : bytes) (o : nat) (d : bytes) : bytes :=
  take o l ++ d ++ drop (o + length d) l.

Definition storebytes (m : memory) (p : ptr) (d : bytes) : option memory :=
  if decide (d = []) then Some m
  else match blocks m !! pblk p with
       | Some l =>
           if (0 <=? poff p) && (poff p + Z.of_nat (length d) <=? Z.of_nat (length l))
           then Some (set_blocks <[pblk p := write_at l (Z.to_nat (poff p)) d]> m)
           else None
       | None => None
       end.

(** [*p] as an rvalue and as an lvalue. *)
Definition load (p : ptr) : MM byte := λ m,
  match loadbytes m p 1 with Some [b] => Ok (b, m) | _ => UB end.

Definition read_range (p : ptr) (n : Z) : MM bytes := λ m,
  match loadbytes m p n with Some d => Ok (d, m) | None => UB end.

Definition write_range (p : ptr) (d : bytes) : MM () := λ m,
  match storebytes m p d with Some m' => Ok ((), m') | None => UB end.

(** ** libc memory and string functions *)

(** [memcpy]; the regions must not overlap. *)
Definition overlap (p q : ptr) (n : Z) : bool :=
  bool_decide (pblk p = pblk q) && (poff p <? poff q + n) && (poff q <? poff p + n).

Definition memcpy (dst src : ptr) (n : Z) : MM () :=
  if (0 <? n) && overlap dst src n then ub
  else d ← read_range src n; write_range dst d.

(** [memcmp]: the difference of the first two bytes that differ, or 0. *)
Fixpoint memcmp_bytes (a b : bytes) : Z :=
  match a, b with
  | x :: a', y :: b' => if uchar x =? uchar y then memcmp_bytes a' b' else uchar x - uchar y
  | _, _ => 0
  end.

Definition memcmp (p q : ptr) (n : Z) : MM Z :=
  a ← read_range p n; b ← read_range q n; mret (memcmp_bytes a b).

(** [memchr]: the first of [n] bytes equal to [c]. *)
Fixpoint memchr_bytes (c : byte) (l : bytes) : option nat :=
  match l with
  | [] => None
  | x :: l' => if bool_decide (x = c) then Some 0%nat else S <$> memchr_bytes c l'
  end.

Definition memchr (p : ptr) (c : byte) (n : Z) : MM ptr :=
  d ← read_range p n;
  mret match memchr_bytes c d with Some i => p +ₚ Z.of_nat i | None => nullp end.

(** [strlen]: the distance to the terminating NUL; there must be one in the
    block. *)
Definition strlen (p : ptr) : MM Z := λ m,
  match blocks m !! pblk p with
  | Some l =>
      if 0 <=? poff p then
        match memchr_bytes NUL (drop (Z.to_nat (poff p)) l) with
        | Some i => Ok (Z.of_nat i, m)
        | None => UB
        end
      else UB
  | None => UB
  end.

(** [strncasecmp]: at most [n] characters, stops after a common NUL. *)
Fixpoint strncasecmp_loop (n : nat) (p q : ptr) : MM Z :=
  match n with
  | O => mret 0
  | S n' =>
      a ← load p; b ← load q;
      let d := uchar (tolower a) - uchar (tolower b) in
      if negb (d =? 0) || bool_decide (a = NUL) then mret d
      else strncasecmp_loop n' (p +ₚ 1) (q +ₚ 1)
  end.

Definition strncasecmp (p q : ptr) (n : Z) : MM Z := strncasecmp_loop (Z.to_nat n) p q.

(** ** The allocator *)

(** What [malloc] and [realloc] are free to choose: per request, whether
    there is memory, and what the fresh bytes hold. *)
Class Allocator : Type := {
  fresh_bytes : memory → Z → option bytes;
  fresh_bytes_length m n d : fresh_bytes m n = Some d → Z.of_nat (length d) = n;
  fresh_bytes_max m n d : fresh_bytes m n = Some d → n <= ADDR_SPACE;
}.

Section allocation.
Context {AL : Allocator}.

Definition tick (m : memory) : memory := Memory (blocks m) (next m) (S (attempts m)).

Definition alloc_block (m : memory) (d : bytes) : ptr * memory :=
  (Ptr (next m) 0, Memory (<[next m := d]> (blocks m)) (S (next m)) (attempts m)).

Definition malloc (n : Z) : MM ptr := λ m,
  match fresh_bytes m n with
  | Some d => Ok (alloc_block (tick m) d)
  | None => Ok (nullp, tick m)
  end.

(** [free] wants null or the start of a live block. *)
Definition free (p : ptr) : MM () := λ m,
  if ptr_eqb p nullp then Ok ((), m)
  else if (poff p =? 0) && bool_decide (is_Some (blocks m !! pblk p))
  then Ok ((), set_blocks (delete (pblk p)) m)
  else UB.

(** [realloc] as glibc does it: a null pointer asks for a new block, size 0
    frees, otherwise the common prefix moves into a new block; when there
    is no memory the old block stays. *)
Definition realloc (p : ptr) (n : Z) : MM ptr := λ m,
  if ptr_eqb p nullp then malloc n m
  else if (poff p =? 0) then
    match blocks m !! pblk p with
    | None => UB
    | Some old =>
        if n =? 0 then Ok (nullp, set_blocks (delete (pblk p)) (tick m))
        else match fresh_bytes m n with
             | None => Ok (nullp, tick m)
             | Some d =>
                 let keep := Nat.min (length old) (length d) in
                 Ok (alloc_block (set_blocks (delete (pblk p)) (tick m))
                       (take keep old ++ drop keep d))
             end
    end
  else UB.
End allocation.

(** ** Reasoning about memory contents *)

(** The bytes [l] are readable at [p]. *)
Definition mem_at (m : memory) (p : ptr) (l : bytes) : Prop :=
  loadbytes m p (Z.of_nat (length l)) = Some l.

(** A step that leaves every old block except [b] as it was. *)
Record only_touches (b : nat) (m m' : memory) : Prop := {
  ot_next : (next m <= next m')%nat;
  ot_same : ∀ b', (b' < next m)%nat → b' ≠ b → blocks m' !! b' = blocks m !! b';
}.

Section contents.
Implicit Types (m : memory) (p q : ptr) (l d : bytes) (b : nat).

Lemma loadbytes_nil m p : loadbytes m p 0 = Some [].
Proof. done. Qed.

Lemma mem_at_nil m p : mem_at m p [].
Proof. done. Qed.

(** The block-level reading of [mem_at]. *)
Lemma mem_at_block m p l :
  l ≠ [] →
  mem_at m p l ↔
  ∃ c, blocks m !! pblk p = Some c ∧ 0 <= poff p ∧
       take (length l) (drop (Z.to_nat (poff p)) c) = l.
Proof.
  intros Hl. unfold mem_at, loadbytes.
  destruct (Z.eqb_spec (Z.of_nat (length l)) 0) as [E|_].
  { destruct l; simpl in *; [done|lia]. }
  assert (0 < length l)%nat by (destruct l; [done|simpl; lia]).
  split.
  - destruct (blocks m !! pblk p) as [c|] eqn:Hc; [|done].
    case_match eqn:E; [|done]. intros [= Ht]. rewrite Nat2Z.id in Ht.
    exists c. split; [done|]. split; [lia|done].
  - intros (c & -> & Ho & Ht).
    assert (length (take (length l) (drop (Z.to_nat (poff p)) c)) = length l) as Hlen
      by by rewrite Ht.
    rewrite length_take, length_drop in Hlen.
    replace (_ && _) with true by lia.
    by rewrite Nat2Z.id, Ht.
Qed.

Lemma mem_at_intro m p c l1 l l2 :
  blocks m !! pblk p = Some c → c = l1 ++ l ++ l2 → poff p = Z.of_nat (length l1) →
  mem_at m p l.
Proof.
  intros Hc -> Ho. destruct (decide (l = [])) as [->|Hl]; [done|].
  apply mem_at_block; [done|]. exists (l1 ++ l ++ l2). split; [done|]. split; [lia|].
  rewrite Ho, Nat2Z.id, drop_app_length, take_app_length. done.
Qed.

Lemma mem_at_app m p l1 l2 :
  mem_at m p (l1 ++ l2) ↔ mem_at m p l1 ∧ mem_at m (p +ₚ Z.of_nat (length l1)) l2.
Proof.
  destruct (decide (l1 = [])) as [->|H1].
  { simpl. rewrite ptr_add_0. pose proof (mem_at_nil m p). tauto. }
  destruct (decide (l2 = [])) as [->|H2].
  { rewrite app_nil_r. pose proof (mem_at_nil m (p +ₚ Z.of_nat (length l1))). tauto. }
  assert (l1 ++ l2 ≠ []) by (destruct l1; done).
  rewrite !mem_at_block by done. simpl. split.
  - intros (c & Hc & Ho & Ht). rewrite length_app, <- take_take_drop, drop_drop in Ht.
    assert (length (take (length l1) (drop (Z.to_nat (poff p)) c)) = length l1) as HL.
    { assert (length (take (length l1 + length l2) (drop (Z.to_nat (poff p)) c))
              = length l1 + length l2)%nat as Hlen
        by by rewrite <- take_take_drop, drop_drop, Ht, length_app.
      rewrite length_take in *. lia. }
    apply app_inj_1 in Ht as [Ht1 Ht2]; [|done].
    split; exists c; split_and!; try done; try lia.
    by rewrite Z2Nat.inj_add, Nat2Z.id by lia.
  - intros [(c & Hc & Ho & Ht1) (c' & Hc' & Ho' & Ht2)]. simplify_eq.
    exists c. split_and!; [done..|].
    rewrite Z2Nat.inj_add, Nat2Z.id in Ht2 by lia.
    by rewrite length_app, <- take_take_drop, drop_drop, Ht1, Ht2.
Qed.

Lemma mem_at_sub m p l i n :
  mem_at m p l → (i + n <= length l)%nat →
  mem_at m (p +ₚ Z.of_nat i) (take n (drop i l)).
Proof.
  intros H Hn. rewrite <- (take_drop i l) in H. apply mem_at_app in H as [_ H].
  rewrite length_take_le in H by lia.
  rewrite <- (take_drop n (drop i l)) in H. by apply mem_at_app in H as [H _].
Qed.

Lemma mem_at_lookup m p l i x :
  mem_at m p l → l !! i = Some x → mem_at m (p +ₚ Z.of_nat i) [x].
Proof.
  intros H Hi. rewrite <- (take_drop_middle l i x) in H by done.
  apply mem_at_app in H as [_ H].
  rewrite length_take_le in H by (apply lookup_lt_Some in Hi; lia).
  change (x :: drop (S i) l) with ([x] ++ drop (S i) l) in H.
  by apply mem_at_app in H as [H _].
Qed.

Lemma mem_at_length m p l : mem_wf m → mem_at m p l → Z.of_nat (length l) <= ADDR_SPACE.
Proof.
  intros Hwf H. destruct (decide (l = [])) as [->|Hl]; [done|].
  apply mem_at_block in H as (c & Hc & Ho & Ht); [|done].
  apply (wf_size _ Hwf) in Hc. rewrite <- Ht, length_take, length_drop. lia.
Qed.

Lemma mem_at_valid m p l : mem_wf m → mem_at m p l → l ≠ [] → (0 < pblk p < next m)%nat.
Proof.
  intros Hwf H Hl. apply mem_at_block in H as (c & Hc & _); [|done].
  pose proof (wf_null _ Hwf) as H0. pose proof (wf_fresh _ Hwf) as Hf.
  split; apply Nat.nle_gt; intros Hn.
  - replace (pblk p) with 0%nat in Hc by lia. congruence.
  - rewrite Hf in Hc by lia. done.
Qed.

(** *** Execution rules *)

Lemma load_ok m p x : mem_at m p [x] → load p m = Ok (x, m).
Proof. unfold mem_at, load. simpl. change (Z.of_nat 1) with 1. by intros ->. Qed.

Lemma wp_load m p x (Q : byte → memory → Prop) : mem_at m p [x] → Q x m → wp (load p) Q m.
Proof. intros H%load_ok. unfold wp. by rewrite H. Qed.

Lemma load_at m p l i x :
  mem_at m p l → l !! i = Some x → load (p +ₚ Z.of_nat i) m = Ok (x, m).
Proof. intros. eapply load_ok, mem_at_lookup; done. Qed.

Lemma read_range_ok m p l n :
  mem_at m p l → n = Z.of_nat (length l) → read_range p n m = Ok (l, m).
Proof. intros H ->. unfold read_range. by rewrite H. Qed.

Lemma wp_read_range m p l n (Q : bytes → memory → Prop) :
  mem_at m p l → n = Z.of_nat (length l) → Q l m → wp (read_range p n) Q m.
Proof. intros H Hn HQ. unfold wp. by rewrite (read_range_ok _ _ l). Qed.

Lemma length_write_at l o d :
  (o + length d <= length l)%nat → length (write_at l o d) = length l.
Proof. intros. unfold write_at. rewrite !length_app, length_take, length_drop. lia. Qed.

Lemma write_at_middle t l r u d :
  (length d <= length r)%nat →
  write_at (t ++ l ++ r ++ u) (length t + length l) d
  = t ++ ((l ++ d) ++ drop (length d) r) ++ u.
Proof.
  intros Hd. unfold write_at. rewrite (app_assoc t l).
  rewrite take_app_length' by (rewrite length_app; lia).
  rewrite drop_app_ge by (rewrite length_app; lia).
  replace (length t + length l + length d - length (t ++ l))%nat with (length d)
    by (rewrite length_app; lia).
  rewrite drop_app_le by lia. by rewrite <- !app_assoc.
Qed.

Lemma write_range_ok m p c d :
  blocks m !! pblk p = Some c → 0 <= poff p →
  poff p + Z.of_nat (length d) <= Z.of_nat (length c) → d ≠ [] →
  write_range p d m
  = Ok ((), set_blocks <[pblk p := write_at c (Z.to_nat (poff p)) d]> m).
Proof.
  intros Hc Ho Hd Hn. unfold write_range, storebytes.
  rewrite decide_False by done. rewrite Hc. by replace (_ && _) with true by lia.
Qed.

Lemma memcpy_ok m dst src d c n :
  mem_at m src d → n = Z.of_nat (length d) → d ≠ [] →
  blocks m !! pblk dst = Some c → 0 <= poff dst →
  poff dst + Z.of_nat (length d) <= Z.of_nat (length c) →
  pblk dst ≠ pblk src →
  memcpy dst src n m
  = Ok ((), set_blocks <[pblk dst := write_at c (Z.to_nat (poff dst)) d]> m).
Proof.
  intros Hs -> Hd Hc Ho Hle Hne. unfold memcpy, overlap.
  rewrite bool_decide_eq_false_2 by done. simpl. rewrite andb_false_r.
  erewrite bind_Ok by (eapply read_range_ok; eauto).
  by apply write_range_ok.
Qed.

Lemma memcpy_0 m dst src : memcpy dst src 0 m = Ok ((), m).
Proof. done. Qed.
End contents.

(** *** Frames *)
Section frames.
Implicit Types (m : memory) (b : nat).

Lemma only_touches_refl b m : only_touches b m m.
Proof. by split. Qed.

Lemma only_touches_trans b b1 m m1 m2 :
  only_touches b m m1 → only_touches b1 m1 m2 → b1 = b ∨ (next m <= b1)%nat →
  only_touches b m m2.
Proof.
  intros [Hn1 H1] [Hn2 H2] Hb. split; [lia|].
  intros b' Hlt Hne. rewrite H2 by (destruct Hb; subst; lia). by apply H1.
Qed.

Lemma only_touches_mem_at b m m' p l :
  mem_wf m → only_touches b m m' → pblk p ≠ b → mem_at m p l → mem_at m' p l.
Proof.
  intros Hwf [_ Hs] Hne H. destruct (decide (l = [])) as [->|Hl]; [done|].
  pose proof (mem_at_valid _ _ _ Hwf H Hl).
  unfold mem_at, loadbytes in *. rewrite Hs by lia. done.
Qed.

Lemma only_touches_write b m c :
  is_Some (blocks m !! b) → only_touches b m (set_blocks <[b := c]> m).
Proof.
  intros _. split; simpl; [lia|]. intros b' _ Hne. by rewrite lookup_insert_ne.
Qed.

Lemma mem_wf_write m b c c' :
  mem_wf m → blocks m !! b = Some c → length c' = length c →
  mem_wf (set_blocks <[b := c']> m).
Proof.
  intros [W0 W1 W2 W3] Hb Hlen. split; simpl; [|done| |].
  - rewrite lookup_insert_ne; [done|]. intros ->. congruence.
  - intros b' Hb'. rewrite lookup_insert_ne; [auto|]. intros ->.
    rewrite W2 in Hb; done.
  - intros b' l. rewrite lookup_insert. case_decide; subst.
    + intros [= <-]. rewrite Hlen. eauto.
    + eauto.
Qed.

Lemma mem_wf_tick m : mem_wf m → mem_wf (tick m).
Proof. by intros []. Qed.

Lemma mem_wf_delete m b : mem_wf m → mem_wf (set_blocks (delete b) m).
Proof.
  intros [W0 W1 W2 W3]. split; simpl; [|done| |].
  - rewrite lookup_delete. by case_decide.
  - intros b' Hb'. rewrite lookup_delete. case_decide; auto.
  - intros b' l. rewrite lookup_delete. case_decide; [done|eauto].
Qed.

Lemma mem_wf_alloc m d :
  mem_wf m → Z.of_nat (length d) <= ADDR_SPACE → mem_wf (alloc_block m d).2.
Proof.
  intros [W0 W1 W2 W3] Hd. split; simpl; [| lia | |].
  - rewrite lookup_insert_ne by lia. done.
  - intros b' Hb'. rewrite lookup_insert_ne by lia. apply W2. lia.
  - intros b' l. rewrite lookup_insert. case_decide; [by intros [= <-]|eauto].
Qed.

Lemma only_touches_tick b m : only_touches b m (tick m).
Proof. by split. Qed.

Lemma only_touches_delete b m : only_touches b m (set_blocks (delete b) m).
Proof. split; simpl; [lia|]. intros b' _ Hne. by rewrite lookup_delete_ne. Qed.

Lemma only_touches_alloc b m d : only_touches b m (alloc_block m d).2.
Proof. split; simpl; [lia|]. intros b' Hlt _. by rewrite lookup_insert_ne by lia. Qed.
End frames.

Create HintDb mem.
#[export] Hint Resolve mem_at_nil mem_wf_tick mem_wf_delete mem_wf_alloc only_touches_refl
  only_touches_tick only_touches_delete only_touches_alloc : mem.
