(* ===== verification/BufferBase.v ===== *)
(** * BufferBase: the read-only buffer interface (include/xio/Buffer.h)

    [BufferRef] is the unmanaged view: a pointer and a size.  The member
    functions of the template [BufferBase<T>] only use [data()] and [size()],
    so they are modelled once, on that pair.  Pointer loops carry a fuel
    bounded by the size of the block they walk through, since every iteration
    reads one more byte of it; the theorems show that they return. *)

From S2P Require Import Prelude Memory.

Local Open Scope Z_scope.

Record BufferRef : Type := mkRef { data_ : ptr; size_ : Z }.

Definition npos : Z := SIZE_MAX.

(** The default constructor: no data. *)
Definition BufferRef_empty : BufferRef := mkRef nullp 0.

(** [BufferRef(PodType (&value)[N])]: a view of a string literal, without its
    terminator. *)
Definition BufferRef_literal (value : ptr) (N : Z) : BufferRef := mkRef value (u64 (N - 1)).

(** Number of iterations a pointer walk through [p]'s block can make before
    it leaves the block. *)
Definition walk_fuel (p : ptr) : MM nat :=
  gets (λ m, S (S (length (default [] (blocks m !! pblk p))))).

Module BufferBase.

Definition data (b : BufferRef) : ptr := data_ b.
Definition size (b : BufferRef) : Z := size_ b.
Definition empty (b : BufferRef) : bool := size_ b =? 0.
Definition clear (b : BufferRef) : BufferRef := mkRef (data_ b) 0.
Definition begin (b : BufferRef) : ptr := data_ b.
Definition end_ (b : BufferRef) : ptr := data_ b +ₚ size_ b.
Definition at_ (b : BufferRef) (offset : Z) : MM byte := load (data_ b +ₚ offset).

(** Relational comparison of pointers: only defined inside one object. *)
Definition ptr_le (p q : ptr) : MM bool :=
  if bool_decide (pblk p = pblk q) then mret (poff p <=? poff q) else ub.

Definition contains (b ref : BufferRef) : MM bool :=
  lo ← ptr_le (begin b) (begin ref);
  if (lo : bool) then ptr_le (end_ ref) (end_ b) else mret false.

(** ** find *)

(** [while ( *p == *q && p != qe) { ++p; ++q; }] *)
Fixpoint find_inner (fuel : nat) (p q qe : ptr) : MM ptr :=
  match fuel with
  | O => nofuel
  | S fuel =>
      cp ← load p; cq ← load q;
      if bool_decide (cp = cq) && negb (ptr_eqb p qe)
      then find_inner fuel (p +ₚ 1) (q +ₚ 1) qe
      else mret p
  end.

(** The outer loop of both substring searches; [n] is the needle's length. *)
Fixpoint find_loop (fuel : nat) (base i e value : ptr) (n : Z) : MM Z :=
  match fuel with
  | O => nofuel
  | S fuel =>
      if ptr_eqb i e then mret npos
      else
        c ← load i; v ← load value;
        if bool_decide (c = v) then
          let qe := i +ₚ n in
          f ← walk_fuel i;
          p ← find_inner f (i +ₚ 1) (value +ₚ 1) qe;
          if ptr_eqb p qe then mret (poff i - poff base)
          else find_loop fuel base (i +ₚ 1) e value n
        else find_loop fuel base (i +ₚ 1) e value n
  end.

(** [find(const value_type* value, size_t offset)] *)
Definition find_cstr (b : BufferRef) (value : ptr) (offset : Z) : MM Z :=
  n ← strlen value;
  let value_length := s32 n in
  f ← walk_fuel (data_ b);
  find_loop f (data_ b) (begin b +ₚ offset) (end_ b) value value_length.

(** [find(PodType (&value)[N], size_t offset)] *)
Definition find_array (b : BufferRef) (value : ptr) (N offset : Z) : MM Z :=
  let i := data_ b +ₚ offset in
  f ← walk_fuel (data_ b);
  find_loop f (data_ b) i (i +ₚ (size_ b - offset)) value (N - 1).

(** [find(value_type value, size_t offset)] *)
Definition find_char (b : BufferRef) (value : byte) (offset : Z) : MM Z :=
  p ← memchr (data_ b +ₚ offset) value (u64 (size_ b - offset));
  if ptr_eqb p nullp then mret npos else mret (poff p - poff (data_ b)).

(** ** rfind *)

Fixpoint rfind_loop (fuel : nat) (p q : ptr) (value : byte) : MM Z :=
  match fuel with
  | O => nofuel
  | S fuel =>
      c ← load q;
      if bool_decide (c = value) then mret (poff q - poff p)
      else if ptr_eqb p q then mret npos
      else rfind_loop fuel p (q +ₚ -1) value
  end.

(** [rfind(value_type value, size_t offset)] *)
Definition rfind_char_from (b : BufferRef) (value : byte) (offset : Z) : MM Z :=
  if empty b then mret npos
  else
    f ← walk_fuel (data_ b);
    rfind_loop f (data_ b) (data_ b +ₚ offset) value.

(** [rfind(value_type value)] *)
Definition rfind_char (b : BufferRef) (value : byte) : MM Z :=
  rfind_char_from b value (u64 (size_ b - 1)).

(** [for (n = 0; n < N - 2; ++n) if (i[n] != value[n]) ...] of
    [rfind(PodType (&value)[N])]; the bound is computed in [size_t]. *)
Fixpoint rfind_match (fuel : nat) (n N : Z) (i value : ptr) : MM bool :=
  match fuel with
  | O => nofuel
  | S fuel =>
      if n <? u64 (N - 2) then
        c ← load (i +ₚ n); v ← load (value +ₚ n);
        if bool_decide (c = v) then rfind_match fuel (n + 1) N i value else mret false
      else mret true
  end.

Fixpoint rfind_array_loop (fuel : nat) (base i e value : ptr) (N : Z) : MM Z :=
  match fuel with
  | O => nofuel
  | S fuel =>
      if ptr_eqb i e then mret npos
      else
        c ← load i; v ← load (value +ₚ (N - 1));
        if bool_decide (c = v) then
          f ← walk_fuel i;
          found ← rfind_match f 0 N i value;
          if (found : bool) then mret (poff i - poff base)
          else rfind_array_loop fuel base (i +ₚ -1) e value N
        else rfind_array_loop fuel base (i +ₚ -1) e value N
  end.

(** [rfind(PodType (&value)[N])] *)
Definition rfind_array (b : BufferRef) (value : ptr) (N : Z) : MM Z :=
  if empty b then mret npos
  else if size_ b <? N - 1 then mret npos
  else
    f ← walk_fuel (data_ b);
    rfind_array_loop f (begin b) (end_ b) (begin b +ₚ (N - 1)) value N.

(** ** Sub-views *)

(** [ref(size_t offset)] *)
Definition ref_from (b : BufferRef) (offset : Z) : MM BufferRef :=
  assert (offset <=? size_ b);;
  mret (mkRef (data_ b +ₚ offset) (u64 (size_ b - offset))).

(** [ref(size_t offset, size_t count)] *)
Definition ref (b : BufferRef) (offset count : Z) : MM BufferRef :=
  assert (offset <=? size_ b);;
  assert ((count =? npos) || (u64 (offset + count) <=? size_ b));;
  mret (if negb (count =? npos)
        then mkRef (data_ b +ₚ offset) count
        else mkRef (data_ b +ₚ offset) (u64 (size_ b - offset))).

Definition split_char (b : BufferRef) (delimiter : byte) : MM (BufferRef * BufferRef) :=
  i ← find_char b delimiter 0;
  if i =? npos then
    r ← ref_from b 0; mret (r, BufferRef_empty)
  else
    x ← ref b 0 i; y ← ref b (u64 (i + 1)) npos; mret (x, y).

Definition split_cstr (b : BufferRef) (delimiter : ptr) : MM (BufferRef * BufferRef) :=
  i ← find_cstr b delimiter 0;
  if i =? npos then
    r ← ref_from b 0; mret (r, BufferRef_empty)
  else
    n ← strlen delimiter;
    x ← ref b 0 i; y ← ref b (u64 (i + n)) npos; mret (x, y).

(** ** begins / ends *)

Definition begins (b value : BufferRef) : MM bool :=
  if size_ value <=? size_ b then
    c ← memcmp (data_ b) (data_ value) (size_ value); mret (c =? 0)
  else mret false.

Definition begins_cstr (b : BufferRef) (value : ptr) : MM bool :=
  if ptr_eqb value nullp then mret true
  else
    len ← strlen value;
    if len <=? size_ b then c ← memcmp (data_ b) value len; mret (c =? 0)
    else mret false.

(** A [std::string] argument is the view of its characters. *)
Definition begins_string (b value : BufferRef) : MM bool :=
  if size_ value =? 0 then mret true else begins b value.

Definition begins_char (b : BufferRef) (value : byte) : MM bool :=
  if 1 <=? size_ b then c ← load (data_ b); mret (bool_decide (c = value))
  else mret false.

Definition ends (b value : BufferRef) : MM bool :=
  if empty value then mret true
  else
    let valueLength := size_ value in
    if size_ b <? valueLength then mret false
    else
      c ← memcmp (data_ b +ₚ size_ b +ₚ - valueLength) (data_ value) valueLength;
      mret (c =? 0).

Definition ends_char (b : BufferRef) (value : byte) : MM bool :=
  if 1 <=? size_ b then
    c ← load (data_ b +ₚ (size_ b - 1)); mret (bool_decide (c = value))
  else mret false.

Definition ends_cstr (b : BufferRef) (value : ptr) : MM bool :=
  if ptr_eqb value nullp then mret true
  else
    valueLength ← strlen value;
    if size_ b <? valueLength then mret false
    else
      c ← memcmp (data_ b +ₚ size_ b +ₚ - valueLength) value valueLength;
      mret (c =? 0).

(** ** chomp / trim

    [isspace] gets a [char]; of a negative one, which ISO C leaves undefined,
    it is false here, as in the C library's "C" locale, whose table covers the
    negative characters. *)

Definition chomp (b : BufferRef) : MM BufferRef :=
  nl ← ends_char b Byte.x0a;
  if (nl : bool) then ref b 0 (size_ b - 1) else ref b 0 (size_ b).

(** [while (left < size() && isspace(at(left))) ++left;] *)
Fixpoint trim_left (fuel : nat) (b : BufferRef) (left : Z) : MM Z :=
  match fuel with
  | O => nofuel
  | S fuel =>
      if left <? size_ b then
        c ← at_ b left;
        if isspace c then trim_left fuel b (left + 1) else mret left
      else mret left
  end.

(** [while (right > 0 && isspace(at(right))) --right;] *)
Fixpoint trim_right (fuel : nat) (b : BufferRef) (right : Z) : MM Z :=
  match fuel with
  | O => nofuel
  | S fuel =>
      if 0 <? right then
        c ← at_ b right;
        if isspace c then trim_right fuel b (right - 1) else mret right
      else mret right
  end.

Definition trim (b : BufferRef) : MM BufferRef :=
  f ← walk_fuel (data_ b);
  left ← trim_left f b 0;
  right ← trim_right f b (u64 (size_ b - 1));
  ref b left (u64 (1 + right - left)).

(** ** str / substr: the characters as a [std::string] value *)

Definition substr_from (b : BufferRef) (offset : Z) : MM bytes :=
  assert (offset <=? size_ b);;
  let count := size_ b - offset in
  if negb (count =? 0) then read_range (data_ b +ₚ offset) count else mret [].

Definition substr (b : BufferRef) (offset count : Z) : MM bytes :=
  assert (u64 (offset + count) <=? size_ b);;
  if negb (count =? 0) then read_range (data_ b +ₚ offset) count else mret [].

Definition str (b : BufferRef) : MM bytes := substr_from b 0.

(** ** Number parsing *)

Definition hex_digit (c : byte) : Z :=
  if isdigit c then uchar c - 48
  else if (97 <=? uchar c) && (uchar c <=? 102) then 10 + uchar c - 97
  else 10 + uchar c - 65.

(** [hex<U>()] for an unsigned [U] of [w] bits. *)
Fixpoint hex_loop (fuel : nat) (w : Z) (i e : ptr) (val : Z) : MM Z :=
  match fuel with
  | O => nofuel
  | S fuel =>
      if ptr_eqb i e then mret val
      else
        c ← load i;
        if negb (isxdigit c) then mret val
        else
          let val := if negb (val =? 0) then wrapu w (val * 16) else val in
          hex_loop fuel w (i +ₚ 1) e (wrapu w (val + hex_digit c))
  end.

Definition hex (w : Z) (b : BufferRef) : MM Z :=
  if ptr_eqb (begin b) (end_ b) then mret 0
  else f ← walk_fuel (data_ b); hex_loop f w (begin b) (end_ b) 0.

(** [int] arithmetic: overflow is undefined. *)
Definition int_result (z : Z) : MM Z :=
  if (INT_MIN <=? z) && (z <=? INT_MAX) then mret z else ub.

Fixpoint toInt_loop (fuel : nat) (i e : ptr) (val : Z) : MM Z :=
  match fuel with
  | O => nofuel
  | S fuel =>
      if ptr_eqb i e then mret val
      else
        c ← load i;
        if (schar c <? 48) || (57 <? schar c) then mret val
        else
          val ← (if negb (val =? 0) then int_result (val * 10) else mret val);
          val ← int_result (val + (schar c - 48));
          toInt_loop fuel (i +ₚ 1) e val
  end.

(** From the first digit on. *)
Definition toInt_digits (sign : bool) (i e : ptr) : MM Z :=
  f ← walk_fuel i;
  val ← toInt_loop f i e 0;
  if sign then int_result (- val) else mret val.

Definition toInt (b : BufferRef) : MM Z :=
  let i := begin b in
  let e := end_ b in
  if ptr_eqb i e then mret 0
  else
    c ← load i;
    if schar c =? 45 then
      if ptr_eqb (i +ₚ 1) e then mret 0 else toInt_digits true (i +ₚ 1) e
    else if schar c =? 43 then
      if ptr_eqb (i +ₚ 1) e then mret 0 else toInt_digits false (i +ₚ 1) e
    else toInt_digits false i e.

(** ** Equality *)

(** [equals(const BufferBase<T>& a, const BufferBase<T>& b)]; [same] says
    whether both arguments are one object ([&a == &b]). *)
Definition equals (same : bool) (a b : BufferRef) : MM bool :=
  if same then mret true
  else if negb (size_ a =? size_ b) then mret false
  else c ← memcmp (data_ a) (data_ b) (size_ a); mret (c =? 0).

(** [equals(const BufferBase<T>& a, PodType (&b)[N])] *)
Definition equals_array (a : BufferRef) (b : ptr) (N : Z) : MM bool :=
  let bsize := N - 1 in
  if negb (size_ a =? bsize) then mret false
  else c ← memcmp (data_ a) b bsize; mret (c =? 0).

(** [equals(const BufferBase<T>& a, const std::string& b)] *)
Definition equals_string (a b : BufferRef) : MM bool := equals false a b.

Definition iequals (same : bool) (a b : BufferRef) : MM bool :=
  if same then mret true
  else if negb (size_ a =? size_ b) then mret false
  else c ← strncasecmp (data_ a) (data_ b) (size_ a); mret (c =? 0).

Definition iequals_array (a : BufferRef) (b : ptr) (N : Z) : MM bool :=
  let bsize := N - 1 in
  if negb (size_ a =? bsize) then mret false
  else c ← strncasecmp (data_ a) b bsize; mret (c =? 0).

Definition iequals_string (a b : BufferRef) : MM bool := iequals false a b.

(** [toBool()]; [lit_true] and [lit_1] are the literals ["true"] and ["1"]. *)
Definition toBool (lit_true lit_1 : ptr) (b : BufferRef) : MM bool :=
  t ← iequals_array b lit_true 5;
  if (t : bool) then mret true
  else
    o ← equals_array b lit_1 2;
    if (o : bool) then mret true else mret false.

(** ** Hashing *)

(** One round of [xio::hash]: the [char] is sign-extended by [^=]. *)
Definition hash_step (result : Z) (value : byte) : Z :=
  u32 (Z.lxor result (u32 (schar value)) * 16777619).

Definition hash_bytes (l : bytes) : Z := fold_left hash_step l 2166136261.

Definition hash (b : BufferRef) : MM Z :=
  l ← read_range (data_ b) (size_ b); mret (hash_bytes l).
End BufferBase.

(** ** Views: the bytes a [BufferRef] stands for *)

Definition view (m : memory) (b : BufferRef) (l : bytes) : Prop :=
  mem_at m (data_ b) l ∧ size_ b = Z.of_nat (length l).

(** A view whose bytes are followed by a NUL, as with a string literal or
    after [c_str()]. *)
Definition cview (m : memory) (b : BufferRef) (l : bytes) : Prop :=
  mem_at m (data_ b) (l ++ [NUL]) ∧ size_ b = Z.of_nat (length l).

(** A C string: its characters, then the terminator. *)
Definition cstring (m : memory) (p : ptr) (v : bytes) : Prop :=
  mem_at m p (v ++ [NUL]) ∧ NUL ∉ v.

Lemma cview_view m b l : cview m b l → view m b l.
Proof. intros [H ?]. by apply mem_at_app in H as [H _]. Qed.

Lemma view_nil m p : view m (mkRef p 0) [].
Proof. split; [apply mem_at_nil|done]. Qed.

Lemma view_app m p l1 l2 :
  mem_at m p (l1 ++ l2) →
  view m (mkRef p (Z.of_nat (length l1))) l1
  ∧ view m (mkRef (p +ₚ Z.of_nat (length l1)) (Z.of_nat (length l2))) l2.
Proof. by intros [??]%mem_at_app. Qed.

Lemma view_size m b l : mem_wf m → view m b l → 0 <= size_ b <= ADDR_SPACE.
Proof. intros Hwf [H ->]. pose proof (mem_at_length _ _ _ Hwf H). lia. Qed.

Section memory_lemmas.
Implicit Types (m : memory) (l v : bytes).

Lemma wp_walk_fuel m p (Q : nat → memory → Prop) l :
  mem_at m p l → (∀ f, (length l < f)%nat → Q f m) → wp (walk_fuel p) Q m.
Proof.
  intros H HQ. unfold walk_fuel. wp_step. apply HQ.
  destruct (decide (l = [])) as [->|Hl]; [simpl; lia|].
  apply mem_at_block in H as (c & -> & _ & Ht); [|done]. simpl.
  rewrite <- Ht, length_take, length_drop. lia.
Qed.

Lemma memchr_bytes_Some c l i :
  memchr_bytes c l = Some i ↔ l !! i = Some c ∧ c ∉ take i l.
Proof.
  revert i. induction l as [|x l IH]; intros i; simpl; [split; [done|intros [? _]; done]|].
  case_bool_decide as E.
  - subst. split; [intros [= <-]; split; [done|apply not_elem_of_nil]|].
    intros [H1 H2]. destruct i as [|i]; [done|]. set_solver.
  - rewrite fmap_Some. setoid_rewrite IH. split.
    + intros (j & [H1 H2] & ->). simpl. split; [done|set_solver].
    + intros [H1 H2]. destruct i as [|i]; simpl in *; [naive_solver|].
      exists i. set_solver.
Qed.

Lemma memchr_bytes_None c l : memchr_bytes c l = None ↔ c ∉ l.
Proof.
  induction l as [|x l IH]; simpl; [set_solver|].
  case_bool_decide; subst; [set_solver|]. rewrite fmap_None, IH. set_solver.
Qed.

Lemma strlen_ok m p v : cstring m p v → strlen p m = Ok (Z.of_nat (length v), m).
Proof.
  intros [H Hv]. unfold strlen.
  apply mem_at_block in H as (c & -> & Ho & Ht); [|by destruct v].
  replace (0 <=? poff p) with true by lia.
  rewrite (proj2 (memchr_bytes_Some _ _ (length v))); [done|].
  set (d := drop (Z.to_nat (poff p)) c) in *.
  rewrite <- (take_drop (length (v ++ [NUL])) d), Ht, <- app_assoc. split.
  - by rewrite lookup_app_r, Nat.sub_diag by lia.
  - by rewrite take_app_length.
Qed.

Lemma memcmp_bytes_0 a b : length a = length b → (memcmp_bytes a b =? 0) = bool_decide (a = b).
Proof.
  revert b. induction a as [|x a IH]; intros [|y b]; simpl; try done.
  intros [= Hl]. destruct (Z.eqb_spec (uchar x) (uchar y)) as [E|E].
  - apply (inj uchar) in E as ->. rewrite IH by done.
    apply bool_decide_ext. split; [by intros ->|by intros [= ->]].
  - rewrite bool_decide_eq_false_2; [lia|]. intros [= -> _]. done.
Qed.

Lemma memcmp_ok m p q a b n :
  mem_at m p a → mem_at m q b → n = Z.of_nat (length a) → length a = length b →
  memcmp p q n m = Ok (memcmp_bytes a b, m).
Proof.
  intros Ha Hb Hn Hlen. unfold memcmp.
  erewrite bind_Ok by (by eapply read_range_ok).
  by erewrite bind_Ok by (eapply read_range_ok; [done|lia]).
Qed.
End memory_lemmas.

(** ** Substring search *)
Section find.
Import BufferBase.
Implicit Types (m : memory) (l v w x : bytes).

(** Length of the longest common prefix. *)
Fixpoint lcp (w x : bytes) : nat :=
  match w, x with
  | a :: w', b :: x' => if bool_decide (b = a) then S (lcp w' x') else 0
  | _, _ => 0
  end.

Lemma lcp_le w x : (lcp w x <= length w)%nat.
Proof.
  revert x. induction w as [|a w IH]; intros [|b x]; simpl; try lia.
  case_bool_decide; [|lia]. specialize (IH x). lia.
Qed.

Lemma lcp_prefix w x : lcp w x = length w ↔ w `prefix_of` x.
Proof.
  revert x. induction w as [|a w IH]; intros [|b x]; simpl.
  - split; [|done]. intros _. apply prefix_nil.
  - split; [|done]. intros _. apply prefix_nil.
  - split; [lia|]. by intros H%prefix_nil_not.
  - case_bool_decide as E; subst.
    + split.
      * intros [= H]. apply prefix_cons. by apply IH.
      * intros H%prefix_cons_inv_2%IH. lia.
    + split; [lia|]. intros H%prefix_cons_inv_1. done.
Qed.

Lemma find_inner_ok m w x p q fuel :
  mem_at m p (x ++ [NUL]) → mem_at m q (w ++ [NUL]) → NUL ∉ w → (length x < fuel)%nat →
  find_inner fuel p q (p +ₚ Z.of_nat (length w)) m = Ok (p +ₚ Z.of_nat (lcp w x), m).
Proof.
  revert x p q fuel.
  induction w as [|a w IH]; intros x p q [|fuel] Hp Hq HN Hf; [lia| |lia|].
  - assert (∃ c, mem_at m p [c]) as [c Hc].
    { destruct x as [|c x]; [by exists NUL|]. exists c.
      change ((c :: x) ++ [NUL]) with ([c] ++ (x ++ [NUL])) in Hp.
      by apply mem_at_app in Hp as [? _]. }
    cbn [find_inner]. erewrite bind_Ok by (by apply load_ok).
    erewrite bind_Ok by (by apply load_ok).
    rewrite ptr_eqb_add_r.
    rewrite andb_false_r. simpl. by rewrite ptr_add_0.
  - apply not_elem_of_cons in HN as [Ha HN].
    change ((a :: w) ++ [NUL]) with ([a] ++ (w ++ [NUL])) in Hq.
    apply mem_at_app in Hq as [Hq1 Hq2]. cbn [find_inner].
    destruct x as [|b x].
    + erewrite bind_Ok by (by apply load_ok). erewrite bind_Ok by (by apply load_ok).
      rewrite bool_decide_eq_false_2 by done. simpl. by rewrite ptr_add_0.
    + change ((b :: x) ++ [NUL]) with ([b] ++ (x ++ [NUL])) in Hp.
      apply mem_at_app in Hp as [Hp1 Hp2]. simpl in Hf.
      erewrite bind_Ok by (by apply load_ok). erewrite bind_Ok by (by apply load_ok).
      replace (ptr_eqb p _) with false by (rewrite ptr_eqb_add_r; simpl; lia).
      replace (p +ₚ Z.of_nat (length (a :: w))) with (p +ₚ 1 +ₚ Z.of_nat (length w))
        by (rewrite ptr_add_add; f_equal; simpl; lia).
      cbn [lcp]. case_bool_decide; cbn [andb negb].
      *           rewrite (IH x) by (done || lia). rewrite ptr_add_add. do 3 f_equal. lia.
      * by rewrite ptr_add_0.
Qed.

(** First position of [v] in [x]. *)
Fixpoint find_sub (v x : bytes) : option nat :=
  match x with
  | [] => None
  | _ :: x' => if bool_decide (v `prefix_of` x) then Some 0%nat else S <$> find_sub v x'
  end.

Lemma find_sub_Some v x k :
  v ≠ [] → find_sub v x = Some k →
  v `prefix_of` drop k x ∧ (k < length x)%nat ∧ ∀ j, (j < k)%nat → ¬ v `prefix_of` drop j x.
Proof.
  intros Hv. revert k. induction x as [|b x IH]; intros k; [done|]. cbn [find_sub].
  case_bool_decide as E.
  - intros [= <-]. simpl. split_and!; [done|lia|intros; lia].
  - intros (j & H & ->)%fmap_Some. apply IH in H as (H1 & H2 & H3).
    simpl. split_and!; [done|lia|]. intros [|i] ?; [done|]. apply H3. lia.
Qed.

Lemma find_sub_None v x : v ≠ [] → find_sub v x = None → ∀ j, ¬ v `prefix_of` drop j x.
Proof.
  intros Hv. induction x as [|b x IH]; cbn [find_sub].
  - intros _ j. rewrite drop_nil. by intros ->%prefix_nil_inv.
  - case_bool_decide as E; [done|]. intros H%fmap_None [|j]; [done|]. by apply IH.
Qed.

Lemma find_loop_ok m v x base i value fuel :
  v ≠ [] → NUL ∉ v → mem_at m i (x ++ [NUL]) → mem_at m value (v ++ [NUL]) →
  (length x < fuel)%nat →
  find_loop fuel base i (i +ₚ Z.of_nat (length x)) value (Z.of_nat (length v)) m
  = Ok (match find_sub v x with
        | Some k => poff i + Z.of_nat k - poff base | None => npos end, m).
Proof.
  intros Hv HN. destruct v as [|a v]; [done|]. clear Hv.
  revert i fuel. induction x as [|b x IH]; intros i [|fuel] Hi Hval Hf; simpl in Hf; try lia.
  - cbn [find_loop]. simpl (length []). change (Z.of_nat 0) with 0.
    by rewrite ptr_eqb_add_r.
  - cbn [find_loop find_sub].
    replace (ptr_eqb i _) with false by (rewrite ptr_eqb_add_r; simpl; lia).
    pose proof Hi as Hi0. pose proof Hval as Hval0.
    change ((b :: x) ++ [NUL]) with ([b] ++ (x ++ [NUL])) in Hi.
    change ((a :: v) ++ [NUL]) with ([a] ++ (v ++ [NUL])) in Hval.
    apply mem_at_app in Hi as [Hi1 Hi2]. apply mem_at_app in Hval as [Hv1 Hv2].
    erewrite bind_Ok by (by apply load_ok). erewrite bind_Ok by (by apply load_ok).
    assert (Hrec : find_loop fuel base (i +ₚ 1) (i +ₚ Z.of_nat (length (b :: x))) value
              (Z.of_nat (length (a :: v))) m
            = Ok (match find_sub (a :: v) x with
                  | Some k => poff i + Z.of_nat (S k) - poff base | None => npos end, m)).
    { replace (i +ₚ Z.of_nat (length (b :: x))) with (i +ₚ 1 +ₚ Z.of_nat (length x))
        by (rewrite ptr_add_add; f_equal; simpl; lia).
      rewrite (IH (i +ₚ 1)) by (done || lia).
      destruct (find_sub (a :: v) x); [|done]. do 2 f_equal. simpl. lia. }
    destruct (decide (b = a)) as [->|Hne].
    + rewrite bool_decide_eq_true_2 by done.
      apply not_elem_of_cons in HN as [_ HN].
      assert (Hstep : wp (walk_fuel i) (λ f m', m' = m ∧ (length x < f)%nat) m).
      { eapply wp_walk_fuel; [exact Hi0|]. intros f Hf'. split; [done|].
        rewrite length_app in Hf'. simpl in Hf'. lia. }
      apply wp_elim in Hstep as (f & m' & Hw & -> & Hlen).
      erewrite bind_Ok by exact Hw.
      replace (i +ₚ Z.of_nat (length (a :: v))) with (i +ₚ 1 +ₚ Z.of_nat (length v))
        by (rewrite ptr_add_add; f_equal; simpl; lia).
      erewrite bind_Ok by (by apply (find_inner_ok m v x)).
      rewrite ptr_eqb_add.
      destruct (Z.eqb_spec (Z.of_nat (lcp v x)) (Z.of_nat (length v))) as [E|E].
      * rewrite bool_decide_eq_true_2; [unfold mret, ST_ret; do 2 f_equal; lia|].
        apply prefix_cons, lcp_prefix. lia.
      * rewrite bool_decide_eq_false_2.
        { rewrite Hrec. by destruct (find_sub (a :: v) x). }
        intros H%prefix_cons_inv_2%lcp_prefix. lia.
    + rewrite bool_decide_eq_false_2 by done. rewrite Hrec.
      rewrite bool_decide_eq_false_2; [by destruct (find_sub (a :: v) x)|].
      intros H%prefix_cons_inv_1. done.
Qed.
End find.

Section find_theorems.
Import BufferBase.
Implicit Types (m : memory) (b : BufferRef) (l v : bytes).

Lemma drop_app_NUL m p l n :
  mem_at m p (l ++ [NUL]) → (n <= length l)%nat →
  mem_at m (p +ₚ Z.of_nat n) (drop n l ++ [NUL]).
Proof.
  intros H Hn. rewrite <- (take_drop n l), <- app_assoc in H.
  apply mem_at_app in H as [_ H]. by rewrite length_take_le in H by lia.
Qed.

(** [r] is the first position at or after [offset] where [v] occurs in [l],
    or [npos] when it does not occur there. *)
Definition first_occurrence (v l : bytes) (offset r : Z) : Prop :=
  (r = npos ∧ ∀ k, offset <= Z.of_nat k → ¬ v `prefix_of` drop k l)
  ∨ (offset <= r < Z.of_nat (length l) ∧ v `prefix_of` drop (Z.to_nat r) l
     ∧ ∀ k, offset <= Z.of_nat k < r → ¬ v `prefix_of` drop k l).

Lemma find_cstr_spec m b l value v offset :
  cview m b l → cstring m value v → v ≠ [] → Z.of_nat (length v) <= INT_MAX →
  0 <= offset <= size_ b →
  wp (find_cstr b value offset) (λ r m', m' = m ∧ first_occurrence v l offset r) m.
Proof.
  intros [Hb Hs] [Hv HN] Hne Hlen Ho. unfold find_cstr.
  wp_step. eapply wp_Ok; [by apply strlen_ok|]. rewrite s32_small by zlia.
  wp_step. eapply wp_walk_fuel; [exact Hb|]. intros f Hf. rewrite length_app in Hf.
  pose proof (drop_app_NUL _ _ _ (Z.to_nat offset) Hb ltac:(lia)) as Hd.
  rewrite Z2Nat.id in Hd by lia.
  pose proof (find_loop_ok m v (drop (Z.to_nat offset) l) (data_ b) (data_ b +ₚ offset)
                value f Hne HN Hd Hv) as H.
  rewrite length_drop in H. specialize (H ltac:(lia)).
  unfold begin, end_. replace (data_ b +ₚ size_ b) with
    (data_ b +ₚ offset +ₚ Z.of_nat (length l - Z.to_nat offset))
    by (rewrite ptr_add_add; f_equal; lia).
  eapply wp_Ok; [exact H|]. split; [done|].
  destruct (find_sub v (drop (Z.to_nat offset) l)) as [k|] eqn:E; simpl.
  - right. apply find_sub_Some in E as (H1 & H2 & H3); [|done].
    rewrite length_drop in H2. rewrite drop_drop in H1.
    split; [lia|]. split.
    + by replace (Z.to_nat _) with (Z.to_nat offset + k)%nat by lia.
    + intros j Hj. specialize (H3 (j - Z.to_nat offset)%nat ltac:(lia)).
      rewrite drop_drop in H3. by replace (_ + _)%nat with j in H3 by lia.
  - left. split; [done|]. intros j Hj.
    pose proof (find_sub_None _ _ Hne E (j - Z.to_nat offset)%nat) as H3.
    rewrite drop_drop in H3. by replace (_ + _)%nat with j in H3 by lia.
Qed.

(** A needle that starts with a character that does not occur. *)
Lemma find_loop_absent m c x rest base i value n fuel :
  c ∉ x → mem_at m i (x ++ rest) → mem_at m value [c] → (length x < fuel)%nat →
  find_loop fuel base i (i +ₚ Z.of_nat (length x)) value n m = Ok (npos, m).
Proof.
  revert i fuel. induction x as [|a x IH]; intros i [|fuel] Hc Hi Hv Hf; simpl in Hf; try lia.
  - cbn [find_loop]. simpl (length []). change (Z.of_nat 0) with 0. by rewrite ptr_eqb_add_r.
  - cbn [find_loop]. replace (ptr_eqb i _) with false by (rewrite ptr_eqb_add_r; simpl; lia).
    change ((a :: x) ++ rest) with ([a] ++ (x ++ rest)) in Hi. apply mem_at_app in Hi as [Hi1 Hi2].
    apply not_elem_of_cons in Hc as [Hne Hc].
    erewrite bind_Ok by (by apply load_ok). erewrite bind_Ok by (by apply load_ok).
    rewrite bool_decide_eq_false_2 by congruence.
    replace (i +ₚ Z.of_nat (length (a :: x))) with (i +ₚ 1 +ₚ Z.of_nat (length x))
      by (rewrite ptr_add_add; f_equal; simpl; lia).
    by apply IH; [..|lia].
Qed.

Lemma find_cstr_empty m b l value offset :
  cview m b l → cstring m value [] → 0 <= offset <= size_ b → NUL ∉ drop (Z.to_nat offset) l →
  wp (find_cstr b value offset) (λ r m', m' = m ∧ r = npos) m.
Proof.
  intros [Hb Hs] Hv Ho HN. unfold find_cstr. wp_step. eapply wp_Ok; [by apply strlen_ok|].
  wp_step. eapply wp_walk_fuel; [exact Hb|]. intros f Hf. rewrite length_app in Hf.
  pose proof (drop_app_NUL _ _ _ (Z.to_nat offset) Hb ltac:(lia)) as Hd.
  rewrite Z2Nat.id in Hd by lia. destruct Hv as [Hv _].
  pose proof (find_loop_absent m NUL (drop (Z.to_nat offset) l) [NUL] (data_ b) (data_ b +ₚ offset)
                value (s32 0) f HN Hd Hv) as H.
  rewrite length_drop in H. specialize (H ltac:(lia)).
  unfold begin, end_. replace (data_ b +ₚ size_ b) with
    (data_ b +ₚ offset +ₚ Z.of_nat (length l - Z.to_nat offset))
    by (rewrite ptr_add_add; f_equal; lia).
  by eapply wp_Ok; [exact H|].
Qed.

(** C28: [find(const char*, offset)] with an offset in the buffer, on a buffer
    whose bytes are followed by a NUL (a string literal, or after [c_str()]),
    returns and leaves memory alone.  For a needle that is not empty (and of at
    most INT_MAX bytes) the result is the first position at or after [offset]
    where the needle occurs inside the buffer, or [npos] when there is none.
    The empty string, which occurs everywhere, is never found: the result is
    [npos] in a text without a NUL. *)
Theorem find_cstr_correct m b l value v offset :
  cview m b l → cstring m value v → Z.of_nat (length v) <= INT_MAX → 0 <= offset <= size_ b →
  (v = [] → NUL ∉ drop (Z.to_nat offset) l) →
  wp (find_cstr b value offset) (λ r m', m' = m
    ∧ if decide (v = []) then r = npos else first_occurrence v l offset r) m.
Proof.
  intros Hb Hv Hlen Ho HN. destruct (decide (v = [])) as [->|Hne].
  - by apply (find_cstr_empty m b l); [..|apply HN].
  - by apply find_cstr_spec.
Qed.

Lemma find_inner_overread m w p q fuel :
  mem_at m p w → mem_at m q (w ++ [NUL]) → load (p +ₚ Z.of_nat (length w)) m = UB →
  (length w < fuel)%nat →
  find_inner fuel p q (p +ₚ Z.of_nat (length w)) m = UB.
Proof.
  revert p q fuel. induction w as [|a w IH]; intros p q [|fuel] Hp Hq HU Hf; simpl in Hf; try lia.
  - cbn [find_inner]. simpl in HU. rewrite ptr_add_0 in HU.
    unfold mbind, ST_bind. by rewrite HU.
  - change ((a :: w) ++ [NUL]) with ([a] ++ (w ++ [NUL])) in Hq.
    change (a :: w) with ([a] ++ w) in Hp.
    apply mem_at_app in Hp as [Hp1 Hp2]. apply mem_at_app in Hq as [Hq1 Hq2].
    cbn [find_inner]. erewrite bind_Ok by (by apply load_ok).
    erewrite bind_Ok by (by apply load_ok).
    rewrite bool_decide_eq_true_2 by done.
    replace (ptr_eqb p _) with false by (rewrite ptr_eqb_add_r; simpl; lia).
    replace (p +ₚ Z.of_nat (length (a :: w))) with (p +ₚ 1 +ₚ Z.of_nat (length w)) in *
      by (rewrite ptr_add_add; f_equal; simpl; lia).
    cbn [andb negb]. apply IH; done || lia.
Qed.

Lemma find_loop_overread m base i value l a v fuel :
  mem_at m i (l ++ a :: v) → mem_at m value (a :: v ++ [NUL]) → a ∉ l →
  load (i +ₚ Z.of_nat (length (l ++ a :: v))) m = UB → (length l < fuel)%nat →
  find_loop fuel base i (i +ₚ Z.of_nat (length (l ++ a :: v))) value
    (Z.of_nat (length (a :: v))) m = UB.
Proof.
  revert i fuel. induction l as [|x l IH]; intros i [|fuel] Hi Hv Ha HU Hf; simpl in Hf; try lia;
    cbn [find_loop];
    (replace (ptr_eqb i _) with false by (rewrite ptr_eqb_add_r; simpl; lia));
    pose proof Hv as [Hv1 Hv2]%(mem_at_app _ _ [a]); simpl app in *.
  - pose proof Hi as [Hi1 Hi2]%(mem_at_app _ _ [a]).
    erewrite bind_Ok by (by apply load_ok). erewrite bind_Ok by (by apply load_ok).
    rewrite bool_decide_eq_true_2 by done.
    assert (Hstep : wp (walk_fuel i) (λ f m', m' = m ∧ (length v < f)%nat) m).
    { eapply wp_walk_fuel; [exact Hi|]. simpl. intros f Hf'. split; [done|lia]. }
    apply wp_elim in Hstep as (f & m1 & Hw & -> & Hlen).
    erewrite bind_Ok by exact Hw.
    replace (i +ₚ Z.of_nat (length (a :: v))) with (i +ₚ 1 +ₚ Z.of_nat (length v)) in *
      by (rewrite ptr_add_add; f_equal; simpl; lia).
    unfold mbind at 1, ST_bind at 1. by rewrite find_inner_overread.
  - pose proof Hi as [Hi1 Hi2]%(mem_at_app _ _ [x]).
    apply not_elem_of_cons in Ha as [Hax Ha].
    erewrite bind_Ok by (by apply load_ok). erewrite bind_Ok by (by apply load_ok).
    rewrite bool_decide_eq_false_2 by done.
    replace (i +ₚ Z.of_nat (length (x :: l ++ a :: v)))
      with (i +ₚ 1 +ₚ Z.of_nat (length (l ++ a :: v))) in *
      by (rewrite ptr_add_add; f_equal; simpl; lia).
    apply IH; done || lia.
Qed.

(** [find(const char* value)] reads one byte past the buffer when the needle is
    found at its very end: for a buffer that fills its memory block exactly
    (a heap [Buffer] whose capacity equals its size) the search is undefined
    behaviour. *)
Theorem find_cstr_overread m b l a v value :
  blocks m !! pblk (data_ b) = Some (l ++ a :: v) → poff (data_ b) = 0 →
  size_ b = Z.of_nat (length (l ++ a :: v)) →
  cstring m value (a :: v) → Z.of_nat (length (a :: v)) <= INT_MAX → a ∉ l →
  find_cstr b value 0 m = UB.
Proof.
  intros Hb Ho Hs Hv Hlen Ha. unfold find_cstr.
  erewrite bind_Ok by (by apply strlen_ok). rewrite s32_small by zlia.
  unfold walk_fuel at 1. erewrite bind_Ok by done. rewrite Hb.
  unfold begin, end_. rewrite ptr_add_0, Hs. destruct Hv as [Hv _].
  apply find_loop_overread; [ |done|done| | ].
  - apply (mem_at_intro _ _ _ [] _ [] Hb); [by rewrite app_nil_r|done].
  - unfold load, loadbytes. simpl pblk. rewrite Hb. simpl poff. rewrite Ho.
    replace (_ && _) with false by lia. done.
  - simpl. rewrite length_app. lia.
Qed.
End find_theorems.

(** ** Sub-views, search by character, splitting *)
Section views.
Import BufferBase.
Implicit Types (m : memory) (b : BufferRef) (l v : bytes).

Lemma view_drop m b l n :
  view m b l → (n <= length l)%nat →
  view m (mkRef (data_ b +ₚ Z.of_nat n) (Z.of_nat (length l - n))) (drop n l).
Proof.
  intros [H Hs] Hn. split; simpl; [|by rewrite length_drop].
  pose proof (mem_at_sub _ _ _ n (length l - n) H ltac:(lia)) as H'.
  rewrite take_ge in H' by (rewrite length_drop; lia). done.
Qed.

Lemma wp_ref_from m b l n (Q : BufferRef → memory → Prop) :
  mem_wf m → view m b l → (n <= length l)%nat →
  (∀ r, view m r (drop n l) → data_ r = data_ b +ₚ Z.of_nat n → Q r m) →
  wp (ref_from b (Z.of_nat n)) Q m.
Proof.
  intros Hwf Hv Hn HQ. pose proof (view_size _ _ _ Hwf Hv). destruct (Hv) as [_ Hs].
  unfold ref_from. do 2 wp_step; [lia|]. wp_step.
  rewrite u64_small by zlia. apply HQ; [|done].
  replace (size_ b - Z.of_nat n) with (Z.of_nat (length l - n)) by lia.
  by apply view_drop.
Qed.

Lemma wp_ref m b l i n (Q : BufferRef → memory → Prop) :
  mem_wf m → view m b l → (i + n <= length l)%nat →
  (∀ r, view m r (take n (drop i l)) → data_ r = data_ b +ₚ Z.of_nat i → Q r m) →
  wp (ref b (Z.of_nat i) (Z.of_nat n)) Q m.
Proof.
  intros Hwf Hv Hn HQ. pose proof (view_size _ _ _ Hwf Hv). destruct (Hv) as [Hm Hs].
  unfold ref. do 2 wp_step; [lia|]. do 2 wp_step.
  { rewrite u64_small by zlia. lia. }
  wp_step. replace (Z.of_nat n =? npos) with false by (unfold npos; zlia).
  apply HQ; [|done]. split; simpl.
  - by apply mem_at_sub.
  - rewrite length_take, length_drop. lia.
Qed.

Lemma wp_ref_npos m b l i (Q : BufferRef → memory → Prop) :
  mem_wf m → view m b l → (i <= length l)%nat →
  (∀ r, view m r (drop i l) → data_ r = data_ b +ₚ Z.of_nat i → Q r m) →
  wp (ref b (Z.of_nat i) npos) Q m.
Proof.
  intros Hwf Hv Hn HQ. pose proof (view_size _ _ _ Hwf Hv). destruct (Hv) as [Hm Hs].
  unfold ref. do 2 wp_step; [lia|]. do 2 wp_step.
  { by rewrite Z.eqb_refl. }
  wp_step. rewrite Z.eqb_refl. simpl. rewrite u64_small by zlia.
  apply HQ; [|done]. replace (size_ b - Z.of_nat i) with (Z.of_nat (length l - i)) by lia.
  by apply view_drop.
Qed.

(** [find(char, offset)] returns the first position at or after [offset] that
    holds the character, or [npos]. *)
Lemma find_char_spec m b l c offset :
  mem_wf m → view m b l → 0 <= offset <= size_ b →
  wp (find_char b c offset) (λ r m', m' = m ∧
    ((r = npos ∧ c ∉ drop (Z.to_nat offset) l)
     ∨ (offset <= r < size_ b ∧ l !! Z.to_nat r = Some c
        ∧ ∀ k, offset <= Z.of_nat k < r → l !! k ≠ Some c))) m.
Proof.
  intros Hwf Hv Ho. pose proof (view_size _ _ _ Hwf Hv). destruct (Hv) as [Hm Hs].
  unfold find_char, memchr. rewrite u64_small by zlia.
  pose proof (view_drop _ _ _ (Z.to_nat offset) Hv ltac:(lia)) as [Hd _].
  simpl in Hd. rewrite Z2Nat.id in Hd by lia.
  do 2 wp_step. eapply wp_read_range; [exact Hd|rewrite length_drop; lia|]. wp_step.
  destruct (memchr_bytes c (drop (Z.to_nat offset) l)) as [i|] eqn:E.
  - apply memchr_bytes_Some in E as [Hi Hn].
    assert ((0 < pblk (data_ b) < next m)%nat).
    { eapply (mem_at_valid m (data_ b +ₚ offset)); [done..|]. intros Hnil.
      rewrite Hnil in Hi. done. }
    assert (Hnull : ptr_eqb (data_ b +ₚ offset +ₚ Z.of_nat i) nullp = false).
    { apply bool_decide_eq_false_2. intros [= E1 _]. lia. }
    rewrite Hnull. wp_step. split; [done|]. right.
    pose proof (lookup_lt_Some _ _ _ Hi) as Hlt. rewrite length_drop in Hlt.
    rewrite lookup_drop in Hi. simpl. split; [lia|]. split.
    + by replace (Z.to_nat _) with (Z.to_nat offset + i)%nat by lia.
    + intros k Hk Hk'. apply Hn. apply list_elem_of_lookup.
      exists (k - Z.to_nat offset)%nat. rewrite lookup_take_lt by lia.
      rewrite lookup_drop. by replace (_ + _)%nat with k by lia.
  - apply memchr_bytes_None in E. change (ptr_eqb nullp nullp) with true.
    wp_step. split; [done|]. by left.
Qed.

(** [split(char)] cuts the buffer at the first delimiter: both halves are
    views of the original bytes, the delimiter itself is dropped; without a
    delimiter the whole buffer comes first and the second half is empty. *)
Theorem split_char_correct m b l d :
  mem_wf m → view m b l →
  wp (split_char b d) (λ r m', m' = m ∧
    (((d ∉ l) ∧ view m r.1 l ∧ r.2 = BufferRef_empty)
     ∨ ∃ l1 l2, l = l1 ++ d :: l2 ∧ (d ∉ l1) ∧ view m r.1 l1 ∧ view m r.2 l2)) m.
Proof.
  intros Hwf Hv. pose proof (view_size _ _ _ Hwf Hv). destruct (Hv) as [Hm Hs].
  unfold split_char. wp_step.
  wp_apply (find_char_spec m b l d 0 Hwf Hv); [lia|].
  intros r m' [-> [[-> Hn]|(Hr & Hi & Hmin)]].
  - rewrite Z.eqb_refl. wp_step. apply (wp_ref_from m b l 0); [done..|lia|].
    intros r Hr _. wp_step. split; [done|]. left. done.
  - replace (r =? npos) with false by (unfold npos; zlia).
    rewrite u64_small by zlia. wp_step.
    replace r with (Z.of_nat (Z.to_nat r)) at 1 by lia.
    apply (wp_ref m b l 0); [done..|lia|]. intros x Hx _. wp_step.
    replace (r + 1) with (Z.of_nat (S (Z.to_nat r))) by lia.
    apply (wp_ref_npos m b l); [done..|lia|]. intros y Hy _. wp_step.
    split; [done|]. right. exists (take (Z.to_nat r) l), (drop (S (Z.to_nat r)) l).
    split; [by rewrite take_drop_middle|]. split; [|done].
    intros [k Hk]%list_elem_of_lookup. apply lookup_take_Some in Hk as [Hk Hlt].
    apply (Hmin k); [lia|done].
Qed.

(** [split(const char* delimiter)] cuts a NUL-followed buffer at the
    first occurrence of the delimiter string. *)
Theorem split_cstr_correct m b l p d :
  mem_wf m → cview m b l → cstring m p d → d ≠ [] → Z.of_nat (length d) <= INT_MAX →
  wp (split_cstr b p) (λ r m', m' = m ∧
    ((r.2 = BufferRef_empty ∧ view m r.1 l ∧ ∀ k, ¬ d `prefix_of` drop k l)
     ∨ ∃ l1 l2, l = l1 ++ d ++ l2 ∧ view m r.1 l1 ∧ view m r.2 l2
         ∧ ∀ k, (k < length l1)%nat → ¬ d `prefix_of` drop k l)) m.
Proof.
  intros Hwf Hc Hd Hne Hlen. pose proof (cview_view _ _ _ Hc) as Hv.
  pose proof (view_size _ _ _ Hwf Hv). destruct (Hv) as [Hm Hs].
  unfold split_cstr. wp_step.
  wp_apply (find_cstr_spec m b l p d 0 Hc Hd Hne Hlen); [lia|].
  intros r m' [-> [[-> Hn]|(Hr & [rest Hp] & Hmin)]].
  - rewrite Z.eqb_refl. wp_step. apply (wp_ref_from m b l 0); [done..|lia|].
    intros r Hr _. wp_step. split; [done|]. left. split; [done|]. split; [done|].
    intros k. apply Hn. lia.
  - replace (r =? npos) with false by (unfold npos; zlia).
    wp_step. eapply wp_Ok; [by apply strlen_ok|].
    assert (Z.to_nat r + length d <= length l)%nat as Hle.
    { apply (f_equal length) in Hp. rewrite length_drop, length_app in Hp. lia. }
    rewrite u64_small by zlia. wp_step.
    replace r with (Z.of_nat (Z.to_nat r)) at 1 by lia.
    apply (wp_ref m b l 0); [done..|lia|]. intros x Hx _. wp_step.
    replace (r + Z.of_nat (length d)) with (Z.of_nat (Z.to_nat r + length d)) by lia.
    apply (wp_ref_npos m b l); [done..|lia|]. intros y Hy _. wp_step.
    split; [done|]. right.
    exists (take (Z.to_nat r) l), (drop (Z.to_nat r + length d) l).
    assert (rest = drop (Z.to_nat r + length d) l) as ->.
    { by rewrite <- drop_drop, Hp, drop_app_length. }
    rewrite <- Hp, take_drop. split; [done|]. split; [done|]. split; [done|].
    rewrite length_take_le by lia. intros k Hk. apply Hmin. lia.
Qed.
End views.

(** ** Comparisons *)
Section comparisons.
Import BufferBase.
Implicit Types (m : memory) (a b : BufferRef) (l v : bytes).

Lemma prefix_take_eq v l :
  (length v <= length l)%nat → bool_decide (take (length v) l = v) = bool_decide (v `prefix_of` l).
Proof.
  intros Hle. apply bool_decide_ext. split.
  - intros <-. apply prefix_take.
  - intros [k ->]. by rewrite take_app_length.
Qed.

Lemma suffix_drop_eq v l :
  (length v <= length l)%nat →
  bool_decide (drop (length l - length v) l = v) = bool_decide (v `suffix_of` l).
Proof.
  intros Hle. apply bool_decide_ext. split.
  - intros H. exists (take (length l - length v) l). by rewrite <- H at 2; rewrite take_drop.
  - intros [k ->]. rewrite length_app, Nat.add_sub. apply drop_app_length.
Qed.

(** [begins(value)] tests for a prefix and [ends(value)] for a suffix, on
    every pair of readable buffers, and both leave memory alone. *)
Theorem begins_ends_correct m b value l v :
  mem_wf m → view m b l → view m value v →
  begins b value m = Ok (bool_decide (v `prefix_of` l), m)
  ∧ ends b value m = Ok (bool_decide (v `suffix_of` l), m).
Proof.
  intros Hwf [Hl Hsl] [Hv Hsv]. split.
  - unfold begins. destruct (Z.leb_spec (size_ value) (size_ b)).
    + pose proof (mem_at_sub _ _ _ 0 (length v) Hl ltac:(lia)) as Hp.
      simpl in Hp. rewrite ptr_add_0, drop_0 in Hp.
      assert (length (take (length v) l) = length v) by (rewrite length_take; lia).
      erewrite bind_Ok by (eapply memcmp_ok; [exact Hp|exact Hv|lia|lia]).
      rewrite memcmp_bytes_0 by done. by rewrite prefix_take_eq by lia.
    + rewrite bool_decide_eq_false_2; [done|]. intros ?%prefix_length. lia.
  - unfold ends, empty. destruct (Z.eqb_spec (size_ value) 0).
    + destruct v; [|simpl in *; lia].
      rewrite bool_decide_eq_true_2; [done|]. apply suffix_nil.
    + destruct (Z.ltb_spec (size_ b) (size_ value)).
      * rewrite bool_decide_eq_false_2; [done|]. intros ?%suffix_length. lia.
      * pose proof (view_drop m b l (length l - length v) (conj Hl Hsl) ltac:(lia)) as [Hp _].
        simpl in Hp. rewrite ptr_add_add.
        replace (size_ b + - size_ value) with (Z.of_nat (length l - length v)) by lia.
        assert (length (drop (length l - length v) l) = length v)
          by (rewrite length_drop; lia).
        erewrite bind_Ok by (eapply memcmp_ok; [exact Hp|exact Hv|lia|lia]).
        rewrite memcmp_bytes_0 by done. by rewrite suffix_drop_eq by lia.
Qed.

Lemma wp_ends_char m b l c (Q : bool → memory → Prop) :
  view m b l → Q (bool_decide (last l = Some c)) m → wp (ends_char b c) Q m.
Proof.
  intros [Hl Hs] HQ. unfold ends_char. destruct (Z.leb_spec 1 (size_ b)).
  - destruct l as [|x l _] using rev_ind; [simpl in *; lia|].
    rewrite last_snoc in HQ. apply mem_at_app in Hl as [_ Hx].
    rewrite length_app in Hs. simpl in Hs.
    replace (size_ b - 1) with (Z.of_nat (length l)) by lia.
    wp_step. eapply wp_load; [done|]. wp_step.
    erewrite bool_decide_ext; [exact HQ|]. naive_solver.
  - wp_step. destruct l; [|simpl in *; lia]. done.
Qed.

(** [chomp()] drops exactly one trailing newline, if there is one. *)
Theorem chomp_correct m b l :
  mem_wf m → view m b l →
  wp (chomp b) (λ r m', m' = m ∧ data_ r = data_ b ∧
    ((∃ l0, l = l0 ++ [Byte.x0a] ∧ view m r l0)
     ∨ (last l ≠ Some Byte.x0a ∧ view m r l))) m.
Proof.
  intros Hwf Hv. pose proof (view_size _ _ _ Hwf Hv). destruct (Hv) as [Hm Hs].
  unfold chomp. wp_step. eapply wp_ends_char; [done|].
  case_bool_decide as E.
  - apply last_Some in E as [l0 ->]. rewrite length_app in Hs. simpl in Hs.
    replace (size_ b - 1) with (Z.of_nat (length l0)) by lia.
    apply (wp_ref m b (l0 ++ [Byte.x0a]) 0); [done..|rewrite length_app; lia|].
    intros r Hr Hd. rewrite drop_0, take_app_length in Hr. rewrite ptr_add_0 in Hd.
    split; [done|]. split; [done|]. left. by exists l0.
  - rewrite Hs. apply (wp_ref m b l 0); [done..|].
    intros r Hr Hd. rewrite drop_0, take_ge in Hr by lia. rewrite ptr_add_0 in Hd. auto.
Qed.

Lemma equals_spec m a b la lb :
  view m a la → view m b lb → equals false a b m = Ok (bool_decide (la = lb), m).
Proof.
  intros [Ha Hsa] [Hb Hsb]. unfold equals. destruct (Z.eqb_spec (size_ a) (size_ b)) as [E|E].
  - cbn [negb]. erewrite bind_Ok by (eapply memcmp_ok; [exact Ha|exact Hb|lia|lia]).
    by rewrite memcmp_bytes_0 by lia.
  - simpl. rewrite bool_decide_eq_false_2; [done|]. intros ->. lia.
Qed.

(** [equals] on two distinct buffer objects holds exactly when they hold
    the same bytes. *)
Theorem equals_correct m a b la lb :
  view m a la → view m b lb →
  equals false a b m = Ok (bool_decide (la = lb), m).
Proof. apply equals_spec. Qed.

Lemma strncasecmp_loop_ok m p q la lb :
  mem_at m p la → mem_at m q lb → length la = length lb → NUL ∉ la →
  ∃ d, strncasecmp_loop (length la) p q m = Ok (d, m)
       ∧ (d =? 0) = bool_decide (tolower <$> la = tolower <$> lb).
Proof.
  revert p q lb. induction la as [|x la IH]; intros p q [|y lb] Hp Hq Hlen HN; try done.
  { by exists 0. }
  apply not_elem_of_cons in HN as [Hx HN].
  apply (mem_at_app _ _ [x]) in Hp as [Hp1 Hp2].
  apply (mem_at_app _ _ [y]) in Hq as [Hq1 Hq2].
  cbn [length strncasecmp_loop].
  erewrite bind_Ok by (by apply load_ok). erewrite bind_Ok by (by apply load_ok).
  rewrite (bool_decide_eq_false_2 (x = NUL)) by done. rewrite orb_false_r.
  destruct (Z.eqb_spec (uchar (tolower x) - uchar (tolower y)) 0) as [E|E]; cbn [negb].
  - edestruct (IH (p +ₚ 1) (q +ₚ 1) lb) as (d & H1 & H2); [done|done|simpl in *; lia|done|].
    exists d. split; [done|]. rewrite H2. apply bool_decide_ext.
    assert (tolower x = tolower y) as Exy by (apply (inj uchar); lia).
    rewrite !fmap_cons, Exy. split; intros Heq; [by rewrite Heq|by injection Heq].
  - exists (uchar (tolower x) - uchar (tolower y)). split; [done|].
    rewrite bool_decide_eq_false_2; [lia|]. intros [= Heq _]. rewrite Heq in E. lia.
Qed.

(** [iequals] holds exactly when the two buffers agree up to ASCII case,
    provided that the first one has no NUL byte. *)
Theorem iequals_correct m a b la lb :
  view m a la → view m b lb → NUL ∉ la →
  iequals false a b m = Ok (bool_decide (tolower <$> la = tolower <$> lb), m).
Proof.
  intros [Ha Hsa] [Hb Hsb] HN. unfold iequals.
  destruct (Z.eqb_spec (size_ a) (size_ b)) as [E|E]; simpl.
  - destruct (strncasecmp_loop_ok m (data_ a) (data_ b) la lb) as (d & H1 & H2);
      [done|done|lia|done|].
    unfold strncasecmp. rewrite Hsa, Nat2Z.id. erewrite bind_Ok by exact H1.
    by rewrite <- H2.
  - rewrite bool_decide_eq_false_2; [done|]. intros Heq%(f_equal length).
    rewrite !length_fmap in Heq. lia.
Qed.
End comparisons.

(** ** trim *)
Section trim.
Import BufferBase.
Implicit Types (m : memory) (b : BufferRef) (l s : bytes) (c : byte).

Definition blank (s : bytes) : Prop := Forall (λ c, isspace c = true) s.

Lemma trim_left_ok m b l s c r fuel :
  view m b l → l = s ++ c :: r → isspace c = false →
  ∀ k, (k <= length s)%nat → blank (drop k s) → (length s - k < fuel)%nat →
  trim_left fuel b (Z.of_nat k) m = Ok (Z.of_nat (length s), m).
Proof.
  intros [Hm Hs] -> Hc. induction fuel as [|fuel IH]; intros k Hk HB Hf; [lia|].
  rewrite length_app in Hs. simpl in Hs. cbn [trim_left].
  replace (Z.of_nat k <? size_ b) with true by lia. unfold at_.
  destruct (decide (k = length s)) as [->|Hne].
  - erewrite bind_Ok by (eapply load_at; [done|];
      by rewrite lookup_app_r, Nat.sub_diag by lia).
    by rewrite Hc.
  - destruct (lookup_lt_is_Some_2 s k) as [x Hx]; [lia|].
    erewrite bind_Ok by (eapply load_at; [done|]; by rewrite lookup_app_l by lia).
    rewrite (drop_S _ _ _ Hx) in HB. apply Forall_cons in HB as [-> HB].
    replace (Z.of_nat k + 1) with (Z.of_nat (S k)) by lia. apply IH; done || lia.
Qed.

Lemma trim_left_blank m b s fuel :
  view m b s → blank s → ∀ k, (k <= length s)%nat → (length s - k < fuel)%nat →
  trim_left fuel b (Z.of_nat k) m = Ok (size_ b, m).
Proof.
  intros [Hm Hs] HB. induction fuel as [|fuel IH]; intros k Hk Hf; [lia|].
  cbn [trim_left]. destruct (Z.ltb_spec (Z.of_nat k) (size_ b)).
  - destruct (lookup_lt_is_Some_2 s k) as [x Hx]; [lia|]. unfold at_.
    erewrite bind_Ok by (by eapply load_at).
    pose proof (Forall_lookup_1 _ _ _ _ HB Hx) as Hsp. cbv beta in Hsp. rewrite Hsp.
    replace (Z.of_nat k + 1) with (Z.of_nat (S k)) by lia. apply IH; lia.
  - unfold mret, ST_ret. do 2 f_equal. lia.
Qed.

Lemma trim_right_ok m b pre c s fuel :
  mem_at m (data_ b) (pre ++ c :: s) → isspace c = false → blank s →
  (length s < fuel)%nat →
  trim_right fuel b (Z.of_nat (length pre + length s)) m = Ok (Z.of_nat (length pre), m).
Proof.
  intros Hm Hc. revert fuel. induction s as [|x s IH] using rev_ind;
    intros [|fuel] HB Hf; [lia| |lia|]; cbn [trim_right]; unfold at_.
  - simpl length. rewrite Nat.add_0_r. destruct (Z.ltb_spec 0 (Z.of_nat (length pre))); [|done].
    erewrite bind_Ok by (eapply load_at; [done|];
      by rewrite lookup_app_r, Nat.sub_diag by lia).
    by rewrite Hc.
  - rewrite length_app in *. change (length [x]) with 1%nat in *.
    rewrite (proj2 (Z.ltb_lt 0 (Z.of_nat (length pre + (length s + 1))))) by lia.
    apply Forall_app in HB as [HB Hx]. apply Forall_cons_1 in Hx as [Hx _]. cbv beta in Hx.
    erewrite bind_Ok.
    2:{ eapply load_at; [done|]. rewrite lookup_app_r by lia.
        replace (length pre + (length s + 1) - length pre)%nat with (S (length s)) by lia.
        simpl. by rewrite lookup_app_r, Nat.sub_diag by lia. }
    rewrite Hx.
    replace (Z.of_nat _ - 1) with (Z.of_nat (length pre + length s)) by lia.
    apply IH; [|done|lia].
    change (c :: s ++ [x]) with ((c :: s) ++ [x]) in Hm. rewrite app_assoc in Hm.
    by apply mem_at_app in Hm as [? _].
Qed.

Lemma trim_right_blank m b s fuel :
  mem_at m (data_ b) s → blank s → ∀ k, (k < length s)%nat → (k < fuel)%nat →
  trim_right fuel b (Z.of_nat k) m = Ok (0, m).
Proof.
  intros Hm HB. induction fuel as [|fuel IH]; intros k Hk Hf; [lia|].
  cbn [trim_right]. destruct (Z.ltb_spec 0 (Z.of_nat k)).
  - destruct (lookup_lt_is_Some_2 s k) as [x Hx]; [lia|]. unfold at_.
    erewrite bind_Ok by (by eapply load_at).
    pose proof (Forall_lookup_1 _ _ _ _ HB Hx) as Hsp. cbv beta in Hsp. rewrite Hsp.
    replace (Z.of_nat k - 1) with (Z.of_nat (k - 1)) by lia. apply IH; lia.
  - unfold mret, ST_ret. do 2 f_equal. lia.
Qed.

(** A non-blank string between two runs of white space. *)
Definition trimmed (mid : bytes) : Prop :=
  (∃ c r, mid = c :: r ∧ isspace c = false) ∧ (∃ r c, mid = r ++ [c] ∧ isspace c = false).

(** C29: [trim()] of a buffer with at least one non-space character is the view
    of the bytes between the leading and the trailing white space. *)
Theorem trim_correct m b s1 mid s2 :
  mem_wf m → view m b (s1 ++ mid ++ s2) → blank s1 → blank s2 → trimmed mid →
  wp (trim b) (λ r m', m' = m ∧ view m r mid
                       ∧ data_ r = data_ b +ₚ Z.of_nat (length s1)) m.
Proof.
  intros Hwf Hv HB1 HB2 [(c & r & Hcr & Hc) (r' & c' & Hrc & Hc')].
  pose proof (view_size _ _ _ Hwf Hv) as Hsz. pose proof Hv as [Hm Hs].
  unfold trim. wp_step. eapply wp_walk_fuel; [exact Hm|]. intros f Hf.
  rewrite !length_app in *.
  assert (0 < length mid)%nat by (rewrite Hcr; simpl; lia).
  wp_step. eapply wp_Ok.
  { apply (trim_left_ok m b _ s1 c (r ++ s2) f Hv) with (k := 0%nat);
      [by rewrite Hcr|done|lia|done|lia]. }
  rewrite u64_small by zlia. wp_step. eapply wp_Ok.
  { replace (size_ b - 1) with (Z.of_nat (length (s1 ++ r') + length s2)).
    - apply (trim_right_ok m b (s1 ++ r') c'); [|done|done|lia].
      by rewrite Hrc, <- !app_assoc in Hm; rewrite <- !app_assoc.
    - rewrite Hs, Hrc, !length_app. simpl. lia. }
  assert (length mid = S (length r')) as Hmid by (rewrite Hrc, length_app; simpl; lia).
  rewrite length_app, u64_small by zlia.
  replace (1 + _ - _) with (Z.of_nat (length mid)) by lia.
  apply (wp_ref m b (s1 ++ mid ++ s2) (length s1) (length mid));
    [done|done|rewrite !length_app; lia|].
  intros v Hview Hd. rewrite drop_app_length, take_app_length in Hview. done.
Qed.

(** [trim()] of three or more bytes of pure white space does not abort
    (the size check in [ref] wraps around) and returns a view of almost
    2^64 bytes that starts at the end of the buffer. *)
Theorem trim_blank_overflow m b s :
  mem_wf m → view m b s → blank s → (3 <= length s)%nat →
  trim b m = Ok (mkRef (data_ b +ₚ size_ b) (2 ^ 64 + 1 - size_ b), m).
Proof.
  intros Hwf Hv HB Hlen. pose proof (view_size _ _ _ Hwf Hv) as Hsz. pose proof Hv as [Hm Hs].
  unfold trim.
  assert (Hstep : wp (walk_fuel (data_ b)) (λ f m', m' = m ∧ (length s < f)%nat) m)
    by (eapply wp_walk_fuel; [exact Hm|done]).
  apply wp_elim in Hstep as (f & m1 & Hw & -> & Hf).
  erewrite bind_Ok by exact Hw.
  erewrite bind_Ok by (apply (trim_left_blank m b s f Hv HB 0); lia).
  rewrite u64_small by zlia.
  erewrite bind_Ok.
  2:{ replace (size_ b - 1) with (Z.of_nat (length s - 1)) by lia.
      apply (trim_right_blank m b s); done || lia. }
  assert (u64 (1 + 0 - size_ b) = 2 ^ 64 + 1 - size_ b) as ->.
  { unfold wrapu. symmetry. apply Z.mod_unique with (-1); zlia. }
  unfold ref. rewrite (proj2 (Z.leb_le (size_ b) (size_ b))) by lia.
  replace (_ =? npos) with false by (unfold npos; zlia).
  assert (u64 (size_ b + (2 ^ 64 + 1 - size_ b)) = 1) as ->.
  { unfold wrapu. symmetry. apply Z.mod_unique with 1; zlia. }
  replace (1 <=? size_ b) with true by lia. done.
Qed.

(** [trim()] of an empty buffer reads outside of it: [size() - 1] wraps
    to [npos] and that index is read. *)
Theorem trim_empty_ub m b :
  mem_wf m → size_ b = 0 → 0 <= poff (data_ b) → trim b m = UB.
Proof.
  intros Hwf Hs Ho. unfold trim, walk_fuel. erewrite bind_Ok by done.
  erewrite bind_Ok by (cbn [trim_left]; by rewrite Hs).
  rewrite Hs. change (u64 (0 - 1)) with npos. cbn [trim_right].
  replace (0 <? npos) with true by done. unfold mbind, ST_bind, at_, load, loadbytes.
  simpl pblk. destruct (blocks m !! pblk (data_ b)) as [l|] eqn:E; [|done].
  apply (wf_size _ Hwf) in E. simpl poff.
  replace (_ && _) with false; [done|]. unfold npos. zlia.
Qed.
End trim.
