(* ===== verification/BufferParse.v ===== *)
(** * BufferParse: number parsing, reverse search and hashing of buffers

    Theorems on [toInt], [hex], [rfind] and [hash] of BufferBase
    (include/xio/Buffer.h), and the decimal printer that [push_back(int)]
    obtains from [snprintf]. *)

From S2P Require Import Prelude Memory BufferBase.

Local Open Scope Z_scope.

(** ** Decimal numbers: [snprintf("%d")], [("%ld")], [("%lu")], ... *)

Definition digit (z : Z) : byte := byte_of_Z (48 + z).

(** Decimal digits of [z >= 0], most significant first, in front of [acc];
    the fuel bounds the number of digits. *)
Fixpoint fmt_digits (fuel : nat) (z : Z) (acc : bytes) : bytes :=
  match fuel with
  | O => acc
  | S fuel =>
      if z <? 10 then digit z :: acc
      else fmt_digits fuel (z / 10) (digit (z mod 10) :: acc)
  end.

(** 20 digits hold every 64-bit value. *)
Definition fmt_u (z : Z) : bytes := fmt_digits 20 z [].
Definition fmt_d (z : Z) : bytes := if z <? 0 then Byte.x2d :: fmt_u (- z) else fmt_u z.

(** Value of a digit string, in base [base]. *)
Definition digits_val (base : Z) (f : byte → Z) (ds : bytes) : Z :=
  fold_left (λ v c, v * base + f c) ds 0.

Definition dec_val (ds : bytes) : Z := digits_val 10 (λ c, uchar c - 48) ds.
Definition hex_val (ds : bytes) : Z := digits_val 16 BufferBase.hex_digit ds.

Section decimal.
Implicit Types (ds acc : bytes) (z : Z).

Lemma digit_uchar z : 0 <= z < 10 → uchar (digit z) = 48 + z.
Proof. intros. unfold digit. rewrite uchar_byte_of_Z, Z.mod_small; lia. Qed.

Lemma digit_isdigit z : 0 <= z < 10 → isdigit (digit z) = true.
Proof. intros. unfold isdigit. rewrite digit_uchar by done. lia. Qed.

Lemma digits_val_app base f ds1 ds2 :
  digits_val base f (ds1 ++ ds2) = fold_left (λ v c, v * base + f c) ds2 (digits_val base f ds1).
Proof. unfold digits_val. apply fold_left_app. Qed.

Lemma digits_val_snoc base f ds c :
  digits_val base f (ds ++ [c]) = digits_val base f ds * base + f c.
Proof. by rewrite digits_val_app. Qed.

(** The printed digits, and that they are put in front of [acc]. *)
Lemma fmt_digits_spec fuel z acc :
  0 <= z < 10 ^ Z.of_nat fuel → (0 < fuel)%nat →
  ∃ ds, fmt_digits fuel z acc = ds ++ acc ∧ ds ≠ [] ∧ dec_val ds = z
        ∧ Forall (λ c, isdigit c = true) ds ∧ (length ds <= fuel)%nat.
Proof.
  revert z acc. induction fuel as [|fuel IH]; intros z acc Hz Hf; [lia|].
  cbn [fmt_digits]. destruct (Z.ltb_spec z 10).
  - exists [digit z]. split; [done|]. split; [done|]. split.
    { unfold dec_val, digits_val. simpl. rewrite digit_uchar; lia. }
    split; [by constructor; [apply digit_isdigit; lia|]|simpl; lia].
  - destruct fuel as [|fuel]; [change (10 ^ Z.of_nat 1) with 10 in Hz; lia|].
    pose proof (Z.div_mod z 10 ltac:(lia)). pose proof (Z.mod_pos_bound z 10 ltac:(lia)).
    rewrite (Nat2Z.inj_succ (S fuel)), Z.pow_succ_r in Hz by lia.
    destruct (IH (z / 10) (digit (z mod 10) :: acc)) as (ds & -> & Hne & Hval & HF & Hlen);
      [split; [apply Z.div_pos; lia|apply Z.div_lt_upper_bound; lia]|lia|].
    exists (ds ++ [digit (z mod 10)]). rewrite <- app_assoc. split; [done|].
    split; [by destruct ds|]. split; [|split].
    + unfold dec_val in *. rewrite digits_val_snoc, Hval, digit_uchar; lia.
    + apply Forall_app. split; [done|]. constructor; [by apply digit_isdigit|done].
    + rewrite length_app. simpl. lia.
Qed.

Lemma fmt_u_spec z :
  0 <= z < 2 ^ 64 →
  ∃ ds, fmt_u z = ds ∧ ds ≠ [] ∧ dec_val ds = z ∧ Forall (λ c, isdigit c = true) ds
        ∧ (length ds <= 20)%nat.
Proof.
  intros Hz. destruct (fmt_digits_spec 20 z []) as (ds & H & ?); [|lia|].
  { change (10 ^ Z.of_nat 20) with 100000000000000000000. lia. }
  rewrite app_nil_r in H. by exists ds.
Qed.

Lemma dec_val_mono ds1 ds2 :
  Forall (λ c, isdigit c = true) (ds1 ++ ds2) → 0 <= dec_val ds1 <= dec_val (ds1 ++ ds2).
Proof.
  induction ds2 as [|c ds2 IH] using rev_ind; intros HF.
  - rewrite app_nil_r in *. split; [|lia].
    induction ds1 as [|c ds1 IH] using rev_ind; [done|].
    apply Forall_app in HF as [HF Hc]. apply Forall_cons_1 in Hc as [Hc _].
    unfold dec_val, isdigit in *. rewrite digits_val_snoc. specialize (IH HF). lia.
  - rewrite app_assoc in *. apply Forall_app in HF as [HF Hc].
    apply Forall_cons_1 in Hc as [Hc _]. specialize (IH HF).
    unfold dec_val, isdigit in *. rewrite digits_val_snoc. lia.
Qed.
End decimal.

(** ** toInt *)
Section toInt.
Import BufferBase.
Implicit Types (m : memory) (b : BufferRef) (ds rest : bytes).

Lemma isdigit_schar c :
  isdigit c = negb ((schar c <? 48) || (57 <? schar c)).
Proof. destruct c; reflexivity. Qed.

Lemma schar_digit c : isdigit c = true → schar c = uchar c ∧ 48 <= uchar c <= 57.
Proof. destruct c; vm_compute; naive_solver. Qed.

(** Where parsing stops: the end, or a character that is no digit. *)
Definition no_digit (rest : bytes) : Prop :=
  match rest with [] => True | c :: _ => isdigit c = false end.

Lemma toInt_loop_ok m i ds done_ rest fuel :
  mem_at m i (ds ++ rest) → Forall (λ c, isdigit c = true) (done_ ++ ds) → no_digit rest →
  dec_val (done_ ++ ds) <= INT_MAX → (length ds < fuel)%nat →
  toInt_loop fuel i (i +ₚ Z.of_nat (length (ds ++ rest))) (dec_val done_) m
  = Ok (dec_val (done_ ++ ds), m).
Proof.
  revert i done_ fuel. induction ds as [|c ds IH]; intros i dn [|fuel] Hm HF Hr Hle Hf;
    simpl in Hf; try lia; cbn [toInt_loop].
  - rewrite app_nil_r in *. simpl app in *.
    destruct rest as [|c rest]; simpl length.
    + by rewrite ptr_eqb_add_r.
    + replace (ptr_eqb i _) with false by (rewrite ptr_eqb_add_r; simpl; lia).
      apply (mem_at_app _ _ [c]) in Hm as [Hm _].
      erewrite bind_Ok by (by apply load_ok). simpl in Hr. rewrite isdigit_schar in Hr.
      by apply negb_false_iff in Hr as ->.
  - replace (ptr_eqb i _) with false by (rewrite ptr_eqb_add_r; simpl; lia).
    apply (mem_at_app _ _ [c]) in Hm as [Hm1 Hm2].
    erewrite bind_Ok by (by apply load_ok).
    assert (isdigit c = true) as Hc.
    { apply Forall_app in HF as [_ HF]. by apply Forall_cons_1 in HF as [? _]. }
    pose proof Hc as Hc'. rewrite isdigit_schar in Hc'. apply negb_true_iff in Hc' as ->.
    destruct (schar_digit _ Hc) as [Hsc Hrange].
    change (dn ++ c :: ds) with (dn ++ [c] ++ ds) in *. rewrite app_assoc in *.
    pose proof (dec_val_mono _ _ HF) as Hmono.
    assert (dec_val (dn ++ [c]) = dec_val dn * 10 + (uchar c - 48)) as Hval
      by apply digits_val_snoc.
    assert (0 <= dec_val dn).
    { pose proof (dec_val_mono dn ([c] ++ ds)) as Hd. rewrite app_assoc in Hd. apply Hd. done. }
    erewrite (bind_Ok _ _ m (dec_val dn * 10)).
    2:{ destruct (Z.eqb_spec (dec_val dn) 0) as [->|]; simpl; [done|].
        unfold int_result. by replace (_ && _) with true by zlia. }
    erewrite (bind_Ok _ _ m (dec_val (dn ++ [c]))).
    2:{ unfold int_result. rewrite Hsc, <- Hval. by replace (_ && _) with true by zlia. }
    replace (i +ₚ Z.of_nat (length ((c :: ds) ++ rest)))
      with (i +ₚ 1 +ₚ Z.of_nat (length (ds ++ rest)))
      by (rewrite ptr_add_add; f_equal; simpl; lia).
    apply IH; done || lia.
Qed.

(** The optional sign character. *)
Inductive sign_of : bytes → Z → Prop :=
| sign_none : sign_of [] 1
| sign_plus : sign_of [Byte.x2b] 1
| sign_minus : sign_of [Byte.x2d] (-1).

Lemma toInt_digits_ok m i ds rest (neg : bool) :
  mem_at m i (ds ++ rest) → Forall (λ c, isdigit c = true) ds → no_digit rest →
  dec_val ds <= INT_MAX →
  toInt_digits neg i (i +ₚ Z.of_nat (length (ds ++ rest))) m
  = Ok ((if neg then -1 else 1) * dec_val ds, m).
Proof.
  intros Hi HF Hr Hle. unfold toInt_digits.
  assert (Hstep : wp (walk_fuel i) (λ f m', m' = m ∧ (length (ds ++ rest) < f)%nat) m)
    by (eapply wp_walk_fuel; [exact Hi|done]).
  apply wp_elim in Hstep as (f & m1 & Hw & -> & Hf). rewrite length_app in Hf.
  erewrite bind_Ok by exact Hw.
  erewrite bind_Ok by (apply (toInt_loop_ok m i ds [] rest); done || lia).
  pose proof (dec_val_mono [] ds HF) as Hpos. unfold int_result.
  change ([] ++ ds) with ds in *. change (dec_val []) with 0 in Hpos.
  destruct neg; unfold mret, ST_ret; [|do 2 f_equal; lia].
  by replace (_ && _) with true by zlia.
Qed.

(** The sign character, if there is one, and then the digits. *)
Lemma toInt_sign m b sgn s c body :
  view m b (sgn ++ c :: body) → sign_of sgn s → isdigit c = true →
  toInt b m
  = toInt_digits (s <? 0) (data_ b +ₚ Z.of_nat (length sgn))
      (data_ b +ₚ Z.of_nat (length sgn) +ₚ Z.of_nat (length (c :: body))) m.
Proof.
  intros [Hm Hs] Hsgn Hc. destruct (schar_digit _ Hc) as [Hsc Hrange].
  unfold toInt, begin, end_.
  assert (Hend : data_ b +ₚ size_ b = data_ b +ₚ Z.of_nat (length sgn)
            +ₚ Z.of_nat (length (c :: body)))
    by (rewrite ptr_add_add; f_equal; rewrite Hs, length_app; lia).
  rewrite ptr_eqb_add_r. replace (size_ b =? 0) with false
    by (rewrite Hs, length_app; cbn [length]; lia).
  rewrite Hend. apply mem_at_app in Hm as [Hm1 Hm2].
  inversion Hsgn; subst.
  - simpl length in *. change (Z.of_nat 0) with 0 in *. rewrite ptr_add_0 in *.
    pose proof Hm2 as [Hm3 _]%(mem_at_app _ _ [c]).
    erewrite bind_Ok by (by apply load_ok).
    by replace (schar c =? 45) with false by lia; replace (schar c =? 43) with false by lia.
  - erewrite bind_Ok by (by apply load_ok).
    change (Z.of_nat (length [Byte.x2b])) with 1 in *. by rewrite ptr_eqb_add_r.
  - erewrite bind_Ok by (by apply load_ok).
    change (Z.of_nat (length [Byte.x2d])) with 1 in *. by rewrite ptr_eqb_add_r.
Qed.

Lemma toInt_spec m b sgn s ds rest :
  view m b (sgn ++ ds ++ rest) → sign_of sgn s → ds ≠ [] →
  Forall (λ c, isdigit c = true) ds → no_digit rest → dec_val ds <= INT_MAX →
  toInt b m = Ok (s * dec_val ds, m).
Proof.
  intros Hv Hsgn Hne HF Hr Hle. destruct ds as [|c ds]; [done|].
  rewrite (toInt_sign m b sgn s c (ds ++ rest) Hv Hsgn) by (by inversion HF).
  destruct Hv as [Hm _]. apply mem_at_app in Hm as [_ Hm].
  change (c :: ds ++ rest) with ((c :: ds) ++ rest).
  rewrite toInt_digits_ok by done. by inversion Hsgn.
Qed.
End toInt.

Section toInt_theorems.
Import BufferBase.
Implicit Types (m : memory) (b : BufferRef).

Lemma fmt_d_spec z :
  - 2 ^ 63 <= z < 2 ^ 64 →
  ∃ sgn s ds, fmt_d z = sgn ++ ds ∧ sign_of sgn s ∧ ds ≠ [] ∧ dec_val ds = Z.abs z
    ∧ s * dec_val ds = z ∧ Forall (λ c, isdigit c = true) ds ∧ (length ds <= 20)%nat.
Proof.
  intros Hz. unfold fmt_d. destruct (Z.ltb_spec z 0).
  - destruct (fmt_u_spec (- z)) as (ds & -> & Hne & Hval & HF & Hlen); [lia|].
    exists [Byte.x2d], (-1), ds. split_and!; try done; try lia. constructor.
  - destruct (fmt_u_spec z) as (ds & -> & Hne & Hval & HF & Hlen); [lia|].
    exists [], 1, ds. split_and!; try done; try lia. constructor.
Qed.

Lemma length_fmt_d z : - 2 ^ 63 <= z < 2 ^ 64 → (1 <= length (fmt_d z) <= 21)%nat.
Proof.
  intros (sgn & s & ds & -> & Hs & Hne & _ & _ & _ & Hlen)%fmt_d_spec.
  rewrite length_app. destruct ds; [done|]. destruct Hs; simpl in *; lia.
Qed.

(** [toInt()] reads back every [int] that [snprintf("%d")] prints, with
    anything but a digit after it, except for [INT_MIN]. *)
Theorem toInt_prints_back m b z rest :
  INT_MIN < z <= INT_MAX → no_digit rest → view m b (fmt_d z ++ rest) →
  toInt b m = Ok (z, m).
Proof.
  intros Hz Hr Hv.
  destruct (fmt_d_spec z) as (sgn & s & ds & E & Hs & Hne & Habs & Hval & HF & _); [zlia|].
  rewrite E, <- app_assoc in Hv. rewrite <- Hval.
  apply (toInt_spec m b sgn s ds rest); try done. zlia.
Qed.

Lemma toInt_loop_overflow m i ds c rest dn fuel :
  mem_at m i (ds ++ c :: rest) → Forall (λ c, isdigit c = true) (dn ++ ds ++ [c]) →
  dec_val (dn ++ ds) <= INT_MAX → INT_MAX < dec_val (dn ++ ds ++ [c]) →
  (length ds < fuel)%nat →
  toInt_loop fuel i (i +ₚ Z.of_nat (length (ds ++ c :: rest))) (dec_val dn) m = UB.
Proof.
  revert i dn fuel. induction ds as [|x ds IH]; intros i dn [|fuel] Hm HF Hle Hgt Hf;
    simpl in Hf; try lia; cbn [toInt_loop];
    (replace (ptr_eqb i _) with false by (rewrite ptr_eqb_add_r; simpl; lia)).
  - rewrite app_nil_r in *. simpl app in *.
    apply (mem_at_app _ _ [c]) in Hm as [Hm1 _].
    erewrite bind_Ok by (by apply load_ok).
    assert (isdigit c = true) as Hc by (apply Forall_app in HF as [_ HF]; by inversion HF).
    pose proof Hc as Hc'. rewrite isdigit_schar in Hc'. apply negb_true_iff in Hc' as ->.
    destruct (schar_digit _ Hc) as [Hsc Hrange].
    pose proof (dec_val_mono dn [c] HF) as Hmono.
    unfold dec_val in *. rewrite digits_val_snoc in *.
    set (v := digits_val 10 _ dn) in *.
    destruct (Z.eqb_spec v 0) as [E0|E0]; [zlia|]. cbn [negb].
    destruct ((INT_MIN <=? v * 10) && (v * 10 <=? INT_MAX)) eqn:E.
    2:{ apply bind_UB. unfold int_result. by rewrite E. }
    erewrite (bind_Ok _ _ m (v * 10)) by (unfold int_result; by rewrite E).
    apply bind_UB. unfold int_result. by replace (_ && _) with false by zlia.
  - apply (mem_at_app _ _ [x]) in Hm as [Hm1 Hm2].
    erewrite bind_Ok by (by apply load_ok).
    assert (isdigit x = true) as Hc
      by (apply Forall_app in HF as [_ HF]; by inversion HF).
    pose proof Hc as Hc'. rewrite isdigit_schar in Hc'. apply negb_true_iff in Hc' as ->.
    destruct (schar_digit _ Hc) as [Hsc Hrange].
    change ((x :: ds) ++ [c]) with ([x] ++ (ds ++ [c])) in *.
    change (dn ++ x :: ds) with (dn ++ [x] ++ ds) in *. rewrite !app_assoc in *.
    assert (HF' : Forall (λ c, isdigit c = true) ((dn ++ [x]) ++ ds))
      by (by apply Forall_app in HF as [? _]).
    pose proof (dec_val_mono _ _ HF') as Hmono.
    assert (dec_val (dn ++ [x]) = dec_val dn * 10 + (uchar x - 48)) as Hval
      by apply digits_val_snoc.
    assert (0 <= dec_val dn).
    { pose proof (dec_val_mono dn ([x] ++ ds)) as Hd. rewrite app_assoc in Hd. by apply Hd. }
    erewrite (bind_Ok _ _ m (dec_val dn * 10)).
    2:{ destruct (Z.eqb_spec (dec_val dn) 0) as [->|]; simpl; [done|].
        unfold int_result. by replace (_ && _) with true by zlia. }
    erewrite (bind_Ok _ _ m (dec_val (dn ++ [x]))).
    2:{ unfold int_result. rewrite Hsc, <- Hval. by replace (_ && _) with true by zlia. }
    replace (i +ₚ Z.of_nat (length ((x :: ds) ++ c :: rest)))
      with (i +ₚ 1 +ₚ Z.of_nat (length (ds ++ c :: rest)))
      by (rewrite ptr_add_add; f_equal; simpl; lia).
    apply IH; rewrite ?app_assoc; done || lia.
Qed.

(** A digit string that exceeds [INT_MAX] has a first digit that does it. *)
Lemma overflow_split ds :
  Forall (λ c, isdigit c = true) ds → INT_MAX < dec_val ds →
  ∃ ds1 c ds2, ds = ds1 ++ c :: ds2 ∧ dec_val ds1 <= INT_MAX ∧ INT_MAX < dec_val (ds1 ++ [c]).
Proof.
  induction ds as [|c ds IH] using rev_ind; intros HF Hgt; [by vm_compute in Hgt|].
  destruct (Z.le_gt_cases (dec_val ds) INT_MAX).
  - by exists ds, c, [].
  - apply Forall_app in HF as [HF _].
    destruct IH as (ds1 & c' & ds2 & -> & ? & ?); [done|lia|].
    exists ds1, c', (ds2 ++ [c]). by rewrite <- app_assoc.
Qed.

(** [toInt()] overflows a signed [int], which is undefined behaviour, as
    soon as the digits exceed [INT_MAX]; the sign is applied too late to
    help, so the text that [push_back(int)] prints for [INT_MIN] cannot be
    read back. *)
Theorem toInt_overflow_ub m b sgn s ds rest :
  view m b (sgn ++ ds ++ rest) → sign_of sgn s →
  Forall (λ c, isdigit c = true) ds → INT_MAX < dec_val ds →
  toInt b m = UB.
Proof.
  intros Hv Hsgn HF Hgt. destruct ds as [|x ds]; [by vm_compute in Hgt|].
  rewrite (toInt_sign m b sgn s x (ds ++ rest) Hv Hsgn) by (by inversion HF).
  destruct Hv as [Hm _]. apply mem_at_app in Hm as [_ Hm].
  change (x :: ds ++ rest) with ((x :: ds) ++ rest).
  destruct (overflow_split _ HF Hgt) as (ds1 & c & ds2 & E & Hle & Hgt').
  rewrite E, <- app_assoc, <- app_comm_cons in *. unfold toInt_digits.
  set (i := data_ b +ₚ Z.of_nat (length sgn)) in *.
  assert (Hstep : wp (walk_fuel i) (λ f m', m' = m ∧ (length ds1 < f)%nat) m).
  { eapply wp_walk_fuel; [exact Hm|]. intros f. rewrite length_app. split; [done|lia]. }
  apply wp_elim in Hstep as (f & m1 & Hw & -> & Hf).
  erewrite bind_Ok by exact Hw. apply bind_UB.
  apply (toInt_loop_overflow m i ds1 c (ds2 ++ rest) []); try done.
  rewrite cons_middle, app_assoc in HF. by apply Forall_app in HF as [? _].
Qed.
End toInt_theorems.

(** ** hex *)
Section hex.
Import BufferBase.
Implicit Types (m : memory) (b : BufferRef) (ds rest : bytes).

Definition no_xdigit (rest : bytes) : Prop :=
  match rest with [] => True | c :: _ => isxdigit c = false end.

Lemma hex_loop_ok m w i ds rest dn fuel :
  0 <= w → mem_at m i (ds ++ rest) → Forall (λ c, isxdigit c = true) ds → no_xdigit rest →
  (length ds < fuel)%nat →
  hex_loop fuel w i (i +ₚ Z.of_nat (length (ds ++ rest))) (wrapu w (hex_val dn)) m
  = Ok (wrapu w (hex_val (dn ++ ds)), m).
Proof.
  intros Hw. revert i dn fuel. induction ds as [|c ds IH]; intros i dn [|fuel] Hm HF Hr Hf;
    simpl in Hf; try lia; cbn [hex_loop].
  - rewrite app_nil_r. simpl app in *. rewrite ptr_eqb_add_r.
    destruct rest as [|c rest]; [done|]. replace (_ =? 0) with false by (simpl; lia).
    apply (mem_at_app _ _ [c]) in Hm as [Hm _].
    erewrite bind_Ok by (by apply load_ok). simpl in Hr. by rewrite Hr.
  - rewrite ptr_eqb_add_r. replace (_ =? 0) with false by (simpl; lia).
    apply (mem_at_app _ _ [c]) in Hm as [Hm1 Hm2].
    erewrite bind_Ok by (by apply load_ok).
    apply Forall_cons_1 in HF as [Hc HF]. rewrite Hc. cbn [negb].
    set (v := hex_val dn) in *.
    replace (if negb (wrapu w v =? 0) then wrapu w (wrapu w v * 16) else wrapu w v)
      with (wrapu w (v * 16)).
    2:{ unfold wrapu. rewrite Z.mul_mod_idemp_l by lia.
        destruct (Z.eqb_spec (v mod 2 ^ w) 0) as [E|E]; simpl; [|done].
        by rewrite <- Z.mul_mod_idemp_l, E by lia. }
    replace (wrapu w (wrapu w (v * 16) + hex_digit c)) with (wrapu w (hex_val (dn ++ [c]))).
    2:{ unfold hex_val. rewrite digits_val_snoc. unfold wrapu.
        by rewrite Z.add_mod_idemp_l by lia. }
    replace (i +ₚ Z.of_nat (length ((c :: ds) ++ rest)))
      with (i +ₚ 1 +ₚ Z.of_nat (length (ds ++ rest)))
      by (rewrite ptr_add_add; f_equal; simpl; lia).
    rewrite IH by (done || lia). by rewrite <- app_assoc.
Qed.

(** [hex<U>()] for a [w]-bit unsigned [U] returns the value of the leading
    hexadecimal digits modulo [2^w], on every readable buffer. *)
Theorem hex_correct m w b ds rest :
  0 <= w → view m b (ds ++ rest) → Forall (λ c, isxdigit c = true) ds → no_xdigit rest →
  hex w b m = Ok (wrapu w (hex_val ds), m).
Proof.
  intros Hw [Hm Hs] HF Hr. unfold hex, begin, end_. rewrite ptr_eqb_add_r, Hs.
  destruct (Z.eqb_spec (Z.of_nat (length (ds ++ rest))) 0) as [E|E].
  - destruct ds, rest; simpl in E; try lia. unfold wrapu. by rewrite Z.mod_0_l by lia.
  - assert (Hstep : wp (walk_fuel (data_ b))
                      (λ f m', m' = m ∧ (length (ds ++ rest) < f)%nat) m)
      by (eapply wp_walk_fuel; [exact Hm|done]).
    apply wp_elim in Hstep as (f & m1 & Hwf & -> & Hf). rewrite length_app in Hf.
    erewrite bind_Ok by exact Hwf.
    pose proof (hex_loop_ok m w (data_ b) ds rest [] f Hw Hm HF Hr ltac:(lia)) as H.
    unfold wrapu at 1 in H. by rewrite Z.mod_0_l in H by lia.
Qed.
End hex.

(** ** Reverse search *)
Section rfind.
Import BufferBase.
Implicit Types (m : memory) (b : BufferRef) (l v : bytes) (c : byte).

Lemma rfind_loop_ok m p l c k fuel :
  mem_at m p l → (k < length l)%nat → (k < fuel)%nat →
  ∃ r, rfind_loop fuel p (p +ₚ Z.of_nat k) c m = Ok (r, m) ∧
    ((r = npos ∧ ∀ j, (j <= k)%nat → l !! j ≠ Some c)
     ∨ (0 <= r <= Z.of_nat k ∧ l !! Z.to_nat r = Some c
        ∧ ∀ j, r < Z.of_nat j <= Z.of_nat k → l !! j ≠ Some c)).
Proof.
  intros Hm. revert k. induction fuel as [|fuel IH]; intros k Hk Hf; [lia|].
  cbn [rfind_loop]. destruct (lookup_lt_is_Some_2 l k Hk) as [x Hx].
  erewrite bind_Ok by (by eapply load_at). case_bool_decide as E; subst.
  - eexists. split; [done|]. right. simpl.
    replace (poff p + Z.of_nat k - poff p) with (Z.of_nat k) by lia.
    split; [lia|]. rewrite Nat2Z.id. split; [done|]. intros; lia.
  - rewrite ptr_eqb_add_r. destruct (Z.eqb_spec (Z.of_nat k) 0) as [E0|E0].
    + exists npos. split; [done|]. left. split; [done|].
      intros j Hj. assert (j = k) as -> by lia. congruence.
    + rewrite ptr_add_add. replace (Z.of_nat k + -1) with (Z.of_nat (k - 1)) by lia.
      destruct (IH (k - 1)%nat) as (r & Hr & HR); [lia|lia|].
      exists r. split; [done|]. destruct HR as [[-> HR]|(Hb & Hl & HR)].
      * left. split; [done|]. intros j Hj. destruct (decide (j = k)) as [->|]; [congruence|].
        apply HR. lia.
      * right. split; [lia|]. split; [done|]. intros j Hj.
        destruct (decide (j = k)) as [->|]; [congruence|]. apply HR. lia.
Qed.

(** [rfind(char)] returns the last position that holds the character, or
    [npos] when the buffer does not contain it. *)
Theorem rfind_char_correct m b l c :
  mem_wf m → view m b l →
  wp (rfind_char b c) (λ r m', m' = m ∧
    ((r = npos ∧ c ∉ l)
     ∨ (0 <= r < size_ b ∧ l !! Z.to_nat r = Some c
        ∧ ∀ k, r < Z.of_nat k → l !! k ≠ Some c))) m.
Proof.
  intros Hwf Hv. pose proof (view_size _ _ _ Hwf Hv). destruct Hv as [Hm Hs].
  unfold rfind_char, rfind_char_from, empty.
  destruct (Z.eqb_spec (size_ b) 0) as [E|E].
  - wp_step. split; [done|]. left. split; [done|]. destruct l; [set_solver|simpl in *; lia].
  - rewrite u64_small by zlia. wp_step. eapply wp_walk_fuel; [exact Hm|]. intros f Hf.
    replace (size_ b - 1) with (Z.of_nat (length l - 1)) by lia.
    destruct (rfind_loop_ok m (data_ b) l c (length l - 1) f Hm) as (r & Hr & HR); [lia|lia|].
    eapply wp_Ok; [exact Hr|]. split; [done|].
    destruct HR as [[-> HR]|(Hb & Hl & HR)].
    + left. split; [done|]. intros [j Hj]%list_elem_of_lookup.
      pose proof (lookup_lt_Some _ _ _ Hj). apply (HR j); [lia|done].
    + right. split; [lia|]. split; [done|]. intros k Hk Hj.
      pose proof (lookup_lt_Some _ _ _ Hj). apply (HR k); [lia|done].
Qed.

Lemma rfind_array_loop_npos m base l (n : nat) value N fuel :
  mem_at m base l → NUL ∉ drop n l → mem_at m (value +ₚ (N - 1)) [NUL] →
  ∀ k, (n <= k < length l)%nat → (k - n < fuel)%nat →
  rfind_array_loop fuel base (base +ₚ Z.of_nat k) (base +ₚ Z.of_nat n) value N m
  = Ok (npos, m).
Proof.
  intros Hm HN Hval. induction fuel as [|fuel IH]; intros k Hk Hf; [lia|].
  cbn [rfind_array_loop]. rewrite ptr_eqb_add.
  destruct (Z.eqb_spec (Z.of_nat k) (Z.of_nat n)) as [E|E]; [done|].
  destruct (lookup_lt_is_Some_2 l k) as [x Hx]; [lia|].
  erewrite bind_Ok by (by eapply load_at). erewrite bind_Ok by (by apply load_ok).
  rewrite bool_decide_eq_false_2.
  - rewrite ptr_add_add. replace (Z.of_nat k + -1) with (Z.of_nat (k - 1)) by lia.
    apply IH; lia.
  - intros ->. apply HN. apply list_elem_of_lookup. exists (k - n)%nat.
    rewrite lookup_drop. by replace (n + (k - n))%nat with k by lia.
Qed.

(** [rfind(const char (&value)[N])] compares with the terminator of the
    literal and not with its last character, and starts one byte behind the
    buffer: in a NUL-terminated buffer without NUL bytes a literal of two or
    more characters is never found, wherever it occurs. *)
Theorem rfind_array_never_finds m b l value v :
  mem_wf m → cview m b l → NUL ∉ l → cstring m value v → (2 <= length v)%nat →
  rfind_array b value (Z.of_nat (length v) + 1) m = Ok (npos, m).
Proof.
  intros Hwf [Hm Hs] HNl [Hval HNv] Hlen. unfold rfind_array, empty.
  pose proof (mem_at_length _ _ _ Hwf Hval) as Hmax. rewrite length_app in Hmax.
  destruct (Z.eqb_spec (size_ b) 0) as [E|E]; [done|].
  destruct (Z.ltb_spec (size_ b) (Z.of_nat (length v) + 1 - 1)) as [Hlt|Hge]; [done|].
  assert (Hstep : wp (walk_fuel (data_ b)) (λ f m', m' = m ∧ (length l + 1 < f)%nat) m).
  { eapply wp_walk_fuel; [exact Hm|]. intros f. rewrite length_app. done. }
  apply wp_elim in Hstep as (f & m1 & Hw & -> & Hf). erewrite bind_Ok by exact Hw.
  unfold begin, end_. replace (Z.of_nat (length v) + 1 - 1) with (Z.of_nat (length v)) by lia.
  destruct f as [|f]; [lia|]. cbn [rfind_array_loop]. rewrite ptr_eqb_add, Hs.
  destruct (Z.eqb_spec (Z.of_nat (length l)) (Z.of_nat (length v))); [done|].
  replace (Z.of_nat (length v) + 1 - 1) with (Z.of_nat (length v)) by lia.
  pose proof Hm as [Hml Hmn]%mem_at_app. pose proof Hval as [Hv1 Hv2]%mem_at_app.
  erewrite bind_Ok by (by apply load_ok). erewrite bind_Ok by (by apply load_ok).
  rewrite bool_decide_eq_true_2 by done.
  destruct v as [|a v]; [simpl in Hlen; lia|].
  assert (Hstep : wp (walk_fuel (data_ b +ₚ Z.of_nat (length l)))
                    (λ f m', m' = m ∧ (1 < f)%nat) m).
  { eapply wp_walk_fuel; [exact Hmn|]. done. }
  apply wp_elim in Hstep as ([|f2] & m1 & Hw2 & -> & Hf2); [lia|].
  erewrite bind_Ok by exact Hw2.
  erewrite (bind_Ok _ _ m false).
  2:{ cbn [rfind_match]. rewrite u64_small by (cbn [length] in *; zlia).
      replace (0 <? _) with true by (cbn [length] in *; lia). rewrite !ptr_add_0.
      apply (mem_at_app _ _ [a]) in Hv1 as [Hv1 _].
      erewrite bind_Ok by (by apply load_ok). erewrite bind_Ok by (by apply load_ok).
      rewrite bool_decide_eq_false_2; [done|]. intros <-. set_solver. }
  cbn match. rewrite ptr_add_add.
  replace (Z.of_nat (length l) + -1) with (Z.of_nat (length l - 1)) by lia.
  apply (rfind_array_loop_npos m (data_ b) l (length (a :: v)) value _); [done| | |lia|lia].
  - intros Hin. apply HNl. apply list_elem_of_lookup in Hin as [j Hj].
    rewrite lookup_drop in Hj. apply list_elem_of_lookup. eauto.
  - by replace (Z.of_nat (length (a :: v)) + 1 - 1) with (Z.of_nat (length (a :: v))) by lia.
Qed.
End rfind.

(** ** Hashing *)
Section hash.
Import BufferBase.

(** Reference: the 32-bit FNV-1a hash, bytes taken as unsigned. *)
Definition fnv1a (l : bytes) : Z :=
  fold_left (λ h b, u32 (Z.lxor h (uchar b) * 16777619)) l 2166136261.

Lemma hash_step_ascii h c :
  uchar c < 128 → hash_step h c = u32 (Z.lxor h (uchar c) * 16777619).
Proof.
  intros Hc. pose proof (uchar_range c). unfold hash_step. do 3 f_equal.
  unfold schar, wraps, wrapu. change (2 ^ (8 - 1)) with 128.
  rewrite (Z.mod_small (uchar c + 128)) by lia. rewrite Z.mod_small; lia.
Qed.

(** C35: [xio::hash] is the 32-bit FNV-1a hash on ASCII content, its result
    always fits 32 bits, and buffers with equal bytes hash alike whatever
    memory they live in. *)
Theorem hash_ascii_fnv1a m b l :
  view m b l → Forall (λ c, uchar c < 128) l →
  hash b m = Ok (fnv1a l, m) ∧ 0 <= fnv1a l < 2 ^ 32.
Proof.
  intros [Hm Hs] HF. split.
  - unfold hash. erewrite bind_Ok by (by eapply read_range_ok).
    unfold mret, ST_ret, hash_bytes, fnv1a. do 2 f_equal. clear Hm Hs.
    generalize 2166136261. induction HF as [|c l Hc HF IH]; [done|]. intros h. simpl.
    rewrite hash_step_ascii by done. apply IH.
  - clear. unfold fnv1a. induction l as [|c l IH] using rev_ind; [simpl; lia|].
    rewrite fold_left_app. simpl. apply Z.mod_pos_bound. lia.
Qed.

(** On a byte with the top bit set the sign extension of [char] makes
    [xio::hash] differ from FNV-1a. *)
Theorem hash_high_byte_not_fnv1a : hash_bytes [Byte.x80] ≠ fnv1a [Byte.x80].
Proof. by vm_compute. Qed.
End hash.

(** [std::hash] of a [BufferRef] and of a [Buffer], which is one. *)
Definition std_hash_ref (b : BufferRef) : MM Z := BufferBase.hash b.

(** ** Floating point numbers

    [strtod] and [strtof] are the C library's: the value of the number at the
    start of a string (without the terminator) and how many characters it
    takes. *)
Section float.
Context {F : Type} (zero : F) (strtod strtof : bytes → F * nat).
Import BufferBase.

(** The characters in front of the first NUL. *)
Fixpoint before_nul (l : bytes) : bytes :=
  match l with
  | [] => []
  | c :: l => if bool_decide (c = NUL) then [] else c :: before_nul l
  end.

(** [toDouble()]: parses in place; [endptr <= cend()]. *)
Definition toDouble (b : BufferRef) : MM F :=
  n ← strlen (data_ b);
  l ← read_range (data_ b) n;
  let '(v, k) := strtod l in
  mret (if Z.of_nat k <=? size_ b then v else zero).

(** [toFloat()]: parses a copy with a terminator. *)
Definition toFloat (b : BufferRef) : MM F :=
  l ← read_range (data_ b) (size_ b); mret (strtof (before_nul l)).1.

(** [rfind(const value_type* )] is [assert(0)]. *)
Definition rfind_cstr (b : BufferRef) (value : ptr) : MM Z := assert false;; mret npos.

Lemma before_nul_id l : NUL ∉ l → before_nul l = l.
Proof.
  induction l as [|c l IH]; [done|]. intros [Hc Hl]%not_elem_of_cons. simpl.
  by rewrite bool_decide_eq_false_2, IH by done.
Qed.

(** [toFloat] is [strtof] of exactly the buffer's text; [toDouble] is [strtod]
    of the text up to the next terminator, which may be behind the buffer's
    end, and 0 when the number goes on there. *)
Theorem toFloat_toDouble m b l r :
  mem_at m (data_ b) (l ++ r ++ [NUL]) → (NUL ∉ l ++ r) → size_ b = Z.of_nat (length l) →
  toFloat b m = Ok ((strtof l).1, m)
  ∧ toDouble b m = Ok (if ((strtod (l ++ r)).2 <=? length l)%nat then (strtod (l ++ r)).1 else zero, m).
Proof.
  intros Hm Hn Hs. assert (cstring m (data_ b) (l ++ r)) as Hc.
  { split; [by rewrite <- app_assoc|done]. }
  split.
  - unfold toFloat. apply mem_at_app in Hm as [Hm _]. erewrite bind_Ok by (by eapply read_range_ok).
    rewrite before_nul_id; [done|]. by apply not_elem_of_app in Hn as [].
  - unfold toDouble. erewrite bind_Ok by (by apply strlen_ok).
    destruct Hc as [Hc _]. apply mem_at_app in Hc as [Hc _].
    erewrite bind_Ok by (by eapply read_range_ok). destruct (strtod (l ++ r)) as [v k].
    unfold mret, ST_ret. simpl. rewrite Hs.
    by replace (Z.of_nat k <=? Z.of_nat (length l)) with (k <=? length l)%nat by lia.
Qed.
End float.
