(* ===== verification/MutableBuffer.v ===== *)
(** * MutableBuffer, FixedBuffer and Buffer (include/xio/Buffer.h, lib/Buffer.cpp)

    A [MutableBuffer] is a [BufferRef] with a capacity.  Its template
    parameter, the function [ensure] that makes room before a write, is the
    type class [Ensure]; what the builders rely on is the class [EnsureSpec],
    which the two instances (the fixed buffer that never grows, the managed
    buffer that reallocates) both discharge.  Objects are passed and returned
    as values, so that every operation lists what it changes. *)

From S2P Require Import Prelude Memory BufferBase BufferParse.

Local Open Scope Z_scope.

Record MutableBuffer : Type := mkMB { base :> BufferRef; capacity_ : Z }.

Definition with_size (b : MutableBuffer) (n : Z) : MutableBuffer :=
  mkMB (mkRef (data_ b) n) (capacity_ b).

Definition CHUNK_SIZE : Z := 4096.

(** The template parameter [bool ( *ensure)(void*, size_t)]. *)
Class Ensure : Type := ensure : MutableBuffer → Z → MM (bool * MutableBuffer).

(** ** FixedBuffer: room is a matter of the given capacity *)

Definition immutableEnsure : Ensure := λ self size, mret (size <=? capacity_ self, self).

(** ** Buffer: managed storage *)
Section Managed.
Context {AL : Allocator}.

(** The [realloc] at the end of [setCapacity]. *)
Definition setCapacity_realloc (b : MutableBuffer) (value : Z) : MM (bool * MutableBuffer) :=
  rp ← realloc (data_ b) value;
  if negb (ptr_eqb rp nullp) then mret (true, mkMB (mkRef rp (size_ b)) value)
  else if value =? 0 then mret (true, mkMB (base b) value)
  else mret (false, b).

Definition setCapacity (b : MutableBuffer) (value : Z) : MM (bool * MutableBuffer) :=
  if (value =? 0) && negb (capacity_ b =? 0) then
    free (data_ b);; mret (true, mkMB (base b) 0)
  else if capacity_ b <? value then
    let value :=
      if negb (capacity_ b =? 0) then
        let value := u64 (value - 1) in
        u64 (value + CHUNK_SIZE - value mod CHUNK_SIZE)
      else value in
    setCapacity_realloc b value
  else if value <? capacity_ b then
    let b := if value <? size_ b then with_size b value else b in
    setCapacity_realloc b value
  else mret (true, b).

Definition mutableEnsure : Ensure := λ self size,
  if (capacity_ self <? size) || (size =? 0) then setCapacity self size else mret (true, self).
End Managed.

(** ** The operations of the template *)
Module MutableBuffer.
Section ops.
Context {E : Ensure}.

Definition new : MutableBuffer := mkMB BufferRef_empty 0.
Definition new_full (value : ptr) (size : Z) : MutableBuffer := mkMB (mkRef value size) size.
Definition new_sized (value : ptr) (capacity size : Z) : MutableBuffer :=
  mkMB (mkRef value size) capacity.

Definition swap (b other : MutableBuffer) : MutableBuffer * MutableBuffer :=
  (mkMB (mkRef (data_ other) (size_ other)) (capacity_ other),
   mkMB (mkRef (data_ b) (size_ b)) (capacity_ b)).

Definition resize (b : MutableBuffer) (value : Z) : bool * MutableBuffer :=
  if capacity_ b <? value then (false, b) else (true, with_size b value).

Definition capacity (b : MutableBuffer) : Z := capacity_ b.
Definition clear (b : MutableBuffer) : MutableBuffer := with_size b 0.

Definition reserve (b : MutableBuffer) (value : Z) : MM (bool * MutableBuffer) := ensure b value.

(** What every builder does: [if (reserve(size_ + n)) { write; size_ += n; }],
    where [write] stores behind the current end of the buffer. *)
Definition append_with (b : MutableBuffer) (n : Z) (write : MutableBuffer → MM ()) :
    MM MutableBuffer :=
  '(ok, b) ← reserve b (u64 (size_ b + n));
  if (ok : bool) then write b;; mret (with_size b (u64 (size_ b + n))) else mret b.

(** [push_back(value_type value)] *)
Definition push_back_char (b : MutableBuffer) (value : byte) : MM MutableBuffer :=
  append_with b 1 (λ b, write_range (data_ b +ₚ size_ b) [value]).

(** [push_back(const void* value, size_t size)] *)
Definition push_back (b : MutableBuffer) (value : ptr) (size : Z) : MM MutableBuffer :=
  if negb (size =? 0)
  then append_with b size (λ b, memcpy (BufferBase.end_ b) value size)
  else mret b.

(** The source of [push_back(const BufferRef& value)]: another object, or
    this very buffer ([b.push_back(b)]), which is read through the reference
    after room has been made. *)
Inductive source := This | Other (r : BufferRef).
Definition deref (b : MutableBuffer) (s : source) : BufferRef :=
  match s with This => base b | Other r => r end.

Definition push_back_ref (b : MutableBuffer) (value : source) : MM MutableBuffer :=
  let len := size_ (deref b value) in
  if negb (len =? 0)
  then append_with b len (λ b,
         memcpy (BufferBase.end_ b) (BufferBase.begin (deref b value)) len)
  else mret b.

(** [push_back(const BufferRef& value, size_t offset, size_t length)] *)
Definition push_back_range (b : MutableBuffer) (value : BufferRef) (offset length : Z) :
    MM MutableBuffer :=
  assert (size_ value <=? u64 (offset + length));;
  if length =? 0 then mret b
  else append_with b length (λ b,
         memcpy (BufferBase.end_ b) (BufferBase.begin value +ₚ offset) length).

(** [push_back(const std::string& value)]; [value] is the view of the
    string's characters. *)
Definition push_back_string (b : MutableBuffer) (value : BufferRef) : MM MutableBuffer :=
  let len := size_ value in
  if negb (len =? 0)
  then append_with b len (λ b, memcpy (BufferBase.end_ b) (data_ value) len)
  else mret b.

(** [push_back(PodType (&value)[N])] *)
Definition push_back_array (b : MutableBuffer) (value : ptr) (N : Z) : MM MutableBuffer :=
  push_back b value (u64 (N - 1)).

(** The same function, [push_back(const void*, size_t)], called with a local
    array that holds [d], as the overloads for numbers and the callers in the
    other files do: such an array is not in the buffer's storage.  Where the
    argument is a pointer of the caller's it is [push_back]. *)
Definition push_back_local (b : MutableBuffer) (d : bytes) : MM MutableBuffer :=
  let n := Z.of_nat (length d) in
  if negb (n =? 0)
  then append_with b n (λ b, write_range (BufferBase.end_ b) d)
  else mret b.

(** [push_back(int)], [push_back(long)], [push_back(long long)] *)
Definition push_back_signed (b : MutableBuffer) (value : Z) : MM MutableBuffer :=
  push_back_local b (fmt_d value).

(** [push_back(unsigned)], [push_back(unsigned long)], ... *)
Definition push_back_unsigned (b : MutableBuffer) (value : Z) : MM MutableBuffer :=
  push_back_local b (fmt_u value).

(** [snprintf(dst, n, fmt, args...)] for a format whose full output is [out];
    [None] is an encoding error, which is reported as -1, and so is an output
    whose length is not an [int]. *)
Definition snprintf (dst : ptr) (n : Z) (out : option bytes) : MM Z :=
  match out with
  | None => mret (-1)
  | Some d =>
      (if 0 <? n then write_range dst (take (Z.to_nat (n - 1)) d ++ [NUL]) else mret ());;
      mret (if INT_MAX <? Z.of_nat (length d) then -1 else Z.of_nat (length d))
  end.

(** The [while (true)] loop of [printf(fmt, args...)]. *)
Fixpoint printf_loop (fuel : nat) (b : MutableBuffer) (out : option bytes) : MM MutableBuffer :=
  match fuel with
  | O => nofuel
  | S fuel =>
      let room := u64 (capacity_ b - size_ b) in
      buflen ← snprintf (BufferBase.end_ b) room out;
      if (-1 <=? buflen) && (buflen <? s64 room) then
        mret (resize b (u64 (size_ b + buflen))).2
      else
        let buflen := if -1 <? buflen then buflen + 1 else s64 (u64 (capacity_ b * 2)) in
        '(ok, b) ← reserve b (u64 (capacity_ b + buflen));
        if negb ok then
          write_range (data_ (base b) +ₚ u64 (capacity_ b - 1)) [NUL];; mret b
        else printf_loop fuel b out
  end.

(** [printf(fmt, args...)]; [fmtlen] is [strlen(fmt)].  Four rounds are more
    than the loop can make. *)
Definition printf (b : MutableBuffer) (fmtlen : Z) (out : option bytes) : MM MutableBuffer :=
  '(_, b) ← reserve b (u64 (u64 (size_ b + fmtlen) + 1));
  printf_loop 4 b out.

(** [operator[](size_t index)] *)
Definition index (b : MutableBuffer) (i : Z) : MM byte :=
  assert (i <? size_ b);; load (data_ b +ₚ i).
End ops.
End MutableBuffer.

(** ** FixedBuffer *)
Module FixedBuffer.
#[local] Existing Instance immutableEnsure.

Definition new : MutableBuffer := MutableBuffer.new.

(** [FixedBuffer(char* data, size_t size)] *)
Definition new_full (data : ptr) (size : Z) : MM MutableBuffer :=
  MutableBuffer.push_back (E := immutableEnsure)
    (MutableBuffer.new_sized data size size) data size.

(** [FixedBuffer(char* data, size_t capacity, size_t size)] *)
Definition new_sized (data : ptr) (capacity size : Z) : MutableBuffer :=
  MutableBuffer.new_sized data capacity size.
End FixedBuffer.

(** ** Buffer *)
Module Buffer.
Section ops.
Context {AL : Allocator}.
Let E : Ensure := mutableEnsure.
#[local] Existing Instance E.

(** [Buffer(size_t capacity)] *)
Definition new_capacity (capacity : Z) : MM MutableBuffer :=
  '(_, b) ← MutableBuffer.reserve MutableBuffer.new capacity; mret b.

(** [Buffer(const char* value)]: the argument converts to [std::string]. *)
Definition new_cstr (v : ptr) : MM MutableBuffer :=
  n ← strlen v; MutableBuffer.push_back_string MutableBuffer.new (mkRef v n).

(** [Buffer(const BufferRef& v, size_t offset, size_t count)] *)
Definition new_range (v : BufferRef) (offset count : Z) : MM MutableBuffer :=
  assert (u64 (offset + count) <=? size_ v);;
  MutableBuffer.push_back MutableBuffer.new (data_ v +ₚ offset) count.

(** [Buffer(const std::string& v)]: copies the terminator too, then cuts it
    off. *)
Definition new_string (v : BufferRef) : MM MutableBuffer :=
  b ← MutableBuffer.push_back MutableBuffer.new (data_ v) (u64 (size_ v + 1));
  mret (MutableBuffer.resize b (size_ v)).2.

(** [Buffer(const Buffer& v)] *)
Definition copy (v : MutableBuffer) : MM MutableBuffer :=
  MutableBuffer.push_back MutableBuffer.new (data_ v) (size_ v).

(** [~Buffer()] *)
Definition destroy (b : MutableBuffer) : MM MutableBuffer :=
  '(_, b) ← MutableBuffer.reserve b 0; mret b.

(** [operator=(Buffer&& v)]: the target and the emptied source. *)
Definition assign_move (b v : MutableBuffer) : MM (MutableBuffer * MutableBuffer) :=
  '(_, b) ← MutableBuffer.reserve b 0;
  mret (mkMB (mkRef (data_ v) (size_ v)) (capacity_ v), mkMB (mkRef nullp 0) 0).

(** [operator=(const BufferRef& v)] *)
Definition assign_ref (b : MutableBuffer) (v : MutableBuffer.source) : MM MutableBuffer :=
  MutableBuffer.push_back_ref (MutableBuffer.clear b) v.

(** [operator=(const std::string& v)] *)
Definition assign_string (b : MutableBuffer) (v : BufferRef) : MM MutableBuffer :=
  MutableBuffer.push_back (MutableBuffer.clear b) (data_ v) (size_ v).

(** [operator=(const value_type* v)] *)
Definition assign_cstr (b : MutableBuffer) (v : ptr) : MM MutableBuffer :=
  n ← strlen v; MutableBuffer.push_back (MutableBuffer.clear b) v n.

(** [vprintf(fmt, args)]: the template calls a [setCapacity] that it does not
    declare; here it is that of [Buffer]. *)
Fixpoint vprintf_loop (fuel : nat) (b : MutableBuffer) (out : option bytes) : MM MutableBuffer :=
  match fuel with
  | O => nofuel
  | S fuel =>
      let room := u64 (capacity_ b - size_ b) in
      buflen ← MutableBuffer.snprintf (BufferBase.end_ b) room out;
      if (-1 <=? buflen) && (buflen <? s64 room) then
        mret (MutableBuffer.resize b (u64 (size_ b + buflen))).2
      else
        let buflen := if -1 <? buflen then buflen + 1 else s64 (u64 (capacity_ b * 2)) in
        '(ok, b) ← setCapacity b (u64 (capacity_ b + buflen));
        if negb ok then
          write_range (data_ (base b) +ₚ u64 (capacity_ b - 1)) [NUL];; mret b
        else vprintf_loop fuel b out
  end.

Definition vprintf (b : MutableBuffer) (fmtlen : Z) (out : option bytes) : MM MutableBuffer :=
  '(_, b) ← MutableBuffer.reserve b (u64 (u64 (size_ b + fmtlen) + 1));
  vprintf_loop 4 b out.

(** [c_str()]: the returned pointer and the buffer. *)
Definition c_str (b : MutableBuffer) : MM (ptr * MutableBuffer) :=
  MutableBuffer.reserve b (u64 (size_ b + 1)) ≫= λ r : bool * MutableBuffer,
    let '(ok, b) := r in
    (if ok then write_range (data_ b +ₚ size_ b) [NUL] else mret ());;
    mret (data_ b, b).
End ops.
End Buffer.

(** ** What a buffer stands for *)

(** The capacity is readable memory whose first [size_] bytes are [l]. *)
Record mbuf_rep (m : memory) (b : MutableBuffer) (l : bytes) : Prop := {
  rep_size : size_ b = Z.of_nat (length l);
  rep_cells : ∃ rest, mem_at m (data_ b) (l ++ rest)
                      ∧ Z.of_nat (length (l ++ rest)) = capacity_ b;
}.

(** A managed buffer owns a whole block, or nothing at all. *)
Definition owned (m : memory) (b : MutableBuffer) : Prop :=
  (data_ b = nullp ∧ capacity_ b = 0)
  ∨ (poff (data_ b) = 0 ∧ 0 < capacity_ b
     ∧ ∃ c, blocks m !! pblk (data_ b) = Some c ∧ Z.of_nat (length c) = capacity_ b).

(** From [b] in [m] to [b'] in [m']: only the buffer's own block changed, and
    the buffer is still in that block or moved to a new one. *)
Definition moves (b b' : MutableBuffer) (m m' : memory) : Prop :=
  only_touches (pblk (data_ b)) m m'
  ∧ (pblk (data_ b') = pblk (data_ b) ∨ (next m <= pblk (data_ b'))%nat).

Lemma moves_refl b m : moves b b m m.
Proof. split; [apply only_touches_refl|by left]. Qed.

Lemma moves_size b m n : moves b (with_size b n) m m.
Proof. split; [apply only_touches_refl|by left]. Qed.

Lemma moves_trans b b1 b2 m m1 m2 :
  moves b b1 m m1 → moves b1 b2 m1 m2 → moves b b2 m m2.
Proof.
  intros [Ht1 Hb1] [Ht2 Hb2]. split.
  - by eapply only_touches_trans.
  - pose proof (ot_next _ _ _ Ht1). destruct Hb1 as [<-|], Hb2 as [->|]; auto; right; lia.
Qed.

(** The contract between the buffer builders and [ensure]: [inv] is what the
    kind of buffer maintains on top of [mbuf_rep], [refuses m b n] when it may
    refuse to make room for [n] bytes.  [ensure b n] keeps the contents; if it
    returns true there is room for [n] bytes, if it returns false the buffer
    object is unchanged, there was no room and the kind refuses to make it. *)
Class EnsureSpec (E : Ensure) (inv : memory → MutableBuffer → Prop)
    (refuses : memory → MutableBuffer → Z → Prop) : Prop := {
  ensure_ok m b l n :
    mem_wf m → mbuf_rep m b l → inv m b → 0 < n <= 4 * ADDR_SPACE →
    wp (ensure b n) (λ r m', mem_wf m' ∧ mbuf_rep m' r.2 l ∧ inv m' r.2 ∧ moves b r.2 m m'
                             ∧ if r.1 : bool then n <= capacity_ r.2
                               else r.2 = b ∧ refuses m b n) m;
  refuses_full m b n : refuses m b n → inv m b → capacity_ b < n;
  inv_write m b c c' n :
    inv m b → blocks m !! pblk (data_ b) = Some c → length c' = length c →
    inv (set_blocks <[pblk (data_ b) := c']> m) (with_size b n);
}.

Section rep.
Implicit Types (m : memory) (b : MutableBuffer) (l d : bytes).

Lemma rep_view m b l : mbuf_rep m b l → view m b l.
Proof. intros [Hs (r & Hm & _)]. apply mem_at_app in Hm as [Hm _]. done. Qed.

Lemma rep_capacity m b l :
  mem_wf m → mbuf_rep m b l → 0 <= size_ b <= capacity_ b ∧ capacity_ b <= ADDR_SPACE.
Proof.
  intros Hwf [Hs (r & Hm & Hc)]. pose proof (mem_at_length _ _ _ Hwf Hm).
  rewrite length_app in *. lia.
Qed.

Lemma rep_empty m : mbuf_rep m MutableBuffer.new [].
Proof. split; [done|]. by exists []. Qed.

Lemma rep_tick m b l : mbuf_rep m b l → mbuf_rep (tick m) b l.
Proof. by intros [??]. Qed.

Lemma rep_resize m b l n :
  mbuf_rep m b l → 0 <= n <= size_ b → mbuf_rep m (with_size b n) (take (Z.to_nat n) l).
Proof.
  intros [Hs (r & Hm & Hc)] Hn. split; simpl; [rewrite length_take; lia|].
  exists (drop (Z.to_nat n) l ++ r). by rewrite app_assoc, take_drop.
Qed.

Lemma rep_frame m m' b l (blk : nat) :
  mem_wf m → only_touches blk m m' → pblk (data_ b) ≠ blk → mbuf_rep m b l → mbuf_rep m' b l.
Proof.
  intros Hwf Ht Hne [Hs (r & Hm & Hc)]. split; [done|]. exists r. split; [|done].
  by eapply only_touches_mem_at.
Qed.

Lemma owned_frame m m' b (blk : nat) :
  mem_wf m → only_touches blk m m' → pblk (data_ b) ≠ blk → owned m b → owned m' b.
Proof.
  intros Hwf Ht Hne [?|(Ho & Hp & c & Hc & Hl)]; [by left|right]. split; [done|]. split; [done|].
  exists c. split; [|done]. rewrite (ot_same _ _ _ Ht); [done| |done].
  apply Nat.nle_gt. intros Hle. by rewrite (wf_fresh _ Hwf) in Hc.
Qed.

(** Two managed buffers are apart when they do not share a block. *)
Definition apart (p q : nat) : Prop := p ≠ q ∨ p = 0%nat.

Lemma apart_sym p q : apart p q → apart q p.
Proof. unfold apart. destruct (decide (q = 0%nat)); [by right|]. intros [?| ->]; by left. Qed.

Lemma rep_apart m m' b l (blk : nat) :
  mem_wf m → only_touches blk m m' → apart (pblk (data_ b)) blk →
  mbuf_rep m b l → owned m b → mbuf_rep m' b l ∧ owned m' b.
Proof.
  intros Hwf Ht Hb Hrep Hown. destruct (decide (pblk (data_ b) = blk)) as [Heq|Hne].
  2:{ split; [by apply (rep_frame m m' b l blk)|by apply (owned_frame m m' b blk)]. }
  assert (pblk (data_ b) = 0%nat) as H0 by (destruct Hb; congruence).
  assert (data_ b = nullp ∧ capacity_ b = 0) as [Hn Hc].
  { destruct Hown as [?|(_ & _ & x & Hx & _)]; [done|]. by rewrite H0, (wf_null _ Hwf) in Hx. }
  split; [|by left]. destruct Hrep as [Hs (r & _ & Hr)]. split; [done|]. exists r.
  split; [|done]. rewrite length_app in Hr. destruct l, r; simpl in *; try lia. done.
Qed.

(** Storing [d] behind the contents, when it fits. *)
Lemma rep_store m b l d :
  mem_wf m → mbuf_rep m b l → d ≠ [] → size_ b + Z.of_nat (length d) <= capacity_ b →
  ∃ c c', blocks m !! pblk (data_ b) = Some c ∧ length c' = length c
    ∧ 0 <= poff (BufferBase.end_ b)
    ∧ poff (BufferBase.end_ b) + Z.of_nat (length d) <= Z.of_nat (length c)
    ∧ c' = write_at c (Z.to_nat (poff (BufferBase.end_ b))) d
    ∧ mbuf_rep (set_blocks <[pblk (data_ b) := c']> m)
        (with_size b (size_ b + Z.of_nat (length d))) (l ++ d).
Proof.
  intros Hwf [Hs (r & Hm & Hc)] Hd Hle. rewrite length_app in Hc.
  assert (0 < length d)%nat by (destruct d; [done|simpl; lia]).
  assert (l ++ r ≠ []) by (destruct l, r; simpl in *; try done; lia).
  apply mem_at_block in Hm as (c & Hblk & Ho & Ht); [|done].
  set (o := Z.to_nat (poff (data_ b))) in *.
  assert (length l + length r <= length c - o)%nat as Hlen.
  { apply (f_equal length) in Ht. rewrite length_take, length_drop, length_app in Ht. lia. }
  unfold BufferBase.end_. simpl poff.
  replace (Z.to_nat (poff (data_ b) + size_ b)) with (o + length l)%nat by lia.
  exists c, (write_at c (o + length l) d).
  split; [done|]. split; [apply length_write_at; lia|]. split; [lia|]. split; [lia|].
  split; [done|]. split; simpl; [rewrite length_app; lia|].
  exists (drop (length d) r). split; [|rewrite !length_app, length_drop; lia].
  eapply (mem_at_intro _ _ _ (take o c) _ (drop (o + length l + length r) c));
    [by simpl; rewrite lookup_insert_eq| |rewrite length_take; simpl; lia].
  assert (c = take o c ++ l ++ r ++ drop (o + length l + length r) c) as Hsplit.
  { rewrite <- (take_drop o c) at 1. f_equal.
    rewrite <- (take_drop (length (l ++ r)) (drop o c)), Ht, <- app_assoc, drop_drop.
    rewrite length_app. by rewrite Nat.add_assoc. }
  rewrite <- write_at_middle by lia. rewrite <- Hsplit. f_equal.
  rewrite length_take. lia.
Qed.
End rep.

(** ** The builders, against the [ensure] contract *)

(** Outcome of an append of [d] to [b], which held [l]: everything or nothing. *)
Record appended (inv : memory → MutableBuffer → Prop)
    (refuses : memory → MutableBuffer → Z → Prop) (b : MutableBuffer) (l d : bytes)
    (m : memory) (b' : MutableBuffer) (m' : memory) : Prop := {
  app_wf : mem_wf m';
  app_inv : inv m' b';
  app_moves : moves b b' m m';
  app_rep : mbuf_rep m' b' (l ++ d)
            ∨ (b' = b ∧ mbuf_rep m' b' l ∧ refuses m b (Z.of_nat (length (l ++ d))));
}.

Section builders.
Context {E : Ensure} {inv : memory → MutableBuffer → Prop}
  {refuses : memory → MutableBuffer → Z → Prop} `{!EnsureSpec E inv refuses}.
Implicit Types (m : memory) (b : MutableBuffer) (l d : bytes).

Lemma appended_nil b l m :
  mem_wf m → inv m b → mbuf_rep m b l → appended inv refuses b l [] m b m.
Proof. intros. split; [done..|apply moves_refl|]. left. by rewrite app_nil_r. Qed.

(** If [write] stores [d] at the end of whatever block the buffer lives in
    after [reserve], the append is all or nothing. *)
Lemma append_with_spec m b l d n (write : MutableBuffer → MM ()) :
  mem_wf m → mbuf_rep m b l → inv m b → d ≠ [] → n = Z.of_nat (length d) →
  n <= ADDR_SPACE →
  (∀ m1 b1 c, mem_wf m1 → mbuf_rep m1 b1 l → moves b b1 m m1 →
     blocks m1 !! pblk (data_ b1) = Some c → 0 <= poff (BufferBase.end_ b1) →
     poff (BufferBase.end_ b1) + Z.of_nat (length d) <= Z.of_nat (length c) →
     write b1 m1 = Ok ((), set_blocks <[pblk (data_ b1) :=
        write_at c (Z.to_nat (poff (BufferBase.end_ b1))) d]> m1)) →
  wp (MutableBuffer.append_with b n write) (λ b' m', appended inv refuses b l d m b' m') m.
Proof.
  intros Hwf Hrep Hinv Hd -> Hmax Hwrite. unfold MutableBuffer.append_with, MutableBuffer.reserve.
  pose proof (rep_capacity _ _ _ Hwf Hrep) as [Hsz Hcap].
  assert (0 < length d)%nat by (destruct d; [done|simpl; lia]).
  rewrite u64_small by zlia.
  wp_step. wp_apply (ensure_ok m b l); [done|done|done|zlia|].
  intros [ok b1] m1 (Hwf1 & Hrep1 & Hinv1 & Hmv & Hok). simpl in *.
  pose proof (rep_size _ _ _ Hrep) as Hs0.
  destruct ok.
  2:{ destruct Hok as [-> Href]. wp_step. split; [done..|]. right. split; [done|].
      split; [done|]. rewrite length_app, Nat2Z.inj_add. by rewrite <- Hs0. }
  pose proof (rep_size _ _ _ Hrep1) as Hs1.
  pose proof (rep_capacity _ _ _ Hwf1 Hrep1) as [Hsz1 Hcap1].
  destruct (rep_store m1 b1 l d) as (c & c' & Hc & Hlen & Ho & Hfit & -> & Hrep2);
    [done|done|done|lia|].
  wp_step. eapply wp_Ok; [by apply (Hwrite m1 b1 c)|].
  wp_step. rewrite u64_small by zlia. split.
  - by eapply mem_wf_write.
  - by eapply inv_write.
  - eapply moves_trans; [exact Hmv|]. split; [by eapply only_touches_write|by left].
  - by left.
Qed.

(** [push_back(ptr, size)] of bytes that live outside of the buffer. *)
Lemma push_back_spec m b l src d n :
  mem_wf m → mbuf_rep m b l → inv m b → mem_at m src d → n = Z.of_nat (length d) →
  pblk src ≠ pblk (data_ b) →
  wp (MutableBuffer.push_back b src n) (λ b' m', appended inv refuses b l d m b' m') m.
Proof.
  intros Hwf Hrep Hinv Hsrc -> Hne. unfold MutableBuffer.push_back.
  destruct (decide (d = [])) as [->|Hd]; [simpl; wp_step; by apply appended_nil|].
  replace (_ =? 0) with false by (destruct d; [done|simpl; lia]). cbn [negb].
  pose proof (mem_at_length _ _ _ Hwf Hsrc).
  apply (append_with_spec m b l d); try done.
  intros m1 b1 c Hwf1 Hrep1 Hmv Hc Ho Hfit.
  apply (memcpy_ok _ (BufferBase.end_ b1)); try done.
  - eapply only_touches_mem_at; [exact Hwf|apply Hmv|done|done].
  - simpl. pose proof (mem_at_valid _ _ _ Hwf Hsrc Hd). destruct Hmv as [_ [?|?]]; lia.
Qed.

(** [push_back] from a local array. *)
Lemma push_back_local_spec m b l d :
  mem_wf m → mbuf_rep m b l → inv m b → Z.of_nat (length d) <= ADDR_SPACE →
  wp (MutableBuffer.push_back_local b d) (λ b' m', appended inv refuses b l d m b' m') m.
Proof.
  intros Hwf Hrep Hinv Hmax. unfold MutableBuffer.push_back_local.
  destruct (decide (d = [])) as [->|Hd]; [simpl; wp_step; by apply appended_nil|].
  replace (_ =? 0) with false by (destruct d; [done|simpl; lia]). cbn [negb].
  apply (append_with_spec m b l d); try done.
  intros m1 b1 c Hwf1 Hrep1 Hmv Hc Ho Hfit. by apply (write_range_ok _ (BufferBase.end_ b1)).
Qed.

(** [push_back(char)] *)
Lemma push_back_char_spec m b l x :
  mem_wf m → mbuf_rep m b l → inv m b →
  wp (MutableBuffer.push_back_char b x) (λ b' m', appended inv refuses b l [x] m b' m') m.
Proof.
  intros Hwf Hrep Hinv. apply (append_with_spec m b l [x]); try done.
  intros m1 b1 c Hwf1 Hrep1 Hmv Hc Ho Hfit. by apply (write_range_ok _ (BufferBase.end_ b1)).
Qed.

(** [push_back(const BufferRef& value)] of another buffer's bytes. *)
Lemma push_back_ref_spec m b l r d :
  mem_wf m → mbuf_rep m b l → inv m b → view m r d → pblk (data_ r) ≠ pblk (data_ b) →
  wp (MutableBuffer.push_back_ref b (MutableBuffer.Other r))
    (λ b' m', appended inv refuses b l d m b' m') m.
Proof.
  intros Hwf Hrep Hinv [Hm Hs] Hne. unfold MutableBuffer.push_back_ref. simpl.
  rewrite Hs. by apply push_back_spec.
Qed.

(** [b.push_back(b)]: the source is read through the buffer object itself,
    after it may have moved. *)
Lemma push_back_self_spec m b l :
  mem_wf m → mbuf_rep m b l → inv m b →
  wp (MutableBuffer.push_back_ref b MutableBuffer.This)
    (λ b' m', appended inv refuses b l l m b' m') m.
Proof.
  intros Hwf Hrep Hinv. unfold MutableBuffer.push_back_ref. simpl.
  pose proof (rep_size _ _ _ Hrep) as Hs. pose proof (rep_capacity _ _ _ Hwf Hrep) as [Hsz Hcap].
  destruct (decide (l = [])) as [->|Hl].
  { rewrite Hs. simpl. wp_step. by apply appended_nil. }
  replace (_ =? 0) with false by (destruct l; [done|simpl in *; lia]). cbn [negb].
  apply (append_with_spec m b l l); try done; [lia|].
  intros m1 b1 c Hwf1 Hrep1 Hmv Hc Ho Hfit.
  pose proof (rep_view _ _ _ Hrep1) as [Hm1 Hs1]. unfold memcpy, overlap.
  replace ((0 <? size_ b) && _) with false.
  2:{ unfold BufferBase.begin. simpl. rewrite !bool_decide_eq_true_2 by done. lia. }
  erewrite bind_Ok by (by eapply read_range_ok). by apply (write_range_ok _ (BufferBase.end_ b1)).
Qed.
End builders.

(** ** The fixed buffer *)

(** It stays at the storage it was given, and refuses what does not fit. *)
#[global] Instance fixed_ensure_spec data cap :
  EnsureSpec immutableEnsure (λ _ b, data_ b = data ∧ capacity_ b = cap) (λ _ _ n, cap < n).
Proof.
  split; [|by intros m b n ? [? ->]|by intros m b c c' n [??]].
  intros m b l n Hwf Hrep [Hd Hc] Hn. unfold ensure, immutableEnsure.
  wp_step. simpl. split_and!; try done; [apply moves_refl|].
  destruct (Z.leb_spec n (capacity_ b)); [done|]. split; [done|lia].
Qed.

(** ** The managed buffer *)
Section managed.
Context {AL : Allocator}.
Implicit Types (m : memory) (b : MutableBuffer) (l d : bytes).

Lemma owned_null m b l :
  mbuf_rep m b l → data_ b = nullp → capacity_ b = 0 → l = [].
Proof.
  intros [_ (r & _ & Hc)] _ H0. rewrite length_app in Hc. destruct l; [done|simpl in Hc; lia].
Qed.

Lemma owned_block m b l :
  mem_wf m → mbuf_rep m b l → owned m b → 0 < capacity_ b →
  ∃ r, blocks m !! pblk (data_ b) = Some (l ++ r) ∧ data_ b = Ptr (pblk (data_ b)) 0
       ∧ pblk (data_ b) ≠ 0%nat ∧ Z.of_nat (length (l ++ r)) = capacity_ b.
Proof.
  intros Hwf [Hs (r & Hm & Hc)] [[_ H0]|(Ho & _ & c & Hblk & Hlen)] Hpos; [lia|].
  exists r. assert (l ++ r ≠ []) by (intros E; rewrite E in Hc; simpl in Hc; lia).
  apply mem_at_block in Hm as (c' & Hc' & _ & Ht); [|done].
  assert (c' = c) as -> by congruence.
  rewrite Ho, drop_0, take_ge in Ht by lia. rewrite Ht in Hblk. split; [done|]. split.
  - destruct (data_ b) as [blk off]. simpl in *. by rewrite Ho.
  - split; [|done]. intros E. rewrite E, (wf_null _ Hwf) in Hblk. done.
Qed.

Lemma realloc_block m p old n :
  mem_wf m → blocks m !! pblk p = Some old → poff p = 0 → 0 < n →
  realloc p n m = match fresh_bytes m n with
                  | None => Ok (nullp, tick m)
                  | Some d =>
                      let keep := Nat.min (length old) (length d) in
                      Ok (alloc_block (set_blocks (delete (pblk p)) (tick m))
                            (take keep old ++ drop keep d))
                  end.
Proof.
  intros Hwf Hold Ho Hn. unfold realloc. replace (ptr_eqb p nullp) with false.
  - rewrite Ho, Z.eqb_refl, Hold. by replace (n =? 0) with false by lia.
  - symmetry. apply bool_decide_eq_false_2. intros ->. simpl in Hold.
    by rewrite (wf_null _ Hwf) in Hold.
Qed.

(** A buffer that has just been given the block [c], whose first bytes are
    [l]. *)
Lemma alloc_rep m c l r :
  mem_wf m → c = l ++ r → 0 < Z.of_nat (length c) <= ADDR_SPACE →
  let b' := mkMB (mkRef (Ptr (next m) 0) (Z.of_nat (length l))) (Z.of_nat (length c)) in
  let m' := (alloc_block m c).2 in
  mem_wf m' ∧ mbuf_rep m' b' l ∧ owned m' b'.
Proof.
  intros Hwf Hc Hlen. simpl. split; [|split].
  - by apply (mem_wf_alloc m c); [done|lia].
  - split; simpl; [done|]. exists r. rewrite <- Hc. split; [|done].
    eapply (mem_at_intro _ _ _ [] _ []); [simpl; by rewrite lookup_insert_eq| |done].
    by rewrite app_nil_r.
  - right. simpl. split; [done|]. split; [lia|]. exists c. by rewrite lookup_insert_eq.
Qed.

(** Growing or shrinking to [n > 0] bytes moves the contents into a fresh
    block of exactly [n] bytes, or fails and changes nothing. *)
Lemma setCapacity_realloc_spec m b l n :
  mem_wf m → mbuf_rep m b l → owned m b → 0 < n → size_ b <= n →
  match fresh_bytes m n with
  | None => setCapacity_realloc b n m = Ok ((false, b), tick m)
  | Some d => ∃ b' m', setCapacity_realloc b n m = Ok ((true, b'), m')
      ∧ mem_wf m' ∧ mbuf_rep m' b' l ∧ owned m' b' ∧ moves b b' m m' ∧ capacity_ b' = n
  end.
Proof.
  intros Hwf Hrep Hown Hn Hsn. pose proof (rep_size _ _ _ Hrep) as Hs.
  pose proof (wf_next _ Hwf) as Hnext.
  assert (Hfresh : ptr_eqb (Ptr (next m) 0) nullp = false).
  { apply bool_decide_eq_false_2. intros [= E]. lia. }
  assert (Hblock : ∃ m1 keep, mem_wf m1 ∧ next m1 = next m
    ∧ only_touches (pblk (data_ b)) m m1
    ∧ realloc (data_ b) n m = match fresh_bytes m n with
        | None => Ok (nullp, tick m)
        | Some d => Ok (alloc_block m1 (keep d)) end
    ∧ ∀ d, Z.of_nat (length d) = n → length (keep d) = length d ∧ ∃ r, keep d = l ++ r).
  { destruct Hown as [[Hnull H0]|Hown].
    - exists (tick m), (λ d, d). split; [by apply mem_wf_tick|]. split; [done|].
      split; [apply only_touches_tick|]. rewrite Hnull. split.
      + unfold realloc, malloc. by destruct (fresh_bytes m n).
      + rewrite (owned_null _ _ _ Hrep Hnull H0). intros d _. split; [done|by exists d].
    - destruct (owned_block m b l) as (r & Hblk & Hptr & Hne & Hlen);
        [done|done|by right|by destruct Hown as (_ & ? & _)|].
      exists (set_blocks (delete (pblk (data_ b))) (tick m)),
        (λ d, let keep := Nat.min (length (l ++ r)) (length d) in
              take keep (l ++ r) ++ drop keep d).
      split; [by apply mem_wf_delete, mem_wf_tick|]. split; [done|]. split.
      { eapply only_touches_trans; [apply only_touches_tick|apply only_touches_delete|by left]. }
      split; [by apply realloc_block; [..|rewrite Hptr|]|].
      intros d Hd. simpl. split; [rewrite length_app, length_take, length_drop; lia|].
      rewrite take_app_ge by (rewrite length_app; lia). eexists. by rewrite <- app_assoc. }
  destruct Hblock as (m1 & keep & Hwf1 & Hn1 & Ht1 & Hre & Hkeep).
  unfold setCapacity_realloc. destruct (fresh_bytes m n) as [d|] eqn:Hd.
  - pose proof (fresh_bytes_length _ _ _ Hd) as Hdl. pose proof (fresh_bytes_max _ _ _ Hd).
    destruct (Hkeep d Hdl) as (Hlen & r & Hpre).
    destruct (alloc_rep m1 (keep d) l r) as (W & R & O); [done|done|lia|].
    pose proof (only_touches_alloc (pblk (data_ b)) m1 (keep d)) as Ha.
    erewrite bind_Ok by exact Hre. simpl in *. rewrite Hn1 in *. rewrite Hfresh. cbn [negb].
    do 2 eexists. split; [done|]. rewrite Hlen, Hdl, <- Hs in R, O.
    split; [done|]. split; [done|]. split; [done|]. split; [|done].
    split; [|right; simpl; lia].
    eapply only_touches_trans; [exact Ht1|exact Ha|by left].
  - erewrite bind_Ok by exact Hre. change (ptr_eqb nullp nullp) with true. cbn [negb].
    by replace (n =? 0) with false by lia.
Qed.

(** The capacity that a growth request to [value] asks [realloc] for: the
    exact value for the first allocation, the next multiple of
    [CHUNK_SIZE] afterwards. *)
Definition grown (cap value : Z) : Z :=
  if cap =? 0 then value else value - 1 + CHUNK_SIZE - (value - 1) mod CHUNK_SIZE.

Lemma grown_spec cap value :
  0 < value →
  value <= grown cap value < value + CHUNK_SIZE
  ∧ (cap = 0 → grown cap value = value)
  ∧ (cap ≠ 0 → (CHUNK_SIZE | grown cap value)).
Proof.
  intros Hv. unfold grown. pose proof (Z.mod_pos_bound (value - 1) CHUNK_SIZE ltac:(done)).
  destruct (Z.eqb_spec cap 0) as [->|Hc].
  - unfold CHUNK_SIZE. split; [lia|]. done.
  - split; [unfold CHUNK_SIZE in *; lia|]. split; [done|]. intros _.
    exists ((value - 1) / CHUNK_SIZE + 1).
    pose proof (Z.div_mod (value - 1) CHUNK_SIZE ltac:(done)). lia.
Qed.

Lemma setCapacity_grow_eq b value m :
  0 <= capacity_ b < value → value <= 4 * ADDR_SPACE →
  setCapacity b value m = setCapacity_realloc b (grown (capacity_ b) value) m.
Proof.
  intros Hc Hv. unfold setCapacity, grown.
  replace ((value =? 0) && _) with false by lia. replace (capacity_ b <? value) with true by lia.
  destruct (Z.eqb_spec (capacity_ b) 0); simpl; [done|].
  pose proof (Z.mod_pos_bound (value - 1) CHUNK_SIZE ltac:(done)).
  rewrite (u64_small (value - 1)) by zlia. rewrite u64_small; [done|].
  unfold CHUNK_SIZE in *. zlia.
Qed.

Lemma setCapacity_grow_spec m b l value :
  mem_wf m → mbuf_rep m b l → owned m b → capacity_ b < value <= 4 * ADDR_SPACE →
  let n := grown (capacity_ b) value in
  match fresh_bytes m n with
  | None => setCapacity b value m = Ok ((false, b), tick m)
  | Some d => ∃ b' m', setCapacity b value m = Ok ((true, b'), m')
      ∧ mem_wf m' ∧ mbuf_rep m' b' l ∧ owned m' b' ∧ moves b b' m m' ∧ capacity_ b' = n
  end.
Proof.
  intros Hwf Hrep Hown Hv n. pose proof (rep_capacity _ _ _ Hwf Hrep).
  destruct (grown_spec (capacity_ b) value) as [Hg _]; [lia|].
  rewrite setCapacity_grow_eq by lia. apply setCapacity_realloc_spec; try done; lia.
Qed.

(** A managed buffer refuses only when the allocator does. *)
Definition out_of_memory (m : memory) (b : MutableBuffer) (n : Z) : Prop :=
  0 <= capacity_ b < n ∧ fresh_bytes m (grown (capacity_ b) n) = None.

#[global] Instance managed_ensure_spec : EnsureSpec mutableEnsure owned out_of_memory.
Proof.
  split.
  - intros m b l n Hwf Hrep Hown Hn. pose proof (rep_capacity _ _ _ Hwf Hrep).
    unfold ensure, mutableEnsure. replace (n =? 0) with false by lia. rewrite orb_false_r.
    destruct (Z.ltb_spec (capacity_ b) n) as [Hlt|Hge].
    + pose proof (setCapacity_grow_spec m b l n Hwf Hrep Hown ltac:(lia)) as Hg.
      destruct (grown_spec (capacity_ b) n ltac:(lia)) as [Hn' _]. simpl in Hg.
      destruct (fresh_bytes m _) eqn:Hfb.
      * destruct Hg as (b' & m' & He & W & R & O & M & C).
        eapply wp_Ok; [exact He|]. simpl. split_and!; try done. lia.
      * eapply wp_Ok; [exact Hg|]. simpl. split; [by apply mem_wf_tick|].
        split; [by apply rep_tick|]. split; [exact Hown|].
        split; [split; [apply only_touches_tick|by left]|].
        split; [done|]. split; [lia|done].
    + wp_step. simpl. split_and!; try done. apply moves_refl.
  - by intros m b n [[_ ?] _] _.
  - intros m b c c' n [[? ?]|(Ho & Hp & c0 & Hc0 & Hl)] Hc Hlen; [by left|right].
    simpl. split; [done|]. split; [done|]. exists c'. rewrite lookup_insert_eq.
    split; [done|]. assert (c0 = c) as -> by congruence. lia.
Qed.

(** C13: growing a managed buffer ([setCapacity(value)] with
    [value > capacity()]) keeps its contents and touches no other memory;
    the new capacity is [value] exactly the first time and the next multiple
    of [CHUNK_SIZE] later on; when there is no memory it returns false and
    the buffer is unchanged. *)
Theorem setCapacity_grow m b l value :
  mem_wf m → mbuf_rep m b l → owned m b → capacity_ b < value <= 4 * ADDR_SPACE →
  ∃ n, value <= n < value + CHUNK_SIZE
    ∧ (capacity_ b = 0 → n = value) ∧ (capacity_ b ≠ 0 → (CHUNK_SIZE | n))
    ∧ match fresh_bytes m n with
      | None => setCapacity b value m = Ok ((false, b), tick m)
      | Some d => ∃ b' m', setCapacity b value m = Ok ((true, b'), m')
          ∧ mem_wf m' ∧ mbuf_rep m' b' l ∧ owned m' b' ∧ moves b b' m m' ∧ capacity_ b' = n
      end.
Proof.
  intros Hwf Hrep Hown Hv. pose proof (rep_capacity _ _ _ Hwf Hrep).
  exists (grown (capacity_ b) value).
  destruct (grown_spec (capacity_ b) value) as (H1 & H2 & H3); [lia|].
  split; [done|]. split; [done|]. split; [done|]. by apply setCapacity_grow_spec.
Qed.

(** Shrinking ([0 < value < capacity()]) cuts the contents to the first
    [value] bytes and the capacity to exactly [value]; but when [realloc]
    fails the size has been cut all the same, although the code says
    "do not change anything". *)
Theorem setCapacity_shrink m b l value :
  mem_wf m → mbuf_rep m b l → owned m b → 0 < value < capacity_ b →
  match fresh_bytes m value with
  | None => setCapacity b value m
            = Ok ((false, with_size b (Z.min (size_ b) value)), tick m)
  | Some d => ∃ b' m', setCapacity b value m = Ok ((true, b'), m')
      ∧ mem_wf m' ∧ mbuf_rep m' b' (take (Z.to_nat value) l) ∧ owned m' b'
      ∧ moves b b' m m' ∧ capacity_ b' = value
  end.
Proof.
  intros Hwf Hrep Hown Hv. pose proof (rep_capacity _ _ _ Hwf Hrep) as [Hsz Hcap].
  pose proof (rep_size _ _ _ Hrep) as Hs.
  assert (Heq : setCapacity b value m
                = setCapacity_realloc (with_size b (Z.min (size_ b) value)) value m).
  { unfold setCapacity. replace ((value =? 0) && _) with false by lia.
    replace (capacity_ b <? value) with false by lia.
    replace (value <? capacity_ b) with true by lia.
    destruct (Z.ltb_spec value (size_ b)); f_equal.
    - by rewrite Z.min_r by lia.
    - rewrite Z.min_l by lia. by destruct b as [[]]. }
  rewrite Heq.
  pose proof (rep_resize m b l (Z.min (size_ b) value) Hrep ltac:(lia)) as Hrep'.
  replace (take (Z.to_nat (Z.min (size_ b) value)) l) with (take (Z.to_nat value) l) in Hrep'.
  2:{ destruct (Z.le_gt_cases value (size_ b)); [by rewrite Z.min_r by lia|].
      rewrite Z.min_l by lia. by rewrite !take_ge by lia. }
  exact (setCapacity_realloc_spec m (with_size b (Z.min (size_ b) value))
           (take (Z.to_nat value) l) value Hwf Hrep' Hown ltac:(lia) ltac:(simpl; lia)).
Qed.

Lemma setCapacity_zero_spec m b l value :
  mem_wf m → mbuf_rep m b l → owned m b → 0 < capacity_ b → 0 < value <= 4 * ADDR_SPACE →
  ∃ m', setCapacity b 0 m = Ok ((true, mkMB (base b) 0), m')
    ∧ blocks m' !! pblk (data_ b) = None
    ∧ setCapacity (mkMB (base b) 0) value m' = UB.
Proof.
  intros Hwf Hrep Hown Hc Hv.
  destruct (owned_block m b l) as (r & Hblk & Hptr & Hne & _); [done..|].
  assert (Hnn : ptr_eqb (data_ b) nullp = false).
  { apply bool_decide_eq_false_2. rewrite Hptr. by intros [= ?]. }
  assert (Ho : poff (data_ b) = 0) by (by rewrite Hptr).
  exists (set_blocks (delete (pblk (data_ b))) m). split; [|split].
  - unfold setCapacity. replace (capacity_ b =? 0) with false by lia. simpl.
    unfold free. rewrite (bind_Ok _ _ _ () (set_blocks (delete (pblk (data_ b))) m)); [done|].
    rewrite Hnn, Ho, Hblk. by rewrite bool_decide_eq_true_2.
  - simpl. apply lookup_delete_eq.
  - rewrite setCapacity_grow_eq by (simpl; lia). unfold setCapacity_realloc.
    apply bind_UB. unfold realloc. simpl data_. rewrite Hnn, Ho, Z.eqb_refl. simpl.
    by rewrite lookup_delete_eq.
Qed.

(** [setCapacity(0)] on a buffer with storage frees it but keeps [data_]
    and [size_]: every later attempt to grow the buffer reallocates freed
    memory, which is undefined behaviour. *)
Theorem setCapacity_zero_dangles m b l value :
  mem_wf m → mbuf_rep m b l → owned m b → 0 < capacity_ b → 0 < value <= 4 * ADDR_SPACE →
  ∃ m', setCapacity b 0 m = Ok ((true, mkMB (base b) 0), m')
    ∧ blocks m' !! pblk (data_ b) = None
    ∧ setCapacity (mkMB (base b) 0) value m' = UB.
Proof.
  intros. by eapply setCapacity_zero_spec.
Qed.
End managed.
