(* ===== verification/BufferSpec.v ===== *)
(** * BufferSpec: buffers as byte strings

    The abstract specification of a mutable buffer is a byte string; building
    operations append to it, all or nothing.  Every sequence of operations of
    a [MutableBuffer<ensure>] refines that specification, for every [ensure]
    that meets [EnsureSpec]; the instances are [FixedBuffer] and [Buffer].
    Then what is special to [Buffer] (include/xio/Buffer.h): copies and moves,
    aliasing, [c_str], [printf] and number round trips. *)

From S2P Require Import Prelude Memory BufferBase BufferParse MutableBuffer.

Local Open Scope Z_scope.

(** ** Programs on one buffer *)

Inductive buf_op : Type :=
| PushBytes (d : bytes)       (* push_back(local array, n) *)
| PushChar (c : byte)         (* push_back(char) *)
| PushSigned (z : Z)          (* push_back(int / long / long long) *)
| PushSelf                    (* b.push_back(b) *)
| Clear
| Resize (n : Z)
| Reserve (n : Z).

Section run.
Context {E : Ensure}.

Definition run_op (o : buf_op) (b : MutableBuffer) : MM MutableBuffer :=
  match o with
  | PushBytes d => MutableBuffer.push_back_local b d
  | PushChar c => MutableBuffer.push_back_char b c
  | PushSigned z => MutableBuffer.push_back_signed b z
  | PushSelf => MutableBuffer.push_back_ref b MutableBuffer.This
  | Clear => mret (MutableBuffer.clear b)
  | Resize n => mret (MutableBuffer.resize b n).2
  | Reserve n => '(_, b) ← MutableBuffer.reserve b n; mret b
  end.

Fixpoint run_ops (os : list buf_op) (b : MutableBuffer) : MM MutableBuffer :=
  match os with [] => mret b | o :: os => b ← run_op o b; run_ops os b end.
End run.

(** Operations within the address space; [reserve(0)] frees a managed buffer
    and is not part of building one. *)
Definition op_ok (o : buf_op) : Prop :=
  match o with
  | PushBytes d => Z.of_nat (length d) <= ADDR_SPACE
  | PushSigned z => - 2 ^ 63 <= z < 2 ^ 64
  | Resize n => 0 <= n
  | Reserve n => 0 < n <= 4 * ADDR_SPACE
  | _ => True
  end.

(** The specification: an append happens, or its result is too long and it does
    not; a resize cuts the string, extends it into the capacity, or is refused. *)
Section spec.
Context (refused : Z → Prop).

Inductive append_op : buf_op → bytes → bytes → Prop :=
| append_bytes d l : append_op (PushBytes d) l d
| append_char c l : append_op (PushChar c) l [c]
| append_signed z l : append_op (PushSigned z) l (fmt_d z)
| append_self l : append_op PushSelf l l.

Inductive spec_op : buf_op → bytes → bytes → Prop :=
| spec_append o l d : append_op o l d → spec_op o l (l ++ d)
| spec_append_no o l d :
    append_op o l d → refused (Z.of_nat (length (l ++ d))) → spec_op o l l
| spec_clear l : spec_op Clear l []
| spec_cut n l : 0 <= n <= Z.of_nat (length l) → spec_op (Resize n) l (take (Z.to_nat n) l)
| spec_extend n l x : Z.of_nat (length (l ++ x)) = n → spec_op (Resize n) l (l ++ x)
| spec_resize_no n l : Z.of_nat (length l) < n → spec_op (Resize n) l l
| spec_reserve n l : spec_op (Reserve n) l l.

Inductive spec_ops : list buf_op → bytes → bytes → Prop :=
| spec_nil l : spec_ops [] l l
| spec_cons o os l l1 l2 : spec_op o l l1 → spec_ops os l1 l2 → spec_ops (o :: os) l l2.
End spec.

#[export] Hint Constructors append_op spec_op spec_ops : core.

Section refinement.
Context {E : Ensure} {inv : memory → MutableBuffer → Prop}
  {refuses : memory → MutableBuffer → Z → Prop} `{!EnsureSpec E inv refuses}.
Context (refused : Z → Prop).
Implicit Types (m : memory) (b : MutableBuffer) (l d : bytes).

(** The kind's invariant does not depend on the size; [refused] covers every
    reason for which the kind refuses to grow. *)
Hypothesis inv_size : ∀ m b n, inv m b → inv m (with_size b n).
Hypothesis refuses_refused : ∀ m b n, refuses m b n → refused n.

(** The buffer invariant with its abstract value. *)
Definition good (m : memory) (b : MutableBuffer) (l : bytes) : Prop :=
  mem_wf m ∧ mbuf_rep m b l ∧ inv m b.

Definition stepped (o : buf_op) m b l b' m' : Prop :=
  moves b b' m m' ∧ ∃ l', spec_op refused o l l' ∧ good m' b' l'.

Lemma appended_good o b l d m b' m' :
  append_op o l d → appended inv refuses b l d m b' m' → stepped o m b l b' m'.
Proof.
  intros Ho [W I M [H|(_ & H & Hr)]]; (split; [done|]).
  - exists (l ++ d). split; [by constructor|by split].
  - exists l. split; [|by split]. econstructor; eauto.
Qed.

Lemma rep_extend m b l n :
  mbuf_rep m b l → size_ b <= n <= capacity_ b →
  ∃ x, Z.of_nat (length (l ++ x)) = n ∧ mbuf_rep m (with_size b n) (l ++ x).
Proof.
  intros [Hs (r & Hm & Hc)] Hn. rewrite length_app in Hc.
  set (k := (Z.to_nat n - length l)%nat). exists (take k r).
  assert (Z.of_nat (length (l ++ take k r)) = n) as Hlen
    by (rewrite length_app, length_take; lia).
  split; [done|]. split; simpl; [done|]. exists (drop k r).
  rewrite <- app_assoc, take_drop, length_app. done.
Qed.

Lemma run_op_refines m b l o :
  good m b l → op_ok o → wp (run_op o b) (stepped o m b l) m.
Proof.
  intros (Hwf & Hrep & Hinv) Ho. pose proof (rep_capacity _ _ _ Hwf Hrep) as [Hsz Hcap].
  pose proof (rep_size _ _ _ Hrep) as Hs.
  destruct o as [d|c|z| | |n|n]; simpl in *.
  - wp_apply (push_back_local_spec m b l d); [done..|]. eauto using appended_good.
  - wp_apply (push_back_char_spec m b l c); [done..|]. eauto using appended_good.
  - pose proof (length_fmt_d z ltac:(lia)).
    wp_apply (push_back_local_spec m b l (fmt_d z)); [done..|zlia|]. eauto using appended_good.
  - wp_apply (push_back_self_spec m b l); [done..|]. eauto using appended_good.
  - wp_step. split; [apply moves_size|]. exists []. split; [done|]. split; [done|].
    split; [|by apply inv_size]. by apply (rep_resize m b l 0 Hrep ltac:(lia)).
  - wp_step. unfold MutableBuffer.resize.
    destruct (Z.ltb_spec (capacity_ b) n); simpl; (split; [apply moves_refl || apply moves_size|]).
    + exists l. split; [constructor; lia|done].
    + destruct (Z.le_gt_cases n (size_ b)).
      * exists (take (Z.to_nat n) l). split; [constructor; lia|]. split; [done|].
        split; [by apply rep_resize|by apply inv_size].
      * destruct (rep_extend m b l n) as (x & Hx & Hr); [done|lia|].
        exists (l ++ x). split; [by constructor|]. split; [done|].
        split; [done|by apply inv_size].
  - wp_step. wp_apply (ensure_ok m b l n); [done..|].
    intros [ok b'] m' (W & R & I & M & _). simpl in *. wp_step.
    split; [done|]. exists l. done.
Qed.

Lemma run_ops_refines os : ∀ m b l,
  good m b l → Forall op_ok os →
  wp (run_ops os b)
    (λ b' m', moves b b' m m' ∧ ∃ l', spec_ops refused os l l' ∧ good m' b' l') m.
Proof.
  induction os as [|o os IH]; intros m b l Hg Hok; simpl.
  - wp_step. split; [apply moves_refl|]. eauto.
  - apply Forall_cons_1 in Hok as [Ho Hos]. wp_step.
    eapply wp_mono; [by eapply run_op_refines|]. intros b1 m1 (M1 & l1 & S1 & G1).
    eapply wp_mono; [by eapply IH|]. intros b2 m2 (M2 & l2 & S2 & G2).
    split; [by eapply moves_trans|]. eauto.
Qed.
End refinement.

(** A managed buffer may find no memory for [n] bytes. *)
Definition no_memory `{Allocator} (n : Z) : Prop :=
  ∃ m k, n <= k < n + CHUNK_SIZE ∧ fresh_bytes m k = None.

Lemma oom_no_memory `{Allocator} m b n : out_of_memory m b n → no_memory n.
Proof.
  intros [Hc Hf]. exists m, (grown (capacity_ b) n). split; [apply grown_spec; lia|done].
Qed.

Lemma owned_size m b n : owned m b → owned m (with_size b n).
Proof. done. Qed.

(** C2: the same for a [FixedBuffer] over given storage: it never moves or
    grows, an append is dropped as a whole and only when it does not fit. *)
Theorem fixed_ops_refine os m b l :
  mem_wf m → mbuf_rep m b l → Forall op_ok os →
  wp (run_ops (E := immutableEnsure) os b)
    (λ b' m', only_touches (pblk (data_ b)) m m'
              ∧ data_ b' = data_ b ∧ capacity_ b' = capacity_ b
              ∧ ∃ l', spec_ops (λ n, capacity_ b < n) os l l' ∧ mbuf_rep m' b' l') m.
Proof.
  intros Hwf Hrep Hok.
  eapply wp_mono.
  - apply (run_ops_refines (E := immutableEnsure)
      (EnsureSpec0 := fixed_ensure_spec (data_ b) (capacity_ b)) (λ n, capacity_ b < n)); try done.
  - intros b' m' ([M _] & l' & S & _ & R & D & C). eauto 10.
Qed.

(** ** Writing behind the contents *)
Section behind.
Context {E : Ensure} {inv : memory → MutableBuffer → Prop}
  {refuses : memory → MutableBuffer → Z → Prop} `{!EnsureSpec E inv refuses}.
Implicit Types (m : memory) (b : MutableBuffer) (l d : bytes).

Lemma with_size_id b : with_size b (size_ b) = b.
Proof. by destruct b as [[]]. Qed.

(** Bytes stored behind the contents, within the capacity, do not change
    them. *)
Lemma wp_write_behind m b l d (Q : () → memory → Prop) :
  mem_wf m → mbuf_rep m b l → inv m b → d ≠ [] →
  size_ b + Z.of_nat (length d) <= capacity_ b →
  (∀ m', mem_wf m' → mbuf_rep m' b l → inv m' b → only_touches (pblk (data_ b)) m m' →
     mbuf_rep m' (with_size b (size_ b + Z.of_nat (length d))) (l ++ d) → Q () m') →
  wp (write_range (data_ b +ₚ size_ b) d) Q m.
Proof.
  intros Hwf Hrep Hinv Hd Hfit HQ. pose proof (rep_size _ _ _ Hrep) as Hs.
  destruct (rep_store m b l d) as (c & c' & Hc & Hlen & Ho & Hle & -> & Hrep2);
    [done|done|done|lia|].
  eapply wp_Ok; [by apply (write_range_ok _ (BufferBase.end_ b))|]. simpl pblk.
  apply HQ; [by eapply mem_wf_write| | |by eapply only_touches_write|done].
  - pose proof (rep_resize _ _ _ (size_ b) Hrep2 ltac:(simpl; lia)) as Hr.
    rewrite take_app_length' in Hr by lia. rewrite <- (with_size_id b). exact Hr.
  - pose proof (inv_write (inv := inv) _ _ _ _ (size_ b) Hinv Hc Hlen) as Hi.
    rewrite with_size_id in Hi. exact Hi.
Qed.
End behind.

(** ** Buffers as values *)
Section values.
Context {AL : Allocator}.
Let E : Ensure := mutableEnsure.
#[local] Existing Instance E.
Implicit Types (m : memory) (b v : MutableBuffer) (l d : bytes).

Lemma owned_new m : owned m MutableBuffer.new.
Proof. by left. Qed.

(** Whatever a new buffer does leaves every existing buffer alone. *)
Lemma rep_frame_new m m' c v l :
  mem_wf m → moves MutableBuffer.new c m m' → mbuf_rep m v l → mbuf_rep m' v l.
Proof.
  intros Hwf [Ht _] Hrep. destruct (decide (pblk (data_ v) = 0%nat)) as [E0|].
  - destruct Hrep as [Hs (r & Hm & Hc)]. split; [done|]. exists r. split; [|done].
    destruct (decide (l ++ r = [])) as [->|Hne]; [apply mem_at_nil|].
    pose proof (mem_at_valid _ _ _ Hwf Hm Hne). lia.
  - by eapply rep_frame.
Qed.

Lemma copy_spec m v l :
  mem_wf m → mbuf_rep m v l →
  wp (Buffer.copy v)
    (λ c m', appended owned out_of_memory MutableBuffer.new [] l m c m') m.
Proof.
  intros Hwf Hrep. pose proof (rep_view _ _ _ Hrep) as [Hm Hs]. unfold Buffer.copy. rewrite Hs.
  destruct (decide (l = [])) as [->|Hl].
  { unfold MutableBuffer.push_back. simpl. wp_step.
    apply appended_nil; [done|apply owned_new|apply rep_empty]. }
  apply push_back_spec; try done; [apply rep_empty|by left|].
  pose proof (mem_at_valid _ _ _ Hwf Hm Hl). simpl. lia.
Qed.

(** C25: the copy constructor makes a deep copy: the copy holds the same bytes
    (or is empty, when there is no memory) and whatever is done to it
    afterwards leaves the original buffer as it was. *)
Theorem copy_independent m v l os :
  mem_wf m → mbuf_rep m v l → Forall op_ok os →
  wp (Buffer.copy v) (λ c m',
    owned m' c ∧ mbuf_rep m' v l
    ∧ (mbuf_rep m' c l ∨ c = MutableBuffer.new ∧ no_memory (Z.of_nat (length l)))
    ∧ wp (run_ops os c) (λ c' m'', mbuf_rep m'' v l) m') m.
Proof.
  intros Hwf Hrep Hos. wp_apply (copy_spec m v l); [done..|].
  intros c m' [W O M R]. split; [done|]. split; [by apply (rep_frame_new m m' c)|]. split.
  - destruct R as [R|(Hc & _ & Hn%oom_no_memory)]; auto.
  - assert (∃ lc, mbuf_rep m' c lc) as [lc Hlc] by (destruct R as [?|(_ & ? & _)]; eauto).
    eapply wp_mono.
    + apply (run_ops_refines (E := mutableEnsure) (inv := owned) (λ _, True)) with (l := lc); done.
    + intros c' m'' [M' _]. apply (rep_frame_new m m'' c'); [done| |done]. by eapply moves_trans.
Qed.

(** [setCapacity(0)], which the destructor and the move assignment run. *)
Lemma reserve_zero m b l :
  mem_wf m → mbuf_rep m b l → owned m b →
  wp (MutableBuffer.reserve b 0)
    (λ r m', r.1 = true ∧ mem_wf m' ∧ only_touches (pblk (data_ b)) m m'
             ∧ blocks m' !! pblk (data_ b) = None) m.
Proof.
  intros Hwf Hrep Hown. unfold MutableBuffer.reserve, ensure, E, mutableEnsure.
  rewrite orb_true_r. unfold setCapacity. destruct Hown as [[Hd H0]|Hown].
  - rewrite H0, Hd. simpl. wp_step. simpl. split; [done|]. split; [done|].
    split; [apply only_touches_refl|by apply wf_null].
  - destruct (owned_block m b l) as (r & Hblk & Hptr & Hne & Hlen);
      [done|done|by right|by destruct Hown as (_ & ? & _)|].
    replace (capacity_ b =? 0) with false by (destruct Hown; lia). simpl. wp_step.
    unfold free. eapply wp_Ok.
    { rewrite Hptr. unfold ptr_eqb. rewrite bool_decide_eq_false_2 by (by intros [= ?]).
      simpl. rewrite bool_decide_eq_true_2 by (by rewrite Hblk). done. }
    wp_step. simpl. split; [done|]. split; [by apply mem_wf_delete|].
    split; [apply only_touches_delete|apply lookup_delete_eq].
Qed.

(** The destructor returns the buffer's block and touches nothing else. *)
Lemma destroy_frees m b l :
  mem_wf m → mbuf_rep m b l → owned m b →
  wp (Buffer.destroy b) (λ _ m', mem_wf m' ∧ only_touches (pblk (data_ b)) m m'
                                 ∧ blocks m' !! pblk (data_ b) = None) m.
Proof.
  intros Hwf Hrep Hown. unfold Buffer.destroy. wp_step.
  wp_apply (reserve_zero m b l); [done..|]. intros [ok b'] m' (_ & H). by wp_step.
Qed.

(** Move assignment frees the target's storage and hands over the source's
    block without copying; the source is a valid empty buffer. *)
Theorem assign_move_transfers m b v lb lv :
  mem_wf m → mbuf_rep m b lb → owned m b → mbuf_rep m v lv → owned m v →
  pblk (data_ v) ≠ pblk (data_ b) →
  wp (Buffer.assign_move b v) (λ r m',
    data_ r.1 = data_ v ∧ mbuf_rep m' r.1 lv ∧ owned m' r.1
    ∧ mbuf_rep m' r.2 [] ∧ owned m' r.2
    ∧ mem_wf m' ∧ only_touches (pblk (data_ b)) m m'
    ∧ blocks m' !! pblk (data_ b) = None) m.
Proof.
  intros Hwf Hrep Hown Hrv Hov Hne. unfold Buffer.assign_move. wp_step.
  wp_apply (reserve_zero m b lb); [done..|]. intros [ok b'] m' (_ & Hwf' & Ht & Hn). wp_step.
  simpl. assert (mkMB (mkRef (data_ v) (size_ v)) (capacity_ v) = v) as ->
    by (by destruct v as [[]]).
  split; [done|]. split; [by apply (rep_frame m m' v lv (pblk (data_ b)))|].
  split; [by apply (owned_frame m m' v (pblk (data_ b)))|].
  split; [by apply rep_empty|]. split; [by left|]. done.
Qed.

(** [c_str()] returns a pointer to the contents followed by a NUL and
    leaves the contents alone; only without memory for one more byte is the
    result not terminated. *)
Theorem c_str_terminated m b l :
  mem_wf m → mbuf_rep m b l → owned m b →
  wp (Buffer.c_str b) (λ r m',
    r.1 = data_ r.2 ∧ mbuf_rep m' r.2 l ∧ owned m' r.2 ∧ moves b r.2 m m'
    ∧ (mem_at m' r.1 (l ++ [NUL]) ∨ no_memory (Z.of_nat (length l) + 1))) m.
Proof.
  intros Hwf Hrep Hown. pose proof (rep_capacity _ _ _ Hwf Hrep) as [Hsz Hcap].
  pose proof (rep_size _ _ _ Hrep) as Hs. unfold Buffer.c_str, MutableBuffer.reserve.
  rewrite u64_small by zlia. wp_step.
  wp_apply (ensure_ok (inv := owned) m b l); [done..|zlia|].
  intros [ok b1] m1 (W & R & O & M & Hok). simpl in *. pose proof (rep_size _ _ _ R) as Hs1.
  destruct ok; wp_step.
  - apply (wp_write_behind (inv := owned) m1 b1 l); [done..|simpl; lia|].
    intros m2 W2 R2 O2 T2 H2%rep_view. wp_step.
    simpl. split; [done|]. split; [done|]. split; [done|]. split; [|by left; apply H2].
    eapply moves_trans; [done|]. split; [done|by left].
  - wp_step. wp_step. simpl. split; [done|]. split; [done|]. split; [done|]. split; [done|].
    right. destruct Hok as [_ Hn%oom_no_memory]. by rewrite <- Hs.
Qed.

(** C27: a number pushed into an empty buffer is read back by [toInt()]. *)
Theorem push_toInt_roundtrip m z :
  mem_wf m → INT_MIN < z <= INT_MAX →
  wp (MutableBuffer.push_back_signed MutableBuffer.new z)
    (λ b m', no_memory (Z.of_nat (length (fmt_d z))) ∨ BufferBase.toInt b m' = Ok (z, m')) m.
Proof.
  intros Hwf Hz. pose proof (length_fmt_d z ltac:(zlia)).
  eapply wp_mono.
  - apply (push_back_local_spec (inv := owned) m MutableBuffer.new [] (fmt_d z));
      [done|apply rep_empty|by left|zlia].
  - intros b m' [_ _ _ [R|(_ & _ & Hn%oom_no_memory)]]; [|by left].
    right. apply rep_view in R. simpl in R.
    destruct (fmt_d_spec z) as (sgn & s & ds & E0 & Hs & Hne & Habs & Hval & HF & _); [zlia|].
    rewrite E0, <- (app_nil_r ds) in R. rewrite <- Hval.
    apply (toInt_spec m' b sgn s ds []); try done; zlia.
Qed.

Lemma grow_frees_old m b l value b' m' :
  mem_wf m → mbuf_rep m b l → owned m b → 0 < capacity_ b < value → value <= 4 * ADDR_SPACE →
  setCapacity b value m = Ok ((true, b'), m') → blocks m' !! pblk (data_ b) = None.
Proof.
  intros Hwf Hrep Hown Hc Hv. destruct (owned_block m b l) as (r & Hblk & Hptr & Hne & Hlen);
    [done..|lia|].
  destruct (grown_spec (capacity_ b) value) as [Hg _]; [lia|].
  rewrite setCapacity_grow_eq by lia. unfold setCapacity_realloc, mbind, ST_bind.
  rewrite (realloc_block m (data_ b) (l ++ r)) by (done || lia || by rewrite Hptr).
  destruct (fresh_bytes m _) as [d|].
  - simpl. case_match; [|case_match]; intros [= _ <-]; simpl;
      (rewrite lookup_insert_ne by (intros E0; rewrite <- E0, (wf_fresh _ Hwf) in Hblk; done));
      apply lookup_delete_eq.
  - simpl. by replace (grown (capacity_ b) value =? 0) with false by lia.
Qed.

(** Appending a reference to a part of the buffer itself
    ([b.push_back(b.ref())]) reads the freed block when the buffer has to
    grow, which is undefined behaviour; [b.push_back(b)] is fine. *)
Theorem push_own_ref_dangles m b l d :
  mem_wf m → mbuf_rep m b l → owned m b → l ≠ [] → capacity_ b < 2 * size_ b →
  fresh_bytes m (grown (capacity_ b) (2 * size_ b)) = Some d →
  MutableBuffer.push_back_ref b (MutableBuffer.Other (base b)) m = UB
  ∧ wp (MutableBuffer.push_back_ref b MutableBuffer.This)
      (λ b' m', mbuf_rep m' b' (l ++ l)) m.
Proof.
  intros Hwf Hrep Hown Hl Hc Hd. pose proof (rep_size _ _ _ Hrep) as Hs.
  pose proof (rep_capacity _ _ _ Hwf Hrep) as [Hsz Hcap].
  assert (0 < size_ b) by (destruct l; [done|simpl in *; lia]).
  split.
  - unfold MutableBuffer.push_back_ref. simpl. replace (size_ b =? 0) with false by lia.
    simpl. unfold MutableBuffer.append_with. rewrite u64_small by zlia.
    replace (size_ b + size_ b) with (2 * size_ b) by lia.
    pose proof (setCapacity_grow_spec m b l (2 * size_ b)) as Hg. simpl in Hg.
    rewrite Hd in Hg. destruct Hg as (b' & m' & He & W & R & O & M & C); [done..|zlia|].
    pose proof (grow_frees_old m b l (2 * size_ b) b' m') as Hold.
    erewrite bind_Ok. 2:{ unfold MutableBuffer.reserve, ensure, E, mutableEnsure.
      replace ((capacity_ b <? 2 * size_ b) || _) with true by lia. exact He. }
    simpl. apply bind_UB. unfold memcpy. destruct (_ && _); [done|]. apply bind_UB.
    unfold read_range, loadbytes, BufferBase.begin. replace (size_ b =? 0) with false by lia.
    by rewrite Hold by (done || zlia).
  - eapply wp_mono; [by apply (push_back_self_spec (inv := owned) m b l)|].
    intros b' m' [_ _ _ [R|(_ & _ & [_ Hf])]]; [done|].
    rewrite length_app in Hf. replace (Z.of_nat (length l + length l)) with (2 * size_ b) in Hf
      by lia. congruence.
Qed.
End values.

(** ** printf *)

(** One round of the loop. *)
Lemma printf_loop_S `{Ensure} fuel b out :
  MutableBuffer.printf_loop (S fuel) b out
  = let room := u64 (capacity_ b - size_ b) in
    buflen ← MutableBuffer.snprintf (BufferBase.end_ b) room out;
    if (-1 <=? buflen) && (buflen <? s64 room) then
      mret (MutableBuffer.resize b (u64 (size_ b + buflen))).2
    else
      let buflen := if -1 <? buflen then buflen + 1 else s64 (u64 (capacity_ b * 2)) in
      MutableBuffer.reserve b (u64 (capacity_ b + buflen)) ≫= λ r : bool * MutableBuffer,
      let '(ok, b) := r in
      if negb ok then
        write_range (data_ (base b) +ₚ u64 (capacity_ b - 1)) [NUL];; mret b
      else MutableBuffer.printf_loop fuel b out.
Proof. done. Qed.

Section printf.
Context {E : Ensure} {inv : memory → MutableBuffer → Prop}
  {refuses : memory → MutableBuffer → Z → Prop} `{!EnsureSpec E inv refuses}.
Implicit Types (m : memory) (b : MutableBuffer) (l d : bytes).
Hypothesis inv_size : ∀ m b n, inv m b → inv m (with_size b n).

Lemma room_eq m b l :
  mem_wf m → mbuf_rep m b l →
  u64 (capacity_ b - size_ b) = capacity_ b - size_ b
  ∧ s64 (capacity_ b - size_ b) = capacity_ b - size_ b.
Proof.
  intros Hwf Hrep. pose proof (rep_capacity _ _ _ Hwf Hrep).
  split; [apply u64_small; zlia|apply s64_small; zlia].
Qed.

(** One call of [snprintf] at the end of the buffer: the contents stay, and
    when the output and its terminator fit they are behind the contents. *)
Lemma snprintf_spec m b l d :
  mem_wf m → mbuf_rep m b l → inv m b → Z.of_nat (length d) <= INT_MAX →
  wp (MutableBuffer.snprintf (BufferBase.end_ b) (capacity_ b - size_ b) (Some d))
    (λ n m', n = Z.of_nat (length d) ∧ mem_wf m' ∧ mbuf_rep m' b l ∧ inv m' b
       ∧ only_touches (pblk (data_ b)) m m'
       ∧ (n < capacity_ b - size_ b → mbuf_rep m' (with_size b (size_ b + n)) (l ++ d))) m.
Proof.
  intros Hwf Hrep Hinv Hd. unfold MutableBuffer.snprintf.
  replace (INT_MAX <? Z.of_nat (length d)) with false by lia. wp_step.
  destruct (Z.ltb_spec 0 (capacity_ b - size_ b)) as [Hr|Hr].
  2:{ wp_step. wp_step. split; [done|]. split; [done|]. split; [done|]. split; [done|].
      split; [apply only_touches_refl|lia]. }
  set (t := take (Z.to_nat (capacity_ b - size_ b - 1)) d).
  assert (Ht : Z.of_nat (length (t ++ [NUL]))
               = Z.min (capacity_ b - size_ b - 1) (Z.of_nat (length d)) + 1)
    by (rewrite length_app; unfold t; rewrite length_take; simpl; lia).
  apply (wp_write_behind (inv := inv) m b l); [done|done|done|by destruct t|lia|].
  intros m' W R I T R2. wp_step. split; [done|]. split; [done|]. split; [done|].
  split; [done|]. split; [done|]. intros Hn.
  assert (t = d) as Htd by (apply take_ge; lia). rewrite Htd, app_assoc, length_app in R2.
  pose proof (rep_resize _ _ _ (size_ b + Z.of_nat (length d)) R2) as R3.
  pose proof (rep_size _ _ _ Hrep) as Hs.
  rewrite take_app_length' in R3 by (rewrite length_app; lia).
  apply R3. simpl. lia.
Qed.

(** The last round: the output fits. *)
Lemma printf_loop_fits m b l d fuel :
  mem_wf m → mbuf_rep m b l → inv m b → Z.of_nat (length d) <= INT_MAX →
  Z.of_nat (length d) < capacity_ b - size_ b →
  wp (MutableBuffer.printf_loop (S fuel) b (Some d))
    (λ b' m', mem_wf m' ∧ (mbuf_rep m' b' (l ++ d) ∧ size_ b' < capacity_ b')
       ∧ inv m' b' ∧ moves b b' m m') m.
Proof.
  intros Hwf Hrep Hinv Hd Hfit. pose proof (rep_capacity _ _ _ Hwf Hrep) as [Hsz Hcap].
  rewrite printf_loop_S. cbv zeta. destruct (room_eq m b l) as [-> ->]; [done..|]. wp_step.
  wp_apply (snprintf_spec m b l d); [done|done|done|zlia|].
  intros n m' (-> & W & R & I & T & R2). replace (_ && _) with true by lia. wp_step.
  unfold MutableBuffer.resize. rewrite u64_small by zlia.
  replace (capacity_ b <? size_ b + Z.of_nat (length d)) with false by lia. simpl.
  split; [done|]. split; [split; [apply R2|]; lia|]. split; [by apply inv_size|].
  split; [done|by left].
Qed.

(** What the contents become when [printf] gives up: the last byte of the
    storage is overwritten, which is a byte of a full buffer. *)
Definition clobbered (b : MutableBuffer) (l : bytes) : bytes :=
  if size_ b =? capacity_ b then take (pred (length l)) l ++ [NUL] else l.

Lemma wp_clobber m b l :
  mem_wf m → mbuf_rep m b l → inv m b → 0 < capacity_ b →
  wp (write_range (data_ b +ₚ u64 (capacity_ b - 1)) [NUL])
    (λ _ m', mem_wf m' ∧ mbuf_rep m' b (clobbered b l) ∧ inv m' b
             ∧ only_touches (pblk (data_ b)) m m') m.
Proof using inv_size EnsureSpec0.
  intros Hwf Hrep Hinv Hc. pose proof (rep_capacity _ _ _ Hwf Hrep) as [Hsz Hcap].
  pose proof (rep_size _ _ _ Hrep) as Hs. rewrite u64_small by zlia.
  assert (∃ l0, mbuf_rep m (with_size b (capacity_ b - 1)) l0
            ∧ clobbered b l = take (length l) (l0 ++ [NUL])) as (l0 & R0 & Hcl).
  { unfold clobbered. destruct (Z.eqb_spec (size_ b) (capacity_ b)).
    - exists (take (pred (length l)) l). split.
      + replace (pred (length l)) with (Z.to_nat (capacity_ b - 1)) by lia.
        apply rep_resize; [done|lia].
      + symmetry. apply take_ge. rewrite length_app, length_take. simpl. lia.
    - destruct (rep_extend m b l (capacity_ b - 1)) as (x & Hx & Hr); [done|lia|].
      exists (l ++ x). split; [done|]. rewrite <- app_assoc, take_app_length. done. }
  apply (wp_write_behind (inv := inv) m (with_size b (capacity_ b - 1)) l0 [NUL]);
    [done|done|by apply inv_size|done|simpl; lia|].
  intros m' W R I T R2. split; [done|]. simpl in R2.
  pose proof (rep_resize _ _ _ (size_ b) R2 ltac:(simpl; lia)) as R3.
  replace (Z.to_nat (size_ b)) with (length l) in R3 by lia. rewrite <- Hcl in R3.
  split; [rewrite <- (with_size_id b); exact R3|]. split; [|done].
  rewrite <- (with_size_id b). by apply (inv_size _ _ (size_ b)) in I.
Qed.

Lemma printf_loop_spec m b l d fuel :
  mem_wf m → mbuf_rep m b l → inv m b → Z.of_nat (length d) <= INT_MAX →
  (∀ m1, refuses m1 b (capacity_ b + Z.of_nat (length d) + 1) → 0 < capacity_ b) →
  wp (MutableBuffer.printf_loop (S (S fuel)) b (Some d))
    (λ b' m', mem_wf m' ∧ inv m' b' ∧ moves b b' m m'
       ∧ (mbuf_rep m' b' (l ++ d) ∧ size_ b' < capacity_ b'
          ∨ b' = b ∧ mbuf_rep m' b' (clobbered b l)
            ∧ capacity_ b - size_ b <= Z.of_nat (length d)
            ∧ ∃ m1, refuses m1 b (capacity_ b + Z.of_nat (length d) + 1))) m.
Proof.
  intros Hwf Hrep Hinv Hd Hpos. pose proof (rep_capacity _ _ _ Hwf Hrep) as [Hsz Hcap].
  destruct (Z.lt_ge_cases (Z.of_nat (length d)) (capacity_ b - size_ b)) as [Hfit|Hno].
  { eapply wp_mono; [by apply printf_loop_fits|]. intros b' m' (?&?&?&?). eauto 10. }
  rewrite printf_loop_S.
  cbv zeta. destruct (room_eq m b l) as [-> ->]; [done..|]. wp_step.
  wp_apply (snprintf_spec m b l d); [done|done|done|zlia|].
  intros n m1 (-> & W & R & I & T & _). replace (_ && _) with false by lia.
  replace (-1 <? Z.of_nat (length d)) with true by lia. cbv iota.
  rewrite u64_small by zlia. rewrite Z.add_assoc. unfold MutableBuffer.reserve. wp_step.
  wp_apply (ensure_ok m1 b l); [done..|zlia|].
  intros [ok b2] m2 (W2 & R2 & I2 & M2 & Hok). simpl in Hok, R2, I2, M2.
  assert (M12 : moves b b2 m m2) by (eapply moves_trans; [split; [exact T|by left]|exact M2]).
  pose proof (rep_size _ _ _ R2). pose proof (rep_size _ _ _ R).
  destruct ok; cbn [negb].
  - eapply wp_mono; [apply (printf_loop_fits m2 b2 l); [done..|lia]|].
    intros b' m' (W3 & R3 & I3 & M3). split; [done|]. split; [done|].
    split; [by eapply moves_trans|by left].
  - destruct Hok as [-> Href]. wp_step.
    wp_apply (wp_clobber m2 b l); [done..|by eapply Hpos|].
    intros [] m3 (W3 & R3 & I3 & T3). wp_step. split; [done|]. split; [done|].
    split; [eapply moves_trans; [exact M12|split; [exact T3|by left]]|]. right. eauto.
Qed.

(** The format error: [-1] passes for a length. *)
Lemma printf_error_spec m b l fmtlen :
  mem_wf m → mbuf_rep m b l → inv m b → 0 <= fmtlen <= ADDR_SPACE →
  wp (MutableBuffer.printf b fmtlen None)
    (λ b' m', mem_wf m' ∧ inv m' b' ∧ moves b b' m m'
       ∧ mbuf_rep m' b' (take (pred (length l)) l)) m.
Proof.
  intros Hwf Hrep Hinv Hf. pose proof (rep_capacity _ _ _ Hwf Hrep) as [Hsz Hcap].
  unfold MutableBuffer.printf, MutableBuffer.reserve.
  rewrite (u64_small (size_ b + fmtlen)), u64_small by zlia. wp_step.
  wp_apply (ensure_ok m b l); [done..|zlia|]. intros [ok b1] m1 (W & R & I & M & _).
  simpl in R, I, M. pose proof (rep_size _ _ _ R) as Hs1.
  pose proof (rep_capacity _ _ _ W R) as [Hsz1 Hcap1].
  rewrite printf_loop_S. cbv zeta. cbn [MutableBuffer.snprintf].
  destruct (room_eq m1 b1 l) as [-> ->]; [done..|]. wp_step. wp_step.
  replace (_ && _) with true by lia. wp_step. split; [done|].
  unfold MutableBuffer.resize. destruct (Z.ltb_spec (capacity_ b1) (u64 (size_ b1 + -1))) as [Hlt|Hge].
  - split; [done|]. split; [done|]. simpl. assert (size_ b1 = 0) as H0.
    { destruct (Z.eq_dec (size_ b1) 0); [done|]. rewrite u64_small in Hlt by zlia. lia. }
    destruct l; [done|simpl in *; lia].
  - split; [by apply inv_size|]. split; [eapply moves_trans; [done|apply moves_size]|].
    assert (size_ b1 ≠ 0).
    { intros H0. rewrite H0 in Hge. change (u64 (0 + -1)) with (2 ^ 64 - 1) in Hge. zlia. }
    rewrite u64_small in * by zlia. simpl.
    replace (pred (length l)) with (Z.to_nat (size_ b1 + -1)) by lia.
    apply rep_resize; [done|lia].
Qed.

Lemma printf_spec m b l d fmtlen :
  mem_wf m → mbuf_rep m b l → inv m b → 0 <= fmtlen <= ADDR_SPACE →
  Z.of_nat (length d) <= INT_MAX →
  0 < capacity_ b ∨ ¬ refuses m b (size_ b + fmtlen + 1) →
  wp (MutableBuffer.printf b fmtlen (Some d))
    (λ b' m', mem_wf m' ∧ inv m' b' ∧ moves b b' m m'
       ∧ (mbuf_rep m' b' (l ++ d) ∧ size_ b' < capacity_ b'
          ∨ mbuf_rep m' b' (clobbered b' l)
            ∧ capacity_ b' - size_ b' <= Z.of_nat (length d)
            ∧ ∃ m1, refuses m1 b' (capacity_ b' + Z.of_nat (length d) + 1))) m.
Proof.
  intros Hwf Hrep Hinv Hf Hd Hpos. pose proof (rep_capacity _ _ _ Hwf Hrep) as [Hsz Hcap].
  unfold MutableBuffer.printf, MutableBuffer.reserve.
  rewrite (u64_small (size_ b + fmtlen)), u64_small by zlia. wp_step.
  wp_apply (ensure_ok m b l); [done..|zlia|]. intros [ok b1] m1 (W & R & I & M & Hok).
  simpl in R, I, M, Hok. eapply wp_mono.
  - apply (printf_loop_spec m1 b1 l d 2); [done..|]. intros _ _.
    destruct ok; [lia|]. destruct Hok as [-> ?]. by destruct Hpos.
  - intros b' m' (W2 & I2 & M2 & Hor). split; [done|]. split; [done|].
    split; [by eapply moves_trans|]. destruct Hor as [?|(-> & ? & ? & ?)]; eauto.
Qed.
End printf.

(** C26: [printf] on a managed buffer (that has storage, or gets it for the
    format's length) terminates and appends exactly the formatted output,
    of up to INT_MAX bytes; only when there is no memory for it are the contents
    kept instead, save that the last byte of a full buffer is overwritten. *)
Theorem printf_appends `{Allocator} m b l d fmtlen :
  mem_wf m → mbuf_rep m b l → owned m b → 0 <= fmtlen <= ADDR_SPACE →
  Z.of_nat (length d) <= INT_MAX →
  0 < capacity_ b ∨ ¬ out_of_memory m b (size_ b + fmtlen + 1) →
  wp (MutableBuffer.printf (E := mutableEnsure) b fmtlen (Some d))
    (λ b' m', mem_wf m' ∧ owned m' b' ∧ moves b b' m m'
       ∧ (mbuf_rep m' b' (l ++ d)
          ∨ mbuf_rep m' b' (clobbered b' l)
            ∧ ∃ m1, out_of_memory m1 b' (capacity_ b' + Z.of_nat (length d) + 1))) m.
Proof.
  intros Hwf Hrep Hown Hf Hd Hpos. eapply wp_mono.
  - apply (printf_spec (E := mutableEnsure) (inv := owned)); done.
  - intros b' m' (? & ? & ? & Hor). split; [done|]. split; [done|]. split; [done|].
    destruct Hor as [[? _]|(? & _ & ?)]; auto.
Qed.

(** [printf] on a fixed buffer appends the output when it fits with its
    terminator; otherwise the size stays, and a full buffer loses its last
    byte to the terminator. *)
Theorem printf_fixed_truncates m b l d fmtlen :
  mem_wf m → mbuf_rep m b l → 0 < capacity_ b → 0 <= fmtlen <= ADDR_SPACE →
  Z.of_nat (length d) <= INT_MAX →
  wp (MutableBuffer.printf (E := immutableEnsure) b fmtlen (Some d))
    (λ b' m', data_ b' = data_ b ∧ capacity_ b' = capacity_ b
       ∧ only_touches (pblk (data_ b)) m m'
       ∧ mbuf_rep m' b'
           (if Z.of_nat (length d) <? capacity_ b - size_ b then l ++ d else clobbered b l)) m.
Proof.
  intros Hwf Hrep Hc Hf Hd. pose proof (rep_size _ _ _ Hrep) as Hs.
  pose proof (rep_capacity _ _ _ Hwf Hrep) as [Hsz Hcap].
  unfold MutableBuffer.printf, MutableBuffer.reserve, ensure, immutableEnsure. wp_step. wp_step.
  destruct (Z.ltb_spec (Z.of_nat (length d)) (capacity_ b - size_ b)) as [Hfit|Hno].
  - eapply wp_mono.
    + apply (printf_loop_fits (E := immutableEnsure)
        (EnsureSpec0 := fixed_ensure_spec (data_ b) (capacity_ b))) with (l := l); done.
    + by intros b' m' (_ & [? _] & [? ?] & [? _]).
  - eapply wp_mono.
    + apply (printf_loop_spec (E := immutableEnsure)
        (EnsureSpec0 := fixed_ensure_spec (data_ b) (capacity_ b))) with (l := l); done.
    + intros b' m' (_ & [? ?] & [? _] & Hor). split; [done|]. split; [done|]. split; [done|].
      destruct Hor as [[R Hlt]|(-> & R & _)]; [|done].
      apply rep_size in R. rewrite length_app in R. lia.
Qed.

(** A formatting error ([snprintf] returns -1) is taken for a length, and
    [printf] removes the last byte of the contents. *)
Theorem printf_error_drops_byte `{Allocator} m b l fmtlen :
  mem_wf m → mbuf_rep m b l → owned m b → 0 <= fmtlen <= ADDR_SPACE →
  wp (MutableBuffer.printf (E := mutableEnsure) b fmtlen None)
    (λ b' m', owned m' b' ∧ mbuf_rep m' b' (take (pred (length l)) l)) m.
Proof.
  intros Hwf Hrep Hown Hf. eapply wp_mono.
  - by apply (printf_error_spec (E := mutableEnsure) (inv := owned)) with (l := l).
  - by intros b' m' (_ & ? & _ & ?).
Qed.

(** [printf] on an empty buffer without memory stores the terminator at
    index [capacity_ - 1], i.e. before the null pointer. *)
Theorem printf_no_memory_ub `{Allocator} m fmtlen d :
  mem_wf m → 0 <= fmtlen <= ADDR_SPACE → Z.of_nat (length d) <= INT_MAX →
  (∀ m' n, fresh_bytes m' n = None) →
  MutableBuffer.printf (E := mutableEnsure) MutableBuffer.new fmtlen (Some d) m = UB.
Proof.
  intros Hwf Hf Hd Hnone.
  assert (Hens : ∀ m n, 0 < n <= 4 * ADDR_SPACE →
    mutableEnsure MutableBuffer.new n m = Ok ((false, MutableBuffer.new), tick m)).
  { intros m1 n Hn. unfold mutableEnsure. simpl. replace ((0 <? n) || _) with true by lia.
    unfold setCapacity. simpl. replace (n =? 0) with false by lia.
    replace (0 <? n) with true by lia. cbv zeta. simpl. unfold setCapacity_realloc.
    erewrite bind_Ok by (unfold realloc, malloc; simpl; by rewrite Hnone).
    simpl. by replace (n =? 0) with false by lia. }
  unfold MutableBuffer.printf, MutableBuffer.reserve, ensure. simpl size_.
  rewrite (u64_small (0 + fmtlen)), u64_small by zlia.
  erewrite bind_Ok by (apply Hens; zlia). cbv beta iota. rewrite printf_loop_S.
  cbv zeta. erewrite bind_Ok by done. replace (INT_MAX <? Z.of_nat (length d)) with false by lia.
  change (s64 _) with 0 at 1. change (capacity_ MutableBuffer.new) with 0.
  replace (Z.of_nat (length d) <? 0) with false by lia. rewrite andb_false_r.
  replace (-1 <? Z.of_nat (length d)) with true by lia.
  rewrite u64_small by zlia. erewrite bind_Ok by (apply Hens; zlia). cbn [negb].
  apply bind_UB. unfold write_range, storebytes. simpl. by rewrite (wf_null _ Hwf).
Qed.

(** ** After [reserve(0)]

    [reserve(0)] frees the storage of a managed buffer and keeps [data_] and
    [size_].  What can be done with such a buffer is part of the specification:
    it can be cleared, cut and reserved for nothing; every operation that needs
    room is undefined. *)
Section released.
Context `{Allocator}.
Implicit Types (m : memory) (b : MutableBuffer) (l d : bytes) (o : buf_op).

#[export] Instance buf_op_eq_dec : EqDecision buf_op.
Proof. solve_decision. Defined.

(** Any operation, [reserve(0)] included. *)
Definition op_any o : Prop := o = Reserve 0 ∨ op_ok o.

(** The operation needs room in a buffer of size [n] without storage. *)
Definition needs_room (n : Z) o : Prop :=
  match o with
  | PushBytes d => d ≠ []
  | PushChar _ | PushSigned _ => True
  | PushSelf => n ≠ 0
  | Reserve k => k ≠ 0
  | Clear | Resize _ => False
  end.

(** The size after an operation that does not. *)
Definition size_after (n : Z) o : Z :=
  match o with Clear => 0 | Resize k => if k =? 0 then 0 else n | _ => n end.

(** A buffer as its user sees it: its contents, or the size that is left of
    them when the storage is gone. *)
Inductive buf_state : Type := Contents (l : bytes) | Released (n : Z).

Inductive life_op : buf_op → buf_state → buf_state → Prop :=
| life_spec o l l' : o ≠ Reserve 0 → spec_op no_memory o l l' → life_op o (Contents l) (Contents l')
| life_nothing : life_op (Reserve 0) (Contents []) (Contents [])
| life_release l : life_op (Reserve 0) (Contents l) (Released (Z.of_nat (length l)))
| life_released o n : ¬ needs_room n o → life_op o (Released n) (Released (size_after n o)).

Inductive life_ops : list buf_op → buf_state → buf_state → Prop :=
| life_nil x : life_ops [] x x
| life_cons o os x y z : life_op o x y → life_ops os y z → life_ops (o :: os) x z.

(** The buffer in memory. *)
Definition released m b : Prop :=
  data_ b ≠ nullp ∧ poff (data_ b) = 0 ∧ blocks m !! pblk (data_ b) = None ∧ capacity_ b = 0
  ∧ 0 <= size_ b <= ADDR_SPACE.

Definition buf_inv m b (x : buf_state) : Prop :=
  match x with
  | Contents l => mem_wf m ∧ mbuf_rep m b l ∧ owned m b
  | Released n => released m b ∧ size_ b = n
  end.

(** An operation returns as [x] says, or is undefined under [U]. *)
Definition ends (r : outcome (MutableBuffer * memory)) (Q : MutableBuffer → memory → Prop) (U : Prop) : Prop :=
  match r with Ok (b', m') => Q b' m' | UB => U | _ => False end.

Lemma ends_wp (p : MM MutableBuffer) Q U m : wp p Q m → ends (p m) Q U.
Proof. unfold wp, ends. by destruct (p m) as [[??]| | |]. Qed.

Lemma released_grow_ub m b n :
  released m b → 0 < n <= 4 * ADDR_SPACE → mutableEnsure b n m = UB.
Proof.
  intros (Hd & Ho & Hb & Hc & _) Hn. unfold mutableEnsure, setCapacity. rewrite Hc.
  replace (0 <? n) with true by lia. cbn [orb]. replace (n =? 0) with false by lia. cbn [andb].
  cbv zeta. change (0 =? 0) with true. cbn [negb]. unfold setCapacity_realloc. apply bind_UB.
  unfold realloc, ptr_eqb. rewrite bool_decide_eq_false_2 by done. by rewrite Ho, Hb.
Qed.

Lemma released_append_ub m b n f :
  released m b → 0 < n <= ADDR_SPACE → MutableBuffer.append_with (E := mutableEnsure) b n f m = UB.
Proof.
  intros Hr Hn. pose proof Hr as (_ & _ & _ & _ & Hs). unfold MutableBuffer.append_with, MutableBuffer.reserve.
  apply bind_UB. rewrite u64_small by zlia. apply released_grow_ub; [done|zlia].
Qed.

Lemma released_step m b n o :
  released m b → size_ b = n → op_any o →
  ends (run_op (E := mutableEnsure) o b m)
    (λ b' m', ¬ needs_room n o ∧ m' = m ∧ data_ b' = data_ b ∧ released m b' ∧ size_ b' = size_after n o)
    (needs_room n o).
Proof.
  intros Hr <- Ho. pose proof Hr as (Hd & Hoff & Hb & Hc & Hs).
  assert (Hsz : ∀ k, 0 <= k <= ADDR_SPACE → released m (with_size b k)) by (intros; unfold released; simpl; split_and!; done || lia).
  destruct o as [d|c|z| | |k|k]; simpl in *.
  - unfold MutableBuffer.push_back_local. destruct d as [|x d].
    { simpl. by split_and!; [intros []|..]. }
    replace (_ =? 0) with false by (simpl; lia). cbn [negb].
    rewrite released_append_ub; [done|done|]. destruct Ho as [|Ho]; [done|]. simpl in *. zlia.
  - unfold MutableBuffer.push_back_char. by rewrite released_append_ub.
  - destruct Ho as [|Ho]; [done|]. simpl in Ho. pose proof (length_fmt_d z ltac:(lia)).
    unfold MutableBuffer.push_back_signed, MutableBuffer.push_back_local.
    replace (_ =? 0) with false by lia. cbn [negb]. rewrite released_append_ub; [done|done|zlia].
  - unfold MutableBuffer.push_back_ref. simpl. destruct (Z.eqb_spec (size_ b) 0) as [E|E]; cbn [negb].
    + simpl. split_and!; try done. by intros [].
    + by rewrite released_append_ub; [|done|lia].
  - split_and!; [tauto|done|done|apply Hsz; zlia|done].
  - assert (0 <= k) as Hk by (by destruct Ho). unfold MutableBuffer.resize. rewrite Hc.
    destruct (Z.ltb_spec 0 k), (Z.eqb_spec k 0); try lia; simpl; split_and!; try tauto; subst; apply Hsz; zlia.
  - destruct (Z.eq_dec k 0) as [->|Hk].
    + unfold MutableBuffer.reserve, ensure, mutableEnsure, setCapacity, mbind, ST_bind. rewrite Hc. simpl. split_and!; try done. by intros [].
    + destruct Ho as [[= ->]|Ho]; [done|]. unfold MutableBuffer.reserve. simpl in Ho.
      erewrite bind_UB; [done|]. by apply released_grow_ub.
Qed.

(** The first [reserve(0)]. *)
Lemma reserve_zero_step m b l :
  mem_wf m → mbuf_rep m b l → owned m b →
  wp (run_op (E := mutableEnsure) (Reserve 0) b)
    (λ b' m', moves b b' m m' ∧ ∃ y, life_op (Reserve 0) (Contents l) y ∧ buf_inv m' b' y) m.
Proof.
  intros Hwf Hrep Hown. pose proof (rep_capacity _ _ _ Hwf Hrep) as [Hsz Hcap].
  pose proof (rep_size _ _ _ Hrep) as Hs. simpl. wp_step.
  unfold MutableBuffer.reserve, ensure, mutableEnsure. replace (_ || (0 =? 0)) with true by lia.
  destruct (Z.eq_dec (capacity_ b) 0) as [Hc|Hc].
  - assert (l = []) as -> by (destruct l; [done|simpl in *; lia]). unfold setCapacity. rewrite Hc. simpl.
    wp_step. wp_step. split; [apply moves_refl|]. exists (Contents []). split; [apply life_nothing|by split_and!].
  - destruct (setCapacity_zero_spec m b l 1) as (m' & E & Hn & _); [done|done|done|lia|zlia|].
    eapply wp_Ok; [exact E|]. cbn beta iota. wp_step. cbn [fst snd].
    destruct (owned_block m b l) as (r & Hblk & Hptr & Hne & _); [done|done|done|lia|].
    pose proof (reserve_zero m b l Hwf Hrep Hown) as W.
    unfold MutableBuffer.reserve, ensure, mutableEnsure, wp in W.
    replace (_ || (0 =? 0)) with true in W by lia. rewrite E in W. destruct W as (_ & _ & Ht & _).
    split.
    + split; [exact Ht|by left].
    + exists (Released (Z.of_nat (length l))). split; [apply life_release|]. simpl. split; [|lia].
      unfold released. simpl. rewrite Hptr in Hn |- *. split_and!; try done; [by intros [= ?]|lia|zlia].
Qed.

Lemma life_step m b x o :
  buf_inv m b x → op_any o →
  ends (run_op (E := mutableEnsure) o b m)
    (λ b' m', moves b b' m m' ∧ ∃ y, life_op o x y ∧ buf_inv m' b' y)
    (∃ n, x = Released n ∧ needs_room n o).
Proof.
  intros Hi Ho. destruct x as [l|n].
  - destruct Hi as (Hwf & Hrep & Hown). apply ends_wp. destruct (decide (o = Reserve 0)) as [->|Hne].
    { by apply reserve_zero_step. }
    destruct Ho as [|Ho]; [done|]. eapply wp_mono.
    { apply (run_op_refines (E := mutableEnsure) (inv := owned) no_memory); [done|apply oom_no_memory|by split|done]. }
    intros b' m' (M & l' & S & G). split; [done|]. exists (Contents l'). split; [by constructor|done].
  - destruct Hi as [Hr Hs]. pose proof (released_step m b n o Hr Hs Ho) as Hst.
    unfold ends in *. destruct (run_op o b m) as [[b' m']| | |]; try done; [|eauto].
    destruct Hst as (Hn & -> & Hd & Hr' & Hs'). split; [split; [apply only_touches_refl|left; by rewrite Hd]|].
    exists (Released (size_after n o)). split; [by constructor|done].
Qed.

Lemma run_ops_life os : ∀ m b x,
  buf_inv m b x → Forall op_any os →
  ends (run_ops (E := mutableEnsure) os b m)
    (λ b' m', moves b b' m m' ∧ ∃ y, life_ops os x y ∧ buf_inv m' b' y)
    (∃ os1 o os2 n, os = os1 ++ o :: os2 ∧ life_ops os1 x (Released n) ∧ needs_room n o).
Proof.
  induction os as [|o os IH]; intros m b x Hi Hok.
  { split; [apply moves_refl|]. exists x. split; [constructor|done]. }
  apply Forall_cons_1 in Hok as [Ho Hos]. pose proof (life_step m b x o Hi Ho) as Hs.
  cbn [run_ops]. unfold mbind, ST_bind. unfold ends in Hs.
  destruct (run_op o b m) as [[b1 m1]| | |]; try done.
  - destruct Hs as (M1 & y & Hy & Hi1). specialize (IH m1 b1 y Hi1 Hos). unfold ends in *.
    destruct (run_ops os b1 m1) as [[b2 m2]| | |]; try done.
    + destruct IH as (M2 & z & Hz & Hi2). split; [by eapply moves_trans|]. exists z. split; [by econstructor|done].
    + destruct IH as (os1 & o' & os2 & n & -> & Hl & Hn). exists (o :: os1), o', os2, n.
      split; [done|]. split; [by econstructor|done].
  - destruct Hs as (n & -> & Hn). exists [], o, os, n. split; [done|]. split; [constructor|done].
Qed.

(** C1: every sequence of appends, clears, resizes and reservations on a
    [Buffer], those of [reserve(0)] included.  Without [reserve(0)] no operation
    has undefined behaviour or fails to return, what was appended is there in
    order, an append is dropped as a whole and only for want of memory, the
    buffer still owns its block, and memory outside of the buffer is untouched.
    A [reserve(0)] that finds storage gives it back and keeps the size; from
    then on the buffer can be cleared, cut and reserved for nothing, and the
    first operation that needs room is undefined, which is the only undefined
    behaviour there is. *)
Theorem buffer_ops_refine os m b l :
  mem_wf m → mbuf_rep m b l → owned m b → Forall op_any os →
  ends (run_ops (E := mutableEnsure) os b m)
    (λ b' m', moves b b' m m' ∧ ∃ y, life_ops os (Contents l) y ∧ buf_inv m' b' y)
    (∃ os1 o os2 n, os = os1 ++ o :: os2 ∧ life_ops os1 (Contents l) (Released n) ∧ needs_room n o)
  ∧ (Reserve 0 ∉ os → wp (run_ops (E := mutableEnsure) os b)
       (λ b' m', moves b b' m m' ∧ ∃ l', spec_ops no_memory os l l'
                 ∧ mem_wf m' ∧ mbuf_rep m' b' l' ∧ owned m' b') m).
Proof.
  intros Hwf Hrep Hown Hok. split; [by apply run_ops_life; [split_and!|]|]. intros Hno.
  apply (run_ops_refines (E := mutableEnsure) (inv := owned) no_memory);
    [done|intros m1 b1 n; apply oom_no_memory|by split_and!|].
  apply Forall_forall. intros o Ho. rewrite Forall_forall in Hok.
  destruct (Hok o Ho) as [->|]; [by destruct Hno|done].
Qed.
End released.

(** ** vprintf *)
Section vprintf.
Context `{Allocator}.
Implicit Types (m : memory) (b : MutableBuffer) (out : option bytes).

Lemma setCapacity_bounds b value m ok b' m' :
  0 <= capacity_ b < value → value <= 4 * ADDR_SPACE → setCapacity b value m = Ok ((ok, b'), m') →
  size_ b' = size_ b ∧ capacity_ b <= capacity_ b' < value + CHUNK_SIZE.
Proof.
  intros Hc Hv. rewrite setCapacity_grow_eq by done.
  destruct (grown_spec (capacity_ b) value) as [Hg _]; [lia|].
  unfold setCapacity_realloc. intros (rp & m1 & _ & E)%bind_elim.
  destruct (negb _); [|destruct (_ =? 0)]; injection E as <- <- <-; simpl; unfold CHUNK_SIZE in *; lia.
Qed.

Lemma ensure_bounds b value m ok b' m' :
  0 <= capacity_ b → 0 < value <= 4 * ADDR_SPACE → mutableEnsure b value m = Ok ((ok, b'), m') →
  size_ b' = size_ b ∧ capacity_ b <= capacity_ b' <= Z.max (capacity_ b) (value + CHUNK_SIZE).
Proof.
  intros Hc Hv. unfold mutableEnsure. destruct (Z.ltb_spec (capacity_ b) value) as [Hlt|Hge]; cbn [orb].
  - intros E. destruct (setCapacity_bounds _ _ _ _ _ _ (conj Hc Hlt) (proj2 Hv) E). lia.
  - replace (value =? 0) with false by lia. intros [= <- <- <-]. lia.
Qed.

(** What [snprintf] returns. *)
Lemma snprintf_range dst n out m r m' :
  MutableBuffer.snprintf dst n out m = Ok (r, m') → -1 <= r <= INT_MAX.
Proof.
  unfold MutableBuffer.snprintf. destruct out as [d|]; [|intros [= <- <-]; unfold INT_MAX; lia].
  intros ([] & m1 & _ & [= <- <-])%bind_elim. unfold INT_MAX. destruct (Z.ltb_spec (2 ^ 31 - 1) (Z.of_nat (length d))); lia.
Qed.

(** The room that a round may ask for. *)
Definition ROUND : Z := INT_MAX + 1 + CHUNK_SIZE.

Lemma vprintf_loop_eq out fuel : ∀ b m,
  0 <= size_ b <= capacity_ b → capacity_ b + Z.of_nat fuel * ROUND <= 4 * ADDR_SPACE →
  Buffer.vprintf_loop fuel b out m = MutableBuffer.printf_loop (E := mutableEnsure) fuel b out m.
Proof.
  induction fuel as [|fuel IH]; intros b m Hs Hc; [done|].
  assert (0 <= Z.of_nat fuel * ROUND) by (unfold ROUND, INT_MAX, CHUNK_SIZE; lia).
  assert (capacity_ b + ROUND + Z.of_nat fuel * ROUND <= 4 * ADDR_SPACE) by lia. clear Hc.
  assert (ROUND = 2 ^ 31 + 4096) as HR by done.
  cbn [Buffer.vprintf_loop MutableBuffer.printf_loop]. cbv zeta.
  rewrite (u64_small (capacity_ b - size_ b)), s64_small by zlia.
  apply bind_ext; [done|]. intros n m1 Hn%snprintf_range.
  destruct ((-1 <=? n) && (n <? capacity_ b - size_ b)) eqn:E; [done|].
  assert (capacity_ b - size_ b <= n) by lia. replace (-1 <? n) with true by lia.
  assert (capacity_ b + (n + 1) <= 4 * ADDR_SPACE) by zlia.
  rewrite u64_small by zlia. apply bind_ext.
  - unfold MutableBuffer.reserve, ensure, mutableEnsure. by replace (capacity_ b <? _) with true by lia.
  - intros [ok b1] m2 E1. apply setCapacity_bounds in E1 as [Hs1 Hc1]; [|lia|done].
    destruct ok; cbn [negb]; [|done]. apply IH; [lia|]. unfold CHUNK_SIZE in *. zlia.
Qed.

(** [vprintf] on a managed buffer does what [printf] does. *)
Theorem vprintf_is_printf b fmtlen out m :
  0 <= size_ b <= capacity_ b → capacity_ b <= ADDR_SPACE → 0 <= fmtlen <= ADDR_SPACE →
  Buffer.vprintf b fmtlen out m = MutableBuffer.printf (E := mutableEnsure) b fmtlen out m.
Proof.
  intros Hs Hc Hf. unfold Buffer.vprintf, MutableBuffer.printf. apply bind_ext; [done|].
  rewrite (u64_small (size_ b + fmtlen)), u64_small by zlia.
  intros [ok b1] m1 E. apply ensure_bounds in E as [Hs1 Hc1]; [|lia|zlia].
  apply vprintf_loop_eq; [lia|]. unfold ROUND, CHUNK_SIZE in *. zlia.
Qed.
End vprintf.

(** A caller's array that is written from its start. *)
Lemma wp_write_array m buf old d (Q : () → memory → Prop) :
  mem_wf m → mem_at m buf old → (length d <= length old)%nat →
  (∀ m' rest, mem_wf m' → only_touches (pblk buf) m m' → mem_at m' buf (d ++ rest) →
     length (d ++ rest) = length old → Q () m') →
  wp (write_range buf d) Q m.
Proof.
  intros Hwf Hm Hlen HQ. destruct (decide (d = [])) as [->|Hd].
  { eapply wp_Ok; [done|]. apply (HQ _ old); [done|apply only_touches_refl|done|done]. }
  pose proof (wp_write_behind (E := immutableEnsure)
    (EnsureSpec0 := fixed_ensure_spec buf (Z.of_nat (length old)))
    m (mkMB (mkRef buf 0) (Z.of_nat (length old))) [] d Q) as Hw.
  simpl in Hw. rewrite ptr_add_0 in Hw. apply Hw; try done; [|lia|].
  - split; [done|]. exists old. done.
  - intros m' W _ _ T [_ (rest & R & L)]. simpl in R, L. apply (HQ _ rest); [done..|lia].
Qed.
