(* ===== verification/BufferInsert.v ===== *)
(** * BufferInsert: inserting values into a buffer (include/xio/Buffer.h)

    The overloads of [operator<<], the [printf] without arguments, and the
    comparison operators that only forward.  A chain of insertions appends the
    texts of the values, for every kind of buffer. *)

From S2P Require Import Prelude Memory BufferBase BufferParse MutableBuffer BufferSpec.

Local Open Scope Z_scope.

Module BufferInsert.
Section ops.
Context {E : Ensure}.
Import MutableBuffer.

(** [operator<<(b, v)], by the type of [v]. *)
Definition insert_char (b : MutableBuffer) (v : byte) : MM MutableBuffer := push_back_char b v.
Definition insert_int (b : MutableBuffer) (v : Z) : MM MutableBuffer := push_back_signed b v.
Definition insert_long (b : MutableBuffer) (v : Z) : MM MutableBuffer := push_back_signed b v.
Definition insert_longlong (b : MutableBuffer) (v : Z) : MM MutableBuffer := push_back_signed b v.
Definition insert_unsigned (b : MutableBuffer) (v : Z) : MM MutableBuffer := push_back_unsigned b v.
Definition insert_ulong (b : MutableBuffer) (v : Z) : MM MutableBuffer := push_back_unsigned b v.
Definition insert_ulonglong (b : MutableBuffer) (v : Z) : MM MutableBuffer := push_back_unsigned b v.
Definition insert_buffer (b : MutableBuffer) (v : source) : MM MutableBuffer := push_back_ref b v.
Definition insert_ref (b : MutableBuffer) (v : BufferRef) : MM MutableBuffer :=
  push_back_ref b (Other v).
Definition insert_string (b : MutableBuffer) (v : BufferRef) : MM MutableBuffer :=
  push_back_string b v.
Definition insert_array (b : MutableBuffer) (v : ptr) (N : Z) : MM MutableBuffer :=
  push_back_array b v N.

(** [push_back(const char* )] is the overload for [std::string]. *)
Definition push_back_cstr (b : MutableBuffer) (v : ptr) : MM MutableBuffer :=
  n ← strlen v; push_back_string b (mkRef v n).
Definition insert_cstr (b : MutableBuffer) (v : ptr) : MM MutableBuffer := push_back_cstr b v.

(** [printf(fmt)]: the text is not formatted. *)
Definition printf_plain (b : MutableBuffer) (fmt : ptr) : MM MutableBuffer := push_back_cstr b fmt.

(** [operator!] *)
Definition is_empty (b : MutableBuffer) : bool := BufferBase.empty (base b).

(** [MutableBuffer(MutableBuffer&& v)]: the new object and the source, which
    keeps its pointer. *)
Definition new_move (v : MutableBuffer) : MutableBuffer * MutableBuffer :=
  (mkMB (mkRef (data_ v) (size_ v)) (capacity_ v), v).
End ops.

(** [BufferRef::operator=] *)
Definition ref_assign (a v : BufferRef) : BufferRef := mkRef (data_ v) (size_ v).

(** [equals] and [iequals] on two strings *)
Definition equals_strings (a b : BufferRef) : MM bool :=
  if negb (size_ a =? size_ b) then mret false
  else r ← memcmp (data_ a) (data_ b) (size_ b); mret (r =? 0).
Definition iequals_strings (a b : BufferRef) : MM bool :=
  if negb (size_ a =? size_ b) then mret false
  else r ← strncasecmp (data_ a) (data_ b) (size_ b); mret (r =? 0).

(** [operator==] and [operator!=]; [same] says that both are one object. *)
Definition eq_buffers (same : bool) (a b : BufferRef) : MM bool := BufferBase.equals same a b.
Definition eq_string (a b : BufferRef) : MM bool := BufferBase.equals_string a b.
Definition eq_array (a : BufferRef) (b : ptr) (N : Z) : MM bool := BufferBase.equals_array a b N.
Definition array_eq (a : ptr) (N : Z) (b : BufferRef) : MM bool := BufferBase.equals_array b a N.
Definition ne_buffers (same : bool) (a b : BufferRef) : MM bool := negb <$> eq_buffers same a b.
Definition ne_string (a b : BufferRef) : MM bool := negb <$> eq_string a b.
Definition ne_array (a : BufferRef) (b : ptr) (N : Z) : MM bool := negb <$> eq_array a b N.
Definition array_ne (a : ptr) (N : Z) (b : BufferRef) : MM bool := negb <$> array_eq a N b.
End BufferInsert.

(** ** Chains of insertions *)

(** What can be inserted. *)
Inductive value : Type :=
| VChar (c : byte)
| VSigned (z : Z)             (* int, long, long long *)
| VUnsigned (z : Z)           (* unsigned, unsigned long, unsigned long long *)
| VSelf                       (* the buffer itself *)
| VRef (r : BufferRef)        (* a BufferRef or another buffer *)
| VString (s : BufferRef)     (* a std::string *)
| VArray (p : ptr) (N : Z)    (* a string literal *)
| VCstr (p : ptr).            (* a pointer to characters *)

Section insert.
Context {E : Ensure} {inv : memory → MutableBuffer → Prop}
  {refuses : memory → MutableBuffer → Z → Prop} `{!EnsureSpec E inv refuses}.
Import BufferInsert.
Implicit Types (m : memory) (b : MutableBuffer) (l d : bytes) (v : value).

Definition insert b v : MM MutableBuffer :=
  match v with
  | VChar c => insert_char b c
  | VSigned z => insert_int b z
  | VUnsigned z => insert_unsigned b z
  | VSelf => insert_buffer b MutableBuffer.This
  | VRef r => insert_ref b r
  | VString s => insert_string b s
  | VArray p N => insert_array b p N
  | VCstr p => insert_cstr b p
  end.

(** [b << v1 << v2 << ...] *)
Fixpoint insert_all b (vs : list value) : MM MutableBuffer :=
  match vs with [] => mret b | v :: vs => insert b v ≫= λ b : MutableBuffer, insert_all b vs end.

(** What a value points to: not in the block [blk], the buffer's. *)
Definition elsewhere m (blk : nat) (p : ptr) : Prop := (pblk p < next m)%nat ∧ pblk p ≠ blk.

(** The text of a value; [None] stands for the buffer's own contents. *)
Definition text m (blk : nat) v (od : option bytes) : Prop :=
  match v, od with
  | VSelf, None => True
  | VChar c, Some d => d = [c]
  | VSigned z, Some d => - 2 ^ 63 <= z < 2 ^ 63 ∧ d = fmt_d z
  | VUnsigned z, Some d => 0 <= z < 2 ^ 64 ∧ d = fmt_u z
  | VRef r, Some d | VString r, Some d => view m r d ∧ elsewhere m blk (data_ r)
  | VArray p N, Some d => mem_at m p d ∧ N = Z.of_nat (length d) + 1 ∧ elsewhere m blk p
  | VCstr p, Some d => cstring m p d ∧ elsewhere m blk p
  | _, _ => False
  end.

(** The contents after inserting texts one after the other: each is appended,
    or left out when the kind of buffer refuses the length. *)
Inductive inserted (refused : Z → Prop) : bytes → list (option bytes) → bytes → Prop :=
| inserted_nil l : inserted refused l [] l
| inserted_cons l od ds l' :
    inserted refused (l ++ default l od) ds l' → inserted refused l (od :: ds) l'
| inserted_skip l od ds l' :
    refused (Z.of_nat (length (l ++ default l od))) → inserted refused l ds l' →
    inserted refused l (od :: ds) l'.

Lemma text_length m blk v d :
  mem_wf m → text m blk v (Some d) → Z.of_nat (length d) <= ADDR_SPACE.
Proof.
  intros Hwf. destruct v; simpl; try (intros [[H _] _]; by eapply mem_at_length).
  - intros ->. done.
  - intros [Hz ->]. pose proof (length_fmt_d z ltac:(lia)). zlia.
  - intros [Hz ->]. destruct (fmt_u_spec z Hz) as (ds & -> & _ & _ & _ & Hl). zlia.
  - done.
  - intros [H _]. by eapply mem_at_length.
  - intros [[H _] _]. apply (mem_at_length _ _ _ Hwf) in H. rewrite length_app in H. simpl in H. lia.
Qed.

Lemma insert_spec m b l v od :
  mem_wf m → mbuf_rep m b l → inv m b → text m (pblk (data_ b)) v od →
  wp (insert b v) (λ b' m', appended inv refuses b l (default l od) m b' m') m.
Proof.
  intros Hwf Hrep Hinv Ht. destruct od as [d|].
  2:{ destruct v; simpl in Ht; try done. by apply push_back_self_spec. }
  pose proof (text_length _ _ _ _ Hwf Ht) as Hlen. destruct v; simpl in *.
  - subst d. by apply push_back_char_spec.
  - destruct Ht as [_ ->]. by apply push_back_local_spec.
  - destruct Ht as [_ ->]. by apply push_back_local_spec.
  - done.
  - destruct Ht as [? [_ ?]]. by apply push_back_ref_spec.
  - destruct Ht as [[Hm Hs] [_ Hne]]. unfold insert_string, MutableBuffer.push_back_string.
    rewrite Hs. by apply push_back_spec.
  - destruct Ht as (Hm & -> & [_ Hne]). unfold insert_array, MutableBuffer.push_back_array.
    rewrite u64_small by zlia. apply push_back_spec; try done. lia.
  - destruct Ht as [Hc [_ Hne]]. unfold insert_cstr, push_back_cstr. wp_step.
    eapply wp_Ok; [by apply strlen_ok|]. destruct Hc as [[Hm _]%mem_at_app _].
    unfold MutableBuffer.push_back_string. simpl. by apply push_back_spec.
Qed.

(** The values are still there after the buffer has moved. *)
Lemma text_frame m b b' m' v od :
  mem_wf m → moves b b' m m' → text m (pblk (data_ b)) v od → text m' (pblk (data_ b')) v od.
Proof.
  intros Hwf [Ht Hb].
  assert (Hmem : ∀ p x, mem_at m p x → elsewhere m (pblk (data_ b)) p → mem_at m' p x).
  { intros p x Hp [_ Hne]. by eapply only_touches_mem_at. }
  assert (Hel : ∀ p, elsewhere m (pblk (data_ b)) p → elsewhere m' (pblk (data_ b')) p).
  { intros p [Hp Hne]. pose proof (ot_next _ _ _ Ht). split; [lia|]. destruct Hb; lia. }
  destruct v, od; simpl; unfold view, cstring; naive_solver.
Qed.

Lemma insert_all_spec (refused : Z → Prop) vs :
  (∀ m b n, refuses m b n → refused n) →
  ∀ ods m b l, mem_wf m → mbuf_rep m b l → inv m b →
  Forall2 (text m (pblk (data_ b))) vs ods →
  wp (insert_all b vs) (λ b' m', moves b b' m m'
    ∧ ∃ l', inserted refused l ods l' ∧ good (inv := inv) m' b' l') m.
Proof.
  intros Href. induction vs as [|v vs IH]; intros ods m b l Hwf Hrep Hinv Hvs; simpl.
  - apply Forall2_nil_inv_l in Hvs as ->. wp_step. split; [apply moves_refl|].
    exists l. split; [constructor|by split].
  - apply Forall2_cons_inv_l in Hvs as (od & ods' & Hod & Hvs & ->). wp_step.
    eapply wp_mono; [by apply insert_spec|]. intros b1 m1 [W1 I1 M1 R1].
    assert (∃ l1, mbuf_rep m1 b1 l1 ∧ ∀ l', inserted refused l1 ods' l' →
              inserted refused l (od :: ods') l') as (l1 & R & Hins).
    { destruct R1 as [R|(_ & R & Hr)].
      - exists (l ++ default l od). split; [done|]. intros. by apply inserted_cons.
      - exists l. split; [done|]. intros. apply inserted_skip; eauto. }
    eapply wp_mono; [apply (IH ods' m1 b1 l1); try done|].
    { eapply Forall2_impl; [exact Hvs|]. intros ? ?. by apply text_frame. }
    intros b2 m2 (M2 & l2 & S2 & G2). split; [by eapply moves_trans|]. eauto.
Qed.
End insert.

#[export] Hint Constructors inserted : core.

(** C19: A chain of insertions [b << v1 << v2 << ...] into a [Buffer], of
    characters, numbers, views, strings and literals that lie outside of the
    buffer's storage, and of the buffer itself, never goes wrong and appends the texts of the values in order; a text is left
    out as a whole, and only for want of memory, and memory outside of the
    buffer is untouched. *)
Theorem insert_all_appends `{Allocator} vs ods m b l :
  mem_wf m → mbuf_rep m b l → owned m b → Forall2 (text m (pblk (data_ b))) vs ods →
  wp (insert_all (E := mutableEnsure) b vs) (λ b' m', moves b b' m m'
    ∧ ∃ l', inserted no_memory l ods l' ∧ mem_wf m' ∧ mbuf_rep m' b' l' ∧ owned m' b') m.
Proof.
  intros Hwf Hrep Hown Hvs.
  apply (insert_all_spec (E := mutableEnsure) (inv := owned) no_memory); try done.
  intros m1 b1 n. apply oom_no_memory.
Qed.

(** A chain whose texts fit a [FixedBuffer] ends with all of them in it. *)
Lemma inserted_fits cap l ds l' :
  inserted (λ n, cap < n) l (Some <$> ds) l' → Z.of_nat (length (l ++ concat ds)) <= cap →
  l' = l ++ concat ds.
Proof.
  revert l. induction ds as [|d ds IH]; intros l Hi Hle; inversion Hi; simplify_eq/=.
  - by rewrite app_nil_r.
  - rewrite app_assoc in *. eauto.
  - rewrite !length_app in *. lia.
Qed.

(** What a chain of insertions into a [FixedBuffer] leaves, when the texts
    fit: the contents followed by all the texts, in the storage given. *)
Theorem fixed_insert_all vs ds m b l :
  mem_wf m → mbuf_rep m b l → Forall2 (text m (pblk (data_ b))) vs (Some <$> ds) →
  Z.of_nat (length (l ++ concat ds)) <= capacity_ b →
  wp (insert_all (E := immutableEnsure) b vs) (λ b' m',
    data_ b' = data_ b ∧ mbuf_rep m' b' (l ++ concat ds)
    ∧ only_touches (pblk (data_ b)) m m') m.
Proof.
  intros Hwf Hrep Hvs Hfit. eapply wp_mono.
  - apply (insert_all_spec (E := immutableEnsure)
      (EnsureSpec0 := fixed_ensure_spec (data_ b) (capacity_ b)) (λ n, capacity_ b < n)); try done.
  - intros b' m' ([M _] & l' & S & _ & R & D & C). apply inserted_fits in S as ->; done.
Qed.

(** ** Comparisons *)

Lemma negb_Ok (f : MM bool) m (P : Prop) `{Decision P} :
  f m = Ok (bool_decide P, m) → (negb <$> f) m = Ok (bool_decide (¬ P), m).
Proof.
  intros Hf. unfold fmap, ST_fmap. erewrite bind_Ok by exact Hf. unfold mret, ST_ret.
  by rewrite bool_decide_not.
Qed.

(** [==] and [!=] decide equality of the bytes, for two buffers, a buffer and a
    [std::string], and a buffer and a string literal. *)
Lemma eq_array_ok m a p la lb :
  view m a la → mem_at m p lb →
  BufferInsert.eq_array a p (Z.of_nat (length lb) + 1) m = Ok (bool_decide (la = lb), m).
Proof.
  intros [Ha Hsa] Hp. unfold BufferInsert.eq_array, BufferBase.equals_array.
  replace (Z.of_nat (length lb) + 1 - 1) with (Z.of_nat (length lb)) by lia.
  destruct (Z.eqb_spec (size_ a) (Z.of_nat (length lb))) as [E|E].
  - cbn [negb]. erewrite bind_Ok by (eapply memcmp_ok; [exact Ha|exact Hp|lia|lia]).
    by rewrite memcmp_bytes_0 by lia.
  - simpl. rewrite bool_decide_eq_false_2; [done|]. intros ->. lia.
Qed.

Theorem comparisons_correct m a b la lb :
  view m a la → view m b lb →
  let N := Z.of_nat (length lb) + 1 in
  BufferInsert.eq_buffers false a b m = Ok (bool_decide (la = lb), m)
  ∧ BufferInsert.ne_buffers false a b m = Ok (bool_decide (la ≠ lb), m)
  ∧ BufferInsert.eq_string a b m = Ok (bool_decide (la = lb), m)
  ∧ BufferInsert.ne_string a b m = Ok (bool_decide (la ≠ lb), m)
  ∧ BufferInsert.array_eq (data_ b) N a m = Ok (bool_decide (la = lb), m)
  ∧ BufferInsert.array_ne (data_ b) N a m = Ok (bool_decide (la ≠ lb), m).
Proof.
  intros Ha Hb N. pose proof (BufferBase.equals_spec _ _ _ _ _ Ha Hb) as He.
  pose proof (eq_array_ok _ _ _ _ _ Ha (proj1 Hb)) as Harr.
  split_and!; try exact He; try exact Harr; apply negb_Ok; assumption.
Qed.
