(* ===== verification/BufferSlice.v ===== *)
(** * BufferSlice and BufferOffset (include/xio/Buffer.h)

    A slice names a buffer object and an offset into it instead of an address.
    Buffer objects are passed as values here, so every operation that goes
    through the slice's [Buffer*] takes the buffer's current value. *)

From S2P Require Import Prelude Memory BufferBase BufferParse MutableBuffer BufferSpec.

Local Open Scope Z_scope.

(** [BufferOffset]: whether the pointer [buffer_] is set, and the offset.  The
    operations take the buffer that it points to as an argument, which must be
    alive: a slice that outlives its buffer is not expressed. *)
Record BufferOffset : Type := mkOffset { has_buffer : bool; offset_ : Z }.

(** [BufferSlice]: [BufferBase<Buffer>], whose [data_] is a [BufferOffset]. *)
Record BufferSlice : Type := mkSlice { sdata_ : BufferOffset; ssize_ : Z }.

Module BufferSlice.
Definition new : BufferSlice := mkSlice (mkOffset false 0) 0.

(** [BufferSlice(Buffer&, size_t, size_t)], the copy constructor and
    [operator=] *)
Definition new_at (offset size : Z) : BufferSlice := mkSlice (mkOffset true offset) size.
Definition copy (v : BufferSlice) : BufferSlice := mkSlice (sdata_ v) (ssize_ v).
Definition assign (s v : BufferSlice) : BufferSlice := mkSlice (sdata_ v) (ssize_ v).

(** [BufferOffset::operator char*()] with the buffer's current value. *)
Definition to_pointer (o : BufferOffset) (b : MutableBuffer) : MM ptr :=
  assert (has_buffer o);; mret (data_ b +ₚ offset_ o).

(** The slice as the inherited [BufferBase] operations see it. *)
Definition deref (s : BufferSlice) (b : MutableBuffer) : MM BufferRef :=
  p ← to_pointer (sdata_ s) b; mret (mkRef p (ssize_ s)).

(** [BufferBase<Buffer>::ref(size_t offset)] and
    [BufferBase<Buffer>::ref(size_t offset, size_t count)] *)
Definition ref_from (s : BufferSlice) (b : MutableBuffer) (offset : Z) : MM BufferRef :=
  assert (offset <=? ssize_ s);;
  p ← to_pointer (sdata_ s) b; mret (mkRef (p +ₚ offset) (u64 (ssize_ s - offset))).
Definition ref (s : BufferSlice) (b : MutableBuffer) (offset count : Z) : MM BufferRef :=
  assert (offset <=? ssize_ s);;
  assert ((count =? npos) || (u64 (offset + count) <=? ssize_ s));;
  p ← to_pointer (sdata_ s) b;
  mret (if negb (count =? npos)
        then mkRef (p +ₚ offset) count
        else mkRef (p +ₚ offset) (u64 (ssize_ s - offset))).

(** [std::hash] of a slice: of the bytes it stands for. *)
Definition std_hash (s : BufferSlice) (b : MutableBuffer) : MM Z :=
  r ← deref s b; BufferBase.hash r.

(** [Buffer::slice(size_t offset)] *)
Definition slice_from (b : MutableBuffer) (offset : Z) : MM BufferSlice :=
  assert (offset <=? size_ b);;
  mret (mkSlice (mkOffset true offset) (u64 (size_ b - offset))).

(** [Buffer::slice(size_t offset, size_t count)] *)
Definition slice (b : MutableBuffer) (offset count : Z) : MM BufferSlice :=
  assert (offset <=? size_ b);;
  assert ((count =? npos) || (u64 (offset + count) <=? size_ b));;
  mret (if negb (count =? npos)
        then mkSlice (mkOffset true offset) count
        else mkSlice (mkOffset true offset) (u64 (size_ b - offset))).

(** [shl(ssize_t value)]: [offset_ - value] is unsigned, so that the
    assertion always holds. *)
Definition shl (s : BufferSlice) (value : Z) : MM BufferSlice :=
  assert (0 <=? u64 (offset_ (sdata_ s) - value));;
  mret (mkSlice (mkOffset (has_buffer (sdata_ s)) (u64 (offset_ (sdata_ s) - value))) (ssize_ s)).

(** [shr(ssize_t value)] *)
Definition shr (s : BufferSlice) (value : Z) : BufferSlice :=
  mkSlice (sdata_ s) (u64 (ssize_ s + value)).
End BufferSlice.

Section slices.
Context {AL : Allocator}.
Implicit Types (m : memory) (b : MutableBuffer) (l d x : bytes).

(** The slice selects the bytes [x] of [l]. *)
Definition selects (s : BufferSlice) l x : Prop :=
  has_buffer (sdata_ s) = true ∧ ssize_ s = Z.of_nat (length x)
  ∧ ∃ l1 l2, l = l1 ++ x ++ l2 ∧ offset_ (sdata_ s) = Z.of_nat (length l1).

Lemma deref_spec m b l s x :
  mbuf_rep m b l → selects s l x →
  wp (BufferSlice.deref s b) (λ r m', m' = m ∧ view m r x) m.
Proof.
  intros [Hm _]%rep_view (Hb & Hs & l1 & l2 & -> & Ho).
  unfold BufferSlice.deref, BufferSlice.to_pointer. do 2 wp_step. rewrite Hb.
  wp_step; [done|]. wp_step. wp_step. split; [done|]. split; simpl; [|done].
  rewrite Ho. apply mem_at_app in Hm as [_ Hm]. by apply mem_at_app in Hm as [Hm _].
Qed.

Lemma selects_app s l x d : selects s l x → selects s (l ++ d) x.
Proof.
  intros (Hb & Hs & l1 & l2 & -> & Ho). split; [done|]. split; [done|].
  exists l1, (l2 ++ d). split; [by rewrite <- !app_assoc|done].
Qed.

(** C36: a slice taken from a buffer still reads the same bytes after more has
    been appended to the buffer, even if that moved the buffer's storage
    (where a [BufferRef] dangles). *)
Theorem slice_survives_append m b l d offset count :
  mem_wf m → mbuf_rep m b l → owned m b → Z.of_nat (length d) <= ADDR_SPACE →
  0 <= offset → 0 <= count → offset + count <= size_ b →
  wp (s ← BufferSlice.slice b offset count;
      MutableBuffer.push_back_local (E := mutableEnsure) b d ≫= λ b' : MutableBuffer,
      BufferSlice.deref s b')
    (λ r m', view m' r (take (Z.to_nat count) (drop (Z.to_nat offset) l))) m.
Proof.
  intros Hwf Hrep Hown Hd Ho Hc Hle. pose proof (rep_size _ _ _ Hrep) as Hs.
  pose proof (rep_capacity _ _ _ Hwf Hrep) as [Hsz Hcap].
  unfold BufferSlice.slice. do 2 wp_step. wp_step; [lia|]. wp_step. rewrite u64_small by zlia.
  wp_step; [lia|]. replace (count =? npos) with false by (unfold npos; zlia). wp_step. wp_step.
  set (x := take (Z.to_nat count) (drop (Z.to_nat offset) l)).
  assert (Hsel : selects (mkSlice (mkOffset true offset) count) l x).
  { split; [done|]. split; [unfold x; rewrite length_take, length_drop; simpl; lia|].
    exists (take (Z.to_nat offset) l), (drop (Z.to_nat count) (drop (Z.to_nat offset) l)).
    unfold x. rewrite !take_drop, length_take. split; [done|simpl; lia]. }
  eapply wp_mono; [by apply (push_back_local_spec (inv := owned) m b l d)|].
  intros b' m' [_ _ _ R]. eapply wp_mono.
  - destruct R as [R|(_ & R & _)]; [|by eapply deref_spec].
    eapply deref_spec; [done|]. by apply selects_app.
  - by intros r m'' [-> ?].
Qed.

(** [shl(1)] moves the whole view to the left instead of growing it at its
    left margin as documented; at the start of the buffer its assertion
    passes and the offset wraps around. *)
Theorem shl_keeps_size s value m :
  is_size (offset_ (sdata_ s)) →
  ∃ s', BufferSlice.shl s value m = Ok (s', m) ∧ ssize_ s' = ssize_ s
    ∧ offset_ (sdata_ s') = u64 (offset_ (sdata_ s) - value).
Proof.
  intros _. unfold BufferSlice.shl. pose proof (u64_range (offset_ (sdata_ s) - value)) as [? _].
  replace (0 <=? _) with true by lia. eexists. done.
Qed.
End slices.
