(* ===== verification/Double.v ===== *)
(** * Double: arithmetic of the type [double]

    A finite [double] is the rational number it stands for.  The operations of
    the language compute the exact result and round it to the nearest number
    with 53 bits, ties to even (IEEE 754 binary64), subnormal numbers
    included; a result that would be infinite is [None]. *)

From Stdlib Require Import QArith Qcanon.
Local Close Scope Qc_scope.
From S2P Require Import Prelude.

Local Open Scope Z_scope.

Definition EMIN : Z := 1074.        (* the least positive number is 2^-1074 *)

(** [n / d], rounded to the nearest integer, ties to even. *)
Definition div_half_even (n d : Z) : Z :=
  let q := n / d in
  match Z.compare (2 * (n mod d)) d with
  | Lt => q
  | Gt => q + 1
  | Eq => if Z.even q then q else q + 1
  end.

(** [n / d] times [2^s] *)
Definition num (n s : Z) : Z := n * 2 ^ Z.max s 0.
Definition den (d s : Z) : Z := d * 2 ^ Z.max (- s) 0.

(** The scale at which [n / d] has 53 bits in front of the point. *)
Definition scale (n d : Z) : Z :=
  let s := 52 - (Z.log2 n - Z.log2 d) in
  Z.min EMIN (if num n s <? 2 ^ 52 * den d s then s + 1 else s).

(** [h / 2^s] *)
Definition unscale (h s : Z) : Q :=
  if 0 <=? s then h # Z.to_pos (2 ^ s) else inject_Z (h * 2 ^ (- s)).

Definition round_pos (n d : Z) : Q :=
  let s := scale n d in unscale (div_half_even (num n s) (den d s)) s.

Definition finite (q : Q) : bool := Z.abs (Qnum q) <? 2 ^ 1024 * Zpos (Qden q).

(** The result does not depend on how the fraction is written. *)
Definition round_q (q : Q) : Q :=
  match Qnum q with
  | Z0 => 0%Q
  | Zpos n => round_pos (Zpos n) (Zpos (Qden q))
  | Zneg n => Qopp (round_pos (Zpos n) (Zpos (Qden q)))
  end.
Definition round (q : Q) : option Q :=
  let r := Qred (round_q (Qred q)) in if finite r then Some r else None.

(** The operators; [of_int] is the conversion of an integer. *)
Definition add (a b : Q) : option Q := round (a + b).
Definition sub (a b : Q) : option Q := round (a - b).
Definition mul (a b : Q) : option Q := round (a * b).
Definition div (a b : Q) : option Q := if Qeq_bool b 0 then None else round (a / b).
Definition of_int (z : Z) : option Q := round (inject_Z z).

Section rounding.
Implicit Types (n d s : Z) (q r : Q).

Lemma div_half_even_error n d :
  0 < d → 2 * (d * div_half_even n d) <= 2 * n + d ∧ 2 * n - d <= 2 * (d * div_half_even n d).
Proof.
  intros Hd. pose proof (Z.div_mod n d ltac:(lia)) as E. pose proof (Z.mod_pos_bound n d Hd).
  unfold div_half_even. destruct (Z.compare_spec (2 * (n mod d)) d); [destruct (Z.even _)|..]; nia.
Qed.

Lemma div_half_even_exact n : div_half_even n 1 = n.
Proof. unfold div_half_even. rewrite Z.div_1_r, Z.mod_1_r. done. Qed.

(** Numbers of full precision have 53 bits after scaling. *)
Lemma scale_full n d :
  0 < n → 0 < d → d <= n * 2 ^ 1022 → 2 ^ 52 * den d (scale n d) <= num n (scale n d).
Proof.
  intros Hn Hd Hmin. unfold scale. set (s := 52 - (Z.log2 n - Z.log2 d)).
  assert (Hs : ∀ s', s' <= EMIN → 2 ^ 52 * den d s' <= num n s' →
            2 ^ 52 * den d (Z.min EMIN s') <= num n (Z.min EMIN s')).
  { intros s' ? ?. by rewrite Z.min_r by lia. }
  assert (Hclamp : 2 ^ 52 * den d EMIN <= num n EMIN).
  { unfold num, den, EMIN. change (Z.max (- (1074)) 0) with 0. change (Z.max 1074 0) with 1074.
    rewrite Z.pow_0_r, Z.mul_1_r. change (2 ^ 1074) with (2 ^ 1022 * 2 ^ 52). lia. }
  destruct (Z.ltb_spec (num n s) (2 ^ 52 * den d s)) as [H|H].
  2:{ destruct (Z.le_gt_cases s EMIN); [by apply Hs|]. by rewrite Z.min_l by lia. }
  destruct (Z.le_gt_cases (s + 1) EMIN); [|by rewrite Z.min_l by lia].
  apply Hs; [done|]. clear H Hs Hclamp.
  destruct (Z.log2_spec n Hn) as [Hl _]. destruct (Z.log2_spec d Hd) as [_ Hu].
  pose proof (Z.log2_nonneg n). pose proof (Z.log2_nonneg d). unfold num, den.
  destruct (Z.le_gt_cases 0 (s + 1)).
  - rewrite (Z.max_l (s + 1)), (Z.max_r (- (s + 1))) by lia. rewrite Z.pow_0_r, Z.mul_1_r.
    assert (2 ^ Z.log2 n * 2 ^ (s + 1) = 2 ^ 52 * 2 ^ Z.succ (Z.log2 d)) as E.
    { rewrite <- !Z.pow_add_r by lia. f_equal. lia. }
    nia.
  - rewrite (Z.max_r (s + 1)), (Z.max_l (- (s + 1))) by lia. rewrite Z.pow_0_r, Z.mul_1_r.
    assert (2 ^ 52 * (2 ^ Z.succ (Z.log2 d) * 2 ^ (- (s + 1))) = 2 ^ Z.log2 n) as E.
    { rewrite <- !Z.pow_add_r by lia. f_equal. lia. }
    pose proof (Z.pow_pos_nonneg 2 (- (s + 1)) ltac:(lia) ltac:(lia)). nia.
Qed.
(** Half of a unit in the last place, relative to the number. *)
Definition ulp : Q := 1 # Z.to_pos (2 ^ 53).

(** [r] is [q], up to the relative error of one rounding. *)
Definition close q r : Prop := (q * (1 - ulp) <= r)%Q ∧ (r <= q * (1 + ulp))%Q.

Lemma round_pos_close (n d : positive) :
  Zpos d <= Zpos n * 2 ^ 1022 → close (Zpos n # d) (round_pos (Zpos n) (Zpos d)).
Proof.
  intros Hmin. pose proof (scale_full (Zpos n) (Zpos d) ltac:(lia) ltac:(lia) Hmin) as Hf.
  unfold round_pos. set (s := scale _ _) in *.
  assert (0 < den (Zpos d) s) as HD.
  { unfold den. pose proof (Z.pow_pos_nonneg 2 (Z.max (- s) 0)). nia. }
  pose proof (div_half_even_error (num (Zpos n) s) _ HD) as [H1 H2].
  set (h := div_half_even _ _) in *. clearbody h s. unfold num, den in *.
  unfold close, unscale, ulp, Qle. destruct (Z.leb_spec 0 s) as [Hs|Hs]; cbn [Qnum Qden Qmult
    Qminus Qplus Qopp inject_Z].
  - rewrite (Z.max_l s), (Z.max_r (- s)), Z.pow_0_r, Z.mul_1_r in * by lia.
    pose proof (Z.pow_pos_nonneg 2 s ltac:(lia) Hs).
    rewrite !Pos2Z.inj_mul, Z2Pos.id by lia. change (Zpos (Z.to_pos (2 ^ 53))) with (2 ^ 53). nia.
  - rewrite (Z.max_r s), (Z.max_l (- s)), Z.pow_0_r, Z.mul_1_r in * by lia.
    rewrite !Pos2Z.inj_mul. change (Zpos (Z.to_pos (2 ^ 53))) with (2 ^ 53). nia.
Qed.

Definition small_q : Q := 1 # Z.to_pos (2 ^ 1022).
Definition large_q : Q := inject_Z (2 ^ 1000).

(** Rounding a positive number in the usual range: a finite number, close to
    the exact one. *)
#[local] Instance close_proper : Proper (Qeq ==> Qeq ==> iff) close.
Proof. intros q q' Hq r r' Hr. unfold close. by rewrite Hq, Hr. Qed.

Lemma round_proper q q' : (q == q')%Q → round q = round q'.
Proof. intros Hq. unfold round. by rewrite (Qred_complete _ _ Hq). Qed.

Lemma round_close q :
  (small_q <= q)%Q → (q <= large_q)%Q → ∃ r, round q = Some r ∧ close q r.
Proof.
  intros Hs Hl. unfold round. pose proof (Qred_correct q) as Eq. set (q' := Qred q) in *.
  clearbody q'. setoid_rewrite <- Eq in Hs. setoid_rewrite <- Eq in Hl. setoid_rewrite <- Eq.
  clear Eq q. destruct q' as [n d]. unfold small_q, Qle in Hs. cbn [Qnum Qden] in Hs.
  change (Zpos (Z.to_pos (2 ^ 1022))) with (2 ^ 1022) in Hs.
  destruct n as [|n|n]; [lia| |nia].
  pose proof (round_pos_close n d ltac:(lia)) as Hc. unfold round_q. cbn [Qnum Qden].
  set (r0 := round_pos _ _) in *. rewrite <- (Qred_correct r0) in Hc. set (r := Qred r0) in *.
  clearbody r. exists r. split; [|done]. replace (finite r) with true; [done|].
  symmetry. destruct Hc as [H1 H2]. unfold finite.
  assert (Hr : (r <= inject_Z (2 ^ 1001))%Q).
  { eapply Qle_trans; [exact H2|]. unfold large_q in Hl. eapply Qle_trans.
    - apply Qmult_le_compat_r; [exact Hl|]. done.
    - done. }
  assert (Hr0 : (0 <= r)%Q).
  { eapply Qle_trans; [|exact H1]. done. }
  unfold Qle in Hr, Hr0. cbn [Qnum Qden inject_Z] in Hr, Hr0. rewrite Z.mul_1_r in Hr.
  assert (2 ^ 1001 < 2 ^ 1024) by done. nia.
Qed.

Lemma Qred_inject z : Qred (inject_Z z) = inject_Z z.
Proof. apply Qred_iff. cbn [Qnum Qden inject_Z]. apply Z.gcd_1_r. Qed.

(** Integers up to 2^53 are represented. *)
Lemma round_int z : Z.abs z <= 2 ^ 53 → round (inject_Z z) = Some (inject_Z z).
Proof.
  assert (Hpos : ∀ p : positive, Zpos p <= 2 ^ 53 → (round_pos (Zpos p) 1 == inject_Z (Zpos p))%Q).
  { intros p Hp. destruct (Z.eq_dec (Zpos p) (2 ^ 53)) as [->|Hne]; [done|].
    assert (Z.log2 (Zpos p) <= 52) by (apply Z.lt_succ_r, Z.log2_lt_pow2; lia).
    unfold round_pos. set (s := scale _ _).
    assert (0 <= s) as Hs.
    { unfold s, scale. change (Z.log2 1) with 0. destruct (_ <? _); unfold EMIN; lia. }
    unfold den. rewrite (Z.max_r (- s)), Z.pow_0_r by lia. change (1 * 1) with 1.
    rewrite div_half_even_exact. unfold unscale, num. replace (0 <=? s) with true by lia.
    rewrite Z.max_l by lia. unfold Qeq. cbn [Qnum Qden inject_Z].
    pose proof (Z.pow_pos_nonneg 2 s ltac:(lia) Hs). rewrite Z2Pos.id by lia. lia. }
  intros Hz. unfold round. rewrite Qred_inject.
  assert ((round_q (inject_Z z) == inject_Z z)%Q) as E.
  { unfold round_q. cbn [Qnum Qden inject_Z]. destruct z as [|p|p]; [done|..];
      rewrite Hpos by lia; done. }
  rewrite (Qred_complete _ _ E), Qred_inject. unfold finite. cbn [Qnum Qden inject_Z].
  assert (2 ^ 53 < 2 ^ 1024) by done. replace (_ <? _) with true by lia. done.
Qed.

(** Sums and differences of integers are exact up to 2^53. *)
Lemma add_int a b : Z.abs (a + b) <= 2 ^ 53 → add (inject_Z a) (inject_Z b) = Some (inject_Z (a + b)).
Proof.
  intros H. unfold add. rewrite (round_proper _ (inject_Z (a + b))); [by apply round_int|].
  by rewrite inject_Z_plus.
Qed.
Lemma sub_int a b : Z.abs (a - b) <= 2 ^ 53 → sub (inject_Z a) (inject_Z b) = Some (inject_Z (a - b)).
Proof.
  intros H. unfold sub. rewrite (round_proper _ (inject_Z (a - b))); [by apply round_int|].
  unfold Z.sub. by rewrite inject_Z_plus, inject_Z_opp.
Qed.
End rounding.
