(* ===== verification/Time.v ===== *)
(** * Time (include/xio/TimeSpan.h, include/xio/DateTime.h)

    Spans and dates are a [double]: the rational number that it stands for,
    with the rounding operations of Double.v, whose [None] is an infinite
    result.  Conversions to integers that do not fit are undefined and [None]
    as well.  [strptime], [mktime] and the time zone are parameters. *)

From Stdlib Require Import QArith Lqa.
From S2P Require Import Prelude Double.

Local Open Scope Z_scope.

(** A [double] converted to an integer type with the values [lo .. hi]: the
    fraction is cut off, and the rest must fit. *)
Definition trunc (q : Q) : Z := Z.quot (Qnum q) (Zpos (Qden q)).
Definition convert (lo hi : Z) (q : Q) : option Z :=
  let z := trunc q in if (lo <=? z) && (z <=? hi) then Some z else None.

Module TimeSpan.
Definition TimeSpan : Type := Q.

Definition Zero : TimeSpan := 0%Q.
Definition is_zero (t : TimeSpan) : bool := Qeq_bool t 0.

Definition ticksPerDay : Z := 86400.
Definition ticksPerHour : Z := 3600.
Definition ticksPerMinute : Z := 60.
Definition ticksPerSecond : Z := 1.

(** [(int) value_] *)
Definition int_value (t : TimeSpan) : option Z := convert INT_MIN INT_MAX t.

Definition days (t : TimeSpan) : option Z :=
  v ← int_value t; Some (Z.quot v ticksPerDay).
Definition hours (t : TimeSpan) : option Z :=
  v ← int_value t; Some (Z.quot v ticksPerHour - 24 * Z.quot v ticksPerDay).
Definition minutes (t : TimeSpan) : option Z :=
  v ← int_value t; Some (Z.quot v 60 - 60 * Z.quot v 3600).
Definition seconds (t : TimeSpan) : option Z :=
  v ← int_value t; Some (Z.rem v 60).

(** [TimeSpan(size_t)] *)
Definition of_size (v : Z) : option TimeSpan := of_int v.

(** The factories multiply in [size_t]. *)
Definition fromDays (v : Z) : option TimeSpan := of_size (u64 (ticksPerDay * v)).
Definition fromHours (v : Z) : option TimeSpan := of_size (u64 (ticksPerHour * v)).
Definition fromMinutes (v : Z) : option TimeSpan := of_size (u64 (ticksPerMinute * v)).
Definition fromSeconds (v : Z) : option TimeSpan := of_size (u64 (ticksPerSecond * v)).

(** [v / 1000 + (unsigned(v) % 1000) / 1000.0] *)
Definition fromMilliseconds (v : Z) : option TimeSpan :=
  k ← of_int (v / 1000); j ← of_int (u32 v mod 1000); f ← div j 1000; Double.add k f.

Definition totalSeconds (t : TimeSpan) : option Z := convert 0 SIZE_MAX t.
Definition totalMilliseconds (t : TimeSpan) : option Z :=
  x ← mul t 1000; convert 0 SIZE_MAX x.

Definition eq (a b : TimeSpan) : bool := Qeq_bool a b.
Definition lt (a b : TimeSpan) : bool := negb (Qle_bool b a).
Definition le (a b : TimeSpan) : bool := Qle_bool a b.
Definition ne (a b : TimeSpan) : bool := negb (Qeq_bool a b).
Definition gt (a b : TimeSpan) : bool := negb (Qle_bool a b).
Definition ge (a b : TimeSpan) : bool := Qle_bool b a.
Definition add (a b : TimeSpan) : option TimeSpan := Double.add a b.
Definition sub (a b : TimeSpan) : option TimeSpan := Double.sub a b.
End TimeSpan.

Module DateTime.
Definition DateTime : Type := Q.

(** [DateTime()], where [now] is what [std::time] returns, and
    [DateTime(ev::tstamp)] *)
Definition new (now : Z) : option DateTime := of_int now.
Definition of_tstamp (v : Q) : DateTime := v.

Definition valid (t : DateTime) : bool := negb (Qeq_bool t 0).

(** [update(v)] *)
Definition update (t v : DateTime) : DateTime := if negb (Qeq_bool t v) then v else t.

(** [update()]; [now] is what [std::time] returns. *)
Definition update_now (t : DateTime) (now : Z) : option DateTime :=
  v ← of_int now; Some (update t v).

(** [operator=] *)
Definition assign (t v : DateTime) : DateTime := update t v.

(** [DateTime(const std::string&)]; [strptime] parses by a format, [mktime]
    makes a [time_t] of the result, of which [timezone] is taken. *)
Definition new_string {tm : Type} (strptime : bytes → bytes → option tm) (mktime : tm → Z)
    (timezone : Z) (v : bytes) : option DateTime :=
  match strptime v (bs "%a, %d %b %Y %H:%M:%S GMT") with
  | Some t => of_int (mktime t - timezone)
  | None => of_int 0
  end.

(** [a - b], a span without sign *)
Definition diff (a b : DateTime) : option TimeSpan.TimeSpan :=
  d ← Double.sub a b; Some (if negb (Qle_bool 0 d) then Qopp d else d).
Definition plus_span (a : DateTime) (b : TimeSpan.TimeSpan) : option DateTime := Double.add a b.
Definition minus_span (a : DateTime) (b : TimeSpan.TimeSpan) : option DateTime := Double.sub a b.

(** [static_cast<std::time_t>(value_)] *)
Definition unixtime (t : DateTime) : option Z := convert (- 2 ^ 63) (2 ^ 63 - 1) t.

(** [compare(a, b)]: the difference of two [time_t], as an [int]; a difference
    outside of [time_t] is undefined. *)
Definition compare (a b : DateTime) : option Z :=
  x ← unixtime a; y ← unixtime b;
  if (- 2 ^ 63 <=? x - y) && (x - y <=? 2 ^ 63 - 1) then Some (s32 (x - y)) else None.

Definition eq (a b : DateTime) : option bool := c ← compare a b; Some (c =? 0).
Definition ne (a b : DateTime) : option bool := c ← compare a b; Some (negb (c =? 0)).
Definition le (a b : DateTime) : option bool := c ← compare a b; Some (c <=? 0).
Definition ge (a b : DateTime) : option bool := c ← compare a b; Some (0 <=? c).
Definition lt (a b : DateTime) : option bool := c ← compare a b; Some (c <? 0).
Definition gt (a b : DateTime) : option bool := c ← compare a b; Some (0 <? c).
End DateTime.

Section time.
Implicit Types (t : Q).

Lemma convert_Some lo hi t z : convert lo hi t = Some z ↔ z = trunc t ∧ lo <= z <= hi.
Proof.
  unfold convert. destruct (_ && _) eqn:E; split.
  - intros [= <-]. split; [done|lia].
  - by intros [-> _].
  - done.
  - intros [-> ?]. lia.
Qed.

Lemma trunc_inject z : trunc (inject_Z z) = z.
Proof. apply Z.quot_1_r. Qed.

(** Days, hours, minutes and seconds decompose the whole seconds of a span:
    they add up to it and are in their ranges, all with its sign. *)
Theorem timespan_decomposes t v :
  TimeSpan.int_value t = Some v →
  ∃ d h m s, TimeSpan.days t = Some d ∧ TimeSpan.hours t = Some h
    ∧ TimeSpan.minutes t = Some m ∧ TimeSpan.seconds t = Some s
    ∧ v = 86400 * d + 3600 * h + 60 * m + s
    ∧ (0 <= v → 0 <= d ∧ 0 <= h < 24 ∧ 0 <= m < 60 ∧ 0 <= s < 60)
    ∧ (v <= 0 → d <= 0 ∧ -24 < h <= 0 ∧ -60 < m <= 0 ∧ -60 < s <= 0).
Proof.
  intros E. unfold TimeSpan.days, TimeSpan.hours, TimeSpan.minutes, TimeSpan.seconds,
    TimeSpan.ticksPerDay, TimeSpan.ticksPerHour. rewrite E. simpl. do 4 eexists. do 4 (split; [done|]).
  pose proof (Z.quot_rem' v 86400). pose proof (Z.quot_rem' v 3600). pose proof (Z.quot_rem' v 60).
  split; [lia|]. split; intros Hv.
  - pose proof (Z.rem_bound_pos v 86400). pose proof (Z.rem_bound_pos v 3600).
    pose proof (Z.rem_bound_pos v 60). lia.
  - pose proof (Z.rem_bound_neg_pos v 86400). pose proof (Z.rem_bound_neg_pos v 3600).
    pose proof (Z.rem_bound_neg_pos v 60). lia.
Qed.

(** A span made from a number of days has that many days, as long as its
    seconds fit an [int]. *)
Theorem fromDays_days n :
  0 <= n <= INT_MAX / 86400 →
  ∃ t, TimeSpan.fromDays n = Some t ∧ TimeSpan.days t = Some n ∧ TimeSpan.hours t = Some 0
    ∧ TimeSpan.minutes t = Some 0 ∧ TimeSpan.seconds t = Some 0.
Proof.
  intros Hn. change (INT_MAX / 86400) with 24855 in Hn.
  unfold TimeSpan.fromDays, TimeSpan.of_size, TimeSpan.ticksPerDay.
  rewrite u64_small by zlia. unfold of_int. rewrite round_int by lia.
  eexists. split; [done|].
  unfold TimeSpan.days, TimeSpan.hours, TimeSpan.minutes, TimeSpan.seconds,
    TimeSpan.ticksPerDay, TimeSpan.ticksPerHour.
  assert (TimeSpan.int_value (inject_Z (86400 * n)) = Some (86400 * n)) as ->.
  { apply convert_Some. rewrite trunc_inject. split; [done|zlia]. }
  simpl. pose proof (Z.quot_rem' (86400 * n) 86400). pose proof (Z.quot_rem' (86400 * n) 3600).
  pose proof (Z.quot_rem' (86400 * n) 60).
  pose proof (Z.rem_bound_pos (86400 * n) 86400). pose proof (Z.rem_bound_pos (86400 * n) 3600).
  pose proof (Z.rem_bound_pos (86400 * n) 60). split_and!; f_equal; lia.
Qed.

(** Dates whose whole seconds are less than 2^31 apart are ordered as these
    are, by all six operators. *)
Theorem datetime_order a b x y :
  DateTime.unixtime a = Some x → DateTime.unixtime b = Some y → INT_MIN <= x - y <= INT_MAX →
  DateTime.eq a b = Some (x =? y) ∧ DateTime.ne a b = Some (negb (x =? y))
  ∧ DateTime.le a b = Some (x <=? y) ∧ DateTime.ge a b = Some (y <=? x)
  ∧ DateTime.lt a b = Some (x <? y) ∧ DateTime.gt a b = Some (y <? x).
Proof.
  intros Ha Hb Hd.
  assert (DateTime.compare a b = Some (x - y)) as E.
  { unfold DateTime.compare. rewrite Ha, Hb. simpl.
    replace (_ && _) with true by zlia. by rewrite s32_small. }
  unfold DateTime.eq, DateTime.ne, DateTime.le, DateTime.ge, DateTime.lt, DateTime.gt.
  rewrite E. simpl. split_and!; f_equal; lia.
Qed.

(** Dates that are farther apart are not: 2^32 seconds are none. *)
Theorem datetime_compare_wraps : ∃ a b, DateTime.eq a b = Some true
  ∧ DateTime.unixtime a ≠ DateTime.unixtime b.
Proof. exists (inject_Z (2 ^ 32)), (inject_Z 0). split; [reflexivity|done]. Qed.
(** ** Sums *)

(** Whole seconds add up without rounding: a span added to a date is the
    distance of the two dates, and taking it off again gives the date back. *)
Theorem datetime_span_roundtrip (x n : Z) :
  Z.abs x <= 2 ^ 52 → 0 <= n <= 2 ^ 52 →
  ∃ d, DateTime.plus_span (inject_Z x) (inject_Z n) = Some d
    ∧ DateTime.unixtime d = Some (x + n)
    ∧ DateTime.diff d (inject_Z x) = Some (inject_Z n)
    ∧ DateTime.diff (inject_Z x) d = Some (inject_Z n)
    ∧ DateTime.minus_span d (inject_Z n) = Some (inject_Z x).
Proof.
  intros Hx Hn. exists (inject_Z (x + n)).
  split; [apply add_int; lia|]. split.
  { apply convert_Some. rewrite trunc_inject. split; [done|lia]. }
  unfold DateTime.diff, DateTime.minus_span. rewrite !sub_int by lia. simpl.
  assert (Hle : ∀ z, Qle_bool 0 (inject_Z z) = (0 <=? z)).
  { intros z. unfold Qle_bool. cbn [Qnum Qden inject_Z]. f_equal. lia. }
  rewrite !Hle. split_and!; f_equal.
  - replace (0 <=? x + n - x) with true by lia. simpl. f_equal. lia.
  - destruct (Z.leb_spec 0 (x - (x + n))); simpl; [f_equal; lia|].
    rewrite <- inject_Z_opp. f_equal. lia.
  - f_equal. lia.
Qed.

(** *** Milliseconds *)

Lemma trunc_between t z :
  (inject_Z z <= t)%Q → (t < inject_Z (z + 1))%Q → 0 <= z → trunc t = z.
Proof.
  destruct t as [n d]. unfold Qle, Qlt, trunc. cbn [Qnum Qden inject_Z]. intros H1 H2 Hz.
  symmetry. apply Z.quot_unique with (n - z * Zpos d); lia.
Qed.

Lemma inject_bounds a z b : a <= z <= b → (inject_Z a <= inject_Z z)%Q ∧ (inject_Z z <= inject_Z b)%Q.
Proof. intros []. by rewrite <- !Zle_Qle. Qed.

(** The span of [v] milliseconds is [v / 1000] up to two roundings, and at
    least its whole seconds. *)
Lemma fromMilliseconds_close v :
  0 <= v < 2 ^ 32 →
  ∃ t, TimeSpan.fromMilliseconds v = Some t
    ∧ (inject_Z v * (1 # 1000) * (1 - 3 * ulp) <= t)%Q
    ∧ (t <= inject_Z v * (1 # 1000) * (1 + 3 * ulp))%Q
    ∧ (inject_Z (v / 1000) <= t)%Q.
Proof.
  intros Hv. pose proof (Z.div_mod v 1000 ltac:(lia)) as Ev.
  pose proof (Z.mod_pos_bound v 1000 ltac:(lia)) as Hj.
  unfold TimeSpan.fromMilliseconds. rewrite u32_small by lia.
  set (k := v / 1000) in *. set (j := v mod 1000) in *. assert (0 <= k <= 4294968) as Hk by lia.
  unfold of_int. rewrite !round_int by lia. simpl.
  assert (inject_Z v == 1000 * inject_Z k + inject_Z j)%Q as EvQ.
  { rewrite Ev, inject_Z_plus, inject_Z_mult. done. }
  setoid_rewrite EvQ. destruct (inject_bounds _ _ _ Hk) as [Hk0 Hk1]. clearbody k j. clear EvQ.
  change ulp with (1 # 9007199254740992). change (inject_Z 0) with 0%Q in *.
  change (inject_Z 4294968) with (4294968 # 1) in *.
  destruct (Z.eq_dec j 0) as [->|Hj0].
  { change (div (inject_Z 0) 1000) with (Some (inject_Z 0)). simpl. rewrite add_int by lia.
    exists (inject_Z k). rewrite Z.add_0_r. split; [done|]. change (inject_Z 0) with 0%Q. lra. }
  destruct (inject_bounds 1 j 999 ltac:(lia)) as [Hj1 Hj2].
  set (K := inject_Z k) in *. set (J := inject_Z j) in *. clearbody K J.
  change (inject_Z 1) with 1%Q in Hj1. change (inject_Z 999) with (999 # 1) in Hj2.
  unfold div. change (Qeq_bool 1000 0) with false. cbn iota.
  destruct (round_close (J / 1000)) as (f & -> & Hf).
  - eapply Qle_trans with (1 # 1000); [done|]. unfold Qdiv. change (/ 1000)%Q with (1 # 1000). lra.
  - eapply Qle_trans with 1%Q; [|done]. unfold Qdiv. change (/ 1000)%Q with (1 # 1000). lra.
  - destruct Hf as [Hf1 Hf2]. unfold Qdiv in Hf1, Hf2. change (/ 1000)%Q with (1 # 1000) in *.
    change ulp with (1 # 9007199254740992) in *. simpl. unfold Double.add.
    destruct (round_close (K + f)) as (t & -> & Ht1 & Ht2).
    + eapply Qle_trans with (1 # 2000); [done|]. lra.
    + eapply Qle_trans with (4294970 # 1); [|done]. lra.
    + change ulp with (1 # 9007199254740992) in *. exists t. split; [done|]. lra.
Qed.

(** C34: for fewer than 2^32 milliseconds the whole seconds of the span are exact,
    and its milliseconds are the number or one less. *)
Theorem milliseconds_bounds v :
  0 <= v < 2 ^ 32 →
  ∃ t w, TimeSpan.fromMilliseconds v = Some t ∧ TimeSpan.totalSeconds t = Some (v / 1000)
    ∧ TimeSpan.totalMilliseconds t = Some w ∧ v - 1 <= w <= v.
Proof.
  intros Hv. destruct (Z.eq_dec v 0) as [->|Hv0]; [by exists 0%Q, 0|].
  destruct (fromMilliseconds_close v Hv) as (t & -> & Ht1 & Ht2 & Hk). exists t.
  pose proof (Z.div_mod v 1000 ltac:(lia)) as Ev. pose proof (Z.mod_pos_bound v 1000 ltac:(lia)).
  set (k := v / 1000) in *. set (j := v mod 1000) in *. clearbody k j.
  assert (inject_Z v <= inject_Z (1000 * k + 999))%Q as Hj by (rewrite <- Zle_Qle; lia).
  rewrite inject_Z_plus, inject_Z_mult in Hj. change (inject_Z 1000) with (1000 # 1) in Hj.
  change (inject_Z 999) with (999 # 1) in Hj.
  destruct (inject_bounds 1 v (2 ^ 32) ltac:(lia)) as [Hv1 Hv2].
  change (inject_Z 1) with 1%Q in Hv1. change (inject_Z (2 ^ 32)) with (4294967296 # 1) in Hv2.
  change ulp with (1 # 9007199254740992) in *.
  unfold TimeSpan.totalMilliseconds, mul.
  destruct (round_close (t * 1000)) as (m & Em & Hm1 & Hm2).
  { eapply Qle_trans with (1 # 2); [done|]. lra. }
  { eapply Qle_trans with (4294967297 # 1); [|done]. lra. }
  rewrite Em. simpl. change ulp with (1 # 9007199254740992) in *.
  assert (trunc t = k) as Et.
  { apply trunc_between; [done| |lia]. rewrite inject_Z_plus. change (inject_Z 1) with 1%Q. lra. }
  assert (v - 1 <= trunc m <= v) as Hm.
  { destruct (Qlt_le_dec m (inject_Z v)) as [Hlt|Hge].
    - rewrite (trunc_between m (v - 1)); [lia| | |lia].
      + replace (v - 1) with (v + -1) by lia. rewrite inject_Z_plus. change (inject_Z (-1)) with (-1 # 1)%Q. lra.
      + by replace (v - 1 + 1) with v by lia.
    - rewrite (trunc_between m v); [lia|done| |lia]. rewrite inject_Z_plus.
      change (inject_Z 1) with 1%Q. lra. }
  exists (trunc m). split_and!; try lia; [done|..]; apply convert_Some; (split; [done|zlia]).
Qed.

(** One less does happen, and more than 2^32 milliseconds lose their
    fraction of a second. *)
Theorem milliseconds_lost :
  (t ← TimeSpan.fromMilliseconds 1001; TimeSpan.totalMilliseconds t) = Some 1000
  ∧ (t ← TimeSpan.fromMilliseconds (2 ^ 32); TimeSpan.totalMilliseconds t) = Some 4294967000.
Proof. split; vm_compute; reflexivity. Qed.
End time.
