(* ===== verification/Libc.v ===== *)
(** * Libc: the C string functions used on environment variables

    [strtok_r] with a one-character delimiter set, [atoi] and [strtoul], on
    strings given by their characters (without the terminator). *)

From S2P Require Import Prelude Memory BufferBase BufferParse.

Local Open Scope Z_scope.

(** ** strtok_r *)

(** All tokens that successive calls return: maximal runs of other
    characters, so that none is empty. *)
Fixpoint tokens_from (delim : byte) (acc : bytes) (l : bytes) : list bytes :=
  match l with
  | [] => match acc with [] => [] | _ => [acc] end
  | c :: l =>
      if bool_decide (c = delim)
      then match acc with [] => tokens_from delim [] l | _ => acc :: tokens_from delim [] l end
      else tokens_from delim (acc ++ [c]) l
  end.
Definition tokens (delim : byte) (l : bytes) : list bytes := tokens_from delim [] l.

(** ** Numbers *)

Fixpoint span (f : byte → bool) (l : bytes) : bytes * bytes :=
  match l with
  | c :: l' => if f c then let '(a, b) := span f l' in (c :: a, b) else ([], l)
  | [] => ([], [])
  end.

(** White space, an optional sign and digits: whether the sign is a minus, the
    digits and what follows. *)
Definition scan_int (l : bytes) : bool * bytes * bytes :=
  let l := (span isspace l).2 in
  let '(neg, l) := match l with
                   | c :: l' => if bool_decide (c = Byte.x2d) then (true, l')
                                else if bool_decide (c = Byte.x2b) then (false, l') else (false, l)
                   | [] => (false, [])
                   end in
  let '(ds, rest) := span isdigit l in (neg, ds, rest).

(** [atoi]; undefined ([None]) when the value is not an [int]. *)
Definition atoi (l : bytes) : option Z :=
  let '(neg, ds, _) := scan_int l in
  let v := if neg : bool then - dec_val ds else dec_val ds in
  if (INT_MIN <=? v) && (v <=? INT_MAX) then Some v else None.

Definition ULONG_MAX : Z := 2 ^ 64 - 1.
Definition ERANGE : Z := 34.

(** [strtoul(l, &end, 10)]: the value, [end] and the [errno] it sets (0 if
    none).  A minus sign negates modulo 2^64. *)
Definition strtoul (l : bytes) : Z * bytes * Z :=
  let '(neg, ds, rest) := scan_int l in
  match ds with
  | [] => (0, l, 0)
  | _ => if ULONG_MAX <? dec_val ds then (ULONG_MAX, rest, ERANGE)
         else (if neg : bool then wrapu 64 (- dec_val ds) else dec_val ds, rest, 0)
  end.

(** ** Lemmas *)
Section lemmas.
Implicit Types (l a ds : bytes) (c delim : byte).

Lemma tokens_from_run delim acc a l :
  delim ∉ a → tokens_from delim acc (a ++ l) = tokens_from delim (acc ++ a) l.
Proof.
  revert acc. induction a as [|c a IH]; intros acc Hn; simpl; [by rewrite app_nil_r|].
  apply not_elem_of_cons in Hn as [Hc Hn]. rewrite bool_decide_eq_false_2 by done.
  rewrite IH by done. by rewrite <- app_assoc.
Qed.

Lemma tokens_single delim a : delim ∉ a → a ≠ [] → tokens delim a = [a].
Proof.
  intros Hn Ha. unfold tokens. rewrite <- (app_nil_r a) at 1.
  rewrite tokens_from_run by done. by destruct a.
Qed.

Lemma tokens_cons delim a l :
  delim ∉ a → a ≠ [] → tokens delim (a ++ delim :: l) = a :: tokens delim l.
Proof.
  intros Hn Ha. unfold tokens. rewrite tokens_from_run by done. simpl.
  rewrite bool_decide_eq_true_2 by done. by destruct a.
Qed.

Lemma span_all (f : byte → bool) ds rest :
  Forall (λ c, f c = true) ds → match rest with c :: _ => f c = false | [] => True end →
  span f (ds ++ rest) = (ds, rest).
Proof.
  intros HF Hr. induction HF as [|c ds Hc HF IH]; simpl.
  - destruct rest as [|c rest]; [done|]. simpl. by rewrite Hr.
  - by rewrite Hc, IH.
Qed.

Lemma digit_not_space c : isdigit c = true → isspace c = false ∧ c ≠ Byte.x2d ∧ c ≠ Byte.x2b.
Proof. by destruct c. Qed.

(** Printed numbers are scanned back. *)
Lemma scan_digits ds : Forall (λ c, isdigit c = true) ds → ds ≠ [] → scan_int ds = (false, ds, []).
Proof.
  intros HF Hne. destruct ds as [|c ds]; [done|].
  destruct (digit_not_space c) as (Hs & Hm & Hp); [by inversion HF|].
  pose proof (span_all isdigit (c :: ds) [] HF I) as Hspan. rewrite app_nil_r in Hspan.
  unfold scan_int. assert (span isspace (c :: ds) = ([], c :: ds)) as ->
    by (simpl; by rewrite Hs).
  cbn [snd]. rewrite !bool_decide_eq_false_2 by done. by rewrite Hspan.
Qed.

Lemma atoi_fmt_d z : is_int z → atoi (fmt_d z) = Some z.
Proof.
  intros Hz. unfold fmt_d, atoi. destruct (Z.ltb_spec z 0).
  - destruct (fmt_u_spec (- z)) as (ds & -> & Hne & Hv & HF & _); [zlia|].
    assert (scan_int (Byte.x2d :: ds) = (true, ds, [])) as ->.
    { unfold scan_int. simpl. pose proof (span_all isdigit ds [] HF I) as Hspan.
      rewrite app_nil_r in Hspan. by rewrite Hspan. }
    rewrite Hv, Z.opp_involutive. by replace (_ && _) with true by zlia.
  - destruct (fmt_u_spec z) as (ds & -> & Hne & Hv & HF & _); [zlia|].
    rewrite scan_digits, Hv by done. by replace (_ && _) with true by zlia.
Qed.

Lemma strtoul_fmt_u z : 0 <= z <= ULONG_MAX → strtoul (fmt_u z) = (z, [], 0).
Proof.
  intros Hz. unfold ULONG_MAX in Hz. unfold strtoul.
  destruct (fmt_u_spec z) as (ds & -> & Hne & Hv & HF & _); [lia|].
  rewrite scan_digits, Hv by done. destruct ds; [done|].
  by replace (ULONG_MAX <? z) with false by (unfold ULONG_MAX; lia).
Qed.

Lemma fmt_d_chars z delim :
  - 2 ^ 63 <= z < 2 ^ 64 → isdigit delim = false → delim ≠ Byte.x2d →
  (delim ∉ fmt_d z) ∧ fmt_d z ≠ [].
Proof.
  intros Hz Hd Hm. unfold fmt_d.
  destruct (fmt_u_spec (Z.abs z)) as (ds & E & Hne & _ & HF & _); [lia|].
  assert (delim ∉ ds).
  { rewrite Forall_forall in HF. intros Hin%HF. congruence. }
  destruct (Z.ltb_spec z 0).
  - rewrite Z.abs_neq in E by lia. rewrite E. split; [|done]. by apply not_elem_of_cons.
  - rewrite Z.abs_eq in E by lia. by rewrite E.
Qed.
End lemmas.
