(* ===== verification/Dump.v ===== *)
(** * Dump: the hex dump of a buffer (lib/Buffer.cpp, [BufferBase::dump])

    The function fills a local array [line] through two cursors, [u] in its
    hexadecimal part and [v] in its plain part, and prints it line by line.
    [None] is undefined behaviour: a store outside of the array or printing
    a byte of it that was never written.  The lines are those of a direct
    specification, and a dump can be read back. *)

From S2P Require Import Prelude Memory BufferBase BufferParse MutableBuffer Libc.

Local Open Scope nat_scope.

Definition SPC : byte := Byte.x20.
Definition NL : byte := Byte.x0a.
Definition DOT : byte := Byte.x2e.

Module Dump.
Definition BLOCK_SIZE : nat := 8.
Definition BLOCK_COUNT : nat := 2.
Definition HEX_WIDTH : nat := (BLOCK_SIZE + 1) * 3 * BLOCK_COUNT.
Definition PLAIN_WIDTH : nat := BLOCK_SIZE * BLOCK_COUNT.
Definition LINE : nat := HEX_WIDTH + PLAIN_WIDTH + 1.

Definition hex : bytes := bs "0123456789ABCDEF".

(** The array with the bytes written so far, the cursors and the bytes at [p]
    that are still to be printed. *)
Record state : Type := mkState { line : list (option byte); u : nat; v : nat; todo : bytes }.

(** [*u++ = c;] and [*v++ = c;] *)
Definition put_u (c : byte) (s : state) : option state :=
  if decide (u s < length (line s))
  then Some (mkState (<[u s := Some c]> (line s)) (S (u s)) (v s) (todo s)) else None.
Definition put_v (c : byte) (s : state) : option state :=
  if decide (v s < length (line s))
  then Some (mkState (<[v s := Some c]> (line s)) (u s) (S (v s)) (todo s)) else None.

Definition put3 (s : state) : option state :=
  s ← put_u SPC s; s ← put_u SPC s; put_u SPC s.
Fixpoint pad (n : nat) (s : state) : option state :=
  match n with 0 => Some s | S n => s ← put3 s; pad n s end.

(** The body of the innermost loop, for the byte [c] at [p]. *)
Definition byte_step (c : byte) (s : state) : option state :=
  h ← hex !! Z.to_nat (Z.land (Z.shiftr (schar c) 4) 15);
  s ← put_u h s;
  l ← hex !! Z.to_nat (Z.land (schar c) 15);
  s ← put_u l s;
  s ← put_u SPC s;
  s ← put_v (if isprint c then c else DOT) s;
  Some (mkState (line s) (u s) (v s) (tail (todo s))).

(** [for (; i < BLOCK_SIZE && length > 0; ++i)], with [n] rounds to go; what is
    left of them. *)
Fixpoint block_loop (n : nat) (s : state) : option (nat * state) :=
  match n with
  | 0 => Some (0, s)
  | S n' => match todo s with
            | [] => Some (n, s)
            | c :: _ => s ← byte_step c s; block_loop n' s
            end
  end.

Definition block (s : state) : option state :=
  '(n, s) ← block_loop BLOCK_SIZE s;
  s ← pad n s;
  put3 s.

(** [for (; blockNr < BLOCK_COUNT && length > 0; ++blockNr)] *)
Fixpoint blocks (n : nat) (s : state) : option (nat * state) :=
  match n with
  | 0 => Some (0, s)
  | S n' => match todo s with
            | [] => Some (n, s)
            | _ :: _ => s ← block s; blocks n' s
            end
  end.

(** The second loop over the blocks, which are empty. *)
Fixpoint empty_blocks (n : nat) (s : state) : option state :=
  match n with
  | 0 => Some s
  | S n => s ← pad BLOCK_SIZE s; s ← put3 s; empty_blocks n s
  end.

(** [printf("%s\n", line)] *)
Fixpoint c_string (l : list (option byte)) : option bytes :=
  match l with
  | Some c :: l => if bool_decide (c = NUL) then Some [] else s ← c_string l; Some (c :: s)
  | _ => None
  end.

(** One round of [while (length > 0)]: what it prints, and the bytes left. *)
Definition dump_line (l : bytes) : option (bytes * bytes) :=
  '(n, s) ← blocks BLOCK_COUNT (mkState (replicate LINE None) 0 HEX_WIDTH l);
  s ← empty_blocks n s;
  s ← put_v NUL s;       (* the cursor is not used again *)
  t ← c_string (line s);
  Some (t ++ [NL], todo s).

Fixpoint dump_loop (fuel : nat) (l : bytes) : option bytes :=
  match l, fuel with
  | [], _ => Some []
  | _, 0 => None
  | _, S fuel => '(t, l) ← dump_line l; r ← dump_loop fuel l; Some (t ++ r)
  end.

(** What is printed in front; [description] is [None] for a null pointer. *)
Definition title (description : option bytes) (n : nat) : bytes :=
  match description with
  | Some (c :: d) => (c :: d) ++ bs " (" ++ fmt_u (Z.of_nat n) ++ bs " bytes):"
  | _ => bs "Memory dump (" ++ fmt_u (Z.of_nat n) ++ bs " bytes):"
  end.
Definition header (description : option bytes) (n : nat) : bytes := title description n ++ [NL].

(** [dump(bytes, length, description)]: the text on the standard output. *)
Definition dump_bytes (l : bytes) (description : option bytes) : option bytes :=
  r ← dump_loop (length l) l; Some (header description (length l) ++ r).

(** [dump(description)] of a buffer *)
Definition dump (b : BufferRef) (description : option bytes) : MM bytes :=
  l ← read_range (data_ b) (size_ b); of_option (dump_bytes l description).
End Dump.
Import Dump.

(** ** The text that a dump should be *)

Definition hex_digit (n : Z) : byte := nth (Z.to_nat n) hex NUL.
Definition spec_byte (c : byte) : bytes := [hex_digit (uchar c / 16); hex_digit (uchar c mod 16); SPC].
Definition spec_plain (c : byte) : byte := if isprint c then c else DOT.

(** Eight columns of two digits, empty ones being blank, and a gap. *)
Definition spec_hex (c : bytes) : bytes :=
  concat (spec_byte <$> c) ++ replicate (3 * (BLOCK_SIZE - length c)) SPC.
Definition spec_block (c : bytes) : bytes := spec_hex c ++ replicate 3 SPC.
Definition spec_line (c : bytes) : bytes :=
  spec_block (take 8 c) ++ spec_block (take 8 (drop 8 c)) ++ (spec_plain <$> c).

(** Sixteen bytes a line. *)
Fixpoint spec_dump (fuel : nat) (l : bytes) : bytes :=
  match l, fuel with
  | [], _ | _, 0 => []
  | _, S fuel => spec_line (take 16 l) ++ [NL] ++ spec_dump fuel (drop 16 l)
  end.

(** Arithmetic with the widths and the lengths unfolded. *)
Ltac dlia := unfold LINE, HEX_WIDTH, PLAIN_WIDTH, BLOCK_SIZE, BLOCK_COUNT in *; cbn [length] in *; lia.

Section dump.
Implicit Types (s : state) (l H P : bytes) (c : byte).

(** [H] has been written to the left part, [P] to the right one. *)
Record filled (H P : bytes) (s : state) : Prop := {
  f_line : ∃ r1 r2, line s = (Some <$> H) ++ r1 ++ (Some <$> P) ++ r2
                    ∧ length H + length r1 = HEX_WIDTH ∧ length P + length r2 = PLAIN_WIDTH + 1;
  f_u : u s = length H;
  f_v : v s = HEX_WIDTH + length P;
}.

Lemma put_u_ok H P s c :
  filled H P s → length H < HEX_WIDTH →
  ∃ s', put_u c s = Some s' ∧ filled (H ++ [c]) P s' ∧ todo s' = todo s.
Proof.
  intros [(r1 & r2 & El & L1 & L2) Eu Ev] Hlt. unfold put_u.
  destruct r1 as [|x r1]; [dlia|].
  rewrite decide_True by (rewrite El, !length_app, !length_fmap; dlia).
  eexists. split; [done|]. split; [|done]. split; simpl.
  - exists r1, r2. rewrite El, Eu. rewrite insert_app_r_alt by (rewrite length_fmap; dlia).
    rewrite length_fmap, Nat.sub_diag. simpl. rewrite fmap_app, <- app_assoc. simpl.
    rewrite length_app. split; [done|]. dlia.
  - rewrite length_app. dlia.
  - done.
Qed.

Lemma put_v_ok H P s c :
  filled H P s → length P <= PLAIN_WIDTH →
  ∃ s', put_v c s = Some s' ∧ todo s' = todo s
    ∧ (length P < PLAIN_WIDTH → filled H (P ++ [c]) s')
    ∧ ∃ r1 r2, line s' = (Some <$> H) ++ r1 ++ (Some <$> P ++ [c]) ++ r2
               ∧ length H + length r1 = HEX_WIDTH.
Proof.
  intros [(r1 & r2 & El & L1 & L2) Eu Ev] Hlt. unfold put_v.
  destruct r2 as [|x r2]; [dlia|].
  rewrite decide_True by (rewrite El, Ev, !length_app, !length_fmap; dlia).
  eexists. split; [done|]. split; [done|].
  assert (<[v s := Some c]> (line s) = (Some <$> H) ++ r1 ++ (Some <$> P ++ [c]) ++ r2) as El'.
  { rewrite El, Ev, insert_app_r_alt by (rewrite length_fmap; dlia).
    rewrite insert_app_r_alt by (rewrite length_fmap; dlia).
    rewrite insert_app_r_alt by (rewrite !length_fmap; dlia).
    rewrite !length_fmap. replace (_ - _ - _ - _) with 0 by dlia. simpl.
    by rewrite fmap_app, <- (app_assoc (Some <$> P)). }
  simpl. split.
  - intros Hl. split; simpl; [|done|rewrite length_app; dlia].
    exists r1, r2. rewrite El'. split; [done|]. rewrite length_app. dlia.
  - exists r1, r2. by rewrite El'.
Qed.

(** What a piece of code appends to the two parts and takes from the input. *)
Definition writes (f : state → option state) (s : state) H P (h p rest : bytes) : Prop :=
  ∃ s', f s = Some s' ∧ filled (H ++ h) (P ++ p) s' ∧ todo s' = rest.

Lemma put3_writes H P s :
  filled H P s → length H + 3 <= HEX_WIDTH → writes put3 s H P (replicate 3 SPC) [] (todo s).
Proof.
  intros Hf Hl. unfold writes, put3. rewrite app_nil_r.
  destruct (put_u_ok H P s SPC) as (s1 & -> & F1 & <-); [done|dlia|]. simpl.
  destruct (put_u_ok _ P s1 SPC F1) as (s2 & -> & F2 & <-); [rewrite length_app; dlia|]. simpl.
  destruct (put_u_ok _ P s2 SPC F2) as (s3 & -> & F3 & <-); [rewrite !length_app; dlia|].
  exists s3. split; [done|]. split; [|done]. by rewrite <- !app_assoc in F3.
Qed.

Lemma pad_writes n H P s :
  filled H P s → length H + 3 * n <= HEX_WIDTH →
  writes (pad n) s H P (replicate (3 * n) SPC) [] (todo s).
Proof.
  revert H s. induction n as [|n IH]; intros H s Hf Hl.
  - exists s. by rewrite !app_nil_r.
  - destruct (put3_writes H P s) as (s1 & E1 & F1 & T1); [done|dlia|]. rewrite app_nil_r in F1.
    destruct (IH (H ++ replicate 3 SPC) s1) as (s2 & E2 & F2 & T2); [done|rewrite length_app, length_replicate; dlia|].
    exists s2. cbn [pad]. rewrite E1. cbn [mbind option_bind]. split; [done|]. split; [|congruence].
    rewrite <- app_assoc, <- replicate_add in F2. by replace (3 * S n) with (3 + 3 * n) by lia.
Qed.

Lemma hex_digits c :
  hex !! Z.to_nat (Z.land (Z.shiftr (schar c) 4) 15) = Some (hex_digit (uchar c / 16))
  ∧ hex !! Z.to_nat (Z.land (schar c) 15) = Some (hex_digit (uchar c mod 16)).
Proof. by destruct c. Qed.

Lemma length_spec_bytes l : length (concat (spec_byte <$> l)) = 3 * length l.
Proof.
  induction l as [|c l IH]; [done|]. rewrite fmap_cons, concat_cons, length_app, IH.
  unfold spec_byte. dlia.
Qed.

Lemma length_spec_block l : length l <= 8 → length (spec_block l) = 27.
Proof.
  intros Hl. unfold spec_block, spec_hex.
  rewrite !length_app, length_spec_bytes, !length_replicate. dlia.
Qed.

Lemma byte_step_writes c l H P s :
  filled H P s → todo s = c :: l → length H + 3 <= HEX_WIDTH → length P < PLAIN_WIDTH →
  writes (byte_step c) s H P (spec_byte c) [spec_plain c] l.
Proof.
  intros Hf Ht Hl Hp. unfold writes, byte_step. destruct (hex_digits c) as [-> ->]. cbn [mbind option_bind].
  destruct (put_u_ok H P s (hex_digit (uchar c / 16))) as (s1 & -> & F1 & T1); [done|dlia|].
  cbn [mbind option_bind].
  destruct (put_u_ok _ P s1 (hex_digit (uchar c mod 16)) F1) as (s2 & -> & F2 & T2);
    [rewrite length_app; dlia|]. cbn [mbind option_bind].
  destruct (put_u_ok _ P s2 SPC F2) as (s3 & -> & F3 & T3); [rewrite !length_app; dlia|].
  cbn [mbind option_bind].
  destruct (put_v_ok _ P s3 (spec_plain c) F3) as (s4 & E4 & T4 & F4 & _); [dlia|].
  unfold spec_plain in E4. rewrite E4. cbn [mbind option_bind]. eexists. split; [done|]. simpl. split.
  - destruct (F4 Hp) as [Hline Hu Hv]. rewrite <- !app_assoc in Hline, Hu. by split.
  - rewrite T4, T3, T2, T1, Ht. done.
Qed.

Lemma block_loop_writes n l H P s :
  filled H P s → todo s = l → length H + 3 * n <= HEX_WIDTH → length P + n <= PLAIN_WIDTH →
  ∃ s', block_loop n s = Some (n - length l, s')
    ∧ filled (H ++ concat (spec_byte <$> take n l)) (P ++ (spec_plain <$> take n l)) s'
    ∧ todo s' = drop n l.
Proof.
  revert l H P s. induction n as [|n IH]; intros l H P s Hf Ht Hl Hp.
  - exists s. by rewrite !app_nil_r.
  - destruct l as [|c l]; cbn [block_loop].
    { rewrite Ht. exists s. simpl. by rewrite !app_nil_r. }
    rewrite Ht. destruct (byte_step_writes c l H P s) as (s1 & E1 & F1 & T1); [done|done|dlia|dlia|].
    rewrite E1. cbn [mbind option_bind].
    destruct (IH l _ _ s1 F1 T1) as (s2 & E2 & F2 & T2); [rewrite length_app; unfold spec_byte; dlia..|].
    exists s2. split; [done|]. split; [|done]. by rewrite <- !app_assoc in F2.
Qed.

Lemma block_writes l H P s :
  filled H P s → todo s = l → length H + 27 <= HEX_WIDTH → length P + 8 <= PLAIN_WIDTH →
  writes block s H P (spec_block (take 8 l)) (spec_plain <$> take 8 l) (drop 8 l).
Proof.
  intros Hf Ht Hl Hp. unfold writes, block.
  destruct (block_loop_writes BLOCK_SIZE l H P s) as (s1 & E1 & F1 & T1); [done|done|dlia|dlia|].
  assert (length (concat (spec_byte <$> take BLOCK_SIZE l)) = 3 * min 8 (length l)) as Hc.
  { rewrite length_spec_bytes, length_take. dlia. }
  rewrite E1. cbn [mbind option_bind].
  destruct (pad_writes (BLOCK_SIZE - length l) _ _ s1 F1) as (s2 & E2 & F2 & T2).
  { rewrite length_app, Hc. dlia. }
  rewrite E2. cbn [mbind option_bind]. rewrite app_nil_r in F2.
  destruct (put3_writes _ _ s2 F2) as (s3 & E3 & F3 & T3).
  { rewrite !length_app, Hc, length_replicate. dlia. }
  exists s3. split; [done|]. rewrite app_nil_r in F3. split; [|by rewrite T3, T2, T1].
  unfold spec_block, spec_hex. rewrite length_take. rewrite <- !app_assoc in *.
  by replace (BLOCK_SIZE - min 8 (length l)) with (BLOCK_SIZE - length l) by dlia.
Qed.

Lemma empty_block_writes H P s :
  filled H P s → length H + 27 <= HEX_WIDTH →
  writes (empty_blocks 1) s H P (spec_block []) [] (todo s).
Proof.
  intros Hf Hl. unfold writes. cbn [empty_blocks].
  destruct (pad_writes BLOCK_SIZE H P s Hf) as (s1 & -> & F1 & T1); [dlia|]. cbn [mbind option_bind].
  rewrite app_nil_r in F1. destruct (put3_writes _ _ s1 F1) as (s2 & -> & F2 & T2).
  { rewrite length_app, length_replicate. dlia. }
  exists s2. split; [done|]. split; [|congruence]. by rewrite <- app_assoc in F2.
Qed.

(** The two loops over the blocks fill the line. *)
Lemma blocks_write l s :
  l ≠ [] → filled [] [] s → todo s = l →
  ∃ s', ('(n, s) ← blocks BLOCK_COUNT s; empty_blocks n s) = Some s'
    ∧ filled (spec_block (take 8 l) ++ spec_block (take 8 (drop 8 l))) (spec_plain <$> take 16 l) s'
    ∧ todo s' = drop 16 l.
Proof.
  intros Hl Hf Ht. assert (length (spec_block (take 8 l)) = 27) as H27.
  { apply length_spec_block. rewrite length_take. lia. }
  assert (take 16 l = take 8 l ++ take 8 (drop 8 l)) as ->.
  { rewrite take_take_drop. done. }
  destruct (block_writes l [] [] s Hf Ht) as (s1 & E1 & F1 & T1); [dlia..|]. simpl app in F1.
  unfold BLOCK_COUNT. cbn [blocks]. rewrite Ht. destruct l as [|x l]; [done|]. cbn [mbind option_bind].
  rewrite E1. cbn [mbind option_bind]. rewrite T1. destruct (drop 8 (x :: l)) as [|y r] eqn:Ed.
  - cbn [mbind option_bind]. destruct (empty_block_writes _ _ s1 F1) as (s2 & -> & F2 & T2); [dlia|].
    exists s2. split; [done|]. rewrite take_nil, fmap_app. split; [done|].
    rewrite T2, T1. change 16 with (8 + 8). by rewrite <- drop_drop, Ed.
  - destruct (block_writes (y :: r) _ _ s1 F1 T1) as (s2 & -> & F2 & T2).
    { dlia. }
    { rewrite length_fmap, length_take. dlia. }
    cbn [mbind option_bind]. exists s2. split; [done|]. rewrite fmap_app. split; [done|].
    rewrite T2. change 16 with (8 + 8). by rewrite <- drop_drop, Ed.
Qed.

(** Neither part has a terminator or a line break. *)
Definition visible (b : byte) : Prop := isprint b = true.

Lemma spec_block_visible l : Forall visible (spec_block l).
Proof.
  unfold spec_block, spec_hex. rewrite !Forall_app. split; [split|];
    [|by apply Forall_replicate..].
  apply Forall_concat, Forall_fmap, Forall_true. intros c. unfold spec_byte, compose.
  repeat constructor; by destruct c.
Qed.

Lemma spec_plain_visible l : Forall visible (spec_plain <$> l).
Proof.
  apply Forall_fmap, Forall_true. intros c. unfold compose, spec_plain, visible.
  by destruct (isprint c) eqn:E.
Qed.

Lemma spec_line_visible l : Forall visible (spec_line l).
Proof.
  unfold spec_line. rewrite !Forall_app.
  split_and!; [apply spec_block_visible..|apply spec_plain_visible].
Qed.

Lemma c_string_ok l r : Forall visible l → c_string ((Some <$> l) ++ Some NUL :: r) = Some l.
Proof.
  induction 1 as [|c l Hc Hl IH]; [done|]. rewrite fmap_cons. cbn [app c_string].
  rewrite IH, bool_decide_eq_false_2; [done|]. by intros ->.
Qed.

Lemma dump_line_ok l : l ≠ [] → dump_line l = Some (spec_line (take 16 l) ++ [NL], drop 16 l).
Proof.
  intros Hl. unfold dump_line. set (s0 := mkState _ _ _ _).
  assert (filled [] [] s0) as F0.
  { split; [|done|done]. by exists (replicate HEX_WIDTH None), (replicate (PLAIN_WIDTH + 1) None). }
  destruct (blocks_write l s0 Hl F0 eq_refl) as (s1 & E1 & F1 & T1).
  destruct (blocks BLOCK_COUNT s0) as [[n s]|]; [|done]. cbn [mbind option_bind] in *. rewrite E1.
  cbn [mbind option_bind].
  destruct (put_v_ok _ _ s1 NUL F1) as (s2 & -> & T2 & _ & r1 & r2 & El & L1).
  { rewrite length_fmap, length_take. dlia. }
  cbn [mbind option_bind]. rewrite !length_app, !length_spec_block in L1
    by (rewrite ?length_take; lia).
  destruct r1; [|dlia]. cbn [app] in El.
  assert (line s2 = (Some <$> spec_line (take 16 l)) ++ Some NUL :: r2) as ->.
  { rewrite El. unfold spec_line. rewrite take_take, (take_drop_commute l 8 8), !fmap_app.
    rewrite (take_ge (drop 8 (take 16 l))) by (rewrite length_drop, length_take; lia).
    by rewrite <- !app_assoc. }
  rewrite c_string_ok by apply spec_line_visible. cbn [mbind option_bind]. by rewrite T2, T1.
Qed.

Lemma dump_loop_ok fuel l : length l <= fuel → dump_loop fuel l = Some (spec_dump fuel l).
Proof.
  revert l. induction fuel as [|fuel IH]; intros [|c l] Hl; try done; [simpl in Hl; lia|].
  cbn [dump_loop spec_dump]. rewrite dump_line_ok by done. cbn [mbind option_bind].
  rewrite IH by (rewrite length_drop; cbn [length] in *; lia). cbn [mbind option_bind].
  by rewrite <- app_assoc.
Qed.

(** ** Reading a dump back *)

(** The bytes of one block: two digits and a blank each, up to a blank. *)
Fixpoint unhex (l : bytes) : bytes :=
  match l with
  | a :: b :: _ :: l =>
      if bool_decide (a = SPC) then []
      else byte_of_Z (16 * BufferBase.hex_digit a + BufferBase.hex_digit b) :: unhex l
  | _ => []
  end.
Definition undump_line (l : bytes) : bytes := unhex (take 27 l) ++ unhex (drop 27 l).
Definition undump (out : bytes) : bytes := concat (undump_line <$> tail (tokens NL out)).

Lemma unhex_bytes l k r : unhex (concat (spec_byte <$> l) ++ replicate (k + 3) SPC ++ r) = l.
Proof.
  induction l as [|c l IH].
  - rewrite Nat.add_comm. done.
  - rewrite fmap_cons, concat_cons, <- app_assoc. unfold spec_byte at 1. cbn [app unhex].
    rewrite IH, bool_decide_eq_false_2 by (by destruct c). f_equal. by destruct c.
Qed.

Lemma unhex_block l r : unhex (spec_block l ++ r) = l.
Proof.
  unfold spec_block, spec_hex. rewrite <- !app_assoc, (app_assoc (replicate _ _)), <- replicate_add.
  apply unhex_bytes.
Qed.

Lemma undump_line_ok l : length l <= 16 → undump_line (spec_line l) = l.
Proof.
  intros Hl. unfold undump_line, spec_line.
  assert (length (spec_block (take 8 l)) = 27) as H27
    by (apply length_spec_block; rewrite length_take; lia).
  rewrite take_app_length', drop_app_length' by done. rewrite unhex_block.
  rewrite <- (app_nil_r (spec_block (take 8 l))), unhex_block.
  rewrite (take_ge (drop 8 l)) by (rewrite length_drop; lia). apply take_drop.
Qed.

Lemma visible_no_NL l : Forall visible l → NL ∉ l.
Proof. intros Hl Hin. rewrite Forall_forall in Hl. by apply Hl in Hin. Qed.

Lemma undump_loop fuel l :
  length l <= fuel → concat (undump_line <$> tokens NL (spec_dump fuel l)) = l.
Proof.
  revert l. induction fuel as [|fuel IH]; intros [|c l] Hl; try done; [simpl in Hl; lia|].
  cbn [spec_dump app]. rewrite tokens_cons.
  - rewrite fmap_cons, concat_cons, IH by (rewrite length_drop; cbn [length] in *; lia).
    rewrite undump_line_ok by (rewrite length_take; lia). apply take_drop.
  - apply visible_no_NL, spec_line_visible.
  - unfold spec_line. simpl take at 1. done.
Qed.

Lemma title_line desc n :
  (∀ d, desc = Some d → NL ∉ d) → (Z.of_nat n <= ADDR_SPACE)%Z →
  (NL ∉ title desc n) ∧ title desc n ≠ [].
Proof.
  intros Hd Hn. destruct (fmt_u_spec (Z.of_nat n)) as (ds & E & _ & _ & HF & _); [zlia|].
  assert (NL ∉ ds). { rewrite Forall_forall in HF. by intros Hin%HF. }
  unfold title. rewrite E. destruct desc as [[|c d]|]; (split; [|done]);
    rewrite !not_elem_of_app; split_and!; try done; try (by apply (bool_decide_unpack _)).
  by apply Hd.
Qed.

(** The text of a dump. *)
Definition spec_text (desc : option bytes) l : bytes := header desc (length l) ++ spec_dump (length l) l.

Lemma dump_ok m b l desc :
  view m b l → Dump.dump b desc m = Ok (spec_text desc l, m).
Proof.
  intros [Hm Hs]. unfold Dump.dump. erewrite bind_Ok by (by eapply read_range_ok).
  unfold dump_bytes. by rewrite dump_loop_ok.
Qed.

(** [dump()] never writes outside of its line array or prints a byte of it
    that was not written, and prints the title and one line for each sixteen
    bytes: two groups of eight hexadecimal bytes, padded with blanks, and the
    bytes that can be printed. *)
Theorem dump_correct m b l desc :
  view m b l → Dump.dump b desc m = Ok (spec_text desc l, m).
Proof. apply dump_ok. Qed.

(** C30: a dump can be read back: the hexadecimal columns of the printed text
    are the bytes of the buffer. *)
Theorem dump_roundtrip m b l desc :
  mem_wf m → view m b l → (∀ d, desc = Some d → NL ∉ d) →
  ∃ out, Dump.dump b desc m = Ok (out, m) ∧ undump out = l.
Proof.
  intros Hwf Hv Hd. exists (spec_text desc l). split; [by apply dump_ok|].
  destruct (title_line desc (length l) Hd) as [Ht Hne]; [by eapply mem_at_length, Hv|].
  unfold undump, spec_text, header. rewrite <- app_assoc. cbn [app].
  rewrite tokens_cons by done. by apply undump_loop.
Qed.
End dump.
