(* ===== verification/Kernel.v ===== *)
(** * Kernel: file descriptors, byte channels and errno

    The operating system is a parameter: the class [Kernel] has the system
    calls that libxio uses to move bytes, [KernelLaws] what their manual pages
    promise.  A descriptor reads from and writes to a channel, a queue of
    bytes: the two ends of a pipe share one, a socket has one per direction.
    What a call that fails or that moves fewer bytes than asked for does is up
    to the kernel.  A program state ([world]) is the memory, the kernel's state
    and [errno]. *)

From S2P Require Import Prelude Memory.

Local Open Scope Z_scope.

(** ** Constants (x86-64 Linux) *)

Definition EINVAL : Z := 22.
Definition ENOMEM : Z := 12.
Definition EAGAIN : Z := 11.
Definition ENOTSUP : Z := 95.
Definition EINPROGRESS : Z := 115.
Definition O_NONBLOCK : Z := 2048.    (* 0x00000800 *)
Definition O_CLOEXEC : Z := 524288.   (* 0x00080000 *)

(** ** System calls *)

(** The result of a system call: an error number or a value. *)
Abbreviation sysres A := (Z + A)%type.

Class Kernel : Type := {
  kst : Type;
  chan : Type;
  chan_eq_dec :: EqDecision chan;
  (** the channels that a descriptor reads from and writes to *)
  rd_chan : kst → Z → option chan;
  wr_chan : kst → Z → option chan;
  content : kst → chan → bytes;
  sys_read : Z → Z → kst → sysres bytes * kst;
  sys_write : Z → bytes → kst → sysres Z * kst;
  sys_splice : Z → Z → Z → kst → sysres Z * kst;
  sys_tee : Z → Z → Z → kst → sysres Z * kst;
  sys_sendfile : Z → Z → Z → kst → sysres Z * kst;
  sys_pipe2 : Z → kst → sysres (Z * Z) * kst;
  sys_close : Z → kst → sysres () * kst;
}.

Section laws.
Context `{Kernel}.
Implicit Types (k : kst) (c : chan).

(** [k'] has the descriptors of [k] and the contents [f]. *)
Definition transfer k k' (f : chan → bytes) : Prop :=
  (∀ c, content k' c = f c)
  ∧ (∀ fd, rd_chan k' fd = rd_chan k fd) ∧ (∀ fd, wr_chan k' fd = wr_chan k fd).

Definition upd (f : chan → bytes) c l : chan → bytes :=
  λ c', if decide (c' = c) then l else f c'.

(** From [k] to [k'] the bytes [d] were taken out of [c]; were added to it;
    went from one channel to another. *)
Definition took k k' c (d : bytes) : Prop :=
  ∃ rest, content k c = d ++ rest ∧ transfer k k' (upd (content k) c rest).
Definition put k k' c (d : bytes) : Prop :=
  transfer k k' (upd (content k) c (content k c ++ d)).
Definition moved k k' ci co (d : bytes) : Prop :=
  ci ≠ co ∧ ∃ rest, content k ci = d ++ rest
    ∧ transfer k k' (upd (upd (content k) ci rest) co (content k co ++ d)).

(** What pipe(7), read(2), write(2), splice(2), sendfile(2) and tee(2)
    document; the channel of an open file is what follows its offset. *)
Class KernelLaws : Prop := {
  (** F_SETPIPE_SZ: a queue inside of the machine has at most 2^31 bytes *)
  pipe_capacity k r w c : rd_chan k r = Some c → wr_chan k w = Some c →
    Z.of_nat (length (content k c)) <= 2 ^ 31;
  read_err k fd n e k' : sys_read fd n k = (inl e, k') → transfer k k' (content k);
  read_ok k fd n d k' : sys_read fd n k = (inr d, k') →
    ∃ c, rd_chan k fd = Some c ∧ Z.of_nat (length d) <= n ∧ took k k' c d;
  write_err k fd d e k' : sys_write fd d k = (inl e, k') → transfer k k' (content k);
  write_ok k fd d n k' : sys_write fd d k = (inr n, k') →
    ∃ c, wr_chan k fd = Some c ∧ 0 <= n <= Z.of_nat (length d)
      ∧ put k k' c (take (Z.to_nat n) d);
  splice_err k i o n e k' : sys_splice i o n k = (inl e, k') → transfer k k' (content k);
  splice_ok k i o n r k' : sys_splice i o n k = (inr r, k') →
    ∃ ci co d, rd_chan k i = Some ci ∧ wr_chan k o = Some co
      ∧ r = Z.of_nat (length d) ∧ r <= n ∧ moved k k' ci co d;
  sendfile_err k o i n e k' : sys_sendfile o i n k = (inl e, k') → transfer k k' (content k);
  sendfile_ok k o i n r k' : sys_sendfile o i n k = (inr r, k') →
    ∃ ci co d, rd_chan k i = Some ci ∧ wr_chan k o = Some co
      ∧ r = Z.of_nat (length d) ∧ r <= n ∧ moved k k' ci co d;
  tee_err k i o n e k' : sys_tee i o n k = (inl e, k') → transfer k k' (content k);
  tee_ok k i o n r k' : sys_tee i o n k = (inr r, k') →
    ∃ ci co d, rd_chan k i = Some ci ∧ wr_chan k o = Some co ∧ ci ≠ co
      ∧ r = Z.of_nat (length d) ∧ r <= n ∧ d `prefix_of` content k ci ∧ put k k' co d;
  pipe2_err k flags e k' : sys_pipe2 flags k = (inl e, k') → 0 < e ∧ transfer k k' (content k);
  (** two new descriptors on a new, empty channel *)
  pipe2_ok k flags r w k' : sys_pipe2 flags k = (inr (r, w), k') →
    0 <= r ∧ 0 <= w ∧ r ≠ w ∧ ∃ c, rd_chan k' r = Some c ∧ wr_chan k' w = Some c
      ∧ content k' c = [] ∧ (∀ c', c' ≠ c → content k' c' = content k c')
      ∧ rd_chan k r = None ∧ wr_chan k r = None ∧ rd_chan k w = None ∧ wr_chan k w = None
      ∧ (∀ fd, rd_chan k fd ≠ Some c) ∧ (∀ fd, wr_chan k fd ≠ Some c)
      ∧ (∀ fd, fd ≠ r → rd_chan k' fd = rd_chan k fd)
      ∧ (∀ fd, fd ≠ w → wr_chan k' fd = wr_chan k fd);
  close_ok k fd k' : sys_close fd k = (inr (), k') →
    (∀ c, content k' c = content k c) ∧ rd_chan k' fd = None ∧ wr_chan k' fd = None
    ∧ (∀ fd', fd' ≠ fd → rd_chan k' fd' = rd_chan k fd' ∧ wr_chan k' fd' = wr_chan k fd');
}.
End laws.

Arguments KernelLaws : clear implicits.

(** ** Program states *)

Record world `{Kernel} : Type := World { wmem : memory; wkern : kst; werrno : Z }.
Arguments World {_} _ _ _.
Abbreviation WW := (ST world).

Section world.
Context `{Kernel}.
Implicit Types (w : world).

Definition set_mem (f : memory → memory) w : world := World (f (wmem w)) (wkern w) (werrno w).

(** Code that only uses the memory. *)
Definition lift {A} (c : MM A) : WW A := λ w,
  match c (wmem w) with
  | Ok (a, m') => Ok (a, World m' (wkern w) (werrno w))
  | Abort => Abort
  | UB => UB
  | NoFuel => NoFuel
  end.

Definition set_errno (e : Z) : WW () := λ w, Ok ((), World (wmem w) (wkern w) e).
Definition get_errno : WW Z := λ w, Ok (werrno w, w).

(** A system call: -1 and [errno], or the value. *)
Definition syscall {A} (f : kst → sysres A * kst) : WW (option A) := λ w,
  match f (wkern w) with
  | (inl e, k) => Ok (None, World (wmem w) k e)
  | (inr a, k) => Ok (Some a, World (wmem w) k (werrno w))
  end.

Definition ret_size (r : option Z) : Z := match r with Some n => n | None => -1 end.

(** [read(fd, buf, n)] into a local array: the bytes read. *)
Definition read_local (fd n : Z) : WW (option bytes) := syscall (sys_read fd n).

(** [read(fd, buf, n)] *)
Definition read (fd : Z) (buf : ptr) (n : Z) : WW Z :=
  r ← read_local fd n;
  match r with
  | None => mret (-1)
  | Some d => lift (write_range buf d);; mret (Z.of_nat (length d))
  end.

(** [write(fd, text, n)] of a local array or a literal with the bytes [d]. *)
Definition write_local (fd : Z) (d : bytes) : WW Z :=
  r ← syscall (sys_write fd d); mret (ret_size r).

(** [write(fd, buf, n)] *)
Definition write (fd : Z) (buf : ptr) (n : Z) : WW Z :=
  d ← lift (read_range buf n); write_local fd d.

Definition splice (i o n : Z) : WW Z := r ← syscall (sys_splice i o n); mret (ret_size r).
Definition tee (i o n : Z) : WW Z := r ← syscall (sys_tee i o n); mret (ret_size r).
Definition sendfile (o i n : Z) : WW Z := r ← syscall (sys_sendfile o i n); mret (ret_size r).
Definition close (fd : Z) : WW Z :=
  r ← syscall (sys_close fd); mret match r with Some _ => 0 | None => -1 end.

Lemma wp_lift {A} (c : MM A) (Q : A → world → Prop) w :
  wp c (λ a m', Q a (World m' (wkern w) (werrno w))) (wmem w) → wp (lift c) Q w.
Proof. unfold wp, lift. by destruct (c (wmem w)) as [[??]| | |]. Qed.

Lemma wp_set_errno e (Q : () → world → Prop) w :
  Q () (World (wmem w) (wkern w) e) → wp (set_errno e) Q w.
Proof. done. Qed.
End world.

(** The contents of a channel after a transfer. *)
Lemma transfer_content `{Kernel} k k' f c : transfer k k' f → content k' c = f c.
Proof. by intros [Hc _]. Qed.
Lemma transfer_rd `{Kernel} k k' f fd : transfer k k' f → rd_chan k' fd = rd_chan k fd.
Proof. by intros (_ & Hr & _). Qed.
Lemma transfer_wr `{Kernel} k k' f fd : transfer k k' f → wr_chan k' fd = wr_chan k fd.
Proof. by intros (_ & _ & Hw). Qed.

Lemma upd_eq `{Kernel} (f : chan → bytes) c l : upd f c l c = l.
Proof. unfold upd. by rewrite decide_True. Qed.
Lemma upd_ne `{Kernel} (f : chan → bytes) c c' l : c' ≠ c → upd f c l c' = f c'.
Proof. intros. unfold upd. by rewrite decide_False. Qed.

Create Rewrite HintDb kernel.
#[export] Hint Rewrite @upd_eq : kernel.
#[export] Hint Rewrite @upd_ne using done : kernel.

Section transfers.
Context `{Kernel}.
Implicit Types (k : kst) (c : chan) (d : bytes).

Lemma took_nil k k' c : transfer k k' (content k) → took k k' c [].
Proof.
  intros (Hc & Hr & Hw). exists (content k c). split; [done|]. split; [|done].
  intros c'. rewrite Hc. unfold upd. by case_decide; subst.
Qed.

Lemma took_nil_inv k k' c : took k k' c [] → transfer k k' (content k).
Proof.
  intros (r & Hd & Hc & Hr & Hw). split; [|done]. intros c'. rewrite Hc.
  unfold upd. case_decide; subst; [by rewrite Hd|done].
Qed.

Lemma took_refl k c : took k k c [].
Proof. by apply took_nil. Qed.

Lemma took_trans k k1 k2 c d1 d2 : took k k1 c d1 → took k1 k2 c d2 → took k k2 c (d1 ++ d2).
Proof.
  intros (r1 & Hd1 & Hc1 & Hr1 & Hw1) (r2 & Hd2 & Hc2 & Hr2 & Hw2). exists r2. split.
  - rewrite Hd1, <- app_assoc, <- Hd2, Hc1. by autorewrite with kernel.
  - split; [|split; intros; by rewrite ?Hr2, ?Hw2].
    intros c'. rewrite Hc2. unfold upd at 1. case_decide; subst; [by rewrite upd_eq|].
    by rewrite Hc1, !upd_ne.
Qed.

Lemma took_content k k' c d : took k k' c d → content k c = d ++ content k' c.
Proof. intros (r & -> & Hc & _). by rewrite Hc, upd_eq. Qed.
Lemma put_content k k' c d : put k k' c d → content k' c = content k c ++ d.
Proof. intros (Hc & _). by rewrite Hc, upd_eq. Qed.
Lemma put_nil k k' c : transfer k k' (content k) → put k k' c [].
Proof.
  intros (Hc & Hr & Hw). split; [|done]. intros c'. rewrite Hc, app_nil_r.
  unfold upd. by case_decide; subst.
Qed.
Lemma moved_nil k k' ci co : ci ≠ co → transfer k k' (content k) → moved k k' ci co [].
Proof.
  intros Hne (Hc & Hr & Hw). split; [done|]. exists (content k ci). split; [done|]. split; [|done].
  intros c. rewrite Hc, app_nil_r. unfold upd. by repeat case_decide; subst.
Qed.
Lemma moved_other k k' ci co d c :
  moved k k' ci co d → c ≠ ci → c ≠ co → content k' c = content k c.
Proof. intros (_ & r & _ & Hc & _) ? ?. by rewrite Hc, !upd_ne. Qed.
Lemma took_other k k' c d c' : took k k' c d → c' ≠ c → content k' c' = content k c'.
Proof. intros (r & _ & Hc & _) ?. by rewrite Hc, upd_ne. Qed.
Lemma put_other k k' c d c' : put k k' c d → c' ≠ c → content k' c' = content k c'.
Proof. intros (Hc & _) ?. by rewrite Hc, upd_ne. Qed.
Lemma moved_content k k' ci co d :
  moved k k' ci co d →
  content k ci = d ++ content k' ci ∧ content k' co = content k co ++ d.
Proof.
  intros (Hne & r & -> & Hc & _). rewrite !Hc, upd_eq. by rewrite upd_ne, upd_eq.
Qed.
End transfers.

(** ** Specifications of the system calls *)
Section syscalls.
Context `{KL : !KernelLaws K}.
Implicit Types (w : world) (Q : Z → world → Prop).

Lemma wp_read_local fd n (Q : option bytes → world → Prop) w :
  (∀ k' e, transfer (wkern w) k' (content (wkern w)) → Q None (World (wmem w) k' e)) →
  (∀ d c k', rd_chan (wkern w) fd = Some c → Z.of_nat (length d) <= n →
     took (wkern w) k' c d → Q (Some d) (World (wmem w) k' (werrno w))) →
  wp (read_local fd n) Q w.
Proof.
  intros Herr Hok. unfold read_local, syscall, wp.
  destruct (sys_read fd n (wkern w)) as [[e|d] k'] eqn:E.
  - by apply Herr, (read_err _ _ _ _ _ E).
  - destruct (read_ok _ _ _ _ _ E) as (c & ? & ? & ?). by eapply Hok.
Qed.

Lemma wp_write_local fd d Q w :
  (∀ k' e, transfer (wkern w) k' (content (wkern w)) → Q (-1) (World (wmem w) k' e)) →
  (∀ r c k', wr_chan (wkern w) fd = Some c → 0 <= r <= Z.of_nat (length d) →
     put (wkern w) k' c (take (Z.to_nat r) d) → Q r (World (wmem w) k' (werrno w))) →
  wp (write_local fd d) Q w.
Proof.
  intros Herr Hok. unfold write_local. wp_step. unfold syscall, wp. simpl.
  destruct (sys_write fd d (wkern w)) as [[e|r] k'] eqn:E.
  - by apply Herr, (write_err _ _ _ _ _ E).
  - destruct (write_ok _ _ _ _ _ E) as (c & ? & ? & ?). by eapply Hok.
Qed.

Lemma wp_write fd buf d n Q w :
  mem_at (wmem w) buf d → n = Z.of_nat (length d) →
  (∀ k' e, transfer (wkern w) k' (content (wkern w)) → Q (-1) (World (wmem w) k' e)) →
  (∀ r c k', wr_chan (wkern w) fd = Some c → 0 <= r <= n →
     put (wkern w) k' c (take (Z.to_nat r) d) → Q r (World (wmem w) k' (werrno w))) →
  wp (write fd buf n) Q w.
Proof.
  intros Hbuf -> Herr Hok. unfold write. wp_step. apply wp_lift.
  eapply wp_Ok; [by apply read_range_ok|]. by apply wp_write_local.
Qed.

Lemma wp_splice i o n Q w :
  (∀ k' e, transfer (wkern w) k' (content (wkern w)) → Q (-1) (World (wmem w) k' e)) →
  (∀ ci co d k', rd_chan (wkern w) i = Some ci → wr_chan (wkern w) o = Some co →
     Z.of_nat (length d) <= n → moved (wkern w) k' ci co d →
     Q (Z.of_nat (length d)) (World (wmem w) k' (werrno w))) →
  wp (splice i o n) Q w.
Proof.
  intros Herr Hok. unfold splice. wp_step. unfold syscall, wp.
  destruct (sys_splice i o n (wkern w)) as [[e|r] k'] eqn:E; simpl.
  - by apply Herr, (splice_err _ _ _ _ _ _ E).
  - destruct (splice_ok _ _ _ _ _ _ E) as (ci & co & d & ? & ? & -> & ? & ?). by eapply Hok.
Qed.

Lemma wp_sendfile o i n Q w :
  (∀ k' e, transfer (wkern w) k' (content (wkern w)) → Q (-1) (World (wmem w) k' e)) →
  (∀ ci co d k', rd_chan (wkern w) i = Some ci → wr_chan (wkern w) o = Some co →
     Z.of_nat (length d) <= n → moved (wkern w) k' ci co d →
     Q (Z.of_nat (length d)) (World (wmem w) k' (werrno w))) →
  wp (sendfile o i n) Q w.
Proof.
  intros Herr Hok. unfold sendfile. wp_step. unfold syscall, wp.
  destruct (sys_sendfile o i n (wkern w)) as [[e|r] k'] eqn:E; simpl.
  - by apply Herr, (sendfile_err _ _ _ _ _ _ E).
  - destruct (sendfile_ok _ _ _ _ _ _ E) as (ci & co & d & ? & ? & -> & ? & ?). by eapply Hok.
Qed.

Lemma wp_tee i o n Q w :
  (∀ k' e, transfer (wkern w) k' (content (wkern w)) → Q (-1) (World (wmem w) k' e)) →
  (∀ ci co d k', rd_chan (wkern w) i = Some ci → wr_chan (wkern w) o = Some co →
     Z.of_nat (length d) <= n → ci ≠ co → d `prefix_of` content (wkern w) ci →
     put (wkern w) k' co d → Q (Z.of_nat (length d)) (World (wmem w) k' (werrno w))) →
  wp (tee i o n) Q w.
Proof.
  intros Herr Hok. unfold tee. wp_step. unfold syscall, wp.
  destruct (sys_tee i o n (wkern w)) as [[e|r] k'] eqn:E; simpl.
  - by apply Herr, (tee_err _ _ _ _ _ _ E).
  - destruct (tee_ok _ _ _ _ _ _ E) as (ci & co & d & ? & ? & ? & -> & ? & ? & ?).
    by eapply Hok.
Qed.
End syscalls.
