(* ===== verification/Os.v ===== *)
(** * Os: system calls on sockets and descriptors as a dialogue

    The socket and server code asks the operating system questions and acts on
    the answers.  The class [OS] answers a call after any history of calls and
    answers, so that a theorem about all instances is one about every behaviour
    of the system; what a theorem relies on is a hypothesis on the answers.
    The state records the dialogue, [errno] and the environment. *)

From S2P Require Import Prelude Memory BufferBase BufferParse Libc.
From S2P Require Import Kernel.

Local Open Scope Z_scope.

(** ** Calls and replies *)

Inductive call : Type :=
| Getpid
| Fstat (fd : Z)                        (* reply: st_mode, the inode, st_size *)
| Stat (path : bytes)
| Lstat (path : bytes)
| Getfd (fd : Z)                        (* fcntl(fd, F_GETFD) *)
| Setfd (fd flags : Z)                  (* fcntl(fd, F_SETFD, flags) *)
| Getfl (fd : Z)                        (* fcntl(fd, F_GETFL) *)
| Setfl (fd flags : Z)                  (* fcntl(fd, F_SETFL, flags) *)
| Getsockopt (fd level option : Z)      (* reply: the value and its bytes *)
| Setsockopt (fd level option value : Z)
| Getsockname (fd : Z)                  (* reply: the address *)
| SocketCall (family type protocol : Z)
| Connect (fd : Z) (addr : bytes)
| Bind (fd : Z) (addr : bytes)
| Listen (fd backlog : Z)
| Accept (fd : Z)
| Close (fd : Z)
| Chmod (path : bytes) (mode : Z)
| Unlink (path : bytes)
| MqGetattr (fd : Z)
| Sendmsg (fd : Z) (name iov : bytes) (flags : Z)
| OpenFile (path : bytes) (flags : Z)
| InotifyInit (flags : Z)
| InotifyAddWatch (fd : Z) (path : bytes) (mask : Z)
| InotifyRmWatch (fd wd : Z)
| ReadBytes (fd count : Z).             (* reply: the bytes read *)

(** What a successful call returns, the bytes that it stores and, for the
    stat calls, [st_dev] and [st_ino], and [st_size]. *)
Record reply : Type := Reply { rval : Z; rdata : bytes; rinode : Z * Z; rsize : Z }.
Definition ok (n : Z) : reply := Reply n [] (0, 0) 0.

Abbreviation event := (call * sysres reply)%type.

Class OS : Type := answer : list event → call → sysres reply.

Record os_state : Type := Os {
  history : list event;         (* the latest one first *)
  oerrno : Z;
  environ : gmap string bytes;
}.

Abbreviation OM := (ST os_state).

Section os.
Context {os : OS}.

(** A call: its reply, or [None] for -1 with [errno] set. *)
Definition invoke (c : call) : OM (option reply) := λ s,
  let a := answer (history s) c in
  match a with
  | inl e => Ok (None, Os ((c, a) :: history s) e (environ s))
  | inr r => Ok (Some r, Os ((c, a) :: history s) (oerrno s) (environ s))
  end.

(** A call that returns a non-negative number, or -1. *)
Definition invoke_int (c : call) : OM Z :=
  r ← invoke c; mret match r with Some r => rval r | None => -1 end.

Definition get_oerrno : OM Z := gets oerrno.
Definition set_oerrno (e : Z) : OM () := modify (λ s, Os (history s) e (environ s)).

Definition getenv (name : string) : OM (option bytes) := gets (λ s, environ s !! name).
Definition unsetenv (name : string) : OM () :=
  modify (λ s, Os (history s) (oerrno s) (delete name (environ s))).

(** Code that depends on the state but makes no call. *)
Definition lift_option {A} (o : option A) : OM A := of_option o.
End os.

(** ** Constants (x86-64 Linux) *)

Definition AF_UNIX : Z := 1.
Definition AF_INET : Z := 2.
Definition AF_INET6 : Z := 10.
Definition SOCK_STREAM : Z := 1.
Definition SOCK_DGRAM : Z := 2.
Definition SOCK_NONBLOCK : Z := 2048.
Definition SOCK_CLOEXEC : Z := 524288.
Definition IPPROTO_TCP : Z := 6.
Definition FD_CLOEXEC : Z := 1.
Definition SOL_SOCKET : Z := 1.
Definition SO_REUSEADDR : Z := 2.
Definition SO_TYPE : Z := 3.
Definition SO_ERROR : Z := 4.
Definition SO_REUSEPORT : Z := 15.
Definition SO_ACCEPTCONN : Z := 30.
Definition SOL_TCP : Z := 6.
Definition TCP_QUICKACK : Z := 12.
Definition S_IFMT : Z := 61440.    (* 0170000 *)
Definition S_IFSOCK : Z := 49152.  (* 0140000 *)
Definition S_IFIFO : Z := 4096.    (* 0010000 *)
Definition ENOTSOCK : Z := 88.
Definition ENAMETOOLONG : Z := 36.
Definition EINTR : Z := 4.
Definition ENOENT : Z := 2.
Definition ENOTDIR : Z := 20.
Definition MSG_NOSIGNAL : Z := 16384.
Definition PATH_MAX : Z := 4096.

Definition S_ISSOCK (mode : Z) : bool := Z.land mode S_IFMT =? S_IFSOCK.

Definition S_ISFIFO (mode : Z) : bool := Z.land mode S_IFMT =? S_IFIFO.

(** [flags & bit] as a condition. *)
Definition has (flags bit : Z) : bool := negb (Z.land flags bit =? 0).

(** ** Reasoning *)

(** The calls made since [s]. *)
Definition since (s s' : os_state) (new : list event) : Prop := history s' = new ++ history s.

Section os_rules.
Context {os : OS}.

Lemma wp_invoke c (Q : option reply → os_state → Prop) s :
  (∀ e, answer (history s) c = inl e →
     Q None (Os ((c, inl e) :: history s) e (environ s))) →
  (∀ r, answer (history s) c = inr r →
     Q (Some r) (Os ((c, inr r) :: history s) (oerrno s) (environ s))) →
  wp (invoke c) Q s.
Proof.
  intros He Hr. unfold invoke, wp. destruct (answer (history s) c) eqn:E; auto.
Qed.

Lemma wp_invoke_int c (Q : Z → os_state → Prop) s :
  (∀ e, answer (history s) c = inl e →
     Q (-1) (Os ((c, inl e) :: history s) e (environ s))) →
  (∀ r, answer (history s) c = inr r →
     Q (rval r) (Os ((c, inr r) :: history s) (oerrno s) (environ s))) →
  wp (invoke_int c) Q s.
Proof. intros He Hr. unfold invoke_int. wp_step. apply wp_invoke; intros; wp_step; auto. Qed.

Lemma wp_invoke_int_any c (Q : Z → os_state → Prop) s :
  (∀ z ev errno, Q z (Os (ev :: history s) errno (environ s))) → wp (invoke_int c) Q s.
Proof. intros HQ. apply wp_invoke_int; auto. Qed.
End os_rules.

(** [wp_step] that also knows the accesses to [errno] and the environment. *)
Ltac os_step :=
  lazymatch goal with
  | |- wp get_oerrno _ _ => apply wp_gets
  | |- wp (set_oerrno _) _ _ => apply wp_modify
  | |- wp (getenv _) _ _ => apply wp_gets
  | |- wp (unsetenv _) _ _ => apply wp_modify
  | _ => wp_step
  end.
