(* ===== verification/Address.v ===== *)
(** * Addresses (include/xio/IPAddress.h, lib/IPAddress.cpp, include/xio/SocketSpec.h)

    IP addresses and socket specifications, their equality and hashing.  The
    libc functions [inet_pton] and [inet_ntop] are parameters. *)

From S2P Require Import Prelude Memory BufferBase BufferParse Libc Kernel Os.

Local Open Scope Z_scope.

(** [inet_pton(af, text, buf)]: its return value and, if positive, the bytes it
    stores; [inet_ntop(af, buf)]: the text for one of the two families that it
    supports, for which the caller's array is large enough. *)
Class InetText : Type := {
  inet_pton : Z → bytes → Z * bytes;
  inet_ntop : Z → bytes → bytes;
}.

Record IPAddress : Type := mkIP { family_ : Z; buf_ : bytes }.

Module IPAddress.
Section ops.
Context {T : InetText}.

Definition V4 : Z := AF_INET.
Definition V6 : Z := AF_INET6.

Definition new : IPAddress := mkIP 0 (replicate 16 NUL).

(** [set(text, family)] *)
Definition set (a : IPAddress) (text : bytes) (family : Z) : bool * IPAddress :=
  let '(rv, d) := inet_pton family text in
  if rv <=? 0 then (false, mkIP family (buf_ a))
  else (true, mkIP family (write_at (buf_ a) 0 d)).

Definition family_of (text : bytes) : Z :=
  if bool_decide (Byte.x3a ∈ text) then AF_INET6 else AF_INET.

(** [IPAddress(text, family)]; [junk] is what the array holds before. *)
Definition new_text (junk : bytes) (text : bytes) (family : Z) : IPAddress :=
  (set (mkIP 0 junk) text (if negb (family =? 0) then family else family_of text)).2.

(** [operator=(const std::string&)] *)
Definition assign_text (a : IPAddress) (text : bytes) : IPAddress :=
  (set a text (family_of text)).2.

Definition family (a : IPAddress) : Z := family_ a.
Definition size (a : IPAddress) : Z := if family_ a =? V4 then 4 else 16.

(** [operator=(const IPAddress&)] *)
Definition assign (a v : IPAddress) : IPAddress :=
  mkIP (family_ v) (write_at (buf_ a) 0 (take (Z.to_nat (size v)) (buf_ v))).

(** [operator!()] and [operator bool()] *)
Definition is_unset (a : IPAddress) : bool := family_ a =? 0.
Definition is_set (a : IPAddress) : bool := (family_ a =? V4) || (family_ a =? V6).

(** [str()]: for another family [inet_ntop] fails and leaves the local array as
    it is, and the string is made from indeterminate characters. *)
Definition str (a : IPAddress) : option bytes :=
  if (family_ a =? AF_INET) || (family_ a =? AF_INET6)
  then Some (inet_ntop (family_ a) (buf_ a)) else None.

(** [operator==]; [same] tells whether the two are one object. *)
Definition equal (same : bool) (a b : IPAddress) : bool :=
  if same then true
  else if negb (family_ a =? family_ b) then false
  else if (family_ a =? AF_INET) || (family_ a =? AF_INET6)
  then bool_decide (take (Z.to_nat (size a)) (buf_ a) = take (Z.to_nat (size a)) (buf_ b))
  else false.

(** [std::hash<IPAddress>]: the first four bytes as a little-endian word. *)
Definition hash (a : IPAddress) : Z :=
  fold_right (λ c v, uchar c + 256 * v) 0 (take 4 (buf_ a)).
End ops.
End IPAddress.

Module SocketSpec.
Inductive Type_ := Unknown | Local | Inet.

Record SocketSpec : Type := mkSpec {
  type_ : Type_;
  ipaddr_ : IPAddress;
  local_ : bytes;
  port_ : Z;
  backlog_ : Z;
  multiAcceptCount_ : Z;
  reusePort_ : bool;
}.

(** [SocketSpec(ipaddr, port, backlog, maccept, reusePort)] *)
Definition new_inet (a : IPAddress) (port backlog maccept : Z) (reusePort : bool) : SocketSpec :=
  mkSpec Inet a [] port backlog maccept reusePort.

Definition isValid (s : SocketSpec) : bool := match type_ s with Unknown => false | _ => true end.
Definition isLocal (s : SocketSpec) : bool := match type_ s with Local => true | _ => false end.
Definition isInet (s : SocketSpec) : bool := match type_ s with Inet => true | _ => false end.

(** [operator==]; [same] tells whether the two addresses are one object. *)
Definition equal (same : bool) (a b : SocketSpec) : bool :=
  match type_ a, type_ b with
  | Local, Local => bool_decide (local_ a = local_ b)
  | Inet, Inet => (port_ a =? port_ b) && IPAddress.equal same (ipaddr_ a) (ipaddr_ b)
  | _, _ => false
  end.

(** [operator!=] *)
Definition not_equal (same : bool) (a b : SocketSpec) : bool := negb (equal same a b).

Definition type_number (t : Type_) : Z := match t with Unknown => 0 | Local => 1 | Inet => 2 end.

(** [std::hash<SocketSpec>]; [hash<size_t>] and [hash<string>] are the
    standard library's. *)
Definition hash (hash_size : Z → Z) (hash_string : bytes → Z) (s : SocketSpec) : Z :=
  match type_ s with
  | Inet => Z.lxor (hash_size (type_number (type_ s))) (IPAddress.hash (ipaddr_ s))
  | Local => Z.lxor (hash_size (type_number (type_ s))) (hash_string (local_ s))
  | Unknown => 0
  end.
End SocketSpec.

Section addresses.
Implicit Types (a b c : IPAddress) (s t : SocketSpec.SocketSpec).

(** Addresses as the class builds them. *)
Definition valid_ip a : Prop := IPAddress.is_set a = true ∧ length (buf_ a) = 16%nat.

Definition ip_value a : Z * bytes := (family_ a, take (Z.to_nat (IPAddress.size a)) (buf_ a)).

Lemma ip_equal_value a b :
  IPAddress.is_set a = true → IPAddress.equal false a b = bool_decide (ip_value a = ip_value b).
Proof.
  unfold IPAddress.is_set, IPAddress.equal, ip_value, IPAddress.V4, IPAddress.V6. intros ->.
  destruct (Z.eqb_spec (family_ a) (family_ b)) as [E|E]; cbn [negb].
  - unfold IPAddress.size. rewrite E. apply bool_decide_ext. split; [by intros ->|by intros [=]].
  - rewrite bool_decide_eq_false_2; [done|]. by intros [=].
Qed.

Lemma ip_hash_value a b : valid_ip a → ip_value a = ip_value b → IPAddress.hash a = IPAddress.hash b.
Proof.
  intros [Hs Hl] [= Hf Hb]. unfold IPAddress.hash. f_equal.
  unfold IPAddress.size in Hb. rewrite <- Hf in Hb.
  destruct (family_ a =? IPAddress.V4); [done|].
  apply (f_equal (take 4)) in Hb. rewrite !take_take in Hb. done.
Qed.

(** C40: on valid addresses [operator==] is an equivalence, assignment gives an
    equal address whatever the target held before, and equal addresses have
    equal hashes, as hash tables require. *)
Theorem ip_equal_hash a b c :
  valid_ip a → valid_ip b → valid_ip c →
  IPAddress.equal false a a = true
  ∧ IPAddress.equal false a b = IPAddress.equal false b a
  ∧ (IPAddress.equal false a b = true → IPAddress.equal false b c = true →
     IPAddress.equal false a c = true)
  ∧ IPAddress.equal false (IPAddress.assign a b) b = true
  ∧ (IPAddress.equal false a b = true → IPAddress.hash a = IPAddress.hash b).
Proof.
  intros Ha Hb Hc. destruct (Ha) as [Sa La], (Hb) as [Sb Lb].
  assert (Hass : IPAddress.is_set (IPAddress.assign a b) = true) by exact Sb.
  rewrite !ip_equal_value by done. split; [by apply bool_decide_eq_true_2|].
  split; [by apply bool_decide_ext; split|]. split; [|split].
  - intros ?%bool_decide_eq_true_1 ?%bool_decide_eq_true_1. apply bool_decide_eq_true_2. congruence.
  - apply bool_decide_eq_true_2. unfold ip_value. simpl. f_equal.
    change (IPAddress.size (IPAddress.assign a b)) with (IPAddress.size b).
    unfold write_at. simpl. rewrite take_app_length'; [done|]. rewrite length_take.
    unfold IPAddress.size. destruct (_ =? _); lia.
  - intros E%bool_decide_eq_true_1. by apply ip_hash_value.
Qed.

(** Equal socket specifications have equal hashes, and a valid one equals
    itself (an [Unknown] one does not). *)
Theorem spec_equal_hash hs hstr s t :
  valid_ip (SocketSpec.ipaddr_ s) →
  (SocketSpec.equal false s t = true →
   SocketSpec.hash hs hstr s = SocketSpec.hash hs hstr t)
  ∧ SocketSpec.equal false s s = SocketSpec.isValid s.
Proof.
  intros Hv. pose proof Hv as [Hs _]. unfold SocketSpec.equal, SocketSpec.hash, SocketSpec.isValid.
  split.
  - destruct (SocketSpec.type_ s), (SocketSpec.type_ t); try done.
    + by intros ->%bool_decide_eq_true_1.
    + rewrite ip_equal_value by done. intros [_ E%bool_decide_eq_true_1]%andb_true_iff.
      f_equal. by apply ip_hash_value.
  - destruct (SocketSpec.type_ s); [done|by apply bool_decide_eq_true_2|].
    rewrite Z.eqb_refl, ip_equal_value by done. by apply bool_decide_eq_true_2.
Qed.
End addresses.
