(* ===== verification/SdDaemon.v ===== *)
(** * SdDaemon (support/sd-daemon/sd-daemon.c)

    Socket activation: the descriptors that systemd passes, and the tests for
    what a descriptor is. *)

From S2P Require Import Prelude Memory BufferBase BufferParse Libc Kernel Os.

Local Open Scope Z_scope.

Definition SD_LISTEN_FDS_START : Z := 3.

Module SdDaemon.
Section ops.
Context {os : OS}.

(** [errno = 0; l = strtoul(e, &p, 10);] *)
Definition parse_ulong (e : bytes) : OM (Z * bytes * Z) :=
  set_oerrno 0;;
  let '(l, p, err) := strtoul e in
  (if err =? 0 then mret () else set_oerrno err);;
  mret (l, p, err).

(** The loop over the descriptors: [None] when it is through, [Some r] when
    it goes to [finish] with [r]. *)
Fixpoint set_cloexec_loop (n : nat) (fd : Z) : OM (option Z) :=
  match n with
  | O => mret None
  | S n =>
      r ← invoke (Getfd fd);
      match r with
      | None => e ← get_oerrno; mret (Some (- e))
      | Some r =>
          let flags := rval r in
          if has flags FD_CLOEXEC then set_cloexec_loop n (fd + 1)
          else
            r ← invoke (Setfd fd (Z.lor flags FD_CLOEXEC));
            match r with
            | None => e ← get_oerrno; mret (Some (- e))
            | Some _ => set_cloexec_loop n (fd + 1)
            end
      end
  end.

(** The part of [sd_listen_fds] before [finish]. *)
Definition listen_fds_body : OM Z :=
  e ← getenv "LISTEN_PID";
  match e with
  | None => mret 0
  | Some e =>
      '(l, p, err) ← parse_ulong e;
      if negb (err =? 0) then mret (- err)
      else if negb (bool_decide (p = [])) || (l <=? 0) then mret (- EINVAL)
      else
        pid ← invoke_int Getpid;
        if negb (pid =? s32 l) then mret 0
        else
          e ← getenv "LISTEN_FDS";
          match e with
          | None => mret 0
          | Some e =>
              '(l, p, err) ← parse_ulong e;
              if negb (err =? 0) then mret (- err)
              else if negb (bool_decide (p = [])) then mret (- EINVAL)
              else if INT_MAX <? SD_LISTEN_FDS_START + s32 l then ub
              else
                r ← set_cloexec_loop (Z.to_nat (s32 l)) SD_LISTEN_FDS_START;
                mret match r with Some r => r | None => s32 l end
          end
  end.

Definition sd_listen_fds (unset_environment : bool) : OM Z :=
  r ← listen_fds_body;
  (if unset_environment then unsetenv "LISTEN_PID";; unsetenv "LISTEN_FDS" else mret ());;
  mret r.

(** [getsockopt] of an [int] option: [inl] is the value to return. *)
Definition int_option (fd option : Z) : OM (Z + Z) :=
  r ← invoke (Getsockopt fd SOL_SOCKET option);
  match r with
  | None => e ← get_oerrno; mret (inl (- e))
  | Some r => if negb (Z.of_nat (length (rdata r)) =? 4) then mret (inl (- EINVAL))
              else mret (inr (rval r))
  end.

Definition sd_is_socket_internal (fd type listening : Z) : OM Z :=
  if (fd <? 0) || (type <? 0) then mret (- EINVAL)
  else
    r ← invoke (Fstat fd);
    match r with
    | None => e ← get_oerrno; mret (- e)
    | Some st =>
        if negb (S_ISSOCK (rval st)) then mret 0
        else
          t ← (if negb (type =? 0) then
                 o ← int_option fd SO_TYPE;
                 mret match o with
                      | inl r => Some r
                      | inr other => if negb (other =? type) then Some 0 else None
                      end
               else mret None);
          match t with
          | Some r => mret r
          | None =>
              if 0 <=? listening then
                o ← int_option fd SO_ACCEPTCONN;
                mret match o with
                     | inl r => r
                     | inr accepting =>
                         if negb (Bool.eqb (accepting =? 0) (listening =? 0)) then 0 else 1
                     end
              else mret 1
          end
    end.

(** [sa_family] and, in network byte order, the port of a socket address. *)
Definition sa_family (addr : bytes) : Z :=
  match addr with a :: b :: _ => uchar a + 256 * uchar b | _ => 0 end.
Definition sa_port (addr : bytes) : Z :=
  match drop 2 addr with a :: b :: _ => 256 * uchar a + uchar b | _ => 0 end.

(** [getsockname]: the address, or the value to return. *)
Definition sock_name (fd : Z) : OM (Z + bytes) :=
  r ← invoke (Getsockname fd);
  match r with
  | None => e ← get_oerrno; mret (inl (- e))
  | Some r => if Z.of_nat (length (rdata r)) <? 2 then mret (inl (- EINVAL))
              else mret (inr (rdata r))
  end.

Definition b2z (b : bool) : Z := if b then 1 else 0.

Definition sd_is_socket (fd family type listening : Z) : OM Z :=
  if family <? 0 then mret (- EINVAL)
  else
    r ← sd_is_socket_internal fd type listening;
    if r <=? 0 then mret r
    else if 0 <? family then
      a ← sock_name fd;
      mret match a with inl r => r | inr a => b2z (sa_family a =? family) end
    else mret 1.

Definition sd_is_socket_inet (fd family type listening port : Z) : OM Z :=
  if negb (family =? 0) && negb (family =? AF_INET) && negb (family =? AF_INET6)
  then mret (- EINVAL)
  else
    r ← sd_is_socket_internal fd type listening;
    if r <=? 0 then mret r
    else
      a ← sock_name fd;
      mret match a with
           | inl r => r
           | inr a =>
               let f := sa_family a in
               let l := Z.of_nat (length a) in
               if negb (f =? AF_INET) && negb (f =? AF_INET6) then 0
               else if (0 <? family) && negb (f =? family) then 0
               else if 0 <? port then
                 if f =? AF_INET then
                   if l <? 16 then - EINVAL else b2z (port =? sa_port a)
                 else
                   if l <? 28 then - EINVAL else b2z (port =? sa_port a)
               else 1
           end.

(** [memcmp(path, sun_path, n) == 0], where both arrays must have [n] bytes. *)
Definition same_bytes (n : Z) (x y : bytes) : OM bool :=
  if (Z.of_nat (length x) <? n) || (Z.of_nat (length y) <? n) then ub
  else mret (bool_decide (take (Z.to_nat n) x = take (Z.to_nat n) y)).

(** [path] is [None] for a null pointer; [sun_path] starts at offset 2 of the
    address, which is a zeroed union of 128 bytes. *)
Definition sd_is_socket_unix (fd type listening : Z) (path : option bytes) (length_ : Z) : OM Z :=
  r ← sd_is_socket_internal fd type listening;
  if r <=? 0 then mret r
  else
    a ← sock_name fd;
    match a with
    | inl r => mret r
    | inr a =>
        let l := Z.of_nat (length a) in
        let sun_path := drop 2 (a ++ replicate (128 - length a) NUL) in
        if negb (sa_family a =? AF_UNIX) then mret 0
        else match path with
        | None => mret 1
        | Some path =>
            let n := if length_ <=? 0 then Z.of_nat (length path) else length_ in
            let cstr := path ++ [NUL] in
            if n <=? 0 then mret (b2z (l =? 2))
            else if negb (bool_decide (head cstr = Some NUL)) then
              if 2 + n + 1 <=? l then b2z <$> same_bytes (n + 1) cstr sun_path else mret 0
            else
              if l =? 2 + n then b2z <$> same_bytes n cstr sun_path else mret 0
        end
    end.
(** [fstat]: the mode and the inode, or the value to return. *)
Definition stat_fd (fd : Z) : OM (Z + reply) :=
  r ← invoke (Fstat fd);
  match r with None => e ← get_oerrno; mret (inl (- e)) | Some st => mret (inr st) end.

Definition sd_is_fifo (fd : Z) (path : option bytes) : OM Z :=
  if fd <? 0 then mret (- EINVAL)
  else
    r ← stat_fd fd;
    match r with
    | inl r => mret r
    | inr st_fd =>
        if negb (S_ISFIFO (rval st_fd)) then mret 0
        else match path with
        | None => mret 1
        | Some path =>
            r ← invoke (Stat path);
            match r with
            | None => e ← get_oerrno;
                mret (if (e =? ENOENT) || (e =? ENOTDIR) then 0 else - e)
            | Some st_path => mret (b2z (bool_decide (rinode st_path = rinode st_fd)))
            end
        end
    end.

(** [strncpy(stpcpy(fpath, "/dev/mqueue"), path, sizeof(fpath) - 12)] with the
    last byte of [fpath] set to 0: the path is cut to 4084 characters. *)
Definition mq_path (path : bytes) : bytes :=
  bs "/dev/mqueue" ++ take (Z.to_nat (PATH_MAX - 12)) path.

Definition sd_is_mq (fd : Z) (path : option bytes) : OM Z :=
  if fd <? 0 then mret (- EINVAL)
  else
    r ← invoke (MqGetattr fd);
    match r with
    | None => e ← get_oerrno; mret (- e)
    | Some _ =>
        match path with
        | None => mret 1
        | Some path =>
            if negb (bool_decide (head (path ++ [NUL]) = Some Byte.x2f)) then mret (- EINVAL)
            else
              r ← stat_fd fd;
              match r with
              | inl r => mret r
              | inr a =>
                  r ← invoke (Stat (mq_path path));
                  match r with
                  | None => e ← get_oerrno; mret (- e)
                  | Some b => mret (b2z (bool_decide (rinode a = rinode b)))
                  end
              end
        end
    end.

(** The [sockaddr_un] for [NOTIFY_SOCKET]: [sun_path] has 108 bytes, a leading
    '@' stands for a NUL, and [msg_namelen] counts the bytes of [e] but not
    more than the structure has. *)
Definition notify_name (e : bytes) : bytes :=
  let sun_path := take 108 (e ++ replicate (108 - length e) NUL) in
  let sun_path := match sun_path with
                  | c :: p => (if bool_decide (c = Byte.x40) then NUL else c) :: p
                  | [] => []
                  end in
  let sockaddr := byte_of_Z AF_UNIX :: NUL :: sun_path in
  let msg_namelen := u32 (2 + Z.of_nat (length e)) in
  take (Z.to_nat (if 110 <? msg_namelen then 110 else msg_namelen)) sockaddr.

(** The code after [finish]. *)
Definition notify_finish (unset_environment : bool) (fd r : Z) : OM Z :=
  (if unset_environment then unsetenv "NOTIFY_SOCKET" else mret ());;
  (if 0 <=? fd then invoke (Close fd);; mret () else mret ());;
  mret r.

(** An abstract socket or an absolute path, and not only its first character. *)
Definition notify_valid (e : bytes) : bool :=
  match e with
  | c :: _ :: _ => bool_decide (c = Byte.x40) || bool_decide (c = Byte.x2f)
  | _ => false
  end.

Definition sd_notify (unset_environment : bool) (state : option bytes) : OM Z :=
  match state with
  | None => notify_finish unset_environment (-1) (- EINVAL)
  | Some state =>
      e ← getenv "NOTIFY_SOCKET";
      match e with
      | None => mret 0
      | Some e =>
          if negb (notify_valid e) then notify_finish unset_environment (-1) (- EINVAL)
          else
            fd ← invoke_int (SocketCall AF_UNIX (Z.lor SOCK_DGRAM SOCK_CLOEXEC) 0);
            if fd <? 0 then
              err ← get_oerrno; notify_finish unset_environment fd (- err)
            else
              r ← invoke_int (Sendmsg fd (notify_name e) state MSG_NOSIGNAL);
              if r <? 0 then
                err ← get_oerrno; notify_finish unset_environment fd (- err)
              else notify_finish unset_environment fd 1
      end
  end.

(** [p] is what [vasprintf] allocates and returns: [None] when it fails. *)
Definition sd_notifyf (unset_environment : bool) (p : option bytes) : OM Z :=
  match p with
  | None => mret (- ENOMEM)
  | Some p => sd_notify unset_environment (Some p)
  end.

Definition sd_booted : OM Z :=
  r ← invoke (Lstat (bs "/sys/fs/cgroup"));
  match r with
  | None => mret 0
  | Some a =>
      r ← invoke (Lstat (bs "/sys/fs/cgroup/systemd"));
      mret match r with None => 0 | Some b => b2z (negb ((rinode a).1 =? (rinode b).1)) end
  end.
End ops.
End SdDaemon.

Section listen_fds.
Context {os : OS}.
Import SdDaemon.
Implicit Types (s : os_state).

(** The dialogue in [s] is part of the one in [s']. *)
Definition extends s s' : Prop := history s `suffix_of` history s' ∧ environ s' = environ s.

Lemma extends_refl s : extends s s.
Proof. by split. Qed.

Lemma extends_trans s s1 s2 : extends s s1 → extends s1 s2 → extends s s2.
Proof. intros [H1 E1] [H2 E2]. split; [by etrans|congruence]. Qed.

Lemma extends_call s e errno : extends s (Os (e :: history s) errno (environ s)).
Proof. split; [by apply suffix_cons_r|done]. Qed.

Lemma extends_errno s errno : extends s (Os (history s) errno (environ s)).
Proof. by split. Qed.

Lemma extends_in s s' e : extends s s' → e ∈ history s → e ∈ history s'.
Proof. intros [[h ->] _] He. apply elem_of_app. by right. Qed.

Lemma parse_ulong_spec e (Q : Z * bytes * Z → os_state → Prop) s :
  (∀ err, Q (strtoul e) (Os (history s) err (environ s))) → wp (parse_ulong e) Q s.
Proof.
  intros HQ. unfold parse_ulong. os_step. os_step.
  destruct (strtoul e) as [[l p] err]. os_step. destruct (err =? 0); os_step; os_step; apply HQ.
Qed.

Lemma set_cloexec_total n : ∀ fd s, wp (set_cloexec_loop n fd) (λ _ s', extends s s') s.
Proof.
  induction n as [|n IH]; intros fd s; cbn [set_cloexec_loop]; [os_step; apply extends_refl|].
  os_step. apply wp_invoke.
  - intros e _. os_step. os_step. os_step. apply extends_call.
  - intros r _. destruct (has (rval r) FD_CLOEXEC).
    + eapply wp_mono; [apply IH|]. intros ? s' H. eapply extends_trans; [|exact H]. apply extends_call.
    + os_step. apply wp_invoke.
      * intros e _. os_step. os_step. os_step. eapply extends_trans; apply extends_call.
      * intros r' _. eapply wp_mono; [apply IH|]. intros ? s' H.
        eapply extends_trans; [|exact H]. eapply extends_trans; apply extends_call.
Qed.

(** Calls on top of the dialogue so far. *)
Ltac extends_tac := split; simpl; [repeat apply suffix_cons_r; done|done].

(** The number of descriptors leaves room for their numbers in an [int]. *)
Definition fds_fit s : Prop :=
  ∀ e, environ s !! "LISTEN_FDS"%string = Some e →
    SD_LISTEN_FDS_START + s32 (strtoul e).1.1 <= INT_MAX.

Lemma listen_fds_body_total s : fds_fit s → wp listen_fds_body (λ _ s', extends s s') s.
Proof.
  intros Hfit. unfold listen_fds_body. os_step. os_step.
  destruct (environ s !! "LISTEN_PID"%string) as [e|]; [|os_step; extends_tac].
  os_step. apply parse_ulong_spec. intros err1. destruct (strtoul e) as [[l p] err].
  destruct (err =? 0); cbn [negb]; [|os_step; extends_tac].
  destruct (_ || _); [os_step; extends_tac|].
  os_step. apply wp_invoke_int_any. intros pid ev err2.
  destruct (pid =? s32 l); cbn [negb]; [|os_step; extends_tac].
  os_step. os_step. cbn [environ].
  destruct (environ s !! "LISTEN_FDS"%string) as [e'|] eqn:He'; [|os_step; extends_tac].
  apply Hfit in He'.
  os_step. apply parse_ulong_spec. intros err3. destruct (strtoul e') as [[l' p'] err'].
  cbn [fst] in He'.
  destruct (err' =? 0); cbn [negb]; [|os_step; extends_tac].
  destruct (bool_decide (p' = [])); cbn [negb]; [|os_step; extends_tac].
  replace (INT_MAX <? _) with false by lia. os_step. eapply wp_mono; [apply set_cloexec_total|]. intros r s' H. os_step.
  eapply extends_trans; [|exact H]. extends_tac.
Qed.

(** [sd_listen_fds(1)] removes both variables from the environment in every
    case, whatever else they hold and whatever the system answers, and always
    returns, when the number of descriptors fits. *)
Theorem sd_listen_fds_unsets s :
  fds_fit s →
  wp (sd_listen_fds true) (λ _ s',
    environ s' = delete "LISTEN_FDS"%string (delete "LISTEN_PID"%string (environ s))) s.
Proof.
  intros Hfit. unfold sd_listen_fds. os_step. eapply wp_mono; [by apply listen_fds_body_total|].
  intros r s1 [_ E1]. os_step. os_step. os_step. os_step. os_step. simpl. by rewrite E1.
Qed.

(** A descriptor is marked close-on-exec: it was, or the flag was set. *)
Definition marked s (fd : Z) : Prop := ∃ r, (Getfd fd, inr r) ∈ history s
  ∧ (has (rval r) FD_CLOEXEC = true
     ∨ ∃ r', (Setfd fd (Z.lor (rval r) FD_CLOEXEC), inr r') ∈ history s).

Lemma marked_extends s s' fd : extends s s' → marked s fd → marked s' fd.
Proof.
  intros He (r & Hr & Hor). exists r. split; [by eapply extends_in|].
  destruct Hor as [?|[r' Hr']]; [by left|right; exists r'; by eapply extends_in].
Qed.

Lemma set_cloexec_marks n : ∀ fd s,
  (∀ h i, fd <= i < fd + Z.of_nat n → ∃ r, answer h (Getfd i) = inr r) →
  (∀ h i fl, fd <= i < fd + Z.of_nat n → ∃ r, answer h (Setfd i fl) = inr r) →
  wp (set_cloexec_loop n fd) (λ r s', r = None ∧ extends s s'
    ∧ ∀ i, fd <= i < fd + Z.of_nat n → marked s' i) s.
Proof.
  induction n as [|n IH]; intros fd s Hg Hs; cbn [set_cloexec_loop].
  { os_step. split; [done|]. split; [apply extends_refl|]. lia. }
  assert (Hnext : ∀ s1, extends s s1 → marked s1 fd →
    wp (set_cloexec_loop n (fd + 1)) (λ r s', r = None ∧ extends s s'
      ∧ ∀ i, fd <= i < fd + Z.of_nat (S n) → marked s' i) s1).
  { intros s1 H1 Hm. eapply wp_mono; [apply (IH (fd + 1) s1)|].
    - intros h i Hi. apply Hg. lia.
    - intros h i fl Hi. apply Hs. lia.
    - intros r s2 (-> & H2 & Hall). split; [done|]. split; [by eapply extends_trans|].
      intros i Hi. destruct (Z.eq_dec i fd) as [->|]; [by eapply marked_extends|].
      apply Hall. lia. }
  os_step. apply wp_invoke.
  - intros e He. destruct (Hg (history s) fd) as [r Hr]; [lia|]. congruence.
  - intros r _. destruct (has (rval r) FD_CLOEXEC) eqn:Hf.
    + apply Hnext; [apply extends_call|]. exists r. split; [left|by left].
    + os_step. apply wp_invoke; simpl.
      * intros e He.
        destruct (Hs ((Getfd fd, inr r) :: history s) fd (Z.lor (rval r) FD_CLOEXEC)) as [r' Hr'];
          [lia|]. congruence.
      * intros r' _. apply Hnext.
        -- eapply extends_trans; [apply (extends_call s (Getfd fd, inr r) (oerrno s))|].
           apply (extends_call (Os _ _ _)).
        -- exists r. split; [right; left|]. right. exists r'. left.
Qed.

Lemma sd_listen_fds_spec s pid n unset :
  environ s !! "LISTEN_PID"%string = Some (fmt_u pid) → 0 < pid <= INT_MAX →
  environ s !! "LISTEN_FDS"%string = Some (fmt_u n) → 0 <= n <= INT_MAX - 3 →
  (∀ h, answer h Getpid = inr (ok pid)) →
  (∀ h i, 3 <= i < 3 + n → ∃ r, answer h (Getfd i) = inr r) →
  (∀ h i fl, 3 <= i < 3 + n → ∃ r, answer h (Setfd i fl) = inr r) →
  wp (sd_listen_fds unset) (λ r s', r = n ∧ (unset = false → environ s' = environ s) ∧ ∀ i, 3 <= i < 3 + n → marked s' i) s.
Proof.
  intros Hpid Hp Hfds Hn Hget Hg Hs. unfold sd_listen_fds, listen_fds_body.
  os_step. os_step. os_step. rewrite Hpid.
  os_step. apply parse_ulong_spec. intros err1.
  rewrite strtoul_fmt_u by (unfold ULONG_MAX; zlia). cbn [negb Z.eqb].
  rewrite bool_decide_eq_true_2 by done. replace (pid <=? 0) with false by lia. cbn [negb orb].
  os_step. apply wp_invoke_int; simpl; intros a Ha; rewrite Hget in Ha; [done|].
  injection Ha as <-. simpl. rewrite s32_small, Z.eqb_refl by zlia. cbn [negb].
  os_step. os_step. cbn [environ]. rewrite Hfds.
  os_step. apply parse_ulong_spec. intros err2.
  rewrite strtoul_fmt_u by (unfold ULONG_MAX; zlia). cbn [negb Z.eqb].
  rewrite bool_decide_eq_true_2 by done. cbn [negb]. rewrite s32_small by zlia.
  replace (INT_MAX <? _) with false by (unfold SD_LISTEN_FDS_START; lia). os_step. eapply wp_mono.
  { apply set_cloexec_marks; unfold SD_LISTEN_FDS_START; rewrite Z2Nat.id by lia; auto. }
  intros r s1 (-> & [_ He] & Hm). unfold SD_LISTEN_FDS_START in Hm. rewrite Z2Nat.id in Hm by lia.
  os_step. os_step. destruct unset; repeat os_step; (split; [done|]); (split; [by simpl|]); intros i Hi;
    destruct (Hm i Hi) as (x & ? & ?); by exists x.
Qed.

(** When the environment names this process and [n] descriptors, and the
    system lets their flags be read and set, [sd_listen_fds] returns [n] and
    every one of the descriptors 3 .. 3+n-1 is close-on-exec. *)
Theorem sd_listen_fds_marks s pid n unset :
  environ s !! "LISTEN_PID"%string = Some (fmt_u pid) → 0 < pid <= INT_MAX →
  environ s !! "LISTEN_FDS"%string = Some (fmt_u n) → 0 <= n <= INT_MAX - 3 →
  (∀ h, answer h Getpid = inr (ok pid)) →
  (∀ h i, 3 <= i < 3 + n → ∃ r, answer h (Getfd i) = inr r) →
  (∀ h i fl, 3 <= i < 3 + n → ∃ r, answer h (Setfd i fl) = inr r) →
  wp (sd_listen_fds unset) (λ r s', r = n ∧ ∀ i, 3 <= i < 3 + n → marked s' i) s.
Proof.
  intros. eapply wp_mono; [by eapply sd_listen_fds_spec|]. intros r s' (? & _ & ?). by split.
Qed.
End listen_fds.

(** The socket that [sd_notify] asks for. *)
Abbreviation notify_socket := (SocketCall AF_UNIX (Z.lor SOCK_DGRAM SOCK_CLOEXEC) 0).

Section notify.
Context {os : OS}.
Import SdDaemon.
Implicit Types (s : os_state).

(** What [sd_notify] does with the environment. *)
Definition notify_env (unset : bool) (env : gmap string bytes) : gmap string bytes :=
  if unset then delete "NOTIFY_SOCKET"%string env else env.

Lemma notify_finish_spec unset fd r s :
  wp (notify_finish unset fd r) (λ r' s', r' = r ∧ environ s' = notify_env unset (environ s)
    ∧ if 0 <=? fd then ∃ closed, history s' = (Close fd, closed) :: history s
      else history s' = history s) s.
Proof.
  unfold notify_finish, notify_env. destruct unset; repeat os_step; destruct (0 <=? fd);
    repeat os_step; try (apply wp_invoke; intros; repeat os_step); by eauto.
Qed.

(** Descriptors and counts of bytes are not negative. *)
Class NotifyOs : Prop := {
  notify_fd : ∀ h r, answer h notify_socket = inr r → 0 <= rval r;
  notify_count : ∀ h fd name iov flags r,
    answer h (Sendmsg fd name iov flags) = inr r → 0 <= rval r;
}.

Lemma notify_send_spec unset fd e state s :
  NotifyOs → 0 <= fd →
  wp (r ← invoke_int (Sendmsg fd (notify_name e) state MSG_NOSIGNAL);
      if r <? 0 then err ← get_oerrno; notify_finish unset fd (- err)
      else notify_finish unset fd 1)
    (λ r s', environ s' = notify_env unset (environ s) ∧ ∃ sent closed,
      history s' = (Close fd, closed)
        :: (Sendmsg fd (notify_name e) state MSG_NOSIGNAL, sent) :: history s
      ∧ r = match sent with inr _ => 1 | inl err => - err end) s.
Proof.
  intros HN Hfd. os_step. apply wp_invoke_int; intros a Ha.
  - change (-1 <? 0) with true. cbv iota. os_step. os_step. simpl.
    eapply wp_mono; [apply notify_finish_spec|]. replace (0 <=? fd) with true by lia.
    intros r s' (-> & E & closed & H). split; [done|]. by exists (inl a), closed.
  - pose proof (notify_count _ _ _ _ _ _ Ha). replace (rval a <? 0) with false by lia.
    eapply wp_mono; [apply notify_finish_spec|]. replace (0 <=? fd) with true by lia.
    intros r s' (-> & E & closed & Hh). split; [done|]. by exists (inr a), closed.
Qed.

(** The address of a path of up to 108 characters or of an abstract name is
    the family and its characters, with a NUL for the '@'; a longer one is cut,
    so that the text goes elsewhere. *)
Lemma notify_name_correct c e :
  Z.of_nat (length e) < 2 ^ 32 - 3 →
  notify_name (c :: e)
  = Byte.x01 :: NUL :: (if bool_decide (c = Byte.x40) then NUL else c) :: take 107 e.
Proof.
  intros He. unfold notify_name. cbn [length]. unfold wrapu.
  rewrite Z.mod_small by lia. set (n := Z.to_nat _).
  assert (take 108 ((c :: e) ++ replicate (108 - S (length e)) NUL)
    = c :: take 107 e ++ replicate (107 - length e) NUL) as ->.
  { cbn [app take]. f_equal. rewrite take_app. f_equal.
    rewrite take_ge by (rewrite length_replicate; lia). f_equal; lia. }
  assert (n = S (S (S (length (take 107 e))))) as ->.
  { subst n. rewrite length_take. destruct (Z.ltb_spec 110 (2 + Z.of_nat (S (length e)))); lia. }
  cbn [take]. do 3 f_equal. by rewrite take_app_length.
Qed.

(** The UNIX socket that a value of [NOTIFY_SOCKET] names, as the bytes of its
    [sockaddr_un]: an abstract name follows '@' and is preceded by a NUL there,
    an absolute path stands as it is; both have 108 bytes of room and are cut
    after them. Any other text names none. *)
Definition notify_address (e : bytes) : option bytes :=
  let family := [Byte.x01; NUL] in
  match e with
  | Byte.x40 :: c :: name => Some (family ++ [NUL] ++ take 107 (c :: name))
  | Byte.x2f :: c :: path => Some (family ++ take 108 (Byte.x2f :: c :: path))
  | _ => None
  end.

Lemma notify_address_valid e :
  Z.of_nat (length e) < 2 ^ 32 - 2 →
  notify_address e = if notify_valid e then Some (notify_name e) else None.
Proof.
  intros He. destruct e as [|c [|c2 e]]; [done|by destruct c|].
  rewrite notify_name_correct by (cbn [length] in *; lia).
  by destruct c.
Qed.

(** C32: [sd_notify] on every path: without a text or with an address that is
    neither abstract nor absolute it fails with EINVAL and makes no call;
    without an address it does nothing; otherwise one datagram with exactly the
    text goes to the address that the variable names, a NUL in place of the
    '@' and what follows the first 108 bytes cut off, and the socket is closed
    again, whatever [sendmsg] answers; the variable is removed when this is
    asked for. The variable is shorter than 4 GiB. *)
Theorem sd_notify_outcome s unset state :
  NotifyOs →
  (∀ e, environ s !! "NOTIFY_SOCKET"%string = Some e → Z.of_nat (length e) < 2 ^ 32 - 2) →
  wp (sd_notify unset state) (λ r s',
    match state, environ s !! "NOTIFY_SOCKET"%string with
    | Some _, None => r = 0 ∧ s' = s
    | None, _ => r = - EINVAL ∧ history s' = history s
        ∧ environ s' = notify_env unset (environ s)
    | Some text, Some e =>
        environ s' = notify_env unset (environ s) ∧
        match notify_address e with
        | Some address =>
            match answer (history s) notify_socket with
            | inl err => r = - err ∧ history s' = (notify_socket, inl err) :: history s
            | inr fd => ∃ sent closed,
                history s' = (Close (rval fd), closed)
                  :: (Sendmsg (rval fd) address text MSG_NOSIGNAL, sent)
                  :: (notify_socket, inr fd) :: history s
                ∧ r = match sent with inr _ => 1 | inl err => - err end
            end
        | None => r = - EINVAL ∧ history s' = history s
        end
    end) s.
Proof.
  intros HN Hlen. unfold sd_notify. destruct state as [text|].
  2:{ eapply wp_mono; [apply notify_finish_spec|]. by intros r s' (-> & E & Hh). }
  os_step. os_step. destruct (environ s !! _) as [e|]; [|by os_step].
  rewrite notify_address_valid by auto. destruct (notify_valid e); cbn [negb].
  2:{ eapply wp_mono; [apply notify_finish_spec|]. by intros r s' (-> & E & Hh). }
  os_step. apply wp_invoke_int; intros a Ha; rewrite Ha.
  - change (-1 <? 0) with true. cbv iota. os_step. os_step. simpl.
    eapply wp_mono; [apply notify_finish_spec|]. by intros r s' (-> & E & Hh).
  - pose proof (notify_fd _ _ Ha). replace (rval a <? 0) with false by lia.
    eapply wp_mono; [by apply notify_send_spec|]. done.
Qed.

(** [sd_is_fifo] says yes exactly to a FIFO whose inode is the path's, if a path
    is given; a path that does not exist is a no. *)
Theorem sd_is_fifo_correct s fd path st :
  0 <= fd → answer (history s) (Fstat fd) = inr st →
  (∀ h p e, answer h (Stat p) = inl e → 0 < e) →
  wp (sd_is_fifo fd path) (λ r s', environ s' = environ s ∧
    (r = 1 ↔ S_ISFIFO (rval st) = true ∧
       match path with
       | None => True
       | Some p => match answer ((Fstat fd, inr st) :: history s) (Stat p) with
                   | inr st' => rinode st' = rinode st
                   | inl _ => False
                   end
       end)) s.
Proof.
  intros Hfd Hst Herr. unfold sd_is_fifo, stat_fd. replace (fd <? 0) with false by lia.
  os_step. os_step. apply wp_invoke; intros a Ha; rewrite Hst in Ha; [done|].
  injection Ha as <-. os_step. destruct (S_ISFIFO (rval st)); cbn [negb]; [|by os_step; naive_solver].
  destruct path as [p|]; [|by os_step].
  os_step. apply wp_invoke; simpl; intros a Ha; rewrite Ha.
  - apply Herr in Ha. os_step. os_step. os_step. split; [done|]. simpl. unfold ENOENT, ENOTDIR.
    destruct (Z.eqb_spec a 2), (Z.eqb_spec a 20); simpl; lia.
  - os_step. split; [done|]. unfold b2z. case_bool_decide; naive_solver.
Qed.
End notify.
