(* ===== verification/Server.v ===== *)
(** * Listening sockets (lib/ServerSocket.cpp, lib/InetServer.cpp, lib/UnixServer.cpp)

    Opening a listener (inherited, passed by systemd or created), handing its
    descriptor on to a child process through the environment, and accepting
    clients.  The preprocessor symbols are as the build defines them: the
    configuration header is empty, so that [accept4], multiple accepts and
    deferred accepts are not compiled in, while [SO_REUSEPORT] and
    [TCP_QUICKACK] are. *)

From S2P Require Import Prelude Memory BufferBase BufferParse Libc Kernel Os Address SdDaemon.

Local Open Scope Z_scope.

Definition COMMA : byte := Byte.x2c.
Definition SEMICOLON : byte := Byte.x3b.
Definition X0_LISTEN_FDS : string := "XZERO_LISTEN_FDS".

(** ** Inherited descriptors *)
Module ListenFds.
Section ops.
Context {os : OS}.

(** The descriptor in one entry of the list: the third field, or the second. *)
Definition entry_fd (token : bytes) : OM Z :=
  match tokens COMMA token with
  | _ :: _ :: vival2 :: _ => lift_option (atoi vival2)
  | [_; vival1] => lift_option (atoi vival1)
  | _ => ub                         (* atoi(nullptr) *)
  end.

Fixpoint entries (ts : list bytes) : OM (list Z) :=
  match ts with
  | [] => mret []
  | t :: ts => fd ← entry_fd t; l ← entries ts; mret (fd :: l)
  end.

Definition getInheritedSocketList : OM (list Z) :=
  e ← getenv X0_LISTEN_FDS;
  match e with None => mret [] | Some e => entries (tokens SEMICOLON e) end.

(** The descriptor is checked to be a socket. *)
Definition check_socket (fd : Z) : OM Z :=
  r ← invoke (Fstat fd);
  match r with
  | None => mret (-1)
  | Some st => if negb (S_ISSOCK (rval st)) then set_oerrno ENOTSOCK;; mret (-1) else mret fd
  end.

Fixpoint find_inet (address : bytes) (port : Z) (ts : list bytes) : OM Z :=
  match ts with
  | [] => mret (-1)
  | t :: ts =>
      match tokens COMMA t with
      | [] => ub                    (* strcmp(nullptr, address) *)
      | vaddr :: rest =>
          if negb (bool_decide (vaddr = address)) then find_inet address port ts
          else match rest with
          | [] => ub                (* atoi(nullptr) *)
          | vport :: rest =>
              p ← lift_option (atoi vport);
              if negb (p =? port) then find_inet address port ts
              else match rest with
              | [] => ub
              | vfd :: _ => fd ← lift_option (atoi vfd); check_socket fd
              end
          end
      end
  end.

(** [getSocketInet(address, port)] *)
Definition getSocketInet (address : bytes) (port : Z) : OM Z :=
  e ← getenv X0_LISTEN_FDS;
  match e with None => mret (-1) | Some e => find_inet address port (tokens SEMICOLON e) end.

Fixpoint find_unix (path : bytes) (ts : list bytes) : OM Z :=
  match ts with
  | [] => mret (-1)
  | t :: ts =>
      match tokens COMMA t with
      | [] => ub
      | vaddr :: rest =>
          if negb (bool_decide (vaddr = path)) then find_unix path ts
          else match rest with
          | [] => ub
          | vfd :: _ => fd ← lift_option (atoi vfd); check_socket fd
          end
      end
  end.

(** [getSocketUnix(path)] *)
Definition getSocketUnix (path : bytes) : OM Z :=
  e ← getenv X0_LISTEN_FDS;
  match e with None => mret (-1) | Some e => find_unix path (tokens SEMICOLON e) end.
End ops.
End ListenFds.

(** [std::string(buf, n)] after [n = snprintf(buf, size, ...)] of the output
    [d]: the array must have [n] bytes. *)
Definition print_to (size : nat) (d : bytes) : option bytes :=
  if (length d <=? size)%nat then Some (take (length d) (take (size - 1) d ++ [NUL])) else None.

(** ** ServerSocket *)
Record ServerSocket : Type := mkServer {
  fd_ : Z;
  flags_ : Z;
  typeMask_ : Z;
  backlog_ : Z;
  multiAcceptCount_ : Z;
  active : bool;              (* io_.is_active() *)
}.

Definition SOMAXCONN : Z := 4096.

Module ServerSocket.
Section ops.
Context {os : OS}.

Definition new : ServerSocket := mkServer (-1) 0 0 SOMAXCONN 1 false.

Definition isOpen (s : ServerSocket) : bool := 0 <=? fd_ s.
Definition with_fd (s : ServerSocket) (fd : Z) : ServerSocket :=
  mkServer fd (flags_ s) (typeMask_ s) (backlog_ s) (multiAcceptCount_ s) (active s).
Definition with_active (s : ServerSocket) (b : bool) : ServerSocket :=
  mkServer (fd_ s) (flags_ s) (typeMask_ s) (backlog_ s) (multiAcceptCount_ s) b.
Definition with_backlog (s : ServerSocket) (n : Z) : ServerSocket :=
  mkServer (fd_ s) (flags_ s) (typeMask_ s) n (multiAcceptCount_ s) (active s).

Definition setBacklog (s : ServerSocket) (value : Z) : OM ServerSocket :=
  assert (negb (isOpen s));; mret (with_backlog s value).

Definition setMultiAcceptCount (s : ServerSocket) (value : Z) : ServerSocket :=
  mkServer (fd_ s) (flags_ s) (typeMask_ s) (backlog_ s) (Z.max value 1) (active s).

(** [open(const SocketSpec&, int)] is still to be written. *)
Definition open_from_spec (spec : SocketSpec.SocketSpec) (flags : Z) : option ServerSocket := None.

Definition start (s : ServerSocket) : OM ServerSocket :=
  assert (isOpen s);; assert (negb (active s));; mret (with_active s true).

Definition stop (s : ServerSocket) : ServerSocket :=
  if negb (active s) then s else with_active s false.

Definition close (s : ServerSocket) : OM ServerSocket :=
  if fd_ s <? 0 then mret s
  else
    let s := stop s in
    invoke (Close (fd_ s));; mret (with_fd s (-1)).

(** [~ServerSocket()] *)
Definition destroy (s : ServerSocket) : OM () :=
  let s := if active s then stop s else s in
  (if isOpen s then close s else mret s);; mret ().

Definition setOption (s : ServerSocket) (level option value : Z) : OM Z :=
  invoke_int (Setsockopt (fd_ s) level option value).

Definition listen (s : ServerSocket) (backlog : Z) : OM (bool * ServerSocket) :=
  let backlog := if backlog <? 0 then backlog_ s else backlog in
  r ← invoke (Listen (fd_ s) backlog);
  mret match r with None => (false, s) | Some _ => (true, with_backlog s backlog) end.

(** [fcntl(fd, F_SETFL, fcntl(fd, F_GETFL) | flags) < 0] *)
Definition add_fl (fd flags : Z) : OM bool :=
  old ← invoke_int (Getfl fd);
  r ← invoke (Setfl fd (Z.lor old flags));
  mret match r with None => false | Some _ => true end.
Definition add_fd (fd flags : Z) : OM bool :=
  old ← invoke_int (Getfd fd);
  r ← invoke (Setfd fd (Z.lor old flags));
  mret match r with None => false | Some _ => true end.

Definition setNonBlocking (s : ServerSocket) (enable : bool) : OM bool :=
  old ← invoke_int (Getfl (fd_ s));
  r ← invoke (Setfl (fd_ s) (if enable then Z.lor old O_NONBLOCK else Z.ldiff old O_NONBLOCK));
  mret match r with None => false | Some _ => true end.

Definition setCloseOnExec (s : ServerSocket) (enable : bool) : OM bool :=
  old ← invoke_int (Getfd (fd_ s));
  r ← invoke (Setfd (fd_ s) (if enable then Z.lor old FD_CLOEXEC else Z.ldiff old FD_CLOEXEC));
  mret match r with None => false | Some _ => true end.

(** [acceptOne()]: the client's descriptor, which [createSocket] wraps, or
    [None] for a null pointer. *)
Definition acceptOne (s : ServerSocket) : OM (option Z) :=
  r ← invoke (Accept (fd_ s));
  match r with
  | None => mret None
  | Some r =>
      let cfd := rval r in
      if cfd <? 0 then mret None
      else if negb (flags_ s =? 0) then
        ok ← add_fl cfd (flags_ s);
        if ok : bool then mret (Some cfd) else invoke (Close cfd);; mret None
      else mret (Some cfd)
  end.

(** [handleOne()]: whether a client was accepted, and the argument of the
    call of [callback], if there is one. *)
Definition handleOne (s : ServerSocket) : OM (bool * option (option Z)) :=
  client ← acceptOne s;
  match client with
  | Some c => mret (true, Some (Some c))
  | None =>
      e ← get_oerrno;
      if (e =? EINTR) || (e =? EAGAIN) then mret (false, None) else mret (false, Some None)
  end.

(** [accept(ev::io&, int)]: the event loop's call; one client, since the
    configuration has no multiple accepts. *)
Definition accept (s : ServerSocket) : OM (option (option Z)) :=
  r ← handleOne s; mret r.2.

Definition isCloseOnExec (s : ServerSocket) : OM bool :=
  r ← invoke_int (Getfd (fd_ s)); mret (has r FD_CLOEXEC).
Definition isNonBlocking (s : ServerSocket) : OM bool :=
  r ← invoke_int (Getfl (fd_ s)); mret (has r O_NONBLOCK).

(** What [open] does first: the flags that go into the socket's type. *)
Definition split_flags (s : ServerSocket) (flags : Z) : ServerSocket :=
  let f1 := if has flags O_CLOEXEC then Z.ldiff flags O_CLOEXEC else flags in
  let t1 := if has flags O_CLOEXEC then SOCK_CLOEXEC else 0 in
  let f2 := if has flags O_NONBLOCK then Z.ldiff f1 O_NONBLOCK else f1 in
  let t2 := if has flags O_NONBLOCK then Z.lor t1 SOCK_NONBLOCK else t1 in
  mkServer (fd_ s) f2 t2 (backlog_ s) (multiAcceptCount_ s) (active s).
End ops.
End ServerSocket.

(** How the search among systemd's descriptors ends: at a descriptor that fits
    and took the flags, at one that did not take them, or behind the last. *)
Inductive sd_search := Found (fd : Z) | Failed (fd : Z) | NotFound (fd : Z).

(** ** InetServer *)
Module InetServer.
Record InetServer : Type := mkInet {
  server : ServerSocket;
  ipaddr_ : IPAddress;
  port_ : Z;
  reusePort_ : bool;
}.

Section ops.
Context {os : OS} {T : InetText}.
Import ServerSocket.

Definition new : InetServer := mkInet ServerSocket.new IPAddress.new (-1) false.

Definition with_server (s : InetServer) (x : ServerSocket) : InetServer :=
  mkInet x (ipaddr_ s) (port_ s) (reusePort_ s).

Definition setReusePort (s : InetServer) (value : bool) : OM InetServer :=
  assert (negb (isOpen (server s)));; mret (mkInet (server s) (ipaddr_ s) (port_ s) value).

(** The [sockaddr_in] that [bind] passes: 16 bytes, [sin_family] is left at 0;
    an IPv6 address does not fit. *)
Definition bind (s : InetServer) (a : IPAddress) (port : Z) : OM (bool * InetServer) :=
  if 4 <? IPAddress.size a then ub
  else
    let sin := [NUL; NUL; byte_of_Z (port / 256); byte_of_Z port] ++ take 4 (buf_ a)
               ++ replicate 8 NUL in
    r ← invoke (Bind (fd_ (server s)) sin);
    mret match r with
         | None => (false, s)
         | Some _ => (true, mkInet (server s) (IPAddress.assign (ipaddr_ s) a) port (reusePort_ s))
         end.

(** [O_NONBLOCK] and [O_CLOEXEC], if asked for; false means [goto syserr]. *)
Definition force_flags (fd flags : Z) : OM bool :=
  ok ← (if has flags O_NONBLOCK then add_fl fd O_NONBLOCK else mret true);
  if ok : bool
  then if has flags O_CLOEXEC then add_fd fd FD_CLOEXEC else mret true
  else mret false.

Fixpoint search_systemd (n : nat) (fd : Z) (family port flags : Z) : OM sd_search :=
  match n with
  | O => mret (NotFound fd)
  | S n =>
      r ← SdDaemon.sd_is_socket_inet fd family SOCK_STREAM 1 (wrapu 16 port);
      if 0 <? r then
        ok ← force_flags fd flags;
        if ok : bool then
          r ← invoke_int (Setsockopt fd SOL_TCP TCP_QUICKACK 1);
          mret (if r <? 0 then Failed fd else Found fd)
        else mret (Failed fd)
      else search_systemd n (fd + 1) family port flags
  end.

(** [done:] and [syserr:] / [err:] *)
Definition finish (s : InetServer) (fd : Z) : OM (bool * InetServer) :=
  x ← start (with_fd (server s) fd); mret (true, with_server s x).
Definition fail (s : InetServer) (fd : Z) : OM (bool * InetServer) :=
  (if 0 <=? fd then invoke (Close fd);; mret (with_fd (server s) (-1))
   else mret (with_fd (server s) fd)) ≫= λ x, mret (false, with_server s x).

(** The part that creates the socket. *)
Definition create (s : InetServer) (a : IPAddress) (port flags : Z) : OM (bool * InetServer) :=
  fd ← invoke_int (SocketCall (family_ a) (Z.lor SOCK_STREAM (typeMask_ (server s))) IPPROTO_TCP);
  if fd <? 0 then fail s fd
  else
    ok ← force_flags fd flags;
    if negb ok then fail s fd
    else
      r ← invoke_int (Setsockopt fd SOL_SOCKET SO_REUSEADDR 1);
      if r <? 0 then fail s fd
      else
        reuse ← (if reusePort_ s then
                   r ← invoke_int (Setsockopt fd SOL_SOCKET SO_REUSEPORT 1); mret (r =? 0)
                 else mret false);
        let s := mkInet (with_fd (server s) fd) (ipaddr_ s) (port_ s) reuse in
        r ← invoke_int (Setsockopt fd SOL_TCP TCP_QUICKACK 1);
        if r <? 0 then fail s fd
        else
          '(ok, s) ← bind s a port;
          if negb ok then fail s fd
          else
            '(ok, x) ← listen (server s) (backlog_ (server s));
            let s := with_server s x in
            if negb ok then fail s fd else finish s fd.

Definition open (s : InetServer) (a : IPAddress) (port flags : Z) : OM (bool * InetServer) :=
  sd_fd_count ← SdDaemon.sd_listen_fds false;
  let s := with_server s (split_flags (server s) flags) in
  text ← lift_option (IPAddress.str a);
  fd ← ListenFds.getSocketInet text port;
  if 0 <=? fd then
    ok ← force_flags fd flags;
    if ok : bool then finish s fd else fail s fd
  else if 0 <? sd_fd_count then
    r ← search_systemd (Z.to_nat sd_fd_count) SD_LISTEN_FDS_START (family_ a) port flags;
    match r with
    | Found fd => finish s fd
    | Failed fd => fail s fd
    | NotFound fd => fail s fd
    end
  else create s a port flags.

Definition close (s : InetServer) : OM InetServer :=
  x ← ServerSocket.close (server s); mret (mkInet x (ipaddr_ s) (port_ s) false).

(** [clone(loop)] *)
Definition clone (s : InetServer) : OM InetServer :=
  x ← setBacklog (server new) (backlog_ (server s));
  n ← setReusePort (with_server new x) (reusePort_ s);
  '(_, n) ← open n (ipaddr_ s) (port_ s) (flags_ (server s));
  mret n.

(** [serialize()], through an array of 1024 bytes. *)
Definition serialize (s : InetServer) : OM bytes :=
  text ← lift_option (IPAddress.str (ipaddr_ s));
  lift_option (print_to 1024 (text ++ COMMA :: fmt_d (port_ s) ++ COMMA :: fmt_d (fd_ (server s)))).
End ops.
End InetServer.

(** ** UnixServer *)
Module UnixServer.
Record UnixServer : Type := mkUnix { server : ServerSocket; path_ : bytes }.

Section ops.
Context {os : OS}.
Import ServerSocket.

Definition new : UnixServer := mkUnix ServerSocket.new [].

(** The address: [sun_family] and the path; [path] has no NUL. *)
Definition bind (s : UnixServer) (path : bytes) : OM (bool * UnixServer) :=
  if 108 <=? Z.of_nat (length path) then set_oerrno ENAMETOOLONG;; mret (false, s)
  else
    r ← invoke (Bind (fd_ (server s)) ([byte_of_Z AF_UNIX; NUL] ++ path));
    mret match r with None => (false, s) | Some _ => (true, mkUnix (server s) path) end.

(** [flags && fcntl(...) < 0]; false means [goto syserr]. *)
Definition force_flags (fd flags : Z) : OM bool :=
  if negb (flags =? 0) then add_fl fd flags else mret true.

(** The arguments of [sd_is_socket_unix] are in the order of the call. *)
Fixpoint search_systemd (n : nat) (fd : Z) (path : bytes) (flags : Z) : OM sd_search :=
  match n with
  | O => mret (NotFound fd)
  | S n =>
      r ← SdDaemon.sd_is_socket_unix fd AF_UNIX SOCK_STREAM (Some path) (Z.of_nat (length path));
      if 0 <? r then
        ok ← force_flags fd flags; mret (if ok : bool then Found fd else Failed fd)
      else search_systemd n (fd + 1) path flags
  end.

Definition finish (s : UnixServer) (fd : Z) : OM (bool * UnixServer) :=
  x ← start (with_fd (server s) fd); mret (true, mkUnix x (path_ s)).
Definition fail (s : UnixServer) (fd : Z) : OM (bool * UnixServer) :=
  (if 0 <=? fd then invoke (Close fd);; mret (with_fd (server s) (-1))
   else mret (with_fd (server s) fd)) ≫= λ x, mret (false, mkUnix x (path_ s)).

Definition create (s : UnixServer) (path : bytes) (flags : Z) : OM (bool * UnixServer) :=
  fd ← invoke_int (SocketCall AF_UNIX SOCK_STREAM 0);
  if fd <? 0 then fail s fd
  else
    ok ← force_flags fd flags;
    if negb ok then fail s fd
    else
      let s := mkUnix (with_fd (server s) fd) (path_ s) in
      '(ok, s) ← bind s path;
      if negb ok then fail s fd
      else
        '(ok, x) ← listen (server s) (backlog_ (server s));
        let s := mkUnix x (path_ s) in
        if negb ok then fail s fd
        else invoke (Chmod path 438);; finish s fd.       (* 0666 *)

Definition open (s : UnixServer) (path : bytes) (flags : Z) : OM (bool * UnixServer) :=
  sd_fd_count ← SdDaemon.sd_listen_fds false;
  let s := mkUnix (split_flags (server s) flags) (path_ s) in
  fd ← ListenFds.getSocketUnix path;
  if 0 <=? fd then
    ok ← force_flags fd flags;
    if ok : bool then finish s fd else fail s fd
  else if 0 <? sd_fd_count then
    r ← search_systemd (Z.to_nat sd_fd_count) SD_LISTEN_FDS_START path flags;
    match r with
    | Found fd => finish s fd
    | Failed fd => fail s fd
    | NotFound fd => fail s fd
    end
  else create s path flags.

Definition close (s : UnixServer) : OM UnixServer :=
  x ← ServerSocket.close (server s);
  (if negb (bool_decide (path_ s = [])) then invoke (Unlink (path_ s));; mret () else mret ());;
  mret (mkUnix x (path_ s)).

(** [~UnixServer()] is empty; the destructor of the base class calls the base
    class's [close]. *)
Definition destroy (s : UnixServer) : OM () := ServerSocket.destroy (server s).

Definition clone (s : UnixServer) : OM UnixServer :=
  '(_, n) ← open new (path_ s) (flags_ (server s)); mret n.

(** [serialize()], through an array of 4096 bytes. *)
Definition serialize (s : UnixServer) : OM bytes :=
  lift_option (print_to 4096 (path_ s ++ COMMA :: fmt_d (fd_ (server s)))).
End ops.
End UnixServer.

(** ** Handing descriptors on *)
Section inherit.
Context {os : OS} {T : InetText}.
Implicit Types (s : os_state) (a p t : bytes).

(** A field that can be part of the list. *)
Definition field_ok a : Prop := a ≠ [] ∧ (COMMA ∉ a) ∧ (SEMICOLON ∉ a).

Definition inet_entry a (port fd : Z) : bytes := a ++ COMMA :: fmt_d port ++ COMMA :: fmt_d fd.
Definition unix_entry p (fd : Z) : bytes := p ++ COMMA :: fmt_d fd.

(** Entries separated by semicolons. *)
Fixpoint join (ts : list bytes) : bytes :=
  match ts with [] => [] | [t] => t | t :: ts => t ++ SEMICOLON :: join ts end.

Lemma int_field z : is_int z → field_ok (fmt_d z).
Proof.
  intros Hz. destruct (fmt_d_chars z COMMA) as [Hc Hne]; [zlia|done|done|].
  destruct (fmt_d_chars z SEMICOLON) as [Hs _]; [zlia|done|done|]. by split.
Qed.

Lemma inet_entry_tokens a port fd :
  field_ok a → is_int port → is_int fd →
  tokens COMMA (inet_entry a port fd) = [a; fmt_d port; fmt_d fd].
Proof.
  intros (Ha & Hc & _) (Hp1 & Hp2 & _)%int_field (Hf1 & Hf2 & _)%int_field.
  unfold inet_entry. by rewrite !tokens_cons, tokens_single by done.
Qed.

Lemma unix_entry_tokens p fd :
  field_ok p → is_int fd → tokens COMMA (unix_entry p fd) = [p; fmt_d fd].
Proof.
  intros (Ha & Hc & _) (Hf1 & Hf2 & _)%int_field.
  unfold unix_entry. by rewrite tokens_cons, tokens_single by done.
Qed.

(** Entries of the list with their descriptors. *)
Inductive listener := LInet (a : bytes) (port fd : Z) | LUnix (p : bytes) (fd : Z).
Definition listener_fd (x : listener) : Z := match x with LInet _ _ fd | LUnix _ fd => fd end.
Definition listener_text (x : listener) : bytes :=
  match x with LInet a port fd => inet_entry a port fd | LUnix p fd => unix_entry p fd end.
Definition listener_ok (x : listener) : Prop :=
  match x with
  | LInet a port fd => field_ok a ∧ is_int port ∧ is_int fd
  | LUnix p fd => field_ok p ∧ is_int fd
  end.

Lemma listener_text_ok x :
  listener_ok x → (SEMICOLON ∉ listener_text x) ∧ listener_text x ≠ [].
Proof.
  destruct x as [a port fd|p fd]; simpl.
  - intros ((Ha & _ & Hs) & (_ & _ & Hp)%int_field & (_ & _ & Hf)%int_field). unfold inet_entry.
    rewrite !elem_of_app, !elem_of_cons, !elem_of_app, !elem_of_cons.
    split; [|by destruct a]. intros [?|[?|[?|[?|?]]]]; done.
  - intros ((Ha & _ & Hs) & (_ & _ & Hf)%int_field). unfold unix_entry.
    rewrite !elem_of_app, !elem_of_cons. split; [|by destruct p]. intros [?|[?|?]]; done.
Qed.

Lemma join_tokens xs :
  Forall listener_ok xs → tokens SEMICOLON (join (listener_text <$> xs)) = listener_text <$> xs.
Proof.
  induction 1 as [|x xs Hx HF IH]; [done|]. destruct (listener_text_ok x Hx) as [Hs Hne].
  destruct xs as [|y xs]; [by apply tokens_single|].
  change (join (listener_text <$> x :: y :: xs))
    with (listener_text x ++ SEMICOLON :: join (listener_text <$> y :: xs)).
  by rewrite tokens_cons, IH.
Qed.

Lemma entries_spec xs s :
  Forall listener_ok xs →
  ListenFds.entries (listener_text <$> xs) s = Ok (listener_fd <$> xs, s).
Proof.
  induction 1 as [|x xs Hx HF IH]; [done|]. cbn [fmap list_fmap ListenFds.entries].
  assert (ListenFds.entry_fd (listener_text x) s = Ok (listener_fd x, s)) as E.
  { unfold ListenFds.entry_fd. destruct x as [a port fd|p fd]; simpl in *.
    - destruct Hx as (? & ? & ?). rewrite inet_entry_tokens by done. by rewrite atoi_fmt_d.
    - destruct Hx as (? & ?). rewrite unix_entry_tokens by done. by rewrite atoi_fmt_d. }
  erewrite bind_Ok by exact E. by erewrite bind_Ok by exact IH.
Qed.

(** [serialize()] prints the entry when it fits the array. *)
Lemma print_to_fits n d : (length d < n)%nat → print_to n d = Some d.
Proof.
  intros Hd. unfold print_to. replace (length d <=? n)%nat with true by lia.
  rewrite (take_ge d) by lia. by rewrite take_app_length.
Qed.

(** A server (or listener) and what it is in the list. *)
Definition serializes (x : InetServer.InetServer + UnixServer.UnixServer) (l : listener) : Prop :=
  match x with
  | inl i => (∃ text, IPAddress.str (InetServer.ipaddr_ i) = Some text
               ∧ l = LInet text (InetServer.port_ i) (fd_ (InetServer.server i)))
             ∧ (length (listener_text l) < 1024)%nat
  | inr u => l = LUnix (UnixServer.path_ u) (fd_ (UnixServer.server u))
             ∧ (length (listener_text l) < 4096)%nat
  end ∧ listener_ok l.

Definition serialize (x : InetServer.InetServer + UnixServer.UnixServer) : OM bytes :=
  match x with inl i => InetServer.serialize i | inr u => UnixServer.serialize u end.

Fixpoint serialize_all (xs : list (InetServer.InetServer + UnixServer.UnixServer)) : OM (list bytes) :=
  match xs with [] => mret [] | x :: xs => t ← serialize x; ts ← serialize_all xs; mret (t :: ts) end.

Lemma serialize_all_spec xs ls s :
  Forall2 serializes xs ls → serialize_all xs s = Ok (listener_text <$> ls, s).
Proof.
  induction 1 as [|x l xs ls Hx HF IH]; [done|]. simpl.
  assert (serialize x s = Ok (listener_text l, s)) as E.
  { destruct x as [i|u]; simpl in *; unfold InetServer.serialize, UnixServer.serialize.
    - destruct Hx as [[(text & E & ->) Hlen] _]. rewrite E. erewrite bind_Ok by done.
      by rewrite print_to_fits.
    - destruct Hx as [[-> Hlen] _]. by rewrite print_to_fits. }
  erewrite bind_Ok by exact E. by erewrite bind_Ok by exact IH.
Qed.

(** C33: for a list of servers that have an address, or a path without comma and
    semicolon, and texts that fit the arrays of [serialize()]: the descriptors
    of the servers, whose [serialize()] texts the parent process joins with
    semicolons, are exactly those that [getInheritedSocketList()] returns in the
    child, in order. *)
Theorem inherited_list_roundtrip xs ls s s' e :
  Forall2 serializes xs ls → serialize_all xs s = Ok (e, s) →
  environ s' !! X0_LISTEN_FDS = Some (join e) →
  ListenFds.getInheritedSocketList s' = Ok (listener_fd <$> ls, s').
Proof.
  intros HF. rewrite (serialize_all_spec xs ls) by done. intros [= <-] He.
  assert (Forall listener_ok ls) as Hok.
  { clear He. induction HF as [|x l xs ls [_ Hl] _ IH]; by constructor. }
  unfold ListenFds.getInheritedSocketList, getenv. erewrite bind_Ok by done. rewrite He.
  rewrite join_tokens by done. by apply entries_spec.
Qed.

(** A server that was opened on a descriptor it was passed has no address, and
    its [serialize()] makes a text from an array that [inet_ntop] has not
    written. *)
Theorem serialize_without_address_ub (i : InetServer.InetServer) s :
  InetServer.ipaddr_ i = IPAddress.new → InetServer.serialize i s = UB.
Proof. intros E. unfold InetServer.serialize. by rewrite E. Qed.

(** An entry for something else than the TCP address. *)
Definition other_entry a (port : Z) (x : listener) : Prop :=
  match x with LInet a' port' _ => a' ≠ a ∨ port' ≠ port | LUnix p _ => p ≠ a end.

Lemma find_inet_skip a port xs ts s :
  Forall listener_ok xs → Forall (other_entry a port) xs →
  ListenFds.find_inet a port ((listener_text <$> xs) ++ ts) s = ListenFds.find_inet a port ts s.
Proof.
  induction 1 as [|x xs Hx HF IH]; [done|]. intros [Ho Hos]%Forall_cons_1. simpl.
  destruct x as [a' port' fd|p fd]; simpl in *.
  - destruct Hx as (? & ? & ?). rewrite inet_entry_tokens by done.
    case_bool_decide as E; cbn [negb]; [|by apply IH]. subst a'.
    rewrite (atoi_fmt_d port') by done. erewrite bind_Ok by reflexivity.
    destruct Ho as [?|Hp]; [done|]. replace (port' =? port) with false by lia. by apply IH.
  - destruct Hx as (? & ?). rewrite unix_entry_tokens by done.
    rewrite bool_decide_eq_false_2 by done. by apply IH.
Qed.

(** A TCP listener in the list is found by its address and port, whatever
    other listeners come before and after it, and its descriptor is returned
    if it is a socket. *)
Theorem inherited_inet_found a port fd xs1 xs2 s st :
  Forall listener_ok (xs1 ++ LInet a port fd :: xs2) → Forall (other_entry a port) xs1 →
  environ s !! X0_LISTEN_FDS
    = Some (join (listener_text <$> (xs1 ++ LInet a port fd :: xs2))) →
  answer (history s) (Fstat fd) = inr st → S_ISSOCK (rval st) = true →
  wp (ListenFds.getSocketInet a port) (λ r _, r = fd) s.
Proof.
  intros Hok Hother He Hst Hsock. unfold ListenFds.getSocketInet, getenv. wp_step. wp_step.
  rewrite He, join_tokens, fmap_app by done. apply Forall_app in Hok as [Hok1 Hok2].
  apply Forall_cons_1 in Hok2 as [(Ha & Hp & Hf) _].
  unfold wp. rewrite find_inet_skip by done. cbn [fmap list_fmap ListenFds.find_inet listener_text].
  rewrite inet_entry_tokens by done. rewrite bool_decide_eq_true_2 by done. cbn [negb].
  rewrite (atoi_fmt_d port) by done. erewrite bind_Ok by reflexivity. rewrite Z.eqb_refl. cbn [negb].
  rewrite (atoi_fmt_d fd) by done. erewrite bind_Ok by reflexivity.
  unfold ListenFds.check_socket, invoke, mbind, ST_bind. rewrite Hst. simpl. by rewrite Hsock.
Qed.
End inherit.

(** ** Descriptors that the process holds *)
Section live.
Context {os : OS}.
Implicit Types (s : os_state) (h : list event).

(** The descriptors that a dialogue has created and not closed. *)
Fixpoint live h : gset Z :=
  match h with
  | [] => ∅
  | (SocketCall _ _ _, inr r) :: h | (Accept _, inr r) :: h
  | (OpenFile _ _, inr r) :: h | (InotifyInit _, inr r) :: h => {[rval r]} ∪ live h
  | (Close fd, _) :: h => live h ∖ {[fd]}
  | _ :: h => live h
  end.

(** Calls that neither create nor close a descriptor. *)
Definition quiet (c : call) : bool :=
  match c with
  | SocketCall _ _ _ | Accept _ | OpenFile _ _ | InotifyInit _ | Close _ => false
  | _ => true
  end.

(** What [socket(2)], [accept(2)], [open(2)] and [inotify_init(2)] promise: a
    new descriptor is not negative and not one that is in use. *)
Class FreshFds : Prop := {
  socket_fresh : ∀ h f t p r, answer h (SocketCall f t p) = inr r → 0 <= rval r ∧ rval r ∉ live h;
  accept_fresh : ∀ h fd r, answer h (Accept fd) = inr r → 0 <= rval r ∧ rval r ∉ live h;
  open_fresh : ∀ h p fl r, answer h (OpenFile p fl) = inr r → 0 <= rval r ∧ rval r ∉ live h;
  inotify_fresh : ∀ h fl r, answer h (InotifyInit fl) = inr r → 0 <= rval r ∧ rval r ∉ live h;
}.

(** [s'] is a later state with the same descriptors and environment. *)
Definition same_fds s s' : Prop := live (history s') = live (history s) ∧ environ s' = environ s.

Lemma same_fds_refl s : same_fds s s.
Proof. done. Qed.
Lemma same_fds_trans s1 s2 s3 : same_fds s1 s2 → same_fds s2 s3 → same_fds s1 s3.
Proof. intros [H1 E1] [H2 E2]. split; congruence. Qed.

Lemma live_quiet c x h : quiet c = true → live ((c, x) :: h) = live h.
Proof. by destruct c. Qed.

Lemma wp_quiet c s :
  quiet c = true → wp (invoke c) (λ _ s', same_fds s s') s.
Proof. intros Hq. apply wp_invoke; intros x _; (split; [by apply live_quiet|done]). Qed.

Lemma wp_quiet_int c s :
  quiet c = true → wp (invoke_int c) (λ _ s', same_fds s s') s.
Proof. intros Hq. apply wp_invoke_int; intros x _; (split; [by apply live_quiet|done]). Qed.

Import ServerSocket.

Lemma add_fl_quiet fd flags s : wp (add_fl fd flags) (λ _ s', same_fds s s') s.
Proof.
  unfold add_fl. wp_step. eapply wp_mono; [by apply wp_quiet_int|]. intros old s1 H1. wp_step.
  eapply wp_mono; [by apply wp_quiet|]. intros r s2 H2. wp_step. exact (same_fds_trans _ _ _ H1 H2).
Qed.

Lemma add_fd_quiet fd flags s : wp (add_fd fd flags) (λ _ s', same_fds s s') s.
Proof.
  unfold add_fd. wp_step. eapply wp_mono; [by apply wp_quiet_int|]. intros old s1 H1. wp_step.
  eapply wp_mono; [by apply wp_quiet|]. intros r s2 H2. wp_step. exact (same_fds_trans _ _ _ H1 H2).
Qed.

Lemma force_flags_quiet fd flags s :
  wp (InetServer.force_flags fd flags) (λ _ s', same_fds s s') s.
Proof.
  unfold InetServer.force_flags. wp_step. apply wp_mono with (Q := λ _ s', same_fds s s').
  - destruct (has flags O_NONBLOCK); [apply add_fl_quiet|by wp_step].
  - intros ok s1 H1. destruct ok; [|by wp_step].
    destruct (has flags O_CLOEXEC); [|by wp_step].
    eapply wp_mono; [apply add_fd_quiet|]. intros r s2 H2. exact (same_fds_trans _ _ _ H1 H2).
Qed.

Lemma listen_quiet x n s :
  wp (listen x n) (λ r s', same_fds s s' ∧ fd_ r.2 = fd_ x ∧ active r.2 = active x) s.
Proof.
  unfold listen. wp_step. eapply wp_mono; [by apply wp_quiet|]. intros [r|] s1 H1; by wp_step.
Qed.

Lemma close_quiet fd s :
  wp (invoke (Close fd)) (λ _ s', live (history s') = live (history s) ∖ {[fd]}
                                  ∧ environ s' = environ s) s.
Proof. apply wp_invoke; by intros x _. Qed.

(** An accepted client is one more descriptor; without a client there is none. *)
Lemma acceptOne_spec x s :
  FreshFds →
  wp (acceptOne x) (λ r s', environ s' = environ s ∧ match r with
    | Some c => (c ∉ live (history s)) ∧ live (history s') = {[c]} ∪ live (history s)
    | None => live (history s') = live (history s)
    end) s.
Proof.
  intros HF. unfold acceptOne. wp_step. apply wp_invoke; [intros e _; by wp_step|].
  intros r Hr. destruct (accept_fresh _ _ _ Hr) as [Hpos Hnew].
  replace (rval r <? 0) with false by lia. destruct (flags_ x =? 0); cbn [negb]; [by wp_step|].
  wp_step. eapply wp_mono; [apply add_fl_quiet|]. intros ok s1 [H1 E1]. simpl in *.
  destruct ok; [wp_step; by rewrite H1|]. wp_step. eapply wp_mono; [apply close_quiet|].
  intros _ s2 [H2 E2]. wp_step. split; [congruence|]. rewrite H2, H1. set_solver.
Qed.

Lemma handleOne_spec x s :
  FreshFds →
  wp (handleOne x) (λ r s', environ s' = environ s ∧ match r with
    | (true, Some (Some c)) => (c ∉ live (history s)) ∧ live (history s') = {[c]} ∪ live (history s)
    | (false, None) | (false, Some None) => live (history s') = live (history s)
    | _ => False
    end) s.
Proof.
  intros HF. unfold handleOne. wp_step. eapply wp_mono; [by apply acceptOne_spec|].
  intros [c|] s1 H1; [by wp_step|]. os_step. os_step. destruct (_ || _); by wp_step.
Qed.

Lemma stop_spec x : fd_ (stop x) = fd_ x ∧ active (stop x) = false.
Proof. unfold stop. by destruct (active x) eqn:E. Qed.

Lemma close_spec x s :
  wp (ServerSocket.close x) (λ x' s', fd_ x' < 0 ∧ (active x = false ∨ 0 <= fd_ x → active x' = false)
    ∧ environ s' = environ s
    ∧ live (history s') = (if isOpen x then live (history s) ∖ {[fd_ x]} else live (history s))) s.
Proof.
  unfold ServerSocket.close, isOpen. destruct (Z.ltb_spec (fd_ x) 0).
  - wp_step. replace (0 <=? fd_ x) with false by lia. split_and!; [lia| |done|done].
    intros [?|?]; [done|lia].
  - replace (0 <=? fd_ x) with true by lia. wp_step. eapply wp_mono; [apply close_quiet|].
    destruct (stop_spec x) as [-> Hst]. intros _ s1 [H1 E1]. wp_step. simpl. by split_and!.
Qed.
End live.

(** ** Opening *)
Section open.
Context {os : OS} {T : InetText}.
Import ServerSocket InetServer.
Implicit Types (s : os_state) (i : InetServer).

(** Neither the parent process nor systemd passes descriptors. *)
Definition nothing_passed s : Prop :=
  environ s !! X0_LISTEN_FDS = None ∧ environ s !! "LISTEN_PID"%string = None.

(** The end of an [open] that held the descriptors [F]: it succeeded with a
    new one, or failed with those from before. *)
Definition opened (F : gset Z) s (ok : bool) (x : ServerSocket) s' : Prop :=
  environ s' = environ s ∧
  if ok
  then 0 <= fd_ x ∧ active x = true ∧ (fd_ x ∉ F) ∧ live (history s') = {[fd_ x]} ∪ F
  else fd_ x < 0 ∧ active x = false ∧ live (history s') = F.

Definition open_post (F : gset Z) s (r : bool * InetServer) s' : Prop :=
  opened F s r.1 (server r.2) s'.

Lemma fail_spec F s i fd s1 :
  active (server i) = false → environ s1 = environ s → 0 <= fd → fd ∉ F →
  live (history s1) = {[fd]} ∪ F →
  wp (fail i fd) (open_post F s) s1.
Proof.
  intros Ha He Hfd HF Hl. unfold fail. wp_step. replace (0 <=? fd) with true by lia.
  wp_step. eapply wp_mono; [apply close_quiet|]. intros _ s2 [H2 E2]. wp_step. wp_step.
  split; [simpl; congruence|]. simpl. split_and!; [lia|done|]. rewrite H2, Hl. set_solver.
Qed.

Lemma fail_nothing s i s1 :
  active (server i) = false → same_fds s s1 → wp (fail i (-1)) (open_post (live (history s)) s) s1.
Proof. intros Ha [Hl He]. unfold fail. wp_step. change (0 <=? -1) with false. wp_step. wp_step. by simpl. Qed.

Lemma finish_spec F s i fd s1 :
  active (server i) = false → environ s1 = environ s → 0 <= fd → fd ∉ F →
  live (history s1) = {[fd]} ∪ F →
  wp (finish i fd) (open_post F s) s1.
Proof.
  intros Ha He Hfd HF Hl. unfold finish, start. wp_step. wp_step.
  wp_step; [unfold isOpen; simpl; lia|]. wp_step. wp_step; [simpl; by rewrite Ha|].
  wp_step. wp_step. split; [done|]. by simpl.
Qed.

Lemma bind_spec i a port s :
  family_ a = AF_INET →
  wp (bind i a port) (λ r s', same_fds s s' ∧ fd_ (server r.2) = fd_ (server i)
                              ∧ active (server r.2) = active (server i)) s.
Proof.
  intros Hf. unfold bind, IPAddress.size. rewrite Hf. cbn -[take replicate].
  wp_step. eapply wp_mono; [by apply wp_quiet|]. intros [r|] s1 H1; by wp_step.
Qed.

Lemma reuse_quiet fd (b : bool) s :
  wp (if b then r ← invoke_int (Setsockopt fd SOL_SOCKET SO_REUSEPORT 1); mret (r =? 0)
      else mret false) (λ _ s', same_fds s s') s.
Proof.
  destruct b; [|by wp_step]. wp_step. eapply wp_mono; [by apply wp_quiet_int|].
  intros r s1 H1. by wp_step.
Qed.

Lemma create_spec i a port flags s :
  FreshFds → family_ a = AF_INET → active (server i) = false →
  wp (create i a port flags) (open_post (live (history s)) s) s.
Proof.
  intros HF Hfam Ha. unfold create. wp_step. apply wp_invoke_int.
  { intros e _. by apply fail_nothing. }
  intros r Hr. destruct (socket_fresh _ _ _ _ _ Hr) as [Hpos Hnew].
  replace (rval r <? 0) with false by lia. set (fd := rval r) in *. set (F := live (history s)) in *.
  set (s0 := Os _ _ _).
  assert (∀ i1 s1, active (server i1) = false → same_fds s0 s1 →
            wp (fail i1 fd) (open_post F s) s1) as Hfail.
  { intros i1 s1 Ha1 [Hl He]. by apply fail_spec. }
  wp_step. eapply wp_mono; [apply force_flags_quiet|]. intros [] s1 H1; [|by apply Hfail].
  cbn [negb]. wp_step. eapply wp_mono; [by apply wp_quiet_int|]. intros r2 s2 H2.
  pose proof (same_fds_trans _ _ _ H1 H2) as H02. destruct (r2 <? 0); [by apply Hfail|].
  wp_step. eapply wp_mono; [apply reuse_quiet|]. intros b s3 H3.
  pose proof (same_fds_trans _ _ _ H02 H3) as H03.
  wp_step. eapply wp_mono; [by apply wp_quiet_int|]. intros r4 s4 H4.
  pose proof (same_fds_trans _ _ _ H03 H4) as H04. destruct (r4 <? 0); [by apply Hfail|].
  wp_step. eapply wp_mono; [by apply bind_spec|]. intros [ok5 i5] s5 (H5 & _ & Ha5). simpl in *.
  pose proof (same_fds_trans _ _ _ H04 H5) as H05.
  destruct ok5; cbn [negb]; [|apply Hfail; [congruence|done]].
  wp_step. eapply wp_mono; [apply listen_quiet|]. intros [ok6 x6] s6 (H6 & _ & Ha6). simpl in *.
  pose proof (same_fds_trans _ _ _ H05 H6) as H06. destruct H06 as [Hl6 He6].
  destruct ok6; cbn [negb]; [apply finish_spec|apply Hfail]; simpl; try done; congruence.
Qed.

Lemma open_spec i a port flags s :
  FreshFds → nothing_passed s → family_ a = AF_INET → active (server i) = false →
  wp (open i a port flags) (open_post (live (history s)) s) s.
Proof.
  intros HF [Hx Hp] Hfam Ha. unfold open, SdDaemon.sd_listen_fds, SdDaemon.listen_fds_body.
  os_step. os_step. os_step. os_step. rewrite Hp. os_step. os_step. os_step. os_step.
  unfold IPAddress.str at 1. rewrite Hfam. os_step. eapply wp_Ok; [reflexivity|].
  os_step. unfold ListenFds.getSocketInet. os_step. os_step. rewrite Hx. os_step.
  cbn [Z.leb Z.ltb]. by apply create_spec.
Qed.

(** C12: [open] of a server that does not watch, at any IPv4 address and in a
    process that was passed no descriptors, returns: open and watching with a
    descriptor that was not in use, or closed with the descriptor given back,
    whichever call fails; the environment stays as it is. *)
Theorem inet_open_outcome i a port flags s :
  FreshFds → nothing_passed s → family_ a = AF_INET → active (server i) = false →
  wp (open i a port flags) (λ r s', environ s' = environ s ∧
    if r.1
    then 0 <= fd_ (server r.2) ∧ active (server r.2) = true ∧ (fd_ (server r.2) ∉ live (history s))
         ∧ live (history s') = {[fd_ (server r.2)]} ∪ live (history s)
    else fd_ (server r.2) < 0 ∧ active (server r.2) = false
         ∧ live (history s') = live (history s)) s.
Proof. intros HF Hn Hfam Ha. eapply wp_mono; [by apply open_spec|]. by intros [[] i'] s' H. Qed.

(** *** Socket activation without a socket that fits *)

Lemma not_a_socket fd type listening s (Q : Z → os_state → Prop) :
  (∀ h st, answer h (Fstat fd) = inr st → S_ISSOCK (rval st) = false) →
  (∀ h e, answer h (Fstat fd) = inl e → 0 < e) →
  (∀ r s', r <= 0 → environ s' = environ s → Q r s') →
  wp (SdDaemon.sd_is_socket_internal fd type listening) Q s.
Proof.
  intros Hs He HQ. unfold SdDaemon.sd_is_socket_internal.
  destruct (_ || _); [wp_step; by apply HQ|]. wp_step. apply wp_invoke.
  - intros e Hans. os_step. os_step. os_step. simpl. specialize (He _ _ Hans). apply HQ; [lia|done].
  - intros r Hans. rewrite (Hs _ _ Hans). cbn [negb]. wp_step. by apply HQ.
Qed.

Lemma search_systemd_none n : ∀ fd family port flags s,
  (∀ h j st, fd <= j < fd + Z.of_nat n → answer h (Fstat j) = inr st → S_ISSOCK (rval st) = false) →
  (∀ h j e, answer h (Fstat j) = inl e → 0 < e) →
  wp (search_systemd n fd family port flags)
     (λ r s', r = NotFound (fd + Z.of_nat n) ∧ environ s' = environ s) s.
Proof.
  induction n as [|n IH]; intros fd family port flags s Hs He; cbn [search_systemd].
  { wp_step. split; [f_equal; lia|done]. }
  assert (∀ c r s1, r <= 0 → environ s1 = environ s →
    wp (if 0 <? r then c else search_systemd n (fd + 1) family port flags)
      (λ r s', r = NotFound (fd + Z.of_nat (S n)) ∧ environ s' = environ s) s1) as Hnext.
  { intros c r s1 Hr E. replace (0 <? r) with false by lia. eapply wp_mono; [apply IH; [|done]|].
    - intros h j st Hj. apply Hs. lia.
    - intros x s2 [-> E2]. split; [f_equal; lia|congruence]. }
  wp_step. unfold SdDaemon.sd_is_socket_inet. destruct (_ && _); [wp_step; by apply Hnext|].
  wp_step. apply not_a_socket; [intros h st; apply Hs; lia|intros h; apply He|].
  intros r s1 Hr E. replace (r <=? 0) with true by lia. wp_step. by apply Hnext.
Qed.

(** When systemd passes [n] descriptors and none of them is a socket,
    [open] fails, and the last thing it does is to close the descriptor
    behind the last one passed, which is not its own. *)
Theorem systemd_miss_closes_foreign i a port flags s pid n :
  family_ a = AF_INET → environ s !! X0_LISTEN_FDS = None →
  environ s !! "LISTEN_PID"%string = Some (fmt_u pid) → 0 < pid <= INT_MAX →
  environ s !! "LISTEN_FDS"%string = Some (fmt_u n) → 0 < n <= INT_MAX - 3 →
  (∀ h, answer h Getpid = inr (ok pid)) →
  (∀ h j, 3 <= j < 3 + n → ∃ r, answer h (Getfd j) = inr r) →
  (∀ h j fl, 3 <= j < 3 + n → ∃ r, answer h (Setfd j fl) = inr r) →
  (∀ h j st, 3 <= j < 3 + n → answer h (Fstat j) = inr st → S_ISSOCK (rval st) = false) →
  (∀ h j e, answer h (Fstat j) = inl e → 0 < e) →
  wp (open i a port flags) (λ r s', r.1 = false ∧ fd_ (server r.2) = -1
    ∧ ∃ x h, history s' = (Close (3 + n), x) :: h) s.
Proof.
  intros Hfam Hx Hpid Hp Hfds Hn Hget Hg Hset Hst He. unfold open. wp_step.
  eapply wp_mono; [eapply (sd_listen_fds_spec s pid n false); eauto; lia|].
  intros r s1 (-> & E1 & _). specialize (E1 eq_refl).
  unfold IPAddress.str at 1. rewrite Hfam. os_step. eapply wp_Ok; [reflexivity|].
  unfold ListenFds.getSocketInet. os_step. os_step. os_step. rewrite E1, Hx. os_step.
  change (0 <=? -1) with false. replace (0 <? n) with true by lia. wp_step.
  eapply wp_mono.
  { apply (search_systemd_none (Z.to_nat n)); [|exact He]. unfold SD_LISTEN_FDS_START.
    rewrite Z2Nat.id by lia. exact Hst. }
  intros r s2 [-> _]. unfold SD_LISTEN_FDS_START, fail. rewrite Z2Nat.id by lia.
  replace (0 <=? 3 + n) with true by lia. wp_step. wp_step.
  apply wp_invoke; intros x _; wp_step; wp_step; simpl; eauto.
Qed.

(** *** Flags of accepted clients *)

Lemma split_flags_plain x flags :
  flags = Z.lor O_NONBLOCK O_CLOEXEC ∨ flags = O_NONBLOCK ∨ flags = O_CLOEXEC →
  flags_ (split_flags x flags) = 0.
Proof. by intros [->|[->| ->]]. Qed.

(** A server opened non-blocking and close-on-exec does not pass these
    flags on: [acceptOne] only accepts, whatever descriptor the system
    answers, and makes no call on the client. *)
Theorem accept_ignores_open_flags x flags s r :
  flags = Z.lor O_NONBLOCK O_CLOEXEC ∨ flags = O_NONBLOCK ∨ flags = O_CLOEXEC →
  answer (history s) (Accept (fd_ x)) = inr r → 0 <= rval r →
  wp (acceptOne (split_flags x flags)) (λ c s', c = Some (rval r)
    ∧ history s' = (Accept (fd_ x), inr r) :: history s) s.
Proof.
  intros Hf Hr Hpos. unfold acceptOne. rewrite split_flags_plain by done. wp_step.
  apply wp_invoke; change (fd_ (split_flags x flags)) with (fd_ x); rewrite Hr; [done|].
  intros r' [= <-]. replace (rval r <? 0) with false by lia. change (negb (0 =? 0)) with false. by wp_step.
Qed.
End open.
