(* ===== verification/ServerLife.v ===== *)
(** * ServerLife: the life of a listening socket

    What InetServer and UnixServer have in common for a program that uses
    them is the class [Listener]; [ListenerSpec] is what the program relies on.
    The life of a server, with its clients, is a step relation over the class,
    and its invariant is proved once for both. *)

From S2P Require Import Prelude Memory BufferBase BufferParse Libc Kernel Os Address SdDaemon Server.

Local Open Scope Z_scope.

(** ** Opening and closing a UNIX domain server *)
Section unix.
Context {os : OS}.
Import ServerSocket UnixServer.
Implicit Types (s : os_state) (u : UnixServer) (path : bytes).

(** The end of an [open], as for InetServer. *)
Definition unix_opened (F : gset Z) s (r : bool * UnixServer) s' : Prop :=
  opened F s r.1 (server r.2) s'.

Lemma unix_fail_spec F s u fd s1 :
  active (server u) = false → environ s1 = environ s → 0 <= fd → fd ∉ F →
  live (history s1) = {[fd]} ∪ F → wp (fail u fd) (unix_opened F s) s1.
Proof.
  intros Ha He Hfd HF Hl. unfold fail. wp_step. replace (0 <=? fd) with true by lia.
  wp_step. eapply wp_mono; [apply close_quiet|]. intros _ s2 [H2 E2]. wp_step. wp_step.
  split; [simpl; congruence|]. simpl. split_and!; [lia|done|]. rewrite H2, Hl. set_solver.
Qed.

Lemma unix_finish_spec F s u fd s1 :
  active (server u) = false → environ s1 = environ s → 0 <= fd → fd ∉ F →
  live (history s1) = {[fd]} ∪ F → wp (finish u fd) (unix_opened F s) s1.
Proof.
  intros Ha He Hfd HF Hl. unfold finish, start. wp_step. wp_step.
  wp_step; [unfold isOpen; simpl; lia|]. wp_step. wp_step; [simpl; by rewrite Ha|].
  wp_step. wp_step. split; [done|]. by simpl.
Qed.

Lemma unix_force_flags_quiet fd flags s : wp (force_flags fd flags) (λ _ s', same_fds s s') s.
Proof. unfold force_flags. destruct (flags =? 0); cbn [negb]; [by wp_step|apply add_fl_quiet]. Qed.

Lemma unix_bind_spec u path s :
  wp (bind u path) (λ r s', same_fds s s' ∧ fd_ (server r.2) = fd_ (server u)
    ∧ active (server r.2) = active (server u)) s.
Proof.
  unfold bind. destruct (_ <=? _); [os_step; os_step; by os_step|].
  wp_step. eapply wp_mono; [by apply wp_quiet|]. intros [r|] s1 H1; by wp_step.
Qed.

Lemma unix_create_spec u path flags s :
  FreshFds → active (server u) = false →
  wp (create u path flags) (unix_opened (live (history s)) s) s.
Proof.
  intros HF Ha. unfold create. wp_step. apply wp_invoke_int.
  { intros e _. change (-1 <? 0) with true. cbv iota. unfold fail.
    change (0 <=? -1) with false. wp_step. wp_step. wp_step. by simpl. }
  intros r Hr. destruct (socket_fresh _ _ _ _ _ Hr) as [Hpos Hnew].
  replace (rval r <? 0) with false by lia. set (fd := rval r) in *. set (F := live (history s)) in *.
  set (s0 := Os _ _ _).
  assert (∀ u1 s1, active (server u1) = false → same_fds s0 s1 →
            wp (fail u1 fd) (unix_opened F s) s1) as Hfail.
  { intros u1 s1 Ha1 [Hl He]. by apply unix_fail_spec. }
  wp_step. eapply wp_mono; [apply unix_force_flags_quiet|]. intros [] s1 H1; [|by apply Hfail].
  cbn [negb]. wp_step. eapply wp_mono; [apply unix_bind_spec|].
  intros [ok2 u2] s2 (H2 & _ & Ha2). simpl in Ha2. pose proof (same_fds_trans _ _ _ H1 H2) as H02.
  destruct ok2; cbn [negb]; [|apply Hfail; [congruence|done]].
  wp_step. eapply wp_mono; [apply listen_quiet|]. intros [ok3 x3] s3 (H3 & _ & Ha3). simpl in Ha3.
  pose proof (same_fds_trans _ _ _ H02 H3) as H03.
  destruct ok3; cbn [negb]; [|apply Hfail; simpl; [congruence|done]].
  wp_step. eapply wp_mono; [by apply wp_quiet|]. intros r4 s4 H4.
  destruct (same_fds_trans _ _ _ H03 H4) as [Hl4 He4].
  apply unix_finish_spec; simpl; try done; congruence.
Qed.

Lemma unix_open_spec u path flags s :
  FreshFds → nothing_passed s → active (server u) = false →
  wp (open u path flags) (unix_opened (live (history s)) s) s.
Proof.
  intros HF [Hx Hp] Ha. unfold open, SdDaemon.sd_listen_fds, SdDaemon.listen_fds_body.
  os_step. os_step. os_step. os_step. rewrite Hp. os_step. os_step. os_step. os_step.
  os_step. unfold ListenFds.getSocketUnix. os_step. os_step. rewrite Hx. os_step.
  cbn [Z.leb Z.ltb]. by apply unix_create_spec.
Qed.

(** The paths that a dialogue has removed, the latest one first. *)
Definition unlinked (h : list event) : list bytes :=
  omap (λ e, match e.1 with Unlink p => Some p | _ => None end) h.

Lemma base_close_unlinks x s :
  wp (ServerSocket.close x) (λ _ s', unlinked (history s') = unlinked (history s)) s.
Proof.
  unfold ServerSocket.close. destruct (_ <? _); [by wp_step|]. wp_step.
  apply wp_invoke; intros r _; by wp_step.
Qed.

(** [close] removes the path of a bound server.  It does so each time: after a
    first [close] a second one removes the path again, whoever has bound it
    since. *)
Theorem unix_close_unlinks_foreign u s :
  path_ u ≠ [] →
  wp (u ← close u; close u) (λ _ s',
    unlinked (history s') = path_ u :: path_ u :: unlinked (history s)) s.
Proof.
  intros Hp. assert (Hc : ∀ v s, path_ v = path_ u →
    wp (close v) (λ v' s', path_ v' = path_ u ∧ unlinked (history s') = path_ u :: unlinked (history s)) s).
  { intros v s1 Hv. unfold close. wp_step. eapply wp_mono; [apply base_close_unlinks|].
    intros x s2 H2. rewrite Hv, bool_decide_eq_false_2 by done. cbn [negb]. wp_step. wp_step.
    apply wp_invoke; intros r _; wp_step; wp_step; (split; [done|]);
      change (path_ u :: unlinked (history s2) = path_ u :: unlinked (history s1)); by rewrite H2. }
  wp_step. eapply wp_mono; [by apply Hc|]. intros v s1 [Hv H1].
  eapply wp_mono; [by apply Hc|]. intros _ s2 [_ H2]. by rewrite H2, H1.
Qed.

(** Destroying an open server leaves its path in the file system. *)
Theorem unix_destroy_keeps_path u s :
  wp (destroy u) (λ _ s', unlinked (history s') = unlinked (history s)) s.
Proof.
  unfold destroy, ServerSocket.destroy. set (x := if active _ then _ else _).
  destruct (isOpen x); wp_step; [|by wp_step].
  eapply wp_mono; [apply base_close_unlinks|]. intros. by wp_step.
Qed.
End unix.

(** ** Listeners *)

(** A server as its user sees it: the socket in it, an [open] with some
    arguments as the relation between the states before and after, and
    [close]. *)
Class Listener {os : OS} (L : Type) : Type := {
  sock : L → ServerSocket;
  with_sock : L → ServerSocket → L;
  opens : L → os_state → bool → L → os_state → Prop;
  closes : L → OM L;
}.

Class ListenerSpec {os : OS} L `{!Listener L} : Prop := {
  sock_with i x : sock (with_sock i x) = x;
  opens_spec i s ok i' s' :
    FreshFds → nothing_passed s → active (sock i) = false → opens i s ok i' s' →
    opened (live (history s)) s ok (sock i') s';
  (** a closed server has no descriptor and is not watched *)
  closes_spec i s :
    wp (closes i) (λ i' s', fd_ (sock i') < 0
      ∧ (active (sock i) = false ∨ 0 <= fd_ (sock i) → active (sock i') = false)
      ∧ environ s' = environ s
      ∧ live (history s') = (if ServerSocket.isOpen (sock i) then live (history s) ∖ {[fd_ (sock i)]}
                             else live (history s))) s;
}.

Section life.
Context {os : OS} {L : Type} `{LS : !Listener L}.
Import ServerSocket.
Implicit Types (s : os_state) (i : L).

(** A server, the clients it has passed on and the system. *)
Record life : Type := Life { lserver : L; clients : gset Z; lsys : os_state }.

(** What a program does with a server that nothing is passed to: open it
    while it is closed, let the event loop accept while it watches, stop and
    start watching, close it, and close a client. *)
Inductive life_step : life → life → Prop :=
| life_open i cs s r i' s' :
    isOpen (sock i) = false → opens i s r i' s' → life_step (Life i cs s) (Life i' cs s')
| life_accept i cs s r c s' :
    active (sock i) = true →
    handleOne (sock i) s = Ok ((r, c), s') →
    life_step (Life i cs s)
      (Life i (match c with Some (Some c) => {[c]} ∪ cs | _ => cs end) s')
| life_stop i cs s :
    life_step (Life i cs s) (Life (with_sock i (stop (sock i))) cs s)
| life_start i cs s x s' :
    start (sock i) s = Ok (x, s') →
    life_step (Life i cs s) (Life (with_sock i x) cs s')
| life_close i cs s i' s' :
    closes i s = Ok (i', s') → life_step (Life i cs s) (Life i' cs s')
| life_drop i cs s c r s' :
    c ∈ cs → invoke (Close c) s = Ok (r, s') →
    life_step (Life i cs s) (Life i (cs ∖ {[c]}) s').

(** The descriptor of an open server. *)
Definition own_fd i : gset Z := if isOpen (sock i) then {[fd_ (sock i)]} else ∅.

Record life_inv (l : life) : Prop := {
  li_live : live (history (lsys l)) = own_fd (lserver l) ∪ clients l;
  li_apart : own_fd (lserver l) ## clients l;
  li_active : isOpen (sock (lserver l)) = false → active (sock (lserver l)) = false;
  li_env : nothing_passed (lsys l);
}.

Lemma nothing_passed_env s s' : environ s' = environ s → nothing_passed s → nothing_passed s'.
Proof. unfold nothing_passed. by intros ->. Qed.

Context `{!ListenerSpec L}.

Lemma life_open_inv i cs s r i' s' :
  FreshFds → isOpen (sock i) = false → opens i s r i' s' →
  life_inv (Life i cs s) → life_inv (Life i' cs s').
Proof.
  intros HF Ho E [Hl Hd Ha He]. simpl in *.
  destruct (opens_spec i s r i' s' HF He (Ha Ho) E) as [He' W]. unfold own_fd in *. rewrite Ho in *.
  rewrite (left_id_L ∅ _) in Hl. destruct r.
  - destruct W as (Hf & Hact & Hn & Hl'). assert (isOpen (sock i') = true) as Ho' by (unfold isOpen; lia).
    split; simpl; unfold own_fd; rewrite ?Ho'; [by rewrite Hl', Hl|set_solver|done|].
    by eapply nothing_passed_env.
  - destruct W as (Hf & Hact & Hl'). assert (isOpen (sock i') = false) as Ho' by (unfold isOpen; lia).
    split; simpl; unfold own_fd; rewrite ?Ho'; [|set_solver|done|by eapply nothing_passed_env].
    by rewrite Hl', Hl, (left_id_L ∅ _).
Qed.

Lemma life_accept_inv i cs s r c s' :
  FreshFds → handleOne (sock i) s = Ok ((r, c), s') → life_inv (Life i cs s) →
  life_inv (Life i (match c with Some (Some c) => {[c]} ∪ cs | _ => cs end) s').
Proof.
  intros HF E [Hl Hd Ha He]. simpl in *.
  pose proof (handleOne_spec (sock i) s HF) as W. unfold wp in W. rewrite E in W.
  destruct W as [He' W]. pose proof (nothing_passed_env _ _ He' He).
  destruct r, c as [[c|]|]; try done; split; simpl; try done; try congruence;
    destruct W as [Hc W]; [rewrite W, Hl|rewrite Hl in Hc]; set_solver.
Qed.

Lemma life_close_inv i cs s i' s' :
  closes i s = Ok (i', s') → life_inv (Life i cs s) → life_inv (Life i' cs s').
Proof.
  intros E [Hl Hd Ha He]. simpl in *. pose proof (closes_spec i s) as W. unfold wp in W.
  rewrite E in W. destruct W as (Hf & Hact & He' & Hl').
  assert (isOpen (sock i') = false) as Ho by (unfold isOpen; lia).
  assert (active (sock i') = false) as Hx.
  { apply Hact. unfold isOpen in Ha. destruct (Z.leb_spec 0 (fd_ (sock i))); auto. }
  split; simpl; unfold own_fd; simpl; rewrite ?Ho; [|set_solver|done|by eapply nothing_passed_env].
  rewrite Hl', Hl, (left_id_L ∅ _). unfold own_fd in *. destruct (isOpen (sock i)); set_solver.
Qed.

Lemma life_step_inv l l' : FreshFds → life_step l l' → life_inv l → life_inv l'.
Proof.
  intros HF Hs. destruct Hs.
  - by eapply life_open_inv.
  - by eapply life_accept_inv.
  - intros [Hl Hd Ha He]. simpl in *. destruct (stop_spec (sock i)) as [Hf Hst].
    split; unfold own_fd, isOpen in *; simpl; rewrite ?sock_with, ?Hf, ?Hst; done.
  - rename select (start _ _ = _) into E. intros [Hl Hd Ha He]. simpl in *. unfold start in E.
    unfold assert in E. destruct (isOpen (sock i)) eqn:Ho; [|done].
    destruct (negb (active (sock i))); [|done]. injection E as <- <-.
    split; unfold own_fd in *; simpl; rewrite ?sock_with; unfold isOpen in *; simpl in *;
      rewrite ?Ho in *; done.
  - by eapply life_close_inv.
  - rename select (invoke _ _ = _) into E. intros [Hl Hd Ha He]. simpl in *.
    pose proof (close_quiet c s) as W. unfold wp in W. rewrite E in W. destruct W as [Hl' He'].
    split; simpl; [|set_solver|done|by eapply nothing_passed_env].
    rewrite Hl', Hl. set_solver.
Qed.

Lemma life_reachable l l' : FreshFds → rtc life_step l l' → life_inv l → life_inv l'.
Proof. intros HF Hr. induction Hr as [|l1 l2 l3 H12 _ IH]; eauto using life_step_inv. Qed.

Lemma life_start_inv i s :
  nothing_passed s → history s = [] → isOpen (sock i) = false → active (sock i) = false →
  life_inv (Life i ∅ s).
Proof.
  intros Hn Hh Ho Ha. split; simpl; unfold own_fd; rewrite ?Ho; [by rewrite Hh|set_solver|done|done].
Qed.

(** What the invariant says to a user. *)
Definition no_leak (l : life) : Prop :=
  live (history (lsys l)) = own_fd (lserver l) ∪ clients l ∧ own_fd (lserver l) ## clients l
  ∧ (isOpen (sock (lserver l)) = false → active (sock (lserver l)) = false).

Lemma life_no_leak i s l :
  FreshFds → nothing_passed s → history s = [] →
  isOpen (sock i) = false → active (sock i) = false →
  rtc life_step (Life i ∅ s) l → no_leak l.
Proof.
  intros HF Hn Hh Ho Ha Hr.
  destruct (life_reachable _ _ HF Hr (life_start_inv i s Hn Hh Ho Ha)). by split_and!.
Qed.
End life.

Arguments life : clear implicits.

(** ** The two servers are listeners *)
Section listeners.
Context {os : OS} {T : InetText}.

#[export] Instance inet_listener : Listener InetServer.InetServer := {|
  sock := InetServer.server;
  with_sock := InetServer.with_server;
  opens := λ i s ok i' s', ∃ a port flags, family_ a = AF_INET
             ∧ InetServer.open i a port flags s = Ok ((ok, i'), s');
  closes := InetServer.close;
|}.

#[export] Instance inet_listener_spec : ListenerSpec InetServer.InetServer.
Proof.
  split.
  - done.
  - intros i s ok i' s' HF Hn Ha (a & port & flags & Hfam & E).
    pose proof (open_spec i a port flags s HF Hn Hfam Ha) as W. unfold wp in W. by rewrite E in W.
  - intros i s. simpl. unfold InetServer.close. wp_step. eapply wp_mono; [apply close_spec|].
    intros x s' H. by wp_step.
Qed.

#[export] Instance unix_listener : Listener UnixServer.UnixServer := {|
  sock := UnixServer.server;
  with_sock := λ u x, UnixServer.mkUnix x (UnixServer.path_ u);
  opens := λ u s ok u' s', ∃ path flags, UnixServer.open u path flags s = Ok ((ok, u'), s');
  closes := UnixServer.close;
|}.

#[export] Instance unix_listener_spec : ListenerSpec UnixServer.UnixServer.
Proof.
  split.
  - done.
  - intros i s ok i' s' HF Hn Ha (path & flags & E).
    pose proof (unix_open_spec i path flags s HF Hn Ha) as W. unfold wp in W. by rewrite E in W.
  - intros i s. simpl. unfold UnixServer.close. wp_step. eapply wp_mono; [apply close_spec|].
    intros x s1 (? & ? & E1 & L1). wp_step.
    apply (wp_mono _ (λ _ s2, same_fds s1 s2)).
    { destruct (negb _); [|by wp_step]. wp_step. eapply wp_mono; [by apply wp_quiet|]. intros. by wp_step. }
    intros _ s2 [L2 E2]. wp_step. simpl. split_and!; [done..|congruence|by rewrite L2].
Qed.

(** C3: a server that is passed no descriptors and is opened only while it is
    closed, at IPv4 addresses: at every point of its life, in any order of
    opening, accepting, stopping, starting and closing and whatever the system
    answers, the descriptors that the process holds are those of the clients and,
    while the server is open, its own, which is none of the clients'; and a
    closed server does not watch. *)
Theorem server_life_no_leak s (l : life InetServer.InetServer) :
  FreshFds → nothing_passed s → history s = [] → rtc life_step (Life InetServer.new ∅ s) l →
  live (history (lsys l)) = own_fd (lserver l) ∪ clients l ∧ own_fd (lserver l) ## clients l
  ∧ (ServerSocket.isOpen (InetServer.server (lserver l)) = false →
     active (InetServer.server (lserver l)) = false).
Proof. intros HF Hn Hh Hr. by apply (life_no_leak _ s l HF Hn Hh) in Hr. Qed.

(** The same for a server on a UNIX domain socket. *)
Theorem unix_server_life_no_leak s (l : life UnixServer.UnixServer) :
  FreshFds → nothing_passed s → history s = [] → rtc life_step (Life UnixServer.new ∅ s) l →
  live (history (lsys l)) = own_fd (lserver l) ∪ clients l ∧ own_fd (lserver l) ## clients l
  ∧ (ServerSocket.isOpen (UnixServer.server (lserver l)) = false →
     active (UnixServer.server (lserver l)) = false).
Proof. intros HF Hn Hh Hr. by apply (life_no_leak _ s l HF Hn Hh) in Hr. Qed.

(** Opening a server that is open but does not watch forgets its descriptor,
    which stays open. *)
Theorem server_reopen_leaks i a port flags s :
  FreshFds → nothing_passed s → family_ a = AF_INET → active (InetServer.server i) = false →
  0 <= fd_ (InetServer.server i) → fd_ (InetServer.server i) ∈ live (history s) →
  wp (InetServer.open i a port flags) (λ r s',
    fd_ (InetServer.server r.2) ≠ fd_ (InetServer.server i)
    ∧ fd_ (InetServer.server i) ∈ live (history s')) s.
Proof.
  intros HF Hn Hfam Ha Hpos Hin. eapply wp_mono; [by apply open_spec|].
  intros [[] j] s' [_ H]; simpl in *.
  - destruct H as (_ & _ & Hni & ->). split; [intros E; by rewrite E in Hni|]. set_solver.
  - destruct H as (? & _ & ->). split; [lia|done].
Qed.
End listeners.
