(* ===== verification/Accepting.v ===== *)
(** * Accepting: callbacks and several clients at a time
    (include/xio/ServerSocket.h, lib/ServerSocket.cpp)

    A ServerSocket has two ways to name what is called for a new client: the
    member [callback], and the function template [set] with its thunk.  With
    WITH_MULTI_ACCEPT the event loop's call takes up to [multiAcceptCount_]
    clients. *)

From S2P Require Import Prelude Memory BufferBase BufferParse MutableBuffer BufferSpec Libc Kernel.
From S2P Require Import Os Address SdDaemon Server.

Local Open Scope Z_scope.

Module Accepting.
(** The members; functions and objects are known by numbers. *)
Record callbacks : Type := mkCallbacks {
  callback : option nat;
  callback_ : option nat;
  callbackData_ : option nat;
}.

Section ops.
Context {os : OS}.
Implicit Types (x : callbacks) (s : ServerSocket).

Definition new : callbacks := mkCallbacks None None None.

(** [set<K, cb>(object)]; [thunk] is [callback_thunk<K, cb>]. *)
Definition set x (thunk object : nat) : callbacks :=
  mkCallbacks (callback x) (Some thunk) (Some object).

(** [callback_thunk<K, cb>(cs, ss)]: the object on which [cb] is called. *)
Definition callback_thunk x : OM nat :=
  match callbackData_ x with Some object => mret object | None => ub end.

(** std::bad_function_call *)
Definition throw : OM (bool * option (nat * option Z)) := λ _, Abort.

(** [handleOne()] with the call of [callback]: an empty one throws. *)
Definition handleOne x s : OM (bool * option (nat * option Z)) :=
  r ← ServerSocket.handleOne s;
  match r.2 with
  | None => mret (r.1, None)
  | Some client =>
      match callback x with
      | None => throw
      | Some f => mret (r.1, Some (f, client))
      end
  end.

(** [for (size_t n = multiAcceptCount_; n > 0; --n) if (!handleOne()) break;]:
    the calls in order. *)
Fixpoint accept_multi x s (n : nat) : OM (list (nat * option Z)) :=
  match n with
  | O => mret []
  | S n =>
      handleOne x s ≫= λ r : bool * option (nat * option Z),
      if r.1 then rest ← accept_multi x s n; mret (option_list r.2 ++ rest)
      else mret (option_list r.2)
  end.
End ops.
End Accepting.
Import Accepting.

Section accepting.
Context {os : OS}.
Implicit Types (x : callbacks) (s : ServerSocket) (o : os_state).

Lemma handleOne_calls x s f o :
  FreshFds → callback x = Some f →
  wp (handleOne x s) (λ r o', environ o' = environ o ∧
    if r.1 then ∃ fd, r.2 = Some (f, Some fd) ∧ (fd ∉ live (history o))
                      ∧ live (history o') = {[fd]} ∪ live (history o)
    else (r.2 = None ∨ r.2 = Some (f, None)) ∧ live (history o') = live (history o)) o.
Proof.
  intros HF Hf. unfold handleOne. rewrite Hf. wp_step. eapply wp_mono; [by apply Server.handleOne_spec|].
  intros [[] [[fd|]|]] o1 [He H]; try done; cbn [fst snd]; wp_step; simpl; split; eauto.
Qed.

(** Of a round of accepts every descriptor is handed to the callback once and
    is new; there are at most as many calls as clients were asked for, and
    only the last of them may be the one that reports an error. *)
Theorem accept_multi_accounts x s f n : ∀ o,
  FreshFds → callback x = Some f →
  wp (accept_multi x s n) (λ calls o', ∃ fds err,
    calls = ((λ fd, (f, Some fd)) <$> fds) ++ err ∧ (err = [] ∨ err = [(f, None)])
    ∧ (length calls <= n)%nat ∧ NoDup fds ∧ (∀ fd, fd ∈ fds → fd ∉ live (history o))
    ∧ live (history o') = list_to_set fds ∪ live (history o) ∧ environ o' = environ o) o.
Proof.
  induction n as [|n IH]; intros o HF Hf; cbn [accept_multi].
  { wp_step. exists [], []. split_and!; [done|by left|done|constructor|set_solver|set_solver|done]. }
  wp_step. eapply wp_mono; [by eapply handleOne_calls|]. intros [ok call] o1 [He H]. cbn [fst snd] in *.
  destruct ok.
  - destruct H as (fd & -> & Hn & Hl). wp_step. eapply wp_mono; [by apply IH|].
    intros calls o2 (fds & err & -> & Herr & Hlen & Hnd & Hnew & Hl2 & He2). wp_step.
    exists (fd :: fds), err. split_and!; try done.
    + simpl. lia.
    + constructor; [|done]. intros Hin. apply (Hnew fd Hin). rewrite Hl. set_solver.
    + intros fd' [->|Hin]%elem_of_cons; [done|]. specialize (Hnew fd' Hin). rewrite Hl in Hnew. set_solver.
    + rewrite Hl2, Hl, list_to_set_cons. set_solver.
    + congruence.
  - destruct H as [Hcall Hl]. wp_step. exists [], (option_list call).
    split_and!; [done| | |constructor|set_solver|set_solver|done]; destruct Hcall as [->| ->]; simpl; auto with lia.
Qed.

(** What is set with [set] is never called: a server that has nothing else
    throws when its first client comes. *)
Theorem set_callback_lost thunk object s o fd o' :
  ServerSocket.acceptOne s o = Ok (Some fd, o') →
  handleOne (set new thunk object) s o = Abort.
Proof.
  intros E. unfold handleOne, ServerSocket.handleOne, mbind, ST_bind. by rewrite E.
Qed.
End accepting.
