(* ===== verification/Pipe.v ===== *)
(** * Pipe (include/xio/Pipe.h, lib/Pipe.cpp)

    A kernel pipe with a count of the bytes that it holds.  The invariant of
    the class is that the count [size_] is the number of bytes in the kernel's
    queue; which operations keep it, and which do not, is what is shown here. *)

From S2P Require Import Prelude Memory BufferBase BufferParse MutableBuffer BufferSpec Kernel.

Local Open Scope Z_scope.

(** [Stream::Mode] *)
Inductive Mode := COPY | MOVE.

(** ** Reading from a descriptor into a Buffer *)
Section read_into.
Context `{Kernel} {AL : Allocator}.

(** The capacity that is asked for when fewer than 256 bytes are free:
    [max(4096, (size_t)(size * 1.5))]; the product is exact in a [double]
    for every size below 2^51. *)
Definition read_room (size : Z) : Z := Z.max 4096 (size * 3 / 2).

Definition read_reserve (result : MutableBuffer) : WW (bool * MutableBuffer) :=
  if u64 (capacity_ result - size_ result) <? 256
  then lift (MutableBuffer.reserve (E := mutableEnsure) result (read_room (size_ result)))
  else mret (true, result).

(** The loop of [Pipe::read(Buffer&, size_t)] and of
    [Socket::read(Buffer&, size_t)]. *)
Fixpoint read_loop (fuel : nat) (fd : Z) (result : MutableBuffer) (size nread : Z) :
    WW (Z * MutableBuffer) :=
  match fuel with
  | O => nofuel
  | S fuel =>
      if negb (0 <? size) then mret (nread, result)
      else
        read_reserve result ≫= λ r : bool * MutableBuffer,
        let '(ok, result) := r in
        if negb ok then
          set_errno ENOMEM;; mret (if negb (nread =? 0) then nread else -1, result)
        else
          let nbytes := Z.min (u64 (capacity_ result - size_ result)) size in
          rv ← read fd (BufferBase.end_ result) nbytes;
          if rv <=? 0 then mret (if negb (nread =? 0) then nread else rv, result)
          else
            let result := (MutableBuffer.resize result (u64 (size_ result + rv))).2 in
            if rv <? nbytes then mret (nread + rv, result)
            else read_loop fuel fd result (u64 (size - rv)) (nread + rv)
  end.
End read_into.

Section read_into_spec.
Context {K : Kernel} {KL : KernelLaws K} {AL : Allocator}.
Implicit Types (w : world) (b : MutableBuffer) (l d : bytes).

Lemma read_room_spec size cap :
  0 <= size <= ADDR_SPACE → cap - size < 256 →
  size + 256 <= read_room size <= 4 * ADDR_SPACE ∧ 0 < read_room size.
Proof.
  intros Hs Hc. unfold read_room. pose proof (Z.div_mod (size * 3) 2).
  pose proof (Z.mod_pos_bound (size * 3) 2). zlia.
Qed.

(** At least 256 bytes are free afterwards, or there is no memory. *)
Lemma read_reserve_spec w b l :
  mem_wf (wmem w) → mbuf_rep (wmem w) b l → owned (wmem w) b →
  wp (read_reserve b) (λ r w',
    wkern w' = wkern w ∧ mem_wf (wmem w') ∧ mbuf_rep (wmem w') r.2 l ∧ owned (wmem w') r.2
    ∧ moves b r.2 (wmem w) (wmem w')
    ∧ (r.1 = true → 256 <= capacity_ r.2 - size_ r.2)) w.
Proof.
  intros Hwf Hrep Hown. pose proof (rep_capacity _ _ _ Hwf Hrep) as [Hsz Hcap].
  unfold read_reserve. rewrite u64_small by zlia. destruct (Z.ltb_spec (capacity_ b - size_ b) 256).
  2:{ wp_step. simpl. split_and!; try done. apply moves_refl. }
  destruct (read_room_spec (size_ b) (capacity_ b)) as [Hroom Hpos]; [zlia|done|].
  apply wp_lift. unfold MutableBuffer.reserve.
  wp_apply (ensure_ok (E := mutableEnsure) (inv := owned) (wmem w) b l); [done..|lia|].
  intros [ok b'] m' (W & R & O & M & Hok). simpl in *. split; [done|]. split; [done|].
  split; [done|]. split; [done|]. split; [done|]. intros ->.
  pose proof (rep_size _ _ _ R). pose proof (rep_size _ _ _ Hrep). lia.
Qed.

(** [read(fd, b.end(), n)] within the capacity. *)
Lemma wp_read_end w fd c b l n :
  mem_wf (wmem w) → mbuf_rep (wmem w) b l → owned (wmem w) b →
  rd_chan (wkern w) fd = Some c → n <= capacity_ b - size_ b →
  wp (read fd (BufferBase.end_ b) n) (λ rv w', ∃ d,
    took (wkern w) (wkern w') c d ∧ Z.of_nat (length d) <= Z.max 0 n
    ∧ mem_wf (wmem w') ∧ owned (wmem w') b ∧ only_touches (pblk (data_ b)) (wmem w) (wmem w')
    ∧ mbuf_rep (wmem w') (with_size b (size_ b + Z.of_nat (length d))) (l ++ d)
    ∧ (rv = Z.of_nat (length d) ∨ d = [] ∧ rv = -1)) w.
Proof.
  intros Hwf Hrep Hown Hrd Hn. unfold read. wp_step.
  assert (Hnil : mbuf_rep (wmem w) (with_size b (size_ b + Z.of_nat (length (A:=byte) [])))
                   (l ++ [])) by (rewrite Z.add_0_r, with_size_id, app_nil_r; done).
  apply wp_read_local.
  - intros k' e Ht. wp_step. exists []. split; [by apply took_nil|]. split; [simpl; lia|].
    split; [done|]. split; [done|]. split; [apply only_touches_refl|]. auto.
  - intros d c' k' Hc' Hd Htk. assert (c' = c) as -> by congruence. wp_step. apply wp_lift.
    destruct (decide (d = [])) as [->|Hne].
    + eapply wp_Ok; [done|]. wp_step. exists []. split; [done|]. split; [simpl; lia|].
      split; [done|]. split; [done|]. split; [apply only_touches_refl|]. auto.
    + apply (wp_write_behind (inv := owned) (E := mutableEnsure) (wmem w) b l d);
        [done..|simpl in *; lia|].
      intros m' W R O T R2. wp_step. exists d. split; [done|]. split; [lia|].
      split; [done|]. split; [done|]. split; [done|]. auto.
Qed.

(** What the loop has read: [d], now at the end of the buffer; the return
    value is the total length, or -1 when there is nothing at all. *)
Definition read_post w (c : chan) b l (size nread : Z) (r : Z * MutableBuffer) w' : Prop :=
  ∃ d, took (wkern w) (wkern w') c d ∧ Z.of_nat (length d) <= size
  ∧ mem_wf (wmem w') ∧ mbuf_rep (wmem w') r.2 (l ++ d) ∧ owned (wmem w') r.2
  ∧ moves b r.2 (wmem w) (wmem w')
  ∧ (r.1 = nread + Z.of_nat (length d) ∨ d = [] ∧ nread = 0 ∧ r.1 = -1).

Lemma read_post_step w c b l size nread w1 b1 d rv r w' :
  took (wkern w) (wkern w1) c d → moves b b1 (wmem w) (wmem w1) →
  rv = Z.of_nat (length d) → 0 < rv <= size → 0 <= nread →
  read_post w1 c b1 (l ++ d) (size - rv) (nread + rv) r w' →
  read_post w c b l size nread r w'.
Proof.
  intros Ht Hm -> Hrv Hn (d' & T & L & W & R & O & M & V). exists (d ++ d').
  split; [by eapply took_trans|]. rewrite length_app, app_assoc. split; [lia|].
  split; [done|]. split; [done|]. split; [done|]. split; [by eapply moves_trans|]. lia.
Qed.

(** A call that reads nothing ends the loop. *)
Lemma read_post_nil w c b l size nread b1 w1 rv :
  took (wkern w) (wkern w1) c [] → moves b b1 (wmem w) (wmem w1) → 0 <= size →
  mem_wf (wmem w1) → mbuf_rep (wmem w1) b1 l → owned (wmem w1) b1 → rv = 0 ∨ rv = -1 →
  read_post w c b l size nread (if negb (nread =? 0) then nread else rv, b1) w1.
Proof.
  intros T M Hs W R O Hrv. exists []. rewrite app_nil_r. split; [done|]. split; [simpl; lia|].
  do 4 (split; [done|]). simpl. destruct (Z.eqb_spec nread 0), Hrv; simpl; lia || auto.
Qed.

Lemma read_loop_spec fuel : ∀ w fd c b l size nread,
  mem_wf (wmem w) → mbuf_rep (wmem w) b l → owned (wmem w) b →
  rd_chan (wkern w) fd = Some c → 0 <= size <= SSIZE_MAX → 0 <= nread →
  (Z.to_nat size < fuel)%nat →
  wp (read_loop fuel fd b size nread) (read_post w c b l size nread) w.
Proof.
  induction fuel as [|fuel IH]; intros w fd c b l size nread Hwf Hrep Hown Hrd Hs Hn Hf; [lia|].
  cbn [read_loop]. destruct (Z.ltb_spec 0 size) as [Hpos|H0]; cbn [negb].
  2:{ wp_step. exists []. rewrite app_nil_r. split; [apply took_refl|]. simpl. split; [lia|].
      split; [done|]. split; [done|]. split; [done|]. split; [apply moves_refl|lia]. }
  wp_step. wp_apply (read_reserve_spec w b l); [done..|].
  intros [ok b1] w1 (Hk & W1 & R1 & O1 & M1 & Hroom). simpl in *. rewrite <- Hk in *.
  destruct ok; cbn [negb].
  2:{ wp_step. apply wp_set_errno. wp_step.
      apply read_post_nil; simpl; auto; [by rewrite <- Hk; apply took_refl|lia]. }
  specialize (Hroom eq_refl). pose proof (rep_capacity _ _ _ W1 R1) as [Hsz1 Hcap1].
  rewrite (u64_small (capacity_ b1 - size_ b1)) by zlia.
  set (nbytes := Z.min (capacity_ b1 - size_ b1) size). wp_step.
  wp_apply (wp_read_end w1 fd c b1 l nbytes); [done..|lia|].
  intros rv w2 (d & T & L & W2 & O2 & Ht & R2 & Hrv).
  pose proof (rep_capacity _ _ _ W2 R2) as [Hsz2 Hcap2]. simpl in Hsz2, Hcap2.
  assert (M2 : ∀ n, moves b (with_size b1 n) (wmem w) (wmem w2))
    by (intros n; eapply moves_trans; [exact M1|]; split; [exact Ht|by left]).
  destruct (Z.leb_spec rv 0) as [Hz|Hp].
  { wp_step. assert (d = []) as -> by (destruct Hrv as [->|[-> _]]; [destruct d; [done|simpl in *; lia]|done]).
    rewrite Z.add_0_r, with_size_id, app_nil_r in R2. specialize (M2 (size_ b1)).
    rewrite with_size_id in M2. apply read_post_nil; try done; [by rewrite <- Hk|lia|].
    destruct Hrv as [->|[_ ->]]; auto. }
  assert (rv = Z.of_nat (length d)) as -> by (destruct Hrv as [|[_ ?]]; [done|lia]). unfold MutableBuffer.resize.
  rewrite u64_small by zlia. replace (capacity_ b1 <? _) with false by lia. simpl.
  assert (O2' : owned (wmem w2) (with_size b1 (size_ b1 + Z.of_nat (length d)))) by exact O2.
  destruct (Z.ltb_spec (Z.of_nat (length d)) nbytes).
  - wp_step. exists d. rewrite <- Hk. split; [done|]. split; [lia|]. split; [done|].
    split; [done|]. split; [done|]. split; [apply M2|]. auto.
  - rewrite u64_small by zlia.
    eapply wp_mono; [apply (IH w2 fd c); [done..| |lia|lia|lia]|].
    + destruct T as (r & _ & _ & Hr & _). by rewrite Hr.
    + intros r w3 Hpost. eapply read_post_step; [by rewrite <- Hk|apply M2|done|lia|done|exact Hpost].
Qed.
End read_into_spec.

Module Pipe.
Record Pipe : Type := mkPipe { pipe_0 : Z; pipe_1 : Z; psize_ : Z }.

Section ops.
Context `{Kernel} {AL : Allocator}.

Definition readFd (p : Pipe) : Z := pipe_0 p.
Definition writeFd (p : Pipe) : Z := pipe_1 p.
Definition isOpen (p : Pipe) : bool := 0 <=? pipe_0 p.
Definition isEmpty (p : Pipe) : bool := psize_ p =? 0.
Definition size (p : Pipe) : Z := psize_ p.

(** [if (rv > 0) size_ += rv;] and [if (rv > 0) size_ -= rv;] *)
Definition grow (p : Pipe) (rv : Z) : Pipe :=
  if 0 <? rv then mkPipe (pipe_0 p) (pipe_1 p) (u64 (psize_ p + rv)) else p.
Definition shrink (p : Pipe) (rv : Z) : Pipe :=
  if 0 <? rv then mkPipe (pipe_0 p) (pipe_1 p) (u64 (psize_ p - rv)) else p.

(** [Pipe(int flags)] *)
Definition new (flags : Z) : WW Pipe :=
  r ← syscall (sys_pipe2 flags);
  match r with
  | Some (a, b) => mret (mkPipe a b 0)
  | None => e ← get_errno; mret (mkPipe (- e) (-1) 0)
  end.

(** [~Pipe()] *)
Definition destroy (p : Pipe) : WW () :=
  if isOpen p then close (pipe_0 p);; close (pipe_1 p);; mret () else mret ().

Fixpoint clear_loop (fuel : nat) (p : Pipe) : WW Pipe :=
  match fuel with
  | O => nofuel
  | S fuel =>
      if negb (0 <? psize_ p) then mret p
      else
        r ← read_local (readFd p) (Z.min (psize_ p) 4096);
        let rv := match r with Some d => Z.of_nat (length d) | None => -1 end in
        clear_loop fuel (shrink p rv)
  end.
Definition clear (p : Pipe) : WW Pipe := clear_loop (S (Z.to_nat (psize_ p))) p.

(** Writing into the pipe. *)
Definition write (p : Pipe) (buf : ptr) (n : Z) : WW (Z * Pipe) :=
  rv ← Kernel.write (writeFd p) buf n; mret (rv, grow p rv).

(** [handle] is [socket->handle()]. *)
Definition write_socket (p : Pipe) (handle n : Z) (mode : Mode) : WW (Z * Pipe) :=
  match mode with
  | COPY => set_errno EINVAL;; mret (-1, p)
  | MOVE => rv ← splice handle (writeFd p) n; mret (rv, grow p rv)
  end.

(** The two pipes are different objects. *)
Definition write_pipe (p pipe : Pipe) (n : Z) (mode : Mode) : WW (Z * Pipe * Pipe) :=
  match mode with
  | MOVE =>
      rv ← splice (readFd pipe) (writeFd p) (psize_ pipe);
      mret (rv, grow p rv, shrink pipe rv)
  | COPY =>
      rv ← tee (readFd pipe) (writeFd p) n; mret (rv, grow p rv, pipe)
  end.

Definition write_fd (p : Pipe) (fd n : Z) : WW (Z * Pipe) :=
  rv ← splice fd (writeFd p) n; mret (rv, grow p rv).

(** Reading from the pipe. *)
Definition read_buffer (p : Pipe) (result : MutableBuffer) (n : Z) :
    WW (Z * MutableBuffer * Pipe) :=
  '(rv, result) ← read_loop (S (Z.to_nat n)) (readFd p) result n 0; mret (rv, result, p).

Definition read (p : Pipe) (buf : ptr) (n : Z) : WW (Z * Pipe) :=
  rv ← Kernel.read (readFd p) buf n; mret (rv, shrink p rv).

Definition read_socket (p : Pipe) : WW (Z * Pipe) := mret (0, p).
Definition read_pipe (p : Pipe) : WW (Z * Pipe) := mret (0, p).

Definition read_fd (p : Pipe) (fd n : Z) : WW (Z * Pipe) :=
  rv ← splice (readFd p) fd n; mret (rv, shrink p rv).

(** [int read()]: through a local [char]. *)
Definition read_char (p : Pipe) : WW (Z * Pipe) :=
  if negb (psize_ p =? 0) then
    r ← read_local (readFd p) 1;
    match r with
    | Some [ch] => mret (schar ch, shrink p 1)
    | _ => mret (-1, p)
    end
  else mret (-1, p).
End ops.
End Pipe.

(** ** The pipe as a queue *)
Section pipe.
Context {K : Kernel} {KL : KernelLaws K} {AL : Allocator}.
Import Pipe.
Implicit Types (k : kst) (w : world) (p : Pipe) (l d : bytes).

(** Both descriptors are open on the channel [c], which holds [l], and the
    count is right. *)
Record pipe_rep k p (c : chan) l : Prop := {
  prep_rd : rd_chan k (readFd p) = Some c;
  prep_wr : wr_chan k (writeFd p) = Some c;
  prep_content : content k c = l;
  prep_size : psize_ p = Z.of_nat (length l);
}.

Lemma pipe_rep_max k p c l : pipe_rep k p c l → Z.of_nat (length l) <= 2 ^ 31.
Proof using KL. intros [? ? <- _]. by eapply pipe_capacity. Qed.

Lemma pipe_rep_same k k' p c l :
  transfer k k' (content k) → pipe_rep k p c l → pipe_rep k' p c l.
Proof. intros (Hc & Hr & Hw) []. by split; rewrite ?Hc, ?Hr, ?Hw. Qed.

Lemma pipe_rep_frame k k' f p c l :
  transfer k k' f → f c = l → pipe_rep k p c l → pipe_rep k' p c l.
Proof. intros (Hc & Hr & Hw) Hf []. by split; rewrite ?Hc, ?Hr, ?Hw. Qed.

(** The queue grows or shrinks and the count follows. *)
Lemma pipe_rep_grow k k' f p c l d :
  transfer k k' f → f c = l ++ d → pipe_rep k p c l →
  pipe_rep k' (grow p (Z.of_nat (length d))) c (l ++ d).
Proof using KL.
  intros (Hc & Hr & Hw) Hf [R W C S]. unfold grow.
  destruct (Z.ltb_spec 0 (Z.of_nat (length d))) as [Hpos|H0].
  - split; simpl; [by rewrite Hr|by rewrite Hw|by rewrite Hc|].
    assert (Z.of_nat (length (l ++ d)) <= 2 ^ 31) as Hmax.
    { rewrite <- Hf, <- Hc. eapply pipe_capacity; [by rewrite Hr|by rewrite Hw]. }
    rewrite length_app in *. rewrite u64_small; zlia.
  - destruct d; [|simpl in *; lia]. rewrite app_nil_r in *.
    by split; rewrite ?Hc, ?Hr, ?Hw.
Qed.

Lemma pipe_rep_shrink k k' f p c l d :
  transfer k k' f → f c = l → pipe_rep k p c (d ++ l) →
  pipe_rep k' (shrink p (Z.of_nat (length d))) c l.
Proof using KL.
  intros (Hc & Hr & Hw) Hf Hp. pose proof (pipe_rep_max _ _ _ _ Hp) as Hmax.
  destruct Hp as [R W C S]. rewrite length_app in *. unfold shrink.
  destruct (Z.ltb_spec 0 (Z.of_nat (length d))) as [Hpos|H0].
  - split; simpl; [by rewrite Hr|by rewrite Hw|by rewrite Hc|].
    rewrite u64_small; zlia.
  - destruct d; [|simpl in *; lia]. by split; rewrite ?Hc, ?Hr, ?Hw.
Qed.

(** ** Single operations *)

(** What an operation changes besides the pipe itself. *)
Inductive other : Type := ONone | OPipe (q : Pipe) | OBuffer (b : MutableBuffer).

Inductive pipe_op : Type :=
| PWrite (buf : ptr) (d : bytes)               (* write(buf, size) of the bytes d *)
| PSocketIn (fd n : Z) (mode : Mode)           (* write(socket, size, mode) *)
| PPipeIn (q : Pipe) (cq : chan) (lq : bytes) (n : Z) (mode : Mode)
                                               (* write(q, size, mode), q with lq on cq *)
| PSpliceIn (fd n : Z)                         (* write(fd, size) *)
| PReadBuffer (b : MutableBuffer) (lb : bytes) (n : Z)
                                               (* read(b, size), b with lb *)
| PRead (buf : ptr) (n : Z)                    (* read(buf, size) *)
| PSocketOut                                   (* read(socket, size) *)
| PPipeOut                                     (* read(pipe, size) *)
| PReadChar                                    (* read() *)
| PSpliceOut (fd n : Z).                       (* read(fd, size) *)

Definition alone (m : WW (Z * Pipe)) : WW (Z * Pipe * other) := '(rv, p) ← m; mret (rv, p, ONone).

Definition run_pipe_op (o : pipe_op) (p : Pipe) : WW (Z * Pipe * other) :=
  match o with
  | PWrite buf d => alone (write p buf (Z.of_nat (length d)))
  | PSocketIn fd n mode => alone (write_socket p fd n mode)
  | PPipeIn q _ _ n mode => '(rv, p, q) ← write_pipe p q n mode; mret (rv, p, OPipe q)
  | PSpliceIn fd n => alone (write_fd p fd n)
  | PReadBuffer b _ n => '(rv, b, p) ← read_buffer p b n; mret (rv, p, OBuffer b)
  | PRead buf n => alone (read p buf n)
  | PSocketOut => alone (read_socket p)
  | PPipeOut => alone (read_pipe p)
  | PReadChar => alone (read_char p)
  | PSpliceOut fd n => alone (read_fd p fd n)
  end.

(** The caller's array: [d] is there to be written, there is room to read; the
    other pipe is another one; the buffer is in order. *)
Definition pipe_op_pre (o : pipe_op) (c : chan) (w : world) : Prop :=
  match o with
  | PWrite buf d => mem_at (wmem w) buf d
  | PPipeIn q cq lq n _ => pipe_rep (wkern w) q cq lq ∧ c ≠ cq ∧ 0 <= n
  | PReadBuffer b lb n =>
      mbuf_rep (wmem w) b lb ∧ owned (wmem w) b ∧ 0 <= n <= SSIZE_MAX
  | PRead buf n => ∃ old, mem_at (wmem w) buf old ∧ Z.of_nat (length old) = n
  | _ => True
  end.

(** What goes into the pipe and comes out of it in a call that returns [rv],
    and where it comes from and goes to. *)
Definition pipe_io (o : pipe_op) (k k' : kst) (m' : memory) (rv : Z) (x : other)
    (ins outs : bytes) : Prop :=
  match o with
  | PWrite buf d =>
      outs = [] ∧ (rv = -1 ∧ ins = [] ∨ 0 <= rv ∧ ins = take (Z.to_nat rv) d)
  | PSocketIn fd n COPY => outs = [] ∧ rv = -1 ∧ ins = []
  | PSocketIn fd n MOVE | PSpliceIn fd n =>
      outs = [] ∧ (rv = -1 ∧ ins = []
        ∨ rv = Z.of_nat (length ins) ∧ rv <= n
          ∧ ∃ cf, rd_chan k fd = Some cf ∧ content k cf = ins ++ content k' cf)
  | PPipeIn q cq lq n mode =>
      outs = [] ∧ (rv = -1 ∧ ins = [] ∨ rv = Z.of_nat (length ins)) ∧ ∃ q', x = OPipe q' ∧
      match mode with
      | MOVE => ∃ lq', lq = ins ++ lq' ∧ pipe_rep k' q' cq lq'
      | COPY => ins `prefix_of` lq ∧ Z.of_nat (length ins) <= n ∧ pipe_rep k' q' cq lq
      end
  | PReadBuffer b lb n =>
      ins = [] ∧ Z.of_nat (length outs) <= n ∧ (rv = -1 ∧ outs = [] ∨ rv = Z.of_nat (length outs))
      ∧ ∃ b', x = OBuffer b' ∧ mbuf_rep m' b' (lb ++ outs) ∧ owned m' b'
  | PRead buf n =>
      ins = [] ∧ (rv = -1 ∧ outs = []
        ∨ rv = Z.of_nat (length outs) ∧ rv <= n ∧ mem_at m' buf outs)
  | PSocketOut | PPipeOut => ins = [] ∧ outs = [] ∧ rv = 0
  | PReadChar =>
      ins = [] ∧ (rv = -1 ∧ outs = [] ∨ ∃ ch, outs = [ch] ∧ rv = schar ch)
  | PSpliceOut fd n =>
      ins = [] ∧ (rv = -1 ∧ outs = []
        ∨ rv = Z.of_nat (length outs) ∧ rv <= n
          ∧ ∃ cf, wr_chan k fd = Some cf ∧ content k' cf = content k cf ++ outs)
  end.

(** The bytes that [size_] counts afterwards: [read(Buffer&, size)] leaves it
    as it was. *)
Definition counted (o : pipe_op) (l l' : bytes) : bytes :=
  match o with PReadBuffer _ _ _ => l | _ => l' end.

(** The queue, whatever the count says. *)
Definition queue_at k p (c : chan) l : Prop :=
  rd_chan k (readFd p) = Some c ∧ wr_chan k (writeFd p) = Some c ∧ content k c = l.

(** The postcondition of every operation below. *)
Definition queued (o : pipe_op) w c l (r : Z * Pipe) w' : Prop := ∃ ins outs l',
  l ++ ins = outs ++ l' ∧ pipe_rep (wkern w') r.2 c l' ∧ mem_wf (wmem w')
  ∧ pipe_io o (wkern w) (wkern w') (wmem w') r.1 ONone ins outs.

(** A failing call changes nothing. *)
Lemma queued_err o w p c l k' e m' :
  mem_wf m' → transfer (wkern w) k' (content (wkern w)) → pipe_rep (wkern w) p c l →
  pipe_io o (wkern w) k' m' (-1) ONone [] [] → queued o w c l (-1, p) (World m' k' e).
Proof.
  intros. exists [], [], l. rewrite app_nil_r. split; [done|].
  split; [by eapply pipe_rep_same|done].
Qed.

Lemma write_queued w p c l buf d :
  mem_wf (wmem w) → pipe_rep (wkern w) p c l → mem_at (wmem w) buf d →
  wp (write p buf (Z.of_nat (length d))) (queued (PWrite buf d) w c l) w.
Proof.
  intros Hwf Hp Hbuf. unfold write. wp_step. eapply wp_write; [done|done| |].
  - intros k' e Ht. wp_step. apply queued_err; simpl; auto.
  - intros r c' k' Hc' Hr Hput. wp_step. assert (c' = c) as -> by (destruct Hp; congruence).
    exists (take (Z.to_nat r) d), [], (l ++ take (Z.to_nat r) d). split; [done|]. simpl.
    replace r with (Z.of_nat (length (take (Z.to_nat r) d))) at 1 by (rewrite length_take; lia).
    split; [|split; [done|split; [done|right; split; [lia|done]]]].
    eapply pipe_rep_grow; [exact Hput| |done]. rewrite upd_eq. by destruct Hp as [_ _ -> _].
Qed.

Lemma write_fd_queued w p c l fd n :
  mem_wf (wmem w) → pipe_rep (wkern w) p c l →
  wp (write_fd p fd n) (queued (PSpliceIn fd n) w c l) w.
Proof.
  intros Hwf Hp. unfold write_fd. wp_step. apply wp_splice.
  - intros k' e Ht. wp_step. apply queued_err; simpl; auto.
  - intros ci co d k' Hci Hco Hn Hmv. wp_step.
    assert (co = c) as -> by (destruct Hp; congruence).
    destruct (moved_content _ _ _ _ _ Hmv) as [Hfrom _].
    destruct Hmv as (Hne & r & Hd & Ht). exists d, [], (l ++ d). split; [done|]. simpl. split.
    + eapply pipe_rep_grow; [exact Ht| |done]. rewrite upd_eq. by destruct Hp as [_ _ -> _].
    + split; [done|]. split; [done|]. right. eauto.
Qed.

Lemma read_queued w p c l buf n old :
  mem_wf (wmem w) → pipe_rep (wkern w) p c l →
  mem_at (wmem w) buf old → Z.of_nat (length old) = n →
  wp (read p buf n) (queued (PRead buf n) w c l) w.
Proof.
  intros Hwf Hp Hold Hn. unfold read, Kernel.read. wp_step. wp_step. apply wp_read_local.
  - intros k' e Ht. wp_step. wp_step. apply queued_err; simpl; auto.
  - intros d c' k' Hc' Hd Htk. wp_step. apply wp_lift. simpl.
    assert (c' = c) as -> by (destruct Hp; congruence).
    apply (wp_write_array _ buf old); [done|done|lia|]. intros m' x W T [Hm _]%mem_at_app _. wp_step. wp_step.
    destruct Htk as (r & Hdr & Ht). assert (l = d ++ r) as -> by (destruct Hp; congruence).
    exists [], d, r. rewrite app_nil_r. split; [done|]. simpl. split.
    + eapply pipe_rep_shrink; [exact Ht|by rewrite upd_eq|done].
    + split; [done|]. split; [done|]. right. eauto.
Qed.

Lemma read_char_queued w p c l :
  mem_wf (wmem w) → pipe_rep (wkern w) p c l →
  wp (read_char p) (queued PReadChar w c l) w.
Proof.
  intros Hwf Hp. unfold read_char.
  destruct (Z.eqb_spec (psize_ p) 0); cbn [negb].
  { wp_step. destruct w. apply queued_err; simpl; auto. done. }
  wp_step. apply wp_read_local.
  - intros k' e Ht. wp_step. apply queued_err; simpl; auto.
  - intros d c' k' Hc' Hd Htk. assert (c' = c) as -> by (destruct Hp; congruence).
    destruct d as [|ch [|]]; [| |simpl in Hd; lia]; wp_step.
    { apply took_nil_inv in Htk. apply queued_err; simpl; auto. }
    destruct Htk as (r & Hdr & Ht). simpl in Hdr. assert (l = ch :: r) as -> by (destruct Hp; congruence).
    exists [], [ch], r. rewrite app_nil_r. split; [done|]. simpl. split.
    + by apply (pipe_rep_shrink (wkern w) k' _ p c r [ch] Ht); [rewrite upd_eq|].
    + split; [done|]. split; [done|]. right. eauto.
Qed.

Lemma read_fd_queued w p c l fd n :
  mem_wf (wmem w) → pipe_rep (wkern w) p c l →
  wp (read_fd p fd n) (queued (PSpliceOut fd n) w c l) w.
Proof.
  intros Hwf Hp. unfold read_fd. wp_step. apply wp_splice.
  - intros k' e Ht. wp_step. apply queued_err; simpl; auto.
  - intros ci co d k' Hci Hco Hn Hmv. wp_step.
    assert (ci = c) as -> by (destruct Hp; congruence).
    destruct (moved_content _ _ _ _ _ Hmv) as [_ Hto].
    destruct Hmv as (Hne & r & Hd & Ht). assert (l = d ++ r) as -> by (destruct Hp; congruence).
    exists [], d, r. rewrite app_nil_r. split; [done|]. simpl. split.
    + eapply pipe_rep_shrink; [exact Ht| |done]. by rewrite upd_ne, upd_eq.
    + split; [done|]. split; [done|]. right. eauto.
Qed.

(** An operation that keeps the count, as [run_pipe_op] runs it. *)
Lemma alone_queued o w c l m :
  (∀ l l', counted o l l' = l') → wp m (queued o w c l) w →
  wp (alone m) (λ r w', ∃ ins outs l', l ++ ins = outs ++ l' ∧ queue_at (wkern w') r.1.2 c l'
    ∧ psize_ r.1.2 = Z.of_nat (length (counted o l l')) ∧ mem_wf (wmem w')
    ∧ pipe_io o (wkern w) (wkern w') (wmem w') r.1.1 r.2 ins outs) w.
Proof.
  intros Hc Hm. unfold alone. wp_step. eapply wp_mono; [exact Hm|].
  intros [rv p'] w' (ins & outs & l' & E & [] & W & Hio). wp_step. simpl in *.
  exists ins, outs, l'. rewrite Hc. by split_and!.
Qed.

Lemma queued_nothing o w p c l :
  mem_wf (wmem w) → pipe_rep (wkern w) p c l → pipe_io o (wkern w) (wkern w) (wmem w) 0 ONone [] [] →
  queued o w c l (0, p) w.
Proof. intros. exists [], [], l. by rewrite app_nil_r. Qed.

(** [write(pipe, size, MOVE)] between two pipes moves bytes from the front
    of one to the end of the other and keeps both counts; it moves as much
    as the kernel takes, whatever [size] says. *)
Theorem pipe_move w p q c cq l lq n :
  pipe_rep (wkern w) p c l → pipe_rep (wkern w) q cq lq → c ≠ cq →
  wp (write_pipe p q n MOVE) (λ r w', ∃ d lq',
    lq = d ++ lq' ∧ pipe_rep (wkern w') r.1.2 c (l ++ d) ∧ pipe_rep (wkern w') r.2 cq lq'
    ∧ wmem w' = wmem w
    ∧ (r.1.1 = Z.of_nat (length d) ∨ r.1.1 = -1 ∧ d = [])) w
  ∧ (∀ n', write_pipe p q n' MOVE = write_pipe p q n MOVE).
Proof.
  intros Hp Hq Hne. split; [|done]. unfold write_pipe. wp_step. apply wp_splice.
  - intros k' e Ht. wp_step. exists [], lq. rewrite app_nil_r. simpl.
    split; [done|]. split; [by eapply pipe_rep_same|]. split; [by eapply pipe_rep_same|auto].
  - intros ci co d k' Hci Hco Hn (Hcc & r & Hd & Ht). wp_step.
    assert (ci = cq) as -> by (destruct Hq; congruence).
    assert (co = c) as -> by (destruct Hp; congruence).
    assert (lq = d ++ r) as -> by (destruct Hq; congruence).
    exists d, r. simpl. split; [done|]. split; [|split; [|auto]].
    + eapply pipe_rep_grow; [exact Ht| |done]. rewrite upd_eq. by destruct Hp as [_ _ -> _].
    + eapply pipe_rep_shrink; [exact Ht| |done]. by rewrite upd_ne, upd_eq.
Qed.

(** [write(pipe, size, COPY)] copies at most [size] bytes from the front of
    the other pipe, which keeps them. *)
Theorem pipe_copy w p q c cq l lq n :
  pipe_rep (wkern w) p c l → pipe_rep (wkern w) q cq lq → c ≠ cq → 0 <= n →
  wp (write_pipe p q n COPY) (λ r w', ∃ d,
    d `prefix_of` lq ∧ Z.of_nat (length d) <= n
    ∧ pipe_rep (wkern w') r.1.2 c (l ++ d) ∧ pipe_rep (wkern w') r.2 cq lq
    ∧ wmem w' = wmem w
    ∧ (r.1.1 = Z.of_nat (length d) ∨ r.1.1 = -1 ∧ d = [])) w.
Proof.
  intros Hp Hq Hne Hn. unfold write_pipe. wp_step. apply wp_tee.
  - intros k' e Ht. wp_step. exists []. rewrite app_nil_r. simpl.
    split; [apply prefix_nil|]. split; [lia|].
    split; [by eapply pipe_rep_same|]. split; [by eapply pipe_rep_same|auto].
  - intros ci co d k' Hci Hco Hd Hcc Hpre Ht. wp_step.
    assert (ci = cq) as -> by (destruct Hq; congruence).
    assert (co = c) as -> by (destruct Hp; congruence).
    exists d. simpl. split; [by destruct Hq as [_ _ <- _]|]. split; [done|]. split; [|split; [|auto]].
    + eapply pipe_rep_grow; [exact Ht| |done]. rewrite upd_eq. by destruct Hp as [_ _ -> _].
    + eapply pipe_rep_frame; [exact Ht| |done]. rewrite upd_ne by done. by destruct Hq.
Qed.

(** A read from a pipe that has data returns some. *)
Definition reads_progress : Prop := ∀ k fd c n,
  rd_chan k fd = Some c → content k c ≠ [] → 0 < n →
  ∃ d k', sys_read fd n k = (inr d, k') ∧ d ≠ [].

Lemma clear_loop_spec w p c l fuel :
  reads_progress → pipe_rep (wkern w) p c l → (length l < fuel)%nat →
  wp (clear_loop fuel p) (λ p' w', pipe_rep (wkern w') p' c [] ∧ wmem w' = wmem w) w.
Proof.
  intros Hprog. revert w p l. induction fuel as [|fuel IH]; intros w p l Hp Hf; [lia|].
  cbn [clear_loop]. pose proof (prep_size _ _ _ _ Hp) as Hs.
  destruct (Z.ltb_spec 0 (psize_ p)) as [Hpos|H0]; cbn [negb].
  2:{ wp_step. destruct l; [done|simpl in *; lia]. }
  assert (l ≠ []) as Hl by (intros ->; simpl in Hs; lia).
  destruct (Hprog (wkern w) (readFd p) c (Z.min (psize_ p) 4096)) as (d & k' & E & Hd);
    [apply Hp|by destruct Hp as [_ _ -> _]|lia|].
  wp_step. unfold read_local, syscall. eapply wp_Ok; [by rewrite E|].
  destruct (read_ok _ _ _ _ _ E) as (c' & Hc' & Hn & r & Hdr & Ht).
  assert (c' = c) as -> by (destruct Hp; congruence).
  assert (l = d ++ r) as -> by (destruct Hp; congruence).
  assert (0 < length d)%nat by (destruct d; [done|simpl; lia]).
  eapply wp_mono; [apply (IH _ _ r)|done].
  - eapply pipe_rep_shrink; [exact Ht|by rewrite upd_eq|done].
  - rewrite length_app in Hf. lia.
Qed.

(** [clear()] terminates with an empty pipe, given that reading from a
    pipe with data returns data. *)
Theorem pipe_clear w p c l :
  reads_progress → pipe_rep (wkern w) p c l →
  wp (clear p) (λ p' w', pipe_rep (wkern w') p' c [] ∧ wmem w' = wmem w) w.
Proof.
  intros Hprog Hp. unfold clear. eapply clear_loop_spec; [done|done|].
  rewrite (prep_size _ _ _ _ Hp). lia.
Qed.

(** With a count that is too large (as [read(Buffer&, size)] leaves it) and
    a non-blocking pipe that is empty, [clear()] never returns, however long
    it runs. *)
Theorem pipe_clear_diverges w p c fuel :
  rd_chan (wkern w) (readFd p) = Some c → content (wkern w) c = [] → 0 < psize_ p →
  (∀ k n, rd_chan k (readFd p) = Some c → content k c = [] → 0 < n →
     sys_read (readFd p) n k = (inl EAGAIN, k)) →
  clear_loop fuel p w = NoFuel.
Proof.
  intros Hrd Hc Hpos Hagain. revert w Hrd Hc. induction fuel as [|fuel IH]; intros w Hrd Hc; [done|].
  cbn [clear_loop]. replace (0 <? psize_ p) with true by lia. cbn [negb].
  unfold read_local, syscall, mbind, ST_bind.
  rewrite Hagain by (done || lia). by apply IH.
Qed.

(** [read(Buffer&, size)] terminates and appends to the buffer at most
    [size] bytes from the front of the queue, in order and without loss, and
    returns their number (or -1); but it does not take them off [size_],
    which counts the queue only if nothing was read. *)
Theorem pipe_read_buffer w p c l b lb n :
  mem_wf (wmem w) → mbuf_rep (wmem w) b lb → owned (wmem w) b →
  pipe_rep (wkern w) p c l → 0 <= n <= SSIZE_MAX →
  wp (read_buffer p b n) (λ '(rv, b', p') w', ∃ d l',
    l = d ++ l' ∧ content (wkern w') c = l' ∧ Z.of_nat (length d) <= n
    ∧ mbuf_rep (wmem w') b' (lb ++ d) ∧ owned (wmem w') b'
    ∧ (rv = Z.of_nat (length d) ∨ d = [] ∧ rv = -1)
    ∧ p' = p ∧ (pipe_rep (wkern w') p' c l' ↔ d = [])) w.
Proof.
  intros Hwf Hrep Hown Hp Hn. unfold read_buffer. wp_step.
  wp_apply (read_loop_spec (S (Z.to_nat n)) w (readFd p) c b lb n 0); [done..|apply Hp|done|lia|lia|].
  intros [rv b'] w' (d & (l' & Hd & Ht) & L & W & R & O & M & V). wp_step.
  assert (l = d ++ l') as -> by (destruct Hp; congruence).
  exists d, l'. split; [done|]. split; [rewrite (transfer_content _ _ _ c Ht); by rewrite upd_eq|].
  split; [done|]. split; [done|]. split; [done|]. split; [destruct V as [|(? & _ & ?)]; auto|].
  split; [done|]. split.
  - intros [_ _ _ S']. destruct Hp as [_ _ _ S]. rewrite S, length_app in S'.
    destruct d; [done|simpl in S'; lia].
  - intros ->. eapply pipe_rep_frame; [exact Ht|by rewrite upd_eq|done].
Qed.

Lemma read_buffer_queued w p c l b lb n :
  mem_wf (wmem w) → pipe_rep (wkern w) p c l →
  mbuf_rep (wmem w) b lb → owned (wmem w) b → 0 <= n <= SSIZE_MAX →
  wp (read_buffer p b n) (λ '(rv, b', p') w', ∃ d l', l = d ++ l' ∧ p' = p
    ∧ queue_at (wkern w') p c l' ∧ Z.of_nat (length d) <= n ∧ mem_wf (wmem w')
    ∧ mbuf_rep (wmem w') b' (lb ++ d) ∧ owned (wmem w') b'
    ∧ (rv = -1 ∧ d = [] ∨ rv = Z.of_nat (length d))) w.
Proof.
  intros Hwf Hp Hrep Hown Hn. unfold read_buffer. wp_step.
  wp_apply (read_loop_spec (S (Z.to_nat n)) w (readFd p) c b lb n 0); [done..|apply Hp|done|lia|lia|].
  intros [rv b'] w' (d & (l' & Hd & Ht) & L & W & R & O & M & V). wp_step.
  assert (l = d ++ l') as -> by (destruct Hp; congruence).
  exists d, l'. split; [done|]. split; [done|]. split.
  { destruct Hp. split_and!; [by rewrite (transfer_rd _ _ _ _ Ht)|by rewrite (transfer_wr _ _ _ _ Ht)|].
    by rewrite (transfer_content _ _ _ _ Ht), upd_eq. }
  split; [done|]. split; [done|]. split; [done|]. split; [done|]. simpl in V; destruct V as [|(? & _ & ?)]; auto.
Qed.

(** C5: the pipe is a queue in every operation that transfers bytes, from and
    to arrays, buffers, descriptors, sockets and other pipes: the bytes go in at
    the end and come out at the front, in order, from where and to where the
    operation says, and the return value is their number (or -1, or the
    character; the reads to sockets and pipes do nothing and return 0).
    [size_] counts the queue afterwards, but for [read(Buffer&, size)], which
    takes bytes out and leaves [size_] as it was. *)
Theorem pipe_op_fifo w p c l o :
  mem_wf (wmem w) → pipe_rep (wkern w) p c l → pipe_op_pre o c w →
  wp (run_pipe_op o p) (λ r w', ∃ ins outs l',
    l ++ ins = outs ++ l' ∧ queue_at (wkern w') r.1.2 c l'
    ∧ psize_ r.1.2 = Z.of_nat (length (counted o l l')) ∧ mem_wf (wmem w')
    ∧ pipe_io o (wkern w) (wkern w') (wmem w') r.1.1 r.2 ins outs) w.
Proof.
  intros Hwf Hp Hpre. destruct o as [buf d|fd n mode|q cq lq n mode|fd n|b lb n|buf n| | | |fd n]; simpl in Hpre.
  - apply alone_queued; [done|]. by apply write_queued.
  - apply alone_queued; [done|]. destruct mode; simpl.
    + wp_step. apply wp_set_errno. wp_step. apply queued_err; simpl; auto. done.
    + by apply write_fd_queued.
  - destruct Hpre as (Hq & Hne & Hn). cbn [run_pipe_op]. wp_step. destruct mode.
    + eapply wp_mono; [by apply pipe_copy|].
      intros [[rv p'] q'] w' (d & Hpr & Hl & [] & Hq' & Hm & Hrv). wp_step. simpl in *.
      exists d, [], (l ++ d). split; [done|]. split; [by split_and!|]. split; [done|]. split; [by rewrite Hm|].
      split; [done|]. split; [by destruct Hrv; auto|]. eauto.
    + eapply wp_mono; [by apply pipe_move|].
      intros [[rv p'] q'] w' (d & lq' & Hl & [] & Hq' & Hm & Hrv). wp_step. simpl in *.
      exists d, [], (l ++ d). split; [done|]. split; [by split_and!|]. split; [done|]. split; [by rewrite Hm|].
      split; [done|]. split; [by destruct Hrv; auto|]. eauto.
  - apply alone_queued; [done|]. by apply write_fd_queued.
  - destruct Hpre as (Hb & Ho & Hn). cbn [run_pipe_op]. wp_step.
    eapply wp_mono; [by apply (read_buffer_queued w p c l b lb n)|].
    intros [[rv b'] p'] w' (d & l' & -> & -> & Hq & Hd & W & R & O & Hrv). wp_step. simpl.
    exists [], d, l'. rewrite app_nil_r. split; [done|]. split; [done|]. split; [by apply Hp|]. eauto 10.
  - apply alone_queued; [done|]. destruct Hpre as (old & ? & ?). by eapply read_queued.
  - apply alone_queued; [done|]. unfold read_socket. wp_step. by apply queued_nothing.
  - apply alone_queued; [done|]. unfold read_pipe. wp_step. by apply queued_nothing.
  - apply alone_queued; [done|]. by apply read_char_queued.
  - apply alone_queued; [done|]. by apply read_fd_queued.
Qed.
End pipe.
