(* ===== verification/BufferStream.v ===== *)
(** * BufferStream (include/xio/BufferStream.h, lib/BufferStream.cpp)

    A managed buffer with a read offset: what lies behind the offset is still
    to be read.  The abstract state is that queue of bytes. *)

From S2P Require Import Prelude Memory BufferBase BufferParse MutableBuffer BufferSpec Kernel Pipe.

Local Open Scope Z_scope.

Module BufferStream.
(** The member [data_] is the field [buf]. *)
Record BufferStream : Type := mkBS { buf : MutableBuffer; readOffset_ : Z }.

Section ops.
Context {AL : Allocator} `{Kernel}.
Let E : Ensure := mutableEnsure.
#[local] Existing Instance E.

Definition new : BufferStream := mkBS MutableBuffer.new 0.

(** [BufferStream(size_t cap)] *)
Definition new_cap (cap : Z) : MM BufferStream :=
  b ← Buffer.new_capacity cap; mret (mkBS b 0).

(** [~BufferStream()] destroys the buffer. *)
Definition destroy (s : BufferStream) : MM () := Buffer.destroy (buf s);; mret ().

Definition capacity (s : BufferStream) : Z := capacity_ (buf s).
Definition data (s : BufferStream) : ptr := data_ (buf s).
Definition readOffset (s : BufferStream) : Z := readOffset_ s.
Definition writeOffset (s : BufferStream) : Z := size_ (buf s).
Definition size (s : BufferStream) : Z := u64 (writeOffset s - readOffset_ s).

Definition shift (s : BufferStream) (n : Z) : BufferStream :=
  if u64 (readOffset_ s + n) <? writeOffset s
  then mkBS (buf s) (u64 (readOffset_ s + n))
  else mkBS (MutableBuffer.clear (buf s)) 0.

Definition write (s : BufferStream) (p : ptr) (n : Z) : MM (Z * BufferStream) :=
  let old := size_ (buf s) in
  MutableBuffer.push_back (buf s) p n ≫= λ b : MutableBuffer,
  mret (s64 (u64 (size_ b - old)), mkBS b (readOffset_ s)).

Definition write_socket (s : BufferStream) : MM (Z * BufferStream) := mret (0, s).

(** Room for [size] more bytes behind the write offset. *)
Definition make_room (s : BufferStream) (n : Z) : WW (Z * BufferStream) :=
  lift (MutableBuffer.reserve (buf s) (u64 (size_ (buf s) + n)))
    ≫= λ r : bool * MutableBuffer,
  let s := mkBS r.2 (readOffset_ s) in
  mret (Z.min (u64 (capacity s - writeOffset s)) n, s).

(** [if (n > 0) data_.resize(data_.size() + n);] *)
Definition commit (s : BufferStream) (n : Z) : BufferStream :=
  if 0 <? n
  then mkBS (MutableBuffer.resize (buf s) (u64 (size_ (buf s) + n))).2 (readOffset_ s)
  else s.

Definition write_pipe (s : BufferStream) (pipe : Pipe.Pipe) (n : Z) :
    WW (Z * BufferStream * Pipe.Pipe) :=
  '(n, s) ← make_room s n;
  '(n, pipe) ← Pipe.read pipe (data s +ₚ writeOffset s) n;
  mret (n, commit s n, pipe).

Definition write_fd (s : BufferStream) (fd n : Z) : WW (Z * BufferStream) :=
  '(n, s) ← make_room s n;
  n ← Kernel.read fd (data s +ₚ writeOffset s) n;
  mret (n, commit s n).

(** [read(Buffer& result, size_t size)]; [result] is another object. *)
Definition read_buffer (s : BufferStream) (result : MutableBuffer) (n : Z) :
    MM (Z * MutableBuffer * BufferStream) :=
  let n := Z.min n (size s) in
  MutableBuffer.reserve result (u64 (size_ result + n)) ≫= λ r : bool * MutableBuffer,
  MutableBuffer.push_back r.2 (data s +ₚ readOffset s) n ≫= λ result : MutableBuffer,
  mret (s64 n, result, shift s n).

Definition read (s : BufferStream) (p : ptr) (n : Z) : MM (Z * BufferStream) :=
  let n := s64 (Z.min n (size s)) in
  memcpy p (data s +ₚ readOffset s) (u64 n);;
  mret (n, shift s (u64 n)).

Definition read_socket (s : BufferStream) : MM (Z * BufferStream) := mret (0, s).

(** [if (n > 0) readOffset_ += n;] *)
Definition advance (s : BufferStream) (n : Z) : BufferStream :=
  if 0 <? n then mkBS (buf s) (u64 (readOffset_ s + n)) else s.

Definition read_pipe (s : BufferStream) (pipe : Pipe.Pipe) (n : Z) :
    WW (Z * BufferStream * Pipe.Pipe) :=
  '(n, pipe) ← Pipe.write pipe (data s) (Z.min (size s) n);
  mret (n, advance s n, pipe).

Definition read_fd (s : BufferStream) (fd n : Z) : WW (Z * BufferStream) :=
  n ← Kernel.write fd (data s) (Z.min (size s) n);
  mret (n, advance s n).

(** [int read()] *)
Definition read_char (s : BufferStream) : MM (Z * BufferStream) :=
  if negb (readOffset_ s =? writeOffset s) then
    ch ← load (data s +ₚ readOffset_ s);
    mret (schar ch, mkBS (buf s) (u64 (readOffset_ s + 1)))
  else mret (-1, s).
End ops.
End BufferStream.

(** ** The stream as a queue *)
Section bufferstream.
Context {AL : Allocator}.
Import BufferStream.
Implicit Types (m : memory) (s : BufferStream) (l d pre : bytes).
Let E : Ensure := mutableEnsure.
#[local] Existing Instance E.

(** [pre] has been read, [l] is still to be read. *)
Record bs_rep m s pre l : Prop := {
  bs_buf : mbuf_rep m (buf s) (pre ++ l);
  bs_own : owned m (buf s);
  bs_off : readOffset_ s = Z.of_nat (length pre);
}.

Lemma bs_bounds m s pre l :
  mem_wf m → bs_rep m s pre l →
  writeOffset s = Z.of_nat (length pre) + Z.of_nat (length l)
  ∧ size s = Z.of_nat (length l) ∧ Z.of_nat (length pre + length l) <= ADDR_SPACE.
Proof.
  intros Hwf [Hb _ Ho]. pose proof (rep_capacity _ _ _ Hwf Hb) as [Hsz Hcap].
  pose proof (rep_size _ _ _ Hb) as Hs. rewrite length_app in Hs.
  unfold size, writeOffset. rewrite Ho, u64_small by zlia. lia.
Qed.

(** The bytes that are still to be read lie behind the read offset. *)
Lemma bs_pending m s pre l : bs_rep m s pre l → mem_at m (data s +ₚ readOffset_ s) l.
Proof. intros [[Hm _]%rep_view _ ->]. by apply mem_at_app in Hm as [_ Hm]. Qed.

Lemma bs_frame m m' s pre l (blk : nat) :
  mem_wf m → only_touches blk m m' → pblk (data s) ≠ blk → bs_rep m s pre l → bs_rep m' s pre l.
Proof.
  intros Hwf Ht Hne [Hb Ho Hoff].
  split; [by apply (rep_frame m m' _ _ blk)|by apply (owned_frame m m' _ blk)|done].
Qed.

(** [min(n, size())] bytes of the queue are its first [n]. *)
Lemma min_size m s pre l n :
  mem_wf m → bs_rep m s pre l → 0 <= n →
  Z.min n (size s) = Z.of_nat (length (take (Z.to_nat n) l))
  ∧ drop (length (take (Z.to_nat n) l)) l = drop (Z.to_nat n) l.
Proof.
  intros Hwf Hr Hn. destruct (bs_bounds _ _ _ _ Hwf Hr) as (_ & -> & _).
  rewrite length_take. split; [lia|].
  destruct (Nat.le_ge_cases (Z.to_nat n) (length l)); [by rewrite Nat.min_l by lia|].
  by rewrite !drop_ge by lia.
Qed.

(** [shift(n)] drops the first [n] bytes that are still to be read (all of
    them if there are fewer), whether it moves the offset or resets the
    buffer. *)
Lemma shift_spec m s pre l n :
  mem_wf m → bs_rep m s pre l → 0 <= n <= SSIZE_MAX →
  ∃ pre', bs_rep m (shift s n) pre' (drop (Z.to_nat n) l).
Proof.
  intros Hwf Hr Hn. destruct (bs_bounds _ _ _ _ Hwf Hr) as (Hw & _ & Hmax).
  destruct Hr as [Hb Hown Ho]. unfold shift. rewrite u64_small by zlia. rewrite Hw, Ho.
  destruct (Z.ltb_spec (Z.of_nat (length pre) + n) (Z.of_nat (length pre) + Z.of_nat (length l))).
  - exists (pre ++ take (Z.to_nat n) l). split; simpl; [|done|].
    + by rewrite <- app_assoc, take_drop.
    + rewrite length_app, length_take. lia.
  - rewrite drop_ge by lia. exists []. split; simpl; [|done|done].
    pose proof (rep_size _ _ _ Hb). by apply (rep_resize _ _ _ 0 Hb ltac:(lia)).
Qed.

Lemma shift_data s n : data (shift s n) = data s.
Proof. unfold shift. by destruct (_ <? _). Qed.

Lemma write_spec m s pre l p d :
  mem_wf m → bs_rep m s pre l → mem_at m p d → pblk p ≠ pblk (data s) →
  wp (write s p (Z.of_nat (length d))) (λ r m',
    mem_wf m' ∧ moves (buf s) (buf r.2) m m'
    ∧ (r.1 = Z.of_nat (length d) ∧ bs_rep m' r.2 pre (l ++ d)
       ∨ r.1 = 0 ∧ r.2 = s ∧ bs_rep m' s pre l
         ∧ no_memory (Z.of_nat (length (pre ++ l ++ d))))) m.
Proof.
  intros Hwf [Hb Ho Hoff] Hp Hne. pose proof (rep_size _ _ _ Hb) as Hs.
  pose proof (mem_at_length _ _ _ Hwf Hp). unfold write. wp_step.
  wp_apply (push_back_spec (inv := owned) m (buf s) (pre ++ l) p d); [done..|].
  intros b' m' [W I M R]. wp_step. simpl. split; [done|]. split; [done|].
  destruct R as [R|(-> & R & Hn%oom_no_memory)].
  - left. pose proof (rep_size _ _ _ R) as Hs'. rewrite length_app in Hs'.
    rewrite <- app_assoc in R. split; [|by split].
    rewrite u64_small, s64_small by zlia. lia.
  - right. rewrite Z.sub_diag. split; [done|]. split; [by destruct s|].
    split; [by split|by rewrite app_assoc].
Qed.

(** [write(buf, size)] appends all [size] bytes to the queue and returns
    their number; without memory it returns 0 and changes nothing. *)
Theorem bufferstream_write m s pre l p d :
  mem_wf m → bs_rep m s pre l → mem_at m p d → pblk p ≠ pblk (data s) →
  wp (write s p (Z.of_nat (length d))) (λ r m',
    mem_wf m' ∧ moves (buf s) (buf r.2) m m'
    ∧ (r.1 = Z.of_nat (length d) ∧ bs_rep m' r.2 pre (l ++ d)
       ∨ r.1 = 0 ∧ r.2 = s ∧ bs_rep m' s pre l
         ∧ no_memory (Z.of_nat (length (pre ++ l ++ d))))) m.
Proof. apply write_spec. Qed.

Lemma read_spec m s pre l p n old :
  mem_wf m → bs_rep m s pre l → 0 <= n <= SSIZE_MAX →
  mem_at m p old → (length (take (Z.to_nat n) l) <= length old)%nat → pblk p ≠ pblk (data s) →
  wp (read s p n) (λ r m', ∃ rest pre',
    let d := take (Z.to_nat n) l in
    r.1 = Z.of_nat (length d) ∧ mem_at m' p (d ++ rest) ∧ length (d ++ rest) = length old
    ∧ mem_wf m' ∧ only_touches (pblk p) m m' ∧ r.2 = shift s r.1
    ∧ bs_rep m' r.2 pre' (drop (Z.to_nat n) l)) m.
Proof.
  intros Hwf Hr Hn Hold Hlen Hne. destruct (bs_bounds _ _ _ _ Hwf Hr) as (_ & Hsz & Hmax).
  pose proof (bs_pending _ _ _ _ Hr) as Hpend.
  destruct (min_size m s pre l n) as [Hmin Hdrop]; [done|done|lia|].
  rewrite <- (take_drop (Z.to_nat n) l) in Hpend. apply mem_at_app in Hpend as [Hd _].
  set (d := take (Z.to_nat n) l) in *. pose proof (mem_at_length _ _ _ Hwf Hd).
  unfold read. rewrite Hmin, s64_small, u64_small by zlia.
  wp_step. unfold memcpy, overlap. rewrite bool_decide_eq_false_2 by done.
  rewrite andb_false_r. wp_step. apply (wp_read_range _ _ d); [done|done|].
  apply (wp_write_array _ p old); [done|done|done|]. intros m' rest W T Hm' Hl'. wp_step. simpl.
  apply (bs_frame m m' s pre l (pblk p)) in Hr; [|done..].
  destruct (shift_spec m' s pre l (Z.of_nat (length d)) W Hr) as (pre' & Hsh); [zlia|].
  exists rest, pre'. do 6 (split; [done|]). by rewrite Nat2Z.id, Hdrop in Hsh.
Qed.

(** [read(buf, size)] copies the first [size] bytes of the queue (all of
    them if there are fewer) to the caller, removes them and returns their
    number. *)
Theorem bufferstream_read m s pre l p n old :
  mem_wf m → bs_rep m s pre l → 0 <= n <= SSIZE_MAX →
  mem_at m p old → (length (take (Z.to_nat n) l) <= length old)%nat → pblk p ≠ pblk (data s) →
  wp (read s p n) (λ r m',
    let d := take (Z.to_nat n) l in
    r.1 = Z.of_nat (length d) ∧ mem_at m' p d ∧ mem_wf m' ∧ only_touches (pblk p) m m'
    ∧ ∃ pre', bs_rep m' r.2 pre' (drop (Z.to_nat n) l)) m.
Proof.
  intros. eapply wp_mono; [by eapply read_spec|].
  intros r m' (rest & pre' & ? & [? _]%mem_at_app & _ & ? & ? & _ & ?). simpl. eauto 10.
Qed.

(** [read(Buffer&, size)] appends the first [size] bytes of the queue to
    the other buffer, removes them and returns their number.  They are
    removed, and counted, even if there was no memory to append them. *)
Theorem bufferstream_read_buffer m s pre l b lb n :
  mem_wf m → bs_rep m s pre l → mbuf_rep m b lb → owned m b → 0 <= n <= SSIZE_MAX →
  pblk (data_ b) ≠ pblk (data s) → lb ++ take (Z.to_nat n) l ≠ [] →
  wp (read_buffer s b n) (λ '(rv, b', s') m',
    let d := take (Z.to_nat n) l in
    rv = Z.of_nat (length d) ∧ owned m' b' ∧ (∃ pre', bs_rep m' s' pre' (drop (Z.to_nat n) l))
    ∧ (mbuf_rep m' b' (lb ++ d)
       ∨ mbuf_rep m' b' lb ∧ no_memory (Z.of_nat (length (lb ++ d))))) m.
Proof.
  intros Hwf Hr Hb Hown Hn Hne Hnz. destruct (bs_bounds _ _ _ _ Hwf Hr) as (_ & Hsz & Hmax).
  destruct (min_size m s pre l n) as [Hmin Hdrop]; [done|done|lia|].
  set (d := take (Z.to_nat n) l) in *. unfold read_buffer. rewrite Hmin.
  pose proof (rep_capacity _ _ _ Hwf Hb) as [Hsb Hcb]. pose proof (rep_size _ _ _ Hb) as Hlb.
  assert (Z.of_nat (length d) <= Z.of_nat (length l)) as Hdl by (unfold d; rewrite length_take; lia).
  assert (0 < length (lb ++ d))%nat as Hpos by (destruct (lb ++ d); [done|simpl; lia]).
  rewrite length_app in Hpos. rewrite u64_small, s64_small by zlia. wp_step.
  unfold MutableBuffer.reserve. wp_apply (ensure_ok (inv := owned) m b lb); [done..|zlia|].
  intros [ok b1] m1 (W1 & R1 & O1 & M1 & _). simpl in R1, O1, M1 |- *.
  apply (bs_frame m m1 s pre l (pblk (data_ b))) in Hr as Hr1; [|done|apply M1|done].
  pose proof (bs_pending _ _ _ _ Hr1) as Hpend.
  rewrite <- (take_drop (Z.to_nat n) l) in Hpend. apply mem_at_app in Hpend as [Hd _].
  assert (Hfin : ∀ b2 m2, mem_wf m2 → appended owned out_of_memory b1 lb d m1 b2 m2 →
    bs_rep m2 s pre l →
    Z.of_nat (length d) = Z.of_nat (length d) ∧ owned m2 b2
    ∧ (∃ pre', bs_rep m2 (shift s (Z.of_nat (length d))) pre' (drop (Z.to_nat n) l))
    ∧ (mbuf_rep m2 b2 (lb ++ d)
       ∨ mbuf_rep m2 b2 lb ∧ no_memory (Z.of_nat (length (lb ++ d))))).
  { intros b2 m2 W2 [_ I _ R] Hr2. split; [done|]. split; [done|]. split.
    - destruct (shift_spec m2 s pre l (Z.of_nat (length d)) W2 Hr2) as (pre' & Hsh); [zlia|].
      exists pre'. by rewrite Nat2Z.id, Hdrop in Hsh.
    - destruct R as [R|(_ & R & Hx%oom_no_memory)]; auto. }
  wp_step. destruct (decide (d = [])) as [Hd0|Hd0].
  { unfold MutableBuffer.push_back. rewrite Hd0. simpl. wp_step. wp_step. rewrite Hd0 in Hfin.
    apply Hfin; [done| |done]. by apply appended_nil. }
  assert (pblk (data s) ≠ pblk (data_ b1)) as Hne1.
  { destruct M1 as [_ [->|?]]; [done|]. apply bs_pending in Hr.
    apply mem_at_valid in Hr; [simpl in Hr; lia|done|].
    intros ->. apply Hd0. unfold d. by rewrite take_nil. }
  eapply wp_mono; [by apply (push_back_spec (inv := owned) m1 b1 lb)|].
  intros b2 m2 Happ. wp_step. apply Hfin; [apply Happ|done|].
  eapply bs_frame; [exact W1|apply Happ|done|done].
Qed.

(** Reading nothing into an empty buffer that has storage asks it to
    [reserve(0)]: its storage is freed while [data_] still points to it, and
    the next append to the buffer is undefined behaviour. *)
Theorem bufferstream_read_nothing_dangles m s pre b n value :
  mem_wf m → bs_rep m s pre [] → mbuf_rep m b [] → owned m b → 0 < capacity_ b →
  0 <= n → 0 < value <= ADDR_SPACE →
  ∃ b' m', read_buffer s b n m = Ok ((0, b', shift s 0), m')
    ∧ blocks m' !! pblk (data_ b') = None ∧ data_ b' = data_ b
    ∧ MutableBuffer.push_back_local b' (replicate (Z.to_nat value) NUL) m' = UB.
Proof.
  intros Hwf Hr Hb Hown Hc Hn Hv.
  destruct (min_size m s pre [] n) as [Hmin _]; [done|done|lia|].
  rewrite take_nil in Hmin. simpl in Hmin. pose proof (rep_size _ _ _ Hb) as Hs. simpl in Hs.
  destruct (setCapacity_zero_spec m b [] value) as (m' & Hz & Hfree & Hub); [done..|zlia|].
  exists (mkMB (base b) 0), m'. split; [|split; [done|split; [done|]]].
  - unfold read_buffer. rewrite Hmin, Hs. rewrite (bind_Ok _ _ m (true, mkMB (base b) 0) m'); [done|].
    unfold MutableBuffer.reserve, ensure, E, mutableEnsure.
    change (u64 _) with 0. rewrite orb_true_r. exact Hz.
  - unfold MutableBuffer.push_back_local. rewrite length_replicate, Z2Nat.id by lia.
    replace (value =? 0) with false by lia. cbn [negb]. apply bind_UB.
    simpl size_. rewrite Hs, Z.add_0_l, u64_small by zlia.
    unfold MutableBuffer.reserve, ensure, E, mutableEnsure. simpl capacity_.
    by replace ((0 <? value) || _) with true by lia.
Qed.
End bufferstream.

(** ** Descriptors and pipes *)
Section transfers.
Context {AL : Allocator} {K : Kernel} {KL : KernelLaws K}.
Import BufferStream.
Implicit Types (w : world) (s : BufferStream) (l d pre : bytes).

Lemma make_room_spec w s pre l n :
  mem_wf (wmem w) → bs_rep (wmem w) s pre l → 0 < writeOffset s + n → 0 <= n <= ADDR_SPACE →
  wp (make_room s n) (λ r w',
    wkern w' = wkern w ∧ mem_wf (wmem w') ∧ bs_rep (wmem w') r.2 pre l
    ∧ moves (buf s) (buf r.2) (wmem w) (wmem w')
    ∧ 0 <= r.1 <= n ∧ r.1 <= capacity_ (buf r.2) - size_ (buf r.2)) w.
Proof.
  intros Hwf [Hb Ho Hoff] Hpos Hn. pose proof (rep_capacity _ _ _ Hwf Hb) as [Hsz Hcap].
  unfold make_room, MutableBuffer.reserve. unfold writeOffset in *. rewrite u64_small by zlia.
  wp_step. apply wp_lift.
  wp_apply (ensure_ok (E := mutableEnsure) (inv := owned) (wmem w) (buf s)); [done..|zlia|].
  intros [ok b] m' (W & R & O & M & _). simpl in R, O, M |- *. wp_step. simpl.
  pose proof (rep_capacity _ _ _ W R) as [Hsz' Hcap'].
  unfold capacity, writeOffset. simpl. rewrite u64_small by zlia.
  split; [done|]. split; [done|]. split; [by split|]. split; [done|]. lia.
Qed.

(** The bytes read behind the write offset join the queue. *)
Lemma commit_spec m s pre l d n :
  mem_wf m → readOffset_ s = Z.of_nat (length pre) → owned m (buf s) →
  mbuf_rep m (with_size (buf s) (size_ (buf s) + Z.of_nat (length d))) ((pre ++ l) ++ d) →
  n = Z.of_nat (length d) ∨ d = [] ∧ n = -1 → bs_rep m (commit s n) pre (l ++ d).
Proof.
  intros Hwf Hoff Ho R Hn. pose proof (rep_capacity _ _ _ Hwf R) as [Hsz Hcap]. simpl in Hsz, Hcap.
  rewrite <- app_assoc in R. pose proof (rep_size _ _ _ R) as Hs. simpl in Hs.
  rewrite !length_app in Hs. unfold commit. destruct (Z.ltb_spec 0 n).
  - destruct Hn as [->|[_ ->]]; [|lia]. unfold MutableBuffer.resize.
    rewrite u64_small by zlia. replace (capacity_ (buf s) <? _) with false by lia.
    by split.
  - assert (d = []) as -> by (destruct Hn as [->|[-> _]]; [destruct d; [done|simpl in *; lia]|done]).
    rewrite Z.add_0_r, with_size_id in R. by split.
Qed.

(** [write(fd, size)] reads at most [size] bytes from the descriptor and
    appends to the queue exactly what it has taken from it. *)
Theorem bufferstream_write_fd w s pre l fd c n :
  mem_wf (wmem w) → bs_rep (wmem w) s pre l → rd_chan (wkern w) fd = Some c →
  0 < writeOffset s + n → 0 <= n <= ADDR_SPACE →
  wp (write_fd s fd n) (λ r w', ∃ d,
    took (wkern w) (wkern w') c d ∧ Z.of_nat (length d) <= n ∧ mem_wf (wmem w')
    ∧ bs_rep (wmem w') r.2 pre (l ++ d)
    ∧ (r.1 = Z.of_nat (length d) ∨ d = [] ∧ r.1 = -1)) w.
Proof.
  intros Hwf Hr Hrd Hpos Hn. unfold write_fd. wp_step.
  wp_apply (make_room_spec w s pre l n); [done..|].
  intros [n1 s1] w1 (Hk & W1 & [Hb Ho Hoff] & M1 & Hn1 & Hroom). simpl in *. wp_step.
  change (data s1 +ₚ writeOffset s1) with (BufferBase.end_ (buf s1)).
  wp_apply (wp_read_end w1 fd c (buf s1) (pre ++ l) n1); [done|done|done|by rewrite Hk|lia|].
  intros rv w2 (d & T & L & W2 & O2 & Ht & R2 & Hrv). wp_step. exists d. rewrite <- Hk.
  split; [done|]. split; [lia|]. split; [done|]. split; [|done]. by eapply commit_spec.
Qed.

(** [write(pipe, size)] does the same with a pipe, whose count follows. *)
Theorem bufferstream_write_pipe w s pre l p c lp n :
  mem_wf (wmem w) → bs_rep (wmem w) s pre l → pipe_rep (wkern w) p c lp →
  0 < writeOffset s + n → 0 <= n <= ADDR_SPACE →
  wp (write_pipe s p n) (λ '(rv, s', p') w', ∃ d lp',
    lp = d ++ lp' ∧ pipe_rep (wkern w') p' c lp' ∧ Z.of_nat (length d) <= n
    ∧ bs_rep (wmem w') s' pre (l ++ d) ∧ (rv = Z.of_nat (length d) ∨ d = [] ∧ rv = -1)) w.
Proof.
  intros Hwf Hr Hp Hpos Hn. unfold write_pipe. wp_step.
  wp_apply (make_room_spec w s pre l n); [done..|].
  intros [n1 s1] w1 (Hk & W1 & [Hb Ho Hoff] & M1 & Hn1 & Hroom). simpl in *. wp_step.
  unfold Pipe.read. wp_step. rewrite <- Hk in Hp.
  change (data s1 +ₚ writeOffset s1) with (BufferBase.end_ (buf s1)).
  wp_apply (wp_read_end w1 (Pipe.readFd p) c (buf s1) (pre ++ l) n1); [done|done|done|apply Hp|lia|].
  intros rv w2 (d & (lp' & Hd & T) & L & W2 & O2 & Ht & R2 & Hrv). wp_step. wp_step.
  assert (lp = d ++ lp') as -> by (destruct Hp; congruence).
  exists d, lp'. split; [done|]. split; [|split; [lia|split; [by eapply commit_spec|done]]].
  assert (Pipe.shrink p rv = Pipe.shrink p (Z.of_nat (length d))) as ->
    by (by destruct Hrv as [->|[-> ->]]).
  eapply pipe_rep_shrink; [exact T|by rewrite upd_eq|done].
Qed.

(** [read(fd, size)] removes from the queue as many bytes as the descriptor
    takes, but what it sends is the start of the buffer, which holds the
    bytes [pre] that were read before: the two agree only if nothing has
    been read yet. *)
Theorem bufferstream_read_fd w s pre l fd n :
  mem_wf (wmem w) → bs_rep (wmem w) s pre l → 0 <= n →
  wp (read_fd s fd n) (λ r w', ∃ k : nat,
    (r.1 = Z.of_nat k ∧ (k <= length l)%nat ∧ r.1 <= n
       ∧ (∃ c, wr_chan (wkern w) fd = Some c ∧ put (wkern w) (wkern w') c (take k (pre ++ l)))
     ∨ r.1 = -1 ∧ k = 0%nat ∧ transfer (wkern w) (wkern w') (content (wkern w)))
    ∧ bs_rep (wmem w') r.2 (pre ++ take k l) (drop k l)) w.
Proof.
  intros Hwf Hr Hn. destruct (bs_bounds _ _ _ _ Hwf Hr) as (Hw & Hsz & Hmax).
  pose proof Hr as [Hb Ho Hoff]. pose proof (rep_view _ _ _ Hb) as [Hm _].
  set (x := take (Z.to_nat (Z.min (size s) n)) (pre ++ l)).
  assert (Hx : mem_at (wmem w) (data s) x).
  { rewrite <- (take_drop (Z.to_nat (Z.min (size s) n)) (pre ++ l)) in Hm.
    by apply mem_at_app in Hm as [? _]. }
  assert (Hlx : Z.min (size s) n = Z.of_nat (length x))
    by (unfold x; rewrite length_take, length_app; lia).
  unfold read_fd. wp_step. apply (wp_write fd (data s) x); [done|done| |].
  - intros k' e Ht. wp_step. exists 0%nat. simpl. rewrite app_nil_r, drop_0.
    split; [by right|done].
  - intros r c k' Hc Hrr Hput. wp_step. exists (Z.to_nat r). simpl. split.
    + left. split; [lia|]. split; [lia|]. split; [lia|]. exists c. split; [done|].
      unfold x in Hput. rewrite take_take, Nat.min_l in Hput by lia. done.
    + unfold advance. destruct (Z.ltb_spec 0 r).
      * split; simpl; [by rewrite <- app_assoc, take_drop|done|].
        rewrite length_app, length_take, Hoff, u64_small by zlia. lia.
      * replace (Z.to_nat r) with 0%nat by lia. by rewrite take_0, app_nil_r, drop_0.
Qed.
End transfers.
