(* ===== verification/Stream.v ===== *)
(** * Stream (include/xio/Stream.h, lib/Stream.cpp, include/xio/StreamReader.h)

    The interface of the streams that keep bytes: the virtual functions that
    take an array are the class [StreamOps], the functions that Stream.cpp and
    StreamReader.h define on top of them are written against it.  [StreamSpec]
    is what a queue of bytes promises to its clients; [BufferStream] and [Pipe]
    are its instances.  Every program of writes and reads on such a stream gets
    back what it wrote, in order. *)

From S2P Require Import Prelude Memory BufferBase MutableBuffer BufferSpec Kernel Pipe BufferStream.

Local Open Scope Z_scope.

Class StreamOps `{Kernel} (T : Type) : Type := {
  st_size : T → Z;
  st_write : T → ptr → Z → WW (Z * T);
  st_read : T → ptr → Z → WW (Z * T);
  st_read_char : T → WW (Z * T);
}.

Module Stream.
Section ops.
Context `{Kernel} {T : Type} `{!StreamOps T}.

(** [Stream::empty()] and [Stream::write(const char* )] *)
Definition empty (s : T) : bool := st_size s =? 0.
Definition write_cstr (s : T) (str : ptr) : WW (Z * T) :=
  n ← lift (strlen str); st_write s str n.
End ops.
End Stream.

(** A reader is a pointer to a stream: its functions change the stream. *)
Module StreamReader.
Section ops.
Context `{Kernel} {T : Type} `{!StreamOps T}.

Definition read (stream : T) (buf : ptr) (size : Z) : WW (Z * T) := st_read stream buf size.
Definition read_char (stream : T) : WW (Z * T) := st_read_char stream.
End ops.
End StreamReader.

(** ** The contract of a queue *)

(** What a call reports for [k] bytes: their number, or -1 for none. *)
Definition reports (rv : Z) (k : nat) : Prop := rv = Z.of_nat k ∨ rv = -1 ∧ k = 0%nat.

(** [st_rep w s l]: the stream holds [l]; [st_apart w s p]: the array at [p] is
    not part of the stream; [st_takes] and [st_gives] say how much a call moves
    of what it was asked for (and of what is there). *)
Class StreamSpec `{Kernel} (T : Type) `{!StreamOps T} : Type := {
  st_rep : world → T → bytes → Prop;
  st_apart : world → T → ptr → Prop;
  st_takes : nat → nat → Prop;
  st_gives : Z → nat → nat → Prop;
  rep_wf w s l : st_rep w s l → mem_wf (wmem w);
  rep_sized w s l : st_rep w s l → st_size s = Z.of_nat (length l);
  rep_touch w s l p m' : st_rep w s l → st_apart w s p →
    mem_wf m' → only_touches (pblk p) (wmem w) m' →
    st_rep (World m' (wkern w) (werrno w)) s l ∧ st_apart (World m' (wkern w) (werrno w)) s p;
  write_law w s l p d : st_rep w s l → st_apart w s p → mem_at (wmem w) p d →
    wp (st_write s p (Z.of_nat (length d))) (λ r w', ∃ k : nat,
      ((k <= length d)%nat ∧ st_takes (length d) k) ∧ reports r.1 k
      ∧ st_rep w' r.2 (l ++ take k d) ∧ st_apart w' r.2 p
      ∧ ∀ x, mem_at (wmem w) p x → mem_at (wmem w') p x) w;
  read_law w s l p old n : st_rep w s l → st_apart w s p → mem_at (wmem w) p old →
    0 <= n <= Z.of_nat (length old) →
    wp (st_read s p n) (λ r w', ∃ (k : nat) rest,
      ((k <= length l)%nat ∧ st_gives n (length l) k) ∧ Z.of_nat k <= n ∧ reports r.1 k ∧ mem_at (wmem w') p (take k l ++ rest)
      ∧ length (take k l ++ rest) = length old
      ∧ st_rep w' r.2 (drop k l) ∧ st_apart w' r.2 p) w;
}.

(** ** Programs on a stream *)

(** A program with one array [p]: it fills the array and writes it, or reads
    into it and looks at what it got. *)
Inductive stream_op : Type := SWrite (d : bytes) | SRead (n : Z).

Section client.
Context `{Kernel} {T : Type} `{!StreamOps T}.

Definition run_stream_op (p : ptr) (o : stream_op) (s : T) : WW (Z * bytes * T) :=
  match o with
  | SWrite d =>
      lift (write_range p d);; '(rv, s) ← st_write s p (Z.of_nat (length d)); mret (rv, [], s)
  | SRead n =>
      '(rv, s) ← st_read s p n;
      d ← lift (read_range p (Z.max 0 rv)); mret (rv, d, s)
  end.

Fixpoint run_stream (p : ptr) (os : list stream_op) (s : T) : WW (list (Z * bytes) * T) :=
  match os with
  | [] => mret ([], s)
  | o :: os =>
      '(rv, d, s) ← run_stream_op p o s;
      '(t, s) ← run_stream p os s;
      mret ((rv, d) :: t, s)
  end.

(** The specification: a queue, of which each operation may move less than
    asked for, as [takes] and [gives] allow; the trace has the results and what
    was read. *)
Context (takes : nat → nat → Prop) (gives : Z → nat → nat → Prop).
Inductive queue_run : list stream_op → bytes → list (Z * bytes) → bytes → Prop :=
| queue_nil l : queue_run [] l [] l
| queue_write d k rv os l t l' :
    (k <= length d)%nat → takes (length d) k → reports rv k → queue_run os (l ++ take k d) t l' →
    queue_run (SWrite d :: os) l ((rv, []) :: t) l'
| queue_read n k rv os l t l' :
    (k <= length l)%nat → gives n (length l) k → Z.of_nat k <= n → reports rv k → queue_run os (drop k l) t l' →
    queue_run (SRead n :: os) l ((rv, take k l) :: t) l'.

(** Operations that fit an array of [N] bytes. *)
Definition stream_op_ok (N : nat) (o : stream_op) : Prop :=
  match o with
  | SWrite d => (length d <= N)%nat
  | SRead n => 0 <= n <= Z.of_nat N
  end.
End client.

(** The bytes that the stream took in, by the reported numbers. *)
Fixpoint accepted (os : list stream_op) (t : list (Z * bytes)) : bytes :=
  match os, t with
  | SWrite d :: os, (rv, _) :: t => take (Z.to_nat rv) d ++ accepted os t
  | SRead _ :: os, _ :: t => accepted os t
  | _, _ => []
  end.

(** In a run of the queue, what was inside and what went in are what came out
    and what is left. *)
Lemma queue_run_conserves takes gives os l t l' :
  queue_run takes gives os l t l' → l ++ accepted os t = concat t.*2 ++ l'.
Proof.
  induction 1 as [l|d k rv os l t l' Hk _ Hrv Hr IH|n k rv os l t l' Hk _ Hn Hrv Hr IH];
    rewrite ?fmap_cons, ?concat_cons; cbn [accepted snd].
  - rewrite app_nil_r. done.
  - replace (Z.to_nat rv) with k by (destruct Hrv as [->|[-> ->]]; lia).
    by rewrite app_assoc, IH.
  - rewrite <- app_assoc, <- IH, app_assoc. by rewrite take_drop.
Qed.

Section stream.
Context {K : Kernel} {T : Type} `{!StreamOps T} `{!StreamSpec T}.
Implicit Types (w : world) (s : T) (l d : bytes) (p : ptr).

(** The array and the stream, ready for the next operation. *)
Definition ready w s p (N : nat) l : Prop :=
  st_rep w s l ∧ st_apart w s p ∧ ∃ old, mem_at (wmem w) p old ∧ length old = N.

Lemma stream_write_step w s p N l d :
  ready w s p N l → (length d <= N)%nat →
  wp (run_stream_op p (SWrite d) s) (λ r w', ∃ k : nat,
    ((k <= length d)%nat ∧ st_takes (length d) k) ∧ reports r.1.1 k ∧ r.1.2 = [] ∧ ready w' r.2 p N (l ++ take k d)) w.
Proof.
  intros (Hr & Ha & old & Hold & Hlen) Hd. simpl. wp_step. apply wp_lift.
  apply (wp_write_array _ p old); [by eapply rep_wf|done|lia|]. intros m' rest W Ht Hm Hl.
  destruct (rep_touch w s l p m' Hr Ha W Ht) as [Hr' Ha'].
  apply mem_at_app in Hm as Hm1. destruct Hm1 as [Hmd _].
  wp_step. eapply wp_mono; [by apply write_law|].
  intros [rv s1] w1 (k & Hk & Hrv & R1 & A1 & Hkeep). wp_step. simpl in *. exists k.
  split; [done|]. split; [done|]. split; [done|]. split; [done|]. split; [done|].
  exists (d ++ rest). split; [by apply Hkeep|lia].
Qed.

Lemma stream_read_step w s p N l n :
  ready w s p N l → 0 <= n <= Z.of_nat N →
  wp (run_stream_op p (SRead n) s) (λ r w', ∃ k : nat,
    ((k <= length l)%nat ∧ st_gives n (length l) k) ∧ Z.of_nat k <= n ∧ reports r.1.1 k
    ∧ r.1.2 = take k l
    ∧ ready w' r.2 p N (drop k l)) w.
Proof.
  intros (Hr & Ha & old & Hold & Hlen) Hn. simpl. wp_step.
  eapply wp_mono; [apply (read_law w s l p old n); [done..|lia]|].
  intros [rv s1] w1 (k & rest & Hk & Hkn & Hrv & Hm & Hl & R1 & A1). simpl in *. wp_step. apply wp_lift.
  apply mem_at_app in Hm as Hm1. destruct Hm1 as [Hmd _].
  pose proof Hk as [Hk1 _]. eapply wp_Ok.
  { eapply read_range_ok; [exact Hmd|]. rewrite length_take. destruct Hrv as [->|[-> ->]]; simpl; lia. }
  wp_step. exists k. destruct w1. simpl. do 4 (split; [done|]). split; [done|]. split; [done|].
  exists (take k l ++ rest). split; [done|congruence].
Qed.

Lemma run_stream_queue p N os : Forall (stream_op_ok N) os → ∀ w s l,
  ready w s p N l →
  wp (run_stream p os s) (λ r w', ∃ l', queue_run st_takes st_gives os l r.1 l' ∧ ready w' r.2 p N l') w.
Proof.
  induction 1 as [|o os Ho Hos IH]; intros w s l Hr; cbn [run_stream].
  { wp_step. exists l. split; [constructor|done]. }
  wp_step. destruct o as [d|n]; simpl in Ho.
  - eapply wp_mono; [by apply stream_write_step|].
    intros [[rv x] s1] w1 (k & [Hk Ht] & Hrv & Hx & R1). simpl in *. subst x. wp_step.
    eapply wp_mono; [by apply IH|]. intros [t s2] w2 (l2 & Hq & R2). wp_step. simpl in *.
    exists l2. split; [by econstructor|done].
  - eapply wp_mono; [by apply stream_read_step|].
    intros [[rv x] s1] w1 (k & [Hk Ht] & Hkn & Hrv & Hx & R1). simpl in *. subst x. wp_step.
    eapply wp_mono; [by apply IH|]. intros [t s2] w2 (l2 & Hq & R2). wp_step. simpl in *.
    exists l2. split; [by econstructor|done].
Qed.

Lemma run_stream_fifo w s p N l os :
  Forall (stream_op_ok N) os → ready w s p N l →
  wp (run_stream p os s) (λ r w', ∃ l', queue_run st_takes st_gives os l r.1 l'
    ∧ l ++ accepted os r.1 = concat r.1.*2 ++ l'
    ∧ st_rep w' r.2 l' ∧ st_size r.2 = Z.of_nat (length l')) w.
Proof.
  intros Hos Hr. eapply wp_mono; [by eapply run_stream_queue|].
  intros r w' (l' & Hq & R & _). exists l'. split; [done|].
  split; [by eapply queue_run_conserves|]. split; [done|]. by eapply rep_sized.
Qed.

(** [write(const char* )] is a write of the characters of the string. *)
Theorem stream_write_cstr w s l p d :
  st_rep w s l → st_apart w s p → cstring (wmem w) p d →
  wp (Stream.write_cstr s p) (λ r w', ∃ k : nat,
    (k <= length d)%nat ∧ reports r.1 k ∧ st_rep w' r.2 (l ++ take k d)) w.
Proof.
  intros Hr Ha Hc. unfold Stream.write_cstr. wp_step. apply wp_lift.
  eapply wp_Ok; [by apply strlen_ok|]. destruct Hc as [[Hm _]%mem_at_app _].
  destruct w as [m k e]. eapply wp_mono; [by apply write_law|].
  intros r w' (n & [? _] & ? & ? & _). eauto.
Qed.

(** [empty()] says whether there is something to read. *)
Theorem stream_empty w s l : st_rep w s l → Stream.empty s = bool_decide (l = []).
Proof.
  intros Hr. unfold Stream.empty. rewrite (rep_sized _ _ _ Hr). destruct l; [done|].
  rewrite bool_decide_eq_false_2 by done. simpl. lia.
Qed.
End stream.

(** ** The buffer stream is a queue *)
Section bufferstream.
Context {K : Kernel} {AL : Allocator}.

#[export] Instance bufferstream_ops : StreamOps BufferStream.BufferStream := {|
  st_size := BufferStream.size;
  st_write := λ s p n, lift (BufferStream.write s p n);
  st_read := λ s p n, lift (BufferStream.read s p n);
  st_read_char := λ s, lift (BufferStream.read_char s);
|}.

(** A write is taken as a whole, or not for want of memory; a read gets what
    there is. *)
Definition buffer_takes (asked k : nat) : Prop := k = asked ∨ k = 0%nat ∧ ∃ n, no_memory n.
Definition buffer_gives (n : Z) (there k : nat) : Prop := k = Nat.min (Z.to_nat n) there.

#[export, refine] Instance bufferstream_spec : StreamSpec BufferStream.BufferStream := {|
  st_rep w s l := mem_wf (wmem w) ∧ ∃ pre, bs_rep (wmem w) s pre l;
  st_apart w s p := (pblk p < next (wmem w))%nat ∧ pblk p ≠ pblk (BufferStream.data s);
  st_takes := buffer_takes;
  st_gives := buffer_gives;
|}.
Proof.
  - by intros w s l [].
  - intros w s l [Hwf [pre Hr]]. simpl. by destruct (bs_bounds _ _ _ _ Hwf Hr) as (_ & ? & _).
  - intros w s l p m' [Hwf [pre Hr]] [Hlt Hne] W Ht. simpl. pose proof (ot_next _ _ _ Ht).
    split; [split; [done|]|split; [lia|done]]. exists pre.
    eapply bs_frame; [exact Hwf|exact Ht|by apply not_eq_sym|done].
  - intros w s l p d [Hwf [pre Hr]] [Hlt Hne] Hm. simpl. apply wp_lift.
    eapply wp_mono; [by apply (write_spec _ s pre l)|]. intros [rv s1] m1 (W1 & [Ht Hb] & Hor).
    simpl in *. pose proof (ot_next _ _ _ Ht). exists (if rv =? 0 then 0%nat else length d).
    assert (Hap : (pblk p < next m1)%nat ∧ pblk p ≠ pblk (BufferStream.data s1)).
    { split; [lia|]. unfold BufferStream.data in *. destruct Hb; lia. }
    assert (Hkeep : ∀ x, mem_at (wmem w) p x → mem_at m1 p x).
    { intros x Hx. eapply only_touches_mem_at; [exact Hwf|exact Ht|exact Hne|done]. }
    destruct Hor as [[-> R]|(-> & -> & R & Hno)].
    + destruct (Z.eqb_spec (Z.of_nat (length d)) 0).
      * destruct d; [|simpl in *; lia]. simpl. split; [split; [lia|by left]|]. split; [by left|]. eauto.
      * split; [split; [lia|by left]|]. split; [by left|]. rewrite firstn_all. eauto.
    + simpl. split; [split; [lia|right; eauto]|]. split; [by left|]. rewrite app_nil_r. eauto.
  - intros w s l p old n [Hwf [pre Hr]] [Hlt Hne] Hm Hn. simpl. apply wp_lift.
    pose proof (mem_at_length _ _ _ Hwf Hm).
    eapply wp_mono; [apply (read_spec _ s pre l p n old); [done|done|zlia|done| |done]|].
    { rewrite length_take. lia. }
    intros [rv s1] m1 (rest & pre' & Hrv & Hm1 & Hl & W1 & Ht & Hs & R). simpl in *.
    pose proof (ot_next _ _ _ Ht). subst s1.
    exists (length (take (Z.to_nat n) l)), rest.
    destruct (min_size (wmem w) s pre l n) as [_ Hdrop]; [done|done|lia|].
    rewrite Hdrop. assert (take (length (take (Z.to_nat n) l)) l = take (Z.to_nat n) l) as E.
    { rewrite length_take. destruct (Nat.le_ge_cases (Z.to_nat n) (length l)).
      - by rewrite Nat.min_l by lia.
      - by rewrite !take_ge by lia. }
    rewrite E. split; [split; [rewrite length_take; lia|by unfold buffer_gives; rewrite length_take]|].
    split; [rewrite length_take; lia|].
    split; [by left|]. split; [done|]. split; [done|]. split; [eauto|]. rewrite shift_data. split; [lia|done].
Defined.
End bufferstream.

(** ** The pipe is a queue *)
Section pipe.
Context {K : Kernel} {KL : KernelLaws K} {AL : Allocator}.

#[export] Instance pipe_ops : StreamOps Pipe.Pipe := {|
  st_size := Pipe.size;
  st_write := Pipe.write;
  st_read := Pipe.read;
  st_read_char := Pipe.read_char;
|}.

#[export, refine] Instance pipe_spec : StreamSpec Pipe.Pipe := {|
  st_rep w s l := mem_wf (wmem w) ∧ ∃ c, pipe_rep (wkern w) s c l;
  st_apart w s p := True;
  st_takes _ _ := True;
  st_gives _ _ _ := True;
|}.
Proof.
  - by intros w s l [].
  - by intros w s l [_ [c []]].
  - intros w s l p m' [Hwf [c Hr]] _ W Ht. eauto.
  - intros w s l p d [Hwf [c Hp]] _ Hm. simpl. unfold Pipe.write. wp_step.
    apply (wp_write _ _ d); [done|done|..].
    + intros k' e Ht. wp_step. exists 0%nat. simpl. rewrite app_nil_r.
      split; [split; [lia|done]|]. split; [by right|]. split; [split; [done|]|done].
      exists c. by eapply pipe_rep_same.
    + intros r c' k' Hc' Hr Hput. wp_step. simpl. assert (c' = c) as -> by (destruct Hp; congruence).
      exists (Z.to_nat r). split; [split; [lia|done]|]. split; [left; lia|]. split; [split; [done|]|done].
      exists c. assert (r = Z.of_nat (length (take (Z.to_nat r) d))) as Er by (rewrite length_take; lia).
      rewrite Er at 1. eapply pipe_rep_grow; [exact Hput| |done].
      by rewrite upd_eq, (prep_content _ _ _ _ Hp).
  - intros w s l p old n [Hwf [c Hp]] _ Hm Hn. simpl. unfold Pipe.read, Kernel.read. wp_step. wp_step.
    apply wp_read_local.
    + intros k' e Ht. wp_step. wp_step. exists 0%nat, old. simpl.
      split; [split; [lia|done]|]. split; [lia|]. split; [by right|]. split; [done|]. split; [done|].
      split; [split; [done|]|done]. exists c. by eapply pipe_rep_same.
    + intros d c' k' Hc' Hd (r & E & Ht). wp_step. apply wp_lift. simpl.
      assert (c' = c) as -> by (destruct Hp; congruence). rewrite (prep_content _ _ _ _ Hp) in E. subst l.
      apply (wp_write_array _ p old); [done|done|lia|]. intros m' rest W T Hm' Hl. wp_step. wp_step.
      simpl. exists (length d), rest. rewrite take_app_length, drop_app_length, length_app.
      split; [split; [lia|done]|]. split; [done|]. split; [by left|]. split; [done|]. split; [done|].
      split; [split; [done|]|done]. exists c.
      eapply pipe_rep_shrink; [exact Ht|by rewrite upd_eq|done].
Defined.
End pipe.

(** ** Both *)
Section both.
Context {K : Kernel} {KL : KernelLaws K} {AL : Allocator}.

(** C14: every program of calls [write(buf, size)] and [read(buf, size)], with
    an array that is none of the stream's, on a [BufferStream] and on a [Pipe]
    whose count is right, runs without undefined behaviour as on a queue: what
    it reads, followed by what is still in the stream, is what was in the stream
    and what the writes reported as taken, in order; [size()] counts what is
    left.  A buffer stream takes each write as a whole, or not at all for want
    of memory, and each read gets all that there is up to its size; a pipe may
    move less. *)
Theorem stream_fifo w p N os :
  mem_wf (wmem w) → (∃ old, mem_at (wmem w) p old ∧ length old = N) → Forall (stream_op_ok N) os →
  (∀ s pre l, bs_rep (wmem w) s pre l → (pblk p < next (wmem w))%nat →
     pblk p ≠ pblk (BufferStream.data s) →
     wp (run_stream p os s) (λ r w', ∃ pre' l', queue_run buffer_takes buffer_gives os l r.1 l'
       ∧ l ++ accepted os r.1 = concat r.1.*2 ++ l'
       ∧ bs_rep (wmem w') r.2 pre' l' ∧ BufferStream.size r.2 = Z.of_nat (length l')) w)
  ∧ (∀ s c l, pipe_rep (wkern w) s c l →
     wp (run_stream p os s) (λ r w', ∃ c' l', queue_run (λ _ _, True) (λ _ _ _, True) os l r.1 l'
       ∧ l ++ accepted os r.1 = concat r.1.*2 ++ l'
       ∧ pipe_rep (wkern w') r.2 c' l' ∧ Pipe.size r.2 = Z.of_nat (length l')) w).
Proof.
  intros Hwf Harr Hos. split.
  - intros s pre l Hr Hlt Hne. eapply wp_mono.
    { apply (run_stream_fifo w s p N l); [done|]. split; [by split; [|exists pre]|done]. }
    intros r w' (l' & Hq & Ha & [_ [pre' Hr']] & Hs). exists pre', l'. by split_and!.
  - intros s c l Hr. eapply wp_mono.
    { apply (run_stream_fifo w s p N l); [done|]. split; [by split; [|exists c]|done]. }
    intros r w' (l' & Hq & Ha & [_ [c' Hr']] & Hs). exists c', l'. by split_and!.
Qed.
End both.
