(* ===== verification/ChunkedStream.v ===== *)
(** * ChunkedStream (include/xio/ChunkedStream.h, lib/ChunkedStream.cpp)

    A queue of chunks, each of which is a buffer stream or a pipe.  The
    virtual calls on a chunk are dispatched on its constructor. *)

From S2P Require Import Prelude Memory BufferBase BufferParse MutableBuffer BufferSpec Kernel.
From S2P Require Import Pipe BufferStream.

Local Open Scope Z_scope.

Module ChunkedStream.
(** The dynamic type of a [Stream*] in [chunks_]. *)
Inductive chunk : Type :=
| CBuf (s : BufferStream.BufferStream)
| CPipe (p : Pipe.Pipe).

(** [std::deque<Stream*> chunks_] *)
Definition ChunkedStream : Type := list chunk.

Section ops.
Context {AL : Allocator} `{Kernel}.

Definition chunk_size (c : chunk) : Z :=
  match c with CBuf s => BufferStream.size s | CPipe p => Pipe.size p end.

(** [delete chunk] *)
Definition chunk_delete (c : chunk) : WW () :=
  match c with
  | CBuf s => lift (BufferStream.destroy s)
  | CPipe p => Pipe.destroy p
  end.

Definition chunk_read (p : ptr) (u : ()) (c : chunk) (n : Z) : WW (Z * chunk * ()) :=
  match c with
  | CBuf s => '(rv, s) ← lift (BufferStream.read s p n); mret (rv, CBuf s, u)
  | CPipe q => '(rv, q) ← Pipe.read q p n; mret (rv, CPipe q, u)
  end.

Definition chunk_read_pipe (pp : Pipe.Pipe) (c : chunk) (n : Z) : WW (Z * chunk * Pipe.Pipe) :=
  match c with
  | CBuf s => '(rv, s, pp) ← BufferStream.read_pipe s pp n; mret (rv, CBuf s, pp)
  | CPipe q => '(rv, q) ← Pipe.read_pipe q; mret (rv, CPipe q, pp)
  end.

Definition chunk_read_fd (fd : Z) (u : ()) (c : chunk) (n : Z) : WW (Z * chunk * ()) :=
  match c with
  | CBuf s => '(rv, s) ← BufferStream.read_fd s fd n; mret (rv, CBuf s, u)
  | CPipe q => '(rv, q) ← Pipe.read_fd q fd n; mret (rv, CPipe q, u)
  end.

Definition chunk_read_char (c : chunk) : WW (Z * chunk) :=
  match c with
  | CBuf s => '(rv, s) ← lift (BufferStream.read_char s); mret (rv, CBuf s)
  | CPipe q => '(rv, q) ← Pipe.read_char q; mret (rv, CPipe q)
  end.

Definition new : ChunkedStream := [].

(** [~ChunkedStream()] *)
Fixpoint destroy (cs : ChunkedStream) : WW () :=
  match cs with [] => mret () | c :: cs => chunk_delete c;; destroy cs end.

Definition empty (cs : ChunkedStream) : bool :=
  match cs with [] => true | c :: _ => chunk_size c =? 0 end.

Definition size (cs : ChunkedStream) : Z :=
  fold_left (λ result c, u64 (result + chunk_size c)) cs 0.

(** [buffer(size)]: the chunk to write to, which is the last one of the
    stream afterwards, and the chunks before it. *)
Definition buffer (cs : ChunkedStream) (n : Z) : WW (ChunkedStream * BufferStream.BufferStream) :=
  let fresh := s ← lift (BufferStream.new_cap n); mret (cs, s) in
  match last cs with
  | Some (CBuf tail) =>
      if BufferStream.size tail <? BufferStream.capacity tail
      then mret (take (pred (length cs)) cs, tail) else fresh
  | _ => fresh
  end.

(** [pipe(size)] likewise. *)
Definition pipe (cs : ChunkedStream) : WW (ChunkedStream * Pipe.Pipe) :=
  let fresh := p ← Pipe.new (Z.lor O_NONBLOCK O_CLOEXEC); mret (cs, p) in
  match last cs with
  | Some (CPipe tail) => mret (take (pred (length cs)) cs, tail)
  | _ => fresh
  end.

Definition write (cs : ChunkedStream) (p : ptr) (n : Z) : WW (Z * ChunkedStream) :=
  '(front, tail) ← buffer cs n;
  '(rv, tail) ← lift (BufferStream.write tail p n);
  mret (rv, front ++ [CBuf tail]).

Definition write_socket (cs : ChunkedStream) : WW (Z * ChunkedStream) := mret (0, cs).

(** [chunk->write(pp, size)] is [BufferStream::write(Pipe*, size_t, Mode)]. *)
Definition write_pipe (cs : ChunkedStream) (pp : Pipe.Pipe) (n : Z) (mode : Mode) :
    WW (Z * ChunkedStream * Pipe.Pipe) :=
  match mode with
  | MOVE =>
      '(front, tail) ← pipe cs;
      '(rv, tail, pp) ← Pipe.write_pipe tail pp n mode;
      mret (rv, front ++ [CPipe tail], pp)
  | COPY =>
      '(front, tail) ← buffer cs n;
      '(rv, tail, pp) ← BufferStream.write_pipe tail pp n;
      mret (rv, front ++ [CBuf tail], pp)
  end.

Definition write_fd (cs : ChunkedStream) (fd n : Z) : WW (Z * ChunkedStream) :=
  '(front, tail) ← pipe cs;
  '(rv, tail) ← Pipe.write_fd tail fd n;
  mret (rv, front ++ [CPipe tail]).

(** The loop of the three [read]s: [rd] is the call on the front chunk. *)
Fixpoint drain {X} (rd : X → chunk → Z → WW (Z * chunk * X)) (fuel : nat)
    (x : X) (cs : ChunkedStream) (n result : Z) : WW (Z * ChunkedStream * X) :=
  match fuel with
  | O => nofuel
  | S fuel =>
      if empty cs || negb (0 <? n) then mret (result, cs, x)
      else match cs with
      | [] => mret (result, cs, x)
      | c :: rest =>
          '(rv, c, x) ← rd x c n;
          if rv <? 0 then mret (if negb (result =? 0) then result else -1, c :: rest, x)
          else
            let result := if 0 <? rv then result + rv else result in
            let n := if 0 <? rv then u64 (n - rv) else n in
            if chunk_size c =? 0
            then chunk_delete c;; drain rd fuel x rest n result
            else drain rd fuel x (c :: rest) n result
      end
  end.

Definition drain_fuel (cs : ChunkedStream) (n : Z) : nat := S (Z.to_nat n + length cs).

(** [read(char* buf, size_t size)] *)
Definition read (cs : ChunkedStream) (p : ptr) (n : Z) : WW (Z * ChunkedStream) :=
  '(rv, cs, _) ← drain (chunk_read p) (drain_fuel cs n) () cs n 0; mret (rv, cs).

Definition read_socket (cs : ChunkedStream) : WW (Z * ChunkedStream) := mret (0, cs).

Definition read_pipe (cs : ChunkedStream) (pp : Pipe.Pipe) (n : Z) :
    WW (Z * ChunkedStream * Pipe.Pipe) :=
  drain chunk_read_pipe (drain_fuel cs n) pp cs n 0.

Definition read_fd (cs : ChunkedStream) (fd n : Z) : WW (Z * ChunkedStream) :=
  '(rv, cs, _) ← drain (chunk_read_fd fd) (drain_fuel cs n) () cs n 0; mret (rv, cs).

(** [read(Buffer& result, size_t size)] *)
Definition read_buffer (cs : ChunkedStream) (result : MutableBuffer) (n : Z) :
    WW (Z * MutableBuffer * ChunkedStream) :=
  lift (MutableBuffer.reserve (E := mutableEnsure) result (u64 (size_ result + n)))
    ≫= λ r : bool * MutableBuffer,
  let result := r.2 in
  '(rv, cs) ← read cs (BufferBase.end_ result) n;
  mret (rv, if 0 <? rv then (MutableBuffer.resize result (u64 (size_ result + rv))).2 else result,
        cs).

Definition pop_front (cs : ChunkedStream) : WW ChunkedStream :=
  match cs with [] => ub | c :: cs => chunk_delete c;; mret cs end.

(** [int read()] *)
Definition read_char (cs : ChunkedStream) : WW (Z * ChunkedStream) :=
  if empty cs then mret (-1, cs)
  else match cs with
  | [] => mret (-1, cs)
  | c :: rest =>
      '(ch, c) ← chunk_read_char c;
      cs ← (if chunk_size c =? 0 then pop_front (c :: rest) else mret (c :: rest));
      mret (ch, cs)
  end.
End ops.
End ChunkedStream.

(** ** The stream as a queue (of buffer chunks) *)
Section chunked.
Context {AL : Allocator} `{K : Kernel}.
Import ChunkedStream.
Implicit Types (m : memory) (w : world) (cs : list chunk) (ls : list bytes) (l d : bytes).

Definition chunk_rep m (c : chunk) l : Prop :=
  match c with CBuf s => ∃ pre, bs_rep m s pre l | CPipe _ => False end.

Definition cblk (c : chunk) : nat :=
  match c with CBuf s => pblk (BufferStream.data s) | CPipe _ => 0 end.

(** The memory blocks that the chunks own. *)
Definition live cs : list nat := filter (λ b, b ≠ 0%nat) (cblk <$> cs).

Record cs_rep m cs ls : Prop := {
  cs_chunks : Forall2 (chunk_rep m) cs ls;
  cs_sep : NoDup (live cs);
}.

Lemma live_app cs1 cs2 : live (cs1 ++ cs2) = live cs1 ++ live cs2.
Proof. unfold live. by rewrite fmap_app, filter_app. Qed.

Lemma elem_of_live b cs : b ∈ live cs ↔ b ≠ 0%nat ∧ ∃ c, c ∈ cs ∧ cblk c = b.
Proof.
  unfold live. rewrite list_elem_of_filter, list_elem_of_fmap. naive_solver.
Qed.

Lemma chunk_frame m m' c l (b : nat) :
  mem_wf m → only_touches b m m' → cblk c ≠ b ∨ cblk c = 0%nat →
  chunk_rep m c l → chunk_rep m' c l.
Proof.
  intros Hwf Ht Hb. destruct c as [s|]; [|done]. simpl in *. intros [pre Hr]. exists pre.
  destruct Hr as [Hb0 Ho Hoff].
  destruct (rep_apart m m' (BufferStream.buf s) (pre ++ l) b); [done..|]. by split.
Qed.

Lemma chunks_frame m m' cs ls (b : nat) :
  mem_wf m → only_touches b m m' → b ∉ live cs →
  Forall2 (chunk_rep m) cs ls → Forall2 (chunk_rep m') cs ls.
Proof.
  intros Hwf Ht Hb HF. rewrite elem_of_live in Hb. induction HF as [|c l cs ls Hc HF IH]; [done|].
  constructor.
  - eapply chunk_frame; [done|done| |done]. destruct (decide (cblk c = 0%nat)); [by right|left].
    intros <-. apply Hb. split; [done|]. exists c. set_solver.
  - apply IH. set_solver.
Qed.

Lemma chunk_live_valid m c l : mem_wf m → chunk_rep m c l → cblk c ≠ 0%nat → (cblk c < next m)%nat.
Proof.
  intros Hwf Hc Hne. destruct c as [s|]; [|done]. destruct Hc as [pre [_ Ho _]]. simpl in *.
  unfold BufferStream.data in *. destruct Ho as [[Hn _]|(_ & _ & x & Hx & _)].
  - by rewrite Hn in Hne.
  - apply Nat.nle_gt. intros Hle. by rewrite (wf_fresh _ Hwf) in Hx.
Qed.

Lemma live_valid m cs ls b :
  mem_wf m → Forall2 (chunk_rep m) cs ls → b ∈ live cs → (b < next m)%nat.
Proof.
  intros Hwf HF [Hb (c & Hc & <-)]%elem_of_live.
  apply list_elem_of_lookup in Hc as [i Hi].
  destruct (Forall2_lookup_l _ _ _ _ _ HF Hi) as (l & _ & Hl). by eapply chunk_live_valid.
Qed.

(** Blocks that belong to no chunk stay as they are and belong to none. *)
Definition others_kept cs m cs' m' : Prop :=
  ∀ b, (0 < b < next m)%nat → b ∉ live cs →
    (b ∉ live cs') ∧ (b < next m')%nat ∧ blocks m' !! b = blocks m !! b.

Lemma kept_mem_at cs m cs' m' p x :
  others_kept cs m cs' m' → (0 < pblk p < next m)%nat → pblk p ∉ live cs →
  mem_at m p x → mem_at m' p x ∧ (pblk p ∉ live cs').
Proof.
  intros Hk Hp Hni Hm. destruct (Hk _ Hp Hni) as (? & _ & E). split; [|done].
  unfold mem_at, loadbytes in *. by rewrite E.
Qed.

(** The last chunk was written to, in place or in a new block. *)
Lemma tail_kept front t t' m m' :
  only_touches (pblk (BufferStream.data t)) m m' →
  (pblk (BufferStream.data t') = pblk (BufferStream.data t) ∨ (next m <= pblk (BufferStream.data t'))%nat) →
  others_kept (front ++ [CBuf t]) m (front ++ [CBuf t']) m'.
Proof.
  intros [Hn Ht] Hb b Hv Hni. rewrite live_app, elem_of_app in Hni.
  assert (b ≠ pblk (BufferStream.data t)) as Hne.
  { intros ->. apply Hni. right. apply elem_of_live. split; [lia|]. exists (CBuf t). set_solver. }
  split; [|split; [lia|apply Ht; [lia|done]]].
  rewrite live_app, elem_of_app. intros [Hin|(_ & c & ->%list_elem_of_singleton & Hc)%elem_of_live].
  - apply Hni. by left.
  - simpl in Hc. destruct Hb; lia.
Qed.

(** Writing to the last chunk, the others being [front]. *)
Lemma write_tail w front lf t pre l p d :
  mem_wf (wmem w) → cs_rep (wmem w) front lf → bs_rep (wmem w) t pre l →
  cblk (CBuf t) ∉ live front → mem_at (wmem w) p d → pblk p ≠ cblk (CBuf t) →
  wp ('(rv, tail) ← lift (BufferStream.write t p (Z.of_nat (length d)));
      mret (rv, front ++ [CBuf tail]))
    (λ r w', wkern w' = wkern w ∧ mem_wf (wmem w')
      ∧ others_kept (front ++ [CBuf t]) (wmem w) r.2 (wmem w')
      ∧ ∃ l', cs_rep (wmem w') r.2 (lf ++ [l'])
      ∧ (r.1 = Z.of_nat (length d) ∧ l' = l ++ d
         ∨ r.1 = 0 ∧ l' = l ∧ ∃ n, no_memory n)) w.
Proof.
  intros Hwf [HF Hsep] Ht Hni Hp Hne. wp_step. apply wp_lift.
  wp_apply (write_spec (wmem w) t pre l p d); [done..|].
  intros [rv t'] m' (W & [M1 M2] & Hor). wp_step. simpl in *. split; [done|]. split; [done|].
  split; [by apply tail_kept|].
  assert (∃ l', bs_rep m' t' pre l' ∧ (rv = Z.of_nat (length d) ∧ l' = l ++ d
            ∨ rv = 0 ∧ l' = l ∧ ∃ n, no_memory n)) as (l' & Ht' & Hl').
  { destruct Hor as [[-> ?]|(-> & -> & ? & ?)]; eauto 10. }
  exists l'. split; [|done]. split.
  - apply Forall2_app; [by apply (chunks_frame (wmem w) m' _ _ (pblk (BufferStream.data t)))|].
    constructor; [by exists pre|constructor].
  - rewrite live_app. apply NoDup_app. split; [done|]. split.
    + intros b Hb [_ (c & ->%list_elem_of_singleton & Hc)]%elem_of_live. simpl in Hc. subst b.
      destruct M2 as [E|Hnew]; [apply Hni; unfold BufferStream.data in *; by rewrite <- E|].
      apply (live_valid (wmem w) front lf) in Hb; [|done..]. unfold BufferStream.data in Hb. lia.
    + unfold live. simpl. destruct (decide (pblk (BufferStream.data t') ≠ 0%nat)) as [H0|H0].
      * rewrite filter_cons_True, filter_nil by done. apply NoDup_singleton.
      * rewrite filter_cons_False, filter_nil by done. constructor.
Qed.

(** A new chunk is added and written to. *)
Lemma kept_fresh cs s1 m m1 cs' m' :
  only_touches 0 m m1 → (pblk (BufferStream.data s1) = 0%nat ∨ (next m <= pblk (BufferStream.data s1))%nat) →
  others_kept (cs ++ [CBuf s1]) m1 cs' m' → others_kept cs m cs' m'.
Proof.
  intros [Hn Ht] Hb Hk b Hv Hni. destruct (Hk b) as (H1 & H2 & H3); [lia| |].
  - rewrite live_app, elem_of_app. intros [?|(_ & c & ->%list_elem_of_singleton & Hc)%elem_of_live]; [done|].
    simpl in Hc. lia.
  - split; [done|]. split; [done|]. rewrite H3. apply Ht; lia.
Qed.

(** A chunk for [n] bytes, empty. *)
Lemma new_cap_spec m n :
  mem_wf m → 0 <= n <= ADDR_SPACE →
  wp (BufferStream.new_cap n) (λ s m', mem_wf m' ∧ bs_rep m' s [] []
    ∧ moves MutableBuffer.new (BufferStream.buf s) m m') m.
Proof.
  intros Hwf Hn. unfold BufferStream.new_cap, Buffer.new_capacity, MutableBuffer.reserve.
  wp_step. wp_step. destruct (Z.eq_dec n 0) as [->|Hne].
  - eapply wp_Ok; [vm_compute; reflexivity|]. cbv beta iota. wp_step. wp_step. split; [done|]. split; [|apply moves_refl].
    split; simpl; [apply rep_empty|by left|done].
  - wp_apply (ensure_ok (E := mutableEnsure) (inv := owned) m MutableBuffer.new []);
      [done|apply rep_empty|by left|zlia|].
    intros [ok b] m' (W & R & O & M & _). wp_step. wp_step. simpl in *.
    split; [done|]. split; [by split|done].
Qed.

Lemma cs_rep_snoc m cs c ls :
  cs_rep m (cs ++ [c]) ls →
  ∃ lf l, ls = lf ++ [l] ∧ cs_rep m cs lf ∧ chunk_rep m c l ∧ cblk c ∉ live cs.
Proof.
  intros [HF Hs]. apply Forall2_app_inv_l in HF as (lf & lt & Hf & Ht & ->).
  apply Forall2_cons_inv_l in Ht as (l & lt' & Hc & ->%Forall2_nil_inv_l & ->).
  rewrite live_app in Hs. apply NoDup_app in Hs as (Hs & Hd & _).
  exists lf, l. split; [done|]. split; [by split|]. split; [done|]. intros Hin.
  apply (Hd _ Hin). apply elem_of_live in Hin as [Hne _]. apply elem_of_live.
  split; [done|]. exists c. set_solver.
Qed.

(** The bytes [d] are at the end, in the last chunk or in a new one. *)
Definition grown ls d ls' : Prop :=
  ls' = ls ++ [d] ∨ ∃ lf l, ls = lf ++ [l] ∧ ls' = lf ++ [l ++ d].

Lemma grown_concat ls d ls' : grown ls d ls' → concat ls' = concat ls ++ d.
Proof.
  intros [->|(lf & l & -> & ->)]; rewrite !concat_app; simpl; rewrite !app_nil_r; [done|].
  by rewrite app_assoc.
Qed.

Lemma grown_nonempty ls d ls' :
  grown ls d ls' → d ≠ [] → Forall (λ l, l ≠ []) ls → Forall (λ l, l ≠ []) ls'.
Proof.
  intros [->|(lf & l & -> & ->)] Hd Hne; apply Forall_app; [by repeat constructor|].
  apply Forall_app in Hne as [Hne _]. split; [done|]. repeat constructor. by intros [_ ?]%app_nil.
Qed.

(** The stream after a write of [d], for which there may have been no memory. *)
Definition chunks_appended w cs ls d (r : Z * ChunkedStream) w' : Prop :=
  mem_wf (wmem w') ∧ wkern w' = wkern w ∧ others_kept cs (wmem w) r.2 (wmem w')
  ∧ ∃ ls', cs_rep (wmem w') r.2 ls'
  ∧ (r.1 = Z.of_nat (length d) ∧ grown ls d ls'
     ∨ r.1 = 0 ∧ grown ls [] ls' ∧ ∃ n, no_memory n).

Lemma write_fresh w cs ls p d :
  mem_wf (wmem w) → cs_rep (wmem w) cs ls → mem_at (wmem w) p d → (0 < pblk p < next (wmem w))%nat →
  wp ('(front, tail) ← (s ← lift (BufferStream.new_cap (Z.of_nat (length d))); mret (cs, s));
      '(rv, tail) ← lift (BufferStream.write tail p (Z.of_nat (length d)));
      mret (rv, front ++ [CBuf tail])) (chunks_appended w cs ls d) w.
Proof.
  intros Hwf Hcs Hp Hval.
  pose proof (mem_at_length _ _ _ Hwf Hp). wp_step. wp_step. apply wp_lift.
  wp_apply (new_cap_spec (wmem w) (Z.of_nat (length d))); [done|lia|].
  intros s1 m1 (W1 & R1 & [T1 M1]). wp_step. simpl in M1. eapply wp_mono.
  - apply (write_tail (World m1 (wkern w) (werrno w)) cs ls s1 [] [] p d); simpl; try done.
    + destruct Hcs as [HF Hs]. split; [|done].
      eapply (chunks_frame (wmem w) m1); [done|exact T1| |done].
      intros [? _]%elem_of_live. done.
    + intros Hin. pose proof (live_valid _ _ _ _ Hwf (cs_chunks _ _ _ Hcs) Hin).
      apply elem_of_live in Hin as [? _]. unfold BufferStream.data in *. lia.
    + eapply only_touches_mem_at; [exact Hwf|exact T1|simpl; lia|done].
    + unfold BufferStream.data. lia.
  - intros r w' (Hk & W & Hkp & l' & Hc & Hl). simpl in Hk, Hkp. split; [done|]. split; [done|].
    split; [eapply kept_fresh; [exact T1|exact M1|done]|].
    exists (ls ++ [l']). split; [done|].
    destruct Hl as [[? ->]|(? & -> & ?)]; [left|right]; (split; [done|]); [|split; [|done]]; by left.
Qed.

Lemma chunked_write_spec w cs ls p d :
  mem_wf (wmem w) → cs_rep (wmem w) cs ls → mem_at (wmem w) p d → (0 < pblk p < next (wmem w))%nat →
  pblk p ∉ live cs →
  wp (write cs p (Z.of_nat (length d))) (chunks_appended w cs ls d) w.
Proof.
  intros Hwf Hcs Hp Hval Hni. unfold write, buffer. cbv zeta.
  destruct (last cs) as [[t|]|] eqn:Hl; [|by apply write_fresh..].
  destruct (BufferStream.size t <? BufferStream.capacity t); [|by apply write_fresh].
  apply last_Some in Hl as [front ->]. rewrite length_app, Nat.add_1_r. simpl pred.
  rewrite take_app_length. apply wp_bind, wp_ret.
  apply cs_rep_snoc in Hcs as (lf & l & -> & Hf & [pre Ht] & Hnl). eapply wp_mono.
  - apply (write_tail w front lf t pre l p d); try done. intros E. apply Hni.
    apply elem_of_live. split; [lia|]. exists (CBuf t). split; [set_solver|done].
  - intros r w' (Hk & W & Hkp & l' & Hc & Hor). split; [done|]. split; [done|]. split; [done|].
    exists (lf ++ [l']). split; [done|].
    destruct Hor as [[? ->]|(? & -> & ?)]; [left|right]; (split; [done|]).
    + right. by exists lf, l.
    + split; [|done]. right. exists lf, l. by rewrite app_nil_r.
Qed.

(** [write(buf, size)] appends the bytes at the end of the stream, in the
    last chunk or in a new one, and returns their number; only without
    memory does it return 0, and then the stream's bytes are unchanged. *)
Theorem chunked_write w cs ls p d :
  mem_wf (wmem w) → cs_rep (wmem w) cs ls → mem_at (wmem w) p d → d ≠ [] → pblk p ∉ live cs →
  wp (write cs p (Z.of_nat (length d))) (λ r w',
    mem_wf (wmem w') ∧ wkern w' = wkern w ∧ ∃ ls', cs_rep (wmem w') r.2 ls'
    ∧ (r.1 = Z.of_nat (length d) ∧ concat ls' = concat ls ++ d
       ∨ r.1 = 0 ∧ concat ls' = concat ls ∧ ∃ n, no_memory n)) w.
Proof.
  intros Hwf Hcs Hp Hd Hni. pose proof (mem_at_valid _ _ _ Hwf Hp Hd).
  eapply wp_mono; [by apply chunked_write_spec|].
  intros r w' (? & ? & _ & ls' & ? & Hor). split; [done|]. split; [done|]. exists ls'. split; [done|].
  destruct Hor as [[? ?%grown_concat]|(? & Hg%grown_concat & ?)]; [by left|right].
  by rewrite app_nil_r in Hg.
Qed.

(** The piece that the last of the chunks read contributes to a read of [n]
    bytes ([acc] if there is none). *)
Fixpoint last_piece (n : nat) ls (acc : bytes) : bytes :=
  match ls with
  | [] => acc
  | l :: ls => if (n =? 0)%nat then acc else last_piece (n - length l) ls (take n l)
  end.

Lemma last_piece_0 ls acc : last_piece 0 ls acc = acc.
Proof. by destruct ls. Qed.

(** A read sees the chunks before the first empty one, *)
Fixpoint lead ls : list bytes :=
  match ls with [] | [] :: _ => [] | l :: ls => l :: lead ls end.

(** and takes [n] bytes from them; a chunk that is used up goes. *)
Fixpoint read_list (n : nat) ls : list bytes :=
  match n, ls with
  | O, _ | _, [] | _, [] :: _ => ls
  | _, l :: ls' => if (length l <=? n)%nat then read_list (n - length l) ls' else drop n l :: ls'
  end.

Lemma read_list_0 ls : read_list 0 ls = ls.
Proof. by destruct ls. Qed.

Lemma read_list_next n l ls :
  (0 < n)%nat → l ≠ [] → (length l <= n)%nat → read_list n (l :: ls) = read_list (n - length l) ls.
Proof.
  intros Hn Hl Hle. destruct n; [lia|]. destruct l; [done|]. cbn [read_list].
  by replace (length _ <=? S n)%nat with true by (symmetry; apply Nat.leb_le; done).
Qed.

Lemma read_list_last n l ls :
  (0 < n)%nat → (n < length l)%nat → read_list n (l :: ls) = drop n l :: ls.
Proof.
  intros Hn Hlt. destruct n; [lia|]. destruct l; [simpl in Hlt; lia|]. cbn [read_list].
  by replace (length _ <=? S n)%nat with false by (symmetry; apply Nat.leb_gt; done).
Qed.

Lemma lead_full ls : Forall (λ l, l ≠ []) ls → lead ls = ls.
Proof. induction 1 as [|l ls Hl _ IH]; [done|]. destruct l; [done|]. simpl. by rewrite IH. Qed.

(** Without empty chunks a read is one of the concatenation. *)
Lemma read_list_full ls : Forall (λ l, l ≠ []) ls → ∀ n,
  Forall (λ l, l ≠ []) (read_list n ls) ∧ concat (read_list n ls) = drop n (concat ls).
Proof.
  induction 1 as [|l ls Hl Hne IH]; intros n; [by destruct n|].
  destruct (decide (n = 0%nat)) as [->|Hn]; [by rewrite read_list_0; split; [constructor|]|].
  destruct (decide (length l <= n)%nat) as [Hle|Hlt].
  - rewrite read_list_next by (done || lia). destruct (IH (n - length l)%nat) as [? ->].
    split; [done|]. simpl. by rewrite drop_app_ge by lia.
  - rewrite read_list_last by lia. split; [|simpl; by rewrite drop_app_le by lia].
    constructor; [|done]. intros E%(f_equal length). rewrite length_drop in E. simpl in E. lia.
Qed.

(** What a read from [w] with the array at [p] has done so far. *)
Definition read_chunks w p (N : nat) cs ls (n : nat) (acc : bytes) (result : Z)
    (r : Z * ChunkedStream * ()) w' : Prop := ∃ rest,
  (cs_rep (wmem w') r.1.2 (read_list n ls) ∧ live r.1.2 ⊆ live cs)
  ∧ r.1.1 = result + Z.of_nat (length (take n (concat (lead ls))))
  ∧ wkern w' = wkern w ∧ mem_wf (wmem w')
  ∧ mem_at (wmem w') p (last_piece n (lead ls) acc ++ rest)
  ∧ length (last_piece n (lead ls) acc ++ rest) = N.

Lemma not_live_cons (b : nat) c cs :
  b ∉ live (c :: cs) → b ≠ 0%nat → b ≠ cblk c ∧ b ∉ live cs.
Proof.
  intros Hni H0. split.
  - intros E. apply Hni, elem_of_live. split; [done|]. exists c. split; [set_solver|done].
  - intros (_ & x & Hx & E)%elem_of_live. apply Hni, elem_of_live.
    split; [done|]. exists x. split; [set_solver|done].
Qed.

Lemma live_tail c cs : live cs ⊆ live (c :: cs).
Proof. intros b. rewrite !elem_of_live. set_solver. Qed.

(** The front chunk is used up, or not. *)
Lemma read_chunks_next w w1 p N c cs l ls (n : nat) acc result r w' :
  l ≠ [] → (length l <= n)%nat → (0 < n)%nat → wkern w1 = wkern w →
  read_chunks w1 p N cs ls (n - length l) (take n l) (result + Z.of_nat (length l)) r w' →
  read_chunks w p N (c :: cs) (l :: ls) n acc result r w'.
Proof.
  intros Hne Hl Hn Hk (rest & (H1 & H1b) & H3 & H4 & H5 & H6 & H7). exists rest.
  rewrite read_list_next by done. destruct l as [|x l]; [done|].
  cbn [lead concat last_piece]. replace (n =? 0)%nat with false by lia.
  rewrite take_app_ge by lia. split; [|].
  { split; [done|]. etrans; [exact H1b|]. apply live_tail. }
  rewrite length_app. split; [lia|]. split; [congruence|done].
Qed.

Lemma read_chunks_last w w1 p N cs cs' l ls (n : nat) acc result r w' :
  (n < length l)%nat → (0 < n)%nat → wkern w1 = wkern w → live cs' = live cs →
  read_chunks w1 p N cs' (drop n l :: ls) 0 (take n l) (result + Z.of_nat n) r w' →
  read_chunks w p N cs (l :: ls) n acc result r w'.
Proof.
  intros Hl Hn Hk Hlv (rest & H1 & H3 & H4 & H5 & H6 & H7). exists rest.
  rewrite read_list_0 in H1. rewrite read_list_last by done. rewrite last_piece_0, take_0 in *.
  rewrite Hlv in H1. destruct l as [|x l]; [simpl in Hl; lia|].
  cbn [lead concat last_piece] in *. replace (n =? 0)%nat with false by lia.
  replace (n - length (x :: l))%nat with 0%nat by lia. rewrite last_piece_0.
  rewrite take_app_le by lia. split; [done|].
  simpl in H3. rewrite length_take. split; [lia|]. split; [congruence|done].
Qed.

(** Removing the front chunk. *)
Lemma delete_front w c l cs ls p x :
  mem_wf (wmem w) → cs_rep (wmem w) (c :: cs) (l :: ls) → mem_at (wmem w) p x →
  pblk p ≠ cblk c →
  wp (chunk_delete c) (λ _ w', wkern w' = wkern w ∧ mem_wf (wmem w')
    ∧ cs_rep (wmem w') cs ls ∧ mem_at (wmem w') p x) w.
Proof.
  intros Hwf [HF Hs] Hp Hne. apply Forall2_cons_1 in HF as [Hc HF].
  destruct c as [s|]; [|done]. destruct Hc as [pre [Hb Ho _]]. simpl. apply wp_lift.
  unfold BufferStream.destroy, Buffer.destroy. wp_step. wp_step.
  wp_apply (reserve_zero (wmem w) (BufferStream.buf s)); [done..|].
  intros [ok b] m' (_ & W & T & _). wp_step. wp_step. simpl. split; [done|]. split; [done|].
  split; [|by apply (only_touches_mem_at (pblk (BufferStream.data s)) (wmem w) m')].
  unfold live in Hs. simpl in Hs. split.
  - eapply chunks_frame; [exact Hwf|exact T| |done].
    intros Hin. destruct (proj1 (elem_of_live _ _) Hin) as [H0 _].
    rewrite filter_cons_True in Hs by done. by apply NoDup_cons in Hs as [? _].
  - destruct (decide (pblk (BufferStream.data s) ≠ 0%nat)) as [H0|H0].
    + rewrite filter_cons_True in Hs by done. by apply NoDup_cons in Hs as [_ ?].
    + by rewrite filter_cons_False in Hs.
Qed.

(** Reading from the front chunk. *)
Lemma read_front w s l cs ls p n old :
  mem_wf (wmem w) → cs_rep (wmem w) (CBuf s :: cs) (l :: ls) → 0 <= n <= SSIZE_MAX →
  mem_at (wmem w) p old → n <= Z.of_nat (length old) → pblk p ∉ live (CBuf s :: cs) → pblk p ≠ 0%nat →
  wp (chunk_read p () (CBuf s) n) (λ r w', ∃ s' rest,
    r = (Z.of_nat (length (take (Z.to_nat n) l)), CBuf s', ())
    ∧ wkern w' = wkern w ∧ mem_wf (wmem w')
    ∧ cs_rep (wmem w') (CBuf s' :: cs) (drop (Z.to_nat n) l :: ls)
    ∧ BufferStream.data s' = BufferStream.data s
    ∧ mem_at (wmem w') p (take (Z.to_nat n) l ++ rest)
    ∧ length (take (Z.to_nat n) l ++ rest) = length old) w.
Proof.
  intros Hwf [HF Hsep] Hn Hp Hlen Hni Hp0. apply Forall2_cons_1 in HF as [[pre Hc] HF].
  assert (pblk p ≠ pblk (BufferStream.data s) ∧ pblk p ∉ live cs) as [Hne Hni'].
  { by apply (not_live_cons _ (CBuf s)). }
  simpl. wp_step. apply wp_lift.
  wp_apply (read_spec (wmem w) s pre l p n old); [done..|rewrite length_take; lia|done|].
  intros [rv s'] m' (rest & pre' & Hrv & Hm & Hl & W & T & Hs' & Hr). simpl in *. wp_step.
  exists s', rest. split; [by rewrite Hrv|]. split; [done|]. split; [done|].
  assert (BufferStream.data s' = BufferStream.data s) as Hd by (rewrite Hs'; apply shift_data).
  split; [|done]. split.
  - constructor; [by exists pre'|]. by apply (chunks_frame (wmem w) m' cs ls (pblk p)).
  - unfold live in *. simpl in *. by rewrite Hd.
Qed.

Lemma chunk_rep_size m c l : mem_wf m → chunk_rep m c l → chunk_size c = Z.of_nat (length l).
Proof.
  intros Hwf. destruct c as [s|]; [|done]. intros [pre Hr]. simpl.
  by destruct (bs_bounds _ _ _ _ Hwf Hr) as (_ & -> & _).
Qed.

Lemma drain_read_spec fuel : ∀ w cs ls p (n : Z) acc rest result,
  mem_wf (wmem w) → cs_rep (wmem w) cs ls →
  mem_at (wmem w) p (acc ++ rest) → 0 <= n <= Z.of_nat (length (acc ++ rest)) →
  pblk p ∉ live cs → pblk p ≠ 0%nat → (length cs + Z.to_nat n < fuel)%nat →
  wp (drain (chunk_read p) fuel () cs n result)
    (read_chunks w p (length (acc ++ rest)) cs ls (Z.to_nat n) acc result) w.
Proof.
  induction fuel as [|fuel IH]; intros w cs ls p n acc rest result Hwf Hcs Hp Hn Hni Hp0 Hf;
    [lia|].
  pose proof (mem_at_length _ _ _ Hwf Hp) as Hmax. cbn [drain].
  assert (Hstop : n = 0 ∨ lead ls = [] →
    read_chunks w p (length (acc ++ rest)) cs ls (Z.to_nat n) acc result (result, cs, ()) w).
  { intros H0. exists rest. cbn [fst snd]. destruct H0 as [->|H0].
    - rewrite read_list_0, last_piece_0, take_0. simpl. by rewrite Z.add_0_r.
    - rewrite H0. simpl. rewrite take_nil. simpl. rewrite Z.add_0_r.
      split; [|done]. split; [|done]. by destruct (Z.to_nat n), ls as [|[]]. }
  destruct cs as [|c cs].
  { apply wp_ret, Hstop. right. by destruct Hcs as [->%Forall2_nil_inv_l _]. }
  pose proof Hcs as [HF Hsep]. apply Forall2_cons_inv_l in HF as (l & ls' & Hc & HF & ->).
  pose proof Hc as Hc'. destruct c as [s|]; [|done]. cbn [empty].
  rewrite (chunk_rep_size _ (CBuf s) l Hwf Hc).
  destruct (decide (l = [])) as [->|Hl]; [apply wp_ret, Hstop; by right|].
  replace (Z.of_nat (length l) =? 0) with false by (destruct l; [done|simpl; lia]). simpl orb.
  destruct (Z.ltb_spec 0 n) as [Hpos|H0]; cbn [negb]; [|wp_step; apply Hstop; left; lia].
  wp_step. wp_apply (read_front w s l cs ls' p n (acc ++ rest)); [done|done|zlia|done|lia|done|done|].
  intros r w1 (s' & rest' & -> & Hk & W1 & Hcs1 & Hd & Hm & Hlen). cbv beta iota.
  set (rv := Z.of_nat (length (take (Z.to_nat n) l))).
  assert (0 < rv <= n) as Hrv by (unfold rv; rewrite length_take; destruct l; simpl; lia || done).
  replace (rv <? 0) with false by lia. replace (0 <? rv) with true by lia. cbv zeta.
  rewrite (u64_small (n - rv)) by zlia. pose proof Hcs1 as [HF1 Hs1].
  apply Forall2_cons_1 in HF1 as [Hc1 _]. rewrite (chunk_rep_size _ _ _ W1 Hc1).
  assert (Hlive : live (CBuf s' :: cs) = live (CBuf s :: cs)) by (unfold live; simpl; by rewrite Hd).
  destruct (Z.eqb_spec (Z.of_nat (length (drop (Z.to_nat n) l))) 0) as [Hz|Hnz];
    rewrite length_drop in *.
  - assert (rv = Z.of_nat (length l)) as Hrl by (unfold rv; rewrite length_take; lia).
    rewrite <- Hlive in Hni. destruct (not_live_cons _ _ _ Hni Hp0) as [Hnc Hnl].
    wp_step. wp_apply (delete_front w1 (CBuf s') (drop (Z.to_nat n) l) cs ls' p); [done..|].
    intros [] w2 (Hk2 & W2 & Hcs2 & Hm2). rewrite <- Hlen in *. eapply wp_mono.
    + apply (IH w2 cs ls' p (n - rv) (take (Z.to_nat n) l) rest'); try done; [lia|simpl in Hf; lia].
    + intros r w3 Hpost. apply (read_chunks_next w w2 _ _ (CBuf s) cs); [done|lia|lia|congruence|].
      rewrite Hrl in Hpost. by replace (Z.to_nat n - length l)%nat
        with (Z.to_nat (n - Z.of_nat (length l))) by lia.
  - assert (rv = n) as -> by (unfold rv; rewrite length_take; lia). rewrite Z.sub_diag.
    rewrite <- Hlive in Hni. rewrite <- Hlen in *. eapply wp_mono.
    + apply (IH w1 (CBuf s' :: cs) (drop (Z.to_nat n) l :: ls') p 0 (take (Z.to_nat n) l) rest');
        try done; [lia|simpl in *; lia].
    + intros r w3 Hpost. apply (read_chunks_last w w1 _ _ _ (CBuf s' :: cs)); [lia|lia|congruence|done|].
      by rewrite Z2Nat.id by lia.
Qed.

(** [read(buf, size)] from any chunks ... *)
Lemma chunked_read_list w cs ls p n old :
  mem_wf (wmem w) → cs_rep (wmem w) cs ls →
  mem_at (wmem w) p old → 0 <= n <= Z.of_nat (length old) →
  pblk p ∉ live cs → pblk p ≠ 0%nat →
  wp (read cs p n) (λ r w', ∃ rest,
    (cs_rep (wmem w') r.2 (read_list (Z.to_nat n) ls) ∧ live r.2 ⊆ live cs)
    ∧ r.1 = Z.of_nat (length (take (Z.to_nat n) (concat (lead ls)))) ∧ wkern w' = wkern w
    ∧ mem_wf (wmem w') ∧ mem_at (wmem w') p (last_piece (Z.to_nat n) (lead ls) [] ++ rest)
    ∧ length (last_piece (Z.to_nat n) (lead ls) [] ++ rest) = length old) w.
Proof.
  intros Hwf Hcs Hp Hn Hni Hp0. unfold read, drain_fuel. wp_step. eapply wp_mono.
  - apply (drain_read_spec _ w cs ls p n [] old 0); try done. lia.
  - intros [[rv cs'] []] w' (rest & H1 & H3 & H4 & H5 & H6 & H7). wp_step.
    exists rest. simpl in *. done.
Qed.

(** ... and from a stream without empty chunks. *)
Lemma chunked_read_spec w cs ls p n old :
  mem_wf (wmem w) → cs_rep (wmem w) cs ls → Forall (λ l, l ≠ []) ls →
  mem_at (wmem w) p old → 0 <= n <= Z.of_nat (length old) →
  pblk p ∉ live cs → pblk p ≠ 0%nat →
  wp (read cs p n) (λ r w', ∃ ls' rest,
    (cs_rep (wmem w') r.2 ls' ∧ Forall (λ l, l ≠ []) ls' ∧ live r.2 ⊆ live cs)
    ∧ concat ls' = drop (Z.to_nat n) (concat ls)
    ∧ r.1 = Z.of_nat (length (take (Z.to_nat n) (concat ls))) ∧ wkern w' = wkern w
    ∧ mem_wf (wmem w') ∧ mem_at (wmem w') p (last_piece (Z.to_nat n) ls [] ++ rest)
    ∧ length (last_piece (Z.to_nat n) ls [] ++ rest) = length old) w.
Proof.
  intros Hwf Hcs Hne Hp Hn Hni Hp0. eapply wp_mono; [by apply (chunked_read_list w cs ls p n old)|].
  intros r w' (rest & (H1 & H1b) & H). rewrite lead_full in H by done.
  destruct (read_list_full _ Hne (Z.to_nat n)) as [? ?]. eauto 10.
Qed.

(** [read(buf, size)] of no more bytes than the front chunk holds copies
    the first [size] bytes of the stream to the caller and removes them. *)
Theorem chunked_read_front w cs l ls p n old :
  mem_wf (wmem w) → cs_rep (wmem w) cs (l :: ls) → Forall (λ l, l ≠ []) (l :: ls) →
  mem_at (wmem w) p old → 0 <= n <= Z.of_nat (length old) → n <= Z.of_nat (length l) →
  pblk p ∉ live cs → pblk p ≠ 0%nat →
  wp (read cs p n) (λ r w', ∃ ls',
    r.1 = n ∧ mem_at (wmem w') p (take (Z.to_nat n) (concat (l :: ls)))
    ∧ cs_rep (wmem w') r.2 ls' ∧ concat ls' = drop (Z.to_nat n) (concat (l :: ls))) w.
Proof.
  intros Hwf Hcs Hne Hp Hn Hnl Hni Hp0. eapply wp_mono; [by eapply chunked_read_spec|].
  intros r w' (ls' & rest & (H1 & _) & H2 & H3 & _ & _ & H6 & _). exists ls'.
  assert (take (Z.to_nat n) (concat (l :: ls)) = take (Z.to_nat n) l) as Ht
    by (simpl; by rewrite take_app_le by lia).
  assert (last_piece (Z.to_nat n) (l :: ls) [] = take (Z.to_nat n) l) as Hlp.
  { cbn [last_piece]. destruct (Nat.eqb_spec (Z.to_nat n) 0) as [->|]; [done|].
    by replace (Z.to_nat n - length l)%nat with 0%nat by lia; rewrite last_piece_0. }
  rewrite Ht in *. rewrite Hlp in H6. apply mem_at_app in H6 as [H6 _].
  rewrite length_take in H3. split; [lia|]. done.
Qed.

(** Across chunks [read(buf, size)] removes the right bytes and returns
    their number, but the chunks are all copied to the start of the array:
    the caller sees the piece of the last chunk in front, e.g. only the
    second chunk after reading two of equal length. *)
Theorem chunked_read_overwrites w cs l1 l2 p n old :
  mem_wf (wmem w) → cs_rep (wmem w) cs [l1; l2] → l1 ≠ [] → l2 ≠ [] →
  mem_at (wmem w) p old → n = Z.of_nat (length (l1 ++ l2)) → n <= Z.of_nat (length old) →
  pblk p ∉ live cs → pblk p ≠ 0%nat →
  wp (read cs p n) (λ r w', r.1 = n ∧ mem_at (wmem w') p l2
    ∧ ∃ ls', cs_rep (wmem w') r.2 ls' ∧ concat ls' = []) w.
Proof.
  intros Hwf Hcs H1n H2n Hp -> Hn Hni Hp0. rewrite length_app in *. eapply wp_mono.
  - eapply chunked_read_spec; try done; [by repeat constructor|lia].
  - intros r w' (ls' & rest & (H1 & _) & H2 & H3 & _ & _ & H6 & _).
    rewrite Nat2Z.id in *. cbn [concat last_piece] in *. rewrite app_nil_r in *.
    assert (0 < length l1)%nat by (destruct l1; [done|simpl; lia]).
    assert (0 < length l2)%nat by (destruct l2; [done|simpl; lia]).
    rewrite take_ge, length_app in H3 by (rewrite length_app; lia). split; [lia|].
    replace (length l1 + length l2 =? 0)%nat with false in H6 by lia.
    replace (length l1 + length l2 - length l1)%nat with (length l2) in H6 by lia.
    replace (length l2 =? 0)%nat with false in H6 by lia.
    rewrite take_ge in H6 by lia. apply mem_at_app in H6 as [H6 _]. split; [done|].
    rewrite drop_ge in H2 by (rewrite length_app; lia). eauto.
Qed.

(** A write of no bytes to a new stream leaves an empty chunk of capacity 0
    at the front, and from then on the stream seems empty: what is written
    later is stored and counted, but [empty()] is true and every read
    returns nothing. *)
Theorem chunked_zero_write_blocks w p d :
  mem_wf (wmem w) → mem_at (wmem w) p d → d ≠ [] →
  wp (x ← write [] p 0; write x.2 p (Z.of_nat (length d))) (λ r w',
    (r.1 = Z.of_nat (length d) ∧ size r.2 = Z.of_nat (length d) ∨ ∃ n, no_memory n)
    ∧ empty r.2 = true ∧ ∀ q n w'', read r.2 q n w'' = Ok ((0, r.2), w'')) w.
Proof.
  intros Hwf Hp Hd. pose proof (mem_at_valid _ _ _ Hwf Hp Hd) as Hval.
  pose proof (mem_at_length _ _ _ Hwf Hp). destruct w as [m k e]. simpl in *.
  wp_step. eapply wp_Ok; [done|]. unfold write at 1. simpl. wp_step.
  change (buffer _ _) with (s ← lift (BufferStream.new_cap (Z.of_nat (length d)));
    mret ([CBuf BufferStream.new], s)).
  wp_step. apply wp_lift. simpl.
  wp_apply (new_cap_spec m (Z.of_nat (length d))); [done|lia|].
  intros s1 m1 (W1 & R1 & [T1 M1]). simpl in M1. wp_step. wp_step. apply wp_lift. simpl.
  wp_apply (write_spec m1 s1 [] [] p d); [done|done| |unfold BufferStream.data; lia|].
  { eapply only_touches_mem_at; [exact Hwf|exact T1|simpl; lia|done]. }
  intros [rv t] m2 (W2 & _ & Hor). wp_step. simpl in *. split; [|done].
  destruct Hor as [[-> R2]|(_ & _ & _ & ?)]; [left|right; eauto]. split; [done|].
  unfold size. simpl. destruct (bs_bounds _ _ _ _ W2 R2) as (_ & -> & Hmax). simpl in *.
  change (u64 (0 + _)) with 0. rewrite u64_small; zlia.
Qed.

(** [read(Pipe*, size)] with a pipe chunk in front never returns:
    [Pipe::read(Pipe*, size)] always returns 0 and moves nothing. *)
Theorem chunked_read_pipe_diverges fuel w q cs pp n :
  0 < Pipe.psize_ q → 0 < n → drain chunk_read_pipe fuel pp (CPipe q :: cs) n 0 w = NoFuel.
Proof.
  intros Hq Hn. induction fuel as [|fuel IH]; [done|]. cbn [drain empty].
  change (chunk_size (CPipe q)) with (Pipe.psize_ q).
  replace (Pipe.psize_ q =? 0) with false by lia. replace (0 <? n) with true by lia. simpl.
  erewrite bind_Ok by done. cbn [Z.ltb Z.compare].
  change (chunk_size (CPipe q)) with (Pipe.psize_ q).
  by replace (Pipe.psize_ q =? 0) with false by lia.
Qed.
End chunked.
