(* ===== verification/ChunkedRuns.v ===== *)
(** * ChunkedRuns: programs on a ChunkedStream

    Sequences of writes and reads on a chunked stream against a list of chunks
    and against a queue of bytes.  The stream does not meet the contract of
    Stream.v, since a read across chunks does not put its bytes one behind the
    other, and a write of no bytes may leave an empty chunk that no read gets
    past; without such writes the bytes that each call takes in and out of the
    stream are those of a queue, as long as no write is refused for want of
    memory. *)

From S2P Require Import Prelude Memory BufferBase BufferParse MutableBuffer BufferSpec Kernel.
From S2P Require Import Pipe BufferStream ChunkedStream.

Local Open Scope Z_scope.

(** What a program with the array [p] does. *)
Inductive chunk_op : Type := KWrite (d : bytes) | KRead (n : Z) | KReadChar.

Section runs.
Context {AL : Allocator} `{K : Kernel}.
Import ChunkedStream.
Implicit Types (m : memory) (w : world) (cs : list chunk) (ls : list bytes) (l d q : bytes).

Definition run_chunk_op (p : ptr) (o : chunk_op) cs : WW (Z * ChunkedStream) :=
  match o with
  | KWrite d => lift (write_range p d);; write cs p (Z.of_nat (length d))
  | KRead n => read cs p n
  | KReadChar => read_char cs
  end.

(** A write that was not taken ends the program. *)
Definition refused (o : chunk_op) (rv : Z) : bool :=
  match o with KWrite d => negb (rv =? Z.of_nat (length d)) | _ => false end.

(** The result of each call and the array of [N] bytes after it. *)
Fixpoint run_chunks (p : ptr) (N : nat) (os : list chunk_op) cs : WW (list (Z * bytes) * ChunkedStream) :=
  match os with
  | [] => mret ([], cs)
  | o :: os =>
      '(rv, cs) ← run_chunk_op p o cs;
      a ← lift (read_range p (Z.of_nat N));
      if refused o rv then mret ([(rv, a)], cs)
      else '(t, cs) ← run_chunks p N os cs; mret ((rv, a) :: t, cs)
  end.

(** The specification: a list of chunks, of which the first one is read. *)
Definition first_char ls : Z * list bytes :=
  match ls with
  | [x] :: ls => (schar x, ls)
  | (x :: l) :: ls => (schar x, l :: ls)
  | _ => (-1, ls)
  end.

(** A call that returns [rv] and leaves [a] in the array. *)
Definition chunk_step ls (o : chunk_op) (rv : Z) (a : bytes) ls' : Prop :=
  match o with
  | KWrite d => rv = Z.of_nat (length d) ∧ grown ls d ls'
  | KRead n => rv = Z.of_nat (length (take (Z.to_nat n) (concat (lead ls))))
      ∧ ls' = read_list (Z.to_nat n) ls ∧ last_piece (Z.to_nat n) (lead ls) [] `prefix_of` a
  | KReadChar => (rv, ls') = first_char ls
  end.

Inductive chunk_steps : list bytes → list chunk_op → list (Z * bytes) → list bytes → Prop :=
| steps_nil ls : chunk_steps ls [] [] ls
| steps_cons ls o rv a ls1 os t ls2 :
    chunk_step ls o rv a ls1 → chunk_steps ls1 os t ls2 → chunk_steps ls (o :: os) ((rv, a) :: t) ls2.

(** Without empty chunks: a queue. *)
Definition queue_step (o : chunk_op) q : Z * bytes :=
  match o with
  | KWrite d => (Z.of_nat (length d), q ++ d)
  | KRead n => (Z.of_nat (length (take (Z.to_nat n) q)), drop (Z.to_nat n) q)
  | KReadChar => match q with [] => (-1, []) | x :: q => (schar x, q) end
  end.

Fixpoint queue_prog (os : list chunk_op) q : list Z * bytes :=
  match os with
  | [] => ([], q)
  | o :: os => let '(rv, q) := queue_step o q in let '(t, q) := queue_prog os q in (rv :: t, q)
  end.

Definition chunk_op_ok (N : nat) (o : chunk_op) : Prop :=
  match o with
  | KWrite d => (length d <= N)%nat
  | KRead n => 0 <= n <= Z.of_nat N
  | KReadChar => True
  end.

(** ** Single operations *)

(** The stream holds the chunks [ls], and the array [p] of [N] bytes is none
    of them. *)
Definition chunk_ready w cs (p : ptr) (N : nat) ls : Prop :=
  mem_wf (wmem w) ∧ cs_rep (wmem w) cs ls
  ∧ (∃ old, mem_at (wmem w) p old ∧ length old = N) ∧ (0 < N)%nat
  ∧ (0 < pblk p < next (wmem w))%nat ∧ pblk p ∉ live cs.

Definition same_chunks w cs ls : Prop := mem_wf (wmem w) ∧ cs_rep (wmem w) cs ls.

Lemma ready_chunks w cs p N ls : chunk_ready w cs p N ls → same_chunks w cs ls.
Proof. by intros (? & ? & _). Qed.

(** What the array holds can be loaded. *)
Lemma wp_array w cs p N ls (Q : bytes → world → Prop) :
  chunk_ready w cs p N ls → (∀ a, mem_at (wmem w) p a → length a = N → Q a w) →
  wp (lift (read_range p (Z.of_nat N))) Q w.
Proof.
  intros (_ & _ & (a & Ha & HN) & _) HQ. apply wp_lift. apply (wp_read_range _ _ a); [done|lia|].
  destruct w. by apply HQ.
Qed.

Lemma run_write w cs p N ls d :
  chunk_ready w cs p N ls → (length d <= N)%nat →
  wp (run_chunk_op p (KWrite d) cs) (λ r w', ∃ ls', chunk_ready w' r.2 p N ls'
    ∧ (r.1 = Z.of_nat (length d) ∧ grown ls d ls' ∨ r.1 = 0 ∧ grown ls [] ls' ∧ ∃ n, no_memory n)) w.
Proof.
  intros (Hwf & Hcs & (old & Hold & HN) & HN0 & Hp & Hni) Hlen.
  simpl. wp_step. apply wp_lift.
  apply (wp_write_array _ p old); [done|done|lia|]. intros m1 rest W1 T1 Hm1 Hl1.
  assert (cs_rep m1 cs ls) as Hcs1.
  { destruct Hcs as [HF Hs]. split; [|done]. by eapply (chunks_frame (wmem w) m1 cs ls (pblk p)). }
  pose proof Hm1 as [Hmd _]%mem_at_app.
  pose proof (ot_next _ _ _ T1) as Hnx.
  eapply wp_mono; [apply (chunked_write_spec _ cs ls p d); simpl; try done; lia|].
  intros [rv cs'] w' (W & _ & Hk & ls' & Hcs' & Hor). simpl in *. exists ls'. split; [|done].
  destruct (kept_mem_at _ _ _ _ p (d ++ rest) Hk) as [Hm' Hni']; [simpl in *; lia|done|done|].
  split; [done|]. split; [done|]. split; [exists (d ++ rest); split; [done|lia]|]. split; [done|].
  split; [|done]. assert (d ++ rest ≠ []) as Hx by (intros E; rewrite E in Hl1; simpl in Hl1; lia).
  exact (mem_at_valid _ _ _ W Hm' Hx).
Qed.

Lemma run_read w cs p N ls n :
  chunk_ready w cs p N ls → 0 <= n <= Z.of_nat N →
  wp (run_chunk_op p (KRead n) cs) (λ r w', chunk_ready w' r.2 p N (read_list (Z.to_nat n) ls)
    ∧ r.1 = Z.of_nat (length (take (Z.to_nat n) (concat (lead ls))))
    ∧ ∀ a, mem_at (wmem w') p a → length a = N → last_piece (Z.to_nat n) (lead ls) [] `prefix_of` a) w.
Proof.
  intros (Hwf & Hcs & (old & Hold & HN) & HN0 & Hp & Hni) Hn. simpl.
  eapply wp_mono; [apply (chunked_read_list w cs ls p n old); try done; lia|].
  intros [rv cs'] w' (rest & (Hcs' & Hlv) & Hrv & Hk & W & Hm & Hl). simpl in *.
  split; [|split; [done|]].
  - split; [done|]. split; [done|]. split; [eexists; split; [done|lia]|].
    split; [done|]. split; [|by intros ?%Hlv]. eapply mem_at_valid; [done|exact Hm|].
    intros E. rewrite E in Hl. simpl in Hl. lia.
  - intros a Ha HaN. unfold mem_at in Ha, Hm. rewrite HaN, <- HN, <- Hl, Hm in Ha.
    injection Ha as <-. by apply prefix_app_r.
Qed.

(** The first byte of a chunk. *)
Lemma read_char_front m s pre x l :
  mem_wf m → bs_rep m s pre (x :: l) →
  ∃ s', BufferStream.read_char s m = Ok ((schar x, s'), m) ∧ bs_rep m s' (pre ++ [x]) l
    ∧ BufferStream.data s' = BufferStream.data s.
Proof.
  intros Hwf Hr. pose proof Hr as [Hb Ho Hoff].
  destruct (bs_bounds _ _ _ _ Hwf Hr) as (Hw & _ & Hmax). simpl in *.
  unfold BufferStream.read_char. rewrite Hw, Hoff.
  replace (Z.of_nat (length pre) =? _) with false by lia. cbn [negb].
  rewrite u64_small by zlia.
  exists (BufferStream.mkBS (BufferStream.buf s) (Z.of_nat (length pre) + 1)). split; [|split; [|done]].
  - erewrite bind_Ok; [reflexivity|]. apply load_ok. rewrite <- Hoff.
    apply bs_pending in Hr. change (x :: l) with ([x] ++ l) in Hr. by apply mem_at_app in Hr as [? _].
  - split; simpl; [by rewrite <- app_assoc|done|]. rewrite length_app. simpl. lia.
Qed.

Lemma run_read_char w cs p N ls :
  chunk_ready w cs p N ls →
  wp (run_chunk_op p KReadChar cs) (λ r w',
    r.1 = (first_char ls).1 ∧ chunk_ready w' r.2 p N (first_char ls).2) w.
Proof.
  intros Hr. pose proof Hr as (Hwf & Hcs & (old & Hold & HN) & HN0 & Hp & Hni). cbn [run_chunk_op].
  unfold read_char. destruct cs as [|c cs].
  { destruct Hcs as [->%Forall2_nil_inv_l Hs]. by eapply wp_Ok; [reflexivity|]. }
  pose proof Hcs as [HF Hsep]. apply Forall2_cons_inv_l in HF as (l & ls' & Hc & HF & ->).
  destruct c as [s|]; [|done]. cbn [empty].
  rewrite (chunk_rep_size _ (CBuf s) l Hwf Hc). destruct l as [|x l]; [by eapply wp_Ok; [reflexivity|]|].
  change (Z.of_nat (length (x :: l)) =? 0) with false. cbn [chunk_read_char].
  destruct Hc as [pre Hb]. destruct (read_char_front _ _ _ _ _ Hwf Hb) as (s' & E & Hb' & Hd).
  wp_step. wp_step. apply wp_lift. eapply wp_Ok; [exact E|]. cbn beta iota. wp_step. cbn beta iota.
  assert (Hc' : chunk_rep (wmem w) (CBuf s') l) by (by exists (pre ++ [x])).
  assert (Hcs' : cs_rep (wmem w) (CBuf s' :: cs) (l :: ls')).
  { split; [by constructor|]. unfold live in *. simpl in *. by rewrite Hd. }
  assert (Hni' : pblk p ∉ live (CBuf s' :: cs)) by (unfold live in *; simpl in *; by rewrite Hd).
  rewrite (chunk_rep_size _ (CBuf s') l Hwf Hc'). destruct w as [m k e]. simpl wmem in *. wp_step.
  destruct l as [|y l].
  - change (Z.of_nat (length (@nil byte)) =? 0) with true. cbv iota. unfold pop_front. wp_step.
    destruct (not_live_cons _ _ _ Hni') as [Hnc Hnl]; [simpl in *; lia|].
    eapply wp_mono; [by apply (delete_front (World m k e) (CBuf s') [] cs ls' p old)|].
    intros _ w' (_ & W & Hcs2 & Hold2). wp_step. wp_step. simpl. split; [done|].
    split; [done|]. split; [done|]. split; [by exists old|]. split; [done|]. split; [|done].
    eapply mem_at_valid; [done|exact Hold2|]. intros ->. simpl in HN. lia.
  - replace (Z.of_nat (length (y :: l)) =? 0) with false by (simpl; lia). wp_step. wp_step. simpl.
    split; [done|]. split; [done|]. split; [done|]. split; [by exists old|done].
Qed.

(** ** Programs *)

(** One operation is a step of the specification, or a write was refused. *)
Lemma run_step w cs p N ls o :
  chunk_ready w cs p N ls → chunk_op_ok N o →
  wp (run_chunk_op p o cs) (λ r w', ∃ ls', chunk_ready w' r.2 p N ls'
    ∧ if refused o r.1 then (∃ d, o = KWrite d) ∧ r.1 = 0 ∧ grown ls [] ls' ∧ ∃ n, no_memory n
      else ∀ a, mem_at (wmem w') p a → length a = N → chunk_step ls o r.1 a ls') w.
Proof.
  intros Hr Ho. destruct o as [d|n|]; cbn [refused].
  - eapply wp_mono; [by apply run_write|]. intros [rv cs'] w' (ls' & H' & Hor). exists ls'. split; [done|].
    cbn [fst snd] in *. destruct (Z.eqb_spec rv (Z.of_nat (length d))) as [E|E]; cbn [negb].
    + intros a _ _. split; [done|]. destruct Hor as [[_ ?]|(E0 & ? & _)]; [done|].
      destruct d; [done|]. rewrite E0 in E. simpl in E. lia.
    + destruct Hor as [[? _]|(? & ? & ?)]; [done|]. by eauto.
  - eapply wp_mono; [by apply run_read|]. intros [rv cs'] w' (H' & Hrv & Ha). eexists. split; [done|].
    intros a H1 H2. split; [done|]. split; [done|]. by apply Ha.
  - eapply wp_mono; [by apply run_read_char|]. intros [rv cs'] w' [-> H']. eexists. split; [done|].
    intros a _ _. simpl. by destruct (first_char ls).
Qed.

(** The program went through as on the list of chunks, or its operation [k]
    was a write that was refused, and up to there it was as on the list. *)
Definition as_chunks (os : list chunk_op) ls (r : list (Z * bytes) * ChunkedStream) w' : Prop :=
  ∃ ls', same_chunks w' r.2 ls'
  ∧ (chunk_steps ls os r.1 ls'
     ∨ ∃ (k : nat) d t a ls1, os !! k = Some (KWrite d) ∧ chunk_steps ls (take k os) t ls1
         ∧ r.1 = t ++ [(0, a)] ∧ grown ls1 [] ls' ∧ ∃ n, no_memory n).

Lemma run_chunks_list p N os : Forall (chunk_op_ok N) os → ∀ w cs ls,
  chunk_ready w cs p N ls → wp (run_chunks p N os cs) (as_chunks os ls) w.
Proof.
  induction 1 as [|o os Ho Hos IH]; intros w cs ls Hr; cbn [run_chunks].
  { wp_step. exists ls. split; [by eapply ready_chunks|]. left. constructor. }
  wp_step. eapply wp_mono; [by apply run_step|]. intros [rv cs1] w1 (ls1 & Hr1 & Hor). cbn [fst snd] in *.
  wp_step. eapply wp_array; [done|]. intros a Ha HN. destruct (refused o rv) eqn:Ef.
  { destruct Hor as ([d ->] & -> & Hg & Hno). wp_step. exists ls1. split; [by eapply ready_chunks|]. right.
    exists 0%nat, d, [], a, ls. split; [done|]. split; [constructor|done]. }
  specialize (Hor a Ha HN). wp_step. eapply wp_mono; [by apply IH|].
  intros [t cs2] w2 (ls2 & Hs & Hor2). wp_step. exists ls2. split; [done|]. cbn [fst snd] in *.
  destruct Hor2 as [Ht|(k & d & t1 & a1 & ls3 & Hk & Ht & -> & Hg & Hno)]; [left; by econstructor|right].
  exists (S k), d, ((rv, a) :: t1), a1, ls3. split; [done|]. split; [by econstructor|done].
Qed.

(** *** As a queue *)

Lemma chunk_step_queue ls o rv a ls' :
  chunk_step ls o rv a ls' → Forall (λ l, l ≠ []) ls → o ≠ KWrite [] →
  (rv, concat ls') = queue_step o (concat ls) ∧ Forall (λ l, l ≠ []) ls'.
Proof.
  intros Hs Hne Ho. destruct o as [d|n|]; simpl in *.
  - destruct Hs as [-> Hg]. rewrite (grown_concat _ _ _ Hg). split; [done|].
    eapply grown_nonempty; [done| |done]. by intros ->.
  - destruct Hs as (-> & -> & _). rewrite lead_full by done.
    destruct (read_list_full _ Hne (Z.to_nat n)) as [? ->]. done.
  - destruct Hne as [|l ls Hl Hne]; [by injection Hs as -> ->|]. destruct l as [|x [|y l]]; [done|..];
      injection Hs as -> ->; [done|]. split; [done|]. by constructor.
Qed.

Lemma chunk_steps_queue ls os t ls' :
  chunk_steps ls os t ls' → Forall (λ l, l ≠ []) ls → KWrite [] ∉ os →
  (t.*1, concat ls') = queue_prog os (concat ls).
Proof.
  induction 1 as [|ls o rv a ls1 os t ls2 Hs _ IH]; intros Hne Hos; [done|].
  apply not_elem_of_cons in Hos as [Ho Hos].
  destruct (chunk_step_queue _ _ _ _ _ Hs Hne) as [E Hne1]; [congruence|].
  cbn [queue_prog fmap list_fmap fst]. rewrite <- E, <- (IH Hne1 Hos). done.
Qed.

Definition same_bytes w cs q : Prop := ∃ ls, same_chunks w cs ls ∧ concat ls = q.

(** The program went through as on a queue, or its operation [k] was a write
    that was refused, and up to there it was as on a queue. *)
Definition as_queue (os : list chunk_op) q (r : list (Z * bytes) * ChunkedStream) w' : Prop :=
  (r.1.*1 = (queue_prog os q).1 ∧ same_bytes w' r.2 (queue_prog os q).2)
  ∨ ∃ (k : nat) d, os !! k = Some (KWrite d) ∧ r.1.*1 = (queue_prog (take k os) q).1 ++ [0]
      ∧ same_bytes w' r.2 (queue_prog (take k os) q).2 ∧ ∃ n, no_memory n.

Lemma as_chunks_queue os ls r w' :
  as_chunks os ls r w' → Forall (λ l, l ≠ []) ls → KWrite [] ∉ os → as_queue os (concat ls) r w'.
Proof.
  intros (ls' & Hs & Hor) Hne Hos. destruct Hor as [Ht|(k & d & t & a & ls1 & Hk & Ht & E & Hg & Hno)].
  - left. rewrite <- (chunk_steps_queue _ _ _ _ Ht Hne Hos). split; [done|]. by exists ls'.
  - right. exists k, d. split; [done|]. assert (KWrite [] ∉ take k os) as Hos'.
    { intros Hin. apply Hos. rewrite <- (take_drop k os). apply elem_of_app. by left. }
    rewrite <- (chunk_steps_queue _ _ _ _ Ht Hne Hos'). rewrite E, fmap_app. split; [done|].
    split; [|done]. exists ls'. split; [done|]. simpl. by rewrite (grown_concat _ _ _ Hg), app_nil_r.
Qed.

(** [size()] adds up the chunks. *)
Lemma chunks_size m cs ls :
  mem_wf m → Forall2 (chunk_rep m) cs ls → ∀ acc,
  fold_left (λ r c, u64 (r + chunk_size c)) cs (u64 acc) = u64 (acc + Z.of_nat (length (concat ls))).
Proof.
  intros Hwf. induction 1 as [|c l cs ls Hc HF IH]; intros acc; simpl; [by rewrite Z.add_0_r|].
  rewrite (chunk_rep_size _ _ _ Hwf Hc).
  replace (u64 (u64 acc + Z.of_nat (length l))) with (u64 (acc + Z.of_nat (length l)))
    by (unfold wrapu; by rewrite Zplus_mod_idemp_l).
  rewrite IH, length_app. f_equal. lia.
Qed.

(** C16: every program of writes, reads and single-character reads on a chunked
    stream runs as on a list of chunks: a write appends to the last chunk or as
    a new one; a read takes its bytes, in order, from the chunks before the
    first empty one, and leaves the piece of the last of them at the start of
    the array; [size()] counts the bytes modulo 2^64.  Only a write that
    returns 0 for want of memory ends this, with the bytes as they were.  If
    there is no empty chunk and no write of no bytes, each call returns what it
    would return on a queue of bytes, and the stream holds the queue's bytes. *)
Theorem chunked_fifo w cs p N ls os :
  Forall (chunk_op_ok N) os → chunk_ready w cs p N ls →
  wp (run_chunks p N os cs) (λ r w', as_chunks os ls r w'
    ∧ (Forall (λ l, l ≠ []) ls → KWrite [] ∉ os → as_queue os (concat ls) r w')
    ∧ ∃ l, same_bytes w' r.2 l ∧ size r.2 = u64 (Z.of_nat (length l))) w.
Proof.
  intros Hos Hr. eapply wp_mono; [by eapply run_chunks_list|].
  intros r w' Hq. split; [done|]. split; [by apply as_chunks_queue|].
  destruct Hq as (ls' & [W Hcs] & _). exists (concat ls'). split; [by exists ls'|].
  exact (chunks_size _ _ _ W (cs_chunks _ _ _ Hcs) 0).
Qed.
End runs.
