(* ===== verification/FilterStream.v ===== *)
(** * FilterStream (include/xio/Filter.h, FilterStream.h, lib/FilterStream.cpp)

    A filter is code of the application behind the interface [Filter]; here it
    is any function with the type of [Filter::process], and what the stream
    relies on is [filter_ok]: it appends the processed input to its output
    buffer.  The stream's parent is any [Stream], of which only the call
    [read(Buffer&, size_t)] is used. *)

From S2P Require Import Prelude Memory BufferBase BufferParse MutableBuffer BufferSpec.

Local Open Scope Z_scope.

(** [virtual ssize_t process(const BufferRef& input, Buffer& output) = 0] *)
Definition Filter : Type := BufferRef → MutableBuffer → MM (Z * MutableBuffer).

Module FilterStream.
Section ops.
Context {AL : Allocator} {parent : Type}.
Context (parent_read : parent → MutableBuffer → Z → MM (Z * MutableBuffer * parent)).
Let E : Ensure := mutableEnsure.
#[local] Existing Instance E.

Record FilterStream : Type := mkFS {
  parent_ : parent;
  inputBuffer_ : MutableBuffer;
  inputPos_ : Z;
  outputBuffer_ : MutableBuffer;
  outputPos_ : Z;
  filters : list Filter;
}.

(** [FilterStream(Stream* parent, std::unique_ptr<Filter> filter)] *)
Definition new (p : parent) (f : Filter) : FilterStream :=
  mkFS p MutableBuffer.new 0 MutableBuffer.new 0 [f].

(** [FilterStream(std::unique_ptr<Stream> parent)]: the positions are left as
    they are in memory, [ipos] and [opos]. *)
Definition new_parent (p : parent) (ipos opos : Z) : FilterStream :=
  mkFS p MutableBuffer.new ipos MutableBuffer.new opos [].

(** [empty()] and [size()] are the parent's. *)
Definition empty (parent_empty : parent → bool) (s : FilterStream) : bool := parent_empty (parent_ s).
Definition size (parent_size : parent → Z) (s : FilterStream) : Z := parent_size (parent_ s).

(** The [do ... while] loop of [process]. *)
Fixpoint process_loop (fs : list Filter) (result tmp : MutableBuffer) :
    MM (MutableBuffer * MutableBuffer) :=
  match fs with
  | [] => mret (result, tmp)
  | f :: fs =>
      let rt := MutableBuffer.swap result tmp in
      input ← BufferBase.ref_from (base rt.2) 0;
      f input rt.1 ≫= λ r : Z * MutableBuffer,
      process_loop fs r.2 rt.2
  end.

(** [process(input, output)]; the locals [result] and [tmp] are destroyed at
    the end. *)
Definition process (fs : list Filter) (input : BufferRef) (output : MutableBuffer) :
    MM (Z * MutableBuffer) :=
  match fs with
  | [] => mret (0, output)
  | [f] => f input output
  | f :: fs =>
      f input MutableBuffer.new ≫= λ r : Z * MutableBuffer,
      process_loop fs r.2 MutableBuffer.new ≫= λ rt : MutableBuffer * MutableBuffer,
      let n := s64 (size_ rt.1) in
      (if negb (capacity_ output =? 0)
       then MutableBuffer.push_back_ref output (MutableBuffer.Other (base rt.1))
              ≫= λ output, mret (output, rt.1)
       else Buffer.assign_move output rt.1) ≫= λ or : MutableBuffer * MutableBuffer,
      Buffer.destroy rt.2;; Buffer.destroy or.2;; mret (n, or.1)
  end.

Definition pull (s : FilterStream) (size : Z) : MM (Z * FilterStream) :=
  if size <=? u64 (size_ (inputBuffer_ s) - inputPos_ s) then mret (s64 size, s)
  else
    MutableBuffer.reserve (inputBuffer_ s) (u64 (size_ (inputBuffer_ s) + size))
      ≫= λ r : bool * MutableBuffer,
    parent_read (parent_ s) r.2 size ≫= λ '(rv, inb, p),
    mret (if negb (rv =? -1) then s64 (u64 (size_ (base inb) - inputPos_ s + rv)) else -1,
          mkFS p inb (inputPos_ s) (outputBuffer_ s) (outputPos_ s) (filters s)).

(** The common part of the two reads: [pull] and [process]. *)
Definition fill (s : FilterStream) (size : Z) : MM (Z * FilterStream) :=
  '(n, s) ← pull s size;
  input ← BufferBase.ref_from (base (inputBuffer_ s)) (inputPos_ s);
  process (filters s) input (outputBuffer_ s) ≫= λ r : Z * MutableBuffer,
  mret (n, mkFS (parent_ s) (inputBuffer_ s) (inputPos_ s) r.2 (outputPos_ s) (filters s)).

(** [read(Buffer& result, size_t size)] *)
Definition read_buffer (s : FilterStream) (result : MutableBuffer) (size : Z) :
    MM (Z * MutableBuffer * FilterStream) :=
  '(_, s) ← fill s size;
  let size := Z.min size (u64 (size_ (outputBuffer_ s) - outputPos_ s)) in
  let lsize := size_ result in
  MutableBuffer.push_back result (data_ (outputBuffer_ s) +ₚ outputPos_ s) size
    ≫= λ result : MutableBuffer,
  mret (s64 (u64 (lsize - size_ result)), result, s).

(** [read(char* buf, size_t size)]: the array is not written. *)
Definition read (s : FilterStream) (buf : ptr) (size : Z) : MM (Z * FilterStream) := fill s size.

(** The other [read]s and all the [write]s return 0. *)
Definition unsupported (s : FilterStream) : MM (Z * FilterStream) := mret (0, s).
End ops.
End FilterStream.

(** ** What process computes *)
Section process.
Context {AL : Allocator}.
Import FilterStream.
Implicit Types (m : memory) (b : MutableBuffer) (l d : bytes).

(** What a buffer can hold without the allocator running out of memory. *)
Context (limit : Z).
Definition in_limit (l : bytes) : Prop := Z.of_nat (length l) <= limit.

(** The contract of [Filter::process] for a filter that computes [f]: it
    appends the processed input to an output that has room for it. *)
Definition filter_ok (F : Filter) (f : bytes → bytes) : Prop := ∀ m r d b l,
  mem_wf m → view m r d → mbuf_rep m b l → owned m b →
  d = [] ∨ pblk (data_ r) ≠ pblk (data_ b) → in_limit (l ++ f d) →
  wp (F r b) (λ res m', mem_wf m' ∧ mbuf_rep m' res.2 (l ++ f d) ∧ owned m' res.2
                        ∧ moves b res.2 m m') m.

(** The contents of [result] and [tmp] along the loop: [tmp] is not cleared
    before it becomes the next output. *)
Fixpoint stages (fs : list (bytes → bytes)) (result tmp : bytes) : bytes * bytes :=
  match fs with
  | [] => (result, tmp)
  | f :: fs => stages fs (tmp ++ f result) result
  end.

(** Every buffer along the loop stays in the limit. *)
Fixpoint stages_fit (fs : list (bytes → bytes)) (result tmp : bytes) : Prop :=
  match fs with
  | [] => True
  | f :: fs => in_limit (tmp ++ f result) ∧ stages_fit fs (tmp ++ f result) result
  end.

Lemma swap_pair b b' : MutableBuffer.swap b b' = (b', b).
Proof. by destruct b as [[]], b' as [[]]. Qed.

(** A buffer that is apart from [b] stays apart from where [b] moves. *)
Lemma moves_apart m b b' c l m' :
  mem_wf m → moves b b' m m' → mbuf_rep m c l → owned m c →
  apart (pblk (data_ c)) (pblk (data_ b)) →
  mbuf_rep m' c l ∧ owned m' c ∧ apart (pblk (data_ c)) (pblk (data_ b')).
Proof.
  intros Hwf [Ht Hb] Hrep Hown Hap.
  destruct (rep_apart m m' c l (pblk (data_ b))) as [R O]; [done..|].
  split; [done|]. split; [done|]. destruct (decide (pblk (data_ c) = 0%nat)); [by right|left].
  destruct Hb as [->|Hnew]; [by destruct Hap|]. intros E.
  destruct Hown as [[Hn _]|(_ & _ & x & Hx & _)]; [by rewrite Hn in *|].
  rewrite (wf_fresh _ Hwf) in Hx by lia. done.
Qed.

(** Buffers that were apart from [b1] and [b2] are as before, and apart from
    [b1'] and [b2']. *)
Definition frames (b1 b2 b1' b2' : MutableBuffer) m m' : Prop := ∀ c l,
  mbuf_rep m c l → owned m c →
  apart (pblk (data_ c)) (pblk (data_ b1)) → apart (pblk (data_ c)) (pblk (data_ b2)) →
  mbuf_rep m' c l ∧ owned m' c
  ∧ apart (pblk (data_ c)) (pblk (data_ b1')) ∧ apart (pblk (data_ c)) (pblk (data_ b2')).

Lemma view_apart m r b l :
  mem_wf m → mbuf_rep m r l → owned m r → apart (pblk (data_ r)) (pblk (data_ b)) →
  l = [] ∨ pblk (data_ r) ≠ pblk (data_ b).
Proof.
  intros Hwf Hrep Hown [?|H0]; [by right|left].
  destruct (decide (l = [])) as [->|Hl]; [done|].
  destruct (rep_view _ _ _ Hrep) as [Hm _]. pose proof (mem_at_valid _ _ _ Hwf Hm Hl). lia.
Qed.

Lemma wp_ref0 m b l (Q : BufferRef → memory → Prop) :
  mem_wf m → mbuf_rep m b l → Q (base b) m → wp (BufferBase.ref_from b 0) Q m.
Proof.
  intros Hwf Hrep HQ. pose proof (rep_capacity _ _ _ Hwf Hrep) as [Hsz Hcap].
  unfold BufferBase.ref_from. wp_step. wp_step; [lia|]. wp_step.
  rewrite ptr_add_0, Z.sub_0_r, u64_small by zlia. by destruct b as [[]].
Qed.

Lemma process_loop_spec Fs fs : Forall2 filter_ok Fs fs → ∀ m result tmp lr lt,
  mem_wf m → mbuf_rep m result lr → owned m result → mbuf_rep m tmp lt → owned m tmp →
  apart (pblk (data_ result)) (pblk (data_ tmp)) → stages_fit fs lr lt →
  wp (process_loop Fs result tmp) (λ rt m', mem_wf m'
    ∧ mbuf_rep m' rt.1 (stages fs lr lt).1 ∧ owned m' rt.1
    ∧ mbuf_rep m' rt.2 (stages fs lr lt).2 ∧ owned m' rt.2
    ∧ apart (pblk (data_ rt.1)) (pblk (data_ rt.2))
    ∧ frames result tmp rt.1 rt.2 m m') m.
Proof.
  induction 1 as [|F f Fs fs HF _ IH]; intros m result tmp lr lt Hwf Hr Or Ht Ot Hap Hfit;
    cbn [process_loop stages stages_fit] in *.
  { wp_step. simpl. by split_and!. }
  destruct Hfit as [Hlim Hfit]. rewrite swap_pair. cbv zeta. simpl. wp_step. apply (wp_ref0 m result lr); [done..|]. wp_step.
  wp_apply (HF m result lr tmp lt); [done|by apply rep_view|done|done| |done|].
  { by apply (view_apart m result tmp lr). }
  intros [n r1] m1 (W1 & R1 & O1 & M1). simpl in *.
  destruct (moves_apart m tmp r1 result lr m1) as (Hr1 & Or1 & Hap1); [done..|].
  eapply wp_mono; [apply (IH m1 r1 result); try done; by apply apart_sym|].
  intros [r2 t2] m2 (W2 & R2 & O2 & T2 & OT2 & Hap2 & Hfr). simpl in *.
  do 6 (split; [done|]). intros c l Hc Oc Hc1 Hc2.
  destruct (moves_apart m tmp r1 c l m1) as (Hc' & Oc' & Hca); [done..|]. by apply Hfr.
Qed.

(** The caller's output holds [x] behind [lo], or there was no memory. *)
Definition delivered (lo x : bytes) (output : MutableBuffer) m : Prop :=
  owned m output
  ∧ (mbuf_rep m output (lo ++ x)
     ∨ mbuf_rep m output lo ∧ no_memory (Z.of_nat (length (lo ++ x)))).

(** The end of [process]: the locals are destroyed. *)
Lemma cleanup_spec m (n : Z) out lo x res lx tmp lt :
  mem_wf m → delivered lo x out m → mbuf_rep m res lx → owned m res →
  mbuf_rep m tmp lt → owned m tmp → apart (pblk (data_ res)) (pblk (data_ tmp)) →
  apart (pblk (data_ out)) (pblk (data_ res)) → apart (pblk (data_ out)) (pblk (data_ tmp)) →
  wp (Buffer.destroy tmp;; Buffer.destroy res;; mret (n, out))
    (λ (r : Z * MutableBuffer) m', r.1 = n ∧ delivered lo x r.2 m') m.
Proof.
  intros W1 [O1 D1] R1 Or1 T1 Ot1 Ha Hb Hc. wp_step.
  wp_apply (destroy_frees m tmp lt); [done..|]. intros _ m2 (W2 & T2 & _).
  destruct (rep_apart m m2 res lx (pblk (data_ tmp))) as [R2 Or2]; [done..|].
  wp_step. wp_apply (destroy_frees m2 res lx); [done..|]. intros _ m3 (W3 & T3 & _). wp_step.
  assert (Hkeep : ∀ l, mbuf_rep m out l → mbuf_rep m3 out l ∧ owned m3 out).
  { intros l Hl. destruct (rep_apart m m2 out l (pblk (data_ tmp))) as [? ?]; [done..|].
    by apply (rep_apart m2 m3 out l (pblk (data_ res))). }
  split; [done|]. destruct D1 as [[? ?]%Hkeep|[[? ?]%Hkeep ?]]; (split; [done|auto]).
Qed.

(** Handing the result over: appended to an output with storage, moved into
    one without. *)
Lemma deliver_spec m (n : Z) output lo result x tmp lt :
  mem_wf m → mbuf_rep m output lo → owned m output → mbuf_rep m result x → owned m result →
  mbuf_rep m tmp lt → owned m tmp →
  apart (pblk (data_ result)) (pblk (data_ tmp)) →
  apart (pblk (data_ output)) (pblk (data_ result)) →
  apart (pblk (data_ output)) (pblk (data_ tmp)) →
  wp ((if negb (capacity_ output =? 0)
       then MutableBuffer.push_back_ref (E := mutableEnsure) output (MutableBuffer.Other (base result))
              ≫= λ output, mret (output, result)
       else Buffer.assign_move output result) ≫= λ or : MutableBuffer * MutableBuffer,
      Buffer.destroy tmp;; Buffer.destroy or.2;; mret (n, or.1))
    (λ (r : Z * MutableBuffer) m', r.1 = n ∧ delivered lo x r.2 m') m.
Proof.
  intros Hwf Ho Oo Hx Ox Ht Ot Hrt Hor Hot. wp_step.
  destruct (Z.eqb_spec (capacity_ output) 0) as [H0|Hne]; cbn [negb];
    destruct Oo as [[Hn Hc]|Oo]; try lia.
  - assert (lo = []) as -> by (by eapply owned_null).
    unfold Buffer.assign_move, MutableBuffer.reserve, ensure, mutableEnsure. wp_step.
    rewrite orb_true_r. unfold setCapacity. rewrite H0. simpl. wp_step. wp_step. simpl.
    assert (mkMB (mkRef (data_ result) (size_ result)) (capacity_ result) = result) as ->
      by (by destruct result as [[]]).
    apply (cleanup_spec m n result [] x _ [] tmp lt); simpl; try done;
      [split; [done|by left]|apply rep_empty|by left|by right|apply apart_sym; by right].
  - assert (pblk (data_ output) ≠ 0%nat).
    { destruct Oo as (_ & _ & c & Hblk & _). intros E. by rewrite E, (wf_null _ Hwf) in Hblk. }
    assert (Oo' : owned m output) by by right.
    wp_step. eapply wp_mono.
    { apply (push_back_ref_spec (inv := owned) m output lo (base result) x); try done.
      - by apply rep_view.
      - destruct Hor; congruence. }
    intros out m1 [W1 O1 M1 R1]. wp_step. simpl.
    destruct (moves_apart m output out result x m1) as (Rx & Orx & Ax); [done..|by apply apart_sym|].
    destruct (moves_apart m output out tmp lt m1) as (Rt & Ort & At); [done..|by apply apart_sym|].
    apply (cleanup_spec m1 n out lo x result x tmp lt); try done; [|by apply apart_sym..].
    split; [done|]. destruct R1 as [R|(_ & R & Hno%oom_no_memory)]; auto.
Qed.

Lemma process_many_spec m F f G Fs fs input d output lo :
  filter_ok F f → Forall2 filter_ok (G :: Fs) fs →
  mem_wf m → view m input d → mbuf_rep m output lo → owned m output →
  in_limit (f d) → stages_fit fs (f d) [] →
  wp (process (F :: G :: Fs) input output) (λ r m',
    let x := (stages fs (f d) []).1 in
    r.1 = Z.of_nat (length x) ∧ delivered lo x r.2 m') m.
Proof.
  intros HF HFs Hwf Hin Ho Oo Hlim Hfit. unfold process. wp_step.
  wp_apply (HF m input d MutableBuffer.new []); [done|done|apply rep_empty|by left| |done|].
  { destruct (decide (d = [])) as [->|Hd]; [by left|right]. destruct Hin as [Hm _].
    pose proof (mem_at_valid _ _ _ Hwf Hm Hd). simpl. lia. }
  intros [n1 r1] m1 (W1 & R1 & O1 & M1). simpl in R1, O1, M1.
  destruct (moves_apart m MutableBuffer.new r1 output lo m1) as (Ho1 & Oo1 & A1);
    [done..|apply apart_sym; by right|].
  wp_step. eapply wp_mono.
  { apply (process_loop_spec (G :: Fs) fs HFs m1 r1 MutableBuffer.new (f d) []); try done;
      [apply rep_empty|by left|apply apart_sym; by right]. }
  intros [r2 t2] m2 (W2 & R2 & O2 & T2 & OT2 & A2 & Hfr). simpl in R2, O2, T2, OT2, A2, Hfr.
  destruct (Hfr output lo) as (Ho2 & Oo2 & A3 & A4); [done..|apply apart_sym; by right|].
  pose proof (rep_capacity _ _ _ W2 R2) as [Hs2 Hc2]. pose proof (rep_size _ _ _ R2) as Hsz.
  eapply wp_mono; [by eapply deliver_spec|]. intros r m' [-> D]. simpl. split; [|done].
  rewrite s64_small by zlia. done.
Qed.

(** C38: with one or two filters, [process] appends to the output exactly the
    filters' composition applied to the input, as long as the intermediate
    results fit the memory. *)
Theorem filter_process_composes m F f G g input d output lo :
  filter_ok F f → filter_ok G g →
  mem_wf m → view m input d → mbuf_rep m output lo → owned m output →
  d = [] ∨ pblk (data_ input) ≠ pblk (data_ output) →
  in_limit (lo ++ f d) → in_limit (g (f d)) →
  wp (process [F] input output) (λ r m', mbuf_rep m' r.2 (lo ++ f d) ∧ owned m' r.2) m
  ∧ wp (process [F; G] input output) (λ r m',
      r.1 = Z.of_nat (length (g (f d))) ∧ delivered lo (g (f d)) r.2 m') m.
Proof.
  intros HF HG Hwf Hin Ho Oo Hap Hf Hg. split.
  - eapply wp_mono; [by eapply HF|]. by intros r m' (_ & ? & ? & _).
  - apply (process_many_spec m F f G [] [g]); try done; [by repeat constructor|].
    unfold in_limit in *. rewrite length_app in Hf. lia.
Qed.

(** With three filters the first filter's output is still in the buffer
    that the third one appends to: the caller gets it in front of the
    result. *)
Theorem filter_process_three_stale m F f G g H h input d output lo :
  filter_ok F f → filter_ok G g → filter_ok H h →
  mem_wf m → view m input d → mbuf_rep m output lo → owned m output →
  in_limit (g (f d)) → in_limit (f d ++ h (g (f d))) →
  wp (process [F; G; H] input output) (λ r m',
    let x := f d ++ h (g (f d)) in
    r.1 = Z.of_nat (length x) ∧ delivered lo x r.2 m') m.
Proof.
  intros HF HG HH Hwf Hin Ho Oo Hg Hh.
  apply (process_many_spec m F f G [H] [g; h]); try done; [by repeat constructor|].
  unfold in_limit in *. rewrite length_app in Hh. lia.
Qed.
End process.

(** ** Reading *)
Section reading.
Context {AL : Allocator} (limit : Z) (Hmem : ∀ n, 0 <= n <= limit → ¬ no_memory n).
Import FilterStream.
Implicit Types (m : memory) (l d : bytes).

Abbreviation blk b := (pblk (data_ (base b))).

(** Bytes that are there are in a block. *)
Lemma apart_view m (b : MutableBuffer) l q :
  mem_wf m → mbuf_rep m b l → apart (blk b) q → l = [] ∨ blk b ≠ q.
Proof.
  intros Hwf Hrep Hap. destruct (decide (l = [])) as [->|Hne]; [by left|right].
  apply rep_view in Hrep as [Hm _]. pose proof (mem_at_valid _ _ _ Hwf Hm Hne).
  destruct Hap; [done|lia].
Qed.

(** The caller gets the beginning of the output buffer. *)
Lemma push_output m (result out : MutableBuffer) lr lo n :
  mem_wf m → mbuf_rep m result lr → owned m result → mbuf_rep m out lo →
  apart (blk out) (blk result) → 0 <= n <= Z.of_nat (length lo) →
  Z.of_nat (length lr) + n <= limit →
  wp (MutableBuffer.push_back (E := mutableEnsure) result (data_ out +ₚ 0) n) (λ r m',
    mem_wf m' ∧ mbuf_rep m' r (lr ++ take (Z.to_nat n) lo) ∧ owned m' r ∧ moves result r m m') m.
Proof using Hmem.
  intros Hwf Hr Hown Ho Hap Hn Hl. rewrite ptr_add_0.
  destruct (decide (n = 0)) as [->|Hne].
  { eapply wp_Ok; [done|]. rewrite app_nil_r. split_and!; try done. apply moves_refl. }
  pose proof (apart_view _ _ _ _ Hwf Ho Hap) as [->|Hblk]; [simpl in Hn; lia|].
  pose proof (rep_view _ _ _ Ho) as [Hm _]. rewrite <- (take_drop (Z.to_nat n) lo) in Hm.
  apply mem_at_app in Hm as [Hm _].
  eapply wp_mono; [apply (push_back_spec (inv := owned) m result lr _ (take (Z.to_nat n) lo)); try done;
    rewrite length_take; lia|].
  intros b' m' [W O M [R|(_ & _ & Hx%oom_no_memory)]]; [done|].
  exfalso. eapply Hmem; [|exact Hx]. rewrite length_app, length_take. lia.
Qed.

Context {parent : Type}.
Context (parent_read : parent → MutableBuffer → Z → MM (Z * MutableBuffer * parent)).
Implicit Types (s : FilterStream (parent := parent)).

(** The stream's buffers and the caller's are three, and nothing was consumed. *)
Record fs_rep m s (result : MutableBuffer) (li lo lr : bytes) : Prop := {
  fr_wf : mem_wf m;
  fr_in : mbuf_rep m (inputBuffer_ s) li ∧ owned m (inputBuffer_ s);
  fr_out : mbuf_rep m (outputBuffer_ s) lo ∧ owned m (outputBuffer_ s);
  fr_res : mbuf_rep m result lr ∧ owned m result;
  fr_io : apart (blk (inputBuffer_ s)) (blk (outputBuffer_ s));
  fr_ir : apart (blk (inputBuffer_ s)) (blk result);
  fr_or : apart (blk result) (blk (outputBuffer_ s));
  fr_pos : inputPos_ s = 0 ∧ outputPos_ s = 0;
}.

(** One call of [read(Buffer&, size)] with enough input in the stream. *)
Lemma filter_read_spec m s result F f li lo lr n :
  filter_ok limit F f → filters s = [F] → fs_rep m s result li lo lr →
  0 <= n <= Z.of_nat (length li) → in_limit limit (lo ++ f li) →
  Z.of_nat (length lr) + n <= limit → limit <= ADDR_SPACE →
  let d := take (Z.to_nat n) (lo ++ f li) in
  wp (read_buffer parent_read s result n) (λ r m',
    r.1.1 = - Z.of_nat (length d) ∧ filters r.2 = [F]
    ∧ fs_rep m' r.2 r.1.2 li (lo ++ f li) (lr ++ d)) m.
Proof using Hmem.
  intros HF Hfs [Wf [Ri Oi] [Ro Oo] [Rr Or] Aio Air Aor [Ei Eo]] Hn Hlim Hlr Hmax d.
  pose proof (rep_size _ _ _ Ri) as Hsi. pose proof (rep_size _ _ _ Rr) as Hsr.
  unfold read_buffer, fill, pull. rewrite Ei, Z.sub_0_r.
  pose proof (rep_capacity _ _ _ Wf Ri) as [Hci Hci'].
  rewrite (u64_small (size_ (inputBuffer_ s))) by zlia.
  replace (n <=? size_ (inputBuffer_ s)) with true by lia. wp_step. wp_step. wp_step. wp_step.
  rewrite Ei. unfold BufferBase.ref_from. rewrite ptr_add_0, Z.sub_0_r.
  rewrite (u64_small (size_ (inputBuffer_ s))) by zlia.
  wp_step. wp_step; [lia|]. wp_step. rewrite Hfs. wp_step. cbn [process].
  eapply wp_mono; [apply (HF m _ li (outputBuffer_ s) lo); try done|].
  { apply rep_view in Ri as [Hm _]. split; [exact Hm|]. simpl. lia. }
  { simpl. by apply (apart_view m (inputBuffer_ s)). }
  intros [x out] m1 (W1 & R1 & O1 & M1). cbn [snd] in *.
  destruct (moves_apart m (outputBuffer_ s) out (inputBuffer_ s) li m1) as (Ri1 & Oi1 & Aio1); [done..|].
  destruct (moves_apart m (outputBuffer_ s) out result lr m1) as (Rr1 & Or1 & Aor1); [done..|].
  wp_step. cbn [outputBuffer_ outputPos_]. rewrite Eo, Z.sub_0_r.
  pose proof (rep_capacity _ _ _ W1 R1) as [Hco Hco']. pose proof (rep_size _ _ _ R1) as Hso.
  rewrite (u64_small (size_ out)) by zlia. wp_step.
  eapply wp_mono; [apply (push_output m1 result out lr (lo ++ f li)); try done; [by apply apart_sym|lia..]|].
  intros res m2 (W2 & R2 & O2 & M2). wp_step. cbn [fst snd].
  destruct (moves_apart m1 result res (inputBuffer_ s) li m2) as (Ri2 & Oi2 & Air2); [done..|].
  destruct (moves_apart m1 result res out (lo ++ f li) m2) as (Ro2 & Oo2 & Aor2); [done..|by apply apart_sym|].
  assert (take (Z.to_nat (n `min` size_ out)) (lo ++ f li) = d) as Ed.
  { unfold d. rewrite Hso. destruct (Z.min_spec n (Z.of_nat (length (lo ++ f li)))) as [[_ ->]|[? ->]]; [done|].
    rewrite Nat2Z.id, take_ge by lia. by rewrite take_ge by lia. }
  rewrite Ed in R2. pose proof (rep_size _ _ _ R2) as Hs2. rewrite length_app in Hs2.
  pose proof (rep_capacity _ _ _ W2 R2) as [? ?].
  split; [rewrite s64_u64; zlia|]. split; [done|]. split; simpl; try done.
  by apply apart_sym.
Qed.

(** Neither of the positions is moved: a second read runs the filter over the
    same input again and delivers the same bytes again; the number that is
    returned is negative. *)
Theorem filter_read_repeats m s result F f li lr n :
  filter_ok limit F f → filters s = [F] → fs_rep m s result li [] lr →
  0 <= n <= Z.of_nat (length li) → n <= Z.of_nat (length (f li)) →
  2 * Z.of_nat (length (f li)) <= limit → Z.of_nat (length lr) + 2 * n <= limit → limit <= ADDR_SPACE →
  wp ('(_, r1, s1) ← read_buffer parent_read s result n; read_buffer parent_read s1 r1 n) (λ r m',
    r.1.1 = - n ∧ mbuf_rep m' r.1.2 (lr ++ take (Z.to_nat n) (f li) ++ take (Z.to_nat n) (f li))) m.
Proof using Hmem.
  intros HF Hfs Hrep Hn Hnf Hf Hlr Hmax. wp_step.
  eapply wp_mono; [apply (filter_read_spec m s result F f li [] lr n); try done; unfold in_limit; simpl; lia|].
  intros [[x r1] s1] m1 (_ & Hfs1 & Hrep1). cbn [fst snd] in *.
  eapply wp_mono; [apply (filter_read_spec m1 s1 r1 F f li (f li) (lr ++ take (Z.to_nat n) (f li)) n); try done|].
  - unfold in_limit. rewrite length_app. simpl. lia.
  - rewrite length_app, length_take. simpl. lia.
  - intros r m' (Hr & _ & Hrep2). simpl in *. rewrite length_take, length_app in Hr. split; [lia|].
    pose proof (proj1 (fr_res _ _ _ _ _ _ Hrep2)) as R. rewrite (take_app_le _ (f li)) in R by lia.
    by rewrite <- app_assoc in R.
Qed.
End reading.
