(* ===== verification/Socket.v ===== *)
(** * Socket (include/xio/Socket.h, lib/Socket.cpp)

    A TCP connection: its life from [open] over the completion of the
    connection to [close], the watchers of the event loop, and the transfer of
    bytes.  The event loop (libev) is seen through its two watchers: a watcher
    is active between [start] and [stop], and an event is delivered only to an
    active one.  A call of the application's handler is always the last action
    of a function; it is part of the result, and what the handler does are
    further steps. *)

From Stdlib Require Import QArith.
From S2P Require Import Prelude Memory BufferBase BufferParse MutableBuffer BufferSpec Libc Kernel.
From S2P Require Import Os Address SdDaemon Server Pipe.

Local Open Scope Z_scope.

Module Socket.
Inductive State := Closed | Connecting | Handshake | Operational.

#[global] Instance state_eq_dec : EqDecision State.
Proof. solve_decision. Defined.

(** [enum Event] *)
Definition ERROR : Z := 2147483648.    (* EV_ERROR *)
Definition READ : Z := 1.              (* EV_READ *)
Definition WRITE : Z := 2.             (* EV_WRITE *)
Definition TIMEOUT : Z := 256.
Definition HANDSHAKE : Z := 512.
Definition CONNECTED : Z := 1024.

(** A handler is known by a name; [TimeSpan] is the rational that the [double]
    stands for. *)
Record Socket : Type := mkSocket {
  fd_ : Z;
  state_ : State;
  io_ : option (Z * Z);        (* active: the descriptor and the events *)
  timeout_ : Q;
  timer_ : option Q;           (* active: the delay *)
  handler_ : option nat;
}.

Definition span_set (t : Q) : bool := negb (Qeq_bool t 0).

(** How a function ends: it returns, it calls the handler, or it calls an
    empty [std::function], which throws. *)
Inductive tail := Return | Call (h : nat) (mode : Z) | Throw.

Definition call_handler (s : Socket) (mode : Z) : tail :=
  match handler_ s with Some h => Call h mode | None => Throw end.

(** [Socket(loop)] and [Socket(loop, fd, af, state)] *)
Definition new : Socket := mkSocket (-1) Closed None 0 None None.
Definition new_fd (fd : Z) (state : State) : Socket := mkSocket fd state None 0 None None.

Definition with_fd (s : Socket) (fd : Z) : Socket :=
  mkSocket fd (state_ s) (io_ s) (timeout_ s) (timer_ s) (handler_ s).
Definition with_state (s : Socket) (st : State) : Socket :=
  mkSocket (fd_ s) st (io_ s) (timeout_ s) (timer_ s) (handler_ s).
Definition with_io (s : Socket) (i : option (Z * Z)) : Socket :=
  mkSocket (fd_ s) (state_ s) i (timeout_ s) (timer_ s) (handler_ s).
Definition with_timer (s : Socket) (t : option Q) : Socket :=
  mkSocket (fd_ s) (state_ s) (io_ s) (timeout_ s) t (handler_ s).
Definition with_timeout (s : Socket) (t : Q) : Socket :=
  mkSocket (fd_ s) (state_ s) (io_ s) t (timer_ s) (handler_ s).

(** ** Watching *)

(** [on(mode, timeout, cb)] *)
Definition on (s : Socket) (mode : Z) (timeout : Q) (cb : nat) : OM Socket :=
  assert (Z.land mode TIMEOUT =? 0);;
  let mode := if has mode CONNECTED then Z.lor (Z.ldiff mode CONNECTED) WRITE else mode in
  mret (mkSocket (fd_ s) (state_ s) (Some (fd_ s, mode)) timeout (Some timeout) (Some cb)).

Definition watch (s : Socket) (mode : Z) : Socket :=
  let s := if span_set (timeout_ s) then with_timer s (Some (timeout_ s)) else s in
  let s := match io_ s with Some _ => with_io s None | None => s end in
  with_io s (Some (fd_ s, mode)).

(** [watch(mode, timeout)] *)
Definition watch_timeout (s : Socket) (mode : Z) (timeout : Q) : Socket :=
  watch (if span_set timeout then with_timeout s timeout else s) mode.

Definition restart (s : Socket) : Socket :=
  match io_ s with
  | None => s
  | Some _ =>
      let s := match timer_ s with Some _ => with_timer s None | None => s end in
      if span_set (timeout_ s) then with_timer s (Some (timeout_ s)) else s
  end.

(** [std::move(handler_);] moves nothing. *)
Definition stop (s : Socket) : Socket := with_io (with_timer s None) None.

Section control.
Context {os : OS}.

(** ** Opening and closing *)

Definition close (s : Socket) : OM Socket :=
  if 0 <=? fd_ s then invoke (Close (fd_ s));; mret (with_state s Closed) else mret s.

(** [~Socket()] *)
Definition destroy (s : Socket) : OM () := close s;; mret ().

Definition applyFlags (fd flags : Z) : OM bool :=
  if negb (flags =? 0) then
    old ← invoke_int (Getfl fd);
    r ← invoke_int (Setfl fd (Z.lor old flags));
    mret (r =? 0)
  else mret true.

(** The flags that go into the socket's type, and the others. *)
Definition type_mask (flags : Z) : Z * Z :=
  let '(flags, mask) :=
    if has flags O_NONBLOCK then (Z.ldiff flags O_NONBLOCK, SOCK_NONBLOCK) else (flags, 0) in
  if has flags O_CLOEXEC then (Z.ldiff flags O_CLOEXEC, Z.lor mask SOCK_CLOEXEC) else (flags, mask).

(** The [sockaddr_in] or [sockaddr_in6] in the zeroed array [buf]; [None] for
    another family. *)
Definition sockaddr (a : IPAddress) (port : Z) : option bytes :=
  let p := [byte_of_Z (port / 256); byte_of_Z port] in
  if family_ a =? IPAddress.V4
  then Some ([byte_of_Z AF_INET; NUL] ++ p ++ take 4 (buf_ a) ++ replicate 8 NUL)
  else if family_ a =? IPAddress.V6
  then Some ([byte_of_Z AF_INET6; NUL] ++ p ++ replicate 4 NUL ++ take 16 (buf_ a)
             ++ replicate 4 NUL)
  else None.

Definition open (s : Socket) (a : IPAddress) (port flags : Z) : OM (State * Socket) :=
  let '(flags, mask) := type_mask flags in
  fd ← invoke_int (SocketCall (family_ a) (Z.lor SOCK_STREAM mask) IPPROTO_TCP);
  let s := with_fd s fd in
  if fd <? 0 then mret (Closed, s)
  else
    ok ← applyFlags fd flags;
    if negb ok then mret (Closed, s)
    else match sockaddr a port with
    | None => invoke (Close fd);; mret (Closed, with_fd s (-1))
    | Some addr =>
        r ← invoke (Connect fd addr);
        match r with
        | Some _ => mret (Operational, with_state s Operational)
        | None =>
            e ← get_oerrno;
            if e =? EINPROGRESS then mret (Connecting, with_state s Connecting)
            else invoke (Close fd);; mret (Closed, with_state (with_fd s (-1)) Closed)
        end
    end.

(** ** What is still to be written *)

(** [open(const SocketSpec&, int)], of an object and of the class. *)
Definition open_from_spec (s : Socket) (spec : SocketSpec.SocketSpec) (flags : Z) : bool * Socket := (false, s).
Definition open_from_spec_new (spec : SocketSpec.SocketSpec) (flags : Z) : option Socket := None.

(** The options are neither stored nor set. *)
Definition tcpCork (s : Socket) : bool := false.
Definition setTcpCork (s : Socket) (enable : bool) : Socket := s.
Definition lingering (s : Socket) : Q := 0.
Definition setLingering (s : Socket) (timeout : Q) : Socket := s.

(** ** Events *)

(** [callback(mode)]: without a handler nothing happens. *)
Definition callback (s : Socket) (mode : Z) : tail :=
  match handler_ s with Some h => Call h mode | None => Return end.

Definition onConnectComplete (s : Socket) : OM (tail * Socket) :=
  let s := stop s in
  r ← invoke (Getsockopt (fd_ s) SOL_SOCKET SO_ERROR);
  s ← match r with
      | Some r =>
          let val := rval r in
          if val =? 0 then mret (with_state s Operational)
          else close s ≫= λ s, set_oerrno val;; mret s
      | None => val ← get_oerrno; close s ≫= λ s, set_oerrno val;; mret s
      end;
  mret (callback s CONNECTED, s).

(** [io(ev::io&, int revents)]: the event loop's call for an I/O event. *)
Definition io (s : Socket) (revents : Z) : OM (tail * Socket) :=
  let s := with_timer s None in
  match state_ s with
  | Connecting => onConnectComplete s
  | Handshake => mret (call_handler s HANDSHAKE, s)
  | _ => mret (match handler_ s with Some h => Call h revents | None => Return end, s)
  end.

(** [timeout(ev::timer&, int)] *)
Definition timeout (s : Socket) : tail * Socket :=
  let s := with_io (with_timer s None) None in (call_handler s TIMEOUT, s).
End control.

(** ** Transferring bytes *)
Section stream.
Context `{Kernel} {AL : Allocator}.

Definition size (s : Socket) : Z := 0.

Definition read_buffer (s : Socket) (result : MutableBuffer) (n : Z) : WW (Z * MutableBuffer) :=
  read_loop (S (Z.to_nat n)) (fd_ s) result n 0.

Definition read (s : Socket) (buf : ptr) (n : Z) : WW Z := Kernel.read (fd_ s) buf n.

Definition read_socket (s : Socket) : WW Z := mret 0.

(** [pipe->write(this, size, Stream::MOVE)] *)
Definition read_pipe (s : Socket) (pipe : Pipe.Pipe) (n : Z) : WW (Z * Pipe.Pipe) :=
  Pipe.write_socket pipe (fd_ s) n MOVE.

Definition read_fd (s : Socket) : WW Z := mret 0.

(** [int read()]: the local [char ch] is -1 before. *)
Definition read_char (s : Socket) : WW Z :=
  r ← read_local (fd_ s) 1;
  mret match r with None => -1 | Some d => schar (default Byte.xff (head d)) end.

Definition write (s : Socket) (buf : ptr) (n : Z) : WW Z := Kernel.write (fd_ s) buf n.

(** [handle] is [fs->handle()]. *)
Definition write_file (s : Socket) (handle n : Z) : WW Z := sendfile (fd_ s) handle n.

Definition write_socket (s : Socket) : WW Z := set_errno ENOTSUP;; mret (-1).

(** The pipe's count is not told. *)
Definition write_pipe (s : Socket) (pipe : Pipe.Pipe) (n : Z) : WW Z :=
  splice (Pipe.readFd pipe) (fd_ s) n.

Definition write_fd (s : Socket) (fd n : Z) : WW Z := sendfile (fd_ s) fd n.
End stream.
End Socket.

(** ** SocketDriver (lib/SocketDriver.cpp) *)
Module SocketDriver.
Section ops.
Context {os : OS}.

Definition isSecure : bool := false.

(** [create(loop, handle, af)] *)
Definition create (handle : Z) : Socket.Socket := Socket.new_fd handle Socket.Operational.

(** [create(loop, ipaddr, port)]; [None] is a null pointer. *)
Definition create_connected (a : IPAddress) (port : Z) : OM (option Socket.Socket) :=
  fd ← invoke_int (SocketCall (family_ a) SOCK_STREAM 0);
  if fd <? 0 then mret None
  else
    rv ← match Socket.sockaddr a port with
         | Some addr => invoke_int (Connect fd addr)
         | None => mret (-1)
         end;
    if rv <? 0 then invoke (Close fd);; mret None
    else mret (Some (Socket.new_fd fd Socket.Operational)).

(** [destroy(socket)] *)
Definition destroy (s : Socket.Socket) : OM () := Socket.destroy s.
End ops.
End SocketDriver.

(** ** Connecting *)
Section connect.
Context {os : OS}.
Import Socket.
Implicit Types (s : Socket) (o : os_state).

Lemma sockaddr_spec a port addr :
  sockaddr a port = Some addr → length (buf_ a) = 16%nat →
  SdDaemon.sa_family addr = family_ a ∧ SdDaemon.sa_port addr = port mod 65536
  ∧ take (Z.to_nat (IPAddress.size a)) (drop (if family_ a =? AF_INET then 4 else 8) addr)
    = take (Z.to_nat (IPAddress.size a)) (buf_ a).
Proof.
  unfold sockaddr, IPAddress.size, IPAddress.V4, IPAddress.V6. intros Ha Hb.
  assert (256 * uchar (byte_of_Z (port / 256)) + uchar (byte_of_Z port) = port mod 65536) as Hp.
  { rewrite !uchar_byte_of_Z. change 65536 with (256 * 256). rewrite Z.rem_mul_r by lia. lia. }
  destruct a as [f b]. simpl in *. do 16 (destruct b as [|? b]; [done|]). destruct b; [|done].
  destruct (Z.eqb_spec f AF_INET) as [->|E].
  - injection Ha as <-. by split_and!.
  - destruct (Z.eqb_spec f AF_INET6) as [->|]; [|done]. injection Ha as <-. by split_and!.
Qed.

(** Flags that [open] puts into the type of the socket. *)
Definition plain_flags (flags : Z) : Prop := (type_mask flags).1 = 0.

(** What [open] has done: the state, and for a connection the descriptor and
    the address that it connected to. *)
Definition connected_to (a : IPAddress) (port : Z) (F : gset Z) s o : Prop :=
  0 <= fd_ s ∧ (fd_ s ∉ F) ∧ live (history o) = {[fd_ s]} ∪ F
  ∧ ∃ addr r h, history o = (Connect (fd_ s) addr, r) :: h ∧ sockaddr a port = Some addr.

Definition opened (a : IPAddress) (port : Z) s o (r : State * Socket) o' : Prop :=
  r.1 = state_ r.2 ∧ io_ r.2 = io_ s ∧ timer_ r.2 = timer_ s ∧ environ o' = environ o
  ∧ match r.1 with
    | Closed => fd_ r.2 = -1 ∧ live (history o') = live (history o)
    | Handshake => False
    | _ => connected_to a port (live (history o)) r.2 o'
    end.

Lemma open_connects s a port flags o :
  FreshFds → state_ s = Closed → plain_flags flags →
  wp (open s a port flags) (opened a port s o) o.
Proof.
  intros HF Hst Hfl. unfold open, plain_flags in *. destruct (type_mask flags) as [fl mask].
  simpl in Hfl. subst fl. wp_step. apply wp_invoke_int.
  { intros e _. change (-1 <? 0) with true. wp_step. by split_and!. }
  intros r Hr. destruct (socket_fresh _ _ _ _ _ Hr) as [Hpos Hnew].
  replace (rval r <? 0) with false by lia. unfold applyFlags.
  change (negb (0 =? 0)) with false. wp_step. wp_step. cbn [negb].
  destruct (sockaddr a port) as [addr|] eqn:Ha.
  - wp_step. apply wp_invoke; simpl.
    + intros e He. os_step. os_step. simpl. destruct (e =? EINPROGRESS).
      * wp_step. split_and!; [done..|]. split_and!; [done..|]. eauto.
      * wp_step. eapply wp_mono; [apply close_quiet|]. intros _ o1 [Hl E1]. wp_step.
        split_and!; [done..|]. split; [done|]. rewrite Hl. simpl. set_solver.
    + intros r1 Hr1. wp_step. split_and!; [done..|]. split_and!; [done..|]. eauto.
  - wp_step. eapply wp_mono; [apply close_quiet|]. intros _ o1 [Hl E1]. wp_step.
    split_and!; [done..|]. split; [done|]. rewrite Hl. simpl. set_solver.
Qed.

(** The calls of [connect] in a dialogue, the latest one first. *)
Definition connect_calls (h : list event) : list (Z * bytes) :=
  omap (λ e, match e.1 with Connect fd addr => Some (fd, addr) | _ => None end) h.

Lemma applyFlags_spec fd fl o :
  wp (applyFlags fd fl) (λ ok o', live (history o') = live (history o)
    ∧ connect_calls (history o') = connect_calls (history o)
    ∧ (ok = false → fl ≠ 0
       ∧ ∃ v x h, history o' = (Setfl fd v, x) :: h ∧ ∀ y, x = inr y → rval y ≠ 0)) o.
Proof.
  unfold applyFlags. destruct (Z.eqb_spec fl 0) as [|Hfl]; cbn [negb]; [by wp_step|].
  wp_step. apply wp_invoke_int; intros old _; wp_step; apply wp_invoke_int; intros x _; wp_step;
    (split; [done|]); (split; [done|]); simpl; intros Hx; (split; [done|]); do 3 eexists; (split; [done|]);
    intros y [= <-]; lia.
Qed.

(** C10: [open] of a socket in any state, with any flags.  It returns
    connected or connecting, which the socket is then, with a descriptor that
    was not in use and by exactly one call of [connect], on that descriptor and
    with an address that encodes the given one and the port; or it returns
    closed, a closed socket is closed then, and no descriptor is left open by
    the call, except when [fcntl] fails to set flags other than [O_NONBLOCK] and
    [O_CLOEXEC]: then the socket has the new descriptor, open and not
    connected. *)
Theorem socket_open_outcome s a port flags o :
  FreshFds → length (buf_ a) = 16%nat →
  wp (open s a port flags) (λ r o',
    match r.1 with
    | Operational | Connecting =>
        state_ r.2 = r.1 ∧ 0 <= fd_ r.2 ∧ (fd_ r.2 ∉ live (history o))
        ∧ live (history o') = {[fd_ r.2]} ∪ live (history o)
        ∧ ∃ addr, connect_calls (history o') = (fd_ r.2, addr) :: connect_calls (history o)
          ∧ SdDaemon.sa_family addr = family_ a ∧ SdDaemon.sa_port addr = port mod 65536
          ∧ take (Z.to_nat (IPAddress.size a)) (drop (if family_ a =? AF_INET then 4 else 8) addr)
            = take (Z.to_nat (IPAddress.size a)) (buf_ a)
    | Handshake => False
    | Closed =>
        (state_ s = Closed → state_ r.2 = Closed)
        ∧ (fd_ r.2 = -1 ∧ live (history o') = live (history o)
           ∨ ¬ plain_flags flags ∧ 0 <= fd_ r.2 ∧ (fd_ r.2 ∉ live (history o))
             ∧ live (history o') = {[fd_ r.2]} ∪ live (history o)
             ∧ connect_calls (history o') = connect_calls (history o)
             ∧ ∃ v x h, history o' = (Setfl (fd_ r.2) v, x) :: h ∧ ∀ y, x = inr y → rval y ≠ 0)
    end) o.
Proof.
  intros HF Hb. unfold open, plain_flags. destruct (type_mask flags) as [fl mask]. cbn [fst snd].
  wp_step. apply wp_invoke_int.
  { intros e _. change (-1 <? 0) with true. wp_step. simpl. split; [done|]. by left. }
  intros r Hr. destruct (socket_fresh _ _ _ _ _ Hr) as [Hpos Hnew].
  replace (rval r <? 0) with false by lia. set (fd := rval r) in *. wp_step.
  eapply wp_mono; [apply applyFlags_spec|]. intros ok o2 (Hl2 & Hc2 & Hok). simpl in Hl2, Hc2.
  destruct ok; cbn [negb].
  2:{ wp_step. simpl. destruct (Hok eq_refl) as [Hfl H]. split; [done|]. right. by split_and!. }
  assert (Hclose : ∀ o3, live (history o3) = {[fd]} ∪ live (history o) →
    wp (invoke (Close fd)) (λ _ o4, live (history o4) = live (history o)) o3).
  { intros o3 H3. eapply wp_mono; [apply close_quiet|]. intros ? o4 [H4 _].
    rewrite H4, H3. clear -Hnew. set_solver. }
  destruct (sockaddr a port) as [addr|] eqn:Ha.
  - pose proof (sockaddr_spec _ _ _ Ha Hb) as Haddr. wp_step. apply wp_invoke; simpl.
    + intros e He. os_step. os_step. simpl. destruct (e =? EINPROGRESS).
      * wp_step. simpl. split_and!; [done|done|done|done|]. exists addr. by rewrite Hc2.
      * wp_step. eapply wp_mono; [by apply Hclose|]. intros ? o4 H4. wp_step. simpl. split; [done|]. by left.
    + intros r1 _. wp_step. simpl. split_and!; [done|done|done|done|]. exists addr. by rewrite Hc2.
  - wp_step. eapply wp_mono; [by apply Hclose|]. intros ? o4 H4. wp_step. simpl. split; [done|]. by left.
Qed.

(** A socket that the driver creates is operational with a new descriptor; if
    it creates none, none is left open. *)
Theorem driver_create_outcome a port o :
  FreshFds →
  wp (SocketDriver.create_connected a port) (λ r o', match r with
    | Some s => state_ s = Operational ∧ live (history o') = {[fd_ s]} ∪ live (history o)
    | None => live (history o') = live (history o)
    end) o.
Proof.
  intros HF. unfold SocketDriver.create_connected. wp_step. apply wp_invoke_int.
  { intros e _. change (-1 <? 0) with true. by wp_step. }
  intros r Hr. destruct (socket_fresh _ _ _ _ _ Hr) as [Hpos Hnew].
  replace (rval r <? 0) with false by lia. set (o1 := Os _ _ _). wp_step.
  apply wp_mono with (Q := λ _ o2, same_fds o1 o2).
  { destruct (sockaddr a port); [by apply wp_quiet_int|by wp_step]. }
  intros rv o2 [Hl _]. destruct (rv <? 0); [|by wp_step].
  wp_step. eapply wp_mono; [apply close_quiet|]. intros _ o3 [Hl3 _]. wp_step.
  rewrite Hl3, Hl. simpl. set_solver.
Qed.

(** ** The completion of a connection *)

Lemma socket_close_spec s o :
  0 <= fd_ s →
  wp (close s) (λ s' o', s' = with_state s Closed ∧ environ o' = environ o
    ∧ live (history o') = live (history o) ∖ {[fd_ s]}) o.
Proof.
  intros Hf. unfold close. replace (0 <=? fd_ s) with true by lia. wp_step.
  eapply wp_mono; [apply close_quiet|]. intros _ o1 [Hl He]. by wp_step.
Qed.

(** A failed connection is closed and its error is in [errno]. *)
Lemma close_with_error s o val :
  0 <= fd_ s →
  wp (close s ≫= λ s, set_oerrno val;; mret s) (λ s' o', s' = with_state s Closed
    ∧ environ o' = environ o ∧ oerrno o' = val ∧ live (history o') = live (history o) ∖ {[fd_ s]}) o.
Proof.
  intros Hf. wp_step. eapply wp_mono; [by apply socket_close_spec|].
  intros s1 o1 (-> & He & Hl). os_step. os_step. by os_step.
Qed.

Lemma connect_complete_spec s o :
  0 <= fd_ s →
  wp (onConnectComplete s) (λ r o', r.1 = callback s CONNECTED ∧ environ o' = environ o
    ∧ match answer (history o) (Getsockopt (fd_ s) SOL_SOCKET SO_ERROR) with
      | inr (Reply 0 _ _ _) =>
          r.2 = with_state (stop s) Operational ∧ live (history o') = live (history o)
      | inr (Reply e _ _ _) | inl e =>
          r.2 = with_state (stop s) Closed ∧ oerrno o' = e
          ∧ live (history o') = live (history o) ∖ {[fd_ s]}
      end) o.
Proof.
  intros Hf. unfold onConnectComplete. wp_step.
  change (fd_ (stop s)) with (fd_ s). apply wp_invoke.
  - intros e ->. wp_step. os_step. os_step. eapply wp_mono; [by apply close_with_error|].
    intros s1 o1 (-> & He & Ho & Hl). wp_step. by split_and!.
  - intros [v d] ->. wp_step. simpl. destruct (Z.eqb_spec v 0) as [->|Hv].
    + wp_step. wp_step. by split_and!.
    + eapply wp_mono; [by apply close_with_error|]. intros s1 o1 (-> & He & Ho & Hl). wp_step.
      split; [done|]. split; [done|]. destruct v; done.
Qed.

(** C11: the first event on a connecting socket decides it: it is operational
    if the system reports no error, else closed, its descriptor given back and
    [errno] the error; in both cases it is watched no longer and the handler,
    if there is one, is called with [CONNECTED]. *)
Theorem connect_completes s revents o :
  state_ s = Connecting → 0 <= fd_ s →
  wp (io s revents) (λ r o', r.1 = callback s CONNECTED
    ∧ io_ r.2 = None ∧ timer_ r.2 = None
    ∧ match answer (history o) (Getsockopt (fd_ s) SOL_SOCKET SO_ERROR) with
      | inr (Reply 0 _ _ _) => state_ r.2 = Operational ∧ live (history o') = live (history o)
      | inr (Reply e _ _ _) | inl e =>
          state_ r.2 = Closed ∧ oerrno o' = e ∧ live (history o') = live (history o) ∖ {[fd_ s]}
      end) o.
Proof.
  intros Hst Hf. unfold io. simpl. rewrite Hst.
  eapply wp_mono; [by apply (connect_complete_spec (with_timer s None))|].
  intros [t s'] o' (Ht & _ & H). simpl in *. split; [done|].
  destruct (answer _ _) as [e|[[|v|v] d]]; destruct H as (-> & H);
    do 2 (split; [done|]); (split; [done|exact H]).
Qed.

(** ** The life of a socket *)

Record conn : Type := Conn { csock : Socket; csys : os_state }.

(** The program opens a closed socket, sets its watchers and closes an open
    one; the event loop delivers an event to an active watcher. *)
Inductive conn_step : conn → conn → Prop :=
| conn_open s o a port flags r s' o' :
    state_ s = Closed → plain_flags flags → open s a port flags o = Ok ((r, s'), o') →
    conn_step (Conn s o) (Conn s' o')
| conn_on s o mode t cb s' o' :
    on s mode t cb o = Ok (s', o') → conn_step (Conn s o) (Conn s' o')
| conn_watch s o mode : conn_step (Conn s o) (Conn (watch s mode) o)
| conn_watch_timeout s o mode t : conn_step (Conn s o) (Conn (watch_timeout s mode t) o)
| conn_restart s o : conn_step (Conn s o) (Conn (restart s) o)
| conn_stop s o : conn_step (Conn s o) (Conn (stop s) o)
| conn_io s o w revents t s' o' :
    io_ s = Some w → io s revents o = Ok ((t, s'), o') → conn_step (Conn s o) (Conn s' o')
| conn_timeout s o t :
    timer_ s = Some t → conn_step (Conn s o) (Conn (timeout s).2 o)
| conn_close s o s' o' :
    state_ s ≠ Closed → close s o = Ok (s', o') → conn_step (Conn s o) (Conn s' o').

(** The descriptor that a socket holds. *)
Definition held s : gset Z := if decide (state_ s = Closed) then ∅ else {[fd_ s]}.

Record conn_inv (c : conn) : Prop := {
  ci_live : live (history (csys c)) = held (csock c);
  ci_fd : state_ (csock c) ≠ Closed → 0 <= fd_ (csock c);
  ci_timer : timer_ (csock c) ≠ None → io_ (csock c) ≠ None;
  ci_state : state_ (csock c) ≠ Handshake;
}.

(** The watchers change, nothing else. *)
Lemma conn_inv_watch s s' o :
  state_ s' = state_ s → fd_ s' = fd_ s → (timer_ s' ≠ None → io_ s' ≠ None) →
  conn_inv (Conn s o) → conn_inv (Conn s' o).
Proof. intros E1 E2 Ht [L F _ H]. split; simpl in *; unfold held in *; rewrite ?E1, ?E2; done. Qed.

Lemma conn_open_inv s o a port flags r s' o' :
  FreshFds → state_ s = Closed → plain_flags flags → open s a port flags o = Ok ((r, s'), o') →
  conn_inv (Conn s o) → conn_inv (Conn s' o').
Proof.
  intros HF Hst Hfl E [L F T H]. pose proof (open_connects s a port flags o HF Hst Hfl) as W.
  unfold wp in W. rewrite E in W. destruct W as (Er & Ei & Et & _ & W). simpl in *.
  unfold held in L. rewrite decide_True in L by done.
  split; simpl; unfold held; rewrite ?Ei, ?Et; try done.
  - destruct r; rewrite <- Er; [rewrite decide_True by done; destruct W as [_ ->]; done| |done|].
    all: destruct W as (_ & _ & Hl & _); rewrite decide_False by done; rewrite Hl, L; set_solver.
  - intros Hn. destruct r; rewrite <- Er in Hn; [done| |done|]; by destruct W.
  - rewrite <- Er. by destruct r.
Qed.

Lemma conn_io_inv s o revents t s' o' :
  io_ s ≠ None → io s revents o = Ok ((t, s'), o') → conn_inv (Conn s o) → conn_inv (Conn s' o').
Proof.
  intros Hio E Hinv. pose proof Hinv as [L F T H]. simpl in *. unfold io in E. simpl in E.
  destruct (state_ s) eqn:Hst; [| |done|].
  2:{ pose proof (connect_complete_spec (with_timer s None) o (F ltac:(done))) as W.
      unfold wp in W. rewrite E in W. destruct W as (_ & _ & W). simpl in *.
      unfold held in L. rewrite Hst, decide_False in L by done.
      destruct (answer _ _) as [e|[[|v|v] d]]; destruct W as (-> & W);
        (split; simpl; unfold held; simpl; [|first [done|by intros _; apply F]|done..]).
      2:{ by rewrite W, L. }
      all: destruct W as [_ ->]; rewrite L; set_solver. }
  all: injection E as _ <- <-; by apply (conn_inv_watch s).
Qed.

Lemma conn_close_inv s o s' o' :
  state_ s ≠ Closed → close s o = Ok (s', o') → conn_inv (Conn s o) → conn_inv (Conn s' o').
Proof.
  intros Hst E [L F T H]. simpl in *. pose proof (socket_close_spec s o (F Hst)) as W.
  unfold wp in W. rewrite E in W. destruct W as (-> & _ & Hl).
  split; simpl; unfold held in *; simpl; try done. rewrite decide_False in L by done.
  rewrite Hl, L. set_solver.
Qed.

Lemma watch_active s mode : state_ (watch s mode) = state_ s ∧ fd_ (watch s mode) = fd_ s
  ∧ io_ (watch s mode) ≠ None.
Proof. unfold watch. destruct (span_set _), (io_ s) eqn:E; simpl; rewrite ?E; done. Qed.

Lemma restart_keeps s : state_ (restart s) = state_ s ∧ fd_ (restart s) = fd_ s
  ∧ io_ (restart s) = io_ s ∧ (io_ s = None → timer_ (restart s) = timer_ s).
Proof.
  unfold restart. destruct (io_ s) as [x|] eqn:E; [|done]. simpl.
  destruct (timer_ s); simpl; by destruct (span_set (timeout_ s)).
Qed.

Lemma conn_step_inv c c' : FreshFds → conn_step c c' → conn_inv c → conn_inv c'.
Proof.
  intros HF Hs. destruct Hs.
  - by eapply conn_open_inv.
  - rename select (on _ _ _ _ _ = _) into E. unfold on, assert, mbind, ST_bind in E.
    destruct (Z.land mode TIMEOUT =? 0); [|done]. injection E as <- <-.
    by apply (conn_inv_watch s).
  - destruct (watch_active s mode) as (? & ? & ?). by apply (conn_inv_watch s).
  - unfold watch_timeout. destruct (watch_active (if span_set t then with_timeout s t else s) mode)
      as (E1 & E2 & ?).
    apply (conn_inv_watch s); [rewrite E1; by destruct (span_set t)|rewrite E2; by destruct (span_set t)|done].
  - destruct (restart_keeps s) as (E1 & E2 & E3 & E4). intros Hi. pose proof (ci_timer _ Hi) as T.
    apply (conn_inv_watch s); [done..| |done]. rewrite E3. intros Ht Hn. rewrite E4 in Ht by done.
    by apply T.
  - by apply (conn_inv_watch s).
  - eapply conn_io_inv; [|done]. congruence.
  - by apply (conn_inv_watch s).
  - by eapply conn_close_inv.
Qed.

(** C4: a socket that the program opens only while it is closed and with no
    flags but [O_NONBLOCK] and [O_CLOEXEC], and closes only while it is not: in
    every state that it can reach by such calls, by calls that set and stop its
    watchers and by events, in any order and whatever the system answers, the
    process holds exactly the descriptor of a socket that is not closed, and a
    timeout is pending only while the descriptor is watched. *)
Theorem socket_life c o :
  FreshFds → history o = [] → rtc conn_step (Conn new o) c →
  live (history (csys c)) = held (csock c)
  ∧ (timer_ (csock c) ≠ None → io_ (csock c) ≠ None)
  ∧ (state_ (csock c) ≠ Closed → 0 <= fd_ (csock c)).
Proof.
  intros HF Hh Hr. assert (conn_inv (Conn new o)) as Hi by (split; simpl; rewrite ?Hh; done).
  clear Hh. induction Hr as [|c1 c2 c3 H12 _ IH]; [by destruct Hi|].
  apply IH. by eapply conn_step_inv.
Qed.

(** [close()] does not forget the descriptor: the destructor of a socket
    that was closed closes it a second time, by when it may be another's. *)
Theorem socket_double_close s o :
  0 <= fd_ s →
  wp (s' ← close s; destroy s') (λ _ o', ∃ x y,
    history o' = [(Close (fd_ s), y); (Close (fd_ s), x)] ++ history o) o.
Proof.
  intros Hf. unfold destroy, close. replace (0 <=? fd_ s) with true by lia.
  wp_step. wp_step. apply wp_invoke; intros x _; wp_step; wp_step; simpl;
    replace (0 <=? fd_ s) with true by lia; wp_step;
    apply wp_invoke; intros y _; wp_step; wp_step; simpl; eauto.
Qed.
End connect.

(** ** Transferring bytes *)
Section transfer.
Context {K : Kernel} {KL : KernelLaws K} {AL : Allocator}.
Import Socket.
Implicit Types (w : world) (s : Socket).

(** [read(Buffer&, size)] terminates and appends to the buffer at most
    [size] bytes from the front of what the peer sent, in order and without
    loss, and returns their number; -1 only when there are none. *)
Theorem socket_read_buffer w s c b lb n :
  mem_wf (wmem w) → mbuf_rep (wmem w) b lb → owned (wmem w) b →
  rd_chan (wkern w) (fd_ s) = Some c → 0 <= n <= SSIZE_MAX →
  wp (read_buffer s b n) (λ r w', ∃ d,
    took (wkern w) (wkern w') c d ∧ Z.of_nat (length d) <= n
    ∧ mbuf_rep (wmem w') r.2 (lb ++ d) ∧ owned (wmem w') r.2
    ∧ (r.1 = Z.of_nat (length d) ∨ d = [] ∧ r.1 = -1)) w.
Proof.
  intros Hwf Hrep Hown Hrd Hn. unfold read_buffer.
  wp_apply (read_loop_spec (S (Z.to_nat n)) w (fd_ s) c b lb n 0); [done..|lia|lia|].
  intros [rv b'] w' (d & T & L & W & R & O & M & V). exists d.
  split_and!; try done. destruct V as [|(? & _ & ?)]; auto.
Qed.

(** [write(Pipe, size)] moves bytes from the front of the pipe to the peer
    in order, but the pipe's count is not told: it is right afterwards only if
    nothing moved. *)
Theorem socket_write_pipe_count w s co p c l n :
  pipe_rep (wkern w) p c l → wr_chan (wkern w) (fd_ s) = Some co → co ≠ c →
  wp (write_pipe s p n) (λ rv w', ∃ d l',
    l = d ++ l' ∧ content (wkern w') c = l'
    ∧ content (wkern w') co = content (wkern w) co ++ d
    ∧ (rv = Z.of_nat (length d) ∨ rv = -1 ∧ d = [])
    ∧ (pipe_rep (wkern w') p c l' ↔ d = [])) w.
Proof.
  intros Hp Hco Hne. unfold write_pipe. pose proof Hp as [R W C S]. apply wp_splice.
  - intros k' e Ht. exists [], l. simpl.
    rewrite (transfer_content _ _ _ c Ht), (transfer_content _ _ _ co Ht), app_nil_r.
    split_and!; try done; [by right|]. split; [done|]. intros _. by eapply pipe_rep_same.
  - intros ci co' d k' Hci Hco' _ (_ & l' & Hd & Ht). simpl.
    assert (ci = c) as -> by congruence. assert (co' = co) as -> by congruence.
    exists d, l'. rewrite C in Hd.
    rewrite (transfer_content _ _ _ c Ht), (transfer_content _ _ _ co Ht), upd_eq, upd_ne, upd_eq by done.
    split_and!; try done; [by left|]. split.
    + intros [_ _ _ S']. rewrite S, Hd, length_app in S'. destruct d; [done|simpl in S'; lia].
    + intros ->. eapply pipe_rep_frame; [exact Ht|by rewrite upd_ne, upd_eq|]. simpl in Hd. by rewrite <- Hd.
Qed.
End transfer.
