(* ===== verification/Driver.v ===== *)
(** * Driver: who owns the socket drivers (lib/ServerSocket.cpp)

    Each ServerSocket has a pointer to the SocketDriver that makes its clients'
    sockets; the constructor allocates one, [setSocketDriver] replaces it and
    the destructor deletes it.  The drivers are objects on a heap of their
    own: only their identity matters. *)

From S2P Require Import Prelude Memory BufferBase BufferParse MutableBuffer BufferSpec Libc Kernel.
From S2P Require Import Os Address SdDaemon Server Pipe Socket.

Local Open Scope Z_scope.

(** The drivers that exist, and the name of the next one. *)
Record heap : Type := Heap { drivers : gset nat; next_driver : nat }.
Abbreviation HM := (ST heap).

Module Driver.

(** [new SocketDriver()] and [delete sd]; deleting twice is undefined. *)
Definition create : HM nat := λ h,
  Ok (next_driver h, Heap ({[next_driver h]} ∪ drivers h) (S (next_driver h))).
Definition delete (d : nat) : HM () := λ h,
  if decide (d ∈ drivers h) then Ok ((), Heap (drivers h ∖ {[d]}) (next_driver h)) else UB.

(** The member [socketDriver_] in the constructor; [None] is a null pointer. *)
Definition construct : HM (option nat) := d ← create; mret (Some d).

Definition setSocketDriver (socketDriver_ sd : option nat) : HM (option nat) :=
  if bool_decide (socketDriver_ = sd) then mret socketDriver_
  else (match socketDriver_ with Some d => delete d | None => mret () end);; mret sd.

(** The end of [~ServerSocket()] *)
Definition destroy (socketDriver_ : option nat) : HM () := setSocketDriver socketDriver_ None;; mret ().

(** [createSocket(cfd)]: [socketDriver_->create(loop_, cfd, ...)] *)
Definition createSocket (socketDriver_ : option nat) (cfd : Z) : HM Socket.Socket := λ h,
  match socketDriver_ with
  | Some d => if decide (d ∈ drivers h) then Ok (SocketDriver.create cfd, h) else UB
  | None => UB
  end.
End Driver.
Import Driver.

Section owners.
Implicit Types (h : heap) (d : nat) (o : option nat) (sv : gmap nat (option nat)).

(** The servers of a program with their drivers. *)
Definition owner_state : Type := gmap nat (option nat) * heap.

(** Servers come and go; a server gets a driver of its own, the one that it
    has, or none. *)
Inductive owner_step : owner_state → owner_state → Prop :=
| owner_new sv h i o h' :
    sv !! i = None → construct h = Ok (o, h') → owner_step (sv, h) (<[i := o]> sv, h')
| owner_set sv h i o o' h' :
    sv !! i = Some o → (d ← create; setSocketDriver o (Some d)) h = Ok (o', h') →
    owner_step (sv, h) (<[i := o']> sv, h')
| owner_keep sv h i o o' h' :
    sv !! i = Some o → setSocketDriver o o h = Ok (o', h') →
    owner_step (sv, h) (<[i := o']> sv, h')
| owner_null sv h i o o' h' :
    sv !! i = Some o → setSocketDriver o None h = Ok (o', h') →
    owner_step (sv, h) (<[i := o']> sv, h')
| owner_destroy sv h i o h' :
    sv !! i = Some o → destroy o h = Ok ((), h') → owner_step (sv, h) (base.delete i sv, h').

(** Every driver has one owner. *)
Record owned_inv sv h : Prop := {
  ow_some : ∀ d, d ∈ drivers h → ∃ i, sv !! i = Some (Some d);
  ow_live : ∀ i d, sv !! i = Some (Some d) → d ∈ drivers h;
  ow_one : ∀ i j d, sv !! i = Some (Some d) → sv !! j = Some (Some d) → i = j;
  ow_next : ∀ d, d ∈ drivers h → (d < next_driver h)%nat;
}.

Definition held_by o : gset nat := match o with Some d => {[d]} | None => ∅ end.

(** A server gives its driver up. *)
Lemma set_spec o o' h :
  held_by o ⊆ drivers h →
  wp (setSocketDriver o o') (λ r h', r = o' ∧ next_driver h' = next_driver h
    ∧ drivers h' = if bool_decide (o = o') then drivers h else drivers h ∖ held_by o) h.
Proof.
  intros Ho. unfold setSocketDriver. case_bool_decide as E; [wp_step; by rewrite E|].
  wp_step. destruct o as [d|]; [|wp_step; wp_step; split_and!; try done; simpl; set_solver].
  unfold wp at 1, delete. rewrite decide_True by (simpl in Ho; set_solver). wp_step. by split_and!.
Qed.

Lemma inv_held sv h i o : owned_inv sv h → sv !! i = Some o → held_by o ⊆ drivers h.
Proof. intros Hi Hs. destruct o as [d|]; simpl; [|set_solver]. apply (ow_live _ _ Hi) in Hs. set_solver. Qed.

(** The server [i] has [o'] now, which is nobody else's. *)
Lemma inv_update sv h i o o' h' :
  owned_inv sv h → (sv !! i = Some o ∨ sv !! i = None ∧ o = None) →
  drivers h' = (drivers h ∖ held_by o) ∪ held_by o' →
  (next_driver h <= next_driver h')%nat →
  (∀ d, o' = Some d → (d < next_driver h')%nat ∧ (d ∉ drivers h ∖ held_by o)) →
  owned_inv (<[i := o']> sv) h'.
Proof.
  intros [W1 W2 W3 W4] Hi Hd Hn Ho'.
  assert (Hother : ∀ j d, j ≠ i → sv !! j = Some (Some d) → d ∈ drivers h ∖ held_by o).
  { intros j d Hj Hs. apply elem_of_difference. split; [by eapply W2|]. intros Hin. apply Hj.
    destruct o as [x|]; simpl in Hin; [|set_solver]. apply elem_of_singleton in Hin as ->.
    destruct Hi as [Hi|[_ ?]]; [by eapply W3|done]. }
  split.
  - intros d. rewrite Hd. intros [[Hin Hno]%elem_of_difference|Hin]%elem_of_union.
    + destruct (W1 d Hin) as [j Hj]. exists j. rewrite lookup_insert_ne; [done|]. intros <-.
      apply Hno. destruct Hi as [Hi|[Hi _]]; rewrite Hi in Hj; [injection Hj as ->; simpl; set_solver|done].
    + exists i. rewrite lookup_insert_eq. destruct o' as [x|]; simpl in Hin; [|set_solver].
      by apply elem_of_singleton in Hin as ->.
  - intros j d. rewrite Hd. intros [[<- E]|[Hj Hs]]%lookup_insert_Some.
    + apply elem_of_union_r. subst o'. simpl. set_solver.
    + apply elem_of_union_l. by eapply Hother.
  - intros j1 j2 d [[<- E1]|[H1 E1]]%lookup_insert_Some [[<- E2]|[H2 E2]]%lookup_insert_Some; try done.
    + destruct (Ho' d E1) as [_ Hno]. destruct Hno. by eapply Hother.
    + destruct (Ho' d E2) as [_ Hno]. destruct Hno. by eapply Hother.
    + by eapply W3.
  - intros d. rewrite Hd. intros [[Hin _]%elem_of_difference|Hin]%elem_of_union.
    + apply W4 in Hin. lia.
    + destruct o' as [x|]; simpl in Hin; [|set_solver]. apply elem_of_singleton in Hin as ->.
      by apply Ho'.
Qed.

Lemma inv_forget sv h i : owned_inv (<[i := None]> sv) h → owned_inv (base.delete i sv) h.
Proof.
  intros [W1 W2 W3 W4].
  assert (E : ∀ j d, base.delete i sv !! j = Some (Some d) ↔ <[i := None]> sv !! j = Some (Some d)).
  { intros j d. rewrite lookup_delete_Some, lookup_insert_Some. naive_solver. }
  split; [|by intros j d ?%E; eapply W2|by intros j1 j2 d ?%E ?%E; eapply W3|done].
  intros d Hd. destruct (W1 d Hd) as [j Hj]. exists j. by apply E.
Qed.

(** After [setSocketDriver o o'] by the server [i]. *)
Lemma inv_set sv h i o o' r h' :
  owned_inv sv h → sv !! i = Some o → o' = None ∨ o' = o →
  setSocketDriver o o' h = Ok (r, h') → owned_inv (<[i := r]> sv) h'.
Proof.
  intros Hi Hs Ho' E. pose proof (set_spec o o' h (inv_held _ _ _ _ Hi Hs)) as W.
  unfold wp in W. rewrite E in W. destruct W as (-> & Hn & Hd).
  pose proof (inv_held _ _ _ _ Hi Hs) as Hheld.
  apply (inv_update sv h i o); [done|by left| |lia|].
  - rewrite Hd. case_bool_decide as Eo; subst.
    + apply leibniz_equiv. rewrite difference_union. set_solver.
    + destruct Ho' as [-> | ->]; [simpl; by rewrite union_empty_r_L|done].
  - intros d ->. destruct Ho' as [?| <-]; [done|]. simpl. rewrite Hn.
    split; [|set_solver]. apply (ow_next _ _ Hi), (ow_live _ _ Hi i d Hs).
Qed.

Lemma owner_step_inv x y : owner_step x y → owned_inv x.1 x.2 → owned_inv y.1 y.2.
Proof.
  intros Hst Hi. destruct Hst as [sv h i o h' Hs E|sv h i o o' h' Hs E|sv h i o o' h' Hs E
    |sv h i o o' h' Hs E|sv h i o h' Hs E]; simpl in *.
  - injection E as <- <-. apply (inv_update sv h i None); simpl; [done|by right|set_solver|lia|].
    intros d [= <-]. split; [lia|]. intros [Hd _]%elem_of_difference. apply (ow_next _ _ Hi) in Hd. lia.
  - apply bind_elim in E as (d & h1 & [= <- <-] & E). set (h1 := Heap _ _) in E.
    assert (next_driver h ∉ drivers h) as Hfresh by (intros Hd%(ow_next _ _ Hi); lia).
    pose proof (inv_held _ _ _ _ Hi Hs) as Hheld.
    pose proof (set_spec o (Some (next_driver h)) h1 ltac:(unfold h1; simpl; set_solver)) as W.
    unfold wp in W. rewrite E in W. destruct W as (-> & Hn & Hd). simpl in Hn.
    rewrite bool_decide_eq_false_2 in Hd by (intros ->; simpl in Hheld; set_solver).
    apply (inv_update sv h i o); [done|by left| |lia|].
    + rewrite Hd. simpl. clear -Hfresh Hheld. apply leibniz_equiv. set_solver.
    + intros d [= <-]. split; [lia|]. clear -Hfresh. set_solver.
  - by eapply inv_set; [..|exact E]; [| |right].
  - by eapply inv_set; [..|exact E]; [| |left].
  - apply inv_forget. apply bind_elim in E as (r & h1 & E & [= <-]).
    assert (r = None) as ->.
    { pose proof (set_spec o None h (inv_held _ _ _ _ Hi Hs)) as W. unfold wp in W. rewrite E in W.
      by destruct W. }
    by eapply inv_set; [..|exact E]; [| |left].
Qed.

Lemma owner_run_inv x y : rtc owner_step x y → owned_inv x.1 x.2 → owned_inv y.1 y.2.
Proof. induction 1 as [|x y z Hxy _ IH]; [done|]. intros Hx. by eapply IH, owner_step_inv. Qed.

(** C22: in a program whose servers get drivers of their own, every driver that
    exists belongs to exactly one server, in every reachable state; a server
    that has a driver can make sockets with it, and destroying a server
    deletes its driver and no other. *)
Theorem driver_owned sv h :
  rtc owner_step (∅, Heap ∅ 0) (sv, h) →
  (∀ d, d ∈ drivers h ↔ exists! i, sv !! i = Some (Some d))
  ∧ ∀ i o, sv !! i = Some o →
      wp (destroy o) (λ _ h', drivers h' = drivers h ∖ held_by o) h
      ∧ ∀ d cfd, o = Some d → createSocket o cfd h = Ok (SocketDriver.create cfd, h).
Proof.
  intros Hr. assert (Hi : owned_inv sv h)
    by (apply (owner_run_inv _ _ Hr); split; simpl; set_solver).
  split.
  - intros d. split.
    + intros Hd. destruct (ow_some _ _ Hi d Hd) as [i Hs]. exists i. split; [done|].
      intros j Hj. by eapply ow_one.
    + intros (i & Hs & _). by eapply ow_live.
  - intros i o Hs. pose proof (inv_held _ _ _ _ Hi Hs) as Hheld. split.
    + unfold destroy. wp_step. eapply wp_mono; [by apply set_spec|]. intros r h' (_ & _ & Hd). wp_step.
      rewrite Hd. case_bool_decide; [|done]. subst o. simpl. by rewrite difference_empty_L.
    + intros d cfd ->. unfold createSocket. by rewrite decide_True by (by eapply ow_live).
Qed.

(** Two servers that share a driver: the second one that goes deletes it
    again, and after the first one the other cannot make a socket. *)
Theorem driver_shared_dangles d o cfd h h1 :
  o ≠ Some d → held_by o ⊆ drivers h → d ∈ drivers h →
  setSocketDriver o (Some d) h = Ok (Some d, h1) →
  (destroy (Some d);; destroy (Some d)) h1 = UB
  ∧ (destroy (Some d);; createSocket (Some d) cfd) h1 = UB.
Proof.
  intros Hne Ho Hd E. pose proof (set_spec o (Some d) h Ho) as W. unfold wp in W. rewrite E in W.
  destruct W as (_ & _ & Hd1). rewrite bool_decide_eq_false_2 in Hd1 by done.
  assert (d ∈ drivers h1) as Hin by (rewrite Hd1; destruct o as [x|]; simpl; set_solver).
  unfold destroy, setSocketDriver, mbind, ST_bind. rewrite bool_decide_eq_false_2 by done.
  unfold delete. rewrite !decide_True by done. simpl.
  rewrite !decide_False by set_solver. done.
Qed.
End owners.
