(* ===== verification/Echo.v ===== *)
(** * Echo: the echo server (examples/echo-server.cpp)

    A program that uses the library: a server that accepts connections and a
    client object per connection whose handler, called by the event loop,
    reads from the socket into a BufferStream and writes the buffer back.  It
    composes InetServer, Socket, BufferStream and the kernel, so that its
    theorems are about all of them at once. *)

From Stdlib Require Import QArith.
From S2P Require Import Prelude Memory BufferBase BufferParse MutableBuffer BufferSpec Libc Kernel.
From S2P Require Import Os Address SdDaemon Server Pipe BufferStream Socket.

Local Open Scope Z_scope.

(** [strncmp(a, b, n) == 0] on two strings with their terminators; a string
    that ends before is read out of bounds ([None]). *)
Fixpoint strncmp_eq (n : nat) (a b : bytes) : option bool :=
  match n with
  | O => Some true
  | S n => match a, b with
           | x :: a, y :: b =>
               if negb (bool_decide (x = y)) then Some false
               else if bool_decide (x = NUL) then Some true else strncmp_eq n a b
           | _, _ => None
           end
  end.

Module Echo.
Record Client : Type := mkClient {
  socket_ : Socket.Socket;
  writeBuffer_ : BufferStream.BufferStream;
  close_ : bool;
  chunks : Z;                 (* the counter that the handler shares *)
}.

(** The name that the handler is known by. *)
Definition HANDLER : nat := 0.

Section client.
Context {AL : Allocator} `{Kernel} {os : OS}.
Let E : Ensure := mutableEnsure.
#[local] Existing Instance E.

(** [Client(server, socket)] *)
Definition new (socket : Socket.Socket) : OM Client :=
  s ← Socket.on socket Socket.READ (inject_Z 10) HANDLER;
  mret (mkClient s BufferStream.new false 0).

(** [close()] *)
Definition close (c : Client) : Client :=
  mkClient (socket_ c) (writeBuffer_ c) true (chunks c).

(** [~Client()]: the socket closes its descriptor, then the buffer goes. *)
Definition destroy (c : Client) : WW () :=
  (if 0 <=? Socket.fd_ (socket_ c) then Kernel.close (Socket.fd_ (socket_ c));; mret () else mret ());;
  lift (BufferStream.destroy (writeBuffer_ c)).

(** [writeBuffer_.write(buf, n)] from the local array [buf]. *)
Definition write_local (s : BufferStream.BufferStream) (d : bytes) : MM BufferStream.BufferStream :=
  MutableBuffer.push_back_local (BufferStream.buf s) d ≫= λ b : MutableBuffer,
  mret (BufferStream.mkBS b (BufferStream.readOffset_ s)).

Definition BUFSIZE : Z := 1024.

(** How the handler goes on: with the client, or it has deleted it; and
    whether it has told the server to stop. *)
Abbreviation result := (option Client * bool)%type.

(** The commands in what was read: [n] is the number of bytes, and [buf] ends
    with the terminator. *)
Definition commands (c : Client) (buf : bytes) (n : Z) : WW result :=
  stop ← of_option (strncmp_eq (Z.to_nat (u64 (n - 2))) buf (bs ".." ++ [NUL]));
  if stop : bool then mret (Some (close c), true)
  else
    fin ← of_option (strncmp_eq (Z.to_nat (u64 (n - 2))) buf (bs "." ++ [NUL]));
    mret (Some (if fin : bool then mkClient (socket_ c) (writeBuffer_ c) true (chunks c) else c), false).

(** [if (re & Socket::READ)]; [buf\[n\] = 0] is out of bounds when the array
    is full. *)
Definition on_read (c : Client) : WW result :=
  r ← read_local (Socket.fd_ (socket_ c)) BUFSIZE;
  match r with
  | Some d =>
      let n := Z.of_nat (length d) in
      if 0 <? n then
        if BUFSIZE <=? n then ub
        else
          wb ← lift (write_local (writeBuffer_ c) d);
          let c := mkClient (Socket.watch (socket_ c) (Z.lor Socket.READ Socket.WRITE)) wb
                     (close_ c) (chunks c + 1) in
          commands c (d ++ [NUL]) n
      else destroy c;; mret (None, false)
  | None => destroy c;; mret (None, false)
  end.

(** [if (re & Socket::WRITE)] *)
Definition on_write (c : Client) : WW (option Client) :=
  let wb := writeBuffer_ c in
  n ← Socket.write (socket_ c) (BufferStream.data wb +ₚ BufferStream.readOffset wb)
        (BufferStream.size wb);
  if n <? 0 then destroy c;; mret None
  else
    let wb := if 0 <? n then BufferStream.shift wb n else wb in
    let c := mkClient (socket_ c) wb (close_ c) (chunks c) in
    if BufferStream.size wb =? 0 then
      if close_ c then destroy c;; mret None
      else mret (Some (mkClient (Socket.watch (socket_ c) Socket.READ) wb (close_ c) (chunks c)))
    else mret (Some c).

(** The handler that the event loop calls with the events [re]. *)
Definition handler (c : Client) (re : Z) : WW result :=
  if has re Socket.TIMEOUT then destroy c;; mret (None, false)
  else
    '(c, stop) ← (if has re Socket.READ then on_read c else mret (Some c, false));
    match c with
    | None => mret (None, stop)
    | Some c =>
        if has re Socket.WRITE then c ← on_write c; mret (c, stop) else mret (Some c, stop)
    end.
End client.

(** ** The server object *)
Record Server : Type := mkSrv {
  listener_ : option InetServer.InetServer;
  sigint_ : bool;               (* the signal watcher is started *)
  loop_refs : Z;                (* what it adds to the loop's references *)
}.

Section server.
Context {os : OS} {T : InetText}.

Definition new_server : Server := mkSrv None false 0.

(** [setup()]; [junk] is what the address's memory held before. *)
Definition setup (srv : Server) (junk : bytes) : OM (bool * Server) :=
  '(ok, inet) ← InetServer.open InetServer.new (IPAddress.new_text junk (bs "0.0.0.0") 0) 3000
    (Z.lor O_NONBLOCK O_CLOEXEC);
  if ok : bool then mret (true, mkSrv (Some inet) true (loop_refs srv - 1))
  else ServerSocket.destroy (InetServer.server inet);; mret (false, srv).

(** [stop()]: before [setup] there is no listener. *)
Definition stop (srv : Server) : OM Server :=
  match listener_ srv with
  | None => ub
  | Some inet => mret (mkSrv (Some (InetServer.with_server inet (ServerSocket.stop (InetServer.server inet))))
                         (sigint_ srv) (loop_refs srv))
  end.

(** [sig(sig, revents)] *)
Definition sig (srv : Server) : OM Server := stop srv.

(** [accept(socket, local)]: a client per connection; the socket of a failed
    [accept] is a null pointer. *)
Definition accept (srv : Server) (socket : option Socket.Socket) : OM Client :=
  match socket with Some s => new s | None => ub end.

(** [~Server()]: the listener goes with its last reference. *)
Definition destroy_server (srv : Server) : OM () :=
  match listener_ srv with
  | None => mret ()
  | Some inet => ServerSocket.destroy (InetServer.server inet)
  end.
End server.
End Echo.

(** ** The handler *)
Section echo.
Context {AL : Allocator} {K : Kernel} {KL : KernelLaws K}.
Import Echo.
Implicit Types (c : Client) (w : world) (l d p : bytes) (k : kst).

(** The client's buffer holds [l], and no more than [N] bytes in all. *)
Definition echo_rep (N : Z) c l w : Prop :=
  mem_wf (wmem w) ∧ ∃ pre, bs_rep (wmem w) (writeBuffer_ c) pre l
    ∧ Z.of_nat (length pre) + Z.of_nat (length l) <= N.

(** From [k] to [k'] the bytes [d] were read from the descriptor, or written
    to it. *)
Definition got k k' (fd : Z) d : Prop :=
  match rd_chan k fd with
  | Some ch => took k k' ch d
  | None => d = [] ∧ transfer k k' (content k)
  end.
Definition wrote k k' (fd : Z) d : Prop :=
  match wr_chan k fd with
  | Some ch => put k k' ch d
  | None => d = [] ∧ transfer k k' (content k)
  end.

Lemma got_nil k k' fd : transfer k k' (content k) → got k k' fd [].
Proof. intros Ht. unfold got. destruct (rd_chan k fd); [by apply took_nil|done]. Qed.

Lemma wrote_nil k k' fd : transfer k k' (content k) → wrote k k' fd [].
Proof.
  intros (Hc & Hr & Hw). unfold wrote. destruct (wr_chan k fd) as [ch|]; [|done].
  split; [|done]. intros c'. rewrite Hc. unfold upd. case_decide; subst; [by rewrite app_nil_r|done].
Qed.

(** The destructor always returns. *)
Lemma destroy_total N c l w : echo_rep N c l w → wp (destroy c) (λ _ _, True) w.
Proof.
  intros (Hwf & pre & [Hb Ho _] & _). unfold destroy. wp_step.
  apply (wp_mono _ (λ _ w', wmem w' = wmem w)).
  { destruct (0 <=? _); [|by wp_step]. wp_step. unfold Kernel.close. wp_step. unfold syscall, wp.
    destruct (sys_close _ _) as [[e|[]] k']; done. }
  intros _ w1 E1. apply wp_lift. unfold BufferStream.destroy. rewrite E1. wp_step.
  eapply wp_mono; [by eapply destroy_frees|]. intros. by wp_step.
Qed.

(** [destroy c;; mret x] ends with [x]. *)
Lemma destroy_then {B} N c l w (x : B) (Q : B → world → Prop) :
  echo_rep N c l w → (∀ w', Q x w') → wp (destroy c;; mret x) Q w.
Proof.
  intros Hr HQ. wp_step. eapply wp_mono; [by eapply destroy_total|]. intros. wp_step. apply HQ.
Qed.

Lemma write_local_spec N c l d w :
  echo_rep N c l w → Z.of_nat (length d) <= 2 ^ 10 →
  wp (write_local (writeBuffer_ c) d) (λ wb m', ∀ k e c', writeBuffer_ c' = wb →
    echo_rep (N + Z.of_nat (length d)) c' (l ++ d) (World m' k e)
    ∨ echo_rep N c' l (World m' k e) ∧ ∃ n, 0 <= n <= N + Z.of_nat (length d) ∧ no_memory n) (wmem w).
Proof.
  intros (Hwf & pre & [Hb Ho Hoff] & HN) Hd. unfold write_local. wp_step.
  eapply wp_mono; [apply (push_back_local_spec (inv := owned) _ _ (pre ++ l) d); try done; zlia|].
  intros b m' [W O M R]. wp_step. intros k e c' Hc'.
  destruct R as [R|(-> & R & Hn%oom_no_memory)].
  - left. split; [done|]. exists pre. rewrite Hc'. split; [|rewrite length_app; lia].
    rewrite <- app_assoc in R. by split.
  - right. split.
    + split; [done|]. exists pre. rewrite Hc'. split; [|done]. by split.
    + eexists. split; [|exact Hn]. rewrite !length_app. lia.
Qed.

Lemma strncmp_total n : ∀ a b : bytes, NUL ∈ a → NUL ∈ b → is_Some (strncmp_eq n a b).
Proof.
  induction n as [|n IH]; intros a b Ha Hb; [by eexists|].
  destruct a as [|x a]; [by apply not_elem_of_nil in Ha|].
  destruct b as [|y b]; [by apply not_elem_of_nil in Hb|]. cbn [strncmp_eq].
  case_bool_decide as Exy; cbn [negb]; [|by eexists]. case_bool_decide as Ex; [by eexists|].
  apply elem_of_cons in Ha as [|Ha]; [done|]. apply elem_of_cons in Hb as [|Hb]; [congruence|].
  by apply IH.
Qed.

Lemma commands_spec c d n w :
  wp (commands c (d ++ [NUL]) n) (λ r w', w' = w ∧ ∃ c', r.1 = Some c'
    ∧ socket_ c' = socket_ c ∧ writeBuffer_ c' = writeBuffer_ c
    ∧ (close_ c = true → close_ c' = true)) w.
Proof.
  unfold commands.
  assert (Hn : ∀ b : bytes, NUL ∈ b ++ [NUL]) by (intros b; apply elem_of_app; right; by left).
  destruct (strncmp_total (Z.to_nat (u64 (n - 2))) (d ++ [NUL]) (bs ".." ++ [NUL])) as [x Hx]; [done..|].
  wp_step. eapply wp_of_option; [exact Hx|]. destruct x; [wp_step; split; [done|by eexists]|].
  destruct (strncmp_total (Z.to_nat (u64 (n - 2))) (d ++ [NUL]) (bs "." ++ [NUL])) as [y Hy]; [done..|].
  wp_step. eapply wp_of_option; [exact Hy|]. wp_step. split; [done|].
  destruct y; by eexists.
Qed.

(** The reads of the kernel leave room for the terminator. *)
Definition short_read k (fd : Z) : Prop :=
  ∀ d k', sys_read fd BUFSIZE k = (inr d, k') → Z.of_nat (length d) < BUFSIZE.

Abbreviation fd_of c := (Socket.fd_ (socket_ c)).
Definition READ_WRITE : Z := Z.lor Socket.READ Socket.WRITE.

(** What is known about memory when the bytes [d] were dropped. *)
Definition dropped (N : Z) : Prop := ∃ n, 0 <= n <= N ∧ no_memory n.

Lemma watch_spec (x : Socket.Socket) mode :
  Socket.fd_ (Socket.watch x mode) = Socket.fd_ x
  ∧ Socket.io_ (Socket.watch x mode) = Some (Socket.fd_ x, mode)
  ∧ Socket.timeout_ (Socket.watch x mode) = Socket.timeout_ x
  ∧ Socket.timer_ (Socket.watch x mode)
    = (if Socket.span_set (Socket.timeout_ x) then Some (Socket.timeout_ x) else Socket.timer_ x).
Proof. unfold Socket.watch. by destruct (Socket.span_set _), (Socket.io_ x) eqn:E; simpl; rewrite ?E. Qed.

Lemma on_read_spec N c l w :
  echo_rep N c l w → short_read (wkern w) (fd_of c) →
  wp (on_read c) (λ r w', ∃ d k1, got (wkern w) k1 (fd_of c) d ∧
    match r.1 with
    | None => d = []
    | Some c' => wkern w' = k1 ∧ fd_of c' = fd_of c
        ∧ Socket.io_ (socket_ c') = Some (fd_of c, READ_WRITE)
        ∧ (close_ c = true → close_ c' = true)
        ∧ (echo_rep (N + Z.of_nat (length d)) c' (l ++ d) w'
           ∨ echo_rep N c' l w' ∧ dropped (N + Z.of_nat (length d)))
    end) w.
Proof.
  intros Hr Hshort. unfold on_read. wp_step. unfold read_local, syscall, wp at 1.
  destruct (sys_read (fd_of c) BUFSIZE (wkern w)) as [[e|d] k'] eqn:Ek.
  { eapply destroy_then; [exact Hr|]. intros w'. exists [], k'. split; [|done].
    by apply got_nil, (read_err _ _ _ _ _ Ek). }
  pose proof (Hshort _ _ Ek) as Hd. destruct (read_ok _ _ _ _ _ Ek) as (ch & Hch & _ & Htook).
  assert (Hg : got (wkern w) k' (fd_of c) d) by (unfold got; by rewrite Hch).
  destruct (Z.ltb_spec 0 (Z.of_nat (length d))) as [Hpos|Hz].
  2:{ eapply destroy_then; [exact Hr|]. intros w'. exists [], k'. split; [|done].
      destruct d; [done|simpl in Hz; lia]. }
  destruct (Z.leb_spec BUFSIZE (Z.of_nat (length d))); [lia|].
  wp_step. apply wp_lift. eapply wp_mono.
  { eapply (write_local_spec N c l d (World (wmem w) k' (werrno w))); [exact Hr|]. unfold BUFSIZE in *. lia. }
  intros wb m' Hwb. cbn [wkern werrno]. eapply wp_mono; [apply commands_spec|].
  intros r w' (-> & c' & -> & Hs & Hb & Hcl). exists d, k'. split; [done|].
  rewrite Hs. cbn [fst socket_]. destruct (watch_spec (socket_ c) READ_WRITE) as (? & ? & _).
  split_and!; try done. by apply Hwb.
Qed.

Lemma shift_bound N c l w n :
  echo_rep N c l w → 0 <= n <= SSIZE_MAX → ∀ k e c',
  writeBuffer_ c' = BufferStream.shift (writeBuffer_ c) n →
  echo_rep N c' (drop (Z.to_nat n) l) (World (wmem w) k e).
Proof.
  intros (Hwf & pre & Hb & HN) Hn k e c' Hc'.
  destruct (shift_spec _ _ _ _ n Hwf Hb Hn) as (pre' & Hb'). split; [done|]. exists pre'.
  rewrite Hc'. split; [done|].
  pose proof (bs_bounds _ _ _ _ Hwf Hb) as (W & _ & _).
  pose proof (bs_bounds _ _ _ _ Hwf Hb') as (W' & _ & _).
  assert (BufferStream.writeOffset (BufferStream.shift (writeBuffer_ c) n)
          <= BufferStream.writeOffset (writeBuffer_ c)); [|lia].
  unfold BufferStream.shift. destruct (_ <? _); simpl; [done|].
  unfold BufferStream.writeOffset in *. simpl. lia.
Qed.

(** The client after a write that has left [rest]. *)
Definition after_write c (rest : bytes) c' : Prop :=
  fd_of c' = fd_of c ∧ close_ c' = close_ c
  ∧ (rest = [] → close_ c = false ∧ Socket.io_ (socket_ c') = Some (fd_of c, Socket.READ))
  ∧ (rest ≠ [] → socket_ c' = socket_ c).

Lemma on_write_spec N c l w :
  echo_rep N c l w →
  wp (on_write c) (λ r w', match sys_write (fd_of c) l (wkern w) with
    | (inl _, k1) => r = None ∧ transfer (wkern w) k1 (content (wkern w))
    | (inr n, k1) => 0 <= n ∧ wrote (wkern w) k1 (fd_of c) (take (Z.to_nat n) l)
        ∧ match r with
          | None => drop (Z.to_nat n) l = [] ∧ close_ c = true
          | Some c' => wkern w' = k1 ∧ echo_rep N c' (drop (Z.to_nat n) l) w'
              ∧ after_write c (drop (Z.to_nat n) l) c'
          end
    end) w.
Proof.
  intros Hr. pose proof Hr as (Hwf & pre & Hb & HN).
  pose proof (bs_bounds _ _ _ _ Hwf Hb) as (_ & Hsz & Hmax).
  pose proof (bs_pending _ _ _ _ Hb) as Hpend.
  unfold on_write, Socket.write, Kernel.write. wp_step. wp_step. apply wp_lift.
  rewrite Hsz. eapply wp_Ok; [by apply read_range_ok|]. unfold Kernel.write_local. wp_step. unfold syscall, wp at 1. simpl.
  destruct (sys_write (fd_of c) l (wkern w)) as [[e|n] k1] eqn:Ew.
  { wp_step. change (ret_size None <? 0) with true. cbv iota.
    eapply destroy_then; [exact Hr|]. intros _. split; [done|]. by apply (write_err _ _ _ _ _ Ew). }
  destruct (write_ok _ _ _ _ _ Ew) as (ch & Hch & Hn & Hput). wp_step. cbn [ret_size].
  replace (n <? 0) with false by lia.
  set (wb := if 0 <? n then _ else _). set (c1 := mkClient _ wb _ _).
  assert (Hr1 : ∀ c', writeBuffer_ c' = wb →
    echo_rep N c' (drop (Z.to_nat n) l) (World (wmem w) k1 (werrno w))).
  { intros c' Hc'. subst wb. destruct (Z.ltb_spec 0 n).
    - eapply shift_bound; [exact Hr|zlia|done].
    - replace n with 0 by lia. simpl. rewrite drop_0. split; [done|]. exists pre. by rewrite Hc'. }
  assert (Hw : wrote (wkern w) k1 (fd_of c) (take (Z.to_nat n) l)) by (unfold wrote; by rewrite Hch).
  assert (Hsz1 : BufferStream.size wb = Z.of_nat (length (drop (Z.to_nat n) l))).
  { destruct (Hr1 c1 eq_refl) as (Hwf1 & pre1 & Hb1 & _). apply (bs_bounds _ _ _ _ Hwf1 Hb1). }
  rewrite Hsz1. destruct (drop (Z.to_nat n) l) as [|x rest] eqn:Ed; simpl.
  - destruct (close_ c) eqn:Ec.
    + eapply (destroy_then N c1 []); [by apply Hr1|]. intros _. split_and!; try done. lia.
    + wp_step. destruct (watch_spec (socket_ c) Socket.READ) as (? & ? & _).
      split_and!; try (done || lia). by apply Hr1.
  - replace (Z.of_nat (S (length rest)) =? 0) with false by lia. wp_step.
    split_and!; try (done || lia). by apply Hr1.
Qed.

(** ** One event *)

(** A connection reads from one channel and writes to another. *)
Definition connected k (fd : Z) (cin cout : chan) : Prop :=
  rd_chan k fd = Some cin ∧ wr_chan k fd = Some cout ∧ cin ≠ cout.

(** From [k] to [k'] the bytes [d] were read and the bytes [p] written. *)
Definition moved_io k k' (cin cout : chan) d p : Prop :=
  content k cin = d ++ content k' cin ∧ content k' cout = content k cout ++ p.

(** While there is something to write, writing is watched. *)
Definition watching c l : Prop :=
  ∃ ev, Socket.io_ (socket_ c) = Some (fd_of c, ev) ∧ (ev = Socket.READ ∨ ev = READ_WRITE)
    ∧ (l ≠ [] → ev = READ_WRITE).

Lemma transfer_connected k k' f fd cin cout :
  transfer k k' f → connected k fd cin cout → connected k' fd cin cout.
Proof. intros (_ & Hr & Hw). unfold connected. by rewrite Hr, Hw. Qed.

Lemma got_io k k' fd cin cout d :
  connected k fd cin cout → got k k' fd d →
  connected k' fd cin cout ∧ content k cin = d ++ content k' cin ∧ content k' cout = content k cout.
Proof.
  intros HC. pose proof HC as (Hr & Hw & Hne). unfold got. rewrite Hr. intros Ht.
  split; [|split; [by apply took_content|]].
  - destruct Ht as (r & _ & Ht). by eapply transfer_connected.
  - destruct Ht as (r & _ & Hc & _). rewrite Hc. by rewrite upd_ne.
Qed.

Lemma wrote_io k k' fd cin cout d :
  connected k fd cin cout → wrote k k' fd d →
  connected k' fd cin cout ∧ content k' cin = content k cin ∧ content k' cout = content k cout ++ d.
Proof.
  intros HC. pose proof HC as (Hr & Hw & Hne). unfold wrote. rewrite Hw. intros Hp.
  split; [by eapply transfer_connected|split; [|by apply put_content]].
  destruct Hp as (Hc & _). rewrite Hc. by rewrite upd_ne.
Qed.

(** The client after an event, with [d] read and [p] written before. *)
Definition echoed N l c (cin cout : chan) w c' w' d p : Prop :=
  fd_of c' = fd_of c ∧ connected (wkern w') (fd_of c) cin cout
  ∧ moved_io (wkern w) (wkern w') cin cout d p
  ∧ ∃ l', (l ++ d = p ++ l' ∨ dropped (N + Z.of_nat (length d)))
    ∧ echo_rep (N + Z.of_nat (length d)) c' l' w' ∧ watching c' l'.

Lemma echo_rep_mono N N' c l w : N <= N' → echo_rep N c l w → echo_rep N' c l w.
Proof. intros HN (? & pre & ? & ?). split; [done|]. exists pre. split; [done|lia]. Qed.

Lemma after_write_watching c rest c' l :
  watching c l → after_write c rest c' → (rest ≠ [] → l ≠ []) → watching c' rest.
Proof.
  intros (ev & Hio & Hev & Hl) (Hfd & _ & H0 & H1) Hne. destruct rest as [|x rest].
  - destruct H0 as [_ H0]; [done|]. exists Socket.READ. rewrite H0, Hfd. naive_solver.
  - exists ev. unfold watching. rewrite H1 by done. split_and!; auto.
Qed.

Lemma event_write N c l w cin cout :
  echo_rep N c l w → watching c l → connected (wkern w) (fd_of c) cin cout →
  wp (on_write c) (λ r w', match r with
    | None => True
    | Some c' => ∃ p, echoed N l c cin cout w c' w' [] p
    end) w.
Proof.
  intros Hr Hwt HC. eapply wp_mono; [by apply on_write_spec|]. intros [c'|] w' H; [|done].
  destruct (sys_write _ _ _) as [[e|n] k1]; [by destruct H|].
  destruct H as (Hn & Hw & <- & Hr' & Ha). destruct (wrote_io _ _ _ _ _ _ HC Hw) as (HC' & Hi & Ho).
  exists (take (Z.to_nat n) l). split; [apply Ha|]. split; [done|]. split; [by split|].
  exists (drop (Z.to_nat n) l). rewrite app_nil_r, take_drop. split; [by left|].
  split; [eapply echo_rep_mono; [|exact Hr']; simpl; lia|].
  eapply after_write_watching; [done..|]. intros Hd ->. by rewrite drop_nil in Hd.
Qed.

Lemma event_read N c l w cin cout :
  echo_rep N c l w → watching c l → connected (wkern w) (fd_of c) cin cout →
  short_read (wkern w) (fd_of c) →
  wp (on_read c) (λ r w', match r.1 with
    | None => True
    | Some c' => ∃ d, echoed N l c cin cout w c' w' d []
    end) w.
Proof.
  intros Hr Hwt HC Hs. eapply wp_mono; [by apply on_read_spec|]. intros [[c'|] st] w' H; [|done].
  simpl in *. destruct H as (d & k1 & Hg & <- & Hfd & Hio & _ & Hrep).
  destruct (got_io _ _ _ _ _ _ HC Hg) as (HC' & Hi & Ho).
  exists d. split; [done|]. split; [done|]. split; [split; [done|by rewrite app_nil_r]|].
  assert (Hw' : ∀ l', watching c' l') by (intros l'; exists READ_WRITE; rewrite Hio, Hfd; auto).
  destruct Hrep as [Hrep|[Hrep Hd]].
  - exists (l ++ d). split_and!; auto.
  - exists l. split_and!; auto. eapply echo_rep_mono; [|exact Hrep]. lia.
Qed.

Lemma echoed_refl N l c cin cout w :
  echo_rep N c l w → watching c l → connected (wkern w) (fd_of c) cin cout →
  echoed N l c cin cout w c w [] [].
Proof.
  intros Hr Hw HC. split; [done|]. split; [done|]. split; [split; [done|by rewrite app_nil_r]|].
  exists l. rewrite app_nil_r. split; [by left|]. split; [|done].
  eapply echo_rep_mono; [|exact Hr]. simpl. lia.
Qed.

Lemma dropped_mono N N' : N <= N' → dropped N → dropped N'.
Proof. intros HN (n & ? & ?). exists n. split; [lia|done]. Qed.

(** Reading and then writing in one event. *)
Lemma echoed_then N l c cin cout w c1 w1 d p l1 c2 w2 d2 p2 :
  fd_of c1 = fd_of c → moved_io (wkern w) (wkern w1) cin cout d p →
  (l ++ d = p ++ l1 ∨ dropped (N + Z.of_nat (length d))) →
  echoed (N + Z.of_nat (length d)) l1 c1 cin cout w1 c2 w2 d2 p2 →
  echoed N l c cin cout w c2 w2 (d ++ d2) (p ++ p2).
Proof.
  intros Hfd [Hi Ho] Hl (Hfd2 & HC2 & [Hi2 Ho2] & l2 & Hl2 & Hr2 & Hw2).
  split; [by rewrite Hfd2|]. split; [by rewrite <- Hfd|].
  split; [split; [by rewrite Hi, Hi2, app_assoc|by rewrite Ho2, Ho, app_assoc]|].
  assert (N + Z.of_nat (length d) + Z.of_nat (length d2) = N + Z.of_nat (length (d ++ d2))) as HN
    by (rewrite length_app; lia). rewrite HN in *.
  exists l2. split; [|done].
  destruct Hl as [Hl|Hl]; [|right; eapply dropped_mono; [|exact Hl]; rewrite length_app; lia].
  destruct Hl2 as [Hl2|Hl2]; [left|by right].
  by rewrite app_assoc, Hl, <- app_assoc, Hl2, app_assoc.
Qed.

(** The handler for any events but a timeout. *)
Lemma handler_spec N c l w re cin cout :
  echo_rep N c l w → watching c l → connected (wkern w) (fd_of c) cin cout →
  (has re Socket.READ = true → short_read (wkern w) (fd_of c)) → has re Socket.TIMEOUT = false →
  wp (handler c re) (λ r w', match r.1 with
    | None => True
    | Some c' => ∃ d p, echoed N l c cin cout w c' w' d p
    end) w.
Proof.
  intros Hr Hwt HC Hs Ht. unfold handler. rewrite Ht. wp_step.
  apply (wp_mono _ (λ r w', match r.1 with
    | None => True | Some c' => ∃ d, echoed N l c cin cout w c' w' d [] end)).
  { destruct (has re Socket.READ); [apply event_read; auto|]. wp_step. exists []. by apply echoed_refl. }
  intros [[c1|] st] w1 H1; [|by wp_step]. cbn [fst] in H1. destruct H1 as (d & H1).
  destruct (has re Socket.WRITE); [|wp_step; by exists d, []].
  pose proof H1 as (Hfd & HC1 & Hm & l1 & Hl & Hr1 & Hw1). wp_step.
  rewrite <- Hfd in HC1. eapply wp_mono; [by eapply event_write|].
  intros [c2|] w2 H2; [|by wp_step]. wp_step. destruct H2 as [p H2]. exists d, p.
  rewrite <- (app_nil_r d). change p with ([] ++ p). by eapply echoed_then.
Qed.

(** ** The whole conversation *)

(** The events of a connection, between which the peer may change the channels
    in any way, with the bytes read and written. *)
Inductive echo_run (cin cout : chan) : Client * world → bytes → bytes → Client * world → Prop :=
| run_done x : echo_run cin cout x [] [] x
| run_peer c w k e R S x :
    connected k (fd_of c) cin cout → echo_run cin cout (c, World (wmem w) k e) R S x →
    echo_run cin cout (c, w) R S x
| run_event c w re c1 st w1 d p R S x :
    has re Socket.TIMEOUT = false → handler c re w = Ok ((Some c1, st), w1) →
    moved_io (wkern w) (wkern w1) cin cout d p → echo_run cin cout (c1, w1) R S x →
    echo_run cin cout (c, w) (d ++ R) (p ++ S) x.

Lemma moved_io_unique k k' cin cout d p d' p' :
  moved_io k k' cin cout d p → moved_io k k' cin cout d' p' → d = d' ∧ p = p'.
Proof.
  intros [H1 H2] [H3 H4]. rewrite H1 in H3. rewrite H2 in H4.
  by apply app_inv_tail in H3; apply app_inv_head in H4.
Qed.

(** A handler that returns has read no more than the array can hold. *)
Lemma handler_short c re w x w' :
  has re Socket.TIMEOUT = false → handler c re w = Ok (x, w') →
  has re Socket.READ = true → short_read (wkern w) (fd_of c).
Proof.
  intros Ht Hh Hre d k' Hk. destruct (Z.ltb_spec (Z.of_nat (length d)) BUFSIZE) as [|Hge]; [done|].
  exfalso. unfold handler in Hh. rewrite Ht, Hre in Hh. erewrite bind_UB in Hh; [done|].
  unfold on_read, read_local, mbind, ST_bind, syscall. rewrite Hk.
  unfold BUFSIZE in *. destruct (Z.ltb_spec 0 (Z.of_nat (length d))); [|lia].
  by destruct (Z.leb_spec 1024 (Z.of_nat (length d))); [|lia].
Qed.

Lemma echo_run_spec cin cout x R S y :
  echo_run cin cout x R S y → ∀ N l,
  connected (wkern x.2) (fd_of x.1) cin cout → echo_rep N x.1 l x.2 → watching x.1 l →
  (∀ n, 0 <= n <= N + Z.of_nat (length R) → ¬ no_memory n) →
  ∃ l', l ++ R = S ++ l' ∧ echo_rep (N + Z.of_nat (length R)) y.1 l' y.2 ∧ watching y.1 l'.
Proof.
  induction 1 as [x|c w k e R S x HC' _ IH|c w re c1 st w1 d p R S x Ht Hh Hm _ IH];
    intros N l HC Hr Hw Hmem; simpl in *.
  - exists l. rewrite app_nil_r. split; [done|]. split; [|done]. eapply echo_rep_mono; [|exact Hr]. lia.
  - by apply (IH N l).
  - pose proof (handler_spec N c l w re cin cout Hr Hw HC (handler_short _ _ _ _ _ Ht Hh) Ht) as H1. unfold wp in H1.
    rewrite Hh in H1. destruct H1 as (d' & p' & Hfd & HC1 & Hm' & l1 & Hl & Hr1 & Hw1).
    destruct (moved_io_unique _ _ _ _ _ _ _ _ Hm Hm') as [<- <-].
    destruct Hl as [Hl|(n & Hn & Hno)].
    2:{ exfalso. apply (Hmem n); [|done]. rewrite length_app. lia. }
    rewrite length_app in *.
    destruct (IH (N + Z.of_nat (length d)) l1) as (l2 & Hl2 & Hr2 & Hw2); auto.
    + by rewrite Hfd.
    + intros n Hn. apply Hmem. lia.
    + exists l2. rewrite (assoc app), Hl, <- !app_assoc, Hl2.
      split; [done|]. split; [|done]. eapply echo_rep_mono; [|exact Hr2]. lia.
Qed.

Lemma new_client socket o c o' (w : world) :
  Echo.new socket o = Ok (c, o') → mem_wf (wmem w) →
  fd_of c = Socket.fd_ socket ∧ close_ c = false ∧ echo_rep 0 c [] w ∧ watching c [].
Proof.
  unfold Echo.new. intros H Hwf. injection H as <- <-. split; [done|]. split; [done|]. split.
  - split; [done|]. exists []. split; [|done]. by split; [apply rep_empty|left|].
  - exists Socket.READ. split; [done|]. split; [by left|done].
Qed.

(** What a client has sent is always the beginning of what it has received, in
    order and without loss or repetition, for all orders of events, all partial
    reads and writes and all doings of the peer; the rest is in its buffer,
    and as long as there is a rest the event loop watches for writing. *)
Theorem echo_fifo socket o c o' w cin cout R S c' w' :
  Echo.new socket o = Ok (c, o') → mem_wf (wmem w) →
  connected (wkern w) (Socket.fd_ socket) cin cout →
  (∀ n, 0 <= n <= Z.of_nat (length R) → ¬ no_memory n) →
  echo_run cin cout (c, w) R S (c', w') →
  ∃ rest, R = S ++ rest ∧ echo_rep (Z.of_nat (length R)) c' rest w' ∧ watching c' rest.
Proof.
  intros Hnew Hwf HC Hmem Hrun. destruct (new_client socket o c o' w Hnew Hwf) as (Hfd & _ & Hr & Hw).
  rewrite <- Hfd in HC. by apply (echo_run_spec _ _ _ _ _ _ Hrun 0 []).
Qed.

(** ** Liveness *)

(** [P] is reached from [x] whatever choices the steps leave. *)
Inductive eventually {A} (step : A → (A → Prop) → Prop) (P : A → Prop) (x : A) : Prop :=
| eventually_done : P x → eventually step P x
| eventually_step (mid : A → Prop) :
    step x mid → (∀ y, mid y → eventually step P y) → eventually step P x.

Lemma eventually_weaken {A} step (P Q : A → Prop) x :
  eventually step P x → (∀ y, P y → Q y) → eventually step Q x.
Proof.
  intros H HPQ. induction H as [x H|x mid Hs _ IH]; [by apply eventually_done, HPQ|].
  by eapply eventually_step.
Qed.

(** The kernel takes at least one of the bytes. *)
Definition writable k (fd : Z) d : Prop := ∃ n k', sys_write fd d k = (inr n, k') ∧ 0 < n.

(** The event loop finds a socket that is watched for writing writable, after
    the peer has done what it likes, and calls the handler; the bytes that the
    handler sends are added to those sent before. *)
Definition write_round (cin cout : chan) (x : option Client * world * bytes)
    (mid : option Client * world * bytes → Prop) : Prop :=
  match x with
  | (Some c, w, sn) =>
      Socket.io_ (socket_ c) = Some (fd_of c, READ_WRITE)
      ∧ ∀ k e, connected k (fd_of c) cin cout →
          (∀ N l, echo_rep N c l w → writable k (fd_of c) l) →
          wp (handler c Socket.WRITE) (λ r w',
            ∀ p, moved_io k (wkern w') cin cout [] p → mid (r.1, w', sn ++ p))
            (World (wmem w) k e)
  | (None, _, _) => False
  end.

(** All of the bytes have been sent, and the client waits for more. *)
Definition drained N c l sn (y : option Client * world * bytes) : Prop :=
  match y with
  | (Some c', w', sn') => sn' = sn ++ l ∧ echo_rep N c' [] w'
      ∧ Socket.io_ (socket_ c') = Some (fd_of c, Socket.READ)
  | _ => False
  end.

Lemma write_round_progress N c l w sn cin cout :
  echo_rep N c l w → watching c l → close_ c = false → l ≠ [] →
  write_round cin cout (Some c, w, sn) (λ y, ∃ c' w' p l', y = (Some c', w', sn ++ p)
    ∧ l = p ++ l' ∧ p ≠ [] ∧ echo_rep N c' l' w' ∧ fd_of c' = fd_of c ∧ close_ c' = false
    ∧ (l' ≠ [] → watching c' l') ∧ (l' = [] → Socket.io_ (socket_ c') = Some (fd_of c, Socket.READ))).
Proof.
  intros Hr Hw Hcl Hl. split.
  { destruct Hw as (ev & Hio & _ & Hev). by rewrite Hio, Hev. }
  intros k e HC Hwr. destruct (Hwr N l Hr) as (n & k' & Hk & Hn). unfold handler.
  change (has Socket.WRITE Socket.TIMEOUT) with false. change (has Socket.WRITE Socket.READ) with false.
  change (has Socket.WRITE Socket.WRITE) with true. cbv iota. wp_step. wp_step. wp_step.
  eapply wp_mono; [apply (on_write_spec N c l); exact Hr|]. cbn [wkern]. rewrite Hk.
  intros r w' (_ & Hwrote & H). wp_step. intros p [_ Hp]. destruct r as [c'|]; [|destruct H; congruence].
  destruct H as (Hk' & Hr' & Ha). pose proof Ha as (Hfd & Hc & H0 & H1).
  destruct (wrote_io _ _ _ _ _ _ HC Hwrote) as (_ & _ & Ho). rewrite Hk', Ho in Hp.
  apply app_inv_head in Hp as <-. exists c', w', (take (Z.to_nat n) l), (drop (Z.to_nat n) l).
  split; [done|]. split; [by rewrite take_drop|]. split.
  { intros E. destruct l; [done|]. by replace (Z.to_nat n) with (S (Z.to_nat n - 1)) in E by lia. }
  split; [done|]. split; [done|]. split; [congruence|]. split; [|naive_solver].
  intros Hd. eapply after_write_watching; eauto.
Qed.

(** C17: Whatever is in a client's buffer is sent, after finitely many rounds in
    which the socket is writable, however little the kernel takes in each. *)
Theorem echo_drains N c l w sn cin cout :
  echo_rep N c l w → watching c l → close_ c = false → l ≠ [] →
  eventually (write_round cin cout) (drained N c l sn) (Some c, w, sn).
Proof.
  remember (length l) as len eqn:Hlen. revert c l w sn Hlen.
  induction (lt_wf len) as [len _ IH]. intros c l w sn -> Hr Hw Hcl Hl.
  eapply eventually_step; [by apply (write_round_progress N c l)|].
  intros y (c' & w' & p & l' & -> & -> & Hp & Hr' & Hfd & Hcl' & Hw' & Hio).
  destruct (decide (l' = [])) as [->|Hne].
  { apply eventually_done. rewrite app_nil_r. split_and!; auto. }
  assert (Hlt : (length l' < length (p ++ l'))%nat) by (rewrite length_app; destruct p; [done|simpl; lia]).
  pose proof (IH (length l') Hlt c' l' w' (sn ++ p) eq_refl Hr' (Hw' Hne) Hcl' Hne) as Hev.
  eapply eventually_weaken; [exact Hev|]. intros [[[c2|] w2] sn2]; [|done].
  unfold drained. by rewrite Hfd, (assoc app).
Qed.

(** ** Deviations *)

(** A read that fills the array makes the handler write its terminator behind
    the array. *)
Theorem echo_read_overflow c w d k' :
  sys_read (fd_of c) BUFSIZE (wkern w) = (inr d, k') → Z.of_nat (length d) = BUFSIZE →
  on_read c w = UB.
Proof.
  intros Hk Hd. unfold on_read, read_local, mbind, ST_bind, syscall. rewrite Hk, Hd. done.
Qed.

(** What the comparison with the command ".." amounts to, for [d] of [n] bytes
    that holds no NUL: the last two bytes are left out, so that the comparison
    is over two characters only for four bytes, over one for three and over
    none for two. *)
Definition stops d : bool :=
  match d with
  | [_; _] => true
  | [a; _; _] => bool_decide (a = Byte.x2e)
  | [a; b; _; _] => bool_decide (a = Byte.x2e) && bool_decide (b = Byte.x2e)
  | _ => false
  end.

Lemma strncmp_step n x y (a b : bytes) :
  x ≠ NUL → strncmp_eq (S n) (x :: a) (y :: b)
            = if bool_decide (x = y) then strncmp_eq n a b else Some false.
Proof.
  intros Hx. cbn [strncmp_eq]. case_bool_decide; cbn [negb]; [|done]. by rewrite bool_decide_eq_false_2.
Qed.

Lemma strncmp_ne n x y (a b : bytes) : x ≠ y → strncmp_eq (S n) (x :: a) (y :: b) = Some false.
Proof. intros Hx. cbn [strncmp_eq]. by rewrite bool_decide_eq_false_2. Qed.

(** The number of characters compared: enormous for one byte. *)
Lemma compared n : (3 <= n)%nat → Z.of_nat n < 2 ^ 32 → Z.to_nat (u64 (Z.of_nat n - 2)) = (n - 2)%nat.
Proof. intros. rewrite u64_small by zlia. lia. Qed.

(** The commands that a message is taken for: ".." stops the server, but so
    does every message of two bytes, such as an empty line, and every message
    of three bytes that starts with a dot, among them the command "." itself;
    that one is only recognised without the end of the line. *)
Theorem echo_commands_exact c d w :
  NUL ∉ d → (0 < length d)%nat → Z.of_nat (length d) < BUFSIZE →
  commands c (d ++ [NUL]) (Z.of_nat (length d)) w
  = Ok (if stops d then (Some (close c), true)
        else (Some (if bool_decide (d = [Byte.x2e]) then close c else c), false), w).
Proof.
  intros Hnul Hpos Hlen. unfold BUFSIZE in Hlen.
  assert (Hx : ∀ x, x ∈ d → x ≠ NUL) by (intros x Hx ->; done).
  unfold commands. change (bs ".." ++ [NUL]) with [Byte.x2e; Byte.x2e; NUL].
  change (bs "." ++ [NUL]) with [Byte.x2e; NUL].
  destruct d as [|x0 [|x1 [|x2 d]]]; [simpl in Hpos; lia|..].
  - replace (Z.to_nat (u64 (Z.of_nat (length [x0]) - 2))) with (S (S (Z.to_nat (2 ^ 64 - 3))))
      by (unfold wrapu; simpl length; change ((Z.of_nat 1 - 2) mod 2 ^ 64) with (2 ^ 64 - 1); lia).
    cbn [app]. assert (x0 ≠ NUL) by (apply Hx; left). cbn [stops].
    destruct (decide (x0 = Byte.x2e)) as [->|Hne].
    + rewrite !(strncmp_step _ Byte.x2e), bool_decide_eq_true_2 by done.
      by rewrite (strncmp_ne _ NUL Byte.x2e), bool_decide_eq_true_2.
    + rewrite !strncmp_ne by done. rewrite bool_decide_eq_false_2 by congruence. done.
  - done.
  - pose proof (Hx x0 ltac:(left)). pose proof (Hx x1 ltac:(right; left)).
    pose proof (Hx x2 ltac:(right; right; left)).
    rewrite (compared (length (x0 :: x1 :: x2 :: d))) by (simpl in *; lia).
    rewrite (bool_decide_eq_false_2 (x0 :: _ = [_])) by done.
    destruct (decide (x0 = Byte.x2e)) as [->|Hne].
    2:{ cbn [length Nat.sub app]. rewrite !strncmp_ne by done.
        destruct d as [|x3 [|x4 d]]; cbn [stops]; rewrite ?(bool_decide_eq_false_2 (x0 = _)) by done;
          done. }
    destruct d as [|x3 d]; [done|]. cbn [length Nat.sub app].
    rewrite !(strncmp_step _ Byte.x2e) by done. rewrite bool_decide_eq_true_2 by done.
    rewrite (strncmp_ne _ x1 NUL) by done.
    destruct (decide (x1 = Byte.x2e)) as [->|Hne].
    2:{ rewrite strncmp_ne by done. destruct d; cbn [stops];
          rewrite ?(bool_decide_eq_false_2 (x1 = _)), ?andb_false_r by done; done. }
    rewrite strncmp_step, bool_decide_eq_true_2 by done.
    destruct d as [|x4 d]; [done|]. cbn [length stops]. by rewrite strncmp_ne.
Qed.

(** After a write of a part of the buffer the timer stays off, since only a
    call of [watch] would start it again: a peer that stops reading is never
    timed out. *)
Theorem echo_partial_write_untimed {os : OS} N c l w o re n k1 :
  Socket.state_ (socket_ c) = Socket.Operational → Socket.handler_ (socket_ c) = Some HANDLER →
  echo_rep N c l w → sys_write (fd_of c) l (wkern w) = (inr n, k1) → n < Z.of_nat (length l) →
  ∃ s1, Socket.io (socket_ c) re o = Ok ((Socket.Call HANDLER re, s1), o)
    ∧ wp (handler (mkClient s1 (writeBuffer_ c) (close_ c) (chunks c)) Socket.WRITE) (λ r _,
        ∃ c', r.1 = Some c' ∧ socket_ c' = s1 ∧ Socket.timer_ s1 = None) w.
Proof.
  intros Hst Hh Hr Hk Hn. eexists. split.
  { unfold Socket.io. simpl. by rewrite Hst, Hh. }
  unfold handler. change (has Socket.WRITE Socket.TIMEOUT) with false.
  change (has Socket.WRITE Socket.READ) with false. change (has Socket.WRITE Socket.WRITE) with true.
  cbv iota. wp_step. wp_step. wp_step. eapply wp_mono; [apply (on_write_spec N _ l); exact Hr|].
  simpl. rewrite Hk. intros r w' (Hpos & _ & H). wp_step.
  assert (Hne : drop (Z.to_nat n) l ≠ []).
  { intros E%(f_equal length). rewrite length_drop in E. simpl in E. lia. }
  destruct r as [c'|]; [|by destruct H]. destruct H as (_ & _ & _ & _ & _ & H1).
  exists c'. by rewrite H1.
Qed.
End echo.

(** ** The server object *)
Section echo_server.
Context {os : OS} {T : InetText}.
Import Echo.

(** The destructor of a listening socket returns its descriptor. *)
Lemma server_destroy_spec x s :
  0 <= fd_ x → wp (ServerSocket.destroy x) (λ _ s', environ s' = environ s
    ∧ live (history s') = live (history s) ∖ {[fd_ x]}) s.
Proof.
  intros Hx. unfold ServerSocket.destroy. set (y := if active x then _ else x).
  assert (Hy : fd_ y = fd_ x) by (subst y; destruct (active x); [apply stop_spec|done]).
  unfold ServerSocket.isOpen. replace (0 <=? fd_ y) with true by lia. wp_step.
  eapply wp_mono; [apply close_spec|]. unfold ServerSocket.isOpen. rewrite Hy.
  replace (0 <=? fd_ x) with true by lia. intros x' s' (_ & _ & E & L). by wp_step.
Qed.

(** A set-up server listens with one descriptor, and gives it back when it is
    destroyed; a set-up that fails leaves none behind. *)
Theorem echo_server_life junk s :
  FreshFds → nothing_passed s →
  family_ (IPAddress.new_text junk (bs "0.0.0.0") 0) = AF_INET →
  wp (setup new_server junk) (λ r s', if r.1
    then ∃ inet, listener_ r.2 = Some inet ∧ active (InetServer.server inet) = true
         ∧ live (history s') = {[fd_ (InetServer.server inet)]} ∪ live (history s)
         ∧ wp (r ← stop r.2; destroy_server r) (λ _ s'', same_fds s s'') s'
    else r.2 = new_server ∧ same_fds s s') s.
Proof.
  intros HF Hn Hfam. unfold setup. wp_step.
  eapply wp_mono; [by apply open_spec|]. intros [[] i] s1 [He H]; simpl in *.
  - destruct H as (Hfd & Ha & Hnew & Hl). wp_step. exists i. do 3 (split; [done|]).
    unfold stop, destroy_server. simpl. wp_step. wp_step. simpl.
    destruct (stop_spec (InetServer.server i)) as [Hs _].
    eapply wp_mono; [apply server_destroy_spec; by rewrite Hs|]. rewrite Hs.
    intros _ s2 [E2 L2]. split; [|congruence]. rewrite L2, Hl. set_solver.
  - destruct H as (Hfd & Ha & Hl). wp_step. unfold ServerSocket.destroy, ServerSocket.isOpen.
    rewrite Ha. replace (0 <=? _) with false by lia. wp_step. wp_step. wp_step. wp_step. by split.
Qed.
End echo_server.
