(* ===== verification/File.v ===== *)
(** * File (include/xio/File.h, lib/File.cpp, lib/FileStream.cpp)

    A file on disk with the inotify watch that is to keep its cached data
    fresh, and the stream over an open file.  The process has one inotify
    instance, [inotifier]; the watches that it holds are read off the dialogue
    with the system. *)

From Stdlib Require Import QArith.
From S2P Require Import Prelude Memory BufferBase BufferParse MutableBuffer Libc Kernel Os.
From S2P Require Import SdDaemon Server Time.

Local Open Scope Z_scope.

(** ** FileStream *)
Module FileStream.
Record FileStream : Type := mkFile { file_fd : Z }.

Section ops.
Context `{Kernel} {os : OS}.

(** [~FileStream()] *)
Definition destroy (s : FileStream) : OM () :=
  if 0 <=? file_fd s then invoke (Close (file_fd s));; mret () else mret ().

(** [st_size] is converted to [size_t]. *)
Definition size (s : FileStream) : OM Z :=
  r ← invoke (Fstat (file_fd s));
  mret match r with None => 0 | Some st => u64 (rsize st) end.

Definition handle (s : FileStream) : Z := file_fd s.
Definition read (s : FileStream) (buf : ptr) (n : Z) : WW Z := Kernel.read (file_fd s) buf n.
Definition write (s : FileStream) (buf : ptr) (n : Z) : WW Z := Kernel.write (file_fd s) buf n.

(** The transfers that are still to be written return -1. *)
Definition read_buffer (s : FileStream) (result : MutableBuffer) (n : Z) : WW Z := mret (-1).
Definition read_socket (s : FileStream) (socket n : Z) : WW Z := mret (-1).
Definition read_pipe (s : FileStream) (pipe n : Z) : WW Z := mret (-1).
Definition read_fd (s : FileStream) (fd n : Z) : WW Z := mret (-1).
Definition read_char (s : FileStream) : WW Z := mret (-1).
Definition write_socket (s : FileStream) (socket n : Z) (move : bool) : WW Z := mret (-1).
Definition write_pipe (s : FileStream) (pipe n : Z) (move : bool) : WW Z := mret (-1).
Definition write_fd (s : FileStream) (fd n : Z) : WW Z := mret (-1).
End ops.
End FileStream.

(** ** The process's inotify instance *)
Module Inotify.
Definition IN_NONBLOCK : Z := 2048.
Definition IN_CLOEXEC : Z := 524288.

(** [io_] is the watcher of the event loop: [None] before [init]. *)
Record Inotify : Type := mkInotify { handle_ : Z; io_ : option bool }.

Section ops.
Context {os : OS}.

Definition new : OM Inotify :=
  h ← invoke_int (InotifyInit (Z.lor IN_NONBLOCK IN_CLOEXEC)); mret (mkInotify h None).

Definition destroy (x : Inotify) : OM () := invoke (Close (handle_ x));; mret ().

Definition add (x : Inotify) (path : bytes) (mode : Z) : OM Z :=
  invoke_int (InotifyAddWatch (handle_ x) path mode).

Definition remove (x : Inotify) (wd : Z) : OM () :=
  invoke (InotifyRmWatch (handle_ x) wd);; mret ().

Definition handle (x : Inotify) : Z := handle_ x.
Definition init (x : Inotify) : Inotify := mkInotify (handle_ x) (Some true).

(** Stopping a watcher that does not exist is a null dereference. *)
Definition deinit (x : Inotify) : OM Inotify :=
  match io_ x with
  | None => ub
  | Some _ => mret (mkInotify (handle_ x) None)
  end.
End ops.
End Inotify.

(** ** File *)
Module File.
Definition IN_MODIFY : Z := 2.
Definition IN_MOVED_FROM : Z := 64.
Definition IN_MOVED_TO : Z := 128.
Definition IN_MOVE_SELF : Z := 2048.
Definition WATCHED : Z :=
  Z.lor IN_MODIFY (Z.lor IN_MOVE_SELF (Z.lor IN_MOVED_FROM IN_MOVED_TO)).

Definition S_IFDIR : Z := 16384.   (* 0040000 *)
Definition S_IFREG : Z := 32768.   (* 0100000 *)
Definition S_IXANY : Z := 73.      (* 0111 *)

(** The members of [stat_] that are read. *)
Record File : Type := mkFile {
  path_ : bytes;
  st_mode : Z; st_size : Z; st_mtime : Z; st_ino : Z;
  errno_ : Z;
  inotify_ : Z;
  cachedAt_ : DateTime.DateTime;
  etag_ : bytes; mtime_ : bytes; mimetype_ : bytes;
}.

Definition set_inotify (wd : Z) (f : File) : File :=
  mkFile (path_ f) (st_mode f) (st_size f) (st_mtime f) (st_ino f) (errno_ f) wd
    (cachedAt_ f) (etag_ f) (mtime_ f) (mimetype_ f).

Section ops.
Context {os : OS} (inotifier : Inotify.Inotify).

(** [now] is the clock that [DateTime()] reads. *)
Definition new (path : bytes) (now : DateTime.DateTime) : File :=
  mkFile path 0 0 0 0 0 (-1) now [] [] [].

(** [File::init(loop)] and [File::deinit()] *)
Definition init : Inotify.Inotify := Inotify.init inotifier.
Definition deinit : OM Inotify.Inotify := Inotify.deinit inotifier.

Definition filename (f : File) : bytes := path_ f.
Definition path (f : File) : bytes := path_ f.
Definition error (f : File) : Z := errno_ f.
Definition exists_ (f : File) : bool := errno_ f =? 0.
Definition isDirectory (f : File) : bool := Z.land (st_mode f) S_IFMT =? S_IFDIR.
Definition isRegular (f : File) : bool := Z.land (st_mode f) S_IFMT =? S_IFREG.
Definition isExecutable (f : File) : bool := has (st_mode f) S_IXANY.
Definition size (f : File) : Z := u64 (st_size f).
Definition mtime (f : File) : Z := st_mtime f.
Definition etag (f : File) : bytes := etag_ f.
Definition lastModified (f : File) : bytes := mtime_ f.
Definition mimetype (f : File) : bytes := mimetype_ f.

(** The test is for a negative watch. *)
Definition updateCache (f : File) : OM (bool * File) :=
  (if inotify_ f <? 0 then Inotify.remove inotifier (inotify_ f) else mret ());;
  wd ← Inotify.add inotifier (path_ f) WATCHED;
  mret (false, set_inotify wd f).

Definition clearCache (f : File) : OM File :=
  if negb (inotify_ f =? -1) then
    Inotify.remove inotifier (inotify_ f);; mret (set_inotify (-1) f)
  else mret f.

(** [~File()] *)
Definition destroy (f : File) : OM File :=
  if negb (inotify_ f =? -1) then
    Inotify.remove inotifier (inotify_ f);; mret (set_inotify (-1) f)
  else mret f.

Definition open (f : File) (flags : Z) : OM (option FileStream.FileStream) :=
  fd ← invoke_int (OpenFile (path_ f) flags);
  if fd <? 0 then mret None else mret (Some (FileStream.mkFile fd)).
End ops.
End File.

(** ** Watches that the process holds *)
Section watches.
Context {os : OS} (x : Inotify.Inotify).
Import File.
Implicit Types (s : os_state) (h : list event) (f : File).

(** [inotify_add_watch(2)]: watch descriptors are positive. *)
Class WatchOs : Prop :=
  watch_pos : ∀ h fd p m r, answer h (InotifyAddWatch fd p m) = inr r → 0 < rval r.

(** The watches that a dialogue has added to the instance and not removed;
    after [inotify_rm_watch] a watch is gone, also when the call says that it
    was gone before. *)
Fixpoint watches h : gset Z :=
  match h with
  | [] => ∅
  | (InotifyAddWatch fd _ _, inr r) :: h =>
      if fd =? Inotify.handle_ x then {[rval r]} ∪ watches h else watches h
  | (InotifyRmWatch fd wd, _) :: h =>
      if fd =? Inotify.handle_ x then watches h ∖ {[wd]} else watches h
  | _ :: h => watches h
  end.

Lemma remove_spec wd s :
  wp (Inotify.remove x wd) (λ _ s',
    watches (history s') = watches (history s) ∖ {[wd]} ∧ same_fds s s') s.
Proof.
  unfold Inotify.remove. os_step.
  apply wp_invoke; intros r _; os_step; simpl; rewrite Z.eqb_refl; by split.
Qed.

Lemma add_spec path mode s :
  wp (Inotify.add x path mode) (λ wd s', same_fds s s' ∧
    match answer (history s) (InotifyAddWatch (Inotify.handle_ x) path mode) with
    | inr r => wd = rval r ∧ watches (history s') = {[wd]} ∪ watches (history s)
    | inl _ => wd = -1 ∧ watches (history s') = watches (history s)
    end) s.
Proof.
  unfold Inotify.add. apply wp_invoke_int; intros r ->; simpl; [by split|].
  rewrite Z.eqb_refl. by split_and!.
Qed.

(** A file's watch and those of [W] are all that is held. *)
Definition file_inv (W : gset Z) f s : Prop :=
  watches (history s) ⊆ W ∪ {[inotify_ f]} ∧ (inotify_ f = -1 → watches (history s) ⊆ W).

Lemma clearCache_spec W f s :
  file_inv W f s →
  wp (clearCache x f) (λ f' s', inotify_ f' = -1 ∧ watches (history s') ⊆ W ∧ same_fds s s') s.
Proof.
  intros [HW H0]. unfold clearCache. destruct (Z.eqb_spec (inotify_ f) (-1)) as [E|E]; cbn [negb].
  - os_step. split_and!; auto using same_fds_refl.
  - os_step. eapply wp_mono; [apply remove_spec|]. intros _ s1 [H1 Hs]. os_step.
    split_and!; [done| |done]. rewrite H1. set_solver.
Qed.

Lemma updateCache_spec W f s :
  WatchOs → watches (history s) ⊆ W →
  wp (updateCache x f) (λ r s', r.1 = false ∧ file_inv W r.2 s' ∧ same_fds s s') s.
Proof.
  intros HO HW. unfold updateCache. os_step.
  apply (wp_mono _ (λ _ s', watches (history s') ⊆ W ∧ same_fds s s')).
  { destruct (inotify_ f <? 0); [|os_step; auto using same_fds_refl].
    eapply wp_mono; [apply remove_spec|]. intros _ s1 [H1 Hs]. split; [|done]. rewrite H1. set_solver. }
  intros _ s1 [H1 Hs1]. os_step. eapply wp_mono; [apply add_spec|]. intros wd s2 [Hs2 H2]. os_step.
  split; [done|]. split; [|exact (same_fds_trans _ _ _ Hs1 Hs2)].
  unfold file_inv. cbn [snd set_inotify inotify_].
  destruct (answer _ _) as [e|r] eqn:Ha; destruct H2 as [-> H2]; rewrite H2; [set_solver|].
  apply watch_pos in Ha. split; [set_solver|lia].
Qed.

(** The uses of a file that change it: refreshing it when it has no watch, and
    dropping the watch. *)
Inductive file_step : File * os_state → File * os_state → Prop :=
| step_update f s b f' s' :
    inotify_ f = -1 → updateCache x f s = Ok ((b, f'), s') → file_step (f, s) (f', s')
| step_clear f s f' s' :
    clearCache x f s = Ok (f', s') → file_step (f, s) (f', s').

Lemma file_step_inv W c c' :
  WatchOs → file_step c c' → file_inv W c.1 c.2 → file_inv W c'.1 c'.2 ∧ same_fds c.2 c'.2.
Proof.
  intros HO Hst Hi. destruct Hst as [f s b f' s' E H|f s f' s' H]; simpl in *.
  - pose proof (updateCache_spec W f s HO (proj2 Hi E)) as Hu. unfold wp in Hu. rewrite H in Hu.
    by destruct Hu as (_ & ? & ?).
  - pose proof (clearCache_spec W f s Hi) as Hc. unfold wp in Hc. rewrite H in Hc.
    destruct Hc as (E & Hw & ?). split; [|done]. split; [set_solver|done].
Qed.

Lemma file_life_inv W c c' :
  WatchOs → rtc file_step c c' → file_inv W c.1 c.2 → file_inv W c'.1 c'.2 ∧ same_fds c.2 c'.2.
Proof.
  intros HO Hst. induction Hst as [c|c c1 c2 H1 _ IH]; intros Hi; [auto using same_fds_refl|].
  destruct (file_step_inv W _ _ HO H1 Hi) as [Hi1 S1]. destruct (IH Hi1) as [Hi2 S2].
  split; [done|exact (same_fds_trans _ _ _ S1 S2)].
Qed.

(** A file that is refreshed only while it has no watch leaves no watch and no
    descriptor behind when it is destroyed, after any sequence of calls. *)
Theorem file_life_no_leak path now s0 f s :
  WatchOs → rtc file_step (new path now, s0) (f, s) →
  wp (destroy x f) (λ f' s', inotify_ f' = -1
    ∧ watches (history s') ⊆ watches (history s0) ∧ same_fds s0 s') s.
Proof.
  intros HO Hst. apply (file_life_inv (watches (history s0))) in Hst as [Hi Hs];
    [|done|split; simpl; set_solver].
  eapply wp_mono; [exact (clearCache_spec _ _ _ Hi)|]. intros f' s' (? & ? & Hs').
  split_and!; [done..|exact (same_fds_trans _ _ _ Hs Hs')].
Qed.

(** A file that is refreshed while it has the watch [w] keeps [w] for ever when
    the path has come to name another file, with another watch: the test
    before the removal is the wrong way round, and nothing refers to [w] any
    more. *)
Theorem file_update_leaks f s r :
  0 <= inotify_ f → inotify_ f ∈ watches (history s) →
  answer (history s) (InotifyAddWatch (Inotify.handle_ x) (path_ f) WATCHED) = inr r →
  rval r ≠ inotify_ f →
  wp ('(_, f') ← updateCache x f; destroy x f') (λ f' s',
    inotify_ f' = -1 ∧ inotify_ f ∈ watches (history s')) s.
Proof.
  intros Hpos Hin Ha Hne. unfold updateCache. replace (inotify_ f <? 0) with false by lia.
  os_step. os_step. os_step. os_step. eapply wp_mono; [apply add_spec|].
  rewrite Ha. intros wd s1 (_ & -> & H1). os_step. unfold destroy. cbn [set_inotify inotify_].
  destruct (Z.eqb_spec (rval r) (-1)); cbn [negb].
  - os_step. split; [done|]. set_solver.
  - os_step. eapply wp_mono; [apply remove_spec|]. intros _ s2 [H2 _]. os_step.
    split; [done|]. rewrite H2, H1. set_solver.
Qed.
End watches.

(** [open] gives a stream exactly when the system opens the file; destroying
    the stream gives the descriptor back. *)
Theorem file_open_close {os : OS} f flags s :
  FreshFds →
  wp (File.open f flags) (λ r s', match r with
    | None => same_fds s s' ∧ ∃ e, answer (history s) (OpenFile (File.path_ f) flags) = inl e
    | Some fs => live (history s') = {[FileStream.handle fs]} ∪ live (history s)
        ∧ wp (FileStream.destroy fs) (λ _ s'', same_fds s s'') s'
    end) s.
Proof.
  intros HF. unfold File.open. os_step. apply wp_invoke_int; intros r Hr.
  - change (-1 <? 0) with true. os_step. split; [by split|eauto].
  - destruct (open_fresh _ _ _ _ Hr) as [Hpos Hnew]. replace (rval r <? 0) with false by lia.
    os_step. simpl. split; [done|]. unfold FileStream.destroy. simpl.
    replace (0 <=? rval r) with true by lia. os_step.
    apply wp_invoke; intros x _; os_step; (split; simpl; [set_solver|done]).
Qed.
