(* ===== verification/FileMgr.v ===== *)
(** * FileMgr (include/xio/FileMgr.h, lib/FileMgr.cpp)

    The cache of file information: looking a path up, telling its mime type
    and its entity tag, and dropping entries when they expire or when inotify
    reports a change.  lib/FileMgr.cpp still has the class under its old names
    (FileInfoService, FileInfo); its data are those of [File].

    What the sources only refer to is a parameter: the constructor of FileInfo,
    which calls stat, the tokenizer and read_file of x0, and the rounding of
    doubles.  The macro HAVE_SYS_INOTIFY_H is the parameter [have_inotify];
    lib/FileMgr.cpp undefines it, so that [false] is the build as it is. *)

From Stdlib Require Import QArith.
From S2P Require Import Prelude Memory BufferBase BufferParse MutableBuffer Libc Kernel Os.
From S2P Require Import SdDaemon Server Time File.

Local Open Scope Z_scope.

#[global] Instance byte_countable : Countable byte.
Proof.
  refine (inj_countable' (λ b, Z.to_N (uchar b)) (λ n, byte_of_Z (Z.of_N n)) _).
  by intros [].
Defined.

(** Little-endian integers in memory. *)
Fixpoint le_bytes (n : nat) (z : Z) : bytes :=
  match n with O => [] | S n => byte_of_Z z :: le_bytes n (z / 256) end.
Definition le_val (l : bytes) : Z := foldr (λ b z, uchar b + 256 * z) 0 l.

(** [std::string::find_last_of] of one character, or [npos]. *)
Fixpoint last_pos (c : byte) (l : bytes) (i : Z) : option Z :=
  match l with
  | [] => None
  | b :: l => match last_pos c l (i + 1) with
              | Some j => Some j
              | None => if bool_decide (b = c) then Some i else None
              end
  end.
Definition find_last_of (l : bytes) (c : byte) : Z := default SIZE_MAX (last_pos c l 0).

Module FileMgr.
Import File.

Record Config : Type := mkConfig {
  etagConsiderMtime : bool;
  etagConsiderSize : bool;
  etagConsiderInode : bool;
  mimetypes : gmap bytes bytes;
  defaultMimetype : bytes;
  cacheTTL_ : Z;
}.

(** [Config()] *)
Definition Config_new : Config := mkConfig true true false ∅ (bs "text/plain") 10.

Definition set_mimetypes (t : gmap bytes bytes) (c : Config) : Config :=
  mkConfig (etagConsiderMtime c) (etagConsiderSize c) (etagConsiderInode c) t
    (defaultMimetype c) (cacheTTL_ c).

(** The columns of a line: a type and the extensions that have it. *)
Definition load_line (t : gmap bytes bytes) (columns : list bytes) : gmap bytes bytes :=
  match columns with
  | (c :: _) as mime :: exts =>
      if negb (bool_decide (c = Byte.x23)) then foldl (λ t e, <[e := mime]> t) t exts else t
  | _ => t
  end.

(** [read_file], [tokenize] and [trim] are x0's. *)
Definition loadMimetypes (read_file : bytes → bytes) (tokenize : bytes → bytes → list bytes)
    (trim : bytes → bytes) (c : Config) (filename : bytes) : Config :=
  let lines := tokenize (read_file filename) [Byte.x0a] in
  let columns line := tokenize (trim line) [Byte.x20; Byte.x09] in
  set_mimetypes (foldl load_line ∅ (columns <$> lines)) c.

Record FileMgr : Type := mkMgr {
  handle_ : Z;
  inotify_io : bool;            (* the watcher is started *)
  inotifies_ : gmap Z File;
  cache_ : gmap bytes File;
}.

Definition set_cache (c : gmap bytes File) (m : FileMgr) : FileMgr :=
  mkMgr (handle_ m) (inotify_io m) (inotifies_ m) c.
Definition set_inotifies (w : gmap Z File) (m : FileMgr) : FileMgr :=
  mkMgr (handle_ m) (inotify_io m) w (cache_ m).

Definition set_mimetype (t : bytes) (f : File) : File :=
  File.mkFile (path_ f) (st_mode f) (st_size f) (st_mtime f) (st_ino f) (errno_ f) (inotify_ f)
    (cachedAt_ f) (etag_ f) (mtime_ f) t.
Definition set_etag (t : bytes) (f : File) : File :=
  File.mkFile (path_ f) (st_mode f) (st_size f) (st_mtime f) (st_ino f) (errno_ f) (inotify_ f)
    (cachedAt_ f) t (mtime_ f) (mimetype_ f).

Definition size (m : FileMgr) : Z := Z.of_nat (base.size (cache_ m)).
Definition empty (m : FileMgr) : bool := bool_decide (cache_ m = ∅).

(** ** Mime type and entity tag *)

(** The loop over the extension: trailing '~' are cut off until the type is
    known. *)
Fixpoint mimetype_loop (c : Config) (fuel : nat) (ext : bytes) : outcome bytes :=
  match fuel with
  | O => NoFuel
  | S fuel =>
      if bool_decide (ext = []) then Ok (defaultMimetype c)
      else match mimetypes c !! ext with
      | Some t => Ok t
      | None =>
          if negb (bool_decide (last ext = Some Byte.x7e)) then Ok (defaultMimetype c)
          else mimetype_loop c fuel (removelast ext)
      end
  end.

Definition get_mimetype (c : Config) (filename : bytes) : outcome bytes :=
  let ndot := find_last_of filename Byte.x2e in
  let nslash := find_last_of filename Byte.x2f in
  if negb (ndot =? SIZE_MAX) && (nslash <? ndot) then
    let ext := drop (Z.to_nat (ndot + 1)) filename in
    mimetype_loop c (S (length ext)) ext
  else Ok (defaultMimetype c).

(** [if (count++) sstr << '-'; sstr << text;] *)
Definition etag_part (consider : bool) (text : bytes) (st : Z * bytes) : Z * bytes :=
  if consider then
    (st.1 + 1, st.2 ++ (if negb (st.1 =? 0) then [Byte.x2d] else []) ++ text)
  else st.

Definition make_etag (c : Config) (f : File) : bytes :=
  let st := (0, [Byte.x22]) in
  let st := etag_part (etagConsiderMtime c) (fmt_d (st_mtime f)) st in
  let st := etag_part (etagConsiderSize c) (fmt_d (st_size f)) st in
  let st := etag_part (etagConsiderInode c) (fmt_u (st_ino f)) st in
  st.2 ++ [Byte.x22].

(** ** The cache *)
Section ops.
Context {os : OS} (have_inotify : bool) (round : Q → Q) (config : Config).
(** [new FileInfo( *this, filename)] at the time [now]. *)
Context (newFileInfo : Q → bytes → OM File).

(** Errors while setting the flags are only reported. *)
Definition new : OM FileMgr :=
  if have_inotify then
    h ← invoke_int (InotifyInit 0);
    if negb (h =? -1) then
      fl ← invoke_int (Getfl h);
      invoke (Setfl h (Z.lor fl O_NONBLOCK));;
      fd ← invoke_int (Getfd h);
      invoke (Setfd h (Z.lor fd FD_CLOEXEC));;
      mret (mkMgr h true ∅ ∅)
    else mret (mkMgr h false ∅ ∅)
  else mret (mkMgr (-1) false ∅ ∅).

Definition destroy (m : FileMgr) : OM () :=
  if have_inotify && negb (handle_ m =? -1) then invoke (Close (handle_ m));; mret ()
  else mret ().

(** [now] is [ev_now(loop_)]; the sum of doubles rounds. *)
Definition isValid (f : File) (now : Q) : bool :=
  (0 <? inotify_ f) || negb (Qle_bool (round (cachedAt_ f + inject_Z (cacheTTL_ config))) now).

(** The name without one trailing slash; the last character of an empty name
    is read out of bounds. *)
Definition strip (name : bytes) : option bytes :=
  match last name with
  | None => None
  | Some c => Some (if bool_decide (c = Byte.x2f) then removelast name else name)
  end.

(** An expired entry leaves the cache, and its watch the instance. *)
Definition expire (m : FileMgr) (filename : bytes) (f : File) : OM FileMgr :=
  m ← (if have_inotify && (0 <=? inotify_ f) then
         invoke (InotifyRmWatch (handle_ m) (inotify_ f));;
         mret (set_inotifies (delete (inotify_ f) (inotifies_ m)) m)
       else mret m);
  mret (set_cache (delete filename (cache_ m)) m).

Definition IN_ATTRIB : Z := 4.
Definition IN_DELETE_SELF : Z := 1024.
Definition IN_UNMOUNT : Z := 8192.
Definition WATCHED : Z :=
  Z.lor IN_ATTRIB (Z.lor IN_DELETE_SELF (Z.lor IN_MOVE_SELF IN_UNMOUNT)).

(** A new entry, with its type, tag and watch. *)
Definition load (m : FileMgr) (filename : bytes) (now : Q) : OM (File * FileMgr) :=
  fi ← newFileInfo now filename;
  match get_mimetype config filename with
  | Ok t =>
      let fi := set_mimetype t fi in
      let fi := set_etag (make_etag config fi) fi in
      if have_inotify then
        wd ← (if negb (handle_ m =? -1) && exists_ fi
              then invoke_int (InotifyAddWatch (handle_ m) filename WATCHED) else mret (-1));
        let '(fi, m) := if negb (wd =? -1)
                        then let fi := set_inotify wd fi in
                             (fi, set_inotifies (<[wd := fi]> (inotifies_ m)) m)
                        else (fi, m) in
        mret (fi, set_cache (<[filename := fi]> (cache_ m)) m)
      else mret (fi, set_cache (<[filename := fi]> (cache_ m)) m)
  | Abort => λ _, Abort | UB => ub | NoFuel => nofuel
  end.

Definition query (m : FileMgr) (name : bytes) (now : Q) : OM (File * FileMgr) :=
  filename ← of_option (strip name);
  match cache_ m !! filename with
  | Some fi =>
      if isValid fi now then mret (fi, m)
      else m ← expire m filename fi; load m filename now
  | None => load m filename now
  end.

(** [sizeof(inotify_event) * 256] *)
Definition EVENTS_SIZE : Z := 4096.

(** [wd] and [len] of the event at the start of [l], which must be there. *)
Definition event_at (l : bytes) : option (Z * Z) :=
  if (length l <? 16)%nat then None
  else Some (s32 (le_val (take 4 l)), le_val (take 4 (drop 12 l))).

(** The body of the loop; an entry that is not in the cache cannot be erased. *)
Definition invalidate (m : FileMgr) (wd : Z) : OM FileMgr :=
  match inotifies_ m !! wd with
  | None => mret m
  | Some f =>
      match cache_ m !! path_ f with
      | None => ub
      | Some _ =>
          let m := set_cache (delete (path_ f) (cache_ m)) m in
          let m := set_inotifies (delete wd (inotifies_ m)) m in
          invoke (InotifyRmWatch (handle_ m) wd);; mret m
      end
  end.

(** The loop over the [l] bytes read, from the offset [i] on. *)
Fixpoint changed_loop (fuel : nat) (m : FileMgr) (l : bytes) (i : Z) : OM FileMgr :=
  match fuel with
  | O => nofuel
  | S fuel =>
      if negb (i <? Z.of_nat (length l)) then mret m
      else
        '(wd, len) ← of_option (event_at (drop (Z.to_nat i) l));
        if wd =? 0 then mret m
        else
          m ← invalidate m wd;
          let i := i + (16 + len) in
          if EVENTS_SIZE <? i then ub else changed_loop fuel m l i
  end.

Definition onFileChanged (m : FileMgr) : OM FileMgr :=
  r ← invoke (ReadBytes (handle_ m) EVENTS_SIZE);
  match r with
  | Some r => let l := rdata r in
              if 0 <? Z.of_nat (length l) then changed_loop (S (length l)) m l 0 else mret m
  | None => mret m
  end.
End ops.
End FileMgr.

(** ** Mime types *)
Section mimetype.
Import FileMgr.
Implicit Types (c : Config) (l a b e filename : bytes).

Lemma last_pos_app ch a b i :
  ch ∉ b → last_pos ch (a ++ ch :: b) i = Some (i + Z.of_nat (length a)).
Proof.
  intros Hb. assert (Hnone : ∀ i, last_pos ch b i = None).
  { clear i. induction b as [|d b IH]; intros i; simpl; [done|].
    apply not_elem_of_cons in Hb as [Hd Hb]. rewrite IH by done. by rewrite bool_decide_eq_false_2. }
  revert i. induction a as [|d a IH]; intros i; simpl.
  - rewrite Hnone, bool_decide_eq_true_2 by done. f_equal. lia.
  - rewrite IH. f_equal. lia.
Qed.

Lemma last_pos_None ch l i : ch ∉ l → last_pos ch l i = None.
Proof.
  revert i. induction l as [|d l IH]; intros i Hl; simpl; [done|].
  apply not_elem_of_cons in Hl as [Hd Hl]. rewrite IH by done. by rewrite bool_decide_eq_false_2.
Qed.

Lemma mimetype_loop_total c fuel ext :
  (length ext < fuel)%nat → ∃ t, mimetype_loop c fuel ext = Ok t.
Proof.
  revert ext. induction fuel as [|fuel IH]; intros ext Hf; [lia|]. cbn [mimetype_loop].
  case_bool_decide as He; [eauto|]. destruct (mimetypes c !! ext); [eauto|].
  case_bool_decide as Hl; cbn [negb]; [|eauto]. apply IH.
  destruct ext as [|d ext _] using rev_ind; [done|]. rewrite removelast_last.
  rewrite length_app in Hf. simpl in Hf. lia.
Qed.

(** [get_mimetype] always returns. *)
Lemma get_mimetype_total c filename : ∃ t, get_mimetype c filename = Ok t.
Proof. unfold get_mimetype. destruct (_ && _); [apply mimetype_loop_total; lia|eauto]. Qed.

(** The type of the extension [e] with [n] marks of a backup copy: the entry
    with the most marks that there is. *)
Fixpoint backup_type c e (n : nat) : bytes :=
  match mimetypes c !! (e ++ replicate n Byte.x7e), n with
  | Some t, _ => t
  | None, O => defaultMimetype c
  | None, S n => backup_type c e n
  end.

Lemma mimetype_loop_spec c e n fuel :
  e ≠ [] → last e ≠ Some Byte.x7e → (n < fuel)%nat →
  mimetype_loop c fuel (e ++ replicate n Byte.x7e) = Ok (backup_type c e n).
Proof.
  intros He Hl. revert fuel. induction n as [|n IH]; intros [|fuel] Hf; try lia.
  - cbn [mimetype_loop backup_type]. rewrite app_nil_r. rewrite bool_decide_eq_false_2 by done.
    destruct (mimetypes c !! e); [done|]. by rewrite bool_decide_eq_false_2.
  - cbn [mimetype_loop backup_type]. rewrite bool_decide_eq_false_2 by (by destruct e).
    destruct (mimetypes c !! _); [done|]. rewrite replicate_S_end, app_assoc, last_snoc.
    rewrite bool_decide_eq_true_2 by done. cbn [negb]. rewrite removelast_last. apply IH. lia.
Qed.

(** A file in a directory has the type of its extension, the text after the
    last dot of its name; for a backup copy, marked by trailing '~', it is the
    type of the extension with the most marks that has one, and the default
    type if there is none. *)
Theorem get_mimetype_correct c dir base e n :
  Byte.x2f ∉ base ++ e → Byte.x2e ∉ e → e ≠ [] → last e ≠ Some Byte.x7e →
  Z.of_nat (length (dir ++ Byte.x2f :: base ++ Byte.x2e :: e)) + Z.of_nat n < SIZE_MAX →
  get_mimetype c (dir ++ Byte.x2f :: base ++ Byte.x2e :: e ++ replicate n Byte.x7e)
  = Ok (backup_type c e n).
Proof.
  intros Hs Hd He Hl Hlen. rewrite not_elem_of_app in Hs. destruct Hs as [Hb Hs].
  repeat (rewrite length_app in Hlen; cbn [length] in Hlen).
  assert (Htail : ∀ ch : byte, ch ≠ Byte.x7e → ch ∉ e → ch ∉ e ++ replicate n Byte.x7e).
  { intros ch Hch Hce [?|[? _]%elem_of_replicate]%elem_of_app; done. }
  unfold get_mimetype, find_last_of.
  assert (last_pos Byte.x2f (dir ++ Byte.x2f :: base ++ Byte.x2e :: e ++ replicate n Byte.x7e) 0
          = Some (0 + Z.of_nat (length dir))) as ->.
  { apply last_pos_app. rewrite not_elem_of_app, not_elem_of_cons. auto. }
  replace (dir ++ Byte.x2f :: base ++ Byte.x2e :: e ++ replicate n Byte.x7e)
    with ((dir ++ Byte.x2f :: base) ++ Byte.x2e :: e ++ replicate n Byte.x7e) by by rewrite <- app_assoc.
  rewrite last_pos_app by auto. cbn [default id option_map from_option].
  rewrite length_app. cbn [length].
  replace (_ && _) with true by zlia.
  replace (drop _ _) with (e ++ replicate n Byte.x7e).
  2:{ rewrite (cons_middle Byte.x2e), app_assoc. symmetry. apply drop_app_length'.
      rewrite !length_app. cbn [length]. lia. }
  apply mimetype_loop_spec; [done..|]. rewrite length_app, length_replicate. lia.
Qed.

(** A name without a slash always gets the default type: the position of the
    slash is then [npos], which is larger than every position of a dot. *)
Theorem mimetype_without_slash c filename :
  Byte.x2f ∉ filename → Z.of_nat (length filename) <= SIZE_MAX →
  get_mimetype c filename = Ok (defaultMimetype c).
Proof.
  intros Hs Hlen. unfold get_mimetype, find_last_of. rewrite (last_pos_None Byte.x2f) by done.
  assert (Hd : ∀ i l ch j, last_pos ch l i = Some j → j < i + Z.of_nat (length l)).
  { clear. intros i l ch. revert i. induction l as [|d l IH]; intros i j; simpl; [done|].
    destruct (last_pos ch l (i + 1)) eqn:E.
    - intros [= <-]. apply IH in E. lia.
    - case_bool_decide; [|done]. intros [= <-]. lia. }
  destruct (last_pos Byte.x2e filename 0) as [j|] eqn:E; cbn [default from_option id].
  - apply Hd in E. replace (SIZE_MAX <? j) with false by lia. by rewrite andb_false_r.
  - rewrite Z.eqb_refl. done.
Qed.
End mimetype.

(** ** Entity tags *)
Section etag.
Import FileMgr File.
Implicit Types (c : Config) (x y : bytes).

Lemma scan_fmt_d z x :
  - 2 ^ 63 <= z < 2 ^ 64 → no_digit x →
  ∃ ds, scan_int (fmt_d z ++ x) = (z <? 0, ds, x) ∧ dec_val ds = Z.abs z.
Proof.
  intros Hz Hx. unfold fmt_d. destruct (Z.ltb_spec z 0).
  - destruct (fmt_u_spec (- z)) as (ds & -> & Hne & Hv & HF & _); [lia|].
    exists ds. rewrite Hv. split; [|lia]. unfold scan_int. simpl. by rewrite span_all.
  - destruct (fmt_u_spec z) as (ds & -> & Hne & Hv & HF & _); [lia|].
    exists ds. rewrite Hv. split; [|lia]. destruct ds as [|d ds]; [done|].
    destruct (digit_not_space d) as (Hs & Hm & Hp); [by inversion HF|].
    unfold scan_int. replace (span isspace ((d :: ds) ++ x)) with (@nil byte, (d :: ds) ++ x)
      by (simpl; by rewrite Hs). cbn [snd app]. rewrite !bool_decide_eq_false_2 by done.
    change (d :: ds ++ x) with ((d :: ds) ++ x). by rewrite span_all.
Qed.

(** A printed number can be told from what follows it. *)
Lemma fmt_d_cancel z1 z2 x y :
  - 2 ^ 63 <= z1 < 2 ^ 64 → - 2 ^ 63 <= z2 < 2 ^ 64 → no_digit x → no_digit y →
  fmt_d z1 ++ x = fmt_d z2 ++ y ↔ z1 = z2 ∧ x = y.
Proof.
  intros H1 H2 Hx Hy. split; [|by intros [-> ->]]. intros E.
  destruct (scan_fmt_d z1 x H1 Hx) as (d1 & S1 & V1).
  destruct (scan_fmt_d z2 y H2 Hy) as (d2 & S2 & V2).
  rewrite E, S2 in S1. injection S1 as Hn -> ->. split; [lia|done].
Qed.

(** What the system reports for a file. *)
Definition stat_ok (f : File) : Prop :=
  - 2 ^ 63 <= st_mtime f < 2 ^ 63 ∧ 0 <= st_size f < 2 ^ 63 ∧ 0 <= st_ino f < 2 ^ 64.

(** C39: The tag tells files apart: two files have the same tag exactly when they
    agree on everything that the configuration takes into account. *)
Theorem make_etag_correct c f g :
  stat_ok f → stat_ok g →
  make_etag c f = make_etag c g ↔
    (etagConsiderMtime c = true → st_mtime f = st_mtime g)
    ∧ (etagConsiderSize c = true → st_size f = st_size g)
    ∧ (etagConsiderInode c = true → st_ino f = st_ino g).
Proof.
  intros (F1 & F2 & F3) (G1 & G2 & G3). unfold make_etag, etag_part.
  assert (∀ z, 0 <= z → fmt_u z = fmt_d z) as Hu.
  { intros z Hz. unfold fmt_d. by replace (z <? 0) with false by lia. }
  rewrite !Hu by lia.
  destruct (etagConsiderMtime c), (etagConsiderSize c), (etagConsiderInode c);
    simpl; rewrite <- ?app_assoc; simpl;
    repeat first [rewrite (inj_iff (cons _)) | rewrite fmt_d_cancel by (done || lia)];
    clear; intuition congruence.
Qed.
End etag.

(** ** Events as the kernel writes them *)
Section events.
Import FileMgr.
Record ievent : Type := Ievent { ie_wd : Z; ie_mask : Z; ie_cookie : Z; ie_name : bytes }.

Definition encode (e : ievent) : bytes :=
  le_bytes 4 (ie_wd e) ++ le_bytes 4 (ie_mask e) ++ le_bytes 4 (ie_cookie e)
  ++ le_bytes 4 (Z.of_nat (length (ie_name e))) ++ ie_name e.

(** Watch descriptors are not 0; the name fits what is left of the buffer. *)
Definition ievent_ok (e : ievent) : Prop :=
  is_int (ie_wd e) ∧ ie_wd e ≠ 0 ∧ Z.of_nat (length (ie_name e)) < 2 ^ 32.

Lemma length_le_bytes n z : length (le_bytes n z) = n.
Proof. revert z. induction n; simpl; auto. Qed.

Lemma le_val_bytes n z : le_val (le_bytes n z) = z mod 256 ^ Z.of_nat n.
Proof.
  revert z. induction n as [|n IH]; intros z; [by rewrite Z.mod_1_r|].
  unfold le_val in *. cbn [le_bytes foldr]. rewrite IH, uchar_byte_of_Z.
  rewrite Nat2Z.inj_succ, Z.pow_succ_r, Z.rem_mul_r by lia. lia.
Qed.

Lemma event_at_encode e rest :
  ievent_ok e → event_at (encode e ++ rest) = Some (ie_wd e, Z.of_nat (length (ie_name e))).
Proof.
  intros (Hwd & _ & Hn). unfold event_at, encode.
  destruct (Nat.ltb_spec (length ((le_bytes 4 (ie_wd e) ++ le_bytes 4 (ie_mask e)
    ++ le_bytes 4 (ie_cookie e) ++ le_bytes 4 (Z.of_nat (length (ie_name e))) ++ ie_name e)
    ++ rest)) 16) as [Hl|_].
  { rewrite !length_app, !length_le_bytes in Hl. lia. }
  rewrite <- !app_assoc. rewrite (take_app_length' (le_bytes 4 (ie_wd e))) by done.
  rewrite (assoc app (le_bytes 4 (ie_mask e))), (assoc app (le_bytes 4 (ie_wd e))).
  rewrite drop_app_length', take_app_length' by (rewrite ?length_app, ?length_le_bytes; done).
  rewrite !le_val_bytes. change (256 ^ Z.of_nat 4) with (2 ^ 32).
  rewrite (Z.mod_small (Z.of_nat _)) by lia. do 2 f_equal.
  unfold wraps. rewrite Zplus_mod_idemp_l. apply (s32_small _ Hwd).
Qed.

Lemma length_encode e : length (encode e) = (16 + length (ie_name e))%nat.
Proof. unfold encode. rewrite !length_app, !length_le_bytes. lia. Qed.
End events.

(** ** The cache *)
Section cache.
Context {os : OS} (have_inotify : bool) (round : Q → Q) (config : FileMgr.Config).
Context (newFileInfo : Q → bytes → OM File.File).
Import FileMgr File.
Implicit Types (m : FileMgr) (f : File) (p name : bytes) (s : os_state) (now : Q).

(** What the constructor of FileInfo does: it stores the path, the time and no
    watch, and leaves no descriptor open. *)
Class NewFileSpec : Prop :=
  new_file_spec : ∀ now p s, wp (newFileInfo now p)
    (λ f s', path_ f = p ∧ inotify_ f = -1 ∧ cachedAt_ f = now ∧ same_fds s s') s.

(** An entry belongs to its path and has its type and its tag; without inotify
    it has no watch. *)
Definition entry_ok p f : Prop :=
  path_ f = p ∧ get_mimetype config p = Ok (mimetype_ f) ∧ etag_ f = make_etag config f
  ∧ (have_inotify = false → inotify_ f = -1).

(** Every entry is right, and every watch belongs to an entry of the cache. *)
Definition mgr_inv m : Prop :=
  (∀ p f, cache_ m !! p = Some f → entry_ok p f)
  ∧ (∀ wd f, inotifies_ m !! wd = Some f →
       0 < wd ∧ inotify_ f = wd ∧ cache_ m !! path_ f = Some f).

Lemma insert_inv m p f :
  mgr_inv m → cache_ m !! p = None → entry_ok p f →
  mgr_inv (set_cache (<[p := f]> (cache_ m)) m).
Proof.
  intros [HC HW] Hp Hf. split; simpl.
  - intros q g [[<- <-]|[? ?]]%lookup_insert_Some; auto.
  - intros wd g Hg. destruct (HW wd g Hg) as (? & ? & Hq). split_and!; [done..|].
    rewrite lookup_insert_ne; [done|]. congruence.
Qed.

Lemma insert_watched_inv m p f wd :
  mgr_inv m → cache_ m !! p = None → entry_ok p f → inotify_ f = wd → 0 < wd →
  mgr_inv (set_cache (<[p := f]> (cache_ m)) (set_inotifies (<[wd := f]> (inotifies_ m)) m)).
Proof.
  intros HI Hp Hf Hwd Hpos. destruct (insert_inv m p f HI Hp Hf) as [HC HW]. split; simpl; [done|].
  intros w g [[<- <-]|[? Hg]]%lookup_insert_Some; [|by apply HW].
  split_and!; [done..|]. destruct Hf as [-> _]. by rewrite lookup_insert_eq.
Qed.

(** What [load] and [query] leave behind: the entry is the cache's, the other
    entries are as before. *)
Definition loaded m p now s (r : File * FileMgr) s' : Prop :=
  mgr_inv r.2 ∧ entry_ok p r.1 ∧ cachedAt_ r.1 = now
  ∧ cache_ r.2 = <[p := r.1]> (cache_ m) ∧ handle_ r.2 = handle_ m ∧ same_fds s s'.

Lemma load_spec m p now s :
  NewFileSpec → WatchOs → mgr_inv m → cache_ m !! p = None →
  wp (load have_inotify config newFileInfo m p now) (loaded m p now s) s.
Proof.
  intros HN HO HI Hp. unfold load. os_step. eapply wp_mono; [apply new_file_spec|].
  intros f s1 (Hf & Hw & Hc & H1). destruct (get_mimetype_total config p) as [t Ht]. rewrite Ht.
  set (g := set_etag _ _). assert (Hg : entry_ok p g) by (split_and!; done).
  assert (Hw' : inotify_ g = -1) by done. assert (Hc' : cachedAt_ g = now) by done. clearbody g.
  destruct have_inotify eqn:EH; [|os_step; split_and!; simpl; auto using insert_inv].
  os_step. eapply (wp_mono _ (λ wd s', same_fds s s' ∧ (wd = -1 ∨ 0 < wd))).
  { destruct (_ && _); [|os_step; auto]. apply wp_invoke_int; intros r Hr.
    - split; [exact (same_fds_trans _ _ _ H1 (conj eq_refl eq_refl))|by left].
    - split; [exact (same_fds_trans _ _ _ H1 (conj eq_refl eq_refl))|right; by eapply watch_pos]. }
  intros wd s2 [H2 Hwd]. destruct (Z.eqb_spec wd (-1)) as [E|E]; cbn [negb]; os_step.
  - split_and!; simpl; auto using insert_inv; done.
  - assert (entry_ok p (set_inotify wd g)).
    { destruct Hg as (? & ? & ? & _). split_and!; try done. by rewrite EH. }
    split_and!; simpl; try done. apply insert_watched_inv; try done. lia.
Qed.

(** An entry without a watch leaves the cache. *)
Lemma delete_inv m p f :
  mgr_inv m → cache_ m !! p = Some f → inotify_ f <= 0 →
  mgr_inv (set_cache (delete p (cache_ m)) m).
Proof.
  intros [HC HW] Hp Hf. split; simpl.
  - intros q g [? ?]%lookup_delete_Some; auto.
  - intros wd g Hg. destruct (HW wd g Hg) as (Hpos & Hwd & Hq). split_and!; [done..|].
    rewrite lookup_delete_ne; [done|]. intros E. rewrite <- E, Hp in Hq. injection Hq as <-. lia.
Qed.

Lemma expire_spec m p f s :
  mgr_inv m → cache_ m !! p = Some f → inotify_ f <= 0 →
  wp (expire have_inotify m p f) (λ m' s', mgr_inv m' ∧ cache_ m' = delete p (cache_ m)
    ∧ handle_ m' = handle_ m ∧ same_fds s s') s.
Proof.
  intros HI Hp Hf. unfold expire. os_step. destruct (_ && _) eqn:E.
  - os_step. apply wp_invoke; intros r _; os_step; os_step; (split; [|by split_and!]);
      (replace (delete _ (inotifies_ m)) with (inotifies_ m); [by eapply (delete_inv m)|]);
      (symmetry; apply delete_id; destruct (inotifies_ m !! inotify_ f) as [g|] eqn:Eg; [|done]);
      apply (proj2 HI) in Eg; lia.
  - os_step. os_step. split_and!; try done. by eapply delete_inv.
Qed.

(** The outcome of a query for [p]: a valid entry of the cache as it is, or a
    new one of now in place of what was there. *)
Definition queried m p now s (r : File * FileMgr) s' : Prop :=
  mgr_inv r.2 ∧ entry_ok p r.1 ∧ cache_ r.2 !! p = Some r.1 ∧ handle_ r.2 = handle_ m
  ∧ (∀ q, q ≠ p → cache_ r.2 !! q = cache_ m !! q) ∧ same_fds s s'
  ∧ ((cache_ m !! p = Some r.1 ∧ isValid round config r.1 now = true ∧ r.2 = m ∧ s' = s)
     ∨ (cachedAt_ r.1 = now
        ∧ ∀ f, cache_ m !! p = Some f → isValid round config f now = false)).

Lemma loaded_queried m m1 p now s s1 r s' :
  (cache_ m1 = cache_ m ∨ cache_ m1 = delete p (cache_ m)) → handle_ m1 = handle_ m →
  same_fds s s1 → loaded m1 p now s1 r s' →
  (∀ f, cache_ m !! p = Some f → isValid round config f now = false) → queried m p now s r s'.
Proof.
  intros Hc Hh H1 (? & ? & ? & Hc' & Hh' & H2) Hexp. split_and!; try done.
  - by rewrite Hc', lookup_insert_eq.
  - congruence.
  - intros q Hq. rewrite Hc', lookup_insert_ne by done.
    destruct Hc as [->| ->]; [done|by rewrite lookup_delete_ne].
  - exact (same_fds_trans _ _ _ H1 H2).
  - by right.
Qed.

Lemma isValid_false f now : isValid round config f now = false → inotify_ f <= 0.
Proof. unfold isValid. destruct (Z.ltb_spec 0 (inotify_ f)); [done|lia]. Qed.

Lemma query_spec m name p now s :
  NewFileSpec → WatchOs → mgr_inv m → strip name = Some p →
  wp (query have_inotify round config newFileInfo m name now) (queried m p now s) s.
Proof.
  intros HN HO HI Hname. unfold query. os_step. eapply wp_of_option; [exact Hname|].
  destruct (cache_ m !! p) as [f|] eqn:Hp.
  - destruct (isValid round config f now) eqn:Hv.
    + os_step. split_and!; try done. { by apply HI. } left. done.
    + os_step. pose proof (isValid_false f now Hv).
      eapply wp_mono; [by eapply expire_spec|]. intros m1 s1 (HI1 & Hc & Hh & H1).
      eapply wp_mono; [apply load_spec; try done; rewrite Hc; apply lookup_delete_eq|].
      intros r s2 H2. eapply loaded_queried; eauto. congruence.
  - eapply wp_mono; [by apply load_spec|]. intros r s2 H2.
    eapply (loaded_queried m m); eauto using same_fds_refl. congruence.
Qed.

(** What a change reported for the watch [wd] does. *)
Definition invalidated m (wd : Z) : FileMgr :=
  match inotifies_ m !! wd with
  | None => m
  | Some f => set_inotifies (delete wd (inotifies_ m)) (set_cache (delete (path_ f) (cache_ m)) m)
  end.

Lemma invalidated_inv m wd : mgr_inv m → mgr_inv (invalidated m wd).
Proof.
  intros [HC HW]. unfold invalidated. destruct (inotifies_ m !! wd) as [f|] eqn:Hf; [|done].
  destruct (HW wd f Hf) as (Hpos & Hwd & Hp). split; simpl.
  - intros q g [? ?]%lookup_delete_Some; auto.
  - intros w g [Hne Hg]%lookup_delete_Some. destruct (HW w g Hg) as (? & Hw & Hq). split_and!; [done..|].
    rewrite lookup_delete_ne; [done|]. intros E. rewrite <- E, Hp in Hq. congruence.
Qed.

(** No event can make the code erase what is not there. *)
Lemma invalidate_spec m wd s :
  mgr_inv m → wp (invalidate m wd) (λ m' s', m' = invalidated m wd ∧ same_fds s s') s.
Proof.
  intros [HC HW]. unfold invalidate, invalidated. destruct (inotifies_ m !! wd) as [f|] eqn:Hf.
  - destruct (HW wd f Hf) as (Hpos & Hwd & Hp). rewrite Hp. os_step.
    apply wp_invoke; intros r _; os_step; by split.
  - os_step. split; [done|apply same_fds_refl].
Qed.

Lemma changed_loop_inv fuel : ∀ m l i s m' s',
  mgr_inv m → changed_loop fuel m l i s = Ok (m', s') → mgr_inv m' ∧ handle_ m' = handle_ m ∧ same_fds s s'.
Proof.
  induction fuel as [|fuel IH]; intros m l i s m' s' HI; cbn [changed_loop]; [done|].
  destruct (i <? _); cbn [negb]; [|intros [= <- <-]; auto using same_fds_refl].
  destruct (event_at _) as [[wd len]|]; [|done]. unfold of_option. erewrite bind_Ok by reflexivity. cbv beta iota.
  destruct (wd =? 0); [intros [= <- <-]; auto using same_fds_refl|].
  destruct (wp_elim _ _ _ (invalidate_spec m wd s HI)) as (m1 & s1 & E & -> & H1).
  erewrite bind_Ok by exact E. destruct (_ <? _); [done|].
  intros H%IH; [|by apply invalidated_inv]. destruct H as (? & Hh & H2). split; [done|].
  split; [|exact (same_fds_trans _ _ _ H1 H2)]. rewrite Hh. unfold invalidated.
  by destruct (inotifies_ m !! wd).
Qed.

Lemma changed_loop_spec fuel : ∀ es m pre s,
  mgr_inv m → Forall ievent_ok es → (length es < fuel)%nat →
  Z.of_nat (length (pre ++ concat (encode <$> es))) <= EVENTS_SIZE →
  wp (changed_loop fuel m (pre ++ concat (encode <$> es)) (Z.of_nat (length pre))) (λ m' s',
    m' = foldl invalidated m (ie_wd <$> es) ∧ same_fds s s') s.
Proof.
  clear newFileInfo round. induction fuel as [|fuel IH]; intros es m pre s HI Hes Hf Hl; [lia|]. cbn [changed_loop].
  destruct es as [|e es]; cbn [fmap list_fmap concat] in *.
  { rewrite app_nil_r, Z.ltb_irrefl. cbn [negb]. os_step. split; [done|apply same_fds_refl]. }
  inversion_clear Hes as [|? ? He Hes']. pose proof He as (_ & Hwd & _). cbn [length] in Hf.
  rewrite !length_app, length_encode in *.
  destruct (Z.ltb_spec (Z.of_nat (length pre)) (Z.of_nat
    (length pre + (16 + length (ie_name e) + length (concat (encode <$> es)))))); [|lia].
  cbn [negb]. rewrite Nat2Z.id, drop_app_length. os_step.
  eapply wp_of_option; [by apply event_at_encode|]. cbv beta iota.
  rewrite (proj2 (Z.eqb_neq _ _) Hwd). os_step.
  eapply wp_mono; [by apply invalidate_spec|]. intros m1 s1 [-> H1].
  destruct (Z.ltb_spec EVENTS_SIZE (Z.of_nat (length pre) + (16 + Z.of_nat (length (ie_name e)))));
    [lia|].
  replace (Z.of_nat (length pre) + (16 + Z.of_nat (length (ie_name e))))
    with (Z.of_nat (length (pre ++ encode e))) by (rewrite length_app, length_encode; lia).
  rewrite (assoc app). eapply wp_mono; [apply IH|]; auto using invalidated_inv; [lia| |].
  - rewrite !length_app, length_encode. lia.
  - intros m2 s2 [-> H2]. split; [done|exact (same_fds_trans _ _ _ H1 H2)].
Qed.

(** ** What changes do to the cache *)

Lemma invalidated_lookup m wd p f :
  mgr_inv m →
  cache_ (invalidated m wd) !! p = Some f ↔ cache_ m !! p = Some f ∧ inotifies_ m !! wd ≠ Some f.
Proof.
  intros [HC HW]. unfold invalidated. destruct (inotifies_ m !! wd) as [g|] eqn:Hg; [|naive_solver].
  destruct (HW wd g Hg) as (_ & _ & Hp). simpl. rewrite lookup_delete_Some. split.
  - intros [Hne Hf]. split; [done|]. intros [= ->]. by apply Hne, (HC p f).
  - intros [Hf Hne]. split; [|done]. intros E. rewrite E in Hp. congruence.
Qed.

Lemma invalidated_inotifies m wd : inotifies_ (invalidated m wd) = delete wd (inotifies_ m).
Proof.
  unfold invalidated. destruct (inotifies_ m !! wd) eqn:E; [done|]. symmetry. by apply delete_id.
Qed.

Lemma invalidated_all m wds :
  mgr_inv m → mgr_inv (foldl invalidated m wds)
  ∧ (∀ p f, cache_ (foldl invalidated m wds) !! p = Some f ↔
       cache_ m !! p = Some f ∧ ∀ wd, wd ∈ wds → inotifies_ m !! wd ≠ Some f)
  ∧ (∀ wd f, inotifies_ (foldl invalidated m wds) !! wd = Some f ↔
       inotifies_ m !! wd = Some f ∧ wd ∉ wds)
  ∧ handle_ (foldl invalidated m wds) = handle_ m.
Proof.
  revert m. induction wds as [|w wds IH]; intros m HI; cbn [foldl].
  { split_and!; try done; set_solver. }
  destruct (IH (invalidated m w)) as (H1 & H2 & H3 & H4); [by apply invalidated_inv|].
  split; [done|]. split; [|split].
  - intros p f. rewrite H2, invalidated_lookup by done. rewrite invalidated_inotifies.
    split.
    + intros [[Hf Hw] Hall]. split; [done|]. intros wd [->|Hwd]%elem_of_cons; [done|].
      intros E. apply (Hall wd Hwd). rewrite lookup_delete_ne; [done|]. by intros ->.
    + intros [Hf Hall]. split; [split; [done|by apply Hall; left]|].
      intros wd Hwd [_ E]%lookup_delete_Some. by apply (Hall wd); [right|].
  - intros wd f. rewrite H3, invalidated_inotifies, lookup_delete_Some, not_elem_of_cons. naive_solver.
  - rewrite H4. unfold invalidated. by destruct (inotifies_ m !! w).
Qed.

Lemma onFileChanged_spec m es r s :
  mgr_inv m → Forall ievent_ok es →
  answer (history s) (ReadBytes (handle_ m) EVENTS_SIZE) = inr r →
  rdata r = concat (encode <$> es) → Z.of_nat (length (rdata r)) <= EVENTS_SIZE →
  wp (onFileChanged m) (λ m' s', m' = foldl invalidated m (ie_wd <$> es) ∧ same_fds s s') s.
Proof.
  clear newFileInfo round. intros HI Hes Hr Hd Hl. unfold onFileChanged. os_step. apply wp_invoke; intros a Ha;
    rewrite Hr in Ha; [done|]. injection Ha as <-. rewrite Hd in *.
  destruct (Z.ltb_spec 0 (Z.of_nat (length (concat (encode <$> es))))).
  - eapply wp_mono; [apply (changed_loop_spec _ es m []); try done|].
    + clear. induction es as [|e es IH]; [simpl; lia|]. cbn [fmap list_fmap concat length].
      rewrite length_app, length_encode. lia.
    + intros m' s' [-> H']. split; [done|]. exact (same_fds_trans _ _ _ (conj eq_refl eq_refl) H').
  - os_step. destruct es as [|e es]; [by split|]. cbn [fmap list_fmap concat] in *.
    rewrite length_app, length_encode in *. lia.
Qed.

(** C31: When inotify reports changes, exactly the entries that their watches stand
    for leave the cache, with the watches; nothing else is touched, and no
    report leads to undefined behaviour. *)
Theorem filemgr_change_exact m es r s :
  mgr_inv m → Forall ievent_ok es →
  answer (history s) (ReadBytes (handle_ m) EVENTS_SIZE) = inr r →
  rdata r = concat (encode <$> es) → Z.of_nat (length (rdata r)) <= EVENTS_SIZE →
  wp (onFileChanged m) (λ m' s', mgr_inv m' ∧ same_fds s s'
    ∧ (∀ p f, cache_ m' !! p = Some f ↔
         cache_ m !! p = Some f ∧ ∀ e, e ∈ es → inotifies_ m !! ie_wd e ≠ Some f)
    ∧ (∀ wd f, inotifies_ m' !! wd = Some f ↔
         inotifies_ m !! wd = Some f ∧ ∀ e, e ∈ es → ie_wd e ≠ wd)) s.
Proof.
  intros HI Hes Hr Hd Hl. eapply wp_mono; [by eapply onFileChanged_spec|].
  intros m' s' [-> Hs]. destruct (invalidated_all m (ie_wd <$> es) HI) as (H1 & H2 & H3 & _).
  split; [done|]. split; [done|]. setoid_rewrite H2. setoid_rewrite H3.
  setoid_rewrite list_elem_of_fmap. split; naive_solver.
Qed.

(** ** The life of the cache *)
Inductive mgr_step : FileMgr * os_state → FileMgr * os_state → Prop :=
| step_query m s name now f m' s' :
    query have_inotify round config newFileInfo m name now s = Ok ((f, m'), s') →
    mgr_step (m, s) (m', s')
| step_changed m s m' s' :
    onFileChanged m s = Ok (m', s') → mgr_step (m, s) (m', s').

Lemma mgr_step_inv c c' :
  NewFileSpec → WatchOs → mgr_step c c' → mgr_inv c.1 →
  mgr_inv c'.1 ∧ handle_ c'.1 = handle_ c.1 ∧ same_fds c.2 c'.2.
Proof.
  intros HN HO Hst HI. destruct Hst as [m s name now f m' s' H|m s m' s' H]; simpl in *.
  - destruct (strip name) as [p|] eqn:Hp; [|unfold query in H; by rewrite Hp in H].
    pose proof (query_spec m name p now s HN HO HI Hp) as Hq. unfold wp in Hq. rewrite H in Hq.
    destruct Hq as (? & _ & _ & ? & _ & ? & _). done.
  - unfold onFileChanged, invoke, mbind, ST_bind in H.
    destruct (answer (history s) (ReadBytes (handle_ m) EVENTS_SIZE)) as [e|r] eqn:Ha.
    + by injection H as <- <-.
    + destruct (0 <? _); [|by injection H as <- <-].
      apply changed_loop_inv in H as (? & ? & ?); [|exact HI]. split_and!; try done.
Qed.

Lemma mgr_life_inv c c' :
  NewFileSpec → WatchOs → rtc mgr_step c c' → mgr_inv c.1 →
  mgr_inv c'.1 ∧ handle_ c'.1 = handle_ c.1 ∧ same_fds c.2 c'.2.
Proof.
  intros HN HO Hst. induction Hst as [c|c c1 c2 H1 _ IH]; intros HI; [auto using same_fds_refl|].
  destruct (mgr_step_inv c c1 HN HO H1 HI) as (HI1 & Hh1 & S1).
  destruct (IH HI1) as (HI2 & Hh2 & S2). split_and!; [done|congruence|].
  exact (same_fds_trans _ _ _ S1 S2).
Qed.

Lemma empty_inv h b : mgr_inv (mkMgr h b ∅ ∅).
Proof. by split; simpl; intros ? ? []%lookup_empty_Some. Qed.

(** The descriptors that a manager adds to those of [s]. *)
Definition holds m s s' : Prop :=
  environ s' = environ s ∧
  ((handle_ m = -1 ∧ live (history s') = live (history s))
   ∨ (have_inotify = true ∧ 0 <= handle_ m ∧ (handle_ m ∉ live (history s))
      ∧ live (history s') = {[handle_ m]} ∪ live (history s))).

Lemma new_spec s :
  FreshFds → wp (FileMgr.new have_inotify) (λ m s', mgr_inv m ∧ holds m s s') s.
Proof.
  intros HF. unfold FileMgr.new. destruct have_inotify eqn:EH;
    [|os_step; split; [apply empty_inv|split; [done|by left]]].
  os_step. apply wp_invoke_int; intros r Hr.
  { change (negb (-1 =? -1)) with false. os_step. split; [apply empty_inv|split; [done|by left]]. }
  destruct (inotify_fresh _ _ _ Hr) as [Hpos Hnew].
  replace (negb (rval r =? -1)) with true by lia. set (s1 := Os _ _ _).
  assert (Hq : ∀ c s2, quiet c = true → same_fds s1 s2 → wp (invoke c) (λ _ s3, same_fds s1 s3) s2).
  { intros c s2 Hc H2. eapply wp_mono; [by apply wp_quiet|]. intros a s3 H3.
    exact (same_fds_trans _ _ _ H2 H3). }
  assert (Hqi : ∀ c s2, quiet c = true → same_fds s1 s2 → wp (invoke_int c) (λ _ s3, same_fds s1 s3) s2).
  { intros c s2 Hc H2. unfold invoke_int. os_step. eapply wp_mono; [by apply Hq|]. by intros; os_step. }
  os_step. eapply wp_mono; [apply Hqi; auto using same_fds_refl|]. intros fl s2 H2.
  os_step. eapply wp_mono; [by apply Hq|]. intros a3 s3 H3.
  os_step. eapply wp_mono; [by apply Hqi|]. intros fd s4 H4.
  os_step. eapply wp_mono; [by apply Hq|]. intros a5 s5 [H5 E5].
  os_step. split; [apply empty_inv|]. split; [done|]. right. by rewrite H5.
Qed.

(** C8: Over the whole life of a manager, whatever is asked and reported and
    whatever the system answers: every entry belongs to its path and has the
    path's type and its own tag, every watch stands for an entry of the cache,
    and destroying the manager closes exactly the descriptor that it opened. *)
Theorem filemgr_life s0 m0 s1 m s :
  NewFileSpec → WatchOs → FreshFds →
  FileMgr.new have_inotify s0 = Ok (m0, s1) → rtc mgr_step (m0, s1) (m, s) →
  mgr_inv m ∧ wp (FileMgr.destroy have_inotify m) (λ _ s', same_fds s0 s') s.
Proof.
  intros HN HO HF Hnew Hst. pose proof (new_spec s0 HF) as H0. unfold wp in H0. rewrite Hnew in H0.
  destruct H0 as [HI0 [He0 Hh0]].
  destruct (mgr_life_inv _ _ HN HO Hst HI0) as (HI & Hh & [HL HE]). simpl in *. split; [done|].
  unfold FileMgr.destroy. rewrite Hh.
  destruct Hh0 as [[E Hl]|(-> & Hpos & Hn & Hl)].
  - rewrite E. cbn [Z.eqb Pos.eqb negb]. rewrite andb_false_r. os_step. split; congruence.
  - replace (true && _) with true by lia. os_step.
    apply wp_invoke; intros r _; os_step; (split; simpl; [|congruence]); rewrite HL, Hl; set_solver.
Qed.

(** C15: a query, in any state that the invariant allows and for every name.
    For the empty name the last character is read out of bounds.  For any other
    one, taken without one trailing slash, the answer is the valid entry of the
    cache, with no call of the system, or else a new one of now that replaces
    it; it is the cache's entry afterwards, and the entries of other paths
    stay. *)
Theorem filemgr_query m name now s :
  NewFileSpec → WatchOs → mgr_inv m →
  match last name with
  | None => query have_inotify round config newFileInfo m name now s = UB
  | Some c => wp (query have_inotify round config newFileInfo m name now)
      (queried m (if bool_decide (c = Byte.x2f) then removelast name else name) now s) s
  end.
Proof.
  intros HN HO HI. destruct (last name) as [c|] eqn:E.
  - apply query_spec; [done..|]. unfold strip. by rewrite E.
  - unfold query, strip. by rewrite E.
Qed.

(** A name with a trailing slash is the name without it; the empty name is read
    out of bounds. *)
Theorem query_empty_ub m now s :
  query have_inotify round config newFileInfo m [] now s = UB.
Proof. done. Qed.

(** Without inotify an answer is never older than the time to live, in spite of
    the rounding, which only has to be monotone and exact for clock readings. *)
Theorem filemgr_fresh m name p now s :
  NewFileSpec → WatchOs → mgr_inv m → strip name = Some p →
  have_inotify = false → 0 < cacheTTL_ config →
  (∀ x y, Qle x y → Qle (round x) (round y)) → Qeq (round now) now →
  wp (query have_inotify round config newFileInfo m name now) (λ r s',
    Qlt now (cachedAt_ r.1 + inject_Z (cacheTTL_ config))) s.
Proof.
  intros HN HO HI Hp EH Httl Hmono Hnow. eapply wp_mono; [by apply query_spec|].
  intros r s' (_ & (_ & _ & _ & Hw) & _ & _ & _ & _ & [(_ & Hv & _)|(Hc & _)]).
  - unfold isValid in Hv. rewrite Hw in Hv by done. cbn [Z.ltb Z.compare orb] in Hv.
    apply Qnot_le_lt. intros Hle. apply Hmono in Hle. rewrite Hnow in Hle.
    apply Qle_bool_iff in Hle. by rewrite Hle in Hv.
  - rewrite Hc. rewrite <- (Qplus_0_r now) at 1. apply Qplus_lt_r. change 0%Q with (inject_Z 0). by rewrite <- Zlt_Qlt.
Qed.

(** Two names of one file share a watch, and the table has room for one of
    them: when the second name is asked for, the entry of the first stays in
    the cache for ever, valid at all times, whatever inotify reports. *)
Theorem filemgr_alias_stale m p f g now later :
  mgr_inv m → cache_ m !! p = Some f → 0 < inotify_ f →
  inotifies_ m !! inotify_ f = Some g → path_ g ≠ p →
  ∀ wds, cache_ (foldl invalidated m wds) !! p = Some f
    ∧ isValid round config f now = true ∧ isValid round config f later = true.
Proof.
  clear newFileInfo. intros HI Hp Hpos Hg Hne wds. destruct (invalidated_all m wds HI) as (_ & H2 & _).
  split; [apply H2; split; [done|]|].
  - intros wd Hwd E. destruct HI as [HC HW]. destruct (HW wd f E) as (_ & <- & _).
    rewrite Hg in E. injection E as ->. by apply Hne, (HC p f).
  - unfold isValid. by replace (0 <? inotify_ f) with true by lia.
Qed.
End cache.

(** ** The table of types *)
Section table.
Import FileMgr.
Implicit Types (t : gmap bytes bytes) (ext : bytes).

(** The type that a line gives to an extension: its first column, unless the
    line is empty or a comment. *)
Definition listed ext (columns : list bytes) : option bytes :=
  match columns with
  | (c :: _) as mime :: exts =>
      if bool_decide (c ≠ Byte.x23) && bool_decide (ext ∈ exts) then Some mime else None
  | _ => None
  end.

Lemma insert_all_lookup t (mime : bytes) exts ext :
  foldl (λ t e, <[e := mime]> t) t exts !! ext
  = if bool_decide (ext ∈ exts) then Some mime else t !! ext.
Proof.
  revert t. induction exts as [|e exts IH]; intros t; cbn [foldl]; [done|]. rewrite IH.
  destruct (decide (e = ext)) as [->|Hne].
  - rewrite lookup_insert_eq, (bool_decide_eq_true_2 (ext ∈ ext :: exts)) by left. by case_bool_decide.
  - rewrite lookup_insert_ne by done. erewrite (bool_decide_ext (ext ∈ e :: exts)); [done|].
    rewrite elem_of_cons. naive_solver.
Qed.

Lemma load_line_lookup t columns ext :
  load_line t columns !! ext = match listed ext columns with Some x => Some x | None => t !! ext end.
Proof.
  destruct columns as [|[|c mime] exts]; [done..|]. unfold load_line, listed.
  destruct (decide (c = Byte.x23)) as [->|Hc]; [done|].
  rewrite bool_decide_eq_false_2, bool_decide_eq_true_2 by done. cbn [negb andb].
  rewrite insert_all_lookup. by case_bool_decide.
Qed.

Lemma load_lines_lookup lines t ext :
  foldl load_line t lines !! ext
  = match last (omap (listed ext) lines) with Some x => Some x | None => t !! ext end.
Proof.
  revert t. induction lines as [|l lines IH]; intros t; [done|]. cbn [foldl omap list_omap].
  rewrite IH, load_line_lookup. destruct (listed ext l) as [x|]; [|done].
  rewrite last_cons. by destruct (last (omap (listed ext) lines)).
Qed.

(** After loading, an extension has the type of the last line that lists it,
    and no type when none does; what was known before is forgotten. *)
Theorem loadMimetypes_correct read_file tokenize trim c filename ext :
  mimetypes (loadMimetypes read_file tokenize trim c filename) !! ext
  = last (omap (listed ext) ((λ line, tokenize (trim line) [Byte.x20; Byte.x09])
                             <$> tokenize (read_file filename) [Byte.x0a])).
Proof.
  unfold loadMimetypes. cbn [mimetypes set_mimetypes]. rewrite load_lines_lookup, lookup_empty.
  by destruct (last _).
Qed.
End table.
