(* ===== verification/Dispatch.v ===== *)
(** * Dispatch: the virtual functions of the streams

    A [Stream*] points to an object of any of the stream classes.  What a
    StreamReader calls through it (include/xio/StreamReader.h) and which
    function of a StreamVisitor (include/xio/StreamVisitor.h) it calls back is
    decided by the object's class. *)

From S2P Require Import Prelude Memory BufferBase BufferParse MutableBuffer BufferSpec Libc Kernel Os.
From S2P Require Import Address SdDaemon Server Pipe BufferStream ChunkedStream FilterStream Socket File.

Local Open Scope Z_scope.

(** The object that a [Stream*] points to. *)
Inductive any_stream {parent : Type} : Type :=
| APipe (p : Pipe.Pipe)
| ABuffer (s : BufferStream.BufferStream)
| AChunked (cs : ChunkedStream.ChunkedStream)
| AFile (f : FileStream.FileStream)
| ASocket (x : Socket.Socket)
| AFilter (f : FilterStream.FilterStream (parent := parent)).
Arguments any_stream : clear implicits.

Module Dispatch.
Section reads.
Context {parent : Type} {AL : Allocator} {K : Kernel}.
Let stream : Type := any_stream parent.

(** [read(Socket*, size_t)] *)
Definition read_socket (s : stream) (socket : Socket.Socket) (n : Z) : WW (Z * stream) :=
  match s with
  | APipe p => '(rv, p) ← Pipe.read_socket p; mret (rv, APipe p)
  | ABuffer b => '(rv, b) ← lift (BufferStream.read_socket b); mret (rv, ABuffer b)
  | AChunked cs => '(rv, cs) ← ChunkedStream.read_socket cs; mret (rv, AChunked cs)
  | AFile f => rv ← FileStream.read_socket f (Socket.fd_ socket) n; mret (rv, s)
  | ASocket x => rv ← Socket.read_socket x; mret (rv, s)
  | AFilter f => '(rv, f) ← lift (FilterStream.unsupported f); mret (rv, AFilter f)
  end.

(** [read(Pipe*, size_t)] *)
Definition read_pipe (s : stream) (pp : Pipe.Pipe) (n : Z) : WW (Z * stream * Pipe.Pipe) :=
  match s with
  | APipe p => '(rv, p) ← Pipe.read_pipe p; mret (rv, APipe p, pp)
  | ABuffer b => '(rv, b, pp) ← BufferStream.read_pipe b pp n; mret (rv, ABuffer b, pp)
  | AChunked cs => '(rv, cs, pp) ← ChunkedStream.read_pipe cs pp n; mret (rv, AChunked cs, pp)
  | AFile f => rv ← FileStream.read_pipe f (Pipe.writeFd pp) n; mret (rv, s, pp)
  | ASocket x => '(rv, pp) ← Socket.read_pipe x pp n; mret (rv, s, pp)
  | AFilter f => '(rv, f) ← lift (FilterStream.unsupported f); mret (rv, AFilter f, pp)
  end.

(** [read(int, size_t)] *)
Definition read_fd (s : stream) (fd n : Z) : WW (Z * stream) :=
  match s with
  | APipe p => '(rv, p) ← Pipe.read_fd p fd n; mret (rv, APipe p)
  | ABuffer b => '(rv, b) ← BufferStream.read_fd b fd n; mret (rv, ABuffer b)
  | AChunked cs => '(rv, cs) ← ChunkedStream.read_fd cs fd n; mret (rv, AChunked cs)
  | AFile f => rv ← FileStream.read_fd f fd n; mret (rv, s)
  | ASocket x => rv ← Socket.read_fd x; mret (rv, s)
  | AFilter f => '(rv, f) ← lift (FilterStream.unsupported f); mret (rv, AFilter f)
  end.
End reads.

(** A visitor has a function for each class that it knows, with any effects. *)
Record StreamVisitor (M : Type → Type) : Type := mkVisitor {
  visit_pipe : Pipe.Pipe → M Pipe.Pipe;
  visit_buffer : BufferStream.BufferStream → M BufferStream.BufferStream;
  visit_chunked : ChunkedStream.ChunkedStream → M ChunkedStream.ChunkedStream;
  visit_file : FileStream.FileStream → M FileStream.FileStream;
  visit_socket : Socket.Socket → M Socket.Socket;
}.
Arguments visit_pipe {_}.
Arguments visit_buffer {_}.
Arguments visit_chunked {_}.
Arguments visit_file {_}.
Arguments visit_socket {_}.

(** The classes' [accept(StreamVisitor&)]; that of [FilterStream] is empty. *)
Section accept.
Context {parent : Type} {S : Type} (v : StreamVisitor (ST S)).
Let stream : Type := any_stream parent.

Definition accept_pipe (p : Pipe.Pipe) : ST S stream := p ← visit_pipe v p; mret (APipe p).
Definition accept_buffer (b : BufferStream.BufferStream) : ST S stream :=
  b ← visit_buffer v b; mret (ABuffer b).
Definition accept_chunked (cs : ChunkedStream.ChunkedStream) : ST S stream :=
  cs ← visit_chunked v cs; mret (AChunked cs).
Definition accept_file (f : FileStream.FileStream) : ST S stream := f ← visit_file v f; mret (AFile f).
Definition accept_socket (x : Socket.Socket) : ST S stream := x ← visit_socket v x; mret (ASocket x).
Definition accept_filter (f : FilterStream.FilterStream) : ST S stream := mret (AFilter f).

Definition accept (s : stream) : ST S stream :=
  match s with
  | APipe p => accept_pipe p
  | ABuffer b => accept_buffer b
  | AChunked cs => accept_chunked cs
  | AFile f => accept_file f
  | ASocket x => accept_socket x
  | AFilter f => accept_filter f
  end.
End accept.
End Dispatch.
Import Dispatch.

Section dispatch.
Context {parent : Type} {AL : Allocator} {K : Kernel}.

(** No stream can be read into a socket: the call returns at once for every
    class, with nothing done and no byte reported. *)
Theorem read_socket_lost (s : any_stream parent) x n w :
  ∃ rv, read_socket s x n w = Ok ((rv, s), w) ∧ rv <= 0.
Proof. by destruct s; destruct w; eexists. Qed.

(** Nor can a pipe, a file or a filter be read into a pipe. *)
Theorem read_pipe_lost (s : any_stream parent) pp n w :
  match s with APipe _ | AFile _ | AFilter _ => True | _ => False end →
  ∃ rv, read_pipe s pp n w = Ok ((rv, s, pp), w) ∧ rv <= 0.
Proof. destruct s; [|done|done| |done|]; intros _; destruct w; by eexists. Qed.

(** The visitors that a stream reaches: none for a filter. *)
Definition visits (s : any_stream parent) : nat := match s with AFilter _ => 0 | _ => 1 end.

(** Visiting streams with a visitor that counts gives the number of streams
    that are not filters. *)
Definition counter : StreamVisitor (ST nat) :=
  let count {A} (a : A) : ST nat A := λ n, Ok (a, S n) in
  mkVisitor _ count count count count count.

Fixpoint accept_all (v : StreamVisitor (ST nat)) (ss : list (any_stream parent)) : ST nat () :=
  match ss with [] => mret () | s :: ss => accept v s;; accept_all v ss end.

Theorem accept_counts ss n :
  accept_all counter ss n = Ok ((), (sum_list (visits <$> ss) + n)%nat).
Proof.
  revert n. induction ss as [|s ss IH]; intros n; [done|].
  rewrite fmap_cons. cbn [accept_all sum_list foldr].
  assert (E : accept counter s n = Ok (s, (visits s + n)%nat)) by (by destruct s).
  erewrite bind_Ok by exact E. rewrite IH. do 2 f_equal. simpl. lia.
Qed.
End dispatch.
