(* ===== verification/Splicing.v ===== *)
(** * Splicing: programs that move bytes between streams (examples/)

    The transfer loops of the example programs: [proxy_run] and the second
    client of [main] in network-splicing.cpp, which move bytes through a pipe,
    and the copy loop of filter.cpp, which goes through an array.  The kernel is
    the one of Kernel.v; what the client is going to send is in its channel. *)

From S2P Require Import Prelude Memory BufferBase MutableBuffer BufferSpec Kernel Os Address.
From S2P Require Import Pipe File Socket.

Local Open Scope Z_scope.

Module Splicing.
Section ops.
Context `{Kernel}.

(** [proxy_run]: from the client to the backend until the client has no more. *)
Fixpoint proxy_loop (fuel : nat) (client backend : Socket.Socket) (pipe : Pipe.Pipe) : WW Pipe.Pipe :=
  match fuel with
  | O => nofuel
  | S fuel =>
      Socket.read_pipe client pipe 1024 ≫= λ r : Z * Pipe.Pipe,
      if 0 <? r.1
      then Socket.write_pipe backend r.2 (Pipe.size r.2);; proxy_loop fuel client backend r.2
      else mret r.2
  end.

Definition STDOUT_FILENO : Z := 1.

(** [main]: what is left of the second client goes to the terminal. *)
Fixpoint print_loop (fuel : nat) (cs : Socket.Socket) (pipe : Pipe.Pipe) : WW Pipe.Pipe :=
  match fuel with
  | O => nofuel
  | S fuel =>
      Socket.read_pipe cs pipe 1024 ≫= λ r : Z * Pipe.Pipe,
      if 0 <? r.1
      then Pipe.read_fd r.2 STDOUT_FILENO (Pipe.size r.2) ≫= λ q : Z * Pipe.Pipe,
           print_loop fuel cs q.2
      else mret r.2
  end.

(** filter.cpp: [while ((n = in->read(buf, sizeof(buf))) > 0) out->write(buf, n);] *)
Fixpoint copy_loop (fuel : nat) (i o : FileStream.FileStream) (buf : ptr) : WW () :=
  match fuel with
  | O => nofuel
  | S fuel =>
      n ← FileStream.read i buf 1024;
      if 0 <? n then FileStream.write o buf n;; copy_loop fuel i o buf else mret ()
  end.
End ops.
End Splicing.
Import Splicing.

Section pump.
Context {K : Kernel} {KL : KernelLaws K}.
Implicit Types (k : kst) (w : world) (p : Pipe.Pipe) (d l : bytes).

(** ** Through a pipe *)

(** The channels of the source, the pipe and the target. *)
Context (ci c co : chan) (Hic : ci ≠ c) (Hio : ci ≠ co) (Hco : c ≠ co).

(** From [k] to [k'] bytes went on from the source into the pipe and from the
    pipe to the target, where [d] arrived; the descriptors are the same. *)
Record pumped k k' d : Prop := {
  pu_queue : content k c ++ content k ci = d ++ content k' c ++ content k' ci;
  pu_out : content k' co = content k co ++ d;
  pu_less : (length (content k' ci) <= length (content k ci))%nat;
  pu_rd : ∀ fd, rd_chan k' fd = rd_chan k fd;
  pu_wr : ∀ fd, wr_chan k' fd = wr_chan k fd;
}.

Lemma pumped_trans k k1 k2 d1 d2 : pumped k k1 d1 → pumped k1 k2 d2 → pumped k k2 (d1 ++ d2).
Proof.
  intros [Q1 O1 L1 R1 W1] [Q2 O2 L2 R2 W2]. split.
  - by rewrite Q1, Q2, app_assoc.
  - by rewrite O2, O1, app_assoc.
  - lia.
  - intros. by rewrite R2.
  - intros. by rewrite W2.
Qed.

Lemma pumped_same k k' : transfer k k' (content k) → pumped k k' [].
Proof. intros (Hc & Hr & Hw). split; [by rewrite !Hc|by rewrite Hc, app_nil_r|by rewrite Hc|done..]. Qed.

(** One step in, one step out. *)
Lemma pumped_in k k' x :
  moved k k' ci c x →
  pumped k k' [] ∧ length (content k ci) = (length x + length (content k' ci))%nat.
Proof using Hic Hio Hco.
  intros Hm. destruct (moved_content _ _ _ _ _ Hm) as [H1 H2]. destruct Hm as (_ & r & _ & Hc & Hr & Hw).
  split; [|rewrite H1, length_app; done]. split; try done.
  - by rewrite H2, H1, <- app_assoc.
  - by rewrite Hc, !upd_ne, app_nil_r.
  - rewrite H1, length_app. lia.
Qed.

Lemma pumped_out k k' x : moved k k' c co x → pumped k k' x.
Proof using Hic Hio Hco.
  intros Hm. destruct (moved_content _ _ _ _ _ Hm) as [H1 H2]. destruct Hm as (_ & r & _ & Hc & Hr & Hw).
  assert (content k' ci = content k ci) as E by (by rewrite Hc, !upd_ne).
  split; try done; rewrite E; [|done]. by rewrite H1, <- app_assoc.
Qed.

(** The descriptors of the source and of the pipe. *)
Definition wired (client : Socket.Socket) p k : Prop :=
  rd_chan k (Socket.fd_ client) = Some ci
  ∧ rd_chan k (Pipe.readFd p) = Some c ∧ wr_chan k (Pipe.writeFd p) = Some c.

Lemma wired_pumped client p k k' d : pumped k k' d → wired client p k → wired client p k'.
Proof. intros [_ _ _ R W] (? & ? & ?). unfold wired. by rewrite !R, W. Qed.

Lemma wired_grow client p k n : wired client p k → wired client (Pipe.grow p n) k.
Proof. unfold Pipe.grow. by destruct (0 <? n). Qed.

(** [client->read(&pipe, 1024)]: progress, unless it returns 0 or less. *)
Lemma read_pipe_pumps client p w :
  wired client p (wkern w) →
  wp (Socket.read_pipe client p 1024) (λ r w',
    pumped (wkern w) (wkern w') [] ∧ wired client r.2 (wkern w')
    ∧ (0 < r.1 → (length (content (wkern w') ci) < length (content (wkern w) ci))%nat)
    ∧ wmem w' = wmem w
    ∧ ∀ l, pipe_rep (wkern w) p c l → ∃ l', pipe_rep (wkern w') r.2 c l') w.
Proof using KL Hic Hio Hco.
  intros Hw. unfold Socket.read_pipe, Pipe.write_socket. wp_step. apply wp_splice.
  - intros k' e Ht. wp_step. simpl. pose proof (pumped_same _ _ Ht) as P.
    split; [done|]. split; [by eapply wired_pumped|]. split; [lia|]. split; [done|].
    intros l Hl. exists l. by eapply pipe_rep_same.
  - intros ci' c' x k' Hci Hc' _ Hm. destruct Hw as (H1 & H2 & H3).
    assert (ci' = ci) as -> by congruence. assert (c' = c) as -> by congruence.
    wp_step. simpl. destruct (pumped_in _ _ _ Hm) as [P Hl].
    split; [done|]. split; [by apply wired_grow; eapply wired_pumped|]. split; [lia|]. split; [done|].
    intros l Hp. destruct Hm as (_ & r & _ & Ht). exists (l ++ x).
    eapply pipe_rep_grow; [exact Ht| |done]. by rewrite upd_eq, (prep_content _ _ _ _ Hp).
Qed.

Lemma proxy_loop_pumps fuel client backend : ∀ p w,
  wired client p (wkern w) → wr_chan (wkern w) (Socket.fd_ backend) = Some co →
  (length (content (wkern w) ci) < fuel)%nat →
  wp (proxy_loop fuel client backend p) (λ _ w', ∃ d, pumped (wkern w) (wkern w') d) w.
Proof using KL Hic Hio Hco.
  induction fuel as [|fuel IH]; intros p w Hw Hb Hf; [lia|]. simpl. wp_step.
  eapply wp_mono; [by apply read_pipe_pumps|]. intros [n p1] w1 (P1 & W1 & Hlt & _). cbn [fst snd] in *.
  destruct (Z.ltb_spec 0 n) as [Hn|Hn]; [|wp_step; eauto]. specialize (Hlt Hn).
  wp_step. unfold Socket.write_pipe.
  assert (Hrest : ∀ w2 d, pumped (wkern w1) (wkern w2) d →
    wp (proxy_loop fuel client backend p1) (λ _ w', ∃ d', pumped (wkern w) (wkern w') d') w2).
  { intros w2 d P2. eapply wp_mono; [apply IH|].
    - by eapply wired_pumped.
    - by rewrite (pu_wr _ _ _ P2), (pu_wr _ _ _ P1).
    - pose proof (pu_less _ _ _ P2). lia.
    - intros p3 w3 [d' P3]. exists ([] ++ (d ++ d')).
      eapply pumped_trans; [exact P1|]. by eapply pumped_trans. }
  apply wp_splice.
  - intros k' e Ht. eapply Hrest. by apply pumped_same.
  - intros c' co' x k' Hc' Hco' _ Hm. destruct W1 as (_ & H2 & _).
    rewrite (pu_wr _ _ _ P1) in Hco'.
    assert (c' = c) as -> by congruence. assert (co' = co) as -> by congruence.
    eapply Hrest. by apply pumped_out.
Qed.

(** *** Delivery *)

(** As long as a target has room, 64 KiB for a pipe, [splice] moves what is
    there. *)
Definition splice_willing : Prop := ∀ k i o n a b,
  rd_chan k i = Some a → wr_chan k o = Some b → a ≠ b → 0 < n → content k a ≠ [] →
  Z.of_nat (length (content k b)) + Z.min n (Z.of_nat (length (content k a))) <= 65536 →
  ∃ k', sys_splice i o n k = (inr (Z.min n (Z.of_nat (length (content k a)))), k').

Lemma wp_splice_willing i o n a b w (Q : Z → world → Prop) :
  splice_willing → rd_chan (wkern w) i = Some a → wr_chan (wkern w) o = Some b → a ≠ b →
  0 < n → content (wkern w) a ≠ [] →
  Z.of_nat (length (content (wkern w) b)) + Z.min n (Z.of_nat (length (content (wkern w) a))) <= 65536 →
  (∀ d k', moved (wkern w) k' a b d →
     Z.of_nat (length d) = Z.min n (Z.of_nat (length (content (wkern w) a))) →
     Q (Z.of_nat (length d)) (World (wmem w) k' (werrno w))) →
  wp (splice i o n) Q w.
Proof using KL.
  intros Hwill Ha Hb Hne Hn Hnil Hroom HQ. unfold splice. wp_step. unfold syscall, wp.
  destruct (Hwill _ _ _ _ _ _ Ha Hb Hne Hn Hnil Hroom) as [k' E]. rewrite E. simpl.
  destruct (splice_ok _ _ _ _ _ _ E) as (a' & b' & d & Ha' & Hb' & Hr & _ & Hm).
  assert (a' = a) as -> by congruence. assert (b' = b) as -> by congruence.
  rewrite Hr. apply HQ; [done|lia].
Qed.

(** Everything has gone through. *)
Definition delivered k k' : Prop :=
  content k' co = content k co ++ content k ci ∧ content k' c = [] ∧ content k' ci = [].

(** One round with a client that has bytes: [x] goes into the pipe ... *)
Lemma fetch_willing client p w :
  splice_willing → wired client p (wkern w) → content (wkern w) c = [] →
  content (wkern w) ci ≠ [] → 0 <= Pipe.size p →
  Pipe.size p + Z.of_nat (length (content (wkern w) ci)) <= SSIZE_MAX →
  wp (Socket.read_pipe client p 1024) (λ r w', ∃ x,
    pumped (wkern w) (wkern w') [] ∧ wired client r.2 (wkern w') ∧ 0 < r.1 ∧ x ≠ []
    ∧ Z.of_nat (length x) <= 1024 ∧ content (wkern w) ci = x ++ content (wkern w') ci
    ∧ content (wkern w') c = x ∧ Pipe.size r.2 = Pipe.size p + Z.of_nat (length x)) w.
Proof using KL Hic Hio Hco.
  intros Hwill Hw Hc Hnil Hp0 Hp. unfold Socket.read_pipe, Pipe.write_socket. wp_step.
  pose proof Hw as (H1 & H2 & H3).
  apply (wp_splice_willing _ _ _ ci c w _ Hwill H1 H3 Hic); [lia|done|rewrite Hc; simpl; lia|].
  intros x k1 Hm1 Hx. wp_step. cbn [fst snd wkern wmem].
  destruct (moved_content _ _ _ _ _ Hm1) as [E1 E2]. destruct (pumped_in _ _ _ Hm1) as [P1 _].
  assert (0 < Z.of_nat (length x)) by (destruct (content (wkern w) ci); [done|simpl in Hx; lia]).
  exists x. split; [done|]. split; [by apply wired_grow; eapply wired_pumped|]. split; [done|].
  split; [by intros ->|]. split; [lia|]. split; [done|]. split; [by rewrite E2, Hc|].
  rewrite E1, length_app in Hp. unfold Pipe.grow, Pipe.size in *.
  replace (0 <? _) with true by lia. simpl. apply u64_small. zlia.
Qed.

(** ... and all of it on to the backend. *)
Lemma forward_willing client backend p x w :
  splice_willing → wired client p (wkern w) → wr_chan (wkern w) (Socket.fd_ backend) = Some co →
  content (wkern w) c = x → x ≠ [] → Z.of_nat (length x) <= Pipe.size p →
  Z.of_nat (length (content (wkern w) co) + length x) <= 65536 →
  wp (Socket.write_pipe backend p (Pipe.size p)) (λ _ w',
    pumped (wkern w) (wkern w') x ∧ content (wkern w') c = []
    ∧ content (wkern w') ci = content (wkern w) ci) w.
Proof using KL Hic Hio Hco.
  intros Hwill (_ & H2 & _) Hb Hc Hx Hs Hroom. unfold Socket.write_pipe.
  assert (0 < Z.of_nat (length x)) by (destruct x; [done|simpl; lia]).
  apply (wp_splice_willing _ _ _ c co w _ Hwill); [done|done|done|lia|by rewrite Hc|rewrite Hc; lia|].
  intros y k2 Hm2 Hy. destruct (moved_content _ _ _ _ _ Hm2) as [E3 _].
  pose proof (pumped_out _ _ _ Hm2) as P2. rewrite Hc in *. simpl.
  assert (y = x ∧ content k2 c = []) as [-> Ec2].
  { rewrite E3, length_app in Hy. destruct (content k2 c) as [|z r]; [by rewrite app_nil_r in E3|].
    rewrite E3, length_app in Hs. simpl in Hy, Hs. lia. }
  split; [done|]. split; [done|].
  pose proof (pu_queue _ _ _ P2) as Q. rewrite Hc, Ec2 in Q. by apply app_inv_head in Q.
Qed.

Lemma proxy_loop_delivers fuel client backend : splice_willing → ∀ p w,
  wired client p (wkern w) → wr_chan (wkern w) (Socket.fd_ backend) = Some co →
  content (wkern w) c = [] → 0 <= Pipe.size p →
  Pipe.size p + Z.of_nat (length (content (wkern w) ci)) <= SSIZE_MAX →
  Z.of_nat (length (content (wkern w) co) + length (content (wkern w) ci)) <= 65536 →
  (length (content (wkern w) ci) < fuel)%nat →
  wp (proxy_loop fuel client backend p) (λ _ w', delivered (wkern w) (wkern w')) w.
Proof using KL Hic Hio Hco.
  intros Hwill. induction fuel as [|fuel IH]; intros p w Hw Hb Hc Hp0 Hp Hroom Hf; [lia|]. simpl. wp_step.
  destruct (decide (content (wkern w) ci = [])) as [Hnil|Hnil].
  - eapply wp_mono; [by apply read_pipe_pumps|]. intros [n p1] w1 ([Q1 O1 L1 _ _] & _ & Hlt & _).
    cbn [fst snd] in *. rewrite Hnil in *.
    destruct (Z.ltb_spec 0 n) as [Hn|_]; [by apply Hlt in Hn; simpl in Hn; lia|].
    wp_step. rewrite Hc in Q1. symmetry in Q1. apply app_nil in Q1 as [_ [Q1 Q2]%app_nil].
    split; [by rewrite Hnil|done].
  - eapply wp_mono; [by apply fetch_willing|].
    intros [n p1] w1 (x & P1 & W1 & Hn & Hx & Hlen & E1 & E2 & Hg). cbn [fst snd] in *.
    replace (0 <? n) with true by lia. rewrite E1, length_app in Hp, Hroom, Hf.
    assert (content (wkern w1) co = content (wkern w) co) as Eco
      by (by rewrite (pu_out _ _ _ P1), app_nil_r).
    wp_step. eapply wp_mono; [apply (forward_willing client backend p1 x w1); try done|].
    { by rewrite (pu_wr _ _ _ P1). }
    { lia. }
    { rewrite Eco. lia. }
    intros _ w2 (P2 & Ec2 & Eci). pose proof (pu_out _ _ _ P2) as E4. rewrite Eco in E4.
    eapply wp_mono; [apply IH; try done|].
    + by eapply wired_pumped.
    + by rewrite (pu_wr _ _ _ P2), (pu_wr _ _ _ P1).
    + lia.
    + rewrite Hg, Eci. lia.
    + rewrite E4, Eci, length_app. lia.
    + rewrite Eci. destruct x; [done|simpl in Hf; lia].
    + intros _ w3 (D1 & D2 & D3). split; [|done]. by rewrite D1, E4, Eci, E1, app_assoc.
Qed.

(** C18: the proxy loop comes to an end, whatever the kernel does, and is a
    queue between the client and the backend: what has arrived at the backend,
    what a short [splice] has left in the pipe and what was not read from the
    client are, in this order, the bytes of the client.  Where the pipe is new,
    all these bytes fit into the backend's 64 KiB and [splice] moves what there
    is room for, all of them have arrived, although the pipe's count is never
    reduced. *)
Theorem proxy_forwards fuel client backend p w :
  wired client p (wkern w) → wr_chan (wkern w) (Socket.fd_ backend) = Some co →
  content (wkern w) c = [] → (length (content (wkern w) ci) < fuel)%nat →
  wp (proxy_loop fuel client backend p) (λ _ w', ∃ d,
    content (wkern w) ci = d ++ content (wkern w') c ++ content (wkern w') ci
    ∧ content (wkern w') co = content (wkern w) co ++ d
    ∧ (splice_willing → Pipe.size p = 0 →
       Z.of_nat (length (content (wkern w) co) + length (content (wkern w) ci)) <= 65536 →
       content (wkern w') co = content (wkern w) co ++ content (wkern w) ci
       ∧ content (wkern w') c = [])) w.
Proof using KL Hic Hio Hco.
  intros Hw Hb Hc Hf. eapply wp_mono.
  { apply (wp_imp _ (splice_willing ∧ Pipe.size p = 0
      ∧ Z.of_nat (length (content (wkern w) co) + length (content (wkern w) ci)) <= 65536)
      (λ _ w', delivered (wkern w) (wkern w')) _ _ (proxy_loop_pumps fuel client backend p w Hw Hb Hf)).
    intros (Hwill & Hp & Hroom). apply (proxy_loop_delivers fuel client backend Hwill p w); try done; zlia. }
  intros _ w' [[d [Q O _ _ _]] Hd]. exists d. rewrite Hc in Q. split; [done|]. split; [done|].
  intros H1 H2 H3. destruct (Hd (conj H1 (conj H2 H3))) as (? & ? & _). done.
Qed.

(** ** To the terminal *)

Lemma print_loop_pumps fuel cs : ∀ p w l,
  wired cs p (wkern w) → pipe_rep (wkern w) p c l →
  wr_chan (wkern w) STDOUT_FILENO = Some co →
  (length (content (wkern w) ci) < fuel)%nat →
  wp (print_loop fuel cs p) (λ p' w', ∃ d l', pumped (wkern w) (wkern w') d
    ∧ pipe_rep (wkern w') p' c l') w.
Proof using KL Hic Hio Hco.
  induction fuel as [|fuel IH]; intros p w l Hw Hp Hb Hf; [lia|]. simpl. wp_step.
  eapply wp_mono; [by apply read_pipe_pumps|]. intros [n p1] w1 (P1 & W1 & Hlt & _ & Hrep).
  destruct (Hrep l Hp) as [l1 Hp1]. cbn [fst snd] in *.
  destruct (Z.ltb_spec 0 n) as [Hn|Hn]; [|wp_step; eauto]. specialize (Hlt Hn).
  wp_step. unfold Pipe.read_fd. wp_step.
  assert (Hrest : ∀ w2 p2 d l2, pumped (wkern w1) (wkern w2) d → wired cs p2 (wkern w2) →
    pipe_rep (wkern w2) p2 c l2 →
    wp (print_loop fuel cs p2) (λ p' w', ∃ d' l', pumped (wkern w) (wkern w') d'
      ∧ pipe_rep (wkern w') p' c l') w2).
  { intros w2 p2 d l2 P2 W2 Hp2. eapply wp_mono; [eapply IH; try done|].
    - by rewrite (pu_wr _ _ _ P2), (pu_wr _ _ _ P1).
    - pose proof (pu_less _ _ _ P2). lia.
    - intros p3 w3 (d' & l' & P3 & R3). exists ([] ++ (d ++ d')), l'. split; [|done].
      eapply pumped_trans; [exact P1|]. by eapply pumped_trans. }
  apply wp_splice.
  - intros k' e Ht. wp_step. pose proof (pumped_same _ _ Ht) as P2.
    eapply Hrest; [exact P2|by eapply wired_pumped|]. by eapply pipe_rep_same.
  - intros c' co' x k' Hc' Hco' _ Hm. pose proof W1 as (_ & H2 & _).
    rewrite (pu_wr _ _ _ P1) in Hco'.
    assert (c' = c) as -> by congruence. assert (co' = co) as -> by congruence.
    pose proof (pumped_out _ _ _ Hm) as P2. wp_step. simpl.
    destruct Hm as (_ & r & E & Ht). rewrite (prep_content _ _ _ _ Hp1) in E. subst l1.
    eapply (Hrest _ _ _ r); [exact P2|..].
    + apply (wired_pumped _ _ _ _ _ P2) in W1. unfold Pipe.shrink. by destruct (0 <? _).
    + eapply pipe_rep_shrink; [exact Ht| |done]. by rewrite upd_ne, upd_eq.
Qed.

(** The second loop is a queue as well, and keeps the pipe's count right. *)
Theorem print_forwards fuel cs p w :
  wired cs p (wkern w) → pipe_rep (wkern w) p c [] →
  wr_chan (wkern w) STDOUT_FILENO = Some co → (length (content (wkern w) ci) < fuel)%nat →
  wp (print_loop fuel cs p) (λ p' w', ∃ d left,
    content (wkern w) ci = d ++ left ++ content (wkern w') ci
    ∧ content (wkern w') co = content (wkern w) co ++ d ∧ pipe_rep (wkern w') p' c left) w.
Proof using KL Hic Hio Hco.
  intros Hw Hp Hb Hf. eapply wp_mono; [by eapply print_loop_pumps|].
  intros p' w' (d & l' & [Q O _ _ _] & R). exists d, l'.
  rewrite (prep_content _ _ _ _ Hp), (prep_content _ _ _ _ R) in Q. done.
Qed.
End pump.

(** ** Through an array *)
Section copy.
Context {K : Kernel} {KL : KernelLaws K}.
Implicit Types (k : kst) (w : world) (d l : bytes).

(** [d] are the beginnings of the pieces of [l]: what arrives when each write
    may take less than it is given. *)
Inductive sampled : bytes → bytes → Prop :=
| sampled_nil : sampled [] []
| sampled_piece x n l d : sampled l d → sampled (x ++ l) (take n x ++ d).

Context (ci co : chan) (Hio : ci ≠ co).

Lemma copy_loop_samples fuel (i o : FileStream.FileStream) (buf : ptr) : ∀ w old,
  mem_wf (wmem w) → mem_at (wmem w) buf old → length old = 1024%nat →
  rd_chan (wkern w) (FileStream.handle i) = Some ci →
  wr_chan (wkern w) (FileStream.handle o) = Some co →
  (length (content (wkern w) ci) < fuel)%nat →
  wp (copy_loop fuel i o buf) (λ _ w', ∃ l d, sampled l d
    ∧ content (wkern w) ci = l ++ content (wkern w') ci
    ∧ content (wkern w') co = content (wkern w) co ++ d) w.
Proof using KL Hio.
  induction fuel as [|fuel IH]; intros w old Hwf Hold Hlen Hrd Hwr Hf; [lia|]. simpl. wp_step.
  unfold FileStream.read, Kernel.read. wp_step. apply wp_read_local.
  { intros k' e Ht. wp_step. change (0 <? -1) with false. wp_step. exists [], []. simpl.
    rewrite !(transfer_content _ _ _ _ Ht), app_nil_r. split; [constructor|done]. }
  intros x c' k' Hc' Hx Htk. assert (c' = ci) as -> by (unfold FileStream.handle in *; congruence).
  wp_step. apply wp_lift. simpl.
  apply (wp_write_array _ buf old); [done|done|lia|]. intros m' old' W T Hm Hl'. wp_step.
  pose proof (took_content _ _ _ _ Htk) as E1. destruct Htk as (r & _ & Ht).
  assert (content k' co = content (wkern w) co) as E2
    by (by rewrite (transfer_content _ _ _ _ Ht), upd_ne).
  destruct (Z.ltb_spec 0 (Z.of_nat (length x))) as [Hpos|Hneg].
  2:{ wp_step. destruct x; [|simpl in Hneg; lia]. exists [], []. simpl.
      rewrite E2, app_nil_r. split; [constructor|done]. }
  assert (Hrest : ∀ k2 e n, transfer k' k2 (upd (content k') co (content k' co ++ take n x)) →
    wp (copy_loop fuel i o buf) (λ _ w', ∃ l d, sampled l d
      ∧ content (wkern w) ci = l ++ content (wkern w') ci
      ∧ content (wkern w') co = content (wkern w) co ++ d) (World m' k2 e)).
  { intros k2 e n Ht2. assert (content k2 ci = content k' ci) as E3
      by (by rewrite (transfer_content _ _ _ _ Ht2), upd_ne).
    eapply wp_mono; [eapply (IH _ (x ++ old')); try done; simpl|].
    - lia.
    - by rewrite (transfer_rd _ _ _ _ Ht2), (transfer_rd _ _ _ _ Ht).
    - by rewrite (transfer_wr _ _ _ _ Ht2), (transfer_wr _ _ _ _ Ht).
    - rewrite E3. rewrite E1, length_app in Hf. lia.
    - simpl. intros _ w3 (l & d & Hs & F1 & F2). exists (x ++ l), (take n x ++ d).
      split; [by constructor|]. rewrite E1, <- E3, F1, F2, app_assoc. split; [done|].
      by rewrite (transfer_content _ _ _ _ Ht2), upd_eq, E2, app_assoc. }
  wp_step. apply mem_at_app in Hm as [Hm _].
  apply (wp_write _ _ x); [done|done|..]; simpl.
  - intros k2 e Ht2. apply (Hrest _ _ 0%nat). simpl. rewrite app_nil_r.
    destruct Ht2 as (Hc2 & Hr2 & Hw2). split; [|done]. intros c2. rewrite Hc2.
    unfold upd. by case_decide; subst.
  - intros n c2 k2 Hc2 Hn Ht2. rewrite (transfer_wr _ _ _ _ Ht) in Hc2.
    assert (c2 = co) as -> by (unfold FileStream.handle in *; congruence). by eapply Hrest.
Qed.

Lemma sampled_le l d : sampled l d → (length d <= length l)%nat.
Proof. induction 1; rewrite ?length_app, ?length_take; simpl in *; lia. Qed.

Lemma sampled_whole l d : sampled l d → length d = length l → d = l.
Proof.
  induction 1 as [|x n l d H IH]; [done|]. intros Hl. pose proof (sampled_le _ _ H).
  rewrite !length_app, length_take in Hl. rewrite IH by lia. by rewrite take_ge by lia.
Qed.

(** The copy loop of filter.cpp ends; what it writes are the beginnings of the
    pieces it read, in order, since the result of [write] is not looked at:
    all of the input if and only if no byte was dropped. *)
Theorem copy_filters fuel (i o : FileStream.FileStream) (buf : ptr) w old :
  mem_wf (wmem w) → mem_at (wmem w) buf old → length old = 1024%nat →
  rd_chan (wkern w) (FileStream.handle i) = Some ci →
  wr_chan (wkern w) (FileStream.handle o) = Some co →
  (length (content (wkern w) ci) < fuel)%nat →
  wp (copy_loop fuel i o buf) (λ _ w', ∃ l d, sampled l d
    ∧ content (wkern w) ci = l ++ content (wkern w') ci
    ∧ content (wkern w') co = content (wkern w) co ++ d
    ∧ (length d = length l → d = l)) w.
Proof using KL Hio.
  intros. eapply wp_mono; [by eapply copy_loop_samples|].
  intros _ w' (l & d & Hs & ? & ?). exists l, d. eauto using sampled_whole.
Qed.
End copy.
