(* ===== verification/Relay.v ===== *)
(** * Relay: the threads of network-splicing.cpp

    The program has three threads that are connected by sockets: the client
    sends a header and a file, the proxy moves what it gets through a pipe to
    a second connection, and the main thread shows what arrives there, the
    first bytes through a buffer and the others through a pipe.  Here the
    connections are set up and the threads run, one system call at a time and
    in any order. *)

From S2P Require Import Prelude Memory BufferBase BufferParse MutableBuffer BufferSpec Kernel Os.
From S2P Require Import Address Pipe File Socket Splicing.

Local Open Scope Z_scope.

Module Relay.

(** Where a thread is, with its local variables. *)
Inductive client_pc := CHeader | CFile | CDone.
Inductive proxy_pc := PFetch (pipe : Pipe.Pipe) | PForward (pipe : Pipe.Pipe) | PDone (pipe : Pipe.Pipe).
Inductive main_pc :=
| MFirst (buf : MutableBuffer)
| MShow (buf : MutableBuffer)
| MFetch (pipe : Pipe.Pipe)
| MPrint (pipe : Pipe.Pipe)
| MDone (pipe : Pipe.Pipe).

Definition client_done (c : client_pc) : bool := match c with CDone => true | _ => false end.
Definition proxy_done (p : proxy_pc) : bool := match p with PDone _ => true | _ => false end.
Definition main_done (m : main_pc) : bool := match m with MDone _ => true | _ => false end.

Section steps.
Context `{Kernel} {AL : Allocator}.

(** The sockets: of the client, of the proxy to the client and to the backend,
    and the one that is shown; the file and the client's buffer. *)
Record setup : Type := Setup {
  client : Socket.Socket; source : Socket.Socket; backend : Socket.Socket; shown : Socket.Socket;
  fs : FileStream.FileStream; fsize : Z;
  hbuf : ptr; hsize : Z;
  proxy_pipe : Pipe.Pipe; main_pipe : Pipe.Pipe;
}.
Context (e : setup).

(** [client.write(buf.data(), buf.size()); client.write(fs.get(), fs->size());] *)
Definition client_step (c : client_pc) : WW client_pc :=
  match c with
  | CHeader => Socket.write (client e) (hbuf e) (hsize e);; mret CFile
  | CFile => Socket.write_file (client e) (FileStream.handle (fs e)) (fsize e);; mret CDone
  | CDone => mret CDone
  end.

(** The loop of [proxy_run] *)
Definition proxy_step (p : proxy_pc) : WW proxy_pc :=
  match p with
  | PFetch pipe =>
      Socket.read_pipe (source e) pipe 1024 ≫= λ r : Z * Pipe.Pipe,
      mret (if 0 <? r.1 then PForward r.2 else PDone r.2)
  | PForward pipe => Socket.write_pipe (backend e) pipe (Pipe.size pipe);; mret (PFetch pipe)
  | PDone pipe => mret (PDone pipe)
  end.

(** The second client in [main].  [cs->read(buf, 39)] on an empty buffer is one
    call of [read]: the buffer gets room for more than 39 bytes. *)
Definition main_step (m : main_pc) : WW main_pc :=
  match m with
  | MFirst buf =>
      Socket.read_buffer (shown e) buf 39 ≫= λ r : Z * MutableBuffer, mret (MShow r.2)
  | MShow buf =>
      Kernel.write Splicing.STDOUT_FILENO (BufferBase.data buf) (BufferBase.size buf);;
      mret (MFetch (main_pipe e))
  | MFetch pipe =>
      Socket.read_pipe (shown e) pipe 1024 ≫= λ r : Z * Pipe.Pipe,
      mret (if 0 <? r.1 then MPrint r.2 else MDone r.2)
  | MPrint pipe =>
      Pipe.read_fd pipe Splicing.STDOUT_FILENO (Pipe.size pipe) ≫= λ r : Z * Pipe.Pipe,
      mret (MFetch r.2)
  | MDone pipe => mret (MDone pipe)
  end.

(** All threads with what they share. *)
Record net : Type := Net { nworld : world; nclient : client_pc; nproxy : proxy_pc; nmain : main_pc }.

(** Any thread that has not ended takes a step.  A call that would block is one
    that the scheduler does not choose until it can return; what it returns is
    the kernel's choice.  Steps with undefined behaviour are left out, and
    [net_progress] shows that there are none in the reachable states. *)
Inductive net_step : net → net → Prop :=
| step_client w c p m c' w' :
    client_done c = false → client_step c w = Ok (c', w') →
    net_step (Net w c p m) (Net w' c' p m)
| step_proxy w c p m p' w' :
    proxy_done p = false → proxy_step p w = Ok (p', w') →
    net_step (Net w c p m) (Net w' c p' m)
| step_main w c p m m' w' :
    main_done m = false → main_step m w = Ok (m', w') →
    net_step (Net w c p m) (Net w' c p m').

Definition finished (g : net) : bool :=
  client_done (nclient g) && proxy_done (nproxy g) && main_done (nmain g).

(** The threads when the connections are there. *)
Definition start (w : world) : net :=
  Net w CHeader (PFetch (proxy_pipe e)) (MFirst MutableBuffer.new).
End steps.
Arguments net {_}.
Arguments Net {_} _ _ _ _.
End Relay.
Import Relay.

Section relay.
Context {K : Kernel} {KL : KernelLaws K} {AL : Allocator} (e : setup).
Implicit Types (k : kst) (w : world) (q : Pipe.Pipe) (d : bytes).

(** The channels: to the proxy, its pipe, to the main thread, its pipe, the
    terminal and the file. *)
Context (A P B Q T F : chan).
Context (Hdist : NoDup [A; P; B; Q; T; F]).

(** What the client is to send, and what the terminal showed before. *)
Context (header file old : bytes).

Record wires k : Prop := {
  wi_client : wr_chan k (Socket.fd_ (client e)) = Some A;
  wi_source : rd_chan k (Socket.fd_ (source e)) = Some A;
  wi_pr : rd_chan k (Pipe.readFd (proxy_pipe e)) = Some P;
  wi_pw : wr_chan k (Pipe.writeFd (proxy_pipe e)) = Some P;
  wi_backend : wr_chan k (Socket.fd_ (backend e)) = Some B;
  wi_shown : rd_chan k (Socket.fd_ (shown e)) = Some B;
  wi_mr : rd_chan k (Pipe.readFd (main_pipe e)) = Some Q;
  wi_mw : wr_chan k (Pipe.writeFd (main_pipe e)) = Some Q;
  wi_out : wr_chan k Splicing.STDOUT_FILENO = Some T;
  wi_file : rd_chan k (FileStream.handle (fs e)) = Some F;
}.

Lemma wires_transfer k k' f : transfer k k' f → wires k → wires k'.
Proof. intros (_ & Hr & Hw) []. by split; rewrite ?Hr, ?Hw. Qed.

Lemma wires_moved k k' ci co d : moved k k' ci co d → wires k → wires k'.
Proof. intros (_ & r & _ & Ht). by eapply wires_transfer. Qed.

(** A pipe and the same pipe with another count. *)
Definition same_ends (p q : Pipe.Pipe) : Prop :=
  Pipe.readFd p = Pipe.readFd q ∧ Pipe.writeFd p = Pipe.writeFd q.

Lemma same_ends_grow p q n : same_ends p q → same_ends (Pipe.grow p n) q.
Proof. unfold Pipe.grow. by destruct (0 <? n). Qed.
Lemma same_ends_shrink p q n : same_ends p q → same_ends (Pipe.shrink p n) q.
Proof. unfold Pipe.shrink. by destruct (0 <? n). Qed.

Definition pipe_of_proxy (p : proxy_pc) : Pipe.Pipe :=
  match p with PFetch q | PForward q | PDone q => q end.

(** ** The invariant *)

(** The header goes out first, then the file. *)
Definition client_inv k (c : client_pc) (h f : bytes) : Prop :=
  h `prefix_of` header ∧ file = f ++ content k F
  ∧ match c with CHeader => h = [] ∧ f = [] | CFile => f = [] | CDone => True end.

(** [first] went through the buffer, and [seen] of it to the terminal, [out]
    through the pipe. *)
Definition main_inv w (m : main_pc) (first seen out : bytes) : Prop :=
  (length first <= 39)%nat ∧
  match m with
  | MFirst b => b = MutableBuffer.new ∧ first = [] ∧ seen = [] ∧ out = [] ∧ content (wkern w) Q = []
  | MShow b => mbuf_rep (wmem w) b first ∧ seen = [] ∧ out = [] ∧ content (wkern w) Q = []
  | MFetch p | MPrint p | MDone p => seen `prefix_of` first ∧ same_ends p (main_pipe e)
  end.

(** What is on its way. *)
Definition queue k : bytes := content k Q ++ content k B ++ content k P ++ content k A.

(** Everything that was sent has arrived or is on its way, in order. *)
Definition flow k (h f first seen out : bytes) : Prop :=
  h ++ f = first ++ out ++ queue k
  ∧ content k T = old ++ seen ++ out.

Record relay_inv (g : net) : Prop := {
  ri_wf : mem_wf (wmem (nworld g));
  ri_header : mem_at (wmem (nworld g)) (hbuf e) header;
  ri_wires : wires (wkern (nworld g));
  ri_proxy : same_ends (pipe_of_proxy (nproxy g)) (proxy_pipe e);
  ri_flow : ∃ h f first seen out, client_inv (wkern (nworld g)) (nclient g) h f
    ∧ main_inv (nworld g) (nmain g) first seen out ∧ flow (wkern (nworld g)) h f first seen out;
}.

(** ** The measure *)

(** What a step of each thread uses up: bytes on the way weigh less and less. *)
Definition client_weight k (c : client_pc) : nat :=
  match c with
  | CHeader => 6 * (length header + length (content k F)) + 2
  | CFile => 6 * length (content k F) + 1
  | CDone => 0
  end.
Definition proxy_weight (p : proxy_pc) : nat :=
  match p with PFetch _ => 1 | PForward _ => 2 | PDone _ => 0 end.
Definition main_weight (m : main_pc) : nat :=
  match m with MFirst _ => 4 | MShow _ => 3 | MFetch _ => 1 | MPrint _ => 2 | MDone _ => 0 end.

Definition weight (g : net) : nat :=
  let k := wkern (nworld g) in
  client_weight k (nclient g) + 6 * length (content k A) + 3 * length (content k P)
  + 3 * length (content k B) + proxy_weight (nproxy g) + main_weight (nmain g).

Definition good_step (g g' : net) : Prop := relay_inv g' ∧ (weight g' < weight g)%nat.

(** ** The steps of the threads *)

Lemma main_inv_frame w w' m first seen out :
  wmem w' = wmem w → content (wkern w') Q = content (wkern w) Q →
  main_inv w m first seen out → main_inv w' m first seen out.
Proof. intros Em Eq [Hl H]. split; [done|]. destruct m; rewrite ?Em, ?Eq; done. Qed.

Lemma client_inv_frame k k' c h f :
  content k' F = content k F → client_inv k c h f → client_inv k' c h f.
Proof. intros E (? & ? & ?). unfold client_inv. by rewrite E. Qed.

(** The channels are all different. *)
Ltac channels :=
  let D := fresh "D" in
  pose proof Hdist as D; rewrite !NoDup_cons, !not_elem_of_cons in D; destruct_and! D.

(** The client sends [d]. *)
Lemma flow_send k k' h f first seen out d h' f' :
  h' ++ f' = (h ++ f) ++ d →
  content k' A = content k A ++ d → (∀ c, c ≠ A → c ≠ F → content k' c = content k c) →
  flow k h f first seen out → flow k' h' f' first seen out.
Proof using Hdist.
  intros Hd EA E [H1 H2]. channels. unfold flow, queue in *. rewrite EA, !E by congruence.
  split; [|done]. rewrite Hd, H1. by rewrite <- !app_assoc.
Qed.

(** The client has sent [d] and goes on at [c']. *)
Lemma inv_send w c (p : proxy_pc) (m : main_pc) w' c' h f first seen out d h' f' :
  relay_inv (Net w c p m) → main_inv w m first seen out → flow (wkern w) h f first seen out →
  wmem w' = wmem w → wires (wkern w') → client_inv (wkern w') c' h' f' →
  h' ++ f' = (h ++ f) ++ d →
  content (wkern w') A = content (wkern w) A ++ d →
  (∀ c0, c0 ≠ A → c0 ≠ F → content (wkern w') c0 = content (wkern w) c0) →
  (client_weight (wkern w') c' + 6 * length d < client_weight (wkern w) c)%nat →
  good_step (Net w c p m) (Net w' c' p m).
Proof using Hdist.
  intros [Wf Hh _ Hp _] Hm Hfl Em Wi Hc Hd EA E Hw. simpl in *. channels. split; [split; simpl|].
  - by rewrite Em.
  - by rewrite Em.
  - done.
  - done.
  - exists h', f', first, seen, out. split; [done|].
    split; [apply (main_inv_frame w); [done|apply E; congruence|done]|by eapply flow_send].
  - unfold weight. simpl. rewrite EA, (E P), (E B), length_app by congruence. lia.
Qed.

Lemma client_header_good w (p : proxy_pc) (m : main_pc) :
  relay_inv (Net w CHeader p m) → hsize e = Z.of_nat (length header) →
  wp (client_step e CHeader) (λ c' w', good_step (Net w CHeader p m) (Net w' c' p m)) w.
Proof using KL Hdist.
  intros Hi Hs. pose proof Hi as [Wf Hh Wi _ (h & f & first & seen & out & Hcl & Hm & Hfl)].
  channels. simpl in *. destruct Hcl as (Hpre & Hf & -> & ->).
  assert (Hgo : ∀ k' x n, put (wkern w) k' A (take n header) →
    good_step (Net w CHeader p m) (Net (World (wmem w) k' x) CFile p m)).
  { intros k' x n Hput.
    apply (inv_send w CHeader p m _ _ [] [] first seen out (take n header) (take n header) []);
      simpl; try done.
    - by eapply wires_transfer.
    - split; [apply prefix_take|]. by rewrite (put_other _ _ _ _ F Hput) by congruence.
    - by rewrite app_nil_r.
    - by apply put_content.
    - intros c0 ? _. by apply (put_other _ _ _ _ _ Hput).
    - rewrite length_take, (put_other _ _ _ _ F Hput) by congruence. lia. }
  unfold client_step, Socket.write. wp_step. apply (wp_write _ _ header); [done|done|..].
  - intros k' x Ht. wp_step. apply (Hgo _ _ 0%nat). by apply put_nil.
  - intros r a k' Ha Hr Hput. wp_step. assert (a = A) as -> by (destruct Wi; congruence). by eapply Hgo.
Qed.

Lemma client_file_good w (p : proxy_pc) (m : main_pc) :
  relay_inv (Net w CFile p m) →
  wp (client_step e CFile) (λ c' w', good_step (Net w CFile p m) (Net w' c' p m)) w.
Proof using KL Hdist.
  intros Hi. pose proof Hi as [Wf Hh Wi _ (h & f & first & seen & out & Hcl & Hm & Hfl)].
  channels. simpl in *. destruct Hcl as (Hpre & Hf & ->).
  assert (Hgo : ∀ k' x d, moved (wkern w) k' F A d →
    good_step (Net w CFile p m) (Net (World (wmem w) k' x) CDone p m)).
  { intros k' x d Hmv. destruct (moved_content _ _ _ _ _ Hmv) as [E1 E2].
    apply (inv_send w CFile p m _ _ h [] first seen out d h d); simpl; try done.
    - by eapply wires_moved.
    - split; [done|]. by rewrite <- E1.
    - by rewrite app_nil_r.
    - intros c0 ? ?. by apply (moved_other _ _ _ _ _ _ Hmv).
    - rewrite E1, length_app. lia. }
  unfold client_step, Socket.write_file. wp_step. apply wp_sendfile.
  - intros k' x Ht. wp_step. apply (Hgo _ _ []). by apply moved_nil.
  - intros a b d k' Ha Hb _ Hmv. wp_step. assert (a = F) as -> by (destruct Wi; congruence).
    assert (b = A) as -> by (destruct Wi; congruence). by eapply Hgo.
Qed.

(** A thread has moved bytes on, from one channel to the next. *)
Lemma inv_shift w c (p : proxy_pc) (m : main_pc) w' (p' : proxy_pc) (m' : main_pc) :
  relay_inv (Net w c p m) → wmem w' = wmem w → wires (wkern w') →
  same_ends (pipe_of_proxy p') (proxy_pipe e) →
  queue (wkern w') = queue (wkern w) → content (wkern w') T = content (wkern w) T →
  content (wkern w') F = content (wkern w) F →
  (∀ first seen out, main_inv w m first seen out → main_inv w' m' first seen out) →
  (weight (Net w' c p' m') < weight (Net w c p m))%nat →
  good_step (Net w c p m) (Net w' c p' m').
Proof.
  intros [Wf Hh _ _ (h & f & first & seen & out & Hcl & Hm & [Hfl Ho])] Em Wi Hp EQ ET EF HM Hw.
  split; [|done]. split; simpl in *; rewrite ?Em; try done.
  exists h, f, first, seen, out. split; [by eapply client_inv_frame|]. split; [by apply HM|].
  split; [by rewrite EQ|by rewrite ET].
Qed.

Lemma proxy_fetch_good w c q (m : main_pc) :
  relay_inv (Net w c (PFetch q) m) →
  wp (proxy_step e (PFetch q)) (λ p' w', good_step (Net w c (PFetch q) m) (Net w' c p' m)) w.
Proof using KL Hdist.
  intros Hi. pose proof Hi as [_ _ Wi Hp _]. channels. simpl in *. pose proof Hp as [Er Ew].
  assert (Hgo : ∀ k' x d (p' : proxy_pc), moved (wkern w) k' A P d →
    same_ends (pipe_of_proxy p') (proxy_pipe e) → (proxy_weight p' < 1 + 3 * length d)%nat →
    good_step (Net w c (PFetch q) m) (Net (World (wmem w) k' x) c p' m)).
  { intros k' x d p' Hmv Hp' Hw. destruct (moved_content _ _ _ _ _ Hmv) as [E1 E2].
    assert (E : ∀ c0, c0 ≠ A → c0 ≠ P → content k' c0 = content (wkern w) c0)
      by (intros; by apply (moved_other _ _ _ _ _ _ Hmv)).
    apply inv_shift; simpl; try done.
    - by eapply wires_moved.
    - unfold queue. rewrite E1, E2, !E by congruence. by rewrite <- !app_assoc.
    - by apply E.
    - by apply E.
    - intros ???. apply main_inv_frame; [done|by apply E].
    - unfold weight. simpl. rewrite E1, E2, !length_app, (E B) by congruence.
      assert (client_weight k' c = client_weight (wkern w) c) as -> by (destruct c; simpl; rewrite ?(E F); done).
      lia. }
  unfold proxy_step, Socket.read_pipe, Pipe.write_socket. wp_step. wp_step. apply wp_splice.
  - intros k' x Ht. wp_step. wp_step. apply (Hgo _ _ []); [by apply moved_nil|done|simpl; lia].
  - intros a b d k' Ha Hb _ Hmv. wp_step. wp_step. cbn [fst snd].
    assert (a = A) as -> by (destruct Wi; congruence). assert (b = P) as -> by (destruct Wi; congruence).
    apply (Hgo _ _ d); [done|destruct (0 <? _); by apply same_ends_grow|].
    destruct (Z.ltb_spec 0 (Z.of_nat (length d))); simpl; lia.
Qed.

Lemma proxy_forward_good w c q (m : main_pc) :
  relay_inv (Net w c (PForward q) m) →
  wp (proxy_step e (PForward q)) (λ p' w', good_step (Net w c (PForward q) m) (Net w' c p' m)) w.
Proof using KL Hdist.
  intros Hi. pose proof Hi as [_ _ Wi Hp _]. channels. simpl in *. pose proof Hp as [Er Ew].
  assert (Hgo : ∀ k' x d, moved (wkern w) k' P B d →
    good_step (Net w c (PForward q) m) (Net (World (wmem w) k' x) c (PFetch q) m)).
  { intros k' x d Hmv. destruct (moved_content _ _ _ _ _ Hmv) as [E1 E2].
    assert (E : ∀ c0, c0 ≠ P → c0 ≠ B → content k' c0 = content (wkern w) c0)
      by (intros; by apply (moved_other _ _ _ _ _ _ Hmv)).
    apply inv_shift; simpl; try done.
    - by eapply wires_moved.
    - unfold queue. rewrite E1, E2, (E Q), (E A) by congruence. by rewrite <- !app_assoc.
    - apply E; congruence.
    - apply E; congruence.
    - intros ???. apply main_inv_frame; [done|apply E; congruence].
    - unfold weight. simpl. rewrite E1, E2, !length_app, (E A) by congruence.
      assert (client_weight k' c = client_weight (wkern w) c) as ->
        by (destruct c; simpl; rewrite ?E by congruence; done).
      lia. }
  unfold proxy_step, Socket.write_pipe. wp_step. apply wp_splice.
  - intros k' x Ht. wp_step. apply (Hgo _ _ []). by apply moved_nil.
  - intros a b d k' Ha Hb _ Hmv. wp_step. assert (a = P) as -> by (destruct Wi; congruence).
    assert (b = B) as -> by (destruct Wi; congruence). by apply (Hgo _ _ d).
Qed.

(** The main thread has taken bytes from the way or shown some. *)
Lemma inv_main w c (p : proxy_pc) (m : main_pc) w' (m' : main_pc) :
  relay_inv (Net w c p m) → mem_wf (wmem w') → mem_at (wmem w') (hbuf e) header → wires (wkern w') →
  (∀ c0, c0 ≠ B → c0 ≠ Q → c0 ≠ T → content (wkern w') c0 = content (wkern w) c0) →
  (∀ first seen out, main_inv w m first seen out → content (wkern w) T = old ++ seen ++ out →
   ∃ first' seen' out', main_inv w' m' first' seen' out'
    ∧ first ++ out ++ content (wkern w) Q ++ content (wkern w) B
      = first' ++ out' ++ content (wkern w') Q ++ content (wkern w') B
    ∧ content (wkern w') T = old ++ seen' ++ out') →
  (main_weight m' + 3 * length (content (wkern w') B)
    < main_weight m + 3 * length (content (wkern w) B))%nat →
  good_step (Net w c p m) (Net w' c p m').
Proof using Hdist.
  intros [_ _ _ Hp (h & f & first & seen & out & Hcl & Hm & [Hfl Ho])] Wf Hh Wi E HM Hw.
  channels. simpl in *. destruct (HM _ _ _ Hm Ho) as (first' & seen' & out' & Hm' & Hq & Ho').
  split; [split; simpl; try done|].
  - exists h, f, first', seen', out'. split; [apply (client_inv_frame (wkern w)); [apply E; congruence|done]|].
    split; [done|]. split; [|done]. rewrite Hfl. unfold queue.
    rewrite (E A), (E P) by congruence. rewrite !app_assoc in Hq. by rewrite !app_assoc, Hq.
  - unfold weight. simpl. rewrite (E A), (E P) by congruence.
    assert (client_weight (wkern w') c = client_weight (wkern w) c) as ->
      by (destruct c; simpl; rewrite ?(E F) by congruence; done).
    lia.
Qed.

Lemma rep_unique m b l1 l2 : mbuf_rep m b l1 → mbuf_rep m b l2 → l1 = l2.
Proof.
  intros [M1 S1]%rep_view [M2 S2]%rep_view. unfold mem_at in *.
  rewrite <- S1 in M1. rewrite <- S2 in M2. congruence.
Qed.

Lemma main_first_good w c (p : proxy_pc) b :
  relay_inv (Net w c p (MFirst b)) →
  wp (main_step e (MFirst b)) (λ m' w', good_step (Net w c p (MFirst b)) (Net w' c p m')) w.
Proof using KL Hdist.
  intros Hi. pose proof Hi as [Wf Hh Wi _ (h & f & first & seen & out & _ & (_ & Hb & _) & _)].
  channels. simpl in *. subst b. unfold main_step, Socket.read_buffer. wp_step.
  eapply wp_mono; [apply (read_loop_spec _ w _ B _ [] 39 0); try done|].
  { apply rep_empty. }
  { by left. }
  { apply Wi. }
  { lia. }
  intros [rv b'] w' (d & Htk & Hlen & Wf' & Hrep & _ & [Hot _] & _). wp_step. simpl in *.
  pose proof (took_content _ _ _ _ Htk) as EB.
  apply inv_main; simpl; try done.
  - destruct (decide (header = [])) as [->|Hne]; [done|].
    eapply only_touches_mem_at; [exact Wf|exact Hot| |done].
    pose proof (mem_at_valid _ _ _ Wf Hh Hne). simpl. lia.
  - destruct Htk as (r & _ & Ht). by eapply wires_transfer.
  - intros c0 ? ? ?. by apply (took_other _ _ _ _ _ Htk).
  - intros ? ? ? (_ & _ & -> & -> & -> & EQ) Ho. rewrite (took_other _ _ _ _ T Htk) by congruence.
    exists d, [], []. simpl. rewrite (took_other _ _ _ _ Q Htk), EQ, EB by congruence.
    split; [|done]. split; [lia|]. by rewrite (took_other _ _ _ _ Q Htk) by congruence.
  - rewrite EB, length_app. lia.
Qed.

Lemma main_show_good w c (p : proxy_pc) b :
  relay_inv (Net w c p (MShow b)) →
  wp (main_step e (MShow b)) (λ m' w', good_step (Net w c p (MShow b)) (Net w' c p m')) w.
Proof using KL Hdist.
  intros Hi. pose proof Hi as [Wf Hh Wi _ (h & f & first & seen & out & _ & (_ & Hb & _) & _)].
  channels. simpl in *.
  assert (Hgo : ∀ k' x n, put (wkern w) k' T (take n first) →
    good_step (Net w c p (MShow b)) (Net (World (wmem w) k' x) c p (MFetch (main_pipe e)))).
  { intros k' x n Hput. apply inv_main; simpl; try done.
    - by eapply wires_transfer.
    - intros c0 ? ? ?. by apply (put_other _ _ _ _ _ Hput).
    - intros first' ? ? (Hl & Hb' & -> & -> & EQ) Ho.
      assert (first' = first) as -> by (by eapply rep_unique).
      exists first, (take n first), []. rewrite (put_content _ _ _ _ Hput), Ho.
      rewrite (put_other _ _ _ _ Q Hput), (put_other _ _ _ _ B Hput), !app_nil_r by congruence.
      split; [|done]. split; [done|]. split; [apply prefix_take|by split].
    - rewrite (put_other _ _ _ _ B Hput) by congruence. lia. }
  unfold main_step. wp_step. pose proof (rep_view _ _ _ Hb) as [Hd Hsz].
  apply (wp_write _ _ first); [done|done|..].
  - intros k' x Ht. wp_step. apply (Hgo _ _ 0%nat). by apply put_nil.
  - intros r a k' Ha Hr Hput. wp_step. assert (a = T) as -> by (destruct Wi; congruence). by eapply Hgo.
Qed.

Lemma main_fetch_good w c (p : proxy_pc) q :
  relay_inv (Net w c p (MFetch q)) →
  wp (main_step e (MFetch q)) (λ m' w', good_step (Net w c p (MFetch q)) (Net w' c p m')) w.
Proof using KL Hdist.
  intros Hi. pose proof Hi as [Wf Hh Wi _ (h & f & first & seen & out & _ & (_ & _ & Hq) & _)].
  channels. simpl in *. pose proof Hq as [Er Ew].
  assert (Hgo : ∀ k' x d (m' : main_pc), moved (wkern w) k' B Q d →
    (∀ first seen out, main_inv w (MFetch q) first seen out →
       main_inv (World (wmem w) k' x) m' first seen out) →
    (main_weight m' < 1 + 3 * length d)%nat →
    good_step (Net w c p (MFetch q)) (Net (World (wmem w) k' x) c p m')).
  { intros k' x d m' Hmv HM Hw. destruct (moved_content _ _ _ _ _ Hmv) as [E1 E2].
    apply inv_main; simpl; try done.
    - by eapply wires_moved.
    - intros c0 ? ? ?. by apply (moved_other _ _ _ _ _ _ Hmv).
    - intros f0 s0 o0 Hm0 Ho. exists f0, s0, o0. split; [by apply HM|].
      rewrite E1, E2, (moved_other _ _ _ _ _ T Hmv) by congruence.
      split; [by rewrite <- !app_assoc|done].
    - rewrite E1, length_app. lia. }
  unfold main_step, Socket.read_pipe, Pipe.write_socket. wp_step. wp_step. apply wp_splice.
  - intros k' x Ht. wp_step. wp_step. apply (Hgo _ _ []); [by apply moved_nil|done|simpl; lia].
  - intros a b d k' Ha Hb _ Hmv. wp_step. wp_step. cbn [fst snd].
    assert (a = B) as -> by (destruct Wi; congruence). assert (b = Q) as -> by (destruct Wi; congruence).
    apply (Hgo _ _ d); [done| |destruct (Z.ltb_spec 0 (Z.of_nat (length d))); simpl; lia].
    intros ??? (Hl & Hs & He). split; [done|].
    destruct (0 <? _); (split; [done|by apply same_ends_grow]).
Qed.

Lemma main_print_good w c (p : proxy_pc) q :
  relay_inv (Net w c p (MPrint q)) →
  wp (main_step e (MPrint q)) (λ m' w', good_step (Net w c p (MPrint q)) (Net w' c p m')) w.
Proof using KL Hdist.
  intros Hi. pose proof Hi as [Wf Hh Wi _ (h & f & first & seen & out & _ & (_ & _ & Hq) & _)].
  channels. simpl in *. pose proof Hq as [Er Ew].
  assert (Hgo : ∀ k' x d q', moved (wkern w) k' Q T d → same_ends q' (main_pipe e) →
    good_step (Net w c p (MPrint q)) (Net (World (wmem w) k' x) c p (MFetch q'))).
  { intros k' x d q' Hmv Hq'. destruct (moved_content _ _ _ _ _ Hmv) as [E1 E2].
    apply inv_main; simpl; try done.
    - by eapply wires_moved.
    - intros c0 ? ? ?. by apply (moved_other _ _ _ _ _ _ Hmv).
    - intros f0 s0 o0 (Hl & Hs & _) Ho. exists f0, s0, (o0 ++ d). split; [done|].
      rewrite E1, E2, Ho, (moved_other _ _ _ _ _ B Hmv) by congruence.
      by rewrite <- !app_assoc.
    - rewrite (moved_other _ _ _ _ _ B Hmv) by congruence. lia. }
  unfold main_step, Pipe.read_fd. wp_step. wp_step. apply wp_splice.
  - intros k' x Ht. wp_step. wp_step. apply (Hgo _ _ []); [by apply moved_nil|done].
  - intros a b d k' Ha Hb _ Hmv. wp_step. wp_step. cbn [fst snd].
    assert (a = Q) as -> by (destruct Wi; congruence). assert (b = T) as -> by (destruct Wi; congruence).
    apply (Hgo _ _ d); [done|by apply same_ends_shrink].
Qed.

(** ** All threads together *)

Context (Hsize : hsize e = Z.of_nat (length header)).

Lemma client_step_good w c p m :
  relay_inv (Net w c p m) → client_done c = false →
  wp (client_step e c) (λ c' w', good_step (Net w c p m) (Net w' c' p m)) w.
Proof using KL Hdist Hsize.
  intros Hi Hc. destruct c; [by apply client_header_good|by apply client_file_good|done].
Qed.

Lemma proxy_step_good w c p m :
  relay_inv (Net w c p m) → proxy_done p = false →
  wp (proxy_step e p) (λ p' w', good_step (Net w c p m) (Net w' c p' m)) w.
Proof using KL Hdist.
  intros Hi Hp. destruct p; [by apply proxy_fetch_good|by apply proxy_forward_good|done].
Qed.

Lemma main_step_good w c p m :
  relay_inv (Net w c p m) → main_done m = false →
  wp (main_step e m) (λ m' w', good_step (Net w c p m) (Net w' c p m')) w.
Proof using KL Hdist.
  intros Hi Hm. destruct m; eauto using main_first_good, main_show_good, main_fetch_good, main_print_good.
  done.
Qed.

Lemma net_step_good g g' : relay_inv g → net_step e g g' → good_step g g'.
Proof using KL Hdist Hsize.
  intros Hi Hs. destruct Hs as [w c p m c' w' Hn E|w c p m p' w' Hn E|w c p m m' w' Hn E].
  - pose proof (client_step_good _ _ _ _ Hi Hn) as W. unfold wp in W. by rewrite E in W.
  - pose proof (proxy_step_good _ _ _ _ Hi Hn) as W. unfold wp in W. by rewrite E in W.
  - pose proof (main_step_good _ _ _ _ Hi Hn) as W. unfold wp in W. by rewrite E in W.
Qed.

(** A thread that has not ended can go on: no step is undefined. *)
Lemma net_progress g : relay_inv g → finished g = false → ∃ g', net_step e g g'.
Proof using KL Hdist Hsize.
  intros Hi Hf. destruct g as [w c p m]. unfold finished in Hf. simpl in Hf.
  destruct (client_done c) eqn:Hc.
  - destruct (proxy_done p) eqn:Hp; simpl in Hf.
    + destruct (wp_elim _ _ _ (main_step_good _ _ _ _ Hi Hf)) as (m' & w' & E & _).
      eexists. by eapply step_main.
    + destruct (wp_elim _ _ _ (proxy_step_good _ _ _ _ Hi Hp)) as (p' & w' & E & _).
      eexists. by eapply step_proxy.
  - destruct (wp_elim _ _ _ (client_step_good _ _ _ _ Hi Hc)) as (c' & w' & E & _).
    eexists. by eapply step_client.
Qed.

Lemma net_steps_good n g g' :
  relay_inv g → nsteps (net_step e) n g g' → relay_inv g' ∧ (n + weight g' <= weight g)%nat.
Proof using KL Hdist Hsize.
  intros Hi Hn. induction Hn as [|n g1 g2 g3 H12 _ IH]; [auto with lia|].
  destruct (net_step_good _ _ Hi H12) as [Hi2 Hw]. destruct (IH Hi2) as [Hi3 Hw3]. split; [done|lia].
Qed.

(** The connections are there and nothing is on its way. *)
Record ready w : Prop := {
  rd_wf : mem_wf (wmem w);
  rd_header : mem_at (wmem w) (hbuf e) header;
  rd_wires : wires (wkern w);
  rd_file : content (wkern w) F = file;
  rd_empty : queue (wkern w) = [];
  rd_old : content (wkern w) T = old;
}.

Lemma ready_inv w : ready w → relay_inv (start e w).
Proof.
  intros [Wf Hh Wi EF Eq ET]. split; simpl; try done.
  exists [], [], [], [], []. split; [split; [apply prefix_nil|by rewrite EF]|].
  apply app_nil in Eq as Eq'. destruct Eq' as [EQ _].
  split; [split; [simpl; lia|done]|]. split; [by rewrite Eq|by rewrite ET, app_nil_r].
Qed.

(** C7: whatever the threads' order and whatever the system does, the terminal
    gets the bytes of the client in order: what was shown through the buffer
    (perhaps not all of its at most 39 bytes), what went through the pipe and
    what is on its way are what the client has sent, a beginning of the header
    and then a beginning of the file. *)
Theorem relay_fifo w g :
  ready w → rtc (net_step e) (start e w) g →
  ∃ h f first seen out, let k := wkern (nworld g) in
    h `prefix_of` header ∧ file = f ++ content k F
    ∧ h ++ f = first ++ out ++ content k Q ++ content k B ++ content k P ++ content k A
    ∧ content k T = old ++ seen ++ out
    ∧ seen `prefix_of` first ∧ (length first <= 39)%nat.
Proof using KL Hdist Hsize.
  intros Hr [n Hn]%rtc_nsteps. destruct (net_steps_good _ _ _ (ready_inv _ Hr) Hn) as [Hi _].
  destruct Hi as [_ _ _ _ (h & f & first & seen & out & (Hh & Hf & _) & [Hl Hm] & Hq & Ho)].
  exists h, f, first, seen, out. split_and!; try done.
  destruct (nmain g); [|by destruct Hm as (_ & -> & _); apply prefix_nil|by destruct Hm..].
  destruct Hm as (_ & -> & -> & _). apply prefix_nil.
Qed.

(** C21: the program ends: no order of the threads has more than six steps per
    byte and seven, and as long as a thread is not at its end it can go on. *)
Theorem relay_terminates w n g :
  ready w → nsteps (net_step e) n (start e w) g →
  (n <= 6 * (length header + length file) + 7)%nat
  ∧ (finished g = false → ∃ g', net_step e g g').
Proof using KL Hdist Hsize.
  intros Hr Hn. destruct (net_steps_good _ _ _ (ready_inv _ Hr) Hn) as [Hi Hw].
  split; [|by apply net_progress].
  pose proof (rd_empty _ Hr) as Eq. unfold queue in Eq.
  apply app_nil in Eq as [_ [EB [EP EA]%app_nil]%app_nil].
  unfold weight at 2 in Hw. simpl in Hw. rewrite EB, EP, EA, (rd_file _ Hr) in Hw. simpl in Hw. lia.
Qed.

(** ** A thread that is too early *)

Lemma moved_from_nil k k' ci co d : moved k k' ci co d → content k ci = [] → d = [].
Proof. intros [E _]%moved_content E'. rewrite E' in E. by apply symmetry, app_nil in E as [-> _]. Qed.

(** A splice from an empty channel ends a loop. *)
Lemma proxy_fetch_empty w q :
  wires (wkern w) → content (wkern w) A = [] →
  wp (proxy_step e (PFetch q)) (λ p' _, proxy_done p' = true) w.
Proof using KL.
  intros Wi EA. unfold proxy_step, Socket.read_pipe, Pipe.write_socket. wp_step. wp_step.
  apply wp_splice; [intros; wp_step; by wp_step|]. intros a b d k' Ha Hb _ Hmv. wp_step. wp_step.
  assert (a = A) as -> by (destruct Wi; congruence). by rewrite (moved_from_nil _ _ _ _ _ Hmv EA).
Qed.

Lemma main_fetch_empty w q :
  wires (wkern w) → content (wkern w) B = [] →
  wp (main_step e (MFetch q)) (λ m' _, main_done m' = true) w.
Proof using KL.
  intros Wi EB. unfold main_step, Socket.read_pipe, Pipe.write_socket. wp_step. wp_step.
  apply wp_splice; [intros; wp_step; by wp_step|]. intros a b d k' Ha Hb _ Hmv. wp_step. wp_step.
  assert (a = B) as -> by (destruct Wi; congruence). by rewrite (moved_from_nil _ _ _ _ _ Hmv EB).
Qed.

(** As long as the client has sent nothing there is nothing anywhere. *)
Lemma nothing_sent w p m :
  relay_inv (Net w CHeader p m) → queue (wkern w) = [] ∧ content (wkern w) T = old.
Proof.
  intros [_ _ _ _ (h & f & first & seen & out & (_ & _ & -> & ->) & [_ Hm] & Hq & Ho)]. simpl in *.
  symmetry in Hq. apply app_nil in Hq as [-> [-> Hq]%app_nil]. split; [done|]. rewrite Ho.
  destruct m; [destruct Hm as (_ & _ & -> & _)|destruct Hm as (_ & -> & _)|destruct Hm as [Hs _]..];
    try (apply prefix_nil_inv in Hs as ->); by rewrite !app_nil_r.
Qed.

Lemma proxy_gives_up w q m :
  relay_inv (Net w CHeader (PFetch q) m) →
  ∃ w' q', relay_inv (Net w' CHeader (PDone q') m)
    ∧ net_step e (Net w CHeader (PFetch q) m) (Net w' CHeader (PDone q') m).
Proof using KL Hdist.
  intros Hi. destruct (nothing_sent _ _ _ Hi) as [Eq _]. apply app_nil in Eq as [_ [_ [_ EA]%app_nil]%app_nil].
  destruct (wp_elim _ _ _ (wp_and _ _ _ _ (proxy_fetch_good _ _ _ _ Hi)
    (proxy_fetch_empty w q (ri_wires _ Hi) EA))) as (p' & w' & E & [[Hi' _] Hd]).
  destruct p' as [|?|q']; [done..|]. exists w', q'. split; [done|]. by eapply step_proxy.
Qed.

Lemma main_gives_up w p b :
  relay_inv (Net w CHeader p (MFirst b)) →
  ∃ w' q', relay_inv (Net w' CHeader p (MDone q'))
    ∧ rtc (net_step e) (Net w CHeader p (MFirst b)) (Net w' CHeader p (MDone q')).
Proof using KL Hdist.
  intros Hi.
  destruct (wp_elim _ _ _ (main_first_good _ _ _ _ Hi)) as (m1 & w1 & E1 & [Hi1 _]).
  assert (∃ b1, m1 = MShow b1) as [b1 ->].
  { revert E1. unfold main_step, mbind, ST_bind. destruct (Socket.read_buffer _ _ _ _) as [[??]| | |]; [|done..].
    intros [= <- <-]. eauto. }
  destruct (wp_elim _ _ _ (main_show_good _ _ _ _ Hi1)) as (m2 & w2 & E2 & [Hi2 _]).
  assert (m2 = MFetch (main_pipe e)) as ->.
  { revert E2. unfold main_step, mbind, ST_bind. destruct (Kernel.write _ _ _ _) as [[??]| | |]; [|done..].
    by intros [= <- <-]. }
  destruct (nothing_sent _ _ _ Hi2) as [Eq _]. apply app_nil in Eq as [_ [EB _]%app_nil].
  destruct (wp_elim _ _ _ (wp_and _ _ _ _ (main_fetch_good _ _ _ _ Hi2)
    (main_fetch_empty w2 _ (ri_wires _ Hi2) EB))) as (m3 & w3 & E3 & [[Hi3 _] Hd]).
  destruct m3 as [| | | |q']; [done..|]. exists w3, q'. split; [done|].
  eapply rtc_l; [by eapply step_main|]. eapply rtc_l; [by eapply step_main|].
  eapply rtc_once. by eapply step_main.
Qed.

(** The client does not touch the terminal. *)
Lemma client_step_hidden w c :
  wires (wkern w) → mem_at (wmem w) (hbuf e) header →
  wp (client_step e c) (λ _ w', content (wkern w') T = content (wkern w) T) w.
Proof using KL Hdist Hsize.
  intros Wi Hh. channels. destruct c; unfold client_step; [wp_step; unfold Socket.write|wp_step|by wp_step].
  - apply (wp_write _ _ header); [done|done|intros k' x Ht|intros r a k' Ha _ Hput]; wp_step; simpl.
    + by rewrite (transfer_content _ _ _ _ Ht).
    + assert (a = A) as -> by (destruct Wi; congruence). apply (put_other _ _ _ _ _ Hput). congruence.
  - apply wp_sendfile; [intros k' x Ht|intros a b d k' Ha Hb _ Hmv]; wp_step; simpl.
    + by rewrite (transfer_content _ _ _ _ Ht).
    + assert (a = F) as -> by (destruct Wi; congruence). assert (b = A) as -> by (destruct Wi; congruence).
      apply (moved_other _ _ _ _ _ _ Hmv); congruence.
Qed.

Lemma client_alone w c p m :
  relay_inv (Net w c p m) →
  ∃ w', rtc (net_step e) (Net w c p m) (Net w' CDone p m) ∧ content (wkern w') T = content (wkern w) T.
Proof using KL Hdist Hsize.
  assert (Hone : ∀ w c, client_done c = false → relay_inv (Net w c p m) → ∃ c' w',
    client_step e c w = Ok (c', w') ∧ relay_inv (Net w' c' p m)
    ∧ content (wkern w') T = content (wkern w) T ∧ net_step e (Net w c p m) (Net w' c' p m)).
  { intros w0 c0 Hc Hi. destruct (wp_elim _ _ _ (wp_and _ _ _ _ (client_step_good _ _ _ _ Hi Hc)
      (client_step_hidden w0 c0 (ri_wires _ Hi) (ri_header _ Hi)))) as (c' & w' & E & [[Hi' _] ET]).
    exists c', w'. split_and!; try done. by eapply step_client. }
  assert (Hfile : ∀ w, relay_inv (Net w CFile p m) → ∃ w', net_step e (Net w CFile p m) (Net w' CDone p m)
    ∧ content (wkern w') T = content (wkern w) T).
  { intros w0 Hi. destruct (Hone w0 CFile) as (c' & w' & E & _ & ET & Hs); [done..|].
    exists w'. split; [|done]. revert E. unfold client_step, mbind, ST_bind.
    destruct (Socket.write_file _ _ _ _) as [[??]| | |]; [|done..]. by intros [= <- <-]. }
  intros Hi. destruct c; [| |by exists w].
  - destruct (Hone w CHeader) as (c' & w1 & E & Hi1 & ET & Hs); [done..|].
    assert (c' = CFile) as ->.
    { revert E. unfold client_step, mbind, ST_bind.
      destruct (Socket.write _ _ _ _) as [[??]| | |]; [|done..]. by intros [= <- <-]. }
    destruct (Hfile w1 Hi1) as (w2 & Hs2 & ET2). exists w2. split; [|congruence].
    eapply rtc_l; [done|by apply rtc_once].
  - destruct (Hfile w Hi) as (w2 & Hs2 & ET2). exists w2. split; [by apply rtc_once|done].
Qed.

(** The loops end when there is nothing to read at the moment: the proxy
    and the main thread may be done before the client has sent anything, and
    then all threads end and nothing is shown, whatever the client sends. *)
Theorem relay_lost w :
  ready w → ∃ g, rtc (net_step e) (start e w) g ∧ finished g = true
    ∧ content (wkern (nworld g)) T = old.
Proof using KL Hdist Hsize.
  intros Hr. pose proof (ready_inv _ Hr) as Hi. unfold start in *.
  destruct (proxy_gives_up _ _ _ Hi) as (w1 & q1 & Hi1 & Hs1).
  destruct (main_gives_up _ _ _ Hi1) as (w2 & q2 & Hi2 & Hs2).
  destruct (client_alone _ _ _ _ Hi2) as (w3 & Hs3 & ET).
  exists (Net w3 CDone (PDone q1) (MDone q2)). split; [|split; [done|]].
  - eapply rtc_l; [done|]. by etrans.
  - simpl. rewrite ET. by apply (nothing_sent _ _ _ Hi2).
Qed.
End relay.

(** ** The loops are runs of the threads *)
Section loops.
Context {K : Kernel} {AL : Allocator} (e : setup).

(** A thread runs while the others wait. *)
Lemma proxy_loop_runs fuel : ∀ q q' w w' c m,
  Splicing.proxy_loop fuel (source e) (backend e) q w = Ok (q', w') →
  rtc (net_step e) (Net w c (PFetch q) m) (Net w' c (PDone q') m).
Proof.
  induction fuel as [|fuel IH]; intros q q' w w' c m; [done|]. cbn [Splicing.proxy_loop].
  unfold mbind, ST_bind.
  destruct (Socket.read_pipe (source e) q 1024 w) as [[[n q1] w1]| | |] eqn:E1; [|done..]. cbn [fst snd].
  assert (Hf : net_step e (Net w c (PFetch q) m)
    (Net w1 c (if 0 <? n then PForward q1 else PDone q1) m)).
  { apply step_proxy; [done|]. unfold proxy_step, mbind, ST_bind. by rewrite E1. }
  destruct (0 <? n); [|intros [= <- <-]; by apply rtc_once].
  destruct (Socket.write_pipe (backend e) q1 (Pipe.size q1) w1) as [[r w2]| | |] eqn:E2; [|done..].
  intros Hrest. eapply rtc_l; [exact Hf|]. eapply rtc_l; [|by apply IH].
  apply step_proxy; [done|]. unfold proxy_step, mbind, ST_bind. by rewrite E2.
Qed.

Lemma print_loop_runs fuel : ∀ q q' w w' c p,
  Splicing.print_loop fuel (shown e) q w = Ok (q', w') →
  rtc (net_step e) (Net w c p (MFetch q)) (Net w' c p (MDone q')).
Proof.
  induction fuel as [|fuel IH]; intros q q' w w' c p; [done|]. cbn [Splicing.print_loop].
  unfold mbind, ST_bind.
  destruct (Socket.read_pipe (shown e) q 1024 w) as [[[n q1] w1]| | |] eqn:E1; [|done..]. cbn [fst snd].
  assert (Hf : net_step e (Net w c p (MFetch q))
    (Net w1 c p (if 0 <? n then MPrint q1 else MDone q1))).
  { apply step_main; [done|]. unfold main_step, mbind, ST_bind. by rewrite E1. }
  destruct (0 <? n); [|intros [= <- <-]; by apply rtc_once].
  destruct (Pipe.read_fd q1 Splicing.STDOUT_FILENO (Pipe.size q1) w1) as [[[r q2] w2]| | |] eqn:E2; [|done..].
  intros Hrest. eapply rtc_l; [exact Hf|]. eapply rtc_l; [|by apply IH].
  apply step_main; [done|]. unfold main_step, mbind, ST_bind. by rewrite E2.
Qed.
End loops.
