(* ===== verification/Process.v ===== *)
(** * Process: programs that use all of the system

    The state of a process is the dialogue with the system of Os.v together
    with the memory and the channels of Kernel.v.  Code on sockets and files
    and code that moves bytes are parts of one program. *)

From S2P Require Import Prelude Memory BufferBase BufferParse MutableBuffer BufferSpec Libc Kernel Os.

Local Open Scope Z_scope.

Record process `{Kernel} : Type := Process { psys : os_state; pworld : world }.
Arguments Process {_} _ _.
Abbreviation PM := (ST process).

Section lifts.
Context `{Kernel}.
Implicit Types (s : process).

(** Calls on descriptors; transfers of bytes. *)
Definition on_os {A} (c : OM A) : PM A := λ s,
  match c (psys s) with
  | Ok (a, o) => Ok (a, Process o (pworld s))
  | Abort => Abort
  | UB => UB
  | NoFuel => NoFuel
  end.

Definition on_world {A} (c : WW A) : PM A := λ s,
  match c (pworld s) with
  | Ok (a, w) => Ok (a, Process (psys s) w)
  | Abort => Abort
  | UB => UB
  | NoFuel => NoFuel
  end.

(** Memory only. *)
Definition on_mem {A} (c : MM A) : PM A := on_world (lift c).

Lemma wp_on_os {A} (c : OM A) (Q : A → process → Prop) s :
  wp c (λ a o, Q a (Process o (pworld s))) (psys s) → wp (on_os c) Q s.
Proof. unfold wp, on_os. by destruct (c (psys s)) as [[??]| | |]. Qed.

Lemma wp_on_world {A} (c : WW A) (Q : A → process → Prop) s :
  wp c (λ a w, Q a (Process (psys s) w)) (pworld s) → wp (on_world c) Q s.
Proof. unfold wp, on_world. by destruct (c (pworld s)) as [[??]| | |]. Qed.

Lemma wp_on_mem {A} (c : MM A) (Q : A → process → Prop) s :
  wp c (λ a m, Q a (Process (psys s) (World m (wkern (pworld s)) (werrno (pworld s)))))
    (wmem (pworld s)) →
  wp (on_mem c) Q s.
Proof. intros Hc. by apply wp_on_world, wp_lift. Qed.
End lifts.

(** One step of a program: the lifts are taken off. *)
Ltac pm_step :=
  lazymatch goal with
  | |- wp (on_os _) _ _ => apply wp_on_os
  | |- wp (on_world _) _ _ => apply wp_on_world
  | |- wp (on_mem _) _ _ => apply wp_on_mem
  | _ => wp_step
  end.
