(* ===== verification/EchoServer.v ===== *)
(** * EchoServer: the echo server with all its clients

    The server of examples/echo-server.cpp while its event loop runs: clients
    come, any number of them at a time, the loop calls their handlers in any
    order, and a client or the interrupt signal stops the listener.  All of
    them share the memory and the descriptors of the process; each of them is
    to be served as if it were alone. *)

From S2P Require Import Prelude Memory BufferBase BufferParse MutableBuffer BufferSpec Libc Kernel Os.
From S2P Require Import Address SdDaemon Server Pipe BufferStream Socket Echo Process.

Local Open Scope Z_scope.

(** ** What a handler leaves alone *)
Section frames.
Context {AL : Allocator} {K : Kernel} {KL : KernelLaws K}.
Import Echo.
Implicit Types (c : Client) (w : world) (l d : bytes) (k : kst).

(** close(2): a call that fails leaves all other descriptors alone. *)
Definition close_fails_alone : Prop := ∀ fd k e k', sys_close fd k = (inl e, k') →
  (∀ ch, content k' ch = content k ch)
  ∧ ∀ fd', fd' ≠ fd → rd_chan k' fd' = rd_chan k fd' ∧ wr_chan k' fd' = wr_chan k fd'.

Abbreviation fd_of c := (Socket.fd_ (socket_ c)).
Definition block_of c : nat := pblk (data_ (BufferStream.buf (writeBuffer_ c))).

(** The kernel's side: only the channels of [fd] and the descriptor itself. *)
Definition kernel_frame (fd : Z) k k' : Prop :=
  (∀ ch, rd_chan k fd ≠ Some ch → wr_chan k fd ≠ Some ch → content k' ch = content k ch)
  ∧ ∀ fd', fd' ≠ fd → rd_chan k' fd' = rd_chan k fd' ∧ wr_chan k' fd' = wr_chan k fd'.

(** The client goes on as [c']: in its block or in a new one, with the same
    connection and the same handler. *)
Definition goes_on c w c' w' : Prop :=
  (block_of c' = block_of c ∨ (next (wmem w) <= block_of c')%nat)
  ∧ fd_of c' = fd_of c
  ∧ Socket.state_ (socket_ c') = Socket.state_ (socket_ c)
  ∧ Socket.handler_ (socket_ c') = Socket.handler_ (socket_ c)
  ∧ rd_chan (wkern w') (fd_of c) = rd_chan (wkern w) (fd_of c)
  ∧ wr_chan (wkern w') (fd_of c) = wr_chan (wkern w) (fd_of c).

Record frame c w (r : option Client) w' : Prop := {
  fr_wf : mem_wf (wmem w');
  fr_mem : only_touches (block_of c) (wmem w) (wmem w');
  fr_kern : kernel_frame (fd_of c) (wkern w) (wkern w');
  fr_on : ∀ c', r = Some c' → goes_on c w c' w';
}.

Lemma kernel_frame_refl fd k : kernel_frame fd k k.
Proof. by split. Qed.

Lemma kernel_frame_trans fd k k1 k2 :
  kernel_frame fd k k1 → rd_chan k1 fd = rd_chan k fd → wr_chan k1 fd = wr_chan k fd →
  kernel_frame fd k1 k2 → kernel_frame fd k k2.
Proof.
  intros [H1 F1] Er Ew [H2 F2]. split.
  - intros ch Hr Hw. rewrite H2 by congruence. by apply H1.
  - intros fd' Hne. destruct (F1 fd' Hne), (F2 fd' Hne). split; congruence.
Qed.

Lemma kernel_frame_got k k' fd d : got k k' fd d → kernel_frame fd k k'.
Proof.
  unfold got. destruct (rd_chan k fd) as [ch|] eqn:E.
  - intros Ht. split.
    + intros c' Hc' _. apply (took_other _ _ _ _ _ Ht). congruence.
    + intros fd' _. destruct Ht as (r & _ & Ht).
      by rewrite (transfer_rd _ _ _ _ Ht), (transfer_wr _ _ _ _ Ht).
  - intros [_ Ht]. split; intros; [by rewrite (transfer_content _ _ _ _ Ht)|].
    by rewrite (transfer_rd _ _ _ _ Ht), (transfer_wr _ _ _ _ Ht).
Qed.

Lemma frame_trans c w c1 w1 r w2 :
  frame c w (Some c1) w1 → frame c1 w1 r w2 → frame c w r w2.
Proof.
  intros [W1 M1 K1 O1] [W2 M2 K2 O2]. destruct (O1 c1 eq_refl) as (B1 & F1 & S1 & H1 & R1 & X1).
  rewrite F1 in *. split; [done| |by eapply kernel_frame_trans|].
  - by eapply only_touches_trans.
  - intros c2 ->. destruct (O2 c2 eq_refl) as (B2 & F2 & S2 & H2 & R2 & X2).
    pose proof (ot_next _ _ _ M1). unfold goes_on. rewrite F1 in *. split_and!; try congruence.
    destruct B2 as [->|]; [done|]. right. lia.
Qed.

Lemma frame_weaken c w c' w' : frame c w (Some c') w' → frame c w None w'.
Proof. intros [? ? ? _]. by split. Qed.

(** The destructor gives back what is the client's. *)
Lemma destroy_frame N c l w :
  close_fails_alone → echo_rep N c l w → wp (destroy c) (λ _ w', frame c w None w') w.
Proof using KL.
  intros Hcl (Hwf & pre & [Hb Ho _] & _). unfold destroy. wp_step.
  apply (wp_mono _ (λ _ w', wmem w' = wmem w ∧ kernel_frame (fd_of c) (wkern w) (wkern w'))).
  { destruct (0 <=? _); [|by wp_step]. wp_step. unfold Kernel.close. wp_step. unfold syscall, wp at 1.
    destruct (sys_close _ _) as [[e|[]] k'] eqn:E; wp_step; wp_step; (split; [done|]); simpl.
    - destruct (Hcl _ _ _ _ E). split; auto.
    - destruct (close_ok _ _ _ E) as (? & _ & _ & ?). split; auto. }
  intros _ w1 [E1 HK]. apply wp_lift. unfold BufferStream.destroy. rewrite E1. wp_step.
  eapply wp_mono; [by eapply destroy_frees|]. intros b m2 (W & T & _). wp_step. by split.
Qed.

(** [destroy c';; mret x] after [c] has gone on as [c']. *)
Lemma destroy_then_frame {B} N c w c' w' l (x : B) (Q : B → world → Prop) :
  close_fails_alone → frame c w (Some c') w' → echo_rep N c' l w' →
  (∀ w2, frame c w None w2 → Q x w2) → wp (destroy c';; mret x) Q w'.
Proof using KL.
  intros Hcl Hf Hr HQ. wp_step. eapply wp_mono; [by eapply destroy_frame|].
  intros ? w2 Hf2. wp_step. apply HQ. by eapply frame_trans.
Qed.

(** A read or a write of the client: only the kernel changes. *)
Lemma got_wires k k' fd d : got k k' fd d → rd_chan k' fd = rd_chan k fd ∧ wr_chan k' fd = wr_chan k fd.
Proof.
  unfold got. destruct (rd_chan k fd) as [ch|] eqn:E.
  - intros (r & _ & Ht). by rewrite (transfer_rd _ _ _ _ Ht), (transfer_wr _ _ _ _ Ht).
  - intros [_ Ht]. by rewrite (transfer_rd _ _ _ _ Ht), (transfer_wr _ _ _ _ Ht).
Qed.

Lemma kernel_frame_wrote k k' fd d :
  wrote k k' fd d → kernel_frame fd k k' ∧ rd_chan k' fd = rd_chan k fd ∧ wr_chan k' fd = wr_chan k fd.
Proof.
  unfold wrote. destruct (wr_chan k fd) as [ch|] eqn:E.
  - intros Ht. split; [split|by rewrite (transfer_rd _ _ _ _ Ht), (transfer_wr _ _ _ _ Ht)].
    + intros c' _ Hc'. apply (put_other _ _ _ _ _ Ht). congruence.
    + intros fd' _. by rewrite (transfer_rd _ _ _ _ Ht), (transfer_wr _ _ _ _ Ht).
  - intros [_ Ht]. split; [split|by rewrite (transfer_rd _ _ _ _ Ht), (transfer_wr _ _ _ _ Ht)]; intros.
    + by rewrite (transfer_content _ _ _ _ Ht).
    + by rewrite (transfer_rd _ _ _ _ Ht), (transfer_wr _ _ _ _ Ht).
Qed.

Lemma frame_here c w c' k e :
  mem_wf (wmem w) → kernel_frame (fd_of c) (wkern w) k →
  rd_chan k (fd_of c) = rd_chan (wkern w) (fd_of c) → wr_chan k (fd_of c) = wr_chan (wkern w) (fd_of c) →
  block_of c' = block_of c → fd_of c' = fd_of c →
  Socket.state_ (socket_ c') = Socket.state_ (socket_ c) →
  Socket.handler_ (socket_ c') = Socket.handler_ (socket_ c) →
  frame c w (Some c') (World (wmem w) k e).
Proof.
  intros Hwf HK Hr Hw Hb Hf Hs Hh. split; simpl; try done.
  intros c2 [= <-]. unfold goes_on. simpl. split_and!; try done. by left.
Qed.

Lemma watch_keeps (x : Socket.Socket) mode :
  Socket.fd_ (Socket.watch x mode) = Socket.fd_ x
  ∧ Socket.state_ (Socket.watch x mode) = Socket.state_ x
  ∧ Socket.handler_ (Socket.watch x mode) = Socket.handler_ x.
Proof. unfold Socket.watch. by destruct (Socket.span_set _), (Socket.io_ x) eqn:E; simpl; rewrite ?E. Qed.

Lemma write_local_moves N c l d w :
  echo_rep N c l w → Z.of_nat (length d) <= 2 ^ 10 →
  wp (write_local (writeBuffer_ c) d) (λ wb m', mem_wf m'
    ∧ moves (BufferStream.buf (writeBuffer_ c)) (BufferStream.buf wb) (wmem w) m') (wmem w).
Proof.
  intros (Hwf & pre & [Hb Ho Hoff] & HN) Hd. unfold write_local. wp_step.
  eapply wp_mono; [apply (push_back_local_spec (inv := owned) _ _ (pre ++ l) d); try done; zlia|].
  intros b m' [W O M R]. by wp_step.
Qed.

(** What [commands] changes in the client. *)
Lemma commands_keeps c d n w :
  wp (commands c (d ++ [NUL]) n) (λ r w', w' = w ∧ ∃ c', r.1 = Some c' ∧ socket_ c' = socket_ c
    ∧ writeBuffer_ c' = writeBuffer_ c) w.
Proof.
  eapply wp_mono; [apply commands_spec|]. intros r w' (-> & c' & ? & ? & ? & _). eauto.
Qed.

Lemma on_read_frame N c l w :
  close_fails_alone → echo_rep N c l w → short_read (wkern w) (fd_of c) →
  wp (on_read c) (λ r w', frame c w r.1 w') w.
Proof using KL.
  intros Hcl Hr Hshort. pose proof Hr as (Hwf & _). unfold on_read. wp_step. unfold read_local, syscall, wp at 1.
  destruct (sys_read (fd_of c) BUFSIZE (wkern w)) as [[e|d] k'] eqn:Ek.
  { assert (got (wkern w) k' (fd_of c) []) as Hg by (by apply got_nil, (read_err _ _ _ _ _ Ek)).
    destruct (got_wires _ _ _ _ Hg). eapply destroy_then_frame; [done| |exact Hr|done].
    apply frame_here; try done. by eapply kernel_frame_got. }
  pose proof (Hshort _ _ Ek) as Hd. destruct (read_ok _ _ _ _ _ Ek) as (ch & Hch & _ & Htook).
  assert (Hg : got (wkern w) k' (fd_of c) d) by (unfold got; by rewrite Hch).
  destruct (got_wires _ _ _ _ Hg) as [Hrd Hwr]. pose proof (kernel_frame_got _ _ _ _ Hg) as HK.
  destruct (Z.ltb_spec 0 (Z.of_nat (length d))) as [Hpos|Hz].
  2:{ eapply destroy_then_frame; [done| |exact Hr|done]. by apply frame_here. }
  destruct (Z.leb_spec BUFSIZE (Z.of_nat (length d))); [lia|]. unfold BUFSIZE in *.
  wp_step. apply wp_lift. eapply wp_mono.
  { apply (write_local_moves N c l d (World (wmem w) k' (werrno w))); [exact Hr|lia]. }
  intros wb m' (W & T & B). cbn [wkern werrno]. eapply wp_mono; [apply commands_keeps|].
  intros r w' (-> & c' & -> & Hs & Hb). split; try done.
  intros c2 [= <-]. unfold goes_on, block_of. rewrite Hs, Hb. cbn [socket_ writeBuffer_].
  destruct (watch_keeps (socket_ c) (Z.lor Socket.READ Socket.WRITE)) as (? & ? & ?). by split_and!.
Qed.

Lemma shift_block x n : data_ (BufferStream.buf (BufferStream.shift x n)) = data_ (BufferStream.buf x).
Proof. unfold BufferStream.shift. by destruct (_ <? _). Qed.

Lemma on_write_frame N c l w :
  close_fails_alone → echo_rep N c l w → wp (on_write c) (λ r w', frame c w r w') w.
Proof using KL.
  intros Hcl Hr. pose proof Hr as (Hwf & pre & Hb & HN).
  pose proof (bs_bounds _ _ _ _ Hwf Hb) as (_ & Hsz & Hmax).
  pose proof (bs_pending _ _ _ _ Hb) as Hpend.
  unfold on_write, Socket.write, Kernel.write. wp_step. wp_step. apply wp_lift.
  rewrite Hsz. eapply wp_Ok; [by apply read_range_ok|]. unfold Kernel.write_local. wp_step.
  unfold syscall, wp at 1. simpl. destruct (sys_write (fd_of c) l (wkern w)) as [[e|n] k1] eqn:Ew.
  { wp_step. change (ret_size None <? 0) with true. cbv iota.
    assert (wrote (wkern w) k1 (fd_of c) []) as Hw by (by apply wrote_nil, (write_err _ _ _ _ _ Ew)).
    destruct (kernel_frame_wrote _ _ _ _ Hw) as (? & ? & ?).
    eapply destroy_then_frame; [done| |exact Hr|done]. by apply frame_here. }
  destruct (write_ok _ _ _ _ _ Ew) as (ch & Hch & Hn & Hput). wp_step. cbn [ret_size].
  replace (n <? 0) with false by lia.
  assert (Hw : wrote (wkern w) k1 (fd_of c) (take (Z.to_nat n) l)) by (unfold wrote; by rewrite Hch).
  destruct (kernel_frame_wrote _ _ _ _ Hw) as (HK & Hrd & Hwr).
  set (wb := if 0 <? n then _ else _).
  assert (Hwb : data_ (BufferStream.buf wb) = data_ (BufferStream.buf (writeBuffer_ c)))
    by (unfold wb; destruct (0 <? n); [apply shift_block|done]).
  assert (Hrep : ∀ c', writeBuffer_ c' = wb →
    echo_rep N c' (drop (Z.to_nat n) l) (World (wmem w) k1 (werrno w))).
  { intros c' Hc'. subst wb. destruct (Z.ltb_spec 0 n).
    - eapply shift_bound; [exact Hr|zlia|done].
    - replace n with 0 by lia. simpl. rewrite drop_0. split; [done|]. exists pre. by rewrite Hc'. }
  assert (Hf : ∀ c', writeBuffer_ c' = wb → fd_of c' = fd_of c →
    Socket.state_ (socket_ c') = Socket.state_ (socket_ c) →
    Socket.handler_ (socket_ c') = Socket.handler_ (socket_ c) →
    frame c w (Some c') (World (wmem w) k1 (werrno w))).
  { intros c' Hc' ? ? ?. apply frame_here; try done. unfold block_of. by rewrite Hc', Hwb. }
  destruct (BufferStream.size wb =? 0); [|wp_step; by apply Hf]. destruct (close_ c) eqn:Ec.
  - eapply destroy_then_frame; [done|by apply Hf|by apply Hrep|done].
  - wp_step. destruct (watch_keeps (socket_ c) Socket.READ) as (? & ? & ?). by apply Hf.
Qed.

(** A handler that is not undefined leaves everything else alone. *)
Lemma handler_frame N c l w re :
  close_fails_alone → echo_rep N c l w →
  (has re Socket.TIMEOUT = false → has re Socket.READ = true → short_read (wkern w) (fd_of c)) →
  wp (handler c re) (λ r w', frame c w r.1 w') w.
Proof using KL.
  intros Hcl Hr Hs. pose proof Hr as (Hwf & _). unfold handler.
  assert (Hrefl : frame c w (Some c) w).
  { destruct w as [m k e]. by apply (frame_here c (World m k e) c k e). }
  destruct (has re Socket.TIMEOUT); [by eapply destroy_then_frame|]. specialize (Hs eq_refl). wp_step.
  apply (wp_mono _ (λ r w', frame c w r.1 w' ∧ match r.1 with
    | Some c1 => ∃ N1 l1, echo_rep N1 c1 l1 w' | None => True end)).
  { destruct (has re Socket.READ); [|wp_step; split; [done|by exists N, l]]. specialize (Hs eq_refl).
    eapply wp_mono; [apply wp_and; [by eapply on_read_frame|by eapply on_read_spec]|].
    intros [[c1|] st] w1 [Hf H1]; (split; [done|]); [|done]. cbn [fst] in *.
    destruct H1 as (d & k1 & _ & _ & _ & _ & _ & [?|[? _]]); eauto. }
  intros [[c1|] st] w1 [Hf H1]; cbn [fst] in *; [|by wp_step].
  destruct (has re Socket.WRITE); [|by wp_step]. destruct H1 as (N1 & l1 & Hr1). wp_step.
  eapply wp_mono; [by eapply on_write_frame|]. intros r w2 Hf2. wp_step. by eapply frame_trans.
Qed.
End frames.

(** ** The system *)
Module EchoServer.
Import Echo.
Section program.
Context {AL : Allocator} {K : Kernel} {os : OS} {T : InetText}.

(** [main] up to [loop.run()]; [None] when it has returned 1. *)
Definition start (junk : bytes) : OM (option Server) :=
  '(ok, srv) ← setup new_server junk;
  if ok : bool then mret (Some srv) else destroy_server srv;; mret None.

Definition with_socket (c : Client) (s : Socket.Socket) : Client :=
  mkClient s (writeBuffer_ c) (close_ c) (chunks c).

(** The listener is ready: [accept(ev::io&, int)], which calls the server's
    [accept]. *)
Definition accept_event (srv : Server) : PM (option Client) :=
  match listener_ srv with
  | None => ub
  | Some inet =>
      r ← on_os (ServerSocket.accept (InetServer.server inet));
      match r with
      | None => mret None
      | Some x => c ← on_os (Echo.accept srv (SocketDriver.create <$> x)); mret (Some c)
      end
  end.

(** The handler of a client, and the server's [stop()] when it asks for it. *)
Definition run_handler (srv : Server) (c : Client) (t : Socket.tail) : PM (option Client * Server) :=
  match t with
  | Socket.Return => mret (Some c, srv)
  | Socket.Throw => λ _, Abort
  | Socket.Call _ re =>
      on_world (handler c re) ≫= λ r : option Client * bool,
      srv ← on_os (if r.2 then stop srv else mret srv);
      mret (r.1, srv)
  end.

(** The event loop's calls for a client's socket. *)
Definition client_io (srv : Server) (c : Client) (revents : Z) : PM (option Client * Server) :=
  on_os (Socket.io (socket_ c) revents) ≫= λ r : Socket.tail * Socket.Socket,
  run_handler srv (with_socket c r.2) r.1.
Definition client_timer (srv : Server) (c : Client) : PM (option Client * Server) :=
  let r := Socket.timeout (socket_ c) in run_handler srv (with_socket c r.2) r.1.

(** A client with the channels of its connection, what it has got from its
    peer and what it has sent back. *)
Record session : Type := Session {
  client : Client; cin : chan; cout : chan; rcvd : bytes; sent : bytes;
}.

Record system : Type := System { srv : Server; sessions : gmap Z session; proc : process }.

Definition kern (p : process) : kst := wkern (pworld p).
Definition with_kern (p : process) (k : kst) (e : Z) : process :=
  Process (psys p) (World (wmem (pworld p)) k e).

(** A new connection: other descriptors and channels are as before. *)
Definition new_connection (k k' : kst) (fd : Z) (ci co : chan) : Prop :=
  connected k' fd ci co
  ∧ (∀ ch, ch ≠ ci → ch ≠ co → content k' ch = content k ch)
  ∧ ∀ fd', fd' ≠ fd → rd_chan k' fd' = rd_chan k fd' ∧ wr_chan k' fd' = wr_chan k fd'.

(** The channels are not those of the session. *)
Definition other_channels (s : session) (ci co : chan) : Prop :=
  cin s ≠ ci ∧ cin s ≠ co ∧ cout s ≠ ci ∧ cout s ≠ co.

(** What becomes of the sessions when the handler of [s] has returned [r]. *)
Definition served (ss : gmap Z session) (fd : Z) (s : session) (r : option Client) (k k' : kst)
    (ss' : gmap Z session) : Prop :=
  match r with
  | None => ss' = base.delete fd ss
  | Some c => ∃ d q, moved_io k k' (cin s) (cout s) d q
      ∧ ss' = <[fd := Session c (cin s) (cout s) (rcvd s ++ d) (sent s ++ q)]> ss
  end.

(** The steps of the server.  A handler call that does not return normally is no
    step: which of them return is the theorem [echo_server_serves], and the
    undefined ones are [echo_read_overflow] and a failed [accept], whose null
    pointer the server takes for a socket.  The channels of a new connection
    are new: the kernel gives no two connections the same ones. *)
Inductive step : system → system → Prop :=
| step_accept v ss p inet c p1 k e ci co :
    listener_ v = Some inet → active (InetServer.server inet) = true →
    accept_event v p = Ok (Some c, p1) → ss !! Socket.fd_ (socket_ c) = None →
    new_connection (kern p1) k (Socket.fd_ (socket_ c)) ci co →
    (∀ fd s, ss !! fd = Some s → other_channels s ci co) →
    step (System v ss p)
      (System v (<[Socket.fd_ (socket_ c) := Session c ci co [] []]> ss) (with_kern p1 k e))
| step_nobody v ss p inet p1 :
    listener_ v = Some inet → active (InetServer.server inet) = true →
    accept_event v p = Ok (None, p1) → step (System v ss p) (System v ss p1)
| step_peers v ss p k e :
    (∀ fd s, ss !! fd = Some s → connected k fd (cin s) (cout s)) →
    step (System v ss p) (System v ss (with_kern p k e))
| step_io v ss p fd s ev revents r v' p' ss' :
    ss !! fd = Some s → Socket.io_ (socket_ (client s)) = Some ev →
    has revents Socket.TIMEOUT = false →
    client_io v (client s) revents p = Ok ((r, v'), p') →
    served ss fd s r (kern p) (kern p') ss' → step (System v ss p) (System v' ss' p')
| step_timer v ss p fd s t r v' p' ss' :
    ss !! fd = Some s → Socket.timer_ (socket_ (client s)) = Some t →
    client_timer v (client s) p = Ok ((r, v'), p') →
    served ss fd s r (kern p) (kern p') ss' → step (System v ss p) (System v' ss' p')
| step_sigint v ss p v' p' :
    sigint_ v = true → on_os (sig v) p = Ok (v', p') → step (System v ss p) (System v' ss p').
End program.
End EchoServer.
Import EchoServer.

Section system.
Context {AL : Allocator} {K : Kernel} {KL : KernelLaws K} {os : OS} {T : InetText}.
Import Echo.
Implicit Types (c : Client) (w : world) (g : system) (s : session) (ss : gmap Z session) (p : process).

(** The client of [s] works on its connection, its buffer holds what it has
    yet to send back. *)
Record session_ok w (fd : Z) s : Prop := {
  so_fd : Socket.fd_ (socket_ (client s)) = fd;
  so_state : Socket.state_ (socket_ (client s)) = Socket.Operational;
  so_handler : Socket.handler_ (socket_ (client s)) = Some HANDLER;
  so_conn : connected (wkern w) fd (cin s) (cout s);
  so_rest : ∃ l, (rcvd s = sent s ++ l ∨ dropped (Z.of_nat (length (rcvd s))))
    ∧ echo_rep (Z.of_nat (length (rcvd s))) (client s) l w ∧ watching (client s) l;
}.

(** Two sessions share no memory and no channel. *)
Definition strangers s s' : Prop :=
  apart (block_of (client s)) (block_of (client s')) ∧ other_channels s (cin s') (cout s').

Record sys_inv g : Prop := {
  si_wf : mem_wf (wmem (pworld (proc g)));
  si_ok : ∀ fd s, sessions g !! fd = Some s → session_ok (pworld (proc g)) fd s;
  si_sep : ∀ fd fd' s s', fd ≠ fd' → sessions g !! fd = Some s → sessions g !! fd' = Some s' →
    strangers s s';
  si_listener : listener_ (srv g) ≠ None;
}.

Lemma strangers_sym s s' : strangers s s' → strangers s' s.
Proof. intros [Ha (? & ? & ? & ?)]. split; [by apply apart_sym|by split_and!]. Qed.

Lemma echo_rep_block N c l w :
  echo_rep N c l w → block_of c = 0%nat ∨ (block_of c < next (wmem w))%nat.
Proof.
  intros (Hwf & pre & [_ Ho _] & _). unfold block_of. destruct Ho as [[-> _]|(_ & _ & x & Hx & _)]; [by left|].
  right. apply Nat.nle_gt. intros Hle. by rewrite (wf_fresh _ Hwf) in Hx.
Qed.

(** A client that is left alone. *)
Lemma echo_rep_frame N c l w w' (blk : nat) :
  mem_wf (wmem w') → only_touches blk (wmem w) (wmem w') → apart (block_of c) blk →
  echo_rep N c l w → echo_rep N c l w'.
Proof.
  intros Hwf' Ht Ha (Hwf & pre & [Hb Ho Hoff] & HN). split; [done|]. exists pre. split; [|done].
  destruct (rep_apart _ _ _ _ _ Hwf Ht Ha Hb Ho). by split.
Qed.

Lemma session_frame w w' fd fd' s s' r :
  fd ≠ fd' → session_ok w fd s → session_ok w fd' s' → strangers s' s →
  frame (client s) w r w' → session_ok w' fd' s'.
Proof.
  intros Hne [F1 _ _ C1 _] [F2 S2 H2 C2 (l & Hl & Hr & Hw)] [Ha (A1 & A2 & A3 & A4)] [W M [HC HF] _].
  split; try done.
  - destruct C1 as (R1 & X1 & _), C2 as (R2 & X2 & Hd). rewrite F1 in *.
    unfold connected. destruct (HF fd' ltac:(congruence)) as [-> ->]. by split_and!.
  - exists l. split; [done|]. split; [by eapply echo_rep_frame|done].
Qed.

Lemma strangers_next w s s' c' l N :
  echo_rep N (client s') l w → strangers s s' →
  block_of c' = block_of (client s) ∨ (next (wmem w) <= block_of c')%nat →
  ∀ R S, strangers (Session c' (cin s) (cout s) R S) s'.
Proof.
  intros Hr [Ha Hc] Hb R S. split; [|done]. simpl. destruct Hb as [->|Hb]; [done|]. left.
  pose proof (wf_next _ (proj1 Hr)). destruct (echo_rep_block _ _ _ _ Hr); lia.
Qed.

(** ** Events *)

(** The socket's part of an event does not concern the buffer. *)
Lemma echo_rep_socket N c l w x : echo_rep N c l w → echo_rep N (with_socket c x) l w.
Proof. done. Qed.

Lemma handler_timeout c w r w' :
  handler c Socket.TIMEOUT w = Ok (r, w') → r.1 = None.
Proof.
  unfold handler. change (has Socket.TIMEOUT Socket.TIMEOUT) with true. cbv iota.
  by intros (u & w1 & _ & [= <- <-])%bind_elim.
Qed.

(** [stop()] of a server with a listener. *)
Lemma stop_listener v (o : os_state) :
  listener_ v ≠ None → ∃ v', stop v o = Ok (v', o) ∧ listener_ v' ≠ None.
Proof. unfold stop. intros Hl. destruct (listener_ v) as [inet|]; [|done]. by eexists. Qed.

(** What is known when the handler of a session has run. *)
Lemma run_handler_world v c t p r v' p' :
  listener_ v ≠ None → run_handler v c t p = Ok ((r, v'), p') →
  listener_ v' ≠ None ∧ ((t = Socket.Return ∧ r = Some c ∧ p' = p) ∨ ∃ h re st,
    t = Socket.Call h re ∧ handler c re (pworld p) = Ok ((r, st), pworld p')).
Proof.
  intros Hl. destruct t as [|h re|]; cbn [run_handler]; [intros [= <- <- <-]; eauto| |done].
  intros ([r1 st] & p1 & E1 & E2)%bind_elim. apply bind_elim in E2 as (v1 & p2 & E2 & [= <- <- <-]).
  cbn [fst snd] in *. unfold on_world in E1.
  destruct (handler c re (pworld p)) as [[x w1]| | |] eqn:Eh; [|done..]. injection E1 as -> <-.
  unfold on_os in E2. destruct st; cbn [psys pworld] in E2.
  - destruct (stop_listener v (psys p) Hl) as (v2 & Es & Hl2). rewrite Es in E2. injection E2 as <- <-.
    split; [done|]. right. by exists h, re, true.
  - injection E2 as <- <-. split; [done|]. right. by exists h, re, false.
Qed.

Context (Hclose : close_fails_alone).

(** One session has been served, the others are as they were. *)
Lemma serve_inv v ss p fd s r v' p' ss' :
  sys_inv (System v ss p) → ss !! fd = Some s → listener_ v' ≠ None →
  frame (client s) (pworld p) r (pworld p') →
  (∀ c d q, r = Some c → moved_io (kern p) (kern p') (cin s) (cout s) d q →
     session_ok (pworld p') fd (Session c (cin s) (cout s) (rcvd s ++ d) (sent s ++ q))) →
  served ss fd s r (kern p) (kern p') ss' → sys_inv (System v' ss' p').
Proof.
  intros [Wf Ok Sep Hl] Hs Hl' Hf Hnew Hserved. simpl in *. pose proof (Ok _ _ Hs) as Hok.
  assert (Hother : ∀ fd' s', fd' ≠ fd → ss !! fd' = Some s' → session_ok (pworld p') fd' s').
  { intros fd' s' Hne Hs'. eapply session_frame; [| | | |exact Hf]; eauto using strangers_sym. }
  destruct r as [c|]; simpl in Hserved.
  - destruct Hserved as (d & q & Hm & ->). split; simpl; [by destruct Hf| | |done].
    + intros fd' s' [[<- <-]|[Hne Hs']]%lookup_insert_Some; [by apply Hnew|by apply Hother].
    + assert (Hstr : ∀ fd' s', fd' ≠ fd → ss !! fd' = Some s' →
        strangers (Session c (cin s) (cout s) (rcvd s ++ d) (sent s ++ q)) s').
      { intros fd' s' Hne Hs'. destruct (so_rest _ _ _ (Ok _ _ Hs')) as (l & _ & Hr & _).
        eapply strangers_next; [exact Hr|by apply (Sep fd fd')|]. by destruct (fr_on _ _ _ _ Hf c eq_refl). }
      intros f1 f2 s1 s2 Hne [[<- <-]|[H1 Hs1]]%lookup_insert_Some
        [[<- <-]|[H2 Hs2]]%lookup_insert_Some; [done|by apply (Hstr f2)| |by eapply (Sep f1 f2)].
      apply strangers_sym. by apply (Hstr f1).
  - subst ss'. split; simpl; [by destruct Hf| | |done].
    + intros fd' s' [Hne Hs']%lookup_delete_Some. by apply Hother.
    + intros f1 f2 s1 s2 Hne [_ ?]%lookup_delete_Some [_ ?]%lookup_delete_Some. by eapply (Sep f1 f2).
Qed.

(** The handler of a session, called for its socket [x]. *)
Lemma handler_session w fd s x re r st w' :
  session_ok w fd s → Socket.fd_ x = fd → Socket.state_ x = Socket.Operational →
  Socket.handler_ x = Some HANDLER →
  handler (with_socket (client s) x) re w = Ok ((r, st), w') →
  frame (client s) w r w'
  ∧ (has re Socket.TIMEOUT = false → Socket.io_ x = Socket.io_ (socket_ (client s)) →
     ∀ c d q, r = Some c → moved_io (wkern w) (wkern w') (cin s) (cout s) d q →
     session_ok w' fd (Session c (cin s) (cout s) (rcvd s ++ d) (sent s ++ q))).
Proof using KL Hclose.
  intros [F S H C (l & Hl & Hr & Hw)] Ex Es Eh E.
  set (c0 := with_socket (client s) x) in *. set (N := Z.of_nat (length (rcvd s))) in *.
  assert (Hr0 : echo_rep N c0 l w) by exact Hr.
  assert (Hf : frame c0 w r w').
  { pose proof (handler_frame N c0 l w re Hclose Hr0) as Hh. unfold wp in Hh. rewrite E in Hh.
    apply Hh. intros Ht Hre. by eapply handler_short. }
  assert (Ef : Socket.fd_ (socket_ c0) = fd) by done. split.
  { destruct Hf as [W M HK On]. rewrite Ef in HK. split; try done; [by rewrite F|].
    intros c' Hc. destruct (On c' Hc) as (B & ? & ? & ? & ? & ?). rewrite Ef in *.
    unfold goes_on. rewrite F, S, H. unfold c0 in *; simpl in *. split_and!; try done; congruence. }
  intros Ht Hio c d q -> [Hm1 Hm2].
  assert (Hw0 : watching c0 l) by (destruct Hw as (ev & ? & ? & ?); exists ev; simpl; rewrite Hio, Ex, <- F; auto).
  pose proof (handler_spec N c0 l w re (cin s) (cout s) Hr0 Hw0) as Hh. rewrite Ef in Hh.
  specialize (Hh C). unfold wp in Hh. rewrite E in Hh.
  destruct Hh as (d' & q' & Hfd & HC' & Hm' & l' & Hl' & Hr' & Hw');
    [intros Hre; rewrite <- Ef; by eapply (handler_short c0)|done|].
  destruct (moved_io_unique _ _ _ _ _ _ _ _ (conj Hm1 Hm2) Hm') as [<- <-].
  destruct (fr_on _ _ _ _ Hf c eq_refl) as (_ & _ & S' & H' & _).
  split; simpl; [congruence|by rewrite S'|by rewrite H'|by rewrite <- Ef|]. exists l'. rewrite length_app, Nat2Z.inj_add.
  split; [|done]. fold N.
  destruct Hl' as [Hl'|Hl']; [|by right]. destruct Hl as [Hl|Hl].
  - left. rewrite Hl, <- !app_assoc. by f_equal.
  - right. eapply dropped_mono; [|exact Hl]. lia.
Qed.

(** ** Steps *)

(** Nothing but the connections has changed. *)
Lemma session_ok_kern w fd s k e :
  session_ok w fd s → connected k fd (cin s) (cout s) → session_ok (World (wmem w) k e) fd s.
Proof. intros [] ?. by split. Qed.

Lemma accept_event_spec v p r p1 :
  accept_event v p = Ok (r, p1) → mem_wf (wmem (pworld p)) →
  pworld p1 = pworld p ∧ ∀ c, r = Some c → block_of c = 0%nat ∧ ∀ k e ci co,
    connected k (Socket.fd_ (socket_ c)) ci co →
    session_ok (World (wmem (pworld p)) k e) (Socket.fd_ (socket_ c)) (Session c ci co [] []).
Proof.
  unfold accept_event. destruct (listener_ v) as [inet|]; [|done].
  intros (x & p2 & E1 & E2)%bind_elim Hwf. unfold on_os in E1.
  destruct (ServerSocket.accept _ (psys p)) as [[y o]| | |]; [|done..]. injection E1 as -> <-.
  destruct x as [[fd|]|]; cbn [fmap option_fmap option_map] in E2.
  - apply bind_elim in E2 as (c & p3 & E2 & [= <- <-]). unfold on_os in E2. cbn [Echo.accept] in E2.
    destruct (Echo.new (SocketDriver.create fd) _) as [[c1 o1]| | |] eqn:En; [|done..].
    injection E2 as <- <-. split; [done|]. intros c2 [= <-].
    destruct (new_client _ _ _ _ (pworld p) En Hwf) as (_ & _ & Hr & Hw).
    injection En as <- <-. split; [done|]. intros k e ci co HC. split; simpl; try done.
    exists []. split; [by left|]. split; [exact Hr|exact Hw].
  - apply bind_elim in E2 as (c & p3 & E2 & _). done.
  - injection E2 as <- <-. done.
Qed.

Lemma accept_inv v ss p c p1 k e ci co :
  sys_inv (System v ss p) → accept_event v p = Ok (Some c, p1) →
  ss !! Socket.fd_ (socket_ c) = None → new_connection (kern p1) k (Socket.fd_ (socket_ c)) ci co →
  (∀ fd s, ss !! fd = Some s → other_channels s ci co) →
  sys_inv (System v (<[Socket.fd_ (socket_ c) := Session c ci co [] []]> ss) (with_kern p1 k e)).
Proof.
  intros [Wf Ok Sep Hl] Ha Hnone (HC & _ & Hfds) Hch. simpl in *.
  destruct (accept_event_spec _ _ _ _ Ha Wf) as [Ep Hc]. destruct (Hc c eq_refl) as [Hb Hnew].
  unfold with_kern, kern in *. rewrite Ep in *. split; simpl; [done| | |done].
  - intros fd' s' [[<- <-]|[Hne Hs']]%lookup_insert_Some; [by apply Hnew|].
    pose proof (Ok _ _ Hs') as Hok. apply session_ok_kern; [done|].
    destruct (so_conn _ _ _ Hok) as (R & W & ?). destruct (Hfds fd' ltac:(congruence)) as [ER EW].
    split; [by rewrite ER|]. split; [by rewrite EW|done].
  - assert (Hstr : ∀ fd' s', ss !! fd' = Some s' → strangers s' (Session c ci co [] [])).
    { intros fd' s' Hs'. split; [|by eapply Hch]. apply apart_sym. right. exact Hb. }
    intros f1 f2 s1 s2 Hne [[<- <-]|[H1 Hs1]]%lookup_insert_Some
      [[<- <-]|[H2 Hs2]]%lookup_insert_Some; [done| |by eapply Hstr|by eapply (Sep f1 f2)].
    apply strangers_sym. by eapply Hstr.
Qed.

Lemma step_inv g g' : step g g' → sys_inv g → sys_inv g'.
Proof using KL Hclose.
  intros Hst Hi. pose proof Hi as [Wf Ok Sep Hl].
  destruct Hst as [v ss p inet c p1 k e ci co|v ss p inet p1 _ _ Ha|v ss p k e Hk
    |v ss p fd s ev revents r v' p' ss' Hs Hio Ht E Hsv|v ss p fd s t r v' p' ss' Hs _ E Hsv
    |v ss p v' p' _ E]; simpl in *.
  - by eapply accept_inv.
  - destruct (accept_event_spec _ _ _ _ Ha Wf) as [Ep _]. by split; simpl; rewrite ?Ep.
  - split; simpl; [done| |done|done]. intros fd s Hs. apply session_ok_kern; eauto.
  - pose proof (Ok _ _ Hs) as [F S H _ _]. unfold client_io in E.
    apply bind_elim in E as ([t x] & p1 & E1 & E). unfold on_os, Socket.io in E1. simpl in E1.
    rewrite S, H in E1. injection E1 as <- <- <-. cbn [fst snd] in E.
    apply (run_handler_world _ _ _ _ _ _ _ Hl) in E as [Hl' [(? & _)|(h & re & st & [= <- <-] & E)]]; [done|].
    cbn [pworld] in E. eapply handler_session in E as [Hf Hok]; [|by apply Ok|done..].
    eapply serve_inv; [exact Hi|exact Hs|exact Hl'|exact Hf|by apply Hok|exact Hsv].
  - pose proof (Ok _ _ Hs) as [F S H _ _]. unfold client_timer, Socket.timeout in E. cbn [fst snd] in E.
    unfold Socket.call_handler in E. simpl in E. rewrite H in E.
    apply (run_handler_world _ _ _ _ _ _ _ Hl) in E as [Hl' [(? & _)|(h & re & st & [= <- <-] & E)]]; [done|].
    pose proof (handler_timeout _ _ _ _ E) as Hn. cbn [fst] in Hn. subst r.
    eapply handler_session in E as [Hf _]; [|by apply Ok|done..].
    eapply serve_inv; [exact Hi|exact Hs|exact Hl'|exact Hf|done|exact Hsv].
  - unfold on_os, sig in E. destruct (stop_listener v (psys p) Hl) as (v2 & Es & Hl2).
    rewrite Es in E. injection E as <- <-. by split.
Qed.

(** The server has been set up and nobody has come yet. *)
Definition fresh_system (v : Server) p : system := System v ∅ p.

Lemma start_listener junk o v o' : start junk o = Ok (Some v, o') → listener_ v ≠ None.
Proof.
  unfold start, setup. intros ([ok v1] & o1 & E1 & E)%bind_elim.
  apply bind_elim in E1 as ([ok2 inet] & o2 & _ & E1). destruct ok2.
  - injection E1 as <- <- <-. by injection E as <- <-.
  - apply bind_elim in E1 as (u & o3 & _ & [= <- <- <-]).
    by apply bind_elim in E as (u2 & o4 & _ & [= ? ?]).
Qed.

Lemma reachable_inv junk o v p g :
  start junk o = Ok (Some v, psys p) → mem_wf (wmem (pworld p)) → rtc step (fresh_system v p) g →
  sys_inv g.
Proof using KL Hclose.
  intros Hl%start_listener Hwf Hr. assert (sys_inv (fresh_system v p)) as Hi by (by split; simpl).
  induction Hr as [|x y z Hxy _ IH]; [done|]. by eapply IH, step_inv.
Qed.

(** C6: every client of the server is served as if it were alone, whatever the
    other clients and their peers do, in whatever order events come, clients
    arrive and go and the listener is stopped: what was sent back is the
    beginning of what came, the rest is in the client's buffer and is waited
    for, and no other client has memory or channels in common with it. *)
Theorem echo_server_isolated junk o v p g fd s :
  start junk o = Ok (Some v, psys p) → mem_wf (wmem (pworld p)) → rtc step (fresh_system v p) g →
  sessions g !! fd = Some s → (∀ n, 0 <= n <= Z.of_nat (length (rcvd s)) → ¬ no_memory n) →
  (∃ rest, rcvd s = sent s ++ rest ∧ watching (client s) rest
     ∧ echo_rep (Z.of_nat (length (rcvd s))) (client s) rest (pworld (proc g)))
  ∧ ∀ fd' s', fd' ≠ fd → sessions g !! fd' = Some s' → strangers s s'.
Proof using KL Hclose.
  intros Hl Hwf Hr Hs Hmem. destruct (reachable_inv _ _ _ _ _ Hl Hwf Hr) as [_ Ok Sep _]. split.
  - destruct (so_rest _ _ _ (Ok _ _ Hs)) as (l & [Hl'|(n & Hn & Hno)] & Hrep & Hw); [by exists l|].
    by destruct (Hmem n Hn).
  - intros fd' s' Hne Hs'. by apply (Sep fd fd').
Qed.

Lemma run_handler_total v c h re p N l :
  listener_ v ≠ None → echo_rep N c l (pworld p) →
  (has re Socket.TIMEOUT = false → has re Socket.READ = true →
     short_read (wkern (pworld p)) (Socket.fd_ (socket_ c))) →
  wp (run_handler v c (Socket.Call h re)) (λ r p',
    listener_ r.2 ≠ None ∧ frame c (pworld p) r.1 (pworld p')) p.
Proof using KL Hclose.
  intros Hl Hr Hs. cbn [run_handler]. pm_step. pm_step.
  eapply wp_mono; [by eapply handler_frame|]. intros [r st] w' Hf. pm_step. pm_step.
  destruct st; cbn [snd psys].
  - destruct (stop_listener v (psys p) Hl) as (v2 & Es & Hl2). eapply wp_Ok; [exact Es|]. by pm_step.
  - pm_step. by pm_step.
Qed.

(** C23: no event of a client stops the server or is undefined, unless a read
    fills the handler's array: at every point every client's handler returns,
    for I/O of any kind and for the timeout, and leaves the memory and the
    descriptors of all other clients as they were. *)
Theorem echo_server_serves junk o v p g fd s revents :
  start junk o = Ok (Some v, psys p) → mem_wf (wmem (pworld p)) → rtc step (fresh_system v p) g →
  sessions g !! fd = Some s → has revents Socket.TIMEOUT = false →
  (has revents Socket.READ = true → short_read (kern (proc g)) fd) →
  wp (client_io (srv g) (client s) revents) (λ r p',
    frame (client s) (pworld (proc g)) r.1 (pworld p')) (proc g)
  ∧ wp (client_timer (srv g) (client s)) (λ r p',
      r.1 = None ∧ frame (client s) (pworld (proc g)) None (pworld p')) (proc g).
Proof using KL Hclose.
  intros Hl Hwf Hr Hs Ht Hshort. pose proof (reachable_inv _ _ _ _ _ Hl Hwf Hr) as [_ Ok _ Hlg].
  pose proof (Ok _ _ Hs) as [F S H _ (l & _ & Hrep & _)].
  assert (Hsame : ∀ x r w', Socket.fd_ x = Socket.fd_ (socket_ (client s)) →
    Socket.state_ x = Socket.state_ (socket_ (client s)) →
    Socket.handler_ x = Socket.handler_ (socket_ (client s)) →
    frame (with_socket (client s) x) (pworld (proc g)) r w' → frame (client s) (pworld (proc g)) r w').
  { intros x r w' Ex Es Eh [W M HK On]. unfold goes_on in On. simpl in *. rewrite Ex, Es, Eh in *. by split. }
  split.
  - unfold client_io. pm_step. pm_step. unfold Socket.io. simpl. rewrite S, H. wp_step.
    cbn [fst snd]. destruct g as [v1 ss [o2 w]]. simpl in *.
    eapply wp_mono; [eapply (run_handler_total _ _ HANDLER revents); [done|exact Hrep|]|].
    + intros _ Hre. simpl. rewrite F. by apply Hshort.
    + intros r p' [_ Hf]. eapply Hsame; [| | |exact Hf]; simpl; congruence.
  - unfold client_timer, Socket.timeout, Socket.call_handler. simpl. rewrite H.
    set (x := Socket.with_io _ None).
    assert (Hrep' : echo_rep (Z.of_nat (length (rcvd s))) (with_socket (client s) x) l (pworld (proc g)))
      by exact Hrep.
    destruct (wp_elim _ _ _ (run_handler_total (srv g) _ HANDLER Socket.TIMEOUT (proc g) _ l Hlg Hrep'
      ltac:(done))) as ([r v'] & p' & E & _ & Hf). eapply wp_Ok; [exact E|].
    apply (run_handler_world _ _ _ _ _ _ _ Hlg) in E as [_ [(? & _)|(h & re & st & [= <- <-] & E)]]; [done|].
    apply handler_timeout in E. cbn [fst] in *. subst r. split; [done|].
    by eapply Hsame; [..|exact Hf].
Qed.

(** ** Stopping *)

Definition listening (v : Server) : bool :=
  match listener_ v with Some inet => active (InetServer.server inet) | None => false end.

Lemma stop_not_listening v (o : os_state) v' o' :
  stop v o = Ok (v', o') → listening v' = false.
Proof using Type.
  unfold stop. destruct (listener_ v) as [inet|]; [|done]. intros [= <- <-].
  unfold listening. simpl. apply stop_spec.
Qed.

Lemma run_handler_stops v c t p r v' p' :
  run_handler v c t p = Ok ((r, v'), p') → listening v = false → listening v' = false.
Proof using Type.
  destruct t as [|h re|]; cbn [run_handler]; [by intros [= <- <- <-]| |done].
  intros ([r1 st] & p1 & _ & E2)%bind_elim. apply bind_elim in E2 as (v1 & p2 & E2 & [= <- <- <-]).
  unfold on_os in E2. cbn [snd] in E2. destruct st; [|by injection E2 as <- <-].
  destruct (stop v (psys p1)) as [[v2 o2]| | |] eqn:Es; [|done..]. injection E2 as <- <-.
  intros _. by eapply stop_not_listening.
Qed.

Lemma served_dom ss fd s r k k' ss' :
  ss !! fd = Some s → served ss fd s r k k' ss' → dom ss' ⊆ dom ss.
Proof using Type.
  intros Hs. destruct r as [c|]; simpl; [|intros ->; rewrite dom_delete; clear; set_solver].
  intros (d & q & _ & ->). rewrite dom_insert. apply elem_of_dom_2 in Hs. clear - Hs. set_solver.
Qed.

Lemma step_stopped g g' :
  step g g' → listening (srv g) = false →
  listening (srv g') = false ∧ dom (sessions g') ⊆ dom (sessions g).
Proof using Type.
  destruct 1 as [v ss p inet c p1 k e ci co Hl Ha|v ss p inet p1 Hl Ha _|v ss p k e _
    |v ss p fd s ev revents r v' p' ss' Hs _ _ E Hsv|v ss p fd s t r v' p' ss' Hs _ E Hsv
    |v ss p v' p' _ E]; simpl; intros Hn.
  - unfold listening in Hn. rewrite Hl in Hn. congruence.
  - unfold listening in Hn. rewrite Hl in Hn. congruence.
  - done.
  - apply bind_elim in E as (x & p1 & _ & E). split; [by eapply run_handler_stops|by eapply served_dom].
  - split; [by eapply run_handler_stops|by eapply served_dom].
  - split; [|done]. unfold on_os, sig in E. destruct (stop v (psys p)) as [[v2 o2]| | |] eqn:Es; [|done..].
    injection E as <- <-. by eapply stop_not_listening.
Qed.

(** The server listens no longer and takes no new client ever again. *)
Definition no_more_clients g : Prop :=
  ∀ g', rtc step g g' → listening (srv g') = false ∧ dom (sessions g') ⊆ dom (sessions g).

Lemma not_listening_ends g : listening (srv g) = false → no_more_clients g.
Proof using Type.
  intros Hn g' Hr. revert Hn. induction Hr as [|x y z Hxy _ IH]; [done|]. intros Hn.
  destruct (step_stopped _ _ Hxy Hn) as [Hn' Hd]. destruct (IH Hn') as [? Hd']. split; [done|by etrans].
Qed.

(** What the handler tells the server after it has read [d]. *)
Lemma on_read_stops c w d k' r w' :
  sys_read (Socket.fd_ (socket_ c)) BUFSIZE (wkern w) = (inr d, k') →
  NUL ∉ d → (0 < length d)%nat → Z.of_nat (length d) < BUFSIZE →
  on_read c w = Ok (r, w') → r.2 = stops d.
Proof using Type.
  intros Ek Hnul Hpos Hlen. unfold on_read. intros (x & w1 & E1 & E)%bind_elim.
  unfold read_local, syscall in E1. rewrite Ek in E1. injection E1 as <- <-.
  cbv iota zeta in E. destruct (Z.ltb_spec 0 (Z.of_nat (length d))) as [_|]; [|lia].
  destruct (Z.leb_spec BUFSIZE (Z.of_nat (length d))); [lia|].
  apply bind_elim in E as (wb & w2 & _ & E). rewrite echo_commands_exact in E by done.
  destruct (stops d); by injection E as <- <-.
Qed.

Lemma handler_stops c w d k' re r w' :
  sys_read (Socket.fd_ (socket_ c)) BUFSIZE (wkern w) = (inr d, k') →
  NUL ∉ d → (0 < length d)%nat → Z.of_nat (length d) < BUFSIZE →
  has re Socket.TIMEOUT = false → has re Socket.READ = true →
  handler c re w = Ok (r, w') → r.2 = stops d.
Proof using Type.
  intros Ek Hnul Hpos Hlen Ht Hr. unfold handler. rewrite Ht, Hr.
  intros ([c1 st] & w1 & E1 & E)%bind_elim.
  pose proof (on_read_stops _ _ _ _ _ _ Ek Hnul Hpos Hlen E1) as Hst. simpl in Hst. subst st.
  destruct c1 as [c1|]; [|by injection E as <- <-].
  destruct (has re Socket.WRITE); [|by injection E as <- <-].
  apply bind_elim in E as (c2 & w2 & _ & E). by injection E as <- <-.
Qed.

Lemma client_io_stops v c p d k' revents r v' p' :
  listening v = true →
  Socket.state_ (socket_ c) = Socket.Operational → Socket.handler_ (socket_ c) = Some HANDLER →
  sys_read (Socket.fd_ (socket_ c)) BUFSIZE (kern p) = (inr d, k') →
  NUL ∉ d → (0 < length d)%nat → Z.of_nat (length d) < BUFSIZE →
  has revents Socket.TIMEOUT = false → has revents Socket.READ = true →
  client_io v c revents p = Ok ((r, v'), p') → listening v' = negb (stops d).
Proof using Type.
  intros Hv Hst Hh Ek Hnul Hpos Hlen Ht Hr. unfold client_io. intros ([t x] & p1 & E1 & E)%bind_elim.
  unfold on_os, Socket.io in E1. simpl in E1. rewrite Hst, Hh in E1. injection E1 as <- <- <-.
  cbn [fst snd run_handler] in E. apply bind_elim in E as (r1 & p2 & E2 & E).
  apply bind_elim in E as (v1 & p3 & E3 & E). injection E as <- <- <-.
  unfold on_world in E2. destruct (handler _ _ _) as [[r2 w2]| | |] eqn:Eh; [|done..].
  injection E2 as <- <-. eapply handler_stops in Eh; [|exact Ek|done..]. rewrite Eh in E3.
  unfold on_os in E3. destruct (stops d); [|by injection E3 as <- <-].
  destruct (stop v _) as [[v2 o2]| | |] eqn:Es; [|done..]. injection E3 as <- <-.
  by eapply stop_not_listening.
Qed.

(** C37: the interrupt signal stops a listening server, and so does a client's
    message exactly when it is one that is taken for the command ".."; a
    stopped server takes no new client ever again, whatever happens to those
    that it has. *)
Theorem echo_server_stops g :
  listening (srv g) = true →
  wp (on_os (sig (srv g))) (λ v p, no_more_clients (System v (sessions g) p)) (proc g)
  ∧ ∀ fd s revents d k r v p ss,
      sessions g !! fd = Some s →
      Socket.state_ (socket_ (client s)) = Socket.Operational →
      Socket.handler_ (socket_ (client s)) = Some HANDLER →
      sys_read (Socket.fd_ (socket_ (client s))) BUFSIZE (kern (proc g)) = (inr d, k) →
      NUL ∉ d → (0 < length d)%nat → Z.of_nat (length d) < BUFSIZE →
      has revents Socket.TIMEOUT = false → has revents Socket.READ = true →
      client_io (srv g) (client s) revents (proc g) = Ok ((r, v), p) →
      served (sessions g) fd s r (kern (proc g)) (kern p) ss →
      dom ss ⊆ dom (sessions g)
      ∧ if stops d then no_more_clients (System v ss p) else listening v = true.
Proof using Type.
  intros Hl. split.
  - apply wp_on_os. unfold sig, wp. destruct (stop (srv g) (psys (proc g))) as [[v o]| | |] eqn:E.
    { apply not_listening_ends. by eapply stop_not_listening. }
    all: unfold listening in Hl; unfold stop in E; by destruct (listener_ (srv g)).
  - intros fd s revents d k r v p ss Hs Hst Hh Ek Hnul Hpos Hlen Ht Hr E Hsv.
    split; [by eapply served_dom|].
    pose proof (client_io_stops _ _ _ _ _ _ _ _ _ Hl Hst Hh Ek Hnul Hpos Hlen Ht Hr E) as Hv.
    destruct (stops d); [by apply not_listening_ends|done].
Qed.
End system.
