(* ===== verification/Network.v ===== *)
(** * Network: the functions of network-splicing.cpp

    [client_run], [proxy_run] and [main], each from its first statement to its
    last destructor.  How the threads work together once they are connected is
    in Relay.v. *)

From S2P Require Import Prelude Memory BufferBase BufferParse MutableBuffer BufferSpec Libc Kernel Os.
From S2P Require Import Address SdDaemon Server Pipe Time File Socket Splicing Process.

Local Open Scope Z_scope.

Definition O_RDONLY : Z := 0.
Definition CRLF : bytes := [Byte.x0d; Byte.x0a].

Module Network.
Section threads.
Context {K : Kernel} {AL : Allocator} {os : OS} {T : InetText}.
Let E : Ensure := mutableEnsure.
#[local] Existing Instance E.

(** The process's inotify instance, and what an uninitialised address holds. *)
Context (inotifier : Inotify.Inotify) (junk : bytes).

Definition request_line : bytes := bs "POST / HTTP/1.1" ++ CRLF.
Definition length_line (n : Z) : bytes := bs "Content-Length: " ++ fmt_d n ++ CRLF.

(** [fs->size()]: [fs] is null when the file could not be opened. *)
Definition size_of (fs : option FileStream.FileStream) : OM Z :=
  match fs with Some fs => FileStream.size fs | None => ub end.

(** The connected client: the header, then the file. *)
Definition client_send (client : Socket.Socket) (buf : MutableBuffer)
    (fs : option FileStream.FileStream) : PM () :=
  on_world (Socket.write client (data_ buf) (size_ buf));;
  n ← on_os (size_of fs);
  match fs with
  | Some fs => on_world (Socket.write_file client (FileStream.handle fs) n);; mret ()
  | None => ub
  end.

(** [client_run(void* )] for the address [ipaddr] and the port [port]; [now] is
    the time at which the [File] is created. *)
Definition client_run (ipaddr : bytes) (port : Z) (now : DateTime.DateTime) : PM () :=
  let file := File.new (bs "/etc/issue") now in
  fs ← on_os (File.open file O_RDONLY);
  buf ← on_mem (MutableBuffer.push_back_local MutableBuffer.new request_line);
  n ← on_os (size_of fs);
  buf ← on_mem (MutableBuffer.printf buf 21 (Some (length_line n)));
  buf ← on_mem (MutableBuffer.push_back_local buf CRLF);
  '(state, client) ← on_os (Socket.open Socket.new (IPAddress.new_text junk ipaddr 0) port 0);
  (if bool_decide (state = Socket.Closed) then mret () else client_send client buf fs);;
  on_os (Socket.destroy client);;
  on_mem (Buffer.destroy buf);;
  on_os (match fs with Some fs => FileStream.destroy fs | None => mret () end);;
  on_os (File.destroy inotifier file);;
  mret ().

(** [proxy_run(void* p)]: the socket [client] is the proxy's from now on. *)
Definition proxy_run (fuel : nat) (ipaddr : bytes) (port : Z) (client : Socket.Socket) : PM () :=
  '(_, backend) ← on_os (Socket.open Socket.new (IPAddress.new_text junk ipaddr 0) port 0);
  pipe ← on_world (Pipe.new 0);
  pipe ← on_world (Splicing.proxy_loop fuel client backend pipe);
  on_os (Socket.destroy client);;
  on_world (Pipe.destroy pipe);;
  on_os (Socket.destroy backend).





End threads.
End Network.
Import Network.

(** ** Files and pipes in a function *)
Section scopes.
Context {K : Kernel} {KL : KernelLaws K} {os : OS}.

Lemma file_open_is f flags (s : os_state) r :
  answer (history s) (OpenFile (File.path_ f) flags) = inr r → 0 <= rval r →
  wp (File.open f flags) (λ fs s', fs = Some (FileStream.mkFile (rval r))
    ∧ history s' = (OpenFile (File.path_ f) flags, inr r) :: history s ∧ environ s' = environ s
    ∧ live (history s') = {[rval r]} ∪ live (history s)) s.
Proof.
  intros Ha Hr. unfold File.open. os_step. apply wp_invoke_int; intros r'; rewrite Ha; intros [= <-].
  replace (rval r <? 0) with false by lia. by os_step.
Qed.

Lemma stream_size_quiet fs s : wp (FileStream.size fs) (λ n s', same_fds s s' ∧ 0 <= n < 2 ^ 64) s.
Proof.
  unfold FileStream.size. os_step. apply wp_invoke; intros r _; os_step; (split; [by split|]); [lia|].
  pose proof (u64_range (rsize r)). zlia.
Qed.

Lemma stream_destroy_closes fs s :
  0 <= FileStream.handle fs →
  wp (FileStream.destroy fs) (λ _ s', environ s' = environ s
    ∧ live (history s') = live (history s) ∖ {[FileStream.handle fs]}) s.
Proof.
  intros Hf. unfold FileStream.destroy, FileStream.handle in *. replace (0 <=? _) with true by lia.
  os_step. apply wp_invoke; intros x _; by os_step.
Qed.

(** [~Socket()] gives back what [open] took. *)
Lemma socket_destroy_spec (x : Socket.Socket) s :
  wp (Socket.destroy x) (λ _ s', environ s' = environ s
    ∧ live (history s') = if 0 <=? Socket.fd_ x then live (history s) ∖ {[Socket.fd_ x]}
                          else live (history s)) s.
Proof.
  unfold Socket.destroy, Socket.close. wp_step. destruct (0 <=? Socket.fd_ x); [|wp_step; by wp_step].
  wp_step. eapply wp_mono; [apply close_quiet|]. intros _ s1 [H1 H2]. wp_step. by wp_step.
Qed.

(** Opening with no flags. *)
Lemma open_plain a port s :
  FreshFds →
  wp (Socket.open Socket.new a port 0) (λ r s', environ s' = environ s ∧
    match r.1 with
    | Socket.Closed => Socket.fd_ r.2 = -1 ∧ live (history s') = live (history s)
    | _ => 0 <= Socket.fd_ r.2 ∧ (Socket.fd_ r.2 ∉ live (history s))
        ∧ live (history s') = {[Socket.fd_ r.2]} ∪ live (history s)
    end) s.
Proof.
  intros HF. eapply wp_mono; [by apply open_connects|]. intros [st x] s' (_ & _ & _ & He & H).
  split; [done|]. simpl in *. destruct st; [done| |done|]; by destruct H as (? & ? & ? & _).
Qed.

(** After [open] and the destructor the descriptors are those of before. *)
Lemma open_destroy (r : Socket.State * Socket.Socket) (L : gset Z) s :
  match r.1 with
  | Socket.Closed => Socket.fd_ r.2 = -1 ∧ live (history s) = L
  | _ => 0 <= Socket.fd_ r.2 ∧ (Socket.fd_ r.2 ∉ L) ∧ live (history s) = {[Socket.fd_ r.2]} ∪ L
  end →
  wp (Socket.destroy r.2) (λ _ s', environ s' = environ s ∧ live (history s') = L) s.
Proof.
  intros H. eapply wp_mono; [apply socket_destroy_spec|]. intros _ s' [He Hl]. split; [done|].
  rewrite Hl. destruct r as [[] x]; simpl in *.
  1: destruct H as [-> ->]; done.
  all: destruct H as (Hp & Hn & ->); replace (0 <=? _) with true by lia; set_solver.
Qed.
End scopes.

(** ** The client *)
Section client.
Context {K : Kernel} {KL : KernelLaws K} {AL : Allocator} {os : OS} {T : InetText}.
Context (inotifier : Inotify.Inotify) (junk : bytes).
Implicit Types (k : kst) (m : memory).

Definition request (n : Z) : bytes := request_line ++ length_line n ++ CRLF.

(** There is memory for some buffers of a few hundred bytes. *)
Definition small_memory : Prop := ∀ n, 0 <= n <= 1024 → ¬ no_memory n.

Lemma push_local_small m b l d :
  small_memory → mem_wf m → mbuf_rep m b l → owned m b → Z.of_nat (length (l ++ d)) <= 1024 →
  wp (MutableBuffer.push_back_local (E := mutableEnsure) b d) (λ b' m',
    mem_wf m' ∧ mbuf_rep m' b' (l ++ d) ∧ owned m' b' ∧ moves b b' m m') m.
Proof.
  intros Hm Hwf Hrep Hown Hl. rewrite length_app in Hl.
  eapply wp_mono; [apply (push_back_local_spec (inv := owned) m b l d); try done; zlia|].
  intros b' m' [W O M [R|(_ & _ & Hn%oom_no_memory)]]; [done|].
  exfalso. eapply Hm; [|exact Hn]. rewrite length_app. lia.
Qed.

Lemma printf_small m b l d fmtlen :
  small_memory → mem_wf m → mbuf_rep m b l → owned m b → 0 <= fmtlen <= 128 →
  Z.of_nat (length (l ++ d)) <= 256 →
  wp (MutableBuffer.printf (E := mutableEnsure) b fmtlen (Some d)) (λ b' m',
    mem_wf m' ∧ mbuf_rep m' b' (l ++ d) ∧ owned m' b' ∧ moves b b' m m') m.
Proof.
  intros Hm Hwf Hrep Hown Hf Hl. rewrite length_app in Hl. pose proof (rep_size _ _ _ Hrep) as Hs.
  eapply wp_mono; [apply (printf_spec (E := mutableEnsure) (inv := owned)); try done; try zlia|].
  - right. intros Ho%oom_no_memory. eapply Hm; [|exact Ho]. lia.
  - intros b' m' (W & O & M & [[R _]|(R & Hc & m1 & Ho%oom_no_memory)]); [done|].
    exfalso. eapply Hm; [|exact Ho]. pose proof (rep_capacity _ _ _ W R) as [? _].
    pose proof (rep_size _ _ _ R) as Hs'. unfold clobbered in Hs'.
    assert (size_ b' <= Z.of_nat (length l) + 1); [|lia].
    rewrite Hs'. repeat case_match; rewrite ?length_app, ?length_take; simpl; lia.
Qed.

(** From [k] to [k'] a beginning of [text] was written to [fd], and then some
    of the bytes that [file] reads. *)
Definition client_sent k k' (fd file : Z) (text : bytes) : Prop :=
  ∃ k1 h f, h `prefix_of` text
    ∧ (h = [] ∧ transfer k k1 (content k) ∨ ∃ co, wr_chan k fd = Some co ∧ put k k1 co h)
    ∧ (f = [] ∧ transfer k1 k' (content k1)
       ∨ ∃ ci co, rd_chan k1 file = Some ci ∧ wr_chan k1 fd = Some co ∧ moved k1 k' ci co f).

Lemma client_send_spec client buf fs text (s : process) :
  mbuf_rep (wmem (pworld s)) buf text →
  wp (client_send client buf (Some fs)) (λ _ s', same_fds (psys s) (psys s')
    ∧ wmem (pworld s') = wmem (pworld s)
    ∧ client_sent (wkern (pworld s)) (wkern (pworld s')) (Socket.fd_ client) (FileStream.handle fs) text) s.
Proof using KL.
  intros Hrep. unfold client_send, Socket.write. pm_step. pm_step.
  pose proof (rep_view _ _ _ Hrep) as [Hd Hsz].
  assert (Hrest : ∀ k1 e h, h `prefix_of` text →
    (h = [] ∧ transfer (wkern (pworld s)) k1 (content (wkern (pworld s)))
     ∨ ∃ co, wr_chan (wkern (pworld s)) (Socket.fd_ client) = Some co ∧ put (wkern (pworld s)) k1 co h) →
    wp (n ← on_os (size_of (Some fs)); on_world (Socket.write_file client (FileStream.handle fs) n);; mret ())
      (λ _ s', same_fds (psys s) (psys s') ∧ wmem (pworld s') = wmem (pworld s)
        ∧ client_sent (wkern (pworld s)) (wkern (pworld s')) (Socket.fd_ client) (FileStream.handle fs) text)
      (Process (psys s) (World (wmem (pworld s)) k1 e))).
  { intros k1 e h Hh Hp. pm_step. pm_step. eapply wp_mono; [apply stream_size_quiet|].
    intros n o1 [Ho _]. pm_step. pm_step. simpl in *. apply wp_sendfile.
    - intros k' e' Ht. pm_step. split; [done|]. split; [done|]. exists k1, h, []. auto.
    - intros ci co f k' Hci Hco _ Hmv. pm_step. split; [done|]. split; [done|].
      exists k1, h, f. split; [done|]. split; [done|]. right. eauto. }
  apply (wp_write _ _ text); [done|done|..].
  - intros k1 e Ht. apply (Hrest _ _ []); [apply prefix_nil|auto].
  - intros r co k1 Hco _ Hput. apply (Hrest _ _ (take (Z.to_nat r) text)); [apply prefix_take|eauto].
Qed.

(** The header in a new buffer. *)
Lemma client_header_spec m :
  small_memory → mem_wf m →
  wp (MutableBuffer.push_back_local (E := mutableEnsure) MutableBuffer.new request_line) (λ b1 m1,
    ∀ n, 0 <= n < 2 ^ 64 →
    wp (MutableBuffer.printf (E := mutableEnsure) b1 21 (Some (length_line n))) (λ b2 m2,
      wp (MutableBuffer.push_back_local (E := mutableEnsure) b2 CRLF) (λ b3 m3,
        mem_wf m3 ∧ mbuf_rep m3 b3 (request n) ∧ owned m3 b3
        ∧ moves MutableBuffer.new b3 m m3) m2) m1) m.
Proof.
  intros Hm Hwf.
  eapply wp_mono; [apply (push_local_small m MutableBuffer.new []); try done; [apply rep_empty|by left]|].
  intros b1 m1 (W1 & R1 & O1 & M1) n Hn. pose proof (length_fmt_d n ltac:(lia)) as Hl.
  assert (length (length_line n) <= 39)%nat as Hll
    by (unfold length_line; rewrite !length_app; simpl; lia).
  assert (length request_line = 17%nat) as Hrl by done.
  eapply wp_mono; [apply (printf_small m1 b1 request_line); try done; rewrite length_app; lia|].
  intros b2 m2 (W2 & R2 & O2 & M2).
  eapply wp_mono; [apply (push_local_small m2 b2 (request_line ++ length_line n)); try done|].
  { rewrite !length_app, Hrl. change (length CRLF) with 2%nat. lia. }
  intros b3 m3 (W3 & R3 & O3 & M3). split; [done|]. unfold request. rewrite app_assoc.
  split; [done|]. split; [done|]. eapply moves_trans; [exact M1|]. by eapply moves_trans.
Qed.

(** A client whose file cannot be opened dereferences a null pointer. *)
Theorem client_run_null_ub ipaddr port now s e :
  small_memory → mem_wf (wmem (pworld s)) →
  answer (history (psys s)) (OpenFile (bs "/etc/issue") O_RDONLY) = inl e →
  client_run inotifier junk ipaddr port now s = UB.
Proof.
  intros Hm Hwf Ha. unfold client_run. erewrite bind_Ok.
  2:{ unfold on_os, File.open, invoke_int, invoke, mbind, ST_bind. simpl. by rewrite Ha. }
  destruct (wp_elim _ _ _ (client_header_spec _ Hm Hwf)) as (b1 & m1 & E & _).
  erewrite bind_Ok; [|unfold on_mem, on_world, lift; simpl; by rewrite E]. by apply bind_UB.
Qed.

(** [client_run], when its file opens, returns with all of its descriptors
    given back and the memory of others untouched, whatever the system
    answers; a client that gets a connection sends a beginning of the request
    with the size that the system told for the file, and then what [sendfile]
    takes of the file. *)
Theorem client_run_clean ipaddr port now s r :
  FreshFds → small_memory → mem_wf (wmem (pworld s)) →
  answer (history (psys s)) (OpenFile (bs "/etc/issue") O_RDONLY) = inr r →
  wp (client_run inotifier junk ipaddr port now) (λ _ s',
    same_fds (psys s) (psys s') ∧ mem_wf (wmem (pworld s'))
    ∧ only_touches 0 (wmem (pworld s)) (wmem (pworld s'))
    ∧ (wkern (pworld s') = wkern (pworld s)
       ∨ ∃ fd n, client_sent (wkern (pworld s)) (wkern (pworld s')) fd (rval r) (request n))) s.
Proof.
  intros HF Hm Hwf Ha. destruct (open_fresh _ _ _ _ Ha) as [Hpos Hnew]. unfold client_run.
  pm_step. pm_step. eapply wp_mono; [exact (file_open_is (File.new (bs "/etc/issue") now) O_RDONLY _ r Ha Hpos)|].
  intros fs o1 (-> & _ & He1 & Hl1). pm_step. pm_step.
  eapply wp_mono; [by apply client_header_spec|]. intros b1 m1 H1. pm_step. pm_step. simpl.
  eapply wp_mono; [apply stream_size_quiet|]. intros n o2 [[Hl2 He2] Hn]. pm_step. pm_step. simpl.
  eapply wp_mono; [by apply H1|]. clear H1. intros b2 m2 H2. pm_step. pm_step. simpl.
  eapply wp_mono; [exact H2|]. clear H2. intros b m3 (Wf & Rep & Own & Mv). pm_step. pm_step. simpl.
  eapply wp_mono; [by apply open_plain|]. intros [st x] o3 [He3 Hx]. cbn [fst snd] in *.
  set (s3 := Process o3 _). pm_step.
  apply wp_mono with (Q := λ _ s', same_fds (psys s3) (psys s') ∧ wmem (pworld s') = m3
    ∧ (wkern (pworld s') = wkern (pworld s)
       ∨ ∃ fd n, client_sent (wkern (pworld s)) (wkern (pworld s')) fd (rval r) (request n))).
  { case_bool_decide; [pm_step; split_and!; [done|done|by left]|].
    eapply wp_mono; [by apply (client_send_spec _ _ _ (request n))|].
    intros _ s' (? & ? & ?). split; [done|]. split; [done|]. right. by exists (Socket.fd_ x), n. }
  intros _ [o4 [m4 k4 e4]] ([Hl4 He4] & Em & Hsent). simpl in *. subst m4. pm_step. pm_step. simpl.
  eapply wp_mono; [apply (open_destroy (st, x) (live (history o2)))|].
  { simpl. rewrite Hl4. destruct st; naive_solver. }
  intros _ o5 [He5 Hl5]. pm_step. pm_step. simpl.
  eapply wp_mono; [by eapply destroy_frees|]. intros _ m6 (Wf6 & Ot6 & _). pm_step. pm_step. simpl.
  eapply wp_mono; [by apply (stream_destroy_closes (FileStream.mkFile (rval r)))|].
  intros _ o7 [He7 Hl7]. pm_step. pm_step. eapply wp_Ok; [reflexivity|]. pm_step. simpl in *.
  split; [split; [rewrite Hl7, Hl5, Hl2, Hl1; set_solver|congruence]|].
  split; [done|]. split; [|done]. destruct Mv as [Ot Hb]. by eapply only_touches_trans.
Qed.
End client.

(** ** The loops with any pipe *)
Section loops.
Context {K : Kernel} {KL : KernelLaws K} {AL : Allocator}.
Implicit Types (k : kst) (w : world) (p : Pipe.Pipe).

(** The same descriptors, open on the same channels. *)
Definition same_chans k k' : Prop :=
  ∀ fd, rd_chan k' fd = rd_chan k fd ∧ wr_chan k' fd = wr_chan k fd.

Lemma same_chans_transfer k k' f : transfer k k' f → same_chans k k'.
Proof. intros (_ & Hr & Hw) fd. by rewrite Hr, Hw. Qed.
Lemma same_chans_trans k1 k2 k3 : same_chans k1 k2 → same_chans k2 k3 → same_chans k1 k3.
Proof. intros H1 H2 fd. destruct (H1 fd), (H2 fd). split; congruence. Qed.

(** A splice between any channels, seen from [ci], which nothing goes into
    through the descriptor [o]. *)
Lemma wp_splice_drain i o n ci w (Q : Z → world → Prop) :
  (∀ r w', wmem w' = wmem w → same_chans (wkern w) (wkern w') →
     (wr_chan (wkern w) o ≠ Some ci →
      (length (content (wkern w') ci) <= length (content (wkern w) ci))%nat) →
     (0 < r → rd_chan (wkern w) i = Some ci →
      (length (content (wkern w') ci) < length (content (wkern w) ci))%nat) → Q r w') →
  wp (splice i o n) Q w.
Proof using KL.
  intros HQ. apply wp_splice.
  - intros k' e Ht. apply HQ; simpl; [done|by eapply same_chans_transfer| |lia].
    by rewrite (transfer_content _ _ _ _ Ht).
  - intros a b d k' Ha Hb _ Hmv. pose proof Hmv as (Hne & r & _ & Ht).
    destruct (moved_content _ _ _ _ _ Hmv) as [E1 E2].
    apply HQ; simpl; [done|by eapply same_chans_transfer|..].
    + intros Ho. destruct (decide (ci = a)) as [->|Hca]; [rewrite E1, length_app; lia|].
      rewrite (moved_other _ _ _ _ _ ci Hmv); [lia|done|congruence].
    + intros Hd Hi. assert (a = ci) as -> by congruence. rewrite E1, length_app. lia.
Qed.

Definition loop_post p w (p' : Pipe.Pipe) w' : Prop :=
  wmem w' = wmem w ∧ same_chans (wkern w) (wkern w')
  ∧ Pipe.pipe_0 p' = Pipe.pipe_0 p ∧ Pipe.pipe_1 p' = Pipe.pipe_1 p.

Lemma loop_post_trans p1 w1 p2 w2 p3 w3 :
  loop_post p1 w1 p2 w2 → loop_post p2 w2 p3 w3 → loop_post p1 w1 p3 w3.
Proof.
  intros (M1 & C1 & A1 & B1) (M2 & C2 & A2 & B2).
  split_and!; [congruence|by eapply same_chans_trans|congruence..].
Qed.

Lemma loop_post_grow p n w w' :
  wmem w' = wmem w → same_chans (wkern w) (wkern w') → loop_post p w (Pipe.grow p n) w'.
Proof. intros. unfold Pipe.grow. by destruct (0 <? n). Qed.

(** One round of either loop reads from the socket or ends it. *)
Lemma read_pipe_drains client p ci w :
  rd_chan (wkern w) (Socket.fd_ client) = Some ci →
  wp (Socket.read_pipe client p 1024) (λ r w', loop_post p w r.2 w'
    ∧ (0 < r.1 → (length (content (wkern w') ci) < length (content (wkern w) ci))%nat)) w.
Proof using KL.
  intros Hi. unfold Socket.read_pipe, Pipe.write_socket. wp_step.
  apply (wp_splice_drain _ _ _ ci). intros r w' Hm Hc _ Hlt. wp_step. simpl.
  split; [by apply loop_post_grow|auto].
Qed.

Lemma proxy_loop_total fuel client backend ci : ∀ p w,
  rd_chan (wkern w) (Socket.fd_ client) = Some ci →
  wr_chan (wkern w) (Socket.fd_ backend) ≠ Some ci →
  (length (content (wkern w) ci) < fuel)%nat →
  wp (Splicing.proxy_loop fuel client backend p) (loop_post p w) w.
Proof using KL.
  induction fuel as [|fuel IH]; intros p w Hi Ho Hf; [lia|]. simpl. wp_step.
  eapply wp_mono; [by apply read_pipe_drains|]. intros [n p1] w1 [H1 Hlt]. cbn [fst snd] in *.
  destruct (Z.ltb_spec 0 n) as [Hn|Hn]; [|by wp_step]. specialize (Hlt Hn). pose proof H1 as (_ & C1 & _).
  wp_step. unfold Socket.write_pipe. apply (wp_splice_drain _ _ _ ci). intros r w2 M2 C2 Hle _.
  eapply wp_mono; [apply IH|].
  - rewrite (proj1 (C2 _)), (proj1 (C1 _)). done.
  - rewrite (proj2 (C2 _)), (proj2 (C1 _)). done.
  - rewrite (proj2 (C1 _)) in Hle. specialize (Hle Ho). lia.
  - intros p3 w3 H3. eapply loop_post_trans; [exact H1|]. eapply loop_post_trans; [|exact H3].
    by split_and!.
Qed.


(** *** A local pipe *)

(** A close gives the descriptor back. *)
Definition closes_always : Prop := ∀ fd k, ∃ k', sys_close fd k = (inr (), k').

(** Compared to [k], [k'] has the descriptors of the pipe more, if it is open. *)
Definition with_pipe k p k' : Prop :=
  if Pipe.isOpen p then
    Pipe.pipe_0 p ≠ Pipe.pipe_1 p
    ∧ ∀ fd, if decide (fd = Pipe.pipe_0 p ∨ fd = Pipe.pipe_1 p)
            then rd_chan k fd = None ∧ wr_chan k fd = None
            else rd_chan k' fd = rd_chan k fd ∧ wr_chan k' fd = wr_chan k fd
  else same_chans k k'.

Lemma pipe_new_spec flags w :
  wp (Pipe.new flags) (λ p w', wmem w' = wmem w ∧ with_pipe (wkern w) p (wkern w')
    ∧ ∀ fd ci, rd_chan (wkern w) fd = Some ci →
        rd_chan (wkern w') fd = Some ci ∧ content (wkern w') ci = content (wkern w) ci
        ∧ ∀ fd', wr_chan (wkern w) fd' ≠ Some ci → wr_chan (wkern w') fd' ≠ Some ci) w.
Proof using KL.
  unfold Pipe.new. wp_step. unfold syscall, wp.
  destruct (sys_pipe2 flags (wkern w)) as [[e|[a b]] k'] eqn:E; simpl.
  - destruct (pipe2_err _ _ _ _ E) as [He Ht]. split; [done|]. unfold with_pipe, Pipe.isOpen. simpl.
    replace (0 <=? - e) with false by lia. split; [by eapply same_chans_transfer|].
    destruct Ht as (Hc & Hr & Hw). intros fd ci Hfd. rewrite Hr, Hc. split_and!; try done.
    intros fd'. by rewrite Hw.
  - destruct (pipe2_ok _ _ _ _ _ E) as (Ha & Hb & Hab & c & Rc & Wc & Ec & Hc & Ra & Wa & Rb & Wb & NR & NW & R & W).
    split; [done|]. unfold with_pipe, Pipe.isOpen. simpl. replace (0 <=? a) with true by lia. split.
    + split; [done|]. intros fd. case_decide as Hd; [by destruct Hd as [->| ->]|].
      split; [apply R|apply W]; tauto.
    + intros fd ci Hfd. assert (fd ≠ a) by congruence. assert (ci ≠ c) by (intros ->; by destruct (NR fd)).
      rewrite R, Hc by done. split_and!; try done. intros fd' Hn.
      destruct (decide (fd' = b)) as [->|]; [congruence|by rewrite W].
Qed.

Lemma pipe_destroy_spec k p w :
  closes_always → with_pipe k p (wkern w) →
  wp (Pipe.destroy p) (λ _ w', wmem w' = wmem w ∧ same_chans k (wkern w')) w.
Proof using KL.
  intros Hcl. unfold with_pipe, Pipe.destroy. destruct (Pipe.isOpen p); [|intros; by wp_step].
  intros [Hne Hp]. wp_step. unfold close. wp_step. unfold syscall, wp at 1.
  destruct (Hcl (Pipe.pipe_0 p) (wkern w)) as [k1 E1]. rewrite E1. wp_step. wp_step. wp_step.
  unfold wp at 1. simpl. destruct (Hcl (Pipe.pipe_1 p) k1) as [k2 E2]. rewrite E2. wp_step. wp_step.
  split; [done|]. simpl. intros fd. specialize (Hp fd).
  destruct (close_ok _ _ _ E1) as (_ & R1 & W1 & O1). destruct (close_ok _ _ _ E2) as (_ & R2 & W2 & O2).
  destruct (decide (fd = Pipe.pipe_1 p)) as [->|H1].
  - rewrite decide_True in Hp by auto. destruct Hp. split; congruence.
  - destruct (O2 fd H1) as [-> ->]. destruct (decide (fd = Pipe.pipe_0 p)) as [->|H0].
    + rewrite decide_True in Hp by auto. destruct Hp. split; congruence.
    + rewrite decide_False in Hp by tauto. by destruct (O1 fd H0) as [-> ->].
Qed.

Lemma with_pipe_post k p w p' w' :
  with_pipe k p (wkern w) → loop_post p w p' w' → with_pipe k p' (wkern w').
Proof.
  intros Hp (_ & C & A & B). unfold with_pipe, Pipe.isOpen in *. rewrite A, B.
  destruct (0 <=? Pipe.pipe_0 p); [|by eapply same_chans_trans].
  destruct Hp as [Hne Hp]. split; [done|]. intros fd. specialize (Hp fd).
  case_decide; [done|]. destruct (C fd) as [-> ->]. done.
Qed.
End loops.

(** ** The proxy and the main thread *)
Section programs.
Context {K : Kernel} {KL : KernelLaws K} {AL : Allocator} {os : OS} {T : InetText}.
Context (junk : bytes).
Implicit Types (s : process).

(** The kernel's side of a connected socket: it reads what its peer sends, and
    that comes only through descriptors which satisfy [P]. *)
Definition feeds (P : Z → Prop) (fd : Z) (ci : chan) (k : kst) : Prop :=
  rd_chan k fd = Some ci ∧ ∀ fd', wr_chan k fd' = Some ci → P fd'.

Lemma fresh_minus (b c : Z) (L : gset Z) :
  b ∉ L → c ∈ L → (b ∉ L ∖ {[c]}) ∧ ({[b]} ∪ L) ∖ {[c]} = {[b]} ∪ L ∖ {[c]}.
Proof. intros. split; set_solver. Qed.

(** [proxy_run] returns for every behaviour of the system: the connection
    to the client is closed, the one to the backend and the pipe are gone,
    whether they could be opened or not, and nothing else has changed.  Only
    descriptors that were open before lead to the client's connection. *)
Theorem proxy_run_clean fuel ipaddr port client ci s :
  FreshFds → closes_always →
  0 <= Socket.fd_ client → Socket.fd_ client ∈ live (history (psys s)) →
  feeds (λ fd, 0 <= fd ∧ fd ∈ live (history (psys s))) (Socket.fd_ client) ci (wkern (pworld s)) →
  (length (content (wkern (pworld s)) ci) < fuel)%nat →
  wp (proxy_run junk fuel ipaddr port client) (λ _ s',
    live (history (psys s')) = live (history (psys s)) ∖ {[Socket.fd_ client]}
    ∧ environ (psys s') = environ (psys s)
    ∧ same_chans (wkern (pworld s)) (wkern (pworld s')) ∧ wmem (pworld s') = wmem (pworld s)) s.
Proof using KL.
  intros HF Hcl Hpos Hin [Hrd Hfeed] Hf. unfold proxy_run. pm_step. pm_step.
  eapply wp_mono; [by apply open_plain|]. intros [st b] o1 [He1 Hb]. cbn [fst snd] in *.
  assert (wr_chan (wkern (pworld s)) (Socket.fd_ b) ≠ Some ci) as Hno.
  { intros Hw. destruct (Hfeed _ Hw) as [H0 H1].
    destruct st; [destruct Hb as [Hb _]; lia|by destruct Hb as (_ & Hn & _)..]. }
  pm_step. pm_step. simpl. eapply wp_mono; [apply pipe_new_spec|].
  intros p w1 (M1 & Hp1 & Hch). destruct (Hch _ _ Hrd) as (R1 & C1 & W1).
  pm_step. pm_step. simpl. eapply wp_mono; [apply (proxy_loop_total _ _ _ ci); [done|by apply W1|by rewrite C1]|].
  intros p2 w2 L2. pose proof (with_pipe_post _ _ _ _ _ Hp1 L2) as Hp2. destruct L2 as (M2 & _).
  pm_step. pm_step. simpl. eapply wp_mono; [apply socket_destroy_spec|]. intros _ o3 [He3 Hl3].
  replace (0 <=? _) with true in Hl3 by lia.
  pm_step. pm_step. simpl. eapply wp_mono; [by eapply pipe_destroy_spec|]. intros _ w4 [M4 Hc4].
  pm_step. simpl. eapply wp_mono;
    [apply (open_destroy (st, b) (live (history (psys s)) ∖ {[Socket.fd_ client]}))|].
  { simpl. rewrite Hl3. destruct st; [destruct Hb as [-> ->]; done|..];
      destruct Hb as (? & ? & ->); (split; [done|by apply fresh_minus]). }
  intros _ o5 [He5 Hl5]. simpl. split; [done|]. split; [congruence|]. split; [done|congruence].
Qed.












End programs.
