(* ===== verification/TcpClient.v ===== *)
(** * TcpClient: the client of examples/tcp-client.cpp

    A program that connects, sends one request and shows the response, written
    as three handlers each of which installs the next one.  The event loop
    delivers events to the active watchers of the socket; the peer may send at
    any time. *)

From Stdlib Require Import QArith.
From S2P Require Import Prelude Memory BufferBase BufferParse MutableBuffer BufferSpec Libc Kernel Os.
From S2P Require Import Address SdDaemon Server Pipe File Socket Process Network.

Local Open Scope Z_scope.

Module TcpClient.
(** The names of the handlers. *)
Definition CONNECT_HANDLER : nat := 0.
Definition WRITE_HANDLER : nat := 1.
Definition READ_HANDLER : nat := 2.

Definition request : bytes :=
  bs "GET / HTTP/1.1" ++ CRLF ++ bs "Host: localhost" ++ CRLF ++ bs "Connection: close" ++ CRLF ++ CRLF.

Definition BUFSIZE : Z := 65536.

(** The socket, the inotify watcher of [File::init] and the responses shown. *)
Record client : Type := mkClient {
  socket : Socket.Socket;
  notifier : Inotify.Inotify;
  shown : list bytes;
}.

Definition with_socket (c : client) (s : Socket.Socket) : client :=
  mkClient s (notifier c) (shown c).

(** [printf("%s\n", buf)] of [d] with a terminator. *)
Definition c_string (d : bytes) : bytes := before_nul d.

Section program.
Context {K : Kernel} {os : OS} {T : InetText}.

(** The handler of [CONNECTED] *)
Definition on_connected (c : client) (re : Z) : PM client :=
  if has re Socket.TIMEOUT then mret (with_socket c (Socket.stop (socket c)))
  else s ← on_os (Socket.on (socket c) Socket.WRITE (inject_Z 10) WRITE_HANDLER); mret (with_socket c s).

(** The handler of [WRITE] *)
Definition on_writable (c : client) (re : Z) : PM client :=
  if has re Socket.TIMEOUT then mret c
  else
    on_world (write_local (Socket.fd_ (socket c)) request);;
    s ← on_os (Socket.on (socket c) Socket.READ (inject_Z 10) READ_HANDLER); mret (with_socket c s).

(** The handler of [READ]; [buf\[n\] = 0] is out of bounds when the array is
    full. *)
Definition on_readable (c : client) (re : Z) : PM client :=
  if has re Socket.TIMEOUT then mret (with_socket c (Socket.stop (socket c)))
  else
    r ← on_world (read_local (Socket.fd_ (socket c)) BUFSIZE);
    let n := match r with Some d => Z.of_nat (length d) | None => -1 end in
    if 0 <? n then
      if BUFSIZE <=? n then ub
      else mret (mkClient (socket c) (notifier c) (shown c ++ [c_string (default [] r)]))
    else mret (with_socket c (Socket.stop (socket c))).

(** What [handler_] holds is called. *)
Definition call (c : client) (t : Socket.tail) : PM client :=
  match t with
  | Socket.Return => mret c
  | Socket.Throw => λ _, Abort
  | Socket.Call h re =>
      if (h =? CONNECT_HANDLER)%nat then on_connected c re
      else if (h =? WRITE_HANDLER)%nat then on_writable c re
      else on_readable c re
  end.

(** The event loop's calls. *)
Definition io_event (c : client) (revents : Z) : PM client :=
  '(t, s) ← on_os (Socket.io (socket c) revents); call (with_socket c s) t.
Definition timer_event (c : client) : PM client :=
  let '(t, s) := Socket.timeout (socket c) in call (with_socket c s) t.

(** [main] up to [loop.run()]; [None] when it has returned 1. *)
Definition start (x : Inotify.Inotify) (junk : bytes) : PM (option client) :=
  let x := File.init x in
  '(ss, s) ← on_os (Socket.open Socket.new (IPAddress.new_text junk (bs "127.0.0.1") 0) 8080 0);
  if bool_decide (ss = Socket.Closed) then on_os (Socket.destroy s);; mret None
  else
    s ← on_os (Socket.on s Socket.CONNECTED (inject_Z 10) CONNECT_HANDLER);
    mret (Some (mkClient s x [])).

(** [loop.run()] returns when no watcher is active. *)
Definition loop_active (c : client) : bool :=
  bool_decide (Inotify.io_ (notifier c) ≠ None) || bool_decide (Socket.io_ (socket c) ≠ None)
  || bool_decide (Socket.timer_ (socket c) ≠ None).

(** What follows it. *)
Definition finish (c : client) : PM () :=
  on_os (File.deinit (notifier c));; on_os (Socket.destroy (socket c)).
End program.
End TcpClient.
Import TcpClient.

Section tcp.
Context {K : Kernel} {KL : KernelLaws K} {os : OS} {T : InetText}.
Implicit Types (c : client) (s : process) (k : kst) (d R : bytes).

(** Runs of the event loop: [R] is what the peer sends meanwhile.  An I/O event
    is never a timeout. *)
Context (ci co : chan).
Inductive tcp_run : client → process → bytes → client → process → Prop :=
| tcp_done c s : tcp_run c s [] c s
| tcp_peer c s k d R c' s' :
    put (wkern (pworld s)) k ci d →
    tcp_run c (Process (psys s) (World (wmem (pworld s)) k (werrno (pworld s)))) R c' s' →
    tcp_run c s (d ++ R) c' s'
| tcp_io c s fd ev revents c1 s1 R c' s' :
    Socket.io_ (socket c) = Some (fd, ev) → has revents Socket.TIMEOUT = false →
    io_event c revents s = Ok (c1, s1) → tcp_run c1 s1 R c' s' → tcp_run c s R c' s'
| tcp_timer c s t c1 s1 R c' s' :
    Socket.timer_ (socket c) = Some t → timer_event c s = Ok (c1, s1) →
    tcp_run c1 s1 R c' s' → tcp_run c s R c' s'.

(** ** The protocol *)

(** The process is connected through [fd], has sent [sent] and read [pieces]. *)
Record tcp_inv (fd : Z) (o : os_state) (old : bytes) c s (sent : bytes) (pieces : list bytes) : Prop := {
  ti_fd : Socket.fd_ (socket c) = fd;
  ti_state : Socket.state_ (socket c) = Socket.Operational;
  ti_fds : same_fds o (psys s);
  ti_rd : rd_chan (wkern (pworld s)) fd = Some ci;
  ti_wr : wr_chan (wkern (pworld s)) fd = Some co;
  ti_sent : content (wkern (pworld s)) co = old ++ sent;
  ti_shown : shown c = c_string <$> pieces;
  ti_loop : Inotify.io_ (notifier c) ≠ None;
  ti_timer : Socket.timer_ (socket c) ≠ None → Socket.io_ (socket c) ≠ None;
  ti_phase : match Socket.handler_ (socket c) with
             | Some 0%nat | Some 1%nat => sent = [] ∧ pieces = []
             | Some 2%nat => sent `prefix_of` request
             | _ => False
             end;
}.

(** From [s] to [s'] the bytes [d] of the peer were read. *)
Definition tcp_next fd o old s (pieces : list bytes) c' s' : Prop :=
  ∃ sent' new, tcp_inv fd o old c' s' sent' (pieces ++ new)
    ∧ content (wkern (pworld s)) ci = concat new ++ content (wkern (pworld s')) ci.

(** The peer has filled the whole array at once. *)
Definition full_read k : Prop := ∃ d, d `prefix_of` content k ci ∧ Z.of_nat (length d) = BUFSIZE.

(** Only the watchers of the socket change. *)
Lemma tcp_inv_watch fd o old c s sent pieces x :
  tcp_inv fd o old c s sent pieces →
  Socket.fd_ x = Socket.fd_ (socket c) → Socket.state_ x = Socket.state_ (socket c) →
  Socket.handler_ x = Socket.handler_ (socket c) →
  (Socket.timer_ x ≠ None → Socket.io_ x ≠ None) →
  tcp_inv fd o old (with_socket c x) s sent pieces.
Proof. intros [] Ef Es Eh Et. split; simpl; rewrite ?Ef, ?Es, ?Eh; done. Qed.

Lemma tcp_next_watch fd o old c s sent pieces x :
  tcp_inv fd o old c s sent pieces →
  Socket.fd_ x = Socket.fd_ (socket c) → Socket.state_ x = Socket.state_ (socket c) →
  Socket.handler_ x = Socket.handler_ (socket c) →
  (Socket.timer_ x ≠ None → Socket.io_ x ≠ None) →
  tcp_next fd o old s pieces (with_socket c x) s.
Proof. intros. exists sent, []. rewrite app_nil_r. split; [by apply tcp_inv_watch|done]. Qed.

(** A handler installs the next one. *)
Lemma wp_on_next c mode h (s : process) (Q : Socket.Socket → process → Prop) :
  Z.land mode Socket.TIMEOUT = 0 → has mode Socket.CONNECTED = false →
  Q (Socket.mkSocket (Socket.fd_ (socket c)) (Socket.state_ (socket c))
       (Some (Socket.fd_ (socket c), mode)) (inject_Z 10) (Some (inject_Z 10)) (Some h)) s →
  wp (on_os (Socket.on (socket c) mode (inject_Z 10) h)) Q s.
Proof.
  intros Hm Hc HQ. apply wp_on_os. unfold Socket.on. rewrite Hm, Hc. wp_step. wp_step; [done|].
  wp_step. by destruct s.
Qed.

Lemma on_connected_spec fd o old c s sent pieces re :
  tcp_inv fd o old c s sent pieces → Socket.handler_ (socket c) = Some CONNECT_HANDLER →
  wp (on_connected c re) (tcp_next fd o old s pieces) s.
Proof.
  intros Hi Hh. unfold on_connected. destruct (has re Socket.TIMEOUT).
  - wp_step. by eapply tcp_next_watch.
  - wp_step. apply wp_on_next; [done|done|]. wp_step.
    pose proof Hi as [F1 F2 F3 F4 F5 F6 F7 F8 F9 F10]. rewrite Hh in F10.
    exists sent, []. rewrite app_nil_r. split; [|done]. by split.
Qed.

Context (Hio : ci ≠ co).

Lemma on_writable_spec fd o old c s sent pieces re :
  tcp_inv fd o old c s sent pieces → Socket.handler_ (socket c) = Some WRITE_HANDLER →
  wp (on_writable c re) (tcp_next fd o old s pieces) s.
Proof using KL Hio.
  intros Hi Hh. unfold on_writable. pose proof Hi as [F1 F2 F3 F4 F5 F6 F7 F8 F9 F10].
  rewrite Hh in F10. destruct F10 as [-> ->]. destruct (has re Socket.TIMEOUT).
  - wp_step. exists [], []. by split.
  - assert (Hgo : ∀ k e n, put (wkern (pworld s)) k co (take n request) →
      wp (x ← on_os (Socket.on (socket c) Socket.READ (inject_Z 10) READ_HANDLER); mret (with_socket c x))
        (tcp_next fd o old s []) (Process (psys s) (World (wmem (pworld s)) k e))).
    { intros k e n Hput. wp_step. apply wp_on_next; [done|done|]. wp_step.
      exists (take n request), []. simpl. split.
      - split; simpl; try done.
        + by rewrite (transfer_rd _ _ _ _ Hput).
        + by rewrite (transfer_wr _ _ _ _ Hput).
        + by rewrite (put_content _ _ _ _ Hput), F6, app_nil_r.
        + apply prefix_take.
      - by rewrite (put_other _ _ _ _ _ Hput). }
    wp_step. apply wp_on_world. apply wp_write_local.
    + intros k e Ht. apply (Hgo _ _ 0%nat). by apply put_nil.
    + intros r b k Hb _ Hput. assert (b = co) as -> by congruence. by eapply Hgo.
Qed.

Lemma on_readable_spec fd o old c s sent pieces re :
  tcp_inv fd o old c s sent pieces → Socket.handler_ (socket c) = Some READ_HANDLER →
  handled (on_readable c re) (tcp_next fd o old s pieces) (full_read (wkern (pworld s))) s.
Proof using KL Hio.
  intros Hi Hh. unfold on_readable. pose proof Hi as [F1 F2 F3 F4 F5 F6 F7 F8 F9 F10].
  rewrite Hh in F10. destruct (has re Socket.TIMEOUT).
  { apply handled_wp. wp_step. by eapply tcp_next_watch. }
  unfold handled, mbind, ST_bind, on_world, read_local, syscall. rewrite F1.
  destruct (sys_read fd BUFSIZE (wkern (pworld s))) as [[e|d] k] eqn:Er.
  - apply read_err in Er. destruct (tcp_next_watch fd o old c s sent pieces
      (Socket.stop (socket c)) Hi) as (sent' & new & [] & Hc); try done.
    exists sent', new. simpl in *. rewrite !(transfer_content _ _ _ _ Er). split; [|done].
    split; simpl; rewrite ?(transfer_rd _ _ _ _ Er), ?(transfer_wr _ _ _ _ Er), ?(transfer_content _ _ _ _ Er); done.
  - destruct (read_ok _ _ _ _ _ Er) as (a & Ha & Hlen & Htk). assert (a = ci) as -> by congruence.
    pose proof (took_content _ _ _ _ Htk) as Ec. pose proof (took_other _ _ _ _ co Htk ltac:(congruence)) as Eo.
    destruct Htk as (r & _ & Ht). cbn [default]. destruct (Z.ltb_spec 0 (Z.of_nat (length d))) as [Hd|Hd].
    + destruct (Z.leb_spec BUFSIZE (Z.of_nat (length d))) as [Hfull|Hfull].
      * simpl. exists d. split; [by rewrite Ec; apply prefix_app_r|lia].
      * exists sent, [d]. simpl. rewrite app_nil_r. split; [|done].
        split; simpl; rewrite ?(transfer_rd _ _ _ _ Ht), ?(transfer_wr _ _ _ _ Ht), ?Eo; try done.
        -- by rewrite F7, fmap_app.
        -- by rewrite Hh.
    + destruct d; [|simpl in Hd; lia]. exists sent, []. rewrite app_nil_r. split; [|done].
      split; simpl; rewrite ?(transfer_rd _ _ _ _ Ht), ?(transfer_wr _ _ _ _ Ht), ?Eo; try done.
      by rewrite Hh.
Qed.

(** Whichever handler is installed. *)
Lemma call_spec fd o old c s sent pieces h re :
  tcp_inv fd o old c s sent pieces → Socket.handler_ (socket c) = Some h →
  handled (call c (Socket.Call h re)) (tcp_next fd o old s pieces) (full_read (wkern (pworld s))) s.
Proof using KL Hio.
  intros Hi Hh. pose proof (ti_phase _ _ _ _ _ _ _ Hi) as Hp. rewrite Hh in Hp. simpl.
  destruct h as [|[|[|h]]]; [| | |done]; simpl.
  - apply handled_wp. by eapply on_connected_spec.
  - apply handled_wp. by eapply on_writable_spec.
  - by eapply on_readable_spec.
Qed.

Lemma io_event_spec fd o old c s sent pieces revents :
  tcp_inv fd o old c s sent pieces →
  handled (io_event c revents) (tcp_next fd o old s pieces) (full_read (wkern (pworld s))) s.
Proof using KL Hio.
  intros Hi. pose proof (ti_phase _ _ _ _ _ _ _ Hi) as Hp. pose proof (ti_state _ _ _ _ _ _ _ Hi) as Hs.
  destruct (Socket.handler_ (socket c)) as [h|] eqn:Hh; [|done].
  unfold io_event, on_os, Socket.io, handled, mbind, ST_bind. simpl. rewrite Hs, Hh. simpl.
  assert (Hx : tcp_inv fd o old (with_socket c (Socket.with_timer (socket c) None)) s sent pieces)
    by (by apply tcp_inv_watch).
  pose proof (call_spec _ _ _ _ _ _ _ h revents Hx Hh) as H.
  unfold handled in H. simpl in H. by destruct s.
Qed.

Lemma timer_event_spec fd o old c s sent pieces :
  tcp_inv fd o old c s sent pieces →
  wp (timer_event c) (tcp_next fd o old s pieces) s.
Proof using KL Hio.
  intros Hi. pose proof (ti_phase _ _ _ _ _ _ _ Hi) as Hp.
  destruct (Socket.handler_ (socket c)) as [h|] eqn:Hh; [|done].
  set (x := Socket.with_io (Socket.with_timer (socket c) None) None).
  assert (Hx : tcp_inv fd o old (with_socket c x) s sent pieces) by (by apply tcp_inv_watch).
  unfold timer_event, Socket.timeout. change (Socket.call_handler _ _) with
    (match Socket.handler_ (socket c) with Some h => Socket.Call h Socket.TIMEOUT | None => Socket.Throw end).
  rewrite Hh. fold x. unfold call.
  destruct h as [|[|[|h]]]; [| | |done]; simpl.
  - by eapply on_connected_spec.
  - by eapply on_writable_spec.
  - unfold on_readable. change (has Socket.TIMEOUT Socket.TIMEOUT) with true. wp_step.
    by eapply tcp_next_watch.
Qed.

(** The peer sends. *)
Lemma tcp_inv_peer fd o old c s sent pieces k d :
  tcp_inv fd o old c s sent pieces → put (wkern (pworld s)) k ci d →
  tcp_inv fd o old c (Process (psys s) (World (wmem (pworld s)) k (werrno (pworld s)))) sent pieces.
Proof using KL Hio.
  intros [] Hput. split; simpl; try done.
  - by rewrite (transfer_rd _ _ _ _ Hput).
  - by rewrite (transfer_wr _ _ _ _ Hput).
  - by rewrite (put_other _ _ _ _ _ Hput) by congruence.
Qed.

(** *** Before the connection is made *)

(** The system reports no error of the connection on [fd]. *)
Definition connection_made h (fd : Z) : Prop :=
  ∃ d i z, answer h (Getsockopt fd SOL_SOCKET SO_ERROR) = inr (Reply 0 d i z).

(** [connect] is under way on [fd]: the first handler waits, nothing was sent
    and no call made since [o]; the system will report no error. *)
Record connecting (fd : Z) (o : os_state) (old : bytes) c s : Prop := {
  cn_state : Socket.state_ (socket c) = Socket.Connecting;
  cn_handler : Socket.handler_ (socket c) = Some CONNECT_HANDLER;
  cn_fd : 0 <= fd;
  cn_sys : psys s = o;
  cn_made : connection_made (history o) fd;
  cn_inv : tcp_inv fd o old (with_socket c (Socket.with_state (socket c) Socket.Operational)) s [] [];
}.

(** The client waits for its connection, or has it. *)
Definition client_inv fd o old c s (sent : bytes) (pieces : list bytes) : Prop :=
  tcp_inv fd o old c s sent pieces ∨ (connecting fd o old c s ∧ sent = [] ∧ pieces = []).
Definition client_next fd o old s (pieces : list bytes) c' s' : Prop :=
  ∃ sent' new, client_inv fd o old c' s' sent' (pieces ++ new)
    ∧ content (wkern (pworld s)) ci = concat new ++ content (wkern (pworld s')) ci.

Lemma client_fd fd o old c s sent pieces :
  client_inv fd o old c s sent pieces → Socket.fd_ (socket c) = fd.
Proof. by intros [[]|([_ _ _ _ _ []] & _)]. Qed.

Lemma client_fds fd o old c s sent pieces :
  client_inv fd o old c s sent pieces → same_fds o (psys s).
Proof. by intros [[]|([_ _ _ _ _ []] & _)]. Qed.

Lemma tcp_client_next fd o old s pieces c' s' :
  tcp_next fd o old s pieces c' s' → client_next fd o old s pieces c' s'.
Proof. intros (sent' & new & Hi & E). exists sent', new. split; [by left|done]. Qed.

(** The first event finds the connection made and calls the first handler. *)
Lemma connecting_calls fd o old c s revents (Q : client → process → Prop) :
  connecting fd o old c s →
  (let c1 := with_socket c (Socket.with_state (Socket.stop (socket c)) Socket.Operational) in
   ∀ s1, pworld s1 = pworld s → tcp_inv fd o old c1 s1 [] [] →
     wp (on_connected c1 Socket.CONNECTED) Q s1) →
  wp (io_event c revents) Q s.
Proof.
  intros [Hst Hh Hfd Hsys (d & i & z & Ha) Hi] HQ. pose proof (ti_fd _ _ _ _ _ _ _ Hi) as Ef. simpl in Ef.
  unfold io_event, Socket.io. cbn [Socket.state_ Socket.with_timer]. rewrite Hst. pm_step. pm_step.
  eapply wp_mono; [apply (connect_complete_spec (Socket.with_timer (socket c) None)); simpl; lia|].
  simpl. rewrite Ef, Hsys, Ha. intros [t y] o' (Et & He & Ey & Hl). simpl in *. subst t y.
  unfold Socket.callback. simpl. rewrite Hh. simpl. apply HQ; [done|].
  destruct Hi as [F1 F2 F3 F4 F5 F6 F7 F8 F9 F10]. simpl in *. rewrite Hh in F10.
  split; simpl; try done; by rewrite ?Hh.
Qed.

Lemma connecting_io fd o old c s revents :
  connecting fd o old c s → wp (io_event c revents) (tcp_next fd o old s []) s.
Proof.
  intros Hc. pose proof (cn_handler _ _ _ _ _ Hc) as Hh. eapply connecting_calls; [done|].
  intros c1 s1 Hw Hi. eapply wp_mono; [by eapply on_connected_spec|].
  intros c' s' (sent' & new & H). exists sent', new. by rewrite <- Hw.
Qed.

(** No event in time: the watchers are stopped. *)
Lemma connecting_timer fd o old c s :
  connecting fd o old c s →
  wp (timer_event c) (λ c' s', connecting fd o old c' s' ∧ s' = s) s.
Proof.
  intros [Hst Hh Hfd Hsys Hm Hi]. unfold timer_event, Socket.timeout, Socket.call_handler. simpl.
  rewrite Hh. simpl. unfold on_connected. change (has Socket.TIMEOUT Socket.TIMEOUT) with true.
  wp_step. split; [|done]. split; simpl; try done.
  by apply (tcp_inv_watch _ _ _ _ _ _ _ (Socket.with_state (Socket.stop (socket c)) Socket.Operational)) in Hi.
Qed.

Lemma client_io fd o old c s sent pieces revents :
  client_inv fd o old c s sent pieces →
  handled (io_event c revents) (client_next fd o old s pieces) (full_read (wkern (pworld s))) s.
Proof using KL Hio.
  intros [Hi|(Hc & -> & ->)].
  - pose proof (io_event_spec _ _ _ _ _ _ _ revents Hi) as H. unfold handled in *.
    destruct (io_event c revents s) as [[??]| | |]; [by apply tcp_client_next|done..].
  - apply handled_wp. eapply wp_mono; [by apply connecting_io|]. intros c' s'. apply tcp_client_next.
Qed.

Lemma client_timer fd o old c s sent pieces :
  client_inv fd o old c s sent pieces → wp (timer_event c) (client_next fd o old s pieces) s.
Proof using KL Hio.
  intros [Hi|(Hc & -> & ->)].
  - eapply wp_mono; [by eapply timer_event_spec|]. intros c' s'. apply tcp_client_next.
  - eapply wp_mono; [by apply connecting_timer|]. intros c' s' [Hc' ->]. exists [], []. split; [by right|done].
Qed.

Lemma client_peer fd o old c s sent pieces k d :
  client_inv fd o old c s sent pieces → put (wkern (pworld s)) k ci d →
  client_inv fd o old c (Process (psys s) (World (wmem (pworld s)) k (werrno (pworld s)))) sent pieces.
Proof using KL Hio.
  intros [Hi|([Hst Hh Hfd Hsys Hm Hi] & -> & ->)] Hput; [left; by eapply tcp_inv_peer|right].
  split; [|done]. split; try done. by eapply tcp_inv_peer.
Qed.

Lemma tcp_run_spec fd o old c s R c' s' :
  tcp_run c s R c' s' →
  ∀ sent pieces, client_inv fd o old c s sent pieces →
  ∃ sent' new, client_inv fd o old c' s' sent' (pieces ++ new)
    ∧ content (wkern (pworld s)) ci ++ R = concat new ++ content (wkern (pworld s')) ci.
Proof using KL Hio.
  assert (Hstep : ∀ s s1 R pieces c1 c' s', client_next fd o old s pieces c1 s1 →
    (∀ sent pieces, client_inv fd o old c1 s1 sent pieces →
      ∃ sent' new, client_inv fd o old c' s' sent' (pieces ++ new)
        ∧ content (wkern (pworld s1)) ci ++ R = concat new ++ content (wkern (pworld s')) ci) →
    ∃ sent' new, client_inv fd o old c' s' sent' (pieces ++ new)
      ∧ content (wkern (pworld s)) ci ++ R = concat new ++ content (wkern (pworld s')) ci).
  { intros s0 s1 R0 pieces c1 c2 s2 (sent1 & new1 & H1 & E1) IH.
    destruct (IH _ _ H1) as (sent2 & new2 & H2 & E2). exists sent2, (new1 ++ new2).
    rewrite app_assoc. split; [done|]. rewrite E1, <- app_assoc, E2, concat_app. by rewrite app_assoc. }
  intros Hrun.
  induction Hrun as [c s|c s k d R c' s' Hput _ IH|c s fd' ev re c1 s1 R c' s' _ _ E _ IH|c s t c1 s1 R c' s' _ E _ IH];
    intros sent pieces Hi.
  - exists sent, []. rewrite !app_nil_r. done.
  - destruct (IH sent pieces) as (sent' & new & H' & E'); [by eapply client_peer|].
    exists sent', new. split; [done|]. simpl in E'. by rewrite app_assoc, <- (put_content _ _ _ _ Hput).
  - pose proof (client_io _ _ _ _ _ _ _ re Hi) as H. unfold handled in H. rewrite E in H. by eapply Hstep.
  - pose proof (client_timer _ _ _ _ _ _ _ Hi) as H. unfold wp in H. rewrite E in H. by eapply Hstep.
Qed.

(** [start] leaves nothing open when it returns 1, and otherwise waits for the
    connection with the first handler. *)
Lemma start_spec x junk s :
  FreshFds →
  wp (start x junk) (λ r s', pworld s' = pworld s ∧ environ (psys s') = environ (psys s) ∧ match r with
    | None => live (history (psys s')) = live (history (psys s))
    | Some c => (Socket.fd_ (socket c) ∉ live (history (psys s)))
        ∧ live (history (psys s')) = {[Socket.fd_ (socket c)]} ∪ live (history (psys s))
        ∧ 0 <= Socket.fd_ (socket c)
        ∧ (Socket.state_ (socket c) = Socket.Operational ∨ Socket.state_ (socket c) = Socket.Connecting)
        ∧ Socket.handler_ (socket c) = Some CONNECT_HANDLER
        ∧ Socket.io_ (socket c) ≠ None ∧ Inotify.io_ (notifier c) ≠ None ∧ shown c = []
    end) s.
Proof.
  intros HF. unfold start. cbv zeta. pm_step. pm_step. eapply wp_mono; [by apply open_connects|].
  intros [st y] o1 (Est & _ & _ & He & Hy). cbn [fst snd] in *. case_bool_decide as Hst.
  - rewrite Hst in Hy. destruct Hy as [Hfd Hl]. pm_step. pm_step.
    eapply wp_mono; [apply socket_destroy_spec|]. intros _ o2 [He2 Hl2]. rewrite Hfd in Hl2. pm_step.
    simpl in *. split_and!; congruence.
  - pm_step. pm_step. unfold Socket.on. wp_step. wp_step; [done|]. wp_step. pm_step. simpl.
    destruct st; [done| |done|]; destruct Hy as (? & ? & ? & ?); split_and!; auto.
Qed.

Lemma start_inv x junk s0 s c :
  FreshFds → start x junk s0 = Ok (Some c, s) →
  (Socket.state_ (socket c) = Socket.Connecting →
   connection_made (history (psys s)) (Socket.fd_ (socket c))) →
  rd_chan (wkern (pworld s)) (Socket.fd_ (socket c)) = Some ci →
  wr_chan (wkern (pworld s)) (Socket.fd_ (socket c)) = Some co →
  client_inv (Socket.fd_ (socket c)) (psys s) (content (wkern (pworld s)) co) c s [] [].
Proof.
  intros HF E Hm Hrd Hwr. pose proof (start_spec x junk s0 HF) as Hs. unfold wp in Hs.
  rewrite E in Hs. destruct Hs as (_ & _ & _ & _ & Hpos & Hst & Hh & Hw & Hn & Hsh).
  assert (tcp_inv (Socket.fd_ (socket c)) (psys s) (content (wkern (pworld s)) co)
    (with_socket c (Socket.with_state (socket c) Socket.Operational)) s [] []) as Hi.
  { split; try done; simpl; [by rewrite app_nil_r|by rewrite Hh]. }
  destruct Hst as [Hst|Hst].
  - left. destruct c as [[]]. simpl in *. by subst.
  - right. split; [|done]. split; auto.
Qed.

(** The program runs, from [s], where its loop began, to [s']; its connection
    is made at once, or under way and the system will report no error. *)
Definition running x junk s0 s R c s' : Prop :=
  ∃ c0, start x junk s0 = Ok (Some c0, s) ∧ tcp_run c0 s R c s'
    ∧ (Socket.state_ (socket c0) = Socket.Connecting →
       connection_made (history (psys s)) (Socket.fd_ (socket c0)))
    ∧ rd_chan (wkern (pworld s)) (Socket.fd_ (socket c0)) = Some ci
    ∧ wr_chan (wkern (pworld s)) (Socket.fd_ (socket c0)) = Some co.

Lemma running_inv x junk s0 s R c s' :
  FreshFds → running x junk s0 s R c s' →
  ∃ sent pieces, client_inv (Socket.fd_ (socket c)) (psys s) (content (wkern (pworld s)) co) c s' sent pieces
    ∧ content (wkern (pworld s)) ci ++ R = concat pieces ++ content (wkern (pworld s')) ci
    ∧ live (history (psys s')) = {[Socket.fd_ (socket c)]} ∪ live (history (psys s0)).
Proof using KL Hio.
  intros HF (c0 & E & Hrun & Hm & Hrd & Hwr). pose proof (start_inv _ _ _ _ _ HF E Hm Hrd Hwr) as Hi0.
  pose proof (start_spec x junk s0 HF) as Hs. unfold wp in Hs. rewrite E in Hs.
  destruct Hs as (_ & _ & _ & Hl & _).
  destruct (tcp_run_spec _ _ _ _ _ _ _ _ Hrun _ _ Hi0) as (sent & pieces & Hi' & Ec).
  exists sent, pieces. rewrite (client_fd _ _ _ _ _ _ _ Hi'). split; [done|]. split; [done|].
  by rewrite (proj1 (client_fds _ _ _ _ _ _ _ Hi')).
Qed.

(** C9: a client whose connection is made, at once or after the loop has begun.
    Over every run of the event loop, in whatever order events come and
    whatever the peer sends: the client sends a beginning of its request, once,
    and nothing before its socket is operational; it shows the pieces of the
    response in order, each up to its first zero byte, and what it has not read
    is still there; it keeps its one descriptor.  The loop always has an active
    watcher: the program never comes to its end. *)
Theorem tcp_client_protocol x junk s0 s R c s' :
  FreshFds → running x junk s0 s R c s' →
  ∃ sent pieces,
    content (wkern (pworld s')) co = content (wkern (pworld s)) co ++ sent
    ∧ sent `prefix_of` request
    ∧ (Socket.state_ (socket c) ≠ Socket.Operational ∨ Socket.handler_ (socket c) ≠ Some READ_HANDLER →
       sent = [] ∧ pieces = [])
    ∧ shown c = c_string <$> pieces
    ∧ content (wkern (pworld s)) ci ++ R = concat pieces ++ content (wkern (pworld s')) ci
    ∧ live (history (psys s')) = {[Socket.fd_ (socket c)]} ∪ live (history (psys s0))
    ∧ loop_active c = true.
Proof using KL Hio.
  intros HF Hrun. destruct (running_inv _ _ _ _ _ _ _ HF Hrun) as (sent & pieces & Hi & Ec & Hl).
  exists sent, pieces. assert (loop_active c = true ∧ shown c = c_string <$> pieces
    ∧ content (wkern (pworld s')) co = content (wkern (pworld s)) co ++ sent) as (Hn & Hs & Hc).
  { unfold loop_active. destruct Hi as [Hi|([_ _ _ _ _ Hi] & -> & ->)];
      destruct Hi; by rewrite bool_decide_eq_true_2. }
  split; [done|]. destruct Hi as [[F1 F2 F3 F4 F5 F6 F7 F8 F9 F10]|(_ & -> & ->)].
  - split.
    { destruct (Socket.handler_ (socket c)) as [[|[|[|]]]|]; try done; destruct F10 as [-> _]; apply prefix_nil. }
    split; [|done]. intros [Hne|Hne]; [done|]. by destruct (Socket.handler_ (socket c)) as [[|[|[|]]]|].
  - split; [apply prefix_nil|done].
Qed.

(** No event stops a client whose connection is made, and none is undefined
    except a read that fills the array of 64 KiB, which has no room for the
    terminator; that one is. *)
Theorem tcp_client_full_read_ub x junk s0 s R c s' revents :
  FreshFds → running x junk s0 s R c s' → has revents Socket.TIMEOUT = false →
  match io_event c revents s' with
  | Ok _ => True
  | UB => full_read (wkern (pworld s'))
  | _ => False
  end
  ∧ (∀ d k, Socket.handler_ (socket c) = Some READ_HANDLER →
     sys_read (Socket.fd_ (socket c)) BUFSIZE (wkern (pworld s')) = (inr d, k) →
     Z.of_nat (length d) = BUFSIZE → io_event c revents s' = UB).
Proof using KL Hio.
  intros HF Hrun Hre. destruct (running_inv _ _ _ _ _ _ _ HF Hrun) as (sent & pieces & Hi & _). split.
  - pose proof (client_io _ _ _ _ _ _ _ revents Hi) as H. unfold handled in H.
    by destruct (io_event c revents s') as [[??]| | |].
  - intros d k Hh Hr Hd. destruct Hi as [Hi|([_ Hh' _ _ _ _] & _)]; [|by rewrite Hh in Hh'].
    pose proof (ti_state _ _ _ _ _ _ _ Hi) as Hs.
    unfold io_event, on_os, Socket.io, mbind, ST_bind. simpl. rewrite Hs, Hh. simpl.
    unfold on_readable. rewrite Hre. unfold mbind, ST_bind, on_world, read_local, syscall. simpl.
    rewrite Hr. simpl. by rewrite Hd.
Qed.

(** A connection that fails after [open] has returned: the first handler does
    not look, and waits for a descriptor that is closed. *)
Theorem tcp_client_watch_foreign c s revents e :
  Socket.state_ (socket c) = Socket.Connecting → 0 <= Socket.fd_ (socket c) →
  Socket.handler_ (socket c) = Some CONNECT_HANDLER →
  answer (history (psys s)) (Getsockopt (Socket.fd_ (socket c)) SOL_SOCKET SO_ERROR) = inl e →
  wp (io_event c revents) (λ c' s', Socket.state_ (socket c') = Socket.Closed
    ∧ Socket.io_ (socket c') = Some (Socket.fd_ (socket c), Socket.WRITE)
    ∧ (Socket.fd_ (socket c) ∉ live (history (psys s')))) s.
Proof.
  intros Hst Hfd Hh Ha. unfold io_event, Socket.io. cbn [Socket.state_ Socket.with_timer]. rewrite Hst. pm_step. pm_step.
  eapply wp_mono; [by apply (connect_complete_spec (Socket.with_timer (socket c) None))|].
  simpl. rewrite Ha. intros [t y] o' (Et & _ & Ey & _ & Hl). simpl in *. subst t y. unfold Socket.callback. simpl. rewrite Hh. simpl.
  unfold on_connected. change (has Socket.CONNECTED Socket.TIMEOUT) with false. wp_step.
  apply wp_on_next; [done|done|]. wp_step. simpl in *. split_and!; try done. rewrite Hl. clear. set_solver.
Qed.
End tcp.
