(* ===== verification/TcpLive.v ===== *)
(** * TcpLive: the TCP client gets its response

    Under an event loop that calls a handler when what it waits for is there,
    the client of examples/tcp-client.cpp goes through its three handlers and
    shows all that its peer has sent, after finitely many rounds. *)

From Stdlib Require Import QArith.
From S2P Require Import Prelude Memory BufferBase BufferParse MutableBuffer BufferSpec Libc Kernel Os.
From S2P Require Import Address SdDaemon Server Pipe File Socket Echo Process Network TcpClient.
Import TcpClient.

Local Open Scope Z_scope.

Section live.
Context {K : Kernel} {KL : KernelLaws K} {os : OS} {T : InetText}.
Implicit Types (c : client) (s : process) (k : kst) (d : bytes).
Context (ci co : chan) (Hio : ci ≠ co).

(** There is something to read. *)
Definition readable k (fd : Z) : Prop :=
  ∃ d k', sys_read fd BUFSIZE k = (inr d, k') ∧ d ≠ [].

(** A round of the event loop: the watched event is there. *)
Definition tcp_round (x : client * process) (mid : client * process → Prop) : Prop :=
  let '(c, s) := x in
  ∃ fd ev, Socket.io_ (socket c) = Some (fd, ev)
    ∧ ((ev = Socket.READ → readable (wkern (pworld s)) fd) →
       wp (io_event c ev) (λ c' s', mid (c', s')) s).

(** The response [resp] was shown piece by piece. *)
Definition answered (old resp : bytes) (x : client * process) : Prop :=
  let k := wkern (pworld x.2) in
  content k ci = [] ∧ (∃ sent, sent `prefix_of` request ∧ content k co = old ++ sent)
  ∧ ∃ pieces, shown x.1 = c_string <$> pieces ∧ concat pieces = resp.

Abbreviation inv := (tcp_inv ci co).

(** What the installed handler waits for. *)
Definition waits c (h : nat) (ev : Z) : Prop :=
  Socket.handler_ (socket c) = Some h ∧ Socket.io_ (socket c) = Some (Socket.fd_ (socket c), ev).

(** The socket's part of an I/O event. *)
Lemma io_event_calls fd o old c s sent pieces h re (Q : client → process → Prop) :
  inv fd o old c s sent pieces → Socket.handler_ (socket c) = Some h →
  wp (call (with_socket c (Socket.with_timer (socket c) None)) (Socket.Call h re)) Q s →
  wp (io_event c re) Q s.
Proof.
  intros Hi Hh HQ. unfold io_event. pm_step. pm_step. unfold Socket.io. simpl.
  rewrite (ti_state _ _ _ _ _ _ _ _ _ Hi), Hh. wp_step. by destruct s.
Qed.

Lemma inv_untimed fd o old c s sent pieces :
  inv fd o old c s sent pieces →
  inv fd o old (with_socket c (Socket.with_timer (socket c) None)) s sent pieces.
Proof. intros Hi. by apply tcp_inv_watch. Qed.

Lemma round_connected fd o old c s :
  inv fd o old c s [] [] → waits c CONNECT_HANDLER Socket.WRITE →
  tcp_round (c, s) (λ y, inv fd o old y.1 y.2 [] [] ∧ waits y.1 WRITE_HANDLER Socket.WRITE
    ∧ content (wkern (pworld y.2)) ci = content (wkern (pworld s)) ci).
Proof.
  intros Hi [Hh Hw]. exists (Socket.fd_ (socket c)), Socket.WRITE. split; [done|]. intros _.
  eapply io_event_calls; [done..|]. simpl. unfold on_connected.
  change (has Socket.WRITE Socket.TIMEOUT) with false. wp_step. apply wp_on_next; [done|done|]. wp_step.
  pose proof Hi as [F1 F2 F3 F4 F5 F6 F7 F8 F9 F10]. simpl. by split; [split|].
Qed.

Lemma round_connecting fd o old c s :
  connecting ci co fd o old c s → waits c CONNECT_HANDLER Socket.WRITE →
  tcp_round (c, s) (λ y, inv fd o old y.1 y.2 [] [] ∧ waits y.1 WRITE_HANDLER Socket.WRITE
    ∧ content (wkern (pworld y.2)) ci = content (wkern (pworld s)) ci).
Proof.
  intros Hc [Hh Hw]. exists (Socket.fd_ (socket c)), Socket.WRITE. split; [done|]. intros _.
  eapply connecting_calls; [done|]. intros c1 s1 Hs1 Hi. unfold on_connected.
  change (has Socket.CONNECTED Socket.TIMEOUT) with false. wp_step. apply wp_on_next; [done|done|]. wp_step.
  rewrite <- Hs1. destruct Hi as [F1 F2 F3 F4 F5 F6 F7 F8 F9 F10]. by split; [split|].
Qed.

Lemma round_writable fd o old c s :
  inv fd o old c s [] [] → waits c WRITE_HANDLER Socket.WRITE →
  tcp_round (c, s) (λ y, (∃ sent, inv fd o old y.1 y.2 sent []) ∧ waits y.1 READ_HANDLER Socket.READ
    ∧ content (wkern (pworld y.2)) ci = content (wkern (pworld s)) ci).
Proof using KL Hio.
  intros Hi [Hh Hw]. exists (Socket.fd_ (socket c)), Socket.WRITE. split; [done|]. intros _.
  eapply io_event_calls; [done..|]. simpl. unfold on_writable.
  change (has Socket.WRITE Socket.TIMEOUT) with false. pose proof Hi as [F1 F2 F3 F4 F5 F6 F7 F8 F9 F10].
  set (c1 := with_socket c _). wp_step. apply wp_on_world.
  assert (Hgo : ∀ k e n, put (wkern (pworld s)) k co (take n request) →
    wp (x ← on_os (Socket.on (socket c1) Socket.READ (inject_Z 10) READ_HANDLER); mret (with_socket c1 x))
      (λ c' s', (∃ sent, inv fd o old c' s' sent []) ∧ waits c' READ_HANDLER Socket.READ
        ∧ content (wkern (pworld s')) ci = content (wkern (pworld s)) ci)
      (Process (psys s) (World (wmem (pworld s)) k e))).
  { intros k e n Hput. wp_step. apply wp_on_next; [done|done|]. wp_step. simpl.
    split; [|split; [done|by rewrite (put_other _ _ _ _ _ Hput)]]. exists (take n request).
    split; simpl; try done.
    - by rewrite (transfer_rd _ _ _ _ Hput).
    - by rewrite (transfer_wr _ _ _ _ Hput).
    - by rewrite (put_content _ _ _ _ Hput), F6, app_nil_r.
    - apply prefix_take. }
  apply wp_write_local.
  - intros k e Ht. apply (Hgo _ _ 0%nat). by apply put_nil.
  - intros r b k Hb _ Hput. simpl in Hb. assert (b = co) as -> by congruence. by eapply Hgo.
Qed.

Lemma round_readable fd o old c s sent pieces :
  inv fd o old c s sent pieces → waits c READ_HANDLER Socket.READ →
  Z.of_nat (length (content (wkern (pworld s)) ci)) < BUFSIZE →
  tcp_round (c, s) (λ y, ∃ d, inv fd o old y.1 y.2 sent (pieces ++ [d]) ∧ d ≠ []
    ∧ waits y.1 READ_HANDLER Socket.READ
    ∧ content (wkern (pworld s)) ci = d ++ content (wkern (pworld y.2)) ci).
Proof using KL Hio.
  intros Hi [Hh Hw] Hshort. exists (Socket.fd_ (socket c)), Socket.READ. split; [done|]. intros Hrd.
  destruct (Hrd eq_refl) as (d & k & Hr & Hne).
  eapply io_event_calls; [done..|]. simpl. unfold on_readable.
  change (has Socket.READ Socket.TIMEOUT) with false. pose proof Hi as [F1 F2 F3 F4 F5 F6 F7 F8 F9 F10].
  destruct (read_ok _ _ _ _ _ Hr) as (a & Ha & _ & Htk). assert (a = ci) as -> by congruence.
  pose proof (took_content _ _ _ _ Htk) as Ec. pose proof (took_other _ _ _ _ co Htk ltac:(congruence)) as Eo.
  rewrite Ec, length_app in Hshort.
  destruct Htk as (r & _ & Ht). wp_step. apply wp_on_world. unfold read_local, syscall, wp at 1. simpl. rewrite Hr.
  cbn [default]. destruct (Z.ltb_spec 0 (Z.of_nat (length d))) as [Hd|Hd];
    [|destruct d; [done|simpl in Hd; lia]].
  destruct (Z.leb_spec BUFSIZE (Z.of_nat (length d))); [lia|]. wp_step. exists d. simpl.
  split; [|by rewrite Ec]. split; simpl;
    rewrite ?(transfer_rd _ _ _ _ Ht), ?(transfer_wr _ _ _ _ Ht), ?Eo; try done.
  - by rewrite F7, fmap_app.
  - by rewrite Hh in F10 |- *.
Qed.

(** The client when its loop begins. *)
Lemma start_waits x junk s0 s c :
  FreshFds → start x junk s0 = Ok (Some c, s) →
  (Socket.state_ (socket c) = Socket.Connecting →
   connection_made (history (psys s)) (Socket.fd_ (socket c))) →
  rd_chan (wkern (pworld s)) (Socket.fd_ (socket c)) = Some ci →
  wr_chan (wkern (pworld s)) (Socket.fd_ (socket c)) = Some co →
  waits c CONNECT_HANDLER Socket.WRITE
  ∧ client_inv ci co (Socket.fd_ (socket c)) (psys s) (content (wkern (pworld s)) co) c s [] [].
Proof.
  intros HF E Hm Hrd Hwr. split; [|by eapply start_inv].
  pose proof (start_spec x junk s0 HF) as Hs. unfold wp in Hs. rewrite E in Hs.
  destruct Hs as (_ & _ & _ & _ & _ & _ & Hh & _).
  split; [done|]. revert E. unfold start. intros ([st y] & p1 & _ & E)%bind_elim.
  case_bool_decide; [by apply bind_elim in E as (u & p2 & _ & [= ? ?])|].
  apply bind_elim in E as (z & p2 & E & [= <- <-]). unfold on_os, Socket.on in E. simpl in E.
  by injection E as <- <-.
Qed.

(** Reading goes on until everything is shown. *)
Lemma reads_all fd o old resp n : ∀ c s sent pieces,
  inv fd o old c s sent pieces → waits c READ_HANDLER Socket.READ →
  length (content (wkern (pworld s)) ci) = n → Z.of_nat n < BUFSIZE →
  resp = concat pieces ++ content (wkern (pworld s)) ci →
  eventually tcp_round (answered old resp) (c, s).
Proof using KL Hio.
  induction (lt_wf n) as [n _ IH]. intros c s sent pieces Hi Hw Hn Hshort Hresp.
  destruct (decide (content (wkern (pworld s)) ci = [])) as [E|Hne].
  { apply eventually_done. rewrite E, app_nil_r in Hresp. split; [done|].
    destruct Hi as [_ _ _ _ _ F6 F7 _ _ F10]. destruct Hw as [Hh _]. rewrite Hh in F10.
    split; [by exists sent|by exists pieces]. }
  eapply eventually_step; [eapply round_readable; [done..|lia]|].
  intros [c1 s1] (d & Hi1 & Hd & Hw1 & Ec). simpl in *.
  assert (length (content (wkern (pworld s1)) ci) < n)%nat as Hlt
    by (rewrite <- Hn, Ec, length_app; destruct d; [done|simpl; lia]).
  eapply (IH _ Hlt); [exact Hi1|done|done|lia|].
  rewrite Hresp, Ec, concat_app. simpl. by rewrite app_nil_r, app_assoc.
Qed.

(** C24: a client whose connection is made, at once or after the loop has
    begun, and whose peer has sent fewer than 64 KiB by then, shows all of them,
    in order and each piece up to its first zero byte, after finitely many
    rounds of an event loop that calls it when it can go on, and has sent a
    beginning of its request before. *)
Theorem tcp_client_answered x junk s0 s c :
  FreshFds → start x junk s0 = Ok (Some c, s) →
  (Socket.state_ (socket c) = Socket.Connecting →
   connection_made (history (psys s)) (Socket.fd_ (socket c))) →
  rd_chan (wkern (pworld s)) (Socket.fd_ (socket c)) = Some ci →
  wr_chan (wkern (pworld s)) (Socket.fd_ (socket c)) = Some co →
  Z.of_nat (length (content (wkern (pworld s)) ci)) < BUFSIZE →
  eventually tcp_round
    (answered (content (wkern (pworld s)) co) (content (wkern (pworld s)) ci)) (c, s).
Proof using KL Hio.
  intros HF E Hm Hrd Hwr Hshort. pose proof (start_waits _ _ _ _ _ HF E Hm Hrd Hwr) as [Hw Hi].
  eapply eventually_step.
  { destruct Hi as [Hi|[Hi _]]; [by eapply round_connected|by eapply round_connecting]. }
  intros [c1 s1] (Hi1 & Hw1 & E1). eapply eventually_step; [by eapply round_writable|].
  intros [c2 s2] ([sent Hi2] & Hw2 & E2). simpl in *.
  eapply reads_all; [exact Hi2|done|done|by rewrite E2, E1|]. simpl. by rewrite E2, E1.
Qed.
End live.
