(* ===== verification/FilterApp.v ===== *)
(** * FilterApp: the program of examples/filter.cpp

    [main] copies its standard input to its standard output; the loop is in
    Splicing.v. *)

From S2P Require Import Prelude Memory BufferBase BufferParse MutableBuffer BufferSpec Libc Kernel Os.
From S2P Require Import Address SdDaemon Server Pipe Time File Socket Splicing Process Network.

Local Open Scope Z_scope.

Definition O_WRONLY : Z := 1.

Module FilterApp.
Section program.
Context {K : Kernel} {os : OS}.
Context (inotifier : Inotify.Inotify).

(** The loop; a stream that could not be opened is a null pointer. *)
Definition copy (fuel : nat) (i o : option FileStream.FileStream) (buf : ptr) : WW () :=
  match i, o with
  | Some i, Some o => Splicing.copy_loop fuel i o buf
  | Some i, None => n ← FileStream.read i buf 1024; if 0 <? n then ub else mret ()
  | None, _ => ub
  end.

Definition close (fs : option FileStream.FileStream) : OM () :=
  match fs with Some fs => FileStream.destroy fs | None => mret () end.

(** [main] with the array [buf], up to the last destructor. *)
Definition main (fuel : nat) (buf : ptr) (now : DateTime.DateTime) : PM Z :=
  let fin := File.new (bs "/dev/stdin") now in
  let fout := File.new (bs "/dev/stdout") now in
  i ← on_os (File.open fin O_RDONLY);
  o ← on_os (File.open fout O_WRONLY);
  on_world (copy fuel i o buf);;
  on_os (close o);;
  on_os (close i);;
  on_os (File.destroy inotifier fout);;
  on_os (File.destroy inotifier fin);;
  mret 0.
End program.
End FilterApp.
Import FilterApp.

Section filter.
Context {K : Kernel} {KL : KernelLaws K} {os : OS}.
Context (inotifier : Inotify.Inotify).

(** The program ends with status 0 and both files closed; it has written what
    it has read, but for the ends of pieces that [write] did not take. *)
Theorem filter_main_copies fuel buf now (s : process) r1 r2 ci co old :
  FreshFds → ci ≠ co →
  answer (history (psys s)) (OpenFile (bs "/dev/stdin") O_RDONLY) = inr r1 →
  answer ((OpenFile (bs "/dev/stdin") O_RDONLY, inr r1) :: history (psys s))
    (OpenFile (bs "/dev/stdout") O_WRONLY) = inr r2 →
  rd_chan (wkern (pworld s)) (rval r1) = Some ci → wr_chan (wkern (pworld s)) (rval r2) = Some co →
  mem_wf (wmem (pworld s)) → mem_at (wmem (pworld s)) buf old → length old = 1024%nat →
  (length (content (wkern (pworld s)) ci) < fuel)%nat →
  wp (main inotifier fuel buf now) (λ status s', status = 0 ∧ same_fds (psys s) (psys s')
    ∧ ∃ l d, sampled l d
      ∧ content (wkern (pworld s)) ci = l ++ content (wkern (pworld s')) ci
      ∧ content (wkern (pworld s')) co = content (wkern (pworld s)) co ++ d) s.
Proof using KL.
  intros HF Hne Ha1 Ha2 Hrd Hwr Hwf Hbuf Hold Hf.
  destruct (open_fresh _ _ _ _ Ha1) as [Hp1 Hn1]. destruct (open_fresh _ _ _ _ Ha2) as [Hp2 Hn2].
  unfold main. cbv zeta. pm_step. pm_step.
  eapply wp_mono; [exact (file_open_is (File.new (bs "/dev/stdin") now) O_RDONLY _ r1 Ha1 Hp1)|].
  intros i o1 (-> & Hh1 & He1 & Hl1). cbn [File.path_ File.new] in Hh1.
  rewrite <- Hh1 in Ha2, Hn2. pm_step. pm_step. cbn [psys pworld].
  eapply wp_mono; [apply (file_open_is (File.new (bs "/dev/stdout") now) O_WRONLY _ r2); done|].
  intros o o2 (-> & Hh2 & He2 & Hl2). pm_step. pm_step. cbn [psys pworld copy].
  eapply wp_mono; [by eapply (copy_loop_samples ci co)|]. cbn beta. intros _ w3 H3.
  pm_step. pm_step. cbn [psys pworld close].
  eapply wp_mono; [by apply stream_destroy_closes|]. intros _ o4 [He4 Hl4].
  pm_step. pm_step. cbn [psys pworld close].
  eapply wp_mono; [by apply stream_destroy_closes|]. intros _ o5 [He5 Hl5].
  pm_step. pm_step. eapply wp_Ok; [reflexivity|]. pm_step. pm_step. eapply wp_Ok; [reflexivity|].
  pm_step. split; [done|]. split; [|done]. split; [|simpl in *; congruence]. simpl in *.
  rewrite Hl5, Hl4, Hl2, Hl1 in *. clear -Hn1 Hn2. set_solver.
Qed.

(** A standard input that cannot be opened is read through a null pointer. *)
Theorem filter_main_null_ub fuel buf now (s : process) e :
  answer (history (psys s)) (OpenFile (bs "/dev/stdin") O_RDONLY) = inl e →
  main inotifier fuel buf now s = UB.
Proof.
  intros Ha. unfold main. cbv zeta. erewrite bind_Ok.
  2:{ unfold on_os, File.open, invoke_int, invoke, mbind, ST_bind. simpl. by rewrite Ha. }
  unfold mbind at 1, ST_bind at 1, on_os, File.open, invoke_int, invoke, mbind, ST_bind.
  simpl. by repeat case_match.
Qed.
End filter.
