(* ===== verification/Instances.v ===== *)
(** * Instances: a concrete memory, allocator and kernel

    The parameters of the development can be met: memories given as lists of
    blocks, an allocator that hands out zeroed blocks as long as they fit the
    address space, and a kernel whose channels are queues of at most 64 KiB.
    The examples run and instantiate the theorems with them. *)

From S2P Require Import Prelude Memory BufferBase BufferParse MutableBuffer BufferSpec Kernel.
From S2P Require Import Libc Os Address SdDaemon Server FilterStream.

Local Open Scope Z_scope.

(** ** Memories *)

(** The blocks [ls], numbered from 1. *)
Definition mem_of (ls : list bytes) : memory := Memory (map_seq 1 ls) (S (length ls)) 0.

Lemma lookup_mem_of ls b :
  blocks (mem_of ls) !! b = match b with O => None | S i => ls !! i end.
Proof.
  simpl. rewrite lookup_map_seq. destruct b as [|i].
  - by rewrite option_guard_False by lia.
  - rewrite option_guard_True by lia. f_equal. lia.
Qed.

Lemma mem_of_wf ls : Forall (λ l, Z.of_nat (length l) <= ADDR_SPACE) ls → mem_wf (mem_of ls).
Proof.
  intros HF. split.
  - by rewrite lookup_mem_of.
  - simpl. lia.
  - intros [|i] Hb; rewrite lookup_mem_of; [done|]. simpl in Hb. apply lookup_ge_None. lia.
  - intros [|i] l; rewrite lookup_mem_of; [done|]. intros Hi.
    by apply (proj1 (Forall_lookup _ _) HF i).
Qed.

(** Solves [mem_wf (mem_of _)] for short blocks. *)
Ltac mem_wf_concrete := apply mem_of_wf; repeat constructor; vm_compute; discriminate.

(** A buffer with the contents [l] whose storage is block [i] of [mem_of ls]. *)
Lemma mem_of_buffer ls i l r :
  ls !! i = Some (l ++ r) → l ++ r ≠ [] →
  let b := mkMB (mkRef (Ptr (S i) 0) (Z.of_nat (length l))) (Z.of_nat (length (l ++ r))) in
  mbuf_rep (mem_of ls) b l ∧ owned (mem_of ls) b.
Proof.
  intros Hi Hne. simpl. split.
  - split; [done|]. exists r. split; [|done].
    eapply (mem_at_intro _ _ _ [] _ []); [exact (eq_trans (lookup_mem_of ls (S i)) Hi)| |done].
    by rewrite app_nil_r.
  - right. split; [done|]. simpl. split; [destruct (l ++ r); [done|simpl; lia]|].
    exists (l ++ r). split; [exact (eq_trans (lookup_mem_of ls (S i)) Hi)|done].
Qed.

(** ** The allocator *)

Definition zero_bytes (n : Z) : option bytes :=
  if (0 <=? n) && (n <=? ADDR_SPACE) then Some (replicate (Z.to_nat n) NUL) else None.

#[export, refine] Instance zero_alloc : Allocator := {| fresh_bytes := λ _ n, zero_bytes n |}.
Proof.
  - intros _ n d. unfold zero_bytes. destruct (_ && _) eqn:E; [|done]. intros [= <-].
    rewrite length_replicate. lia.
  - intros _ n d. unfold zero_bytes. destruct (_ && _) eqn:E; [|done]. lia.
Defined.

(** ** The kernel *)

Definition PIPE_SIZE : Z := 65536.
Definition fits (l : bytes) : bool := Z.of_nat (length l) <=? PIPE_SIZE.

Record fifos : Type := Fifos {
  f_rd : gmap Z nat;      (* descriptors open for reading and their channels *)
  f_wr : gmap Z nat;
  f_chan : gmap nat bytes;
}.

Section fifo.
Implicit Types (k : fifos) (c : nat).

Definition f_content k c : bytes :=
  match f_chan k !! c with
  | Some l => if fits l then l else []
  | None => []
  end.

Definition f_set k c (l : bytes) : fifos :=
  Fifos (f_rd k) (f_wr k) (<[c := l]> (f_chan k)).

Definition f_read (fd n : Z) k : sysres bytes * fifos :=
  match f_rd k !! fd with
  | None => (inl 9, k)
  | Some c =>
      if bool_decide (f_content k c = []) then (inl EAGAIN, k)
      else let d := take (Z.to_nat n) (f_content k c) in
           if 0 <=? n then (inr d, f_set k c (drop (Z.to_nat n) (f_content k c)))
           else (inl EINVAL, k)
  end.

Definition f_write (fd : Z) (d : bytes) k : sysres Z * fifos :=
  match f_wr k !! fd with
  | None => (inl 9, k)
  | Some c =>
      if fits (f_content k c ++ d)
      then (inr (Z.of_nat (length d)), f_set k c (f_content k c ++ d))
      else (inl EAGAIN, k)
  end.

(** [splice] and [tee]: the bytes that move, if they fit. *)
Definition f_splice (keep : bool) (i o n : Z) k : sysres Z * fifos :=
  match f_rd k !! i, f_wr k !! o with
  | Some ci, Some co =>
      let d := take (Z.to_nat n) (f_content k ci) in
      if bool_decide (ci = co) || (n <? 0) then (inl EINVAL, k)
      else if fits (f_content k co ++ d) then
        let k1 := if keep then k else f_set k ci (drop (Z.to_nat n) (f_content k ci)) in
        (inr (Z.of_nat (length d)), f_set k1 co (f_content k co ++ d))
      else (inl EAGAIN, k)
  | _, _ => (inl 9, k)
  end.

(** A new pipe: two descriptors and a channel above all that are in use. *)
Definition f_top k : Z :=
  foldr Z.max 2 ((map_to_list (f_rd k)).*1 ++ (map_to_list (f_wr k)).*1).
Definition f_new k : nat :=
  S (foldr Nat.max 0%nat ((map_to_list (f_rd k)).*2 ++ (map_to_list (f_wr k)).*2)).
Definition f_pipe2 (flags : Z) k : sysres (Z * Z) * fifos :=
  let r := f_top k + 1 in let w := f_top k + 2 in let c := f_new k in
  (inr (r, w), Fifos (<[r := c]> (f_rd k)) (<[w := c]> (f_wr k)) (<[c := []]> (f_chan k))).
Definition f_close (fd : Z) k : sysres () * fifos :=
  (inr (), Fifos (delete fd (f_rd k)) (delete fd (f_wr k)) (f_chan k)).
End fifo.

#[export] Instance fifo_kernel : Kernel := {|
  kst := fifos; chan := nat;
  rd_chan := λ k fd, f_rd k !! fd;
  wr_chan := λ k fd, f_wr k !! fd;
  content := f_content;
  sys_read := f_read; sys_write := f_write;
  sys_splice := f_splice false; sys_tee := f_splice true;
  sys_sendfile := λ o i, f_splice false i o;
  sys_pipe2 := f_pipe2; sys_close := f_close;
|}.

Lemma f_content_fits k c : fits (f_content k c) = true.
Proof.
  unfold f_content. destruct (f_chan k !! c) as [l|]; [|done]. by destruct (fits l) eqn:E.
Qed.

Lemma fits_drop n l : fits l = true → fits (drop n l) = true.
Proof. unfold fits. rewrite length_drop. lia. Qed.

(** Setting a channel to something that fits is seen as such. *)
Lemma f_set_content k c l c' :
  fits l = true → f_content (f_set k c l) c' = upd (H := fifo_kernel) (f_content k) c l c'.
Proof.
  intros Hl. unfold f_content, upd. simpl. case_decide; subst.
  - by rewrite lookup_insert_eq, Hl.
  - by rewrite lookup_insert_ne.
Qed.

Lemma f_same k : transfer (H := fifo_kernel) k k (content k).
Proof. done. Qed.

Lemma f_splice_ok keep i o n k r k' :
  f_splice keep i o n k = (inr r, k') →
  ∃ ci co, let d := take (Z.to_nat n) (f_content k ci) in
    f_rd k !! i = Some ci ∧ f_wr k !! o = Some co ∧ ci ≠ co ∧ fits (f_content k co ++ d) = true
    ∧ r = Z.of_nat (length d) ∧ r <= n
    ∧ k' = f_set (if keep then k else f_set k ci (drop (Z.to_nat n) (f_content k ci))) co
             (f_content k co ++ d).
Proof.
  unfold f_splice. intros. repeat case_match; simplify_eq.
  all: match goal with E : _ || _ = false |- _ => apply orb_false_iff in E as [E1 E2] end.
  all: apply bool_decide_eq_false_1 in E1; do 2 eexists; split_and!; eauto.
  all: rewrite length_take; lia.
Qed.

Lemma f_splice_err keep i o n k e k' :
  f_splice keep i o n k = (inl e, k') → transfer (H := fifo_kernel) k k' (f_content k).
Proof. unfold f_splice. intros. repeat case_match; simplify_eq; apply f_same. Qed.

Lemma f_splice_moved i o n k r k' :
  f_splice false i o n k = (inr r, k') →
  ∃ ci co d, f_rd k !! i = Some ci ∧ f_wr k !! o = Some co
    ∧ r = Z.of_nat (length d) ∧ r <= n ∧ moved (H := fifo_kernel) k k' ci co d.
Proof.
  intros H.
  destruct (f_splice_ok _ _ _ _ _ _ _ H) as (ci & co & Hi & Ho & Hne & Hf & -> & Hn & ->).
  exists ci, co, (take (Z.to_nat n) (f_content k ci)). do 4 (split; [done|]). split; [done|].
  exists (drop (Z.to_nat n) (f_content k ci)). simpl. rewrite take_drop. split; [done|].
  split; [|done]. intros c. simpl. rewrite f_set_content by done. unfold upd at 1 2.
  case_decide; [done|]. apply f_set_content, fits_drop, f_content_fits.
Qed.

Lemma foldr_max_bound (l : list Z) : 2 <= foldr Z.max 2 l ∧ ∀ x, x ∈ l → x <= foldr Z.max 2 l.
Proof.
  induction l as [|y l [IH1 IH2]]; simpl; [split; [done|by intros ? ?%not_elem_of_nil]|].
  split; [lia|]. intros x [->|Hx]%elem_of_cons; [lia|]. specialize (IH2 x Hx). lia.
Qed.

Lemma foldr_nat_max_bound (l : list nat) x : x ∈ l → (x <= foldr Nat.max 0 l)%nat.
Proof. induction 1; simpl; lia. Qed.

(** What is in use is below. *)
Lemma f_top_above k fd c : f_rd k !! fd = Some c ∨ f_wr k !! fd = Some c → fd <= f_top k.
Proof.
  intros H. apply foldr_max_bound, elem_of_app.
  destruct H as [H|H]; [left|right]; apply list_elem_of_fmap; exists (fd, c);
    (split; [done|by apply elem_of_map_to_list]).
Qed.

Lemma f_new_above k fd c : f_rd k !! fd = Some c ∨ f_wr k !! fd = Some c → (c < f_new k)%nat.
Proof.
  intros H. apply Nat.lt_succ_r, foldr_nat_max_bound, elem_of_app.
  destruct H as [H|H]; [left|right]; apply list_elem_of_fmap; exists (fd, c);
    (split; [done|by apply elem_of_map_to_list]).
Qed.

Lemma f_pipe2_ok k r w k' :
  f_pipe2 0 k = (inr (r, w), k') →
  0 <= r ∧ 0 <= w ∧ r ≠ w ∧ f_rd k !! r = None ∧ f_wr k !! r = None ∧ f_rd k !! w = None
  ∧ f_wr k !! w = None ∧ k' = Fifos (<[r := f_new k]> (f_rd k)) (<[w := f_new k]> (f_wr k))
                                (<[f_new k := []]> (f_chan k)).
Proof.
  intros [= <- <- <-]. assert (2 <= f_top k) by exact (proj1 (foldr_max_bound _)).
  assert (∀ fd, f_top k < fd → f_rd k !! fd = None ∧ f_wr k !! fd = None) as Hfree.
  { intros fd Hfd. split; apply eq_None_not_Some; intros [c Hc].
    - pose proof (f_top_above k fd c (or_introl Hc)). lia.
    - pose proof (f_top_above k fd c (or_intror Hc)). lia. }
  destruct (Hfree (f_top k + 1)) as [? ?]; [lia|]. destruct (Hfree (f_top k + 2)) as [? ?]; [lia|].
  split_and!; try done; lia.
Qed.

#[export] Instance fifo_laws : KernelLaws fifo_kernel.
Proof.
  split; simpl; intros.
  - pose proof (f_content_fits k c). unfold fits, PIPE_SIZE in *. lia.
  - unfold f_read in *. repeat case_match; simplify_eq; apply f_same.
  - unfold f_read in *. repeat case_match; simplify_eq. pose proof (f_content_fits k n0).
    exists n0. split; [done|]. split; [rewrite length_take; lia|].
    exists (drop (Z.to_nat n) (f_content k n0)). simpl. rewrite take_drop. split; [done|].
    split; [|done]. intros c. simpl. by apply f_set_content, fits_drop.
  - unfold f_write in *. repeat case_match; simplify_eq; apply f_same.
  - unfold f_write in *. repeat case_match; simplify_eq. exists n0. split; [done|]. split; [lia|].
    split; [|done]. intros c. rewrite Nat2Z.id, take_ge by lia. by apply f_set_content.
  - by eapply f_splice_err.
  - by eapply f_splice_moved.
  - by eapply f_splice_err.
  - by eapply f_splice_moved.
  - by eapply f_splice_err.
  - destruct (f_splice_ok _ _ _ _ _ _ _ H) as (ci & co & Hi & Ho & Hne & Hf & -> & Hn & ->).
    exists ci, co, (take (Z.to_nat n) (f_content k ci)). do 5 (split; [done|]).
    split; [apply prefix_take|]. split; [|done]. intros c. by apply f_set_content.
  - done.
  - destruct (f_pipe2_ok _ _ _ _ H) as (? & ? & ? & ? & ? & ? & ? & ->). split_and!; try done.
    exists (f_new k). simpl. rewrite !lookup_insert_eq. split_and!; try done.
    + unfold f_content. simpl. by rewrite lookup_insert_eq.
    + intros c' Hc'. unfold f_content. simpl. by rewrite lookup_insert_ne.
    + intros fd Hfd. pose proof (f_new_above k fd _ (or_introl Hfd)). lia.
    + intros fd Hfd. pose proof (f_new_above k fd _ (or_intror Hfd)). lia.
    + intros fd Hfd. by rewrite lookup_insert_ne.
    + intros fd Hfd. by rewrite lookup_insert_ne.
  - unfold f_close in *. simplify_eq. simpl. split; [done|]. rewrite !lookup_delete_eq.
    split; [done|]. split; [done|]. intros fd' Hne. by rewrite !lookup_delete_ne.
Qed.

(** ** A system without errors *)

Definition next_fd (h : list event) : Z := 1 + foldr Z.max 2 (elements (live h)).

(** New descriptors are above those in use; every descriptor is a socket of
    mode [mode] and without flags; process 77. *)
Definition plain_os (mode : Z) : OS := λ h c,
  match c with
  | SocketCall _ _ _ | Accept _ | OpenFile _ _ | InotifyInit _ => inr (ok (next_fd h))
  | Getpid => inr (ok 77)
  | Fstat _ => inr (ok mode)
  | _ => inr (ok 0)
  end.

Lemma next_fd_fresh h : 0 <= next_fd h ∧ next_fd h ∉ live h.
Proof.
  unfold next_fd. destruct (foldr_max_bound (elements (live h))) as [H1 H2].
  split; [lia|]. intros Hin%elem_of_elements%H2. lia.
Qed.

Lemma plain_fresh mode : FreshFds (os := plain_os mode).
Proof. split; intros * [= <-]; apply next_fd_fresh. Qed.

(** The text of an IPv4 address is its bytes as characters. *)
Definition raw_text : InetText := {|
  inet_pton := λ _ t, (1, t);
  inet_ntop := λ f b, if f =? AF_INET then take 4 b else take 16 b;
|}.

(** ** A filter *)

(** Maps [f] over the input. *)
Definition map_filter (f : byte → byte) : Filter := λ input output,
  d ← read_range (data_ input) (size_ input);
  MutableBuffer.push_back_local (E := mutableEnsure) output (f <$> d) ≫= λ b : MutableBuffer,
  mret (Z.of_nat (length d), b).

Lemma map_filter_ok f : filter_ok (2 ^ 46) (map_filter f) (fmap f).
Proof.
  intros m r d b l Hwf [Hm Hs] Hrep Hown _ Hlim. unfold map_filter, in_limit in *.
  rewrite length_app, length_fmap in Hlim. wp_step. rewrite Hs.
  eapply wp_Ok; [by apply read_range_ok|]. wp_step.
  eapply wp_mono; [apply (push_back_local_spec (inv := owned) m b l (f <$> d)); try done|].
  { rewrite length_fmap. zlia. }
  intros b' m' [W O M R]. wp_step. simpl. split_and!; try done. destruct R as [R|(_ & _ & Hc & Hno)]; [done|].
  exfalso. rewrite length_app, length_fmap in *.
  destruct (grown_spec (capacity_ b) (Z.of_nat (length l + length d))) as [Hg _]; [lia|].
  simpl in Hno. unfold zero_bytes in Hno. revert Hno. unfold CHUNK_SIZE in Hg.
  case_match eqn:E; [done|]. zlia.
Qed.
