(* ===== verification/Examples.v ===== *)
(** * Examples: the theorems on concrete states

    Each property that has hypotheses is applied to a memory given as a list
    of blocks, an allocator that has memory up to the address space, the queue
    kernel and small systems of their own, so that its hypotheses are seen to
    hold together. *)

From S2P Require Import Prelude Memory BufferBase BufferParse MutableBuffer BufferSpec BufferSlice.
From S2P Require Import Libc Kernel Os Address SdDaemon Server ServerLife Pipe BufferStream.
From S2P Require Import ChunkedStream FilterStream Time Socket Instances.

Local Open Scope Z_scope.

(** ** Buffers *)

(** Block 1: a buffer of 16 bytes with 11 in use.  Block 2: a C string.
    Block 3: text between white space.  Block 4: numbers.  Block 5: an array. *)
Definition demo : memory := mem_of
  [bs "hello world" ++ replicate 5 NUL; bs "wor" ++ [NUL]; bs "  a b " ++ [NUL];
   bs "-42;ffzz"; replicate 8 NUL].

Definition hello : MutableBuffer := mkMB (mkRef (Ptr 1 0) 11) 16.
Definition numbers : BufferRef := mkRef (Ptr 4 0) 3.

Lemma demo_wf : mem_wf demo.
Proof. mem_wf_concrete. Qed.

Lemma hello_rep : mbuf_rep demo hello (bs "hello world").
Proof. by apply (mem_of_buffer _ 0 (bs "hello world") (replicate 5 NUL)). Qed.
Lemma hello_owned : owned demo hello.
Proof. by apply (mem_of_buffer _ 0 (bs "hello world") (replicate 5 NUL)). Qed.

#[local] Hint Resolve demo_wf hello_rep hello_owned : core.

(** A number of operations of every kind. *)
Definition demo_ops : list buf_op :=
  [PushBytes (bs "!"); PushChar NUL; PushSigned (-5); PushSelf; Resize 3; Reserve 100; Clear].

Lemma demo_ops_ok : Forall op_ok demo_ops.
Proof. repeat constructor; vm_compute; done. Qed.
#[local] Hint Resolve demo_ops_ok : core.

(** The storage is given back in the end. *)
Definition release_ops : list buf_op := demo_ops ++ [Reserve 0; Resize 0].

Lemma release_ops_any : Forall op_any release_ops.
Proof.
  apply Forall_app. split; [eapply Forall_impl; [apply demo_ops_ok|]; intros o Ho; by right|].
  constructor; [by left|]. constructor; [right; simpl; lia|constructor].
Qed.

Lemma buffer_ops_refine_witness :
  ends (run_ops (E := mutableEnsure) release_ops hello demo)
    (λ b' m', moves hello b' demo m'
      ∧ ∃ y, life_ops release_ops (Contents (bs "hello world")) y ∧ buf_inv m' b' y)
    (∃ os1 o os2 n, release_ops = os1 ++ o :: os2
      ∧ life_ops os1 (Contents (bs "hello world")) (Released n) ∧ needs_room n o)
  ∧ wp (run_ops (E := mutableEnsure) demo_ops hello)
      (λ b' m', moves hello b' demo m' ∧ ∃ l', spec_ops no_memory demo_ops (bs "hello world") l'
                ∧ mem_wf m' ∧ mbuf_rep m' b' l' ∧ owned m' b') demo.
Proof.
  split.
  - exact (proj1 (buffer_ops_refine release_ops demo hello (bs "hello world")
             demo_wf hello_rep hello_owned release_ops_any)).
  - refine (proj2 (buffer_ops_refine demo_ops demo hello (bs "hello world")
              demo_wf hello_rep hello_owned _) _).
    + eapply Forall_impl; [apply demo_ops_ok|]. intros o Ho. by right.
    + apply (bool_decide_eq_true_1 _). vm_compute. reflexivity.
Defined.

Lemma fixed_ops_refine_witness :
  wp (run_ops (E := immutableEnsure) demo_ops hello)
    (λ b' m', only_touches 1 demo m' ∧ data_ b' = data_ hello ∧ capacity_ b' = 16
              ∧ ∃ l', spec_ops (λ n, 16 < n) demo_ops (bs "hello world") l'
                      ∧ mbuf_rep m' b' l') demo.
Proof. by apply (fixed_ops_refine demo_ops demo hello (bs "hello world")). Defined.

Lemma setCapacity_grow_witness :
  ∃ n, 100 <= n < 100 + CHUNK_SIZE
    ∧ (16 = 0 → n = 100) ∧ (16 ≠ 0 → (CHUNK_SIZE | n))
    ∧ match fresh_bytes demo n with
      | None => setCapacity hello 100 demo = Ok ((false, hello), tick demo)
      | Some d => ∃ b' m', setCapacity hello 100 demo = Ok ((true, b'), m')
          ∧ mem_wf m' ∧ mbuf_rep m' b' (bs "hello world") ∧ owned m' b'
          ∧ moves hello b' demo m' ∧ capacity_ b' = n
      end.
Proof. by apply (setCapacity_grow demo hello (bs "hello world") 100). Defined.

Lemma setCapacity_shrink_witness :
  match fresh_bytes demo 5 with
  | None => setCapacity hello 5 demo = Ok ((false, with_size hello (Z.min 11 5)), tick demo)
  | Some d => ∃ b' m', setCapacity hello 5 demo = Ok ((true, b'), m')
      ∧ mem_wf m' ∧ mbuf_rep m' b' (take (Z.to_nat 5) (bs "hello world")) ∧ owned m' b'
      ∧ moves hello b' demo m' ∧ capacity_ b' = 5
  end.
Proof. by apply (setCapacity_shrink demo hello (bs "hello world") 5). Defined.

Lemma copy_independent_witness :
  wp (Buffer.copy hello) (λ c m',
    owned m' c ∧ mbuf_rep m' hello (bs "hello world")
    ∧ (mbuf_rep m' c (bs "hello world")
       ∨ c = MutableBuffer.new ∧ no_memory (Z.of_nat (length (bs "hello world"))))
    ∧ wp (run_ops (E := mutableEnsure) demo_ops c)
        (λ c' m'', mbuf_rep m'' hello (bs "hello world")) m') demo.
Proof. by apply (copy_independent demo hello (bs "hello world") demo_ops). Defined.

Definition array : MutableBuffer := mkMB (mkRef (Ptr 5 0) 0) 8.
Lemma array_rep : mbuf_rep demo array [].
Proof. by apply (mem_of_buffer _ 4 [] (replicate 8 NUL)). Qed.
Lemma array_owned : owned demo array.
Proof. by apply (mem_of_buffer _ 4 [] (replicate 8 NUL)). Qed.
#[local] Hint Resolve array_rep array_owned : core.

Lemma assign_move_transfers_witness :
  wp (Buffer.assign_move array hello) (λ r m',
    data_ r.1 = data_ hello ∧ mbuf_rep m' r.1 (bs "hello world") ∧ owned m' r.1
    ∧ mbuf_rep m' r.2 [] ∧ owned m' r.2
    ∧ mem_wf m' ∧ only_touches (pblk (data_ array)) demo m'
    ∧ blocks m' !! pblk (data_ array) = None) demo.
Proof. by apply (assign_move_transfers demo array hello [] (bs "hello world")). Defined.

Lemma c_str_terminated_witness :
  wp (Buffer.c_str hello) (λ r m',
    r.1 = data_ r.2 ∧ mbuf_rep m' r.2 (bs "hello world") ∧ owned m' r.2
    ∧ moves hello r.2 demo m'
    ∧ (mem_at m' r.1 (bs "hello world" ++ [NUL])
       ∨ no_memory (Z.of_nat (length (bs "hello world")) + 1))) demo.
Proof. by apply (c_str_terminated demo hello (bs "hello world")). Defined.

Lemma printf_appends_witness :
  wp (MutableBuffer.printf (E := mutableEnsure) hello 2 (Some (bs "12")))
    (λ b' m', mem_wf m' ∧ owned m' b' ∧ moves hello b' demo m'
       ∧ (mbuf_rep m' b' (bs "hello world" ++ bs "12")
          ∨ mbuf_rep m' b' (clobbered b' (bs "hello world"))
            ∧ ∃ m1, out_of_memory m1 b' (capacity_ b' + Z.of_nat (length (bs "12")) + 1))) demo.
Proof. apply (printf_appends demo hello (bs "hello world") (bs "12") 2); [done..|by left]. Defined.

Lemma printf_fixed_truncates_witness :
  wp (MutableBuffer.printf (E := immutableEnsure) hello 2 (Some (bs "123456")))
    (λ b' m', data_ b' = data_ hello ∧ capacity_ b' = capacity_ hello
       ∧ only_touches (pblk (data_ hello)) demo m'
       ∧ mbuf_rep m' b' (if Z.of_nat (length (bs "123456")) <? capacity_ hello - size_ hello
                         then bs "hello world" ++ bs "123456"
                         else clobbered hello (bs "hello world"))) demo.
Proof. by apply (printf_fixed_truncates demo hello (bs "hello world") (bs "123456") 2). Defined.

Lemma push_toInt_roundtrip_witness :
  wp (MutableBuffer.push_back_signed (E := mutableEnsure) MutableBuffer.new (-42))
    (λ b m', no_memory (Z.of_nat (length (fmt_d (-42))))
             ∨ BufferBase.toInt b m' = Ok (-42, m')) demo.
Proof. by apply (push_toInt_roundtrip demo (-42)). Defined.

(** ** Views *)

Definition hello_view : BufferRef := mkRef (Ptr 1 0) 11.

Lemma hello_cview : cview demo hello_view (bs "hello world").
Proof. by split. Qed.
Lemma hello_is_view : view demo hello_view (bs "hello world").
Proof. by split. Qed.
Lemma wor_cstring : cstring demo (Ptr 2 0) (bs "wor").
Proof. split; [done|]. by apply (bool_decide_eq_true_1 (NUL ∉ bs "wor")). Qed.
#[local] Hint Resolve hello_cview hello_is_view wor_cstring : core.

Lemma find_cstr_correct_witness :
  wp (BufferBase.find_cstr hello_view (Ptr 2 0) 2)
    (λ r m', m' = demo ∧ first_occurrence (bs "wor") (bs "hello world") 2 r) demo.
Proof. by apply (find_cstr_correct demo hello_view (bs "hello world") (Ptr 2 0) (bs "wor")). Defined.

Lemma split_cstr_correct_witness :
  wp (BufferBase.split_cstr hello_view (Ptr 2 0)) (λ r m', m' = demo ∧
    ((r.2 = BufferRef_empty ∧ view demo r.1 (bs "hello world")
      ∧ ∀ k, ¬ bs "wor" `prefix_of` drop k (bs "hello world"))
     ∨ ∃ l1 l2, bs "hello world" = l1 ++ bs "wor" ++ l2 ∧ view demo r.1 l1 ∧ view demo r.2 l2
         ∧ ∀ k, (k < length l1)%nat → ¬ bs "wor" `prefix_of` drop k (bs "hello world"))) demo.
Proof. by apply (split_cstr_correct demo hello_view (bs "hello world") (Ptr 2 0) (bs "wor")). Defined.

Lemma begins_ends_correct_witness :
  BufferBase.begins hello_view (mkRef (Ptr 1 0) 5) demo
    = Ok (bool_decide (bs "hello" `prefix_of` bs "hello world"), demo)
  ∧ BufferBase.ends hello_view (mkRef (Ptr 1 0) 5) demo
    = Ok (bool_decide (bs "hello" `suffix_of` bs "hello world"), demo).
Proof. by apply (begins_ends_correct demo hello_view (mkRef (Ptr 1 0) 5)). Defined.

Lemma equals_correct_witness :
  BufferBase.equals false hello_view (mkRef (Ptr 2 0) 3) demo
    = Ok (bool_decide (bs "hello world" = bs "wor"), demo).
Proof. by apply (equals_correct demo hello_view (mkRef (Ptr 2 0) 3)). Defined.

Lemma iequals_correct_witness :
  BufferBase.iequals false (mkRef (Ptr 1 6) 3) (mkRef (Ptr 2 0) 3) demo
    = Ok (bool_decide (tolower <$> bs "wor" = tolower <$> bs "wor"), demo).
Proof.
  apply (iequals_correct demo (mkRef (Ptr 1 6) 3) (mkRef (Ptr 2 0) 3)); [done..|].
  by apply (bool_decide_eq_true_1 (NUL ∉ bs "wor")).
Defined.

Lemma trim_correct_witness :
  wp (BufferBase.trim (mkRef (Ptr 3 0) 6)) (λ r m', m' = demo ∧ view demo r (bs "a b")
    ∧ data_ r = Ptr 3 0 +ₚ Z.of_nat (length (bs "  "))) demo.
Proof.
  apply (trim_correct demo (mkRef (Ptr 3 0) 6) (bs "  ") (bs "a b") (bs " ")); [done..| | |].
  - by repeat constructor.
  - by repeat constructor.
  - split; [by exists Byte.x61, (bs " b")|by exists (bs "a "), Byte.x62].
Defined.

Lemma hex_correct_witness :
  BufferBase.hex 32 (mkRef (Ptr 4 4) 4) demo = Ok (wrapu 32 (hex_val (bs "ff")), demo).
Proof.
  by apply (hex_correct demo 32 (mkRef (Ptr 4 4) 4) (bs "ff") (bs "zz"));
    [..|repeat constructor|].
Defined.

Lemma rfind_char_correct_witness :
  wp (BufferBase.rfind_char hello_view Byte.x6f) (λ r m', m' = demo ∧
    ((r = npos ∧ Byte.x6f ∉ bs "hello world")
     ∨ (0 <= r < 11 ∧ bs "hello world" !! Z.to_nat r = Some Byte.x6f
        ∧ ∀ k, r < Z.of_nat k → bs "hello world" !! k ≠ Some Byte.x6f))) demo.
Proof. by apply (rfind_char_correct demo hello_view (bs "hello world")). Defined.

Lemma hash_ascii_fnv1a_witness :
  BufferBase.hash hello_view demo = Ok (fnv1a (bs "hello world"), demo)
  ∧ 0 <= fnv1a (bs "hello world") < 2 ^ 32.
Proof.
  apply (hash_ascii_fnv1a demo hello_view (bs "hello world")); [done|].
  by repeat (constructor; [by vm_compute|]).
Defined.

Lemma slice_survives_append_witness :
  wp (s ← BufferSlice.slice hello 6 5;
      MutableBuffer.push_back_local (E := mutableEnsure) hello (bs "!!!!!!!!") ≫= λ b' : MutableBuffer,
      BufferSlice.deref s b')
    (λ r m', view m' r (take (Z.to_nat 5) (drop (Z.to_nat 6) (bs "hello world")))) demo.
Proof. by apply (slice_survives_append demo hello (bs "hello world") (bs "!!!!!!!!") 6 5). Defined.

(** ** Pipes *)

(** Pipe 0 (descriptors 3 and 4) holds four bytes, pipe 1 (5 and 6) is empty. *)
Definition ch0 : @chan fifo_kernel := 0%nat.
Definition ch1 : @chan fifo_kernel := 1%nat.
Definition two_pipes : @kst fifo_kernel :=
  Fifos {[ 3 := 0%nat; 5 := 1%nat ]} {[ 4 := 0%nat; 6 := 1%nat ]} {[ 0%nat := bs "data" ]}.
Definition full : Pipe.Pipe := Pipe.mkPipe 3 4 4.
Definition drained : Pipe.Pipe := Pipe.mkPipe 5 6 0.
Definition demo_world : world := World demo two_pipes 0.

Lemma full_rep : pipe_rep two_pipes full ch0 (bs "data").
Proof. by split. Qed.
Lemma drained_rep : pipe_rep two_pipes drained ch1 [].
Proof. by split. Qed.
#[local] Hint Resolve full_rep drained_rep : core.

(** A read into a buffer, which leaves the count. *)
Definition into_hello : pipe_op (K := fifo_kernel) := PReadBuffer hello (bs "hello world") 3.

Lemma pipe_op_fifo_witness :
  wp (run_pipe_op into_hello full) (λ r w', ∃ ins outs l',
    bs "data" ++ ins = outs ++ l' ∧ queue_at (wkern w') r.1.2 ch0 l'
    ∧ Pipe.psize_ r.1.2 = Z.of_nat (length (counted into_hello (bs "data") l')) ∧ mem_wf (wmem w')
    ∧ pipe_io into_hello (wkern demo_world) (wkern w') (wmem w') r.1.1 r.2 ins outs) demo_world.
Proof.
  apply (pipe_op_fifo demo_world full ch0 (bs "data") into_hello); [apply demo_wf|apply full_rep|].
  split; [apply hello_rep|]. split; [apply hello_owned|]. vm_compute. by split.
Defined.

Lemma pipe_move_witness :
  wp (Pipe.write_pipe drained full 2 MOVE) (λ r w', ∃ d lq',
    bs "data" = d ++ lq' ∧ pipe_rep (wkern w') r.1.2 ch1 ([] ++ d)
    ∧ pipe_rep (wkern w') r.2 ch0 lq' ∧ wmem w' = wmem demo_world
    ∧ (r.1.1 = Z.of_nat (length d) ∨ r.1.1 = -1 ∧ d = [])) demo_world
  ∧ (∀ n', Pipe.write_pipe drained full n' MOVE = Pipe.write_pipe drained full 2 MOVE).
Proof. by apply (pipe_move demo_world drained full ch1 ch0). Defined.

Lemma pipe_copy_witness :
  wp (Pipe.write_pipe drained full 2 COPY) (λ r w', ∃ d,
    d `prefix_of` bs "data" ∧ Z.of_nat (length d) <= 2
    ∧ pipe_rep (wkern w') r.1.2 ch1 ([] ++ d)
    ∧ pipe_rep (wkern w') r.2 ch0 (bs "data") ∧ wmem w' = wmem demo_world
    ∧ (r.1.1 = Z.of_nat (length d) ∨ r.1.1 = -1 ∧ d = [])) demo_world.
Proof. by apply (pipe_copy demo_world drained full ch1 ch0). Defined.

Lemma fifo_progress : reads_progress.
Proof.
  intros k fd c n Hrd Hc Hn. simpl in *. unfold f_read. rewrite Hrd.
  rewrite bool_decide_eq_false_2 by done. replace (0 <=? n) with true by lia.
  eexists _, _. split; [done|]. destruct (f_content k c); [done|].
  destruct (Z.to_nat n) eqn:E; [lia|done].
Qed.

Lemma pipe_clear_witness :
  wp (Pipe.clear full) (λ p' w', pipe_rep (wkern w') p' ch0 [] ∧ wmem w' = demo)
    demo_world.
Proof. apply (pipe_clear demo_world full ch0 (bs "data")); [apply fifo_progress|done]. Defined.

Lemma pipe_read_buffer_witness :
  wp (Pipe.read_buffer full hello 4) (λ '(rv, b', p') w', ∃ d l',
    bs "data" = d ++ l' ∧ content (wkern w') ch0 = l' ∧ Z.of_nat (length d) <= 4
    ∧ mbuf_rep (wmem w') b' (bs "hello world" ++ d) ∧ owned (wmem w') b'
    ∧ (rv = Z.of_nat (length d) ∨ d = [] ∧ rv = -1)
    ∧ p' = full ∧ (pipe_rep (wkern w') p' ch0 l' ↔ d = [])) demo_world.
Proof. by apply (pipe_read_buffer demo_world full ch0 (bs "data") hello). Defined.

(** ** Streams *)

(** Six bytes of the buffer are already read. *)
Definition stream : BufferStream.BufferStream := BufferStream.mkBS hello 6.

Lemma stream_rep : bs_rep demo stream (bs "hello ") (bs "world").
Proof. by split. Qed.
#[local] Hint Resolve stream_rep : core.

Lemma bufferstream_write_witness :
  wp (BufferStream.write stream (Ptr 4 0) 8) (λ r m',
    mem_wf m' ∧ moves hello (BufferStream.buf r.2) demo m'
    ∧ (r.1 = 8 ∧ bs_rep m' r.2 (bs "hello ") (bs "world" ++ bs "-42;ffzz")
       ∨ r.1 = 0 ∧ r.2 = stream ∧ bs_rep m' stream (bs "hello ") (bs "world")
         ∧ no_memory (Z.of_nat (length (bs "hello " ++ bs "world" ++ bs "-42;ffzz"))))) demo.
Proof.
  by apply (bufferstream_write demo stream (bs "hello ") (bs "world") (Ptr 4 0) (bs "-42;ffzz")).
Defined.

Lemma bufferstream_read_witness :
  wp (BufferStream.read stream (Ptr 5 0) 3) (λ r m',
    let d := take (Z.to_nat 3) (bs "world") in
    r.1 = Z.of_nat (length d) ∧ mem_at m' (Ptr 5 0) d ∧ mem_wf m'
    ∧ only_touches (pblk (Ptr 5 0)) demo m'
    ∧ ∃ pre', bs_rep m' r.2 pre' (drop (Z.to_nat 3) (bs "world"))) demo.
Proof.
  apply (bufferstream_read demo stream (bs "hello ") (bs "world") (Ptr 5 0) 3 (replicate 8 NUL));
    [done..|simpl; lia|done].
Defined.

Lemma bufferstream_read_buffer_witness :
  wp (BufferStream.read_buffer stream array 3) (λ '(rv, b', s') m',
    let d := take (Z.to_nat 3) (bs "world") in
    rv = Z.of_nat (length d) ∧ owned m' b'
    ∧ (∃ pre', bs_rep m' s' pre' (drop (Z.to_nat 3) (bs "world")))
    ∧ (mbuf_rep m' b' ([] ++ d)
       ∨ mbuf_rep m' b' [] ∧ no_memory (Z.of_nat (length ([] ++ d))))) demo.
Proof.
  by apply (bufferstream_read_buffer demo stream (bs "hello ") (bs "world") array [] 3).
Defined.

Lemma bufferstream_write_fd_witness :
  wp (BufferStream.write_fd stream 3 4) (λ r w', ∃ d,
    took (wkern demo_world) (wkern w') ch0 d ∧ Z.of_nat (length d) <= 4
    ∧ mem_wf (wmem w') ∧ bs_rep (wmem w') r.2 (bs "hello ") (bs "world" ++ d)
    ∧ (r.1 = Z.of_nat (length d) ∨ d = [] ∧ r.1 = -1)) demo_world.
Proof.
  by apply (bufferstream_write_fd demo_world stream (bs "hello ") (bs "world") 3 ch0).
Defined.

Lemma bufferstream_read_fd_witness :
  wp (BufferStream.read_fd stream 6 3) (λ r w', ∃ k : nat,
    (r.1 = Z.of_nat k ∧ (k <= length (bs "world"))%nat ∧ r.1 <= 3
       ∧ (∃ c, wr_chan (wkern demo_world) 6 = Some c
               ∧ put (wkern demo_world) (wkern w') c (take k (bs "hello " ++ bs "world")))
     ∨ r.1 = -1 ∧ k = 0%nat
       ∧ transfer (wkern demo_world) (wkern w') (content (wkern demo_world)))
    ∧ bs_rep (wmem w') r.2 (bs "hello " ++ take k (bs "world")) (drop k (bs "world"))) demo_world.
Proof. by apply (bufferstream_read_fd demo_world stream (bs "hello ") (bs "world")). Defined.

(** Two chunks: the rest of a stream, and a buffer that nothing was read from. *)
Definition two_streams : memory := mem_of
  [bs "hello world" ++ replicate 5 NUL; bs "-42;ffzz"; replicate 8 NUL].
Definition two_chunks : ChunkedStream.ChunkedStream :=
  [ChunkedStream.CBuf stream;
   ChunkedStream.CBuf (BufferStream.mkBS (mkMB (mkRef (Ptr 2 0) 8) 8) 0)].
Definition chunk_world : world := World two_streams two_pipes 0.

Lemma two_streams_wf : mem_wf two_streams.
Proof. mem_wf_concrete. Qed.

Lemma two_chunks_rep : cs_rep two_streams two_chunks [bs "world"; bs "-42;ffzz"].
Proof.
  split; [|by apply (bool_decide_eq_true_1 (NoDup _))].
  constructor; [exists (bs "hello ")|constructor; [exists []|constructor]]; split; try done.
  all: first [by apply (mem_of_buffer _ 0 (bs "hello world") (replicate 5 NUL))
             |by apply (mem_of_buffer _ 1 (bs "-42;ffzz") [])].
Qed.
#[local] Hint Resolve two_streams_wf two_chunks_rep : core.

Lemma not_live p : bool_decide (pblk p ∉ ChunkedStream.live two_chunks) = true →
  pblk p ∉ ChunkedStream.live two_chunks.
Proof. apply bool_decide_eq_true_1. Qed.

Lemma chunked_write_witness :
  wp (ChunkedStream.write two_chunks (Ptr 3 0) 8) (λ r w',
    mem_wf (wmem w') ∧ wkern w' = wkern chunk_world ∧ ∃ ls', cs_rep (wmem w') r.2 ls'
    ∧ (r.1 = 8 ∧ concat ls' = concat [bs "world"; bs "-42;ffzz"] ++ replicate 8 NUL
       ∨ r.1 = 0 ∧ concat ls' = concat [bs "world"; bs "-42;ffzz"] ∧ ∃ n, no_memory n)) chunk_world.
Proof.
  apply (chunked_write chunk_world two_chunks [bs "world"; bs "-42;ffzz"] (Ptr 3 0) (replicate 8 NUL));
    [apply two_streams_wf|apply two_chunks_rep|done..|by apply not_live].
Defined.

Lemma chunked_read_front_witness :
  wp (ChunkedStream.read two_chunks (Ptr 3 0) 4) (λ r w', ∃ ls',
    r.1 = 4 ∧ mem_at (wmem w') (Ptr 3 0) (take (Z.to_nat 4) (concat [bs "world"; bs "-42;ffzz"]))
    ∧ cs_rep (wmem w') r.2 ls'
    ∧ concat ls' = drop (Z.to_nat 4) (concat [bs "world"; bs "-42;ffzz"])) chunk_world.
Proof.
  apply (chunked_read_front chunk_world two_chunks (bs "world") [bs "-42;ffzz"] (Ptr 3 0) 4
           (replicate 8 NUL));
    [apply two_streams_wf|apply two_chunks_rep|by repeat constructor|done..|by apply not_live|done].
Defined.

(** ** Filters *)

Definition rot (b : byte) : byte := byte_of_Z (uchar b + 13).

Lemma filter_process_composes_witness :
  wp (FilterStream.process [map_filter tolower] hello_view array)
    (λ r m', mbuf_rep m' r.2 ([] ++ (tolower <$> bs "hello world")) ∧ owned m' r.2) demo
  ∧ wp (FilterStream.process [map_filter tolower; map_filter rot] hello_view array) (λ r m',
      r.1 = Z.of_nat (length (rot <$> (tolower <$> bs "hello world")))
      ∧ delivered [] (rot <$> (tolower <$> bs "hello world")) r.2 m') demo.
Proof.
  apply (filter_process_composes (2 ^ 46) demo (map_filter tolower) (fmap tolower)
           (map_filter rot) (fmap rot)); [apply map_filter_ok..|done|done|done|done|by right|done|done].
Defined.

(** ** Addresses *)

Definition ip1 : IPAddress := mkIP AF_INET (bs "abcd" ++ replicate 12 NUL).
Definition ip2 : IPAddress := mkIP AF_INET (bs "abcd" ++ replicate 12 Byte.xff).
Definition ip6 : IPAddress := mkIP AF_INET6 (bs "abcdefghijklmnop").

Lemma ip_equal_hash_witness :
  IPAddress.equal false ip1 ip1 = true
  ∧ IPAddress.equal false ip1 ip2 = IPAddress.equal false ip2 ip1
  ∧ (IPAddress.equal false ip1 ip2 = true → IPAddress.equal false ip2 ip6 = true →
     IPAddress.equal false ip1 ip6 = true)
  ∧ IPAddress.equal false (IPAddress.assign ip1 ip2) ip2 = true
  ∧ (IPAddress.equal false ip1 ip2 = true → IPAddress.hash ip1 = IPAddress.hash ip2).
Proof. by apply (ip_equal_hash ip1 ip2 ip6). Defined.

Definition spec1 : SocketSpec.SocketSpec := SocketSpec.new_inet ip1 80 (-1) 1 false.
Definition spec2 : SocketSpec.SocketSpec := SocketSpec.new_inet ip2 80 128 1 true.

Lemma spec_equal_hash_witness :
  (SocketSpec.equal false spec1 spec2 = true →
   SocketSpec.hash (λ n, n) (λ s, Z.of_nat (length s)) spec1
   = SocketSpec.hash (λ n, n) (λ s, Z.of_nat (length s)) spec2)
  ∧ SocketSpec.equal false spec1 spec1 = SocketSpec.isValid spec1.
Proof. by apply (spec_equal_hash (λ n, n) (λ s, Z.of_nat (length s)) spec1 spec2). Defined.

(** ** Servers *)

Definition socket_os : OS := plain_os S_IFSOCK.
Definition file_os : OS := plain_os 0.
Definition env (l : list (string * bytes)) : os_state := Os [] 0 (list_to_map l).

(** Two descriptors from systemd. *)
Definition activated : os_state :=
  env [("LISTEN_PID"%string, fmt_u 77); ("LISTEN_FDS"%string, fmt_u 2)].

Lemma sd_listen_fds_marks_witness :
  wp (SdDaemon.sd_listen_fds (os := socket_os) true)
    (λ r s', r = 2 ∧ ∀ i, 3 <= i < 3 + 2 → marked s' i) activated.
Proof.
  apply (sd_listen_fds_marks (os := socket_os) activated 77 2); try done.
  - by eexists.
  - by eexists.
Defined.

(** A parent process with two listeners. *)
Definition parent_inet : InetServer.InetServer :=
  InetServer.mkInet (mkServer 7 0 0 SOMAXCONN 1 true) ip1 80 false.
Definition parent_unix : UnixServer.UnixServer :=
  UnixServer.mkUnix (mkServer 8 0 0 SOMAXCONN 1 true) (bs "/run/s").
Definition handed_on : list listener := [LInet (bs "abcd") 80 7; LUnix (bs "/run/s") 8].
Definition child : os_state := env [(X0_LISTEN_FDS, bs "abcd,80,7;/run/s,8")].

Lemma field_ok_dec a : bool_decide (a ≠ [] ∧ (COMMA ∉ a) ∧ (SEMICOLON ∉ a)) = true → field_ok a.
Proof. apply bool_decide_eq_true_1. Qed.

Lemma handed_on_ok : Forall listener_ok handed_on.
Proof. by repeat constructor; try (by apply field_ok_dec). Qed.

Lemma inherited_list_roundtrip_witness :
  ListenFds.getInheritedSocketList child = Ok (listener_fd <$> handed_on, child).
Proof.
  apply (inherited_list_roundtrip (T := raw_text) [inl parent_inet; inr parent_unix] handed_on
           (env []) child [bs "abcd,80,7"; bs "/run/s,8"]); [|done|done].
  pose proof handed_on_ok as H. apply Forall_cons in H as [H1 H2]. apply Forall_cons in H2 as [H2 _].
  constructor; [|constructor; [|constructor]].
  - split; [split; [exists (bs "abcd"); split; reflexivity|simpl; lia]|exact H1].
  - split; [split; [done|simpl; lia]|exact H2].
Defined.

Lemma inherited_inet_found_witness :
  wp (ListenFds.getSocketInet (os := socket_os) (bs "abcd") 80) (λ r _, r = 7) child.
Proof.
  by apply (inherited_inet_found (os := socket_os) (bs "abcd") 80 7 [] [LUnix (bs "/run/s") 8]
           child (ok S_IFSOCK)); [apply handed_on_ok|..].
Defined.

Lemma inet_open_outcome_witness :
  wp (InetServer.open (os := socket_os) (T := raw_text) InetServer.new ip1 80
        (Z.lor O_NONBLOCK O_CLOEXEC)) (λ r s', environ s' = environ (env []) ∧
    if r.1
    then 0 <= fd_ (InetServer.server r.2) ∧ active (InetServer.server r.2) = true
         ∧ (fd_ (InetServer.server r.2) ∉ Server.live [])
         ∧ Server.live (history s') = {[fd_ (InetServer.server r.2)]} ∪ Server.live []
    else fd_ (InetServer.server r.2) < 0 ∧ active (InetServer.server r.2) = false
         ∧ Server.live (history s') = Server.live []) (env []).
Proof.
  by apply (inet_open_outcome (os := socket_os) (T := raw_text) InetServer.new ip1 80
           (Z.lor O_NONBLOCK O_CLOEXEC) (env [])); [apply plain_fresh|..].
Defined.

Lemma systemd_miss_closes_foreign_witness :
  wp (InetServer.open (os := file_os) (T := raw_text) InetServer.new ip1 80 0)
    (λ r s', r.1 = false ∧ fd_ (InetServer.server r.2) = -1
      ∧ ∃ x h, history s' = (Close (3 + 2), x) :: h) activated.
Proof.
  apply (systemd_miss_closes_foreign (os := file_os) (T := raw_text) InetServer.new ip1 80 0
           activated 77 2); try done.
  - by eexists.
  - by eexists.
  - by intros h j st _ [= <-].
Defined.

(** The server is opened and accepts a client. *)
Lemma server_life_no_leak_witness :
  ∃ l, rtc (life_step (LS := inet_listener (os := socket_os) (T := raw_text)))
         (Life InetServer.new ∅ (env [])) l
    ∧ clients l ≠ ∅
    ∧ Server.live (history (lsys l))
      = own_fd (LS := inet_listener (os := socket_os) (T := raw_text)) (lserver l) ∪ clients l
    ∧ own_fd (LS := inet_listener (os := socket_os) (T := raw_text)) (lserver l) ## clients l
    ∧ (ServerSocket.isOpen (InetServer.server (lserver l)) = false →
       active (InetServer.server (lserver l)) = false).
Proof.
  assert (∃ i s, rtc (life_step (LS := inet_listener (os := socket_os) (T := raw_text)))
            (Life InetServer.new ∅ (env [])) (Life i ({[4]} ∪ ∅) s)) as (i & s & Hr).
  { eexists _, _. eapply rtc_l.
    { eapply life_open; [done|]. exists ip1, 80, 0. split; [done|]. vm_compute; reflexivity. }
    eapply rtc_once. eapply (life_accept _ _ _ true (Some (Some 4))); [done|].
    vm_compute; reflexivity. }
  exists (Life i ({[4]} ∪ ∅) s).
  split; [exact Hr|]. split; [set_solver|].
  by apply (server_life_no_leak (os := socket_os) (T := raw_text) (env [])); [apply plain_fresh|..].
Defined.

Lemma unix_server_life_no_leak_witness :
  ∃ l, rtc (life_step (LS := unix_listener (os := socket_os))) (Life UnixServer.new ∅ (env [])) l
    ∧ clients l ≠ ∅
    ∧ Server.live (history (lsys l))
      = own_fd (LS := unix_listener (os := socket_os)) (lserver l) ∪ clients l
    ∧ own_fd (LS := unix_listener (os := socket_os)) (lserver l) ## clients l
    ∧ (ServerSocket.isOpen (UnixServer.server (lserver l)) = false →
       active (UnixServer.server (lserver l)) = false).
Proof.
  assert (∃ i s, rtc (life_step (LS := unix_listener (os := socket_os)))
            (Life UnixServer.new ∅ (env [])) (Life i ({[4]} ∪ ∅) s)) as (i & s & Hr).
  { eexists _, _. eapply rtc_l.
    { eapply life_open; [done|]. exists (bs "/tmp/s"), O_NONBLOCK. vm_compute; reflexivity. }
    eapply rtc_once. eapply (life_accept _ _ _ true (Some (Some 4))); [done|].
    vm_compute; reflexivity. }
  exists (Life i ({[4]} ∪ ∅) s).
  split; [exact Hr|]. split; [set_solver|].
  by apply (unix_server_life_no_leak (os := socket_os) (env [])); [apply plain_fresh|..].
Defined.

(** ** Sockets *)

Lemma socket_open_outcome_witness :
  wp (Socket.open (os := socket_os) Socket.new ip1 80 1024) (λ r o',
    match r.1 with
    | Socket.Operational | Socket.Connecting =>
        Socket.state_ r.2 = r.1 ∧ 0 <= Socket.fd_ r.2 ∧ (Socket.fd_ r.2 ∉ Server.live [])
        ∧ Server.live (history o') = {[Socket.fd_ r.2]} ∪ Server.live []
        ∧ ∃ addr, connect_calls (history o') = (Socket.fd_ r.2, addr) :: []
          ∧ SdDaemon.sa_family addr = AF_INET ∧ SdDaemon.sa_port addr = 80 mod 65536
          ∧ take (Z.to_nat (IPAddress.size ip1))
              (drop (if family_ ip1 =? AF_INET then 4 else 8) addr)
            = take (Z.to_nat (IPAddress.size ip1)) (buf_ ip1)
    | Socket.Handshake => False
    | Socket.Closed =>
        (Socket.state_ Socket.new = Socket.Closed → Socket.state_ r.2 = Socket.Closed)
        ∧ (Socket.fd_ r.2 = -1 ∧ Server.live (history o') = Server.live []
           ∨ ¬ plain_flags 1024 ∧ 0 <= Socket.fd_ r.2 ∧ (Socket.fd_ r.2 ∉ Server.live [])
             ∧ Server.live (history o') = {[Socket.fd_ r.2]} ∪ Server.live []
             ∧ connect_calls (history o') = []
             ∧ ∃ v x h, history o' = (Setfl (Socket.fd_ r.2) v, x) :: h ∧ ∀ y, x = inr y → rval y ≠ 0)
    end) (env []).
Proof.
  exact (socket_open_outcome (os := socket_os) Socket.new ip1 80 1024 (env []) (plain_fresh _) eq_refl).
Defined.

(** A system that refuses every connection (ECONNREFUSED). *)
Definition refusing_os : OS := λ h c,
  match c with Getsockopt _ _ _ => inr (Reply 111 [] (0, 0) 0) | _ => plain_os S_IFSOCK h c end.

Definition connecting : Socket.Socket :=
  Socket.mkSocket 3 Socket.Connecting (Some (3, Socket.WRITE)) (Socket.timeout_ Socket.new) None (Some 0%nat).

Lemma connect_completes_witness :
  wp (Socket.io (os := refusing_os) connecting Socket.WRITE) (λ r o',
    r.1 = Socket.callback connecting Socket.CONNECTED
    ∧ Socket.io_ r.2 = None ∧ Socket.timer_ r.2 = None
    ∧ Socket.state_ r.2 = Socket.Closed ∧ oerrno o' = 111
    ∧ Server.live (history o') = Server.live [] ∖ {[3]}) (env []).
Proof. by apply (connect_completes (os := refusing_os) connecting Socket.WRITE (env [])). Defined.

Lemma socket_life_witness :
  ∃ c, rtc (conn_step (os := socket_os)) (Conn Socket.new (env [])) c
    ∧ Socket.state_ (csock c) = Socket.Operational ∧ Socket.timer_ (csock c) ≠ None
    ∧ Server.live (history (csys c)) = held (csock c)
    ∧ (Socket.timer_ (csock c) ≠ None → Socket.io_ (csock c) ≠ None)
    ∧ (Socket.state_ (csock c) ≠ Socket.Closed → 0 <= Socket.fd_ (csock c)).
Proof.
  assert (∃ c, rtc (conn_step (os := socket_os)) (Conn Socket.new (env [])) c
    ∧ Socket.state_ (csock c) = Socket.Operational ∧ Socket.timer_ (csock c) ≠ None)
    as (c & Hr & Hs & Ht).
  { eexists. split; [|shelve].
    eapply rtc_l; [eapply (conn_open _ _ ip1 80 O_CLOEXEC); [done|done|vm_compute; reflexivity]|].
    eapply rtc_once, (conn_on _ _ Socket.READ (Socket.timeout_ Socket.new) 0). vm_compute; reflexivity.
    Unshelve. done. }
  exists c. split; [exact Hr|]. split; [exact Hs|]. split; [exact Ht|].
  by apply (socket_life (os := socket_os) c (env [])); [apply plain_fresh|..].
Defined.

Lemma socket_read_buffer_witness :
  wp (Socket.read_buffer (Socket.new_fd 3 Socket.Operational) hello 4) (λ r w', ∃ d,
    took (wkern demo_world) (wkern w') ch0 d ∧ Z.of_nat (length d) <= 4
    ∧ mbuf_rep (wmem w') r.2 (bs "hello world" ++ d) ∧ owned (wmem w') r.2
    ∧ (r.1 = Z.of_nat (length d) ∨ d = [] ∧ r.1 = -1)) demo_world.
Proof.
  by apply (socket_read_buffer demo_world (Socket.new_fd 3 Socket.Operational) ch0 hello).
Defined.

(** ** Dates *)

Definition noon : DateTime.DateTime := QArith_base.Qmake 86399 2.
Definition midnight : DateTime.DateTime := QArith_base.Qmake 86400 1.

Lemma datetime_order_witness :
  DateTime.eq noon midnight = Some (43199 =? 86400)
  ∧ DateTime.ne noon midnight = Some (negb (43199 =? 86400))
  ∧ DateTime.le noon midnight = Some (43199 <=? 86400)
  ∧ DateTime.ge noon midnight = Some (86400 <=? 43199)
  ∧ DateTime.lt noon midnight = Some (43199 <? 86400)
  ∧ DateTime.gt noon midnight = Some (86400 <? 43199).
Proof. by apply (datetime_order noon midnight 43199 86400). Defined.
