(* ===== verification/ExamplesApps.v ===== *)
(** * ExamplesApps: the theorems on files, notification and the echo server
    on concrete states *)

From Stdlib Require Import QArith.
From S2P Require Import Prelude Memory BufferBase BufferParse MutableBuffer BufferSpec Libc Kernel.
From S2P Require Import Os Address SdDaemon Server ServerLife Pipe BufferStream Socket Instances.
From S2P Require Import Examples Echo File FileMgr.

Local Open Scope Z_scope.

(** ** Notification *)

Definition notify_state : os_state := env [("NOTIFY_SOCKET"%string, bs "@init")].

Lemma socket_notify : NotifyOs (os := socket_os).
Proof.
  split.
  - intros h r [= <-]. simpl. by destruct (next_fd_fresh h).
  - by intros h fd name iov flags r [= <-].
Qed.

Lemma sd_notify_outcome_witness :
  wp (SdDaemon.sd_notify (os := socket_os) true (Some (bs "READY=1"))) (λ r s',
    environ s' = notify_env true (environ notify_state)
    ∧ ∃ sent closed,
      history s' = (Close 3, closed)
        :: (Sendmsg 3 ([Byte.x01; NUL; NUL] ++ bs "init") (bs "READY=1") MSG_NOSIGNAL, sent)
        :: (notify_socket, inr (ok 3)) :: []
      ∧ r = match sent with inr _ => 1 | inl err => - err end) notify_state.
Proof.
  refine (sd_notify_outcome (os := socket_os) notify_state true (Some (bs "READY=1")) socket_notify _).
  intros e [= <-]. vm_compute. reflexivity.
Defined.

(** ** Files *)

(** A system in which the watch of a path is one more than its length, and in
    which the watch 8 reports a change. *)
Definition watch_os : OS := λ h c,
  match c with
  | InotifyAddWatch _ p _ => inr (ok (1 + Z.of_nat (length p)))
  | ReadBytes _ _ => inr (Reply 0 (encode (Ievent 8 4 0 [])) (0, 0) 0)
  | _ => plain_os 0 h c
  end.

Lemma watch_os_watch : WatchOs (os := watch_os).
Proof. intros h fd p m r [= <-]. simpl. lia. Qed.

Lemma watch_os_fresh : FreshFds (os := watch_os).
Proof. split; intros * [= <-]; apply next_fd_fresh. Qed.

Definition notifier : Inotify.Inotify := Inotify.mkInotify 3 None.
Definition noon : Q := 1000%Q.

Lemma file_life_no_leak_witness :
  ∃ f s, rtc (file_step (os := watch_os) notifier) (File.new (bs "/a") noon, env []) (f, s)
    ∧ watches notifier (history s) ≠ ∅
    ∧ wp (File.destroy (os := watch_os) notifier f) (λ f' s', File.inotify_ f' = -1
        ∧ watches notifier (history s') ⊆ watches notifier (history (env []))
        ∧ same_fds (env []) s') s.
Proof.
  assert (∃ f s, rtc (file_step (os := watch_os) notifier) (File.new (bs "/a") noon, env []) (f, s)
    ∧ watches notifier (history s) = {[3]} ∪ ∅) as (f & s & Hr & Hw).
  { eexists _, _. split.
    - eapply rtc_once. eapply (step_update (os := watch_os)); [done|]. vm_compute; reflexivity.
    - vm_compute. reflexivity. }
  exists f, s. split; [done|]. split; [rewrite Hw; set_solver|].
  by apply (file_life_no_leak (os := watch_os) notifier (bs "/a") noon (env [])); [apply watch_os_watch|].
Defined.

(** ** The file cache *)

Definition demo_config : FileMgr.Config := FileMgr.mkConfig true true false
  {[ bs "html" := bs "text/html"; bs "c" := bs "text/x-c" ]} (bs "text/plain") 10.

Lemma get_mimetype_correct_witness :
  FileMgr.get_mimetype demo_config (bs "/w" ++ Byte.x2f :: bs "index" ++ Byte.x2e :: bs "html"
    ++ replicate 2 Byte.x7e) = Ok (bs "text/html").
Proof.
  apply (get_mimetype_correct demo_config (bs "/w") (bs "index") (bs "html") 2);
    try (apply (bool_decide_eq_true_1 _); vm_compute; reflexivity).
Defined.

Definition file_of (path : bytes) (size mtime : Z) (at_ : Q) : File.File :=
  File.mkFile path 33188 size mtime 77 0 (-1) at_ [] [] [].

Lemma make_etag_correct_witness :
  FileMgr.make_etag demo_config (file_of (bs "/a") 10 (-5) noon)
  = FileMgr.make_etag demo_config (file_of (bs "/b") 10 (-5) noon) ↔
    (true = true → -5 = -5) ∧ (true = true → 10 = 10) ∧ (false = true → 77 = 77).
Proof.
  by apply (make_etag_correct demo_config (file_of (bs "/a") 10 (-5) noon)
              (file_of (bs "/b") 10 (-5) noon)).
Defined.

(** A constructor that finds a file of 10 bytes everywhere. *)
Definition demo_new (now : Q) (path : bytes) : ST os_state File.File :=
  mret (file_of path 10 5 now).

Lemma demo_new_spec : NewFileSpec demo_new.
Proof. intros now p s. by apply wp_ret. Qed.

Abbreviation demo_query := (FileMgr.query (os := watch_os) true (λ q, q) demo_config demo_new).
Abbreviation plain_query := (FileMgr.query (os := watch_os) false (λ q, q) demo_config demo_new).

(** Two files are asked for; the second one changes. *)
Definition mgr_demo : ST os_state (FileMgr.FileMgr * Z) :=
  m ← FileMgr.new (os := watch_os) true;
  '(_, m) ← demo_query m (bs "/a.c/") noon;
  '(_, m) ← demo_query m (bs "/b.html") noon;
  m ← FileMgr.onFileChanged (os := watch_os) m;
  mret (m, FileMgr.size m).

Lemma mgr_demo_run m n s :
  mgr_demo (env []) = Ok ((m, n), s) →
  n = FileMgr.size m ∧ ∃ m0 s1, FileMgr.new (os := watch_os) true (env []) = Ok (m0, s1)
    ∧ rtc (mgr_step (os := watch_os) true (λ q, q) demo_config demo_new) (m0, s1) (m, s).
Proof.
  unfold mgr_demo. intros (m0 & s1 & H0 & H)%bind_elim.
  apply bind_elim in H as ([f1 m1] & s2 & H1 & H). apply bind_elim in H as ([f2 m2] & s3 & H2 & H).
  apply bind_elim in H as (m3 & s4 & H3 & [= <- <- <-]). split; [done|]. exists m0, s1. split; [done|].
  eapply rtc_l; [by eapply (step_query (os := watch_os))|].
  eapply rtc_l; [by eapply (step_query (os := watch_os))|].
  eapply rtc_once. by eapply (step_changed (os := watch_os)).
Qed.

Lemma filemgr_life_witness :
  ∃ m0 s1 m s, FileMgr.new (os := watch_os) true (env []) = Ok (m0, s1)
    ∧ rtc (mgr_step (os := watch_os) true (λ q, q) demo_config demo_new) (m0, s1) (m, s)
    ∧ FileMgr.size m = 1
    ∧ mgr_inv true demo_config m
    ∧ wp (FileMgr.destroy (os := watch_os) true m) (λ _ s', same_fds (env []) s') s.
Proof.
  assert (match mgr_demo (env []) with Ok ((_, n), _) => n =? 1 | _ => false end = true) as Hn
    by (vm_compute; reflexivity).
  destruct (mgr_demo (env [])) as [[[m n] s]| | |] eqn:E; [|discriminate..].
  destruct (mgr_demo_run m n s E) as (-> & m0 & s1 & H0 & Hr).
  exists m0, s1, m, s. split; [exact H0|]. split; [exact Hr|]. split; [lia|].
  apply (filemgr_life (os := watch_os) true (λ q, q) demo_config demo_new (env []) m0 s1 m s);
    [apply demo_new_spec|apply watch_os_watch|apply watch_os_fresh|exact H0|exact Hr].
Defined.

Definition empty_mgr (h : Z) : FileMgr.FileMgr := FileMgr.mkMgr h true ∅ ∅.

Lemma filemgr_query_witness :
  wp (demo_query (empty_mgr 3) (bs "/a.c/") noon)
    (queried true (λ q, q) demo_config (empty_mgr 3) (bs "/a.c") noon (env [])) (env []).
Proof.
  exact (filemgr_query (os := watch_os) true (λ q, q) demo_config demo_new (empty_mgr 3)
           (bs "/a.c/") noon (env []) demo_new_spec watch_os_watch (empty_inv _ _ _ _)).
Defined.

Lemma filemgr_fresh_witness :
  wp (plain_query (empty_mgr (-1)) (bs "/a.c") noon)
    (λ r s', Qlt noon (File.cachedAt_ r.1 + inject_Z 10)) (env []).
Proof.
  apply (filemgr_fresh (os := watch_os) false (λ q, q) demo_config demo_new (empty_mgr (-1))
           (bs "/a.c") (bs "/a.c") noon (env []));
    [apply demo_new_spec|apply watch_os_watch|apply empty_inv|reflexivity|reflexivity|done|done|reflexivity].
Defined.

(** The entry of "/b.html", with the watch 8. *)
Definition watched_file : File.File :=
  let f := FileMgr.set_mimetype (bs "text/html")
             (File.mkFile (bs "/b.html") 33188 10 5 77 0 8 noon [] [] []) in
  FileMgr.set_etag (FileMgr.make_etag demo_config f) f.
Definition watched_mgr : FileMgr.FileMgr :=
  FileMgr.mkMgr 3 true {[ 8 := watched_file ]} {[ bs "/b.html" := watched_file ]}.

Lemma watched_inv : mgr_inv true demo_config watched_mgr.
Proof.
  split; simpl.
  - intros p f [<- <-]%lookup_singleton_Some. split_and!; [done|vm_compute; reflexivity|done|done].
  - intros wd f [<- <-]%lookup_singleton_Some. split_and!; [done|done|]. apply lookup_singleton_eq.
Qed.

Lemma filemgr_change_exact_witness :
  wp (FileMgr.onFileChanged (os := watch_os) watched_mgr) (λ m' s',
    mgr_inv true demo_config m' ∧ same_fds (env []) s'
    ∧ (∀ p f, FileMgr.cache_ m' !! p = Some f ↔
         FileMgr.cache_ watched_mgr !! p = Some f
         ∧ ∀ e, e ∈ [Ievent 8 4 0 []] → FileMgr.inotifies_ watched_mgr !! ie_wd e ≠ Some f)
    ∧ (∀ wd f, FileMgr.inotifies_ m' !! wd = Some f ↔
         FileMgr.inotifies_ watched_mgr !! wd = Some f
         ∧ ∀ e, e ∈ [Ievent 8 4 0 []] → ie_wd e ≠ wd)) (env []).
Proof.
  apply (filemgr_change_exact (os := watch_os) true demo_config watched_mgr [Ievent 8 4 0 []]
           (Reply 0 (encode (Ievent 8 4 0 [])) (0, 0) 0));
    [apply watched_inv|by repeat constructor|done|done|done].
Defined.

(** ** The echo server *)

(** Descriptor 7 is a socket from which three bytes can be read. *)
Definition in_ch : @chan fifo_kernel := 0%nat.
Definition out_ch : @chan fifo_kernel := 1%nat.
Definition net : @kst fifo_kernel :=
  Fifos {[ 7 := in_ch ]} {[ 7 := out_ch ]} {[ in_ch := bs "hi!" ]}.
Definition net_world : world := World (mem_of []) net 0.
Definition conn : Socket.Socket := Socket.new_fd 7 Socket.Operational.

Lemma net_connected : connected (K := fifo_kernel) net 7 in_ch out_ch.
Proof. by split_and!. Qed.

Lemma enough_memory n : 0 <= n <= 3 → ¬ no_memory (H := zero_alloc) n.
Proof.
  intros Hn (m & k & Hk & Hf). unfold CHUNK_SIZE in Hk. simpl in Hf. unfold zero_bytes in Hf.
  destruct (_ && _) eqn:E; [done|]. zlia.
Qed.

(** The handler reads the three bytes and writes them back. *)
Definition echoes (r : outcome (option Echo.Client * bool * world)) : bool :=
  match r with
  | Ok (Some _, _, w) => bool_decide (content net in_ch = bs "hi!" ++ content (wkern w) in_ch)
                         && bool_decide (content (wkern w) out_ch = content net out_ch ++ bs "hi!")
  | _ => false
  end.

Lemma echo_once c o' :
  Echo.new conn (env []) = Ok (c, o') →
  ∃ c' w', echo_run in_ch out_ch (c, net_world) (bs "hi!") (bs "hi!") (c', w').
Proof.
  intros [= <- <-]. match goal with |- context [echo_run _ _ (?c, _)] => set (cl := c) end.
  assert (echoes (Echo.handler cl READ_WRITE net_world) = true) as H by (vm_compute; reflexivity).
  unfold echoes in H. destruct (Echo.handler cl READ_WRITE net_world) as [[[[c1|] st] w1]| | |] eqn:E;
    try done. apply andb_true_iff in H as [H1%bool_decide_eq_true H2%bool_decide_eq_true].
  exists c1, w1. rewrite <- (app_nil_r (bs "hi!")).
  by eapply (run_event in_ch out_ch _ _ READ_WRITE); [|exact E|split; [exact H1|exact H2]|apply run_done].
Qed.

Lemma echo_fifo_witness :
  ∃ c o' c' w', Echo.new conn (env []) = Ok (c, o')
    ∧ echo_run in_ch out_ch (c, net_world) (bs "hi!") (bs "hi!") (c', w')
    ∧ ∃ rest, bs "hi!" = bs "hi!" ++ rest ∧ echo_rep 3 c' rest w' ∧ watching c' rest.
Proof.
  destruct (Echo.new conn (env [])) as [[c o']| | |] eqn:Hn; try done.
  destruct (echo_once c o' Hn) as (c' & w' & Hr). exists c, o', c', w'.
  split; [done|]. split; [done|].
  apply (echo_fifo conn (env []) c o' net_world in_ch out_ch (bs "hi!") (bs "hi!"));
    [done|mem_wf_concrete|apply net_connected|apply enough_memory|done].
Defined.

(** A client with five bytes to send. *)
Definition pending_world : world := World (mem_of [bs "hello"]) net 0.
Definition pending : Echo.Client := Echo.mkClient
  (Socket.watch conn READ_WRITE) (BufferStream.mkBS (mkMB (mkRef (Ptr 1 0) 5) 5) 0) false 1.

Lemma pending_rep : echo_rep 5 pending (bs "hello") pending_world.
Proof.
  split; [mem_wf_concrete|]. exists []. split; [|done]. split; [|right|done].
  - by apply (mem_of_buffer _ 0 (bs "hello") []).
  - split; [done|]. split; [done|]. by eexists.
Qed.

Lemma echo_drains_witness :
  eventually (write_round in_ch out_ch) (drained 5 pending (bs "hello") [])
    (Some pending, pending_world, []).
Proof.
  apply (echo_drains 5 pending (bs "hello") pending_world [] in_ch out_ch); [apply pending_rep| |done|done].
  exists READ_WRITE. by split_and!; [|right|].
Defined.
