(* ===== verification/ExamplesText.v ===== *)
(** * ExamplesText: the theorems on insertions, dumps, time and the transfer
    loops on concrete states *)

From Stdlib Require Import QArith.
From S2P Require Import Prelude Memory BufferBase BufferParse MutableBuffer BufferSpec BufferInsert.
From S2P Require Import Dump Kernel Double Time Pipe BufferStream Stream Socket.
From S2P Require Import Splicing Instances Examples.

Local Open Scope Z_scope.

(** ** Insertions *)

(** [hello << '!' << -7 << hello << ref << "wor" << cstr] *)
Definition demo_values : list value :=
  [VChar Byte.x21; VSigned (-7); VSelf; VRef numbers; VArray (Ptr 2 0) 4; VCstr (Ptr 2 0)].
Definition demo_texts : list (option bytes) :=
  [Some (bs "!"); Some (bs "-7"); None; Some (bs "-42"); Some (bs "wor"); Some (bs "wor")].

Lemma demo_values_text : Forall2 (text demo (pblk (data_ hello))) demo_values demo_texts.
Proof.
  repeat constructor; try done; simpl; try lia.
  intros [|[|[|[]%elem_of_nil]%elem_of_cons]%elem_of_cons]%elem_of_cons; done.
Qed.

Lemma insert_all_appends_witness :
  wp (insert_all (E := mutableEnsure) hello demo_values) (λ b' m', moves hello b' demo m'
    ∧ ∃ l', inserted no_memory (bs "hello world") demo_texts l'
      ∧ mem_wf m' ∧ mbuf_rep m' b' l' ∧ owned m' b') demo.
Proof.
  exact (insert_all_appends demo_values demo_texts demo hello (bs "hello world")
           demo_wf hello_rep hello_owned demo_values_text).
Defined.

(** ** Dumps *)

Lemma numbers_view : view demo numbers (bs "-42").
Proof. by split. Qed.

Lemma dump_correct_witness :
  Dump.dump numbers (Some (bs "n")) demo = Ok (bs "n (3 bytes):" ++ [NL]
    ++ bs "2D 34 32                                              -42" ++ [NL], demo).
Proof.
  refine (eq_trans (dump_correct demo numbers (bs "-42") (Some (bs "n")) numbers_view) _).
  vm_compute. reflexivity.
Defined.

Lemma dump_roundtrip_witness :
  ∃ out, Dump.dump numbers None demo = Ok (out, demo) ∧ undump out = bs "-42".
Proof. exact (dump_roundtrip demo numbers (bs "-42") None demo_wf numbers_view ltac:(done)). Defined.

(** ** Time *)

Lemma datetime_span_roundtrip_witness :
  ∃ d, DateTime.plus_span (inject_Z 1000) (inject_Z 60) = Some d
    ∧ DateTime.unixtime d = Some (1000 + 60)
    ∧ DateTime.diff d (inject_Z 1000) = Some (inject_Z 60)
    ∧ DateTime.diff (inject_Z 1000) d = Some (inject_Z 60)
    ∧ DateTime.minus_span d (inject_Z 60) = Some (inject_Z 1000).
Proof. apply (datetime_span_roundtrip 1000 60); lia. Defined.

Lemma milliseconds_bounds_witness :
  ∃ t w, TimeSpan.fromMilliseconds 1001 = Some t ∧ TimeSpan.totalSeconds t = Some (1001 / 1000)
    ∧ TimeSpan.totalMilliseconds t = Some w ∧ 1001 - 1 <= w <= 1001.
Proof. apply (milliseconds_bounds 1001). lia. Defined.

(** ** A proxy between two sockets *)

(** The client is descriptor 7 on channel 0, the pipe is 3 and 4 on channel 1,
    the backend is 8 on channel 2. *)
Definition proxy_kernel : @kst fifo_kernel :=
  Fifos {[ 7 := 0%nat; 3 := 1%nat ]} {[ 4 := 1%nat; 8 := 2%nat ]} {[ 0%nat := bs "request" ]}.
Definition proxy_world : world := World demo proxy_kernel 0.
Definition client : Socket.Socket := Socket.new_fd 7 Socket.Operational.
Definition backend : Socket.Socket := Socket.new_fd 8 Socket.Operational.
Definition through : Pipe.Pipe := Pipe.mkPipe 3 4 0.

Abbreviation from := (0%nat : @chan fifo_kernel).
Abbreviation mid := (1%nat : @chan fifo_kernel).
Abbreviation to := (2%nat : @chan fifo_kernel).

Lemma proxy_wired : wired from mid client through proxy_kernel.
Proof. done. Qed.

Lemma fifo_willing : splice_willing (K := fifo_kernel).
Proof.
  intros k i o n a b Ha Hb Hab Hn Hne Hroom. simpl in *. unfold f_splice. rewrite Ha, Hb.
  rewrite bool_decide_eq_false_2 by done. replace (n <? 0) with false by lia. simpl.
  assert (Z.of_nat (length (take (Z.to_nat n) (f_content k a)))
          = Z.min n (Z.of_nat (length (f_content k a)))) as E by (rewrite length_take; lia).
  replace (fits _) with true; [by rewrite E; eauto|].
  symmetry. unfold fits, PIPE_SIZE. rewrite length_app. lia.
Qed.

Lemma proxy_forwards_witness :
  splice_willing (K := fifo_kernel)
  ∧ wp (Splicing.proxy_loop 8 client backend through) (λ _ w', ∃ d,
      bs "request" = d ++ content (wkern w') mid ++ content (wkern w') from
      ∧ content (wkern w') to = [] ++ d
      ∧ (splice_willing (K := fifo_kernel) → Pipe.size through = 0 →
         Z.of_nat (length (content proxy_kernel to) + length (content proxy_kernel from)) <= 65536 →
         content (wkern w') to = [] ++ bs "request" ∧ content (wkern w') mid = [])) proxy_world.
Proof.
  split; [apply fifo_willing|].
  apply (proxy_forwards (K := fifo_kernel) from mid to ltac:(done) ltac:(done) ltac:(done)
           8 client backend through proxy_world proxy_wired); [done|done|vm_compute; lia].
Defined.

(** ** A program on a buffer stream and on a pipe *)

Definition demo_stream_ops : list stream_op := [SWrite (bs "ab"); SRead 7; SWrite (bs "cdef"); SRead 3].

(** The stream's buffer is block 1, of which five bytes have been read; the
    array is block 5. *)
Definition demo_stream : BufferStream.BufferStream := BufferStream.mkBS hello 5.

Lemma demo_stream_ready : ready demo_world demo_stream (Ptr 5 0) 8 (bs " world").
Proof.
  split; [|split].
  - split; [apply demo_wf|]. exists (bs "hello"). split; [apply hello_rep|apply hello_owned|done].
  - split; simpl; [lia|done].
  - by exists (replicate 8 NUL).
Qed.

Lemma demo_ops_fit : Forall (stream_op_ok 8) demo_stream_ops.
Proof. repeat constructor; simpl; lia. Qed.

Lemma demo_array : ∃ old, mem_at (wmem demo_world) (Ptr 5 0) old ∧ length old = 8%nat.
Proof. by exists (replicate 8 NUL). Qed.

Lemma stream_fifo_witness :
  wp (run_stream (Ptr 5 0) demo_stream_ops demo_stream) (λ r w', ∃ pre' l',
    queue_run buffer_takes buffer_gives demo_stream_ops (bs " world") r.1 l'
    ∧ bs " world" ++ accepted demo_stream_ops r.1 = concat r.1.*2 ++ l'
    ∧ bs_rep (wmem w') r.2 pre' l' ∧ BufferStream.size r.2 = Z.of_nat (length l')) demo_world
  ∧ wp (run_stream (Ptr 5 0) demo_stream_ops full) (λ r w', ∃ c' l',
    queue_run (λ _ _, True) (λ _ _ _, True) demo_stream_ops (bs "data") r.1 l'
    ∧ bs "data" ++ accepted demo_stream_ops r.1 = concat r.1.*2 ++ l'
    ∧ pipe_rep (wkern w') r.2 c' l' ∧ Pipe.size r.2 = Z.of_nat (length l')) demo_world.
Proof.
  destruct demo_stream_ready as ([_ [pre Hr]] & [Hlt Hne] & _). split.
  - exact (proj1 (stream_fifo demo_world (Ptr 5 0) 8 demo_stream_ops demo_wf demo_array demo_ops_fit)
             demo_stream pre (bs " world") Hr Hlt Hne).
  - exact (proj2 (stream_fifo demo_world (Ptr 5 0) 8 demo_stream_ops demo_wf demo_array demo_ops_fit)
             full ch0 (bs "data") full_rep).
Defined.
