(* ===== verification/ExamplesNet.v ===== *)
(** * ExamplesNet: the theorems on the example programs, on drivers and on
    chunked streams on concrete states *)

From Stdlib Require Import QArith.
From S2P Require Import Prelude Memory BufferBase BufferParse MutableBuffer BufferSpec Libc Kernel.
From S2P Require Import Os Address SdDaemon Server Pipe BufferStream ChunkedStream ChunkedRuns Socket.
From S2P Require Import Driver File Splicing Relay Process Network TcpClient Instances Examples.

Import Relay.

Local Open Scope Z_scope.

(** ** The threads of network-splicing *)

(** The channels 0 to 5: to the proxy, its pipe, to the main thread, its pipe,
    the terminal and the file. *)
Definition relay_kernel : fifos := Fifos
  (list_to_map [(11, 0%nat); (12, 1%nat); (15, 2%nat); (16, 3%nat); (18, 5%nat)])
  (list_to_map [(10, 0%nat); (13, 1%nat); (14, 2%nat); (17, 3%nat); (1, 4%nat)])
  {[ 5%nat := bs "issue" ]}.
Definition relay_world : world := World (mem_of [bs "POST"]) relay_kernel 0.

Definition relay_setup : setup := Setup
  (Socket.new_fd 10 Socket.Operational) (Socket.new_fd 11 Socket.Operational)
  (Socket.new_fd 14 Socket.Operational) (Socket.new_fd 15 Socket.Operational)
  (FileStream.mkFile 18) 5 (Ptr 1 0) 4
  (Pipe.mkPipe 12 13 0) (Pipe.mkPipe 16 17 0).

Abbreviation relay_net := (@net fifo_kernel).
Abbreviation relay_start := (start relay_setup relay_world).

Lemma relay_ready :
  ready relay_setup 0%nat 1%nat 2%nat 3%nat 4%nat 5%nat (bs "POST") (bs "issue") [] relay_world.
Proof. split; [mem_wf_concrete|by vm_compute|by split|reflexivity..]. Qed.

Lemma relay_channels : NoDup [0%nat; 1%nat; 2%nat; 3%nat; 4%nat; 5%nat].
Proof. apply (bool_decide_eq_true_1 _). vm_compute. reflexivity. Qed.

(** The thread 0 (the client), 1 (the proxy) or 2 (the main thread) goes on. *)
Definition turn (who : nat) (g : relay_net) : option relay_net :=
  match who with
  | 0%nat => if client_done (nclient g) then None
             else match client_step relay_setup (nclient g) (nworld g) with
                  | Ok (c, w) => Some (Net w c (nproxy g) (nmain g)) | _ => None end
  | 1%nat => if proxy_done (nproxy g) then None
             else match proxy_step relay_setup (nproxy g) (nworld g) with
                  | Ok (p, w) => Some (Net w (nclient g) p (nmain g)) | _ => None end
  | _ => if main_done (nmain g) then None
         else match main_step relay_setup (nmain g) (nworld g) with
              | Ok (m, w) => Some (Net w (nclient g) (nproxy g) m) | _ => None end
  end.

Fixpoint turns (order : list nat) (g : relay_net) : option relay_net :=
  match order with [] => Some g | who :: order => g ← turn who g; turns order g end.

Lemma turn_step who g g' : turn who g = Some g' → net_step relay_setup g g'.
Proof.
  destruct g as [w c p m]. destruct who as [|[|who]]; simpl; intros; repeat case_match; simplify_eq;
    by constructor.
Qed.

Lemma turns_steps order : ∀ g g', turns order g = Some g' → nsteps (net_step relay_setup) (length order) g g'.
Proof.
  induction order as [|who order IH]; intros g g'; simpl; [intros [= ->]; constructor|].
  destruct (turn who g) as [g1|] eqn:E; [|done]. simpl. intros H. econstructor; [by eapply turn_step|by apply IH].
Qed.

(** The header is shown through the buffer, the file through the pipe. *)
Definition relay_order : list nat := [0; 1; 1; 2; 0; 1; 1; 1; 2; 2; 2; 2]%nat.

Definition all_shown (g : option relay_net) : bool :=
  match g with
  | Some g => finished g && bool_decide (content (wkern (nworld g)) 4%nat = bs "POSTissue")
  | None => false
  end.

Lemma relay_runs : ∃ g, nsteps (net_step relay_setup) 12 relay_start g
  ∧ finished g = true ∧ content (wkern (nworld g)) 4%nat = bs "POSTissue".
Proof.
  assert (all_shown (turns relay_order relay_start) = true) as H by (vm_compute; reflexivity).
  unfold all_shown in H. destruct (turns relay_order relay_start) as [g|] eqn:E; [|discriminate].
  apply andb_true_iff in H as [Hf Hs%bool_decide_eq_true]. exists g.
  split; [exact (turns_steps _ _ _ E)|split; [exact Hf|exact Hs]].
Qed.

Lemma relay_fifo_witness :
  ∃ g, rtc (net_step relay_setup) relay_start g ∧ finished g = true
    ∧ content (wkern (nworld g)) 4%nat = bs "POSTissue"
    ∧ ∃ h f first seen out, let k := wkern (nworld g) in
        h `prefix_of` bs "POST" ∧ bs "issue" = f ++ content k 5%nat
        ∧ h ++ f = first ++ out ++ content k 3%nat ++ content k 2%nat ++ content k 1%nat ++ content k 0%nat
        ∧ content k 4%nat = [] ++ seen ++ out
        ∧ seen `prefix_of` first ∧ (length first <= 39)%nat.
Proof.
  destruct relay_runs as (g & Hn & Hf & Hs). apply rtc_nsteps_2 in Hn.
  exists g. split; [exact Hn|]. split; [exact Hf|]. split; [exact Hs|].
  apply (relay_fifo (K := fifo_kernel) relay_setup 0%nat 1%nat 2%nat 3%nat 4%nat 5%nat relay_channels
           (bs "POST") (bs "issue") [] eq_refl relay_world g); [apply relay_ready|exact Hn].
Defined.

Lemma relay_terminates_witness :
  ∃ g, nsteps (net_step relay_setup) 12 relay_start g
    ∧ (12 <= 6 * (4 + 5) + 7)%nat ∧ (finished g = false → ∃ g', net_step relay_setup g g').
Proof.
  destruct relay_runs as (g & Hn & _). exists g. split; [exact Hn|].
  apply (relay_terminates (K := fifo_kernel) relay_setup 0%nat 1%nat 2%nat 3%nat 4%nat 5%nat relay_channels
           (bs "POST") (bs "issue") [] eq_refl relay_world 12 g); [apply relay_ready|exact Hn].
Defined.

(** ** Its functions *)

Lemma small_zero : small_memory (AL := zero_alloc).
Proof.
  intros n Hn (m & k & Hk & Hf). unfold CHUNK_SIZE in Hk. simpl in Hf. unfold zero_bytes in Hf.
  destruct (_ && _) eqn:E; [done|]. zlia.
Qed.

(** The file is descriptor 3 and the connection 4. *)
Definition client_process : process := Process (env []) (World (mem_of [])
  (Fifos {[ 3 := 0%nat ]} {[ 4 := 1%nat ]} {[ 0%nat := bs "issue" ]}) 0).

Lemma client_run_clean_witness :
  wp (Network.client_run (os := socket_os) (T := raw_text) (Inotify.mkInotify 9 None) (replicate 16 NUL)
        (bs "abcd") 8089 1000%Q) (λ _ s',
    same_fds (psys client_process) (psys s') ∧ mem_wf (wmem (pworld s'))
    ∧ only_touches 0 (wmem (pworld client_process)) (wmem (pworld s'))
    ∧ (wkern (pworld s') = wkern (pworld client_process)
       ∨ ∃ fd n, client_sent (wkern (pworld client_process)) (wkern (pworld s')) fd 3 (request n)))
    client_process.
Proof.
  apply (client_run_clean (os := socket_os) (T := raw_text) (Inotify.mkInotify 9 None) (replicate 16 NUL)
           (bs "abcd") 8089 1000%Q client_process (ok 3));
    [apply plain_fresh|apply small_zero|mem_wf_concrete|vm_compute; reflexivity].
Defined.

Lemma fifo_closes : closes_always (K := fifo_kernel).
Proof. intros fd k. by eexists. Qed.

(** The proxy's client is descriptor 4, from which three bytes come. *)
Definition proxy_process : process := Process (Os [(Accept 3, inr (ok 4))] 0 ∅)
  (World (mem_of []) (Fifos {[ 4 := 0%nat ]} {[ 5 := 1%nat ]} {[ 0%nat := bs "abc" ]}) 0).

Lemma proxy_run_clean_witness :
  wp (Network.proxy_run (os := socket_os) (T := raw_text) (replicate 16 NUL) 4 (bs "abcd") 8089
        (Socket.new_fd 4 Socket.Operational)) (λ _ s',
    Server.live (history (psys s')) = Server.live (history (psys proxy_process)) ∖ {[4]}
    ∧ environ (psys s') = environ (psys proxy_process)
    ∧ same_chans (wkern (pworld proxy_process)) (wkern (pworld s'))
    ∧ wmem (pworld s') = wmem (pworld proxy_process)) proxy_process.
Proof.
  apply (proxy_run_clean (K := fifo_kernel) (os := socket_os) (T := raw_text) (replicate 16 NUL) 4 (bs "abcd") 8089
           (Socket.new_fd 4 Socket.Operational) 0%nat proxy_process);
    [apply plain_fresh|apply fifo_closes|done|simpl; set_solver| |apply (bool_decide_eq_true_1 _); vm_compute; reflexivity].
  split; [done|]. intros fd' H. simpl in H. apply lookup_singleton_Some in H as [_ H]. discriminate.
Defined.






(** ** The TCP client *)

(** A system in which every connection takes its time. *)
Definition late_os : OS := λ h c,
  match c with Connect _ _ => inl EINPROGRESS | _ => socket_os h c end.

Lemma late_fresh : FreshFds (os := late_os).
Proof. split; intros * [= <-]; apply next_fd_fresh. Qed.

Lemma late_made h fd : connection_made (os := late_os) h fd.
Proof. by exists [], (0, 0), 0. Qed.

Abbreviation tcp_io_event := (TcpClient.io_event (os := late_os)).
Abbreviation demo_run := (tcp_run (K := fifo_kernel) (os := late_os) 0%nat).

(** Events in order: the peer sends, or the socket is ready. *)
Definition tcp_event (e : option bytes) (x : TcpClient.client * process) :
    option (TcpClient.client * process) :=
  let '(c, s) := x in
  match e with
  | Some d =>
      let k := wkern (pworld s) in let l := f_content k 0 ++ d in
      if fits l then Some (c, Process (psys s) (World (wmem (pworld s)) (f_set k 0 l) (werrno (pworld s))))
      else None
  | None =>
      match Socket.io_ (TcpClient.socket c), tcp_io_event c Socket.READ s with
      | Some _, Ok (c, s) => Some (c, s)
      | _, _ => None
      end
  end.

Fixpoint tcp_events (es : list (option bytes)) (x : TcpClient.client * process) :
    option (TcpClient.client * process) :=
  match es with [] => Some x | e :: es => x ← tcp_event e x; tcp_events es x end.

Lemma tcp_events_run es : ∀ c s c' s',
  tcp_events es (c, s) = Some (c', s') → demo_run c s (concat (omap id es)) c' s'.
Proof.
  induction es as [|e es IH]; intros c s c' s'; [intros [= <- <-]; constructor|].
  change (tcp_events (e :: es) (c, s)) with (tcp_event e (c, s) ≫= tcp_events es).
  destruct (tcp_event e (c, s)) as [[c1 s1]|] eqn:E; [|discriminate]. intros H.
  change ((Some (c1, s1) : option _) ≫= tcp_events es) with (tcp_events es (c1, s1)) in H.
  apply IH in H. revert E. destruct e as [d|]; unfold tcp_event.
  - destruct (fits _) eqn:Hf; [|discriminate]. intros [= <- <-]. cbn [omap list_omap id concat].
    eapply tcp_peer; [|exact H]. split; [|by split]. intros c0. by apply f_set_content.
  - destruct (Socket.io_ (TcpClient.socket c)) as [[fd ev]|] eqn:Ei; [|discriminate].
    destruct (tcp_io_event c Socket.READ s) as [[c2 s2]| | |] eqn:Ee; [|discriminate..].
    intros [= <- <-]. eapply (tcp_io _ _ _ _ _ Socket.READ); [exact Ei|reflexivity|exact Ee|exact H].
Qed.

(** The connection is descriptor 3. *)
Definition tcp_process : process := Process (env []) (World (mem_of [])
  (Fifos {[ 3 := 0%nat ]} {[ 3 := 1%nat ]} ∅) 0).
Definition watcher : Inotify.Inotify := Inotify.mkInotify 9 None.
Abbreviation tcp_start := (TcpClient.start (os := late_os) (T := raw_text) watcher (replicate 16 NUL)).
Abbreviation tcp_running := (running (K := fifo_kernel) (os := late_os) (T := raw_text) 0%nat 1%nat
  watcher (replicate 16 NUL)).

(** What [check] sees after the events [es] is seen by a running client. *)
Definition tcp_demo (es : list (option bytes)) (check : TcpClient.client → process → bool) : bool :=
  match tcp_start tcp_process with
  | Ok (Some c, s) =>
      bool_decide (Socket.state_ (TcpClient.socket c) = Socket.Connecting)
      && bool_decide (f_rd (wkern (pworld s)) !! Socket.fd_ (TcpClient.socket c) = Some 0%nat)
      && bool_decide (f_wr (wkern (pworld s)) !! Socket.fd_ (TcpClient.socket c) = Some 1%nat)
      && match tcp_events es (c, s) with Some (c, s) => check c s | None => false end
  | _ => false
  end.

Lemma tcp_demo_running es check :
  tcp_demo es check = true →
  ∃ s c s', tcp_running tcp_process s (concat (omap id es)) c s' ∧ check c s' = true.
Proof.
  unfold tcp_demo. destruct (tcp_start tcp_process) as [[[c0|] s]| | |] eqn:E; [|discriminate..].
  destruct (tcp_events es (c0, s)) as [[c s']|] eqn:Ee; [|by rewrite andb_false_r].
  intros [[[H1%bool_decide_eq_true H2%bool_decide_eq_true]%andb_true_iff
    H3%bool_decide_eq_true]%andb_true_iff H4]%andb_true_iff.
  exists s, c, s'. split; [|exact H4]. exists c0. split; [exact E|].
  split; [by apply tcp_events_run|]. split; [intros _; apply late_made|]. split; [exact H2|exact H3].
Qed.

(** The request goes out and a response comes. *)
Definition response_seen (c : TcpClient.client) (s : process) : bool :=
  bool_decide (TcpClient.shown c = [bs "hello"])
  && bool_decide (f_content (wkern (pworld s)) 1 = TcpClient.request).

Lemma zero_one : 0%nat ≠ 1%nat.
Proof. discriminate. Qed.

Lemma tcp_client_protocol_witness :
  ∃ s R c s', tcp_running tcp_process s R c s' ∧ response_seen c s' = true
    ∧ ∃ sent pieces,
      f_content (wkern (pworld s')) 1 = f_content (wkern (pworld s)) 1 ++ sent
      ∧ sent `prefix_of` TcpClient.request
      ∧ (Socket.state_ (TcpClient.socket c) ≠ Socket.Operational
         ∨ Socket.handler_ (TcpClient.socket c) ≠ Some TcpClient.READ_HANDLER → sent = [] ∧ pieces = [])
      ∧ TcpClient.shown c = TcpClient.c_string <$> pieces
      ∧ f_content (wkern (pworld s)) 0 ++ R = concat pieces ++ f_content (wkern (pworld s')) 0
      ∧ Server.live (history (psys s'))
        = {[Socket.fd_ (TcpClient.socket c)]} ∪ Server.live (history (psys tcp_process))
      ∧ TcpClient.loop_active c = true.
Proof.
  destruct (tcp_demo_running [None; None; Some (bs "hello"); None] response_seen)
    as (s & c & s' & Hr & Hs); [vm_compute; reflexivity|].
  eexists s, _, c, s'. split; [exact Hr|]. split; [exact Hs|].
  exact (tcp_client_protocol (K := fifo_kernel) (os := late_os) (T := raw_text) 0%nat 1%nat zero_one
           watcher (replicate 16 NUL) tcp_process s _ c s' late_fresh Hr).
Defined.

(** The response fills the array. *)
Definition array_filled (c : TcpClient.client) (s : process) : bool :=
  bool_decide (Socket.handler_ (TcpClient.socket c) = Some TcpClient.READ_HANDLER)
  && match f_read (Socket.fd_ (TcpClient.socket c)) TcpClient.BUFSIZE (wkern (pworld s)) with
     | (inr d, _) => Z.of_nat (length d) =? TcpClient.BUFSIZE
     | _ => false
     end.

Lemma tcp_client_full_read_ub_witness :
  ∃ s R c s', tcp_running tcp_process s R c s' ∧ tcp_io_event c Socket.READ s' = UB.
Proof.
  destruct (tcp_demo_running [None; None; Some (replicate (Z.to_nat TcpClient.BUFSIZE) Byte.x2e)] array_filled)
    as (s & c & s' & Hr & Hs); [vm_compute; reflexivity|].
  eexists s, _, c, s'. split; [exact Hr|].
  apply andb_true_iff in Hs as [Hh%bool_decide_eq_true Hd].
  destruct (f_read _ _ _) as [[e|d] k] eqn:E; [discriminate|].
  exact (proj2 (tcp_client_full_read_ub (K := fifo_kernel) (os := late_os) (T := raw_text) 0%nat 1%nat
    zero_one watcher (replicate 16 NUL) tcp_process s _ c s' Socket.READ late_fresh Hr eq_refl)
    d k Hh E (proj1 (Z.eqb_eq _ _) Hd)).
Defined.

(** ** Drivers *)

(** Two servers; the first one gets another driver. *)
Lemma owners_demo : ∃ h, rtc owner_step (∅, Heap ∅ 0)
  (<[0%nat := Some 2%nat]> (<[1%nat := Some 1%nat]> (<[0%nat := Some 0%nat]> ∅)), h).
Proof.
  eexists. eapply rtc_l; [by apply (owner_new _ _ 0%nat)|].
  eapply rtc_l; [by apply (owner_new _ _ 1%nat)|].
  eapply rtc_once. by apply (owner_set _ _ 0%nat (Some 0%nat)).
Qed.

Lemma driver_owned_witness :
  ∃ sv h, rtc owner_step (∅, Heap ∅ 0) (sv, h) ∧ sv !! 0%nat = Some (Some 2%nat)
    ∧ (∀ d, d ∈ drivers h ↔ exists! i, sv !! i = Some (Some d))
    ∧ ∀ i o, sv !! i = Some o →
        wp (Driver.destroy o) (λ _ h', drivers h' = drivers h ∖ held_by o) h
        ∧ ∀ d cfd, o = Some d → Driver.createSocket o cfd h = Ok (SocketDriver.create cfd, h).
Proof.
  destruct owners_demo as [h Hr]. eexists _, h. split; [exact Hr|]. split; [reflexivity|].
  exact (driver_owned _ h Hr).
Defined.

(** ** Chunked streams *)

(** An array of 8 bytes and a program with a read across chunks and a write
    of no bytes. *)
Definition chunk_world : world := World (mem_of [replicate 8 NUL]) relay_kernel 0.
Definition chunk_prog : list chunk_op :=
  [KWrite (bs "abc"); KWrite (bs "defgh"); KReadChar; KRead 4; KRead 8; KReadChar; KWrite []; KRead 1].

Lemma chunk_prog_ok : Forall (chunk_op_ok 8) chunk_prog.
Proof.
  unfold chunk_prog. repeat (apply Forall_cons_2; [unfold chunk_op_ok; simpl; split_and?; lia|]).
  apply Forall_nil_2.
Qed.

Lemma chunk_world_ready : chunk_ready (K := fifo_kernel) chunk_world [] (Ptr 1 0) 8 [].
Proof.
  split; [mem_wf_concrete|]. split; [split; constructor|].
  split; [by exists (replicate 8 NUL)|].
  split; [lia|]. split; [simpl; lia|]. apply not_elem_of_nil.
Qed.

Lemma chunked_fifo_witness :
  wp (run_chunks (K := fifo_kernel) (Ptr 1 0) 8 chunk_prog []) (λ r w', as_chunks chunk_prog [] r w'
    ∧ (Forall (λ l : bytes, l ≠ []) [] → KWrite [] ∉ chunk_prog → as_queue chunk_prog [] r w')
    ∧ ∃ l, same_bytes w' r.2 l ∧ ChunkedStream.size r.2 = u64 (Z.of_nat (length l))) chunk_world.
Proof.
  exact (chunked_fifo (K := fifo_kernel) chunk_world [] (Ptr 1 0) 8 [] chunk_prog
           chunk_prog_ok chunk_world_ready).
Defined.
