(* ===== verification/ExamplesEcho.v ===== *)
(** * ExamplesEcho: the theorems on the echo server with several clients and on
    the TCP client's response on concrete states *)

From Stdlib Require Import QArith.
From S2P Require Import Prelude Memory BufferBase BufferParse MutableBuffer BufferSpec Libc Kernel.
From S2P Require Import Os Address SdDaemon Server Pipe BufferStream Socket Echo File Process EchoServer.
From S2P Require Import Network TcpClient TcpLive Instances Examples ExamplesNet.

Import EchoServer.

Local Open Scope Z_scope.

(** ** Two clients of the echo server *)

(** Before they come, with the first one and with both: descriptors 4 and 5. *)
Definition no_client : fifos := Fifos ∅ ∅ ∅.
Definition one_client : fifos := Fifos {[ 4 := 0%nat ]} {[ 4 := 1%nat ]} {[ 0%nat := bs "hi!" ]}.
Definition two_clients_net : fifos :=
  Fifos {[ 4 := 0%nat; 5 := 2%nat ]} {[ 4 := 1%nat; 5 := 3%nat ]} {[ 0%nat := bs "hi!"; 2%nat := bs "yo" ]}.

Lemma fifo_close_alone : close_fails_alone (K := fifo_kernel).
Proof. intros fd k e k'. discriminate. Qed.

Lemma first_comes : new_connection (K := fifo_kernel) no_client one_client 4 0%nat 1%nat.
Proof.
  split; [by split_and!|]. split.
  - intros ch H0 _. simpl. unfold f_content. simpl. by rewrite lookup_singleton_ne.
  - intros fd Hne. simpl. by rewrite !lookup_singleton_ne.
Qed.

Lemma second_comes : new_connection (K := fifo_kernel) one_client two_clients_net 5 2%nat 3%nat.
Proof.
  split; [by split_and!|]. split.
  - intros ch H2 _. simpl. unfold f_content. simpl.
    destruct (decide (ch = 0%nat)) as [->|Hne]; [done|].
    by rewrite !lookup_insert_ne, ?lookup_singleton_ne by congruence.
  - intros fd Hne. simpl. destruct (decide (fd = 4)) as [->|H4]; [done|].
    by rewrite !lookup_insert_ne, ?lookup_singleton_ne by congruence.
Qed.

Abbreviation srv_start := (EchoServer.start (os := socket_os) (T := raw_text) (replicate 16 NUL)).
Abbreviation srv_accept := (EchoServer.accept_event (K := fifo_kernel) (os := socket_os)).
Abbreviation srv_io := (EchoServer.client_io (AL := zero_alloc) (K := fifo_kernel) (os := socket_os)).
Abbreviation srv_step := (EchoServer.step (AL := zero_alloc) (K := fifo_kernel) (os := socket_os)).

(** Both clients come, and the first one's message is read and sent back. *)
Definition first_served (c : Echo.Client) (p : process) : bool :=
  bool_decide (f_content two_clients_net 0 = bs "hi!" ++ f_content (EchoServer.kern p) 0)
  && bool_decide (f_content (EchoServer.kern p) 1 = f_content two_clients_net 1 ++ bs "hi!").

Definition both_come (v : Echo.Server) (o : os_state) : bool :=
  match srv_accept v (Process o (World (mem_of []) no_client 0)) with
  | Ok (Some c1, p1) =>
      match srv_accept v (EchoServer.with_kern p1 one_client 0) with
      | Ok (Some c2, p2) =>
          (Socket.fd_ (Echo.socket_ c1) =? 4) && (Socket.fd_ (Echo.socket_ c2) =? 5)
          && bool_decide (Socket.io_ (Echo.socket_ c1) ≠ None)
          && match srv_io v c1 READ_WRITE (EchoServer.with_kern p2 two_clients_net 0) with
             | Ok ((Some c, _), p3) => first_served c p3
             | _ => false
             end
      | _ => false
      end
  | _ => false
  end.

Definition srv_process (o : os_state) : process := Process o (World (mem_of []) no_client 0).

(** The server runs, and [check] holds of it. *)
Definition with_server (check : Echo.Server → os_state → bool) : bool :=
  match srv_start (env []) with Ok (Some v, o) => check v o | _ => false end.

Lemma with_server_starts check :
  with_server check = true → ∃ v o, srv_start (env []) = Ok (Some v, o) ∧ check v o = true.
Proof.
  unfold with_server. destruct (srv_start (env [])) as [[[v|] o]| | |]; [|discriminate..]. eauto.
Qed.

Definition srv_reaches (v : Echo.Server) (o : os_state) (g : system) : Prop :=
  rtc srv_step (fresh_system (K := fifo_kernel) v (srv_process o)) g.

Lemma both_come_run v o :
  listening v = true → both_come v o = true →
  ∃ g s, srv_reaches v o g ∧ sessions g !! 4 = Some s ∧ rcvd s = bs "hi!" ∧ sent s = bs "hi!".
Proof.
  unfold listening. destruct (Echo.listener_ v) as [inet|] eqn:Hl; [|discriminate]. intros Hact.
  unfold both_come. destruct (srv_accept v _) as [[[c1|] p1]| | |] eqn:E1; [|discriminate..].
  destruct (srv_accept v (with_kern p1 _ _)) as [[[c2|] p2]| | |] eqn:E2; [|discriminate..].
  destruct (srv_io v c1 _ _) as [[[[c|] v3] p3]| | |] eqn:E3; [|by rewrite ?andb_false_r..].
  intros [[[F1%Z.eqb_eq F2%Z.eqb_eq]%andb_true_iff Hio%bool_decide_eq_true]%andb_true_iff
    [H1%bool_decide_eq_true H2%bool_decide_eq_true]%andb_true_iff]%andb_true_iff.
  destruct (accept_event_spec _ _ _ _ E1) as [P1 _]; [mem_wf_concrete|].
  destruct (accept_event_spec _ _ _ _ E2) as [P2 _]; [unfold with_kern; cbn [pworld wmem]; rewrite P1; mem_wf_concrete|].
  destruct (Socket.io_ (Echo.socket_ c1)) as [ev|] eqn:Hev; [|done].
  set (s := Session (K := fifo_kernel) c 0%nat 1%nat (bs "hi!") (bs "hi!")).
  eexists (System v3 (<[4 := s]> _) p3), s.
  split; [|split; [apply lookup_insert_eq|split; reflexivity]].
  eapply rtc_l; [eapply (step_accept (K := fifo_kernel) _ _ _ inet c1 p1 one_client 0 0%nat 1%nat); [done..| |done]|].
  { unfold kern. rewrite P1, F1. apply first_comes. }
  eapply rtc_l; [eapply (step_accept (K := fifo_kernel) _ _ _ inet c2 p2 two_clients_net 0 2%nat 3%nat); [done|done|exact E2| | |]|].
  { rewrite F1, F2. reflexivity. }
  { unfold kern. rewrite P2, F2. apply second_comes. }
  { rewrite F1. intros fd s0 [<- <-]%lookup_singleton_Some. by split_and!. }
  rewrite F1, F2. apply rtc_once.
  eapply (step_io (K := fifo_kernel) _ _ _ 4 (Session (K := fifo_kernel) c1 0%nat 1%nat [] []) ev READ_WRITE);
    [reflexivity|exact Hev|reflexivity|exact E3|].
  exists (bs "hi!"), (bs "hi!"). split; [split; [exact H1|exact H2]|reflexivity].
Qed.

Lemma srv_demo : ∃ v o g s, srv_start (env []) = Ok (Some v, o)
  ∧ srv_reaches v o g ∧ sessions g !! 4 = Some s ∧ rcvd s = bs "hi!" ∧ sent s = bs "hi!".
Proof.
  destruct (with_server_starts (λ v o, listening v && both_come v o)) as (v & o & Hs & Hb);
    [vm_compute; reflexivity|]. apply andb_true_iff in Hb as [Hl Hb].
  destruct (both_come_run v o Hl Hb) as (g & s & Hg). exists v, o, g, s. split; [exact Hs|exact Hg].
Qed.

Lemma enough_for (l : bytes) : l = bs "hi!" →
  ∀ n, 0 <= n <= Z.of_nat (length l) → ¬ no_memory (H := zero_alloc) n.
Proof.
  intros -> n Hn (m & k & Hk & Hf). unfold CHUNK_SIZE in Hk. simpl in Hf. unfold zero_bytes in Hf.
  change (length (bs "hi!")) with 3%nat in Hn. destruct (_ && _) eqn:E; [done|]. zlia.
Qed.

Lemma echo_server_isolated_witness :
  ∃ v o g s, srv_start (env []) = Ok (Some v, o) ∧ srv_reaches v o g ∧ sessions g !! 4 = Some s
    ∧ rcvd s = bs "hi!" ∧ sent s = bs "hi!"
    ∧ (∃ rest, rcvd s = sent s ++ rest ∧ watching (client s) rest
         ∧ echo_rep (Z.of_nat (length (rcvd s))) (client s) rest (pworld (proc g)))
    ∧ ∀ fd' s', fd' ≠ 4 → sessions g !! fd' = Some s' → strangers s s'.
Proof.
  destruct srv_demo as (v & o & g & s & Hs & Hg & H4 & Hr & Hq). exists v, o, g, s.
  split; [exact Hs|]. split; [exact Hg|]. split; [exact H4|]. split; [exact Hr|]. split; [exact Hq|].
  apply (echo_server_isolated (AL := zero_alloc) (K := fifo_kernel) (os := socket_os) (T := raw_text)
           fifo_close_alone (replicate 16 NUL) (env []) v (srv_process o) g 4 s);
    [exact Hs|mem_wf_concrete|exact Hg|exact H4|exact (enough_for _ Hr)].
Defined.

Lemma echo_server_serves_witness :
  ∃ v o g s, srv_start (env []) = Ok (Some v, o) ∧ srv_reaches v o g ∧ sessions g !! 4 = Some s
    ∧ wp (srv_io (srv g) (client s) Socket.WRITE) (λ r p',
        frame (client s) (pworld (proc g)) r.1 (pworld p')) (proc g)
    ∧ wp (client_timer (AL := zero_alloc) (K := fifo_kernel) (srv g) (client s)) (λ r p',
        r.1 = None ∧ frame (client s) (pworld (proc g)) None (pworld p')) (proc g).
Proof.
  destruct srv_demo as (v & o & g & s & Hs & Hg & H4 & _). exists v, o, g, s.
  split; [exact Hs|]. split; [exact Hg|]. split; [exact H4|].
  apply (echo_server_serves (AL := zero_alloc) (K := fifo_kernel) (os := socket_os) (T := raw_text)
           fifo_close_alone (replicate 16 NUL) (env []) v (srv_process o) g 4 s Socket.WRITE);
    [exact Hs|mem_wf_concrete|exact Hg|exact H4|reflexivity|discriminate].
Defined.

(** The first client comes and sends the command: a line with two dots. *)
Definition dots : bytes := bs ".." ++ [Byte.x0d; Byte.x0a].
Definition dots_client : fifos := Fifos {[ 4 := 0%nat ]} {[ 4 := 1%nat ]} {[ 0%nat := dots ]}.

Definition dots_read (v : Echo.Server) (o : os_state) : bool :=
  match srv_accept v (srv_process o) with
  | Ok (Some c1, p1) =>
      listening v && bool_decide (Socket.state_ (Echo.socket_ c1) = Socket.Operational)
      && bool_decide (Socket.handler_ (Echo.socket_ c1) = Some Echo.HANDLER)
      && (Socket.fd_ (Echo.socket_ c1) =? 4)
      && match srv_io v c1 Socket.READ (with_kern p1 dots_client 0) with
         | Ok ((Some c, _), p) =>
             bool_decide (f_content dots_client 0 = dots ++ f_content (kern p) 0)
             && bool_decide (f_content (kern p) 1 = f_content dots_client 1 ++ [])
         | _ => false
         end
  | _ => false
  end.

Lemma echo_server_stops_witness :
  ∃ g g', listening (srv g) = true
    ∧ wp (on_os (Echo.sig (srv g))) (λ v p,
        no_more_clients (AL := zero_alloc) (K := fifo_kernel) (os := socket_os) (System v (sessions g) p)) (proc g)
    ∧ dom (sessions g') ⊆ dom (sessions g)
    ∧ no_more_clients (AL := zero_alloc) (K := fifo_kernel) (os := socket_os) g'.
Proof.
  destruct (with_server_starts dots_read) as (v & o & _ & H); [vm_compute; reflexivity|].
  unfold dots_read in H. destruct (srv_accept v _) as [[[c1|] p1]| | |]; [|discriminate..].
  destruct (srv_io v c1 _ _) as [[[[c|] v3] p3]| | |] eqn:E3; [|by rewrite ?andb_false_r in H..].
  apply andb_true_iff in H as [[[[Hl Hst%bool_decide_eq_true]%andb_true_iff
    Hh%bool_decide_eq_true]%andb_true_iff Hfd%Z.eqb_eq]%andb_true_iff
    [H1%bool_decide_eq_true H2%bool_decide_eq_true]%andb_true_iff].
  set (s1 := Session (K := fifo_kernel) c1 0%nat 1%nat [] []).
  set (g := System v {[ 4 := s1 ]} (with_kern p1 dots_client 0)).
  set (s := Session (K := fifo_kernel) c 0%nat 1%nat dots []).
  destruct (echo_server_stops (AL := zero_alloc) (K := fifo_kernel) (os := socket_os) g Hl) as [Hsig Hmsg].
  exists g, (System v3 {[ 4 := s ]} p3). split; [exact Hl|]. split; [exact Hsig|].
  refine (Hmsg 4 s1 Socket.READ dots (Fifos {[ 4 := 0%nat ]} {[ 4 := 1%nat ]} {[ 0%nat := [] ]}) (Some c) v3 p3 _
    eq_refl Hst Hh _ _ _ _ eq_refl eq_refl E3 _).
  - simpl. rewrite Hfd. vm_compute. reflexivity.
  - apply (bool_decide_unpack _). vm_compute. exact I.
  - vm_compute. lia.
  - reflexivity.
  - exists dots, []. split; [split; [exact H1|exact H2]|reflexivity].
Defined.

(** ** The TCP client's response *)

(** It is there when the client starts. *)
Definition answer_process : process := Process (env []) (World (mem_of [])
  (Fifos {[ 3 := 0%nat ]} {[ 3 := 1%nat ]} {[ 0%nat := bs "hello" ]}) 0).

Definition answer_ready : bool :=
  match tcp_start answer_process with
  | Ok (Some c, s) =>
      bool_decide (Socket.state_ (TcpClient.socket c) = Socket.Connecting)
      && bool_decide (f_rd (wkern (pworld s)) !! Socket.fd_ (TcpClient.socket c) = Some 0%nat)
      && bool_decide (f_wr (wkern (pworld s)) !! Socket.fd_ (TcpClient.socket c) = Some 1%nat)
      && bool_decide (f_content (wkern (pworld s)) 0 = bs "hello")
  | _ => false
  end.

Lemma tcp_client_answered_witness :
  ∃ c s, tcp_start answer_process = Ok (Some c, s) ∧ f_content (wkern (pworld s)) 0 = bs "hello"
    ∧ eventually (tcp_round (K := fifo_kernel) (os := late_os))
        (answered (K := fifo_kernel) 0%nat 1%nat (f_content (wkern (pworld s)) 1)
           (f_content (wkern (pworld s)) 0)) (c, s).
Proof.
  assert (answer_ready = true) as H by (vm_compute; reflexivity). unfold answer_ready in H.
  destruct (tcp_start answer_process) as [[[c|] s]| | |] eqn:E; [|discriminate..].
  apply andb_true_iff in H as [[[H1%bool_decide_eq_true H2%bool_decide_eq_true]%andb_true_iff
    H3%bool_decide_eq_true]%andb_true_iff H4%bool_decide_eq_true].
  exists c, s. split; [reflexivity|]. split; [exact H4|].
  apply (tcp_client_answered (K := fifo_kernel) (os := late_os) (T := raw_text) 0%nat 1%nat zero_one
           watcher (replicate 16 NUL) answer_process s c);
    [apply late_fresh|exact E|intros _; apply late_made|exact H2|exact H3|].
  change (content (wkern (pworld s)) 0%nat) with (f_content (wkern (pworld s)) 0). rewrite H4. vm_compute. reflexivity.
Defined.
